(* ===== verification/_CoqProject ===== *)
-Q . S2P
Prelude.v
Async.v
LockOrder.v
Primality.v
Field.v
Starknet.v
ConstraintSystem.v
ListR1CS.v
Gates.v
Comparators.v
NonNative.v
NonNativeProperties.v
Arithmetic.v
Edwards.v
FixedPoint.v
PoseidonConstants.v
Poseidon.v
Types.v
Merkle.v
Commitments.v
ElGamal.v
MatchTypes.v
Mpc.v
MpcGadgets.v
MpcProperties.v
MpcComparisons.v
MpcMatch.v
MpcPoseidon.v
Readings.v
Statements.v
ValidMatchEncryption.v
MatchEncryptionProperties.v
Lru.v
RelayerTypes.v
OrderBook.v
PeerIndex.v
WalletIndex.v
Messages.v
HandshakeCache.v
World.v
RelayerState.v
HandshakeIndex.v
Gossip.v
GossipProperties.v
HandshakeManager.v
Encumber.v
ChainEvents.v
ChainProperties.v
Relayer.v
ValidWalletUpdate.v
ValidCommitments.v
ValidSettle.v
ValidWalletCreate.v
