(* ===== verification/Prelude.v ===== *)
(** * A verification library for the Renegade relayer

    (The complete description of the development is kept here; see below.) *)

From Stdlib Require Export ZArith Lia.
From stdpp Require Export base numbers list.

#[global] Set Default Goal Selector "!".

(** * Outcomes of Rust code

    [Ret] is a normal return, [Fail] an [Err] that the caller may handle or
    propagate with [?], and [Panic] an abort: a failed [assert!], an [unwrap] of
    an error or an index out of range. *)
Inductive outcome (E A : Type) : Type :=
  | Ret (a : A)
  | Fail (e : E)
  | Panic.
Arguments Ret {E A} a.
Arguments Fail {E A} e.
Arguments Panic {E A}.

Declare Scope outcome_scope.
Delimit Scope outcome_scope with outcome.

Definition obind {E A B} (m : outcome E A) (k : A -> outcome E B) : outcome E B :=
  match m with
  | Ret a => k a
  | Fail e => Fail e
  | Panic => Panic
  end.

Notation "'try!' x ':=' m 'in' k" := (obind m (fun x => k))
  (at level 10, x pattern, m at level 100, k at level 200)
  : outcome_scope.

(** [assert!(b)] *)
Definition assert_ {E} (b : bool) : outcome E unit := if b then Ret tt else Panic.

(** [r.unwrap()] *)
Definition unwrap {E A} (m : outcome E A) : outcome E A :=
  match m with Ret a => Ret a | _ => Panic end.

Definition is_ret {E A} (m : outcome E A) : bool :=
  match m with Ret _ => true | _ => false end.

Lemma obind_ret {E A B} (m : outcome E A) (k : A -> outcome E B) b :
  obind m k = Ret b <-> exists a, m = Ret a /\ k a = Ret b.
Proof.
  destruct m as [a|e|]; cbn; split; [eauto|..]; intros H; try discriminate.
  - destruct H as (a' & [= <-] & H). exact H.
  - destruct H as (a' & H & _). discriminate.
  - destruct H as (a' & H & _). discriminate.
Qed.

(** * Automation *)

(** Facts about machine integers and modular representatives are left to
    [lia] after the quotients have been named. *)
Ltac div_lia := Z.div_mod_to_equations; nia.

(** Destructs the scrutinee of a match of the goal or of a hypothesis. *)
Ltac case_step :=
  match goal with
  | |- context [match ?x with _ => _ end] => destruct x eqn:?
  | H : context [match ?x with _ => _ end] |- _ => destruct x eqn:?
  end.

(** * Lists *)

(** The sum of [c^i * f x] over the positions of a list. *)
Fixpoint le_sum (base : Z) (l : list Z) : Z :=
  match l with
  | [] => 0
  | x :: l' => x + base * le_sum base l'
  end%Z.

(** The [n] least significant digits of [z], least significant first. *)
Fixpoint le_digits (base : Z) (n : nat) (z : Z) : list Z :=
  match n with
  | O => []
  | S n' => (z mod base)%Z :: le_digits base n' (z / base)%Z
  end.

Section digits.
Local Open Scope Z_scope.
  Context (base : Z) (Hbase : 1 < base).

Lemma length_le_digits n z : length (le_digits base n z) = n.
Proof. revert z; induction n as [|n IH]; intros z; cbn; [done|by rewrite IH]. Qed.

Lemma le_sum_digits n z : le_sum base (le_digits base n z) = z mod base ^ Z.of_nat n.
Proof.
  revert z; induction n as [|n IH]; intros z; cbn [le_digits le_sum].
  - by rewrite Z.mod_1_r.
  - rewrite IH, Nat2Z.inj_succ, Z.pow_succ_r, Z.rem_mul_r by lia. lia.
Qed.

Lemma le_sum_digits_small n z :
  0 <= z < base ^ Z.of_nat n -> le_sum base (le_digits base n z) = z.
Proof. intros Hz. by rewrite le_sum_digits, Z.mod_small. Qed.

Lemma le_digits_range n z : Forall (fun d => 0 <= d < base) (le_digits base n z).
Proof.
  revert z; induction n as [|n IH]; intros z; cbn; constructor; auto.
  apply Z.mod_pos_bound; lia.
Qed.

Lemma le_sum_range l :
  Forall (fun d => 0 <= d < base) l -> 0 <= le_sum base l < base ^ Z.of_nat (length l).
Proof.
  induction 1 as [|d l Hd _ IH]; cbn [le_sum length]; [lia|].
  rewrite Nat2Z.inj_succ, Z.pow_succ_r by lia. nia.
Qed.

Lemma le_sum_app l1 l2 :
  le_sum base (l1 ++ l2) = le_sum base l1 + base ^ Z.of_nat (length l1) * le_sum base l2.
Proof.
  induction l1 as [|d l IH]; cbn [le_sum app length]; [lia|].
  rewrite IH, Nat2Z.inj_succ, Z.pow_succ_r by lia. lia.
Qed.

Lemma le_sum_zeros n : le_sum base (repeat 0 n) = 0.
Proof. induction n as [|n IH]; cbn; [done|]. rewrite IH. lia. Qed.

Lemma le_digits_sum l :
  Forall (fun d => 0 <= d < base) l -> le_digits base (length l) (le_sum base l) = l.
Proof.
  induction 1 as [|d l Hd _ IH]; cbn [le_sum le_digits length]; [done|].
  rewrite (Z.mul_comm base), Z.mod_add, Z.mod_small, Z.div_add, Z.div_small by lia.
  f_equal. by rewrite Z.add_0_l.
Qed.
End digits.

(** A left-to-right search for the first index that satisfies a test, as
    [Iterator::position] does. *)
Fixpoint position {A} (p : A -> bool) (l : list A) : option nat :=
  match l with
  | [] => None
  | x :: l' => if p x then Some 0 else S <$> position p l'
  end.

Lemma position_Some {A} (p : A -> bool) l i :
  position p l = Some i ->
  exists x, l !! i = Some x /\ p x = true /\
    forall j y, j < i -> l !! j = Some y -> p y = false.
Proof.
  revert i; induction l as [|x l IH]; intros i; cbn; [done|].
  destruct (p x) eqn:Hx.
  - intros [= <-]. exists x. repeat split; [done..|]. intros; lia.
  - destruct (position p l) as [k|]; [|done]. intros [= <-].
    destruct (IH k eq_refl) as (y & Hy & Hp & Hlt). exists y.
    repeat split; [done..|]. intros [|j] z Hj; cbn; [naive_solver|].
    apply Hlt. lia.
Qed.

Lemma position_None {A} (p : A -> bool) l :
  position p l = None <-> Forall (fun x => p x = false) l.
Proof.
  induction l as [|x l IH]; cbn; [split; auto|].
  rewrite Forall_cons. destruct (p x) eqn:Hx.
  - split; [done|]. intros [? ?]. done.
  - destruct (position p l); cbn; naive_solver.
Qed.

(** Equality of lists, one element at a time, where [injection] would look into the
    representation of the elements. *)
Lemma cons_inj {A} (x y : A) l k : x :: l = y :: k -> x = y /\ l = k.
Proof. by intros [= -> ->]. Qed.

Lemma cons_eq {A} (x y : A) l k : x = y -> l = k -> x :: l = y :: k.
Proof. by intros -> ->. Qed.
