(* ===== verification/Async.v ===== *)
(** Asynchronous tasks over shared state.

    The relayer's workers are [async] functions that run on a thread pool, share state
    behind tokio readers-writer locks and may be interleaved wherever they await.  A
    [task] is the sequence of those points: an atomic access of the shared state, or the
    acquisition or release of a lock.  [exec] runs a task without interruption; [step]
    runs a pool of tasks in any interleaving. *)

From stdpp Require Import gmap relations.
From S2P Require Import Prelude.

#[local] Unset Implicit Arguments.
#[global] Set Default Goal Selector "!".

(** How a lock is taken: [read().await] or [write().await]. *)
Inductive mode := Read | Write.

#[export] Instance mode_eq_dec : EqDecision mode.
Proof. solve_decision. Defined.

Section task.
  Context {L S E : Type}.

(** [Atom upd k] replaces the shared state [s] by [upd s] and continues with [k s]. *)
Inductive task (A : Type) : Type :=
  | Done (r : outcome E A)
  | Atom (upd : S -> S) (k : S -> task A)
  | Acquire (md : mode) (l : L) (k : task A)
  | Release (l : L) (k : task A).
Arguments Done {A} r.
Arguments Atom {A} upd k.
Arguments Acquire {A} md l k.
Arguments Release {A} l k.

(** Continues with the outcome of a task, normal or not. *)
Fixpoint then_ {A B} (m : task A) (k : outcome E A -> task B) : task B :=
  match m with
  | Done r => k r
  | Atom upd m' => Atom upd (fun s => then_ (m' s) k)
  | Acquire md l m' => Acquire md l (then_ m' k)
  | Release l m' => Release l (then_ m' k)
  end.

(** Sequencing with [?]: an error or a panic ends the task. *)
Definition tbind {A B} (m : task A) (k : A -> task B) : task B :=
  then_ m (fun r => match r with Ret a => k a | Fail e => Done (Fail e) | Panic => Done Panic end).

Definition tret {A} (a : A) : task A := Done (Ret a).
Definition tfail {A} (e : E) : task A := Done (Fail e).
Definition tpanic {A} : task A := Done Panic.

(** An atomic access of the state, in the forms the code has: a read, an update, an
    update with a result, one that may fail or panic. *)
Definition gets {A} (f : S -> A) : task A := Atom (fun s => s) (fun s => tret (f s)).
Definition modify (f : S -> S) : task unit := Atom f (fun _ => tret tt).
Definition act {A} (f : S -> A * S) : task A := Atom (fun s => (f s).2) (fun s => tret (f s).1).
Definition act_out {A} (f : S -> outcome E A * S) : task A :=
  Atom (fun s => (f s).2) (fun s => Done (f s).1).

(** A scope that holds the guard of a lock: the guard is dropped however the scope ends. *)
Definition holding {A} (md : mode) (l : L) (body : task A) : task A :=
  Acquire md l (then_ body (fun r => Release l (Done r))).

(** [for x in l { body }] *)
Fixpoint tfor {X} (l : list X) (body : X -> task unit) : task unit :=
  match l with
  | [] => tret tt
  | x :: l' => tbind (body x) (fun _ => tfor l' body)
  end.

(** ** A task that runs alone *)

Fixpoint exec {A} (m : task A) (s : S) : outcome E A * S :=
  match m with
  | Done r => (r, s)
  | Atom upd k => exec (k s) (upd s)
  | Acquire _ _ k | Release _ k => exec k s
  end.

Lemma exec_then {A B} (m : task A) (k : outcome E A -> task B) s :
  exec (then_ m k) s = let (r, s') := exec m s in exec (k r) s'.
Proof. revert s; induction m; intros s; cbn; auto. Qed.

Lemma exec_bind {A B} (m : task A) (k : A -> task B) s :
  exec (tbind m k) s =
  match exec m s with
  | (Ret a, s') => exec (k a) s'
  | (Fail e, s') => (Fail e, s')
  | (Panic, s') => (Panic, s')
  end.
Proof. unfold tbind. rewrite exec_then. by destruct (exec m s) as [[] ?]. Qed.

Lemma exec_holding {A} md l (m : task A) s : exec (holding md l m) s = exec m s.
Proof. cbn. rewrite exec_then. by destruct (exec m s). Qed.

(** ** What a task does to the state at every point of its run *)

(** Every atomic access of the task, from any state that satisfies [I], gives one. *)
Fixpoint respects {A} (I : S -> Prop) (m : task A) : Prop :=
  match m with
  | Done _ => True
  | Atom upd k => forall s, I s -> I (upd s) /\ respects I (k s)
  | Acquire _ _ k | Release _ k => respects I k
  end.

Lemma respects_then {A B} I (m : task A) (k : outcome E A -> task B) :
  respects I m -> (forall r, respects I (k r)) -> respects I (then_ m k).
Proof.
  intros Hm Hk. induction m as [r|upd m IH| |]; cbn in *; auto.
  intros s Hs. destruct (Hm s Hs). auto.
Qed.

Lemma respects_bind {A B} I (m : task A) (k : A -> task B) :
  respects I m -> (forall a, respects I (k a)) -> respects I (tbind m k).
Proof. intros Hm Hk. apply respects_then; [done|]. intros []; cbn; auto. Qed.

Lemma respects_holding {A} I md l (m : task A) : respects I m -> respects I (holding md l m).
Proof. intros Hm. cbn. by apply respects_then. Qed.

Lemma respects_for {X} I (l : list X) body :
  (forall x, respects I (body x)) -> respects I (tfor l body).
Proof. intros H. induction l; cbn; [done|]. by apply respects_bind. Qed.

Lemma respects_gets {A} I (f : S -> A) : respects I (gets f).
Proof. cbn. auto. Qed.

Lemma respects_modify I f : (forall s, I s -> I (f s)) -> respects I (modify f).
Proof. cbn. auto. Qed.

Lemma respects_act {A} I (f : S -> A * S) : (forall s, I s -> I (f s).2) -> respects I (act f).
Proof. cbn. auto. Qed.

Lemma respects_act_out {A} I (f : S -> outcome E A * S) :
  (forall s, I s -> I (f s).2) -> respects I (act_out f).
Proof. cbn. auto. Qed.

Lemma respects_exec {A} I (m : task A) s : respects I m -> I s -> I (exec m s).2.
Proof.
  revert s; induction m as [r|upd m IH| |]; cbn; intros s Hm Hs; auto.
  destruct (Hm s Hs). auto.
Qed.
End task.

Arguments task : clear implicits.
Arguments Done {L S E A} r.
Arguments Atom {L S E A} upd k.
Arguments Acquire {L S E A} md l k.
Arguments Release {L S E A} l k.

(** ** Handling errors *)

(** The result of a fallible task as a value, for a caller with errors of its own.  A
    panic is no such value: it ends the caller as well. *)
Fixpoint attempt {L S E E' A} (m : task L S E A) : task L S E' (outcome E A) :=
  match m with
  | Done Panic => Done Panic
  | Done r => Done (Ret r)
  | Atom upd k => Atom upd (fun s => attempt (k s))
  | Acquire md l k => Acquire md l (attempt k)
  | Release l k => Release l (attempt k)
  end.

Lemma exec_attempt {L S E E' A} (m : task L S E A) s :
  exec (attempt (E' := E') m) s =
  let (r, s') := exec m s in (match r with Panic => Panic | _ => Ret r end, s').
Proof. revert s; induction m as [[]| | |]; intros s; cbn; auto. Qed.

Lemma respects_attempt {L S E E' A} I (m : task L S E A) :
  respects I m -> respects I (attempt (E' := E') m).
Proof.
  induction m as [[]|upd k IH| |]; cbn; auto. intros Hm s Hs. destruct (Hm s Hs). auto.
Qed.

Declare Scope task_scope.
Delimit Scope task_scope with task.
Notation "'let*' x ':=' m 'in' k" := (tbind m (fun x => k))
  (at level 10, x pattern, m at level 100, k at level 200) : task_scope.
Notation "m ';;*' k" := (tbind m (fun _ => k)) (at level 100, k at level 200, right associativity)
  : task_scope.

(** Splits a task into its atomic accesses, for which it asks; lemmas about named tasks
    are taken from the hints. *)
Create HintDb respects.
Ltac respects_split :=
  repeat first
    [ done | solve [auto with respects nocore]
    | apply respects_bind; [|intros ?] | apply respects_holding | apply respects_attempt | apply respects_for; intros ?
    | apply respects_gets | apply respects_modify; intros ? ? | apply respects_act; intros ? ?
    | apply respects_act_out; intros ? ? | case_match ].

(** * Pools of tasks *)

Section pool.
  Context {L S E : Type} `{EqDecision L}.

Abbreviation job := (task L S E unit).

(** Who holds a lock. *)
Inductive holder := Writer (t : nat) | Readers (ts : list nat).

(** The locks of the shared state, the state, and the tasks by number. *)
Record config := Config { held : L -> holder; shared : S; tasks : nat -> option job }.

Definition unlocked : L -> holder := fun _ => Readers [].

Definition set_held (l : L) (h : holder) (f : L -> holder) : L -> holder :=
  fun l' => if decide (l' = l) then h else f l'.

Definition set_task (t : nat) (m : job) (ts : nat -> option job) : nat -> option job :=
  fun t' => if decide (t' = t) then Some m else ts t'.

(** A lock admits any number of readers or one writer. *)
Definition acquire (md : mode) (t : nat) (h : holder) : option holder :=
  match md, h with
  | Write, Readers [] => Some (Writer t)
  | Read, Readers ts => Some (Readers (t :: ts))
  | _, _ => None
  end.

Definition release (t : nat) (h : holder) : holder :=
  match h with
  | Writer t' => if decide (t' = t) then Readers [] else h
  | Readers ts => Readers (filter (fun t' => t' <> t) ts)
  end.

(** New tasks may be spawned from the jobs [spawnable]. *)
Inductive step (spawnable : job -> Prop) : config -> config -> Prop :=
  | step_atom t h s ts upd k :
      ts t = Some (Atom upd k) ->
      step spawnable (Config h s ts) (Config h (upd s) (set_task t (k s) ts))
  | step_acquire t h h' s ts md l k :
      ts t = Some (Acquire md l k) -> acquire md t (h l) = Some h' ->
      step spawnable (Config h s ts) (Config (set_held l h' h) s (set_task t k ts))
  | step_release t h s ts l k :
      ts t = Some (Release l k) ->
      step spawnable (Config h s ts) (Config (set_held l (release t (h l)) h) s (set_task t k ts))
  | step_spawn t h s ts m :
      ts t = None -> spawnable m ->
      step spawnable (Config h s ts) (Config h s (set_task t m ts)).

(** One step of the task [t], and a schedule of such steps. *)
Definition run_task (t : nat) (c : config) : option config :=
  match tasks c t with
  | Some (Atom upd k) => Some (Config (held c) (upd (shared c)) (set_task t (k (shared c)) (tasks c)))
  | Some (Acquire md l k) =>
      h ← acquire md t (held c l); Some (Config (set_held l h (held c)) (shared c) (set_task t k (tasks c)))
  | Some (Release l k) =>
      Some (Config (set_held l (release t (held c l)) (held c)) (shared c) (set_task t k (tasks c)))
  | _ => None
  end.

Fixpoint run_schedule (schedule : list nat) (c : config) : option config :=
  match schedule with
  | [] => Some c
  | t :: schedule' => c' ← run_task t c; run_schedule schedule' c'
  end.

Lemma run_schedule_steps P schedule c c' :
  run_schedule schedule c = Some c' -> rtc (step P) c c'.
Proof.
  revert c; induction schedule as [|t l IH]; intros c; cbn; [intros [= <-]; apply rtc_refl|].
  destruct (run_task t c) as [c1|] eqn:H1; [|done]. intros Hl. eapply rtc_l; [|by apply IH].
  destruct c as [h s ts]; cbn in H1. unfold run_task in H1; cbn in H1.
  destruct (ts t) as [[r|upd k|md lk k|lk k]|] eqn:Ht; [done| | | |done].
  - injection H1 as <-. by apply step_atom.
  - destruct (acquire md t (h lk)) as [h'|] eqn:Ha; [|done]. injection H1 as <-. by eapply step_acquire.
  - injection H1 as <-. by apply step_release.
Qed.

Definition finished (t : nat) (c : config) : Prop := exists r, tasks c t = Some (Done r).

Lemma set_task_eq t m ts : set_task t m ts t = Some m.
Proof. unfold set_task. by rewrite decide_True. Qed.

Lemma set_task_ne t t' m ts : t' <> t -> set_task t m ts t' = ts t'.
Proof. intros. unfold set_task. by rewrite decide_False. Qed.

Lemma set_held_eq l h f : set_held l h f l = h.
Proof. unfold set_held. by rewrite decide_True. Qed.

Lemma set_held_ne l l' h f : l' <> l -> set_held l h f l' = f l'.
Proof. intros. unfold set_held. by rewrite decide_False. Qed.

(** A task that asks for a lock it already holds for writing never runs again, and the
    lock is never released, whatever the other tasks do. *)
Definition self_blocked (t : nat) (l : L) (c : config) : Prop :=
  held c l = Writer t /\ exists md k, tasks c t = Some (Acquire md l k).

Lemma self_blocked_step P t l c c' : self_blocked t l c -> step P c c' -> self_blocked t l c'.
Proof.
  intros (Hl & md & k & Ht) Hstep. unfold self_blocked.
  destruct Hstep as [t' h s ts upd k' Ht'|t' h h' s ts md' l' k' Ht' Hacq|t' h s ts l' k' Ht'|t' h s ts m Ht' Hm];
    cbn in *; (destruct (decide (t = t')) as [<-|Hne]; [rewrite Ht in Ht'; simplify_eq|]);
    rewrite ?set_task_ne by done.
  - eauto.
  - rewrite Hl in Hacq. by destruct md'.
  - destruct (decide (l = l')) as [<-|Hl']; [rewrite Hl in Hacq; by destruct md'|].
    rewrite set_held_ne by done. eauto.
  - destruct (decide (l = l')) as [<-|Hl']; [|rewrite set_held_ne by done; eauto].
    rewrite set_held_eq, Hl. cbn. rewrite decide_False by done. eauto.
  - eauto.
Qed.

Lemma self_blocked_forever P t l c c' :
  self_blocked t l c -> rtc (step P) c c' -> self_blocked t l c'.
Proof. intros H. induction 1; eauto using self_blocked_step. Qed.

(** An invariant that every running and every spawnable task respects holds in every
    reachable configuration. *)
Definition respectful (I : S -> Prop) (c : config) : Prop :=
  I (shared c) /\ forall t m, tasks c t = Some m -> respects I m.

Lemma respectful_step (P : job -> Prop) I c c' :
  (forall m, P m -> respects I m) -> respectful I c -> step P c c' -> respectful I c'.
Proof.
  intros HP [HI Hts] Hstep.
  assert (Hset : forall t m ts, (forall t m, ts t = Some m -> respects I m) -> respects I m ->
            forall t' m', set_task t m ts t' = Some m' -> respects I m').
  { intros t m ts H Hm t' m'. unfold set_task. case_decide; naive_solver. }
  destruct Hstep as [t h s ts upd k Ht|t h h' s ts md l k Ht|t h s ts l k Ht|t h s ts m Ht Hm];
    unfold respectful; cbn in *.
  - destruct (Hts _ _ Ht s HI) as [H1 H2]. split; [done|]. by eapply Hset.
  - split; [done|]. eapply Hset; [done|]. exact (Hts _ _ Ht).
  - split; [done|]. eapply Hset; [done|]. exact (Hts _ _ Ht).
  - split; [done|]. eapply Hset; [done|]. auto.
Qed.

Lemma respectful_forever (P : job -> Prop) I c c' :
  (forall m, P m -> respects I m) -> respectful I c -> rtc (step P) c c' -> respectful I c'.
Proof. intros HP Hc. induction 1; eauto using respectful_step. Qed.

(** ** Tasks that do not return while an invariant holds *)

(** The task has no result on any path through states that satisfy [I]. *)
Fixpoint barred {A} (I : S -> Prop) (m : task L S E A) : Prop :=
  match m with
  | Done r => forall a, r <> Ret a
  | Atom _ k => forall s, I s -> barred I (k s)
  | Acquire _ _ k | Release _ k => barred I k
  end.

Lemma barred_bind_l {A B} I (m : task L S E A) (k : A -> task L S E B) :
  barred I m -> barred I (tbind m k).
Proof.
  intros Hm. induction m as [r|upd m IH|md l m IH|l m IH]; cbn in *; [|by intros s Hs; apply IH, Hm|auto..].
  destruct r as [a|e|]; [by destruct (Hm a)|done|done].
Qed.

Lemma barred_bind_r {A B} I (m : task L S E A) (k : A -> task L S E B) :
  (forall a, barred I (k a)) -> barred I (tbind m k).
Proof.
  intros Hk. induction m as [r|upd m IH|md l m IH|l m IH]; cbn in *; [|by intros s _; apply IH|auto..].
  by destruct r as [a|e|]; [apply Hk|..].
Qed.

Lemma barred_never_returns (P : job -> Prop) I t m c c' :
  (forall m, P m -> respects I m) -> respectful I c -> tasks c t = Some m -> barred I m ->
  rtc (step P) c c' -> tasks c' t <> Some (Done (Ret tt)).
Proof.
  intros HP Hc Ht Hm Hrun.
  assert (exists m', tasks c' t = Some m' /\ barred I m') as (m' & -> & Hm').
  { revert m Hc Ht Hm. induction Hrun as [c|c1 c2 c3 H12 H23 IH]; intros m Hc Ht Hm; [eauto|].
    assert (exists m', tasks c2 t = Some m' /\ barred I m') as (m' & Ht' & Hm').
    { destruct Hc as [HI _].
      destruct H12 as [u h s ts upd k Hu|u h h' s ts md l k Hu Ha|u h s ts l k Hu|u h s ts n Hu Hn]; cbn in *;
        (destruct (decide (t = u)) as [<-|Hne]; [rewrite Ht in Hu; simplify_eq|]);
        rewrite ?set_task_eq, ?set_task_ne by done; eauto. }
    eapply (IH m'); [by eapply respectful_step|done|done]. }
  intros [= ->]. by apply (Hm' tt).
Qed.
End pool.

Arguments config : clear implicits.
