(* ===== verification/LockOrder.v ===== *)
(** Freedom from deadlock by ordering the locks.

    Tasks that only take a lock of a higher rank than every lock they hold, and that
    release what they take, cannot block each other: every run of a pool of them ends, and
    it ends with all tasks finished. *)

From stdpp Require Import gmap relations.
From S2P Require Import Prelude Async.

#[global] Set Default Goal Selector "!".

Section ordered.
  Context {L S E : Type} `{EqDecision L} (rank : L -> nat).

(** The task, which holds the locks [cur], takes locks in order and ends holding [out]. *)
Fixpoint ordered {A} (out cur : list L) (m : task L S E A) : Prop :=
  match m with
  | Done _ => cur = out
  | Atom _ k => forall s, ordered out cur (k s)
  | Acquire _ l k => Forall (fun l' => rank l' < rank l) cur /\ ordered out (l :: cur) k
  | Release l k => l ∈ cur /\ ordered out (filter (fun l' => l' <> l) cur) k
  end.

Lemma ordered_then {A B} out mid cur (m : task L S E A) (k : outcome E A -> task L S E B) :
  ordered mid cur m -> (forall r, ordered out mid (k r)) -> ordered out cur (then_ m k).
Proof.
  intros Hm Hk. revert cur Hm; induction m as [r|upd m IH|md l m IH|l m IH]; intros cur Hm; cbn in *.
  - subst. apply Hk.
  - intros s. apply IH, Hm.
  - split; [apply Hm|]. apply IH, Hm.
  - split; [apply Hm|]. apply IH, Hm.
Qed.

Lemma ordered_bind {A B} cur (m : task L S E A) (k : A -> task L S E B) :
  ordered cur cur m -> (forall a, ordered cur cur (k a)) -> ordered cur cur (tbind m k).
Proof. intros Hm Hk. eapply ordered_then; [exact Hm|]. intros []; cbn; auto. Qed.

Lemma filter_above l cur :
  Forall (fun l' => rank l' < rank l) cur -> filter (fun l' => l' <> l) (l :: cur) = cur.
Proof.
  intros H. rewrite filter_cons_False by (intros Hn; by apply Hn).
  induction H as [|l' cur Hl _ IH]; [done|]. rewrite filter_cons_True by (intros ->; lia). by rewrite IH.
Qed.

Lemma ordered_holding {A} cur md l (m : task L S E A) :
  Forall (fun l' => rank l' < rank l) cur -> ordered (l :: cur) (l :: cur) m ->
  ordered cur cur (holding md l m).
Proof.
  intros Hl Hm. cbn [holding ordered]. split; [done|].
  eapply ordered_then; [exact Hm|]. intros r. cbn [ordered]. split; [by left|]. by apply filter_above.
Qed.

Lemma ordered_for {X} cur (l : list X) (body : X -> task L S E unit) :
  (forall x, ordered cur cur (body x)) -> ordered cur cur (tfor l body).
Proof. intros H. induction l; cbn; [done|]. by apply ordered_bind. Qed.
End ordered.

Lemma ordered_attempt {L S E E' A} `{EqDecision L} (rank : L -> nat) out cur (m : task L S E A) :
  ordered rank out cur m -> ordered rank out cur (attempt (E' := E') m).
Proof.
  revert cur; induction m as [[]|upd k IH| |]; intros cur; cbn; auto; intros [? ?]; auto.
Qed.

(** Splits a task into its locks. *)
Create HintDb ordered.
Ltac ordered_split :=
  repeat first
    [ done | solve [auto with ordered nocore]
    | apply ordered_bind; [|intros ?] | apply ordered_holding; [repeat constructor|]
    | apply ordered_for; intros ? | apply ordered_attempt | case_match ].

(** * Tasks that cannot return

    A task that asks for a lock that it holds for writing never gets it.  [doomed cur m]
    says that the task, which holds the locks [cur] for writing, does so on every path on
    which it would otherwise return. *)

Section doomed.
  Context {L S E : Type} `{EqDecision L}.

Fixpoint doomed {A} (cur : list L) (m : task L S E A) : Prop :=
  match m with
  | Done r => forall a, r <> Ret a
  | Atom _ k => forall s, doomed cur (k s)
  | Acquire md l k => l ∈ cur \/ doomed (if decide (md = Write) then l :: cur else cur) k
  | Release l k => doomed (filter (fun l' => l' <> l) cur) k
  end.

Lemma doomed_then {A B} cur (m : task L S E A) (k : outcome E A -> task L S E B) :
  doomed cur m -> (forall cur r, (forall a, r <> Ret a) -> doomed cur (k r)) -> doomed cur (then_ m k).
Proof.
  intros Hm Hk. revert cur Hm; induction m as [r|upd m IH|md l m IH|l m IH]; intros cur Hm; cbn in *; eauto.
  destruct Hm; eauto.
Qed.

Lemma doomed_bind {A B} cur (m : task L S E A) (k : A -> task L S E B) :
  doomed cur m -> doomed cur (tbind m k).
Proof. intros Hm. apply doomed_then; [done|]. intros c [a|e|] Hr; cbn; [by destruct (Hr a)|done|done]. Qed.

Lemma doomed_bind_r {A B} cur (m : task L S E A) (k : A -> task L S E B) :
  (forall cur a, doomed cur (k a)) -> doomed cur (tbind m k).
Proof.
  intros Hk. revert cur; induction m as [[a|e|]|upd m IH|md l m IH|l m IH]; intros cur; cbn; try done.
  - intros s. apply IH.
  - right. apply IH.
Qed.

Lemma doomed_step P t cur m c c' :
  (forall l, l ∈ cur -> held c l = Writer t) -> doomed cur m -> tasks c t = Some m -> step P c c' ->
  exists cur' m', (forall l, l ∈ cur' -> held c' l = Writer t) /\ doomed cur' m' /\ tasks c' t = Some m'.
Proof.
  intros Hcur Hm Ht Hstep.
  destruct Hstep as [u h s ts upd k Hu|u h h' s ts md l k Hu Ha|u h s ts l k Hu|u h s ts n Hu Hn]; cbn in *;
    (destruct (decide (t = u)) as [<-|Hne]; [rewrite Ht in Hu; simplify_eq|]); rewrite ?set_task_eq, ?set_task_ne by done.
  - exists cur, (k s). split_and!; [done|apply Hm|done].
  - exists cur, m. done.
  - destruct Hm as [Hl|Hm]; [rewrite (Hcur l Hl) in Ha; by destruct md|].
    eexists _, _. split_and!; [|exact Hm|done]. intros l' Hl'.
    destruct (decide (l' = l)) as [->|Hll].
    + rewrite set_held_eq. destruct md; cbn in Hl'.
      * by rewrite (Hcur l Hl') in Ha.
      * cbn in Ha. destruct (h l) as [|[]]; [done|by injection Ha as <-|done].
    + rewrite set_held_ne by done. apply Hcur. destruct md; cbn in Hl'; [done|].
      by apply elem_of_cons in Hl' as [?|?].
  - exists cur, m. split_and!; [|done|done]. intros l' Hl'.
    destruct (decide (l' = l)) as [->|Hll]; [rewrite (Hcur l Hl') in Ha; by destruct md|].
    rewrite set_held_ne by done. auto.
  - exists (filter (fun l' => l' <> l) cur), k. split_and!; [|exact Hm|done]. intros l' [Hne Hl']%list_elem_of_filter.
    rewrite set_held_ne by done. auto.
  - exists cur, m. split_and!; [|done|done]. intros l' Hl'.
    destruct (decide (l' = l)) as [->|Hll]; [|rewrite set_held_ne by done; auto].
    rewrite set_held_eq, (Hcur l Hl'). cbn. by rewrite decide_False.
  - exists cur, m. done.
Qed.

Lemma doomed_never_returns P t m c c' :
  doomed [] m -> tasks c t = Some m -> rtc (step P) c c' -> tasks c' t <> Some (Done (Ret tt)).
Proof.
  intros Hm Ht Hrun.
  assert (exists cur m', (forall l, l ∈ cur -> held c' l = Writer t) /\ doomed cur m' /\ tasks c' t = Some m')
    as (cur & m' & _ & Hm' & ->).
  { assert (Hc : forall l, l ∈ ([] : list L) -> held c l = Writer t) by (intros l Hl; by apply not_elem_of_nil in Hl).
    revert Hm Ht Hc. generalize ([] : list L). revert m.
    induction Hrun as [c|c1 c2 c3 H12 H23 IH]; intros m cur Hm Ht Hc; [eauto|].
    destruct (doomed_step P t cur m c1 c2 Hc Hm Ht H12) as (cur' & m' & H1 & H2 & H3). eauto. }
  intros [= ->]. by apply (Hm' tt).
Qed.
End doomed.

(** * Pools *)

Section pool.
  Context {L S E : Type} `{EqDecision L} (rank : L -> nat) (bound : nat).
  Context (rank_bound : forall l, rank l < bound).

#[local] Abbreviation job := (task L S E unit).
#[local] Abbreviation config := (config L S E).

(** A step of a running task. *)
Definition runs : config -> config -> Prop := step (fun _ => False).

Definition holds (c : config) (l : L) (t : nat) : Prop :=
  match held c l with Writer t' => t = t' | Readers ts => t ∈ ts end.

(** Every task is ordered from the locks it is noted to hold, and no lock has a holder
    that is not noted. *)
Definition pool_ordered (c : config) : Prop :=
  exists hl : nat -> list L,
    (forall t m, tasks c t = Some m -> ordered rank [] (hl t) m) /\
    (forall l t, holds c l t -> is_Some (tasks c t) /\ l ∈ hl t).

Lemma acquire_holds md t h h' :
  acquire md t h = Some h' ->
  forall t', match h' with Writer u => t' = u | Readers ts => t' ∈ ts end ->
    t' = t \/ match h with Writer u => t' = u | Readers ts => t' ∈ ts end.
Proof.
  intros Ha t' Ht'. destruct md, h as [u|ts]; cbn in Ha; try done.
  - injection Ha as <-. apply elem_of_cons in Ht' as [->|?]; auto.
  - destruct ts; [|done]. injection Ha as <-. auto.
Qed.

Lemma release_holds t h t' :
  match release t h with Writer u => t' = u | Readers ts => t' ∈ ts end ->
  t' <> t /\ match h with Writer u => t' = u | Readers ts => t' ∈ ts end.
Proof.
  destruct h as [u|ts]; cbn.
  - case_decide; [intros Hn; by apply not_elem_of_nil in Hn|]. intros ->. done.
  - rewrite list_elem_of_filter. tauto.
Qed.

Lemma blocked_holder c md l t :
  acquire md t (held c l) = None -> exists t', holds c l t'.
Proof.
  unfold holds. intros Hn. destruct md, (held c l) as [u|[|u ts]]; cbn in Hn; try done; eauto using list_elem_of_here.
Qed.

Definition update (t : nat) (x : list L) (hl : nat -> list L) : nat -> list L :=
  fun t' => if decide (t' = t) then x else hl t'.

Lemma runs_ordered c c' : pool_ordered c -> runs c c' -> pool_ordered c'.
Proof.
  intros (hl & Hts & Hh) Hstep.
  assert (Hset : forall t m x (ts : nat -> option job), (forall t m, ts t = Some m -> ordered rank [] (hl t) m) ->
            ordered rank [] x m -> forall t' m', set_task t m ts t' = Some m' -> ordered rank [] (update t x hl t') m').
  { intros t m x ts H Hm t' m'. unfold set_task, update. case_decide; naive_solver. }
  assert (Hsome : forall t m (ts : nat -> option job) t', is_Some (ts t') -> is_Some (set_task t m ts t')).
  { intros t m ts t' Hs. unfold set_task. by case_decide. }
  destruct Hstep as [t h s ts upd k Ht|t h h' s ts md l k Ht Ha|t h s ts l k Ht|t h s ts m Ht []]; cbn in *.
  - exists hl. split.
    + intros t' m'. cbn. unfold set_task. case_decide as Hd; [|apply Hts]. intros [= <-]. subst t'.
      apply (Hts _ _ Ht).
    + intros l t' Hl. destruct (Hh l t' Hl) as [H1 H2]. split; [by apply Hsome|done].
  - pose proof (Hts _ _ Ht) as [Hr Hk]. exists (update t (l :: hl t) hl). split; [by apply Hset|].
    intros l' t' Hl. unfold holds in Hl; cbn in Hl. unfold update.
    destruct (decide (l' = l)) as [->|Hne].
    + rewrite set_held_eq in Hl. apply (acquire_holds _ _ _ _ Ha) in Hl as [->|Hl].
      * split; [cbn; rewrite set_task_eq; by eexists|]. rewrite decide_True by done. by left.
      * destruct (Hh l t' Hl). split; [by apply Hsome|]. case_decide; [subst; by left|done].
    + rewrite set_held_ne in Hl by done. destruct (Hh l' t' Hl). split; [by apply Hsome|].
      case_decide; [subst; by right|done].
  - pose proof (Hts _ _ Ht) as [Hin Hk].
    exists (update t (filter (fun l' => l' <> l) (hl t)) hl). split; [by apply Hset|].
    intros l' t' Hl. unfold holds in Hl; cbn in Hl. unfold update.
    destruct (decide (l' = l)) as [->|Hne].
    + rewrite set_held_eq in Hl. apply release_holds in Hl as [Htt Hl].
      destruct (Hh l t' Hl). split; [by apply Hsome|]. by rewrite decide_False.
    + rewrite set_held_ne in Hl by done. destruct (Hh l' t' Hl) as [H1 H2]. split; [by apply Hsome|].
      case_decide; [|done]. subst. by apply list_elem_of_filter.
Qed.

(** Some task of the pool can run as long as one is not finished. *)
Lemma pool_progress c t m :
  pool_ordered c -> tasks c t = Some m -> (forall r, m <> Done r) -> exists c', runs c c'.
Proof using rank_bound.
  intros (hl & Hts & Hh) Ht Hm. destruct c as [h s ts]; cbn in *.
  assert (Hgo : forall n t md l k, bound - rank l <= n -> ts t = Some (Acquire md l k) ->
            exists c', runs (Config h s ts) c').
  { clear t m Ht Hm. induction n as [|n IH]; intros t md l k Hn Ht; [pose proof (rank_bound l); lia|].
    destruct (acquire md t (h l)) as [h'|] eqn:Ha; [eexists; by eapply step_acquire|].
    destruct (blocked_holder (Config h s ts) md l t Ha) as [t' Ht'].
    destruct (Hh l t' Ht') as [[m' Hm'] Hin]. pose proof (Hts _ _ Hm') as Ho.
    destruct m' as [r|upd k'|md' l' k'|l' k'].
    - cbn in Ho. rewrite Ho in Hin. by apply not_elem_of_nil in Hin.
    - eexists; by eapply step_atom.
    - destruct Ho as [Hr _]. rewrite Forall_forall in Hr. specialize (Hr l Hin).
      eapply (IH t' md' l' k'); [lia|done].
    - eexists; by eapply step_release. }
  destruct m as [r|upd k|md l k|l k].
  - by destruct (Hm r).
  - eexists; by eapply step_atom.
  - by eapply Hgo.
  - eexists; by eapply step_release.
Qed.

(** ** Termination *)

Inductive child : job -> job -> Prop :=
  | child_atom upd k s : child (k s) (Atom upd k)
  | child_acquire md l k : child k (Acquire md l k)
  | child_release l k : child k (Release l k).

Lemma child_acc m : Acc child m.
Proof. induction m; constructor; intros m' Hc; inversion Hc; subst; auto. Qed.

Definition replace_child (l' l : list job) : Prop :=
  exists t m m', l !! t = Some m /\ child m' m /\ l' = <[t := m']> l.

Lemma replace_child_acc l : Acc replace_child l.
Proof.
  induction l as [|m l IH]; [constructor; intros l' (t & m & m' & Ht & _); by rewrite lookup_nil in Ht|].
  revert l IH. induction (child_acc m) as [m _ IHm]. intros l IHl.
  induction IHl as [l Hl IHl]. constructor. intros l' ([|t] & m1 & m' & Ht & Hc & ->); cbn in *.
  - injection Ht as ->. apply IHm; [done|]. by constructor.
  - apply IHl. by exists t, m1, m'.
Qed.

Lemma runs_acc (tl : list job) c : (forall t, tasks c t = tl !! t) -> Acc (flip runs) c.
Proof.
  revert c. induction (replace_child_acc tl) as [tl _ IH]. intros c Hc. constructor. intros c' Hstep.
  assert (Hgo : forall t m m', tasks c t = Some m -> child m' m ->
            tasks c' = set_task t m' (tasks c) -> Acc (flip runs) c').
  { intros t m m' Ht Hch Heq. apply (IH (<[t := m']> tl)).
    - exists t, m, m'. by rewrite <- Hc.
    - intros t'. rewrite Heq. unfold set_task. case_decide as Hd.
      + subst. rewrite list_lookup_insert_eq; [done|]. apply lookup_lt_is_Some. rewrite <- Hc. by eexists.
      + by rewrite list_lookup_insert_ne by done. }
  destruct Hstep as [t h s ts upd k Ht|t h h' s ts md l k Ht Ha|t h s ts l k Ht|t h s ts m Ht []]; cbn in *;
    (eapply Hgo; [exact Ht|constructor|reflexivity]).
Qed.

(** A pool of ordered tasks, none of which holds a lock yet, runs to its end: no run is
    infinite, and a run that cannot continue has finished every task. *)
Lemma ordered_pool_finishes (tl : list job) s :
  Forall (ordered rank [] []) tl ->
  let c := Config unlocked s (fun t => tl !! t) in
  Acc (flip runs) c /\
  forall c', rtc runs c c' -> (forall c'', ~ runs c' c'') -> forall t, t < length tl -> finished t c'.
Proof using rank_bound.
  intros Htl c. split; [by apply (runs_acc tl)|].
  assert (Hc : pool_ordered c).
  { exists (fun _ => []). split.
    - intros t m Ht. cbn in Ht. rewrite Forall_lookup in Htl. eauto.
    - intros l t Hl. unfold holds in Hl; cbn in Hl. by apply not_elem_of_nil in Hl. }
  assert (Hlen : forall t, t < length tl -> is_Some (tasks c t)) by (intros t; apply lookup_lt_is_Some).
  intros c' Hrun Hstop t Ht. apply Hlen in Ht. clear Htl Hlen.
  induction Hrun as [c|c1 c2 c3 H12 H23 IH].
  - destruct Ht as [m Hm]. unfold finished. destruct m as [r|upd k|md l k|l k]; [eauto|..];
      exfalso; (destruct (pool_progress c t _ Hc Hm) as [c'' Hc'']; [done|by apply (Hstop c'')]).
  - apply IH; [by eapply runs_ordered|done|].
    destruct H12 as [u h s1 ts upd k Hu|u h h' s1 ts md l k Hu Ha|u h s1 ts l k Hu|u h s1 ts m Hu []]; cbn in *;
      unfold set_task; by case_decide.
Qed.
End pool.
