(* ===== verification/Primality.v ===== *)
(** Primality of the order of the Ristretto group.

    The modulus of every field of the relayer is the order of the Ristretto
    group, [2^252 + 27742317777372353535851937790883648493], written in decimal
    in the [modulus] attribute of [DalekRistrettoFieldConfig]
    (crypto/src/fields.rs).  The gadgets are sound only because this number is
    prime, so the primality is proved here rather than assumed, by a chain of
    Pocklington certificates that the kernel evaluates. *)

From Stdlib Require Import ZArith Znumtheory Lia Zmod List.

#[local] Open Scope Z_scope.

(** * Trial division and prime divisors *)

(** No number of [d, d + fuel) divides [n]. *)
Fixpoint no_divisor_from (n d : Z) (fuel : nat) : bool :=
  match fuel with
  | O => true
  | S fuel' => negb (n mod d =? 0) && no_divisor_from n (d + 1) fuel'
  end.

Lemma no_divisor_from_spec n d fuel x :
  no_divisor_from n d fuel = true -> 0 < d ->
  d <= x < d + Z.of_nat fuel -> ~ (x | n).
Proof.
  revert d; induction fuel as [|fuel IH]; intros d; cbn; [lia|].
  rewrite Bool.andb_true_iff, Bool.negb_true_iff, Z.eqb_neq.
  intros [Hd Hrest] Hpos Hx Hdiv.
  destruct (Z.eq_dec x d) as [->|Hne].
  - apply Hd, Z.mod_divide; [lia|exact Hdiv].
  - apply (IH (d + 1) Hrest); [lia| |exact Hdiv]. lia.
Qed.

(** Every number above one has a prime divisor. *)
Lemma prime_divisor_exists n : 1 < n -> exists r, Z.prime r /\ (r | n).
Proof.
  intros Hn. assert (0 <= n) as Hn0 by lia.
  revert Hn. pattern n. apply Zlt_0_ind; [|exact Hn0]. clear n Hn0.
  intros n IH _ Hn.
  destruct (prime_dec n) as [Hp|Hp].
  - exists n. split; [now apply prime_alt | apply Z.divide_refl].
  - destruct (not_prime_divide n Hn Hp) as (d & Hd & Hdn).
    destruct (IH d) as (r & Hr & Hrd); [lia..|].
    exists r. split; [exact Hr | eapply Z.divide_trans; eassumption].
Qed.

(** A number all of whose prime divisors exceed its square root is prime. *)
Lemma prime_by_large_divisors n :
  1 < n -> (forall r, Z.prime r -> (r | n) -> n < r * r) -> Z.prime n.
Proof.
  intros Hn Hr. split; [exact Hn|]. intros d Hd [e He].
  assert (exists x, 1 < x /\ x * x <= n /\ (x | n)) as (x & Hx1 & Hx2 & Hxn).
  { destruct (Z.le_gt_cases d e).
    - exists d. repeat split; [lia|nia|exists e; lia].
    - exists e. repeat split; [nia|nia|exists d; lia]. }
  destruct (prime_divisor_exists x Hx1) as (r & Hp & Hrx).
  pose proof (Hr r Hp (Z.divide_trans _ _ _ Hrx Hxn)).
  pose proof (Z.prime_ge_2 r Hp).
  apply Z.divide_pos_le in Hrx; [nia|lia].
Qed.

Lemma prime_by_trial n (fuel : nat) :
  1 < n -> n < (2 + Z.of_nat fuel) * (2 + Z.of_nat fuel) ->
  no_divisor_from n 2 fuel = true -> Z.prime n.
Proof.
  intros Hn Hb Hc. apply prime_by_large_divisors; [exact Hn|].
  intros r Hr Hrn. pose proof (Z.prime_ge_2 r Hr).
  destruct (Z.lt_ge_cases r (2 + Z.of_nat fuel)); [|nia].
  exfalso. apply (no_divisor_from_spec n 2 fuel r); auto; lia.
Qed.

(** * Pocklington's criterion *)

Lemma pow_zmod_reduce n r a k :
  0 <= k -> (r | n) -> 0 < n -> 0 < r ->
  (Zmod.of_Z r a ^ k)%Zmod = Zmod.of_Z r (Zmod.to_Z (Zmod.of_Z n a ^ k)%Zmod).
Proof.
  intros Hk Hrn Hn Hr. apply Zmod.to_Z_inj.
  rewrite Zmod.unsigned_pow_nonneg_r, !Zmod.unsigned_of_Z, Zmod.unsigned_pow_nonneg_r,
    Zmod.unsigned_of_Z by lia.
  rewrite !Z.mod_pow_l, Z.mod_mod_divide by exact Hrn. reflexivity.
Qed.

(** If [q] is prime, [n - 1 = q R], [a^(n-1) = 1] and [a^R - 1] is invertible
    modulo [n], then [q] divides [r - 1] for every prime divisor [r] of [n]. *)
Lemma pocklington_step n q R a :
  1 < n -> Z.prime q -> n - 1 = q * R -> 0 <= R ->
  (Zmod.of_Z n a ^ (n - 1))%Zmod = Zmod.one ->
  Z.gcd (Zmod.to_Z (Zmod.of_Z n a ^ R)%Zmod - 1) n = 1 ->
  forall r, Z.prime r -> (r | n) -> (q | r - 1).
Proof.
  intros Hn Hq HR HR0 Hfer Hgcd r Hr Hrn.
  pose proof (Z.prime_ge_2 r Hr) as Hr2.
  assert ((Zmod.of_Z r a ^ (q * R))%Zmod = Zmod.one) as Hqr.
  { rewrite <- HR, (pow_zmod_reduce n) by (trivial; lia).
    rewrite Hfer, Zmod.unsigned_1_pos by lia. reflexivity. }
  assert (Zmod.of_Z r a <> Zmod.zero) as Hnz.
  { intros E. rewrite E, Zmod.pow_0_l in Hqr by lia.
    symmetry in Hqr. revert Hqr. apply Zmod.one_neq_zero. lia. }
  assert (Z.gcd (Zmod.to_Z (Zmod.of_Z r a)) r = 1) as Hco.
  { rewrite Z.gcd_comm. apply Z.coprime_prime_small; [exact Hr|].
    apply Zmod.to_Z_nz in Hnz. pose proof (Zmod.to_Z_range (Zmod.of_Z r a)). lia. }
  destruct (Z.BoolSpec_divide q (r - 1)) as [|Hndiv]; [assumption|exfalso].
  apply Z.coprime_prime_l, Z.Bezout_coprime in Hndiv; [|exact Hq].
  destruct Hndiv as (u & v & Huv).
  assert ((Zmod.of_Z r a ^ R)%Zmod = Zmod.one) as Hone.
  { replace R with (q * R * u + (r - 1) * (v * R)) by nia.
    rewrite Zmod.pow_add_r_coprime, !Zmod.pow_mul_r_coprime with (a := q * R)
      by exact Hco.
    rewrite (Zmod.pow_mul_r_coprime _ (r - 1)) by exact Hco.
    rewrite Hqr. replace (r - 1) with (Z.pred r) by lia.
    rewrite Zmod.fermat_nz by assumption.
    rewrite !Zmod.pow_1_l. apply Zmod.mul_1_l. }
  rewrite (pow_zmod_reduce n) in Hone by (trivial; lia).
  apply (f_equal Zmod.to_Z) in Hone.
  rewrite Zmod.unsigned_of_Z, Zmod.unsigned_1_pos in Hone by lia.
  assert (r | 1) as H1.
  { rewrite <- Hgcd. apply Z.gcd_greatest; [|exact Hrn].
    apply Z.mod_divide; [lia|]. rewrite Zminus_mod, Hone, Z.mod_1_l by lia.
    reflexivity. }
  apply Z.divide_pos_le in H1; lia.
Qed.

(** The part of a certificate that is evaluated: [q] divides [n - 1] and [a]
    witnesses it. *)
Definition pocklington_check (n q a : Z) : bool :=
  (1 <? n) && (0 <? q) && ((n - 1) mod q =? 0) &&
  (Zmod.to_Z (Zmod.of_Z n a ^ (n - 1))%Zmod =? 1) &&
  (Z.gcd (Zmod.to_Z (Zmod.of_Z n a ^ ((n - 1) / q))%Zmod - 1) n =? 1).

Lemma pocklington_check_divides n q a r :
  pocklington_check n q a = true -> Z.prime q -> Z.prime r -> (r | n) -> (q | r - 1).
Proof.
  unfold pocklington_check. rewrite !Bool.andb_true_iff, !Z.eqb_eq, !Z.ltb_lt.
  intros ((((Hn & Hq0) & Hdiv) & Hfer) & Hgcd) Hq.
  apply (pocklington_step n q ((n - 1) / q) a Hn Hq).
  - pose proof (Z.div_mod (n - 1) q). lia.
  - apply Z.div_pos; lia.
  - apply Zmod.to_Z_inj. rewrite Hfer, Zmod.unsigned_1_pos by lia. reflexivity.
  - exact Hgcd.
Qed.

(** One prime factor of [n - 1] above the square root of [n]. *)
Lemma pocklington1 n q a :
  Z.prime q -> (pocklington_check n q a && (n <? q * q))%bool = true -> Z.prime n.
Proof.
  intros Hq [Hc Hb]%Bool.andb_true_iff. apply Z.ltb_lt in Hb.
  apply prime_by_large_divisors.
  { unfold pocklington_check in Hc. rewrite !Bool.andb_true_iff, !Z.ltb_lt in Hc. tauto. }
  intros r Hr Hrn. pose proof (Z.prime_ge_2 r Hr). pose proof (Z.prime_ge_2 q Hq).
  pose proof (pocklington_check_divides n q a r Hc Hq Hr Hrn) as Hd.
  apply Z.divide_pos_le in Hd; nia.
Qed.

(** Two distinct prime factors of [n - 1] whose product is above the square
    root of [n]. *)
Lemma pocklington2 n q1 a1 q2 a2 :
  Z.prime q1 -> Z.prime q2 -> q1 <> q2 ->
  (pocklington_check n q1 a1 && pocklington_check n q2 a2 &&
   (n <? (q1 * q2) * (q1 * q2)))%bool = true -> Z.prime n.
Proof.
  intros Hq1 Hq2 Hne Hc. rewrite !Bool.andb_true_iff, Z.ltb_lt in Hc.
  destruct Hc as [[Hc1 Hc2] Hb].
  apply prime_by_large_divisors.
  { unfold pocklington_check in Hc1. rewrite !Bool.andb_true_iff, !Z.ltb_lt in Hc1. tauto. }
  intros r Hr Hrn. pose proof (Z.prime_ge_2 r Hr).
  pose proof (Z.prime_ge_2 q1 Hq1). pose proof (Z.prime_ge_2 q2 Hq2).
  pose proof (pocklington_check_divides n q1 a1 r Hc1 Hq1 Hr Hrn) as [k Hk].
  pose proof (pocklington_check_divides n q2 a2 r Hc2 Hq2 Hr Hrn) as Hd2.
  rewrite Hk in Hd2. apply Z.divide_prime_mul in Hd2; [|exact Hq2].
  destruct Hd2 as [[j Hj]|Hd2].
  - assert (r - 1 = j * (q1 * q2)) as Hr1 by (rewrite Hk, Hj; ring).
    set (m := q1 * q2) in *. assert (0 < m) by (unfold m; nia).
    assert (0 < j) by nia. assert (m < r) by nia. nia.
  - apply Z.divide_prime_prime in Hd2; [congruence|assumption..].
Qed.

(** * The certificate of the group order *)

(** The modulus of [DalekRistrettoFieldConfig]. *)
Definition ristretto_order : Z :=
  7237005577332262213973186563042994240857116359379907606001950938285454250989.

Lemma ristretto_order_value :
  ristretto_order = 2 ^ 252 + 27742317777372353535851937790883648493.
Proof. reflexivity. Qed.

Lemma prime_531581 : Z.prime 531581.
Proof. apply (prime_by_trial _ 750); [lia|lia|vm_compute; reflexivity]. Qed.

Lemma prime_1224481 : Z.prime 1224481.
Proof. apply (prime_by_trial _ 1110); [lia|lia|vm_compute; reflexivity]. Qed.

Lemma prime_cert_50 : Z.prime 1257559732178653.
Proof.
  apply (pocklington2 _ 1224481 2 531581 2 prime_1224481 prime_531581); [lia|].
  vm_compute; reflexivity.
Qed.

Lemma prime_cert_62 : Z.prime 4434155615661930479.
Proof. apply (pocklington1 _ _ 2 prime_cert_50). vm_compute; reflexivity. Qed.

Lemma prime_cert_87 : Z.prime 172054593956031949258510691.
Proof. apply (pocklington1 _ _ 2 prime_cert_62). vm_compute; reflexivity. Qed.

Lemma prime_cert_134 : Z.prime 19757330305831588566944191468367130476339.
Proof. apply (pocklington1 _ _ 2 prime_cert_87). vm_compute; reflexivity. Qed.

Lemma prime_cert_138 : Z.prime 276602624281642239937218680557139826668747.
Proof. apply (pocklington1 _ _ 2 prime_cert_134). vm_compute; reflexivity. Qed.

(** The scalars form a field. *)
Lemma ristretto_order_prime : Z.prime ristretto_order.
Proof. apply (pocklington1 _ _ 2 prime_cert_138). vm_compute; reflexivity. Qed.
