(* ===== verification/Field.v ===== *)
(** The scalar field and its conversions: crypto/src/fields.rs, the scalar
    helpers of circuits/src/lib.rs and of circuits/src/mpc_gadgets/bits.rs.

    A [Scalar] of curve25519-dalek is an integer modulo the group order; its
    arithmetic is that of the field.  The conversions of fields.rs go through
    byte buffers, which are modelled as lists of integers of [0, 256). *)

From Stdlib Require Import ZArith Lia Zmod Field.
From S2P Require Import Prelude Primality.

#[local] Open Scope Z_scope.

(** * Scalars *)

Abbreviation Scalar := (Zmod ristretto_order).

Notation "'scalar' z" := (Zmod.of_Z ristretto_order z) (at level 10, z at level 9).

(** [Scalar::to_bytes] and [Scalar::from_bytes_mod_order]: 32 little-endian
    bytes of the canonical representative, and reduction of any 32 bytes. *)
Definition to_bytes (a : Scalar) : list Z := le_digits 256 32 (Zmod.to_Z a).
Definition from_bytes_mod_order (bytes : list Z) : Scalar := scalar (le_sum 256 bytes).

Lemma scalar_range (a : Scalar) : 0 <= Zmod.to_Z a < ristretto_order.
Proof. apply Zmod.unsigned_pos_bound. reflexivity. Qed.

Lemma scalar_lt_253 (a : Scalar) : 0 <= Zmod.to_Z a < 2 ^ 253.
Proof.
  pose proof (scalar_range a). assert (ristretto_order < 2 ^ 253) by reflexivity. lia.
Qed.

(** * Big integers

    [BigInt::to_bytes_le] gives a sign and the minimal little-endian bytes of
    the magnitude (one zero byte for zero); [from_bytes_le] and
    [from_signed_bytes_le] read an unsigned and a two's complement buffer. *)

Inductive Sign := Minus | NoSign | Plus.

Definition byte_length (z : Z) : nat :=
  if z =? 0 then 1%nat else Z.to_nat (Z.log2 z / 8 + 1).

Definition to_bytes_le (a : Z) : Sign * list Z :=
  ((if a <? 0 then Minus else if a =? 0 then NoSign else Plus),
   le_digits 256 (byte_length (Z.abs a)) (Z.abs a)).

Definition from_bytes_le (bytes : list Z) : Z := le_sum 256 bytes.

Definition from_signed_bytes_le (bytes : list Z) : Z :=
  let n := Z.of_nat (length bytes) in
  let u := le_sum 256 bytes in
  if (0 <? n) && (2 ^ (8 * n - 1) <=? u) then u - 2 ^ (8 * n) else u.

(** ** Conversions from a scalar *)

Definition scalar_to_bigint (a : Scalar) : Z := from_signed_bytes_le (to_bytes a).

Definition scalar_to_biguint (a : Scalar) : Z := from_bytes_le (to_bytes a).

(** ** Conversions to a scalar *)

Definition zero_pad_bytes (unpadded_buf : list Z) (n : nat) : list Z :=
  unpadded_buf ++ repeat 0 (n - length unpadded_buf).

Definition bigint_to_scalar (a : Z) : Scalar :=
  let '(sign, bytes) := to_bytes_le a in
  let bytes := if (length bytes <? 32)%nat then zero_pad_bytes bytes 32 else bytes in
  let s := from_bytes_mod_order (take 32 bytes) in
  match sign with
  | Minus => Zmod.opp s
  | _ => s
  end.

Definition biguint_to_scalar (a : Z) : Scalar := bigint_to_scalar a.

(** [bigint_to_scalar_bits::<D>]: the [D] low bits, [BigInt::bit] being the two's
    complement bit. *)
Definition bigint_to_scalar_bits (D : nat) (a : Z) : list Scalar :=
  (fun i : nat => if Z.testbit a (Z.of_nat i) then Zmod.one else Zmod.zero) <$> seq 0 D.

(** [scalar_to_bits_le]: the 256 bits of the byte representation. *)
Definition scalar_to_bits_le (a : Scalar) : list Scalar :=
  concat ((fun byte => (fun i : nat =>
    if Z.testbit byte (Z.of_nat i) then (Zmod.one : Scalar) else Zmod.zero) <$> seq 0 8)
    <$> to_bytes a).

(** * Powers of two *)

Definition SCALAR_MAX_BITS : nat := 253.
Definition POSITIVE_SCALAR_MAX_BITS : nat := 251.

(** [u128] shifts: the operand is below 128 on both paths. *)
Definition scalar_2_to_m (m : nat) : Scalar :=
  if (SCALAR_MAX_BITS <=? m)%nat then Zmod.zero
  else if (128 <=? m)%nat && (m <? SCALAR_MAX_BITS)%nat then
    Zmod.mul (scalar (Z.shiftl 1 127)) (scalar (Z.shiftl 1 (Z.of_nat m - 127)))
  else scalar (Z.shiftl 1 (Z.of_nat m)).

(** * The field *)

Lemma scalar_field_theory :
  @field_theory Scalar Zmod.zero Zmod.one Zmod.add Zmod.mul Zmod.sub Zmod.opp
    Zmod.mdiv Zmod.inv eq.
Proof. exact (Zmod.field_theory ristretto_order ristretto_order_prime). Qed.

Lemma scalar_morph :
  ring_morph (Zmod.zero : Scalar) Zmod.one Zmod.add Zmod.mul Zmod.sub Zmod.opp eq
    0 1 Z.add Z.mul Z.sub Z.opp Z.eqb (Zmod.of_Z ristretto_order).
Proof.
  split; intros; try reflexivity.
  - apply Zmod.of_Z_add.
  - apply Zmod.of_Z_sub.
  - apply Zmod.of_Z_mul.
  - apply Zmod.of_Z_opp.
  - f_equal. by apply Z.eqb_eq.
Qed.

Ltac scalar_constant t :=
  match t with
  | @Zmod.zero _ => constr:(0)
  | @Zmod.one _ => constr:(1)
  | Zmod.of_Z _ ?z => match isZcst z with true => z | _ => constr:(NotConstant) end
  | _ => constr:(NotConstant)
  end.

Add Field scalar_field : scalar_field_theory
  (morphism scalar_morph, constants [scalar_constant]).

(** Non-zero scalars have inverses, and a product is zero only when a factor
    is. *)
Lemma scalar_inv_l (a : Scalar) : a <> Zmod.zero -> Zmod.mul (Zmod.inv a) a = Zmod.one.
Proof. intros Ha. apply Zmod.mul_inv_same_l_prime; [apply ristretto_order_prime|done]. Qed.

Lemma scalar_inv_r (a : Scalar) : a <> Zmod.zero -> Zmod.mul a (Zmod.inv a) = Zmod.one.
Proof. intros Ha. rewrite Zmod.mul_comm. by apply scalar_inv_l. Qed.

Lemma scalar_mul_zero (a b : Scalar) :
  Zmod.mul a b = Zmod.zero <-> a = Zmod.zero \/ b = Zmod.zero.
Proof. apply Zmod.mul_0_iff_prime, ristretto_order_prime. Qed.

Lemma scalar_one_neq_zero : (Zmod.one : Scalar) <> Zmod.zero.
Proof. apply Zmod.one_neq_zero. done. Qed.

Lemma scalar_eq_iff (a b : Scalar) : a = b <-> Zmod.to_Z a = Zmod.to_Z b.
Proof. split; [congruence|apply Zmod.to_Z_inj]. Qed.

Lemma to_Z_small (z : Z) : 0 <= z < ristretto_order -> Zmod.to_Z (scalar z) = z.
Proof. apply Zmod.unsigned_of_Z_small. Qed.

Lemma scalar_sub_zero (a b : Scalar) : Zmod.sub a b = Zmod.zero <-> a = b.
Proof.
  split; [|intros ->; apply Zmod.sub_same].
  intros H. replace a with (Zmod.add (Zmod.sub a b) b) by ring. rewrite H. ring.
Qed.

Lemma scalar_sub_eq (a b : Scalar) : Zmod.sub a b = Zmod.zero -> a = b.
Proof. apply scalar_sub_zero. Qed.

#[export] Instance scalar_eq_dec : EqDecision Scalar.
Proof.
  intros a b. destruct (decide (Zmod.to_Z a = Zmod.to_Z b)) as [H|H].
  - left. by apply Zmod.to_Z_inj.
  - right. congruence.
Defined.

(** * Correctness of the conversions *)

Lemma le_sum_to_bytes (a : Scalar) : le_sum 256 (to_bytes a) = Zmod.to_Z a.
Proof.
  unfold to_bytes. apply le_sum_digits_small; [done|].
  pose proof (scalar_lt_253 a). change (256 ^ Z.of_nat 32) with (2 ^ 256). lia.
Qed.

Lemma scalar_to_biguint_spec (a : Scalar) : scalar_to_biguint a = Zmod.to_Z a.
Proof. apply le_sum_to_bytes. Qed.

Lemma scalar_to_bigint_spec (a : Scalar) : scalar_to_bigint a = Zmod.to_Z a.
Proof.
  unfold scalar_to_bigint, from_signed_bytes_le.
  rewrite le_sum_to_bytes. unfold to_bytes; rewrite length_le_digits.
  pose proof (scalar_lt_253 a).
  destruct (Z.leb_spec (2 ^ (8 * Z.of_nat 32 - 1)) (Zmod.to_Z a)); [|done].
  change (2 ^ (8 * Z.of_nat 32 - 1)) with (2 ^ 255) in *. lia.
Qed.

Lemma byte_length_bound z : 0 <= z -> z < 256 ^ Z.of_nat (byte_length z).
Proof.
  intros Hz. unfold byte_length. destruct (Z.eqb_spec z 0) as [->|Hnz]; [done|].
  pose proof (Z.log2_nonneg z).
  assert (0 <= Z.log2 z / 8) by (apply Z.div_pos; lia).
  rewrite Z2Nat.id by lia. change 256 with (2 ^ 8). rewrite <- Z.pow_mul_r by lia.
  apply Z.log2_lt_pow2; [lia|]. div_lia.
Qed.

Lemma take_le_digits base k n z : (k <= n)%nat ->
  take k (le_digits base n z) = le_digits base k z.
Proof.
  revert n z; induction k as [|k IH]; intros [|n] z Hk; cbn; [done|done|lia|].
  rewrite IH by lia. done.
Qed.

(** The conversion keeps 32 bytes of the magnitude. *)
Lemma bigint_to_scalar_spec (a : Z) :
  bigint_to_scalar a = scalar (Z.sgn a * (Z.abs a mod 2 ^ 256)).
Proof.
  unfold bigint_to_scalar, to_bytes_le, from_bytes_mod_order, zero_pad_bytes.
  rewrite length_le_digits. set (b := take 32 _).
  assert (le_sum 256 b = Z.abs a mod 2 ^ 256) as Hb.
  { subst b. case_match eqn:Hl.
    - apply Nat.ltb_lt in Hl. rewrite take_ge.
      + rewrite le_sum_app, le_sum_zeros, Z.mul_0_r, Z.add_0_r by done.
        pose proof (byte_length_bound (Z.abs a)).
        rewrite le_sum_digits_small by lia. symmetry. apply Z.mod_small.
        split; [lia|]. change (2 ^ 256) with (256 ^ 32).
        apply Z.lt_le_trans with (256 ^ Z.of_nat (byte_length (Z.abs a))); [lia|].
        apply Z.pow_le_mono_r; lia.
      + rewrite length_app, length_le_digits, repeat_length. lia.
    - apply Nat.ltb_ge in Hl. rewrite take_le_digits by lia.
      by rewrite le_sum_digits by done. }
  rewrite Hb. clearbody b. clear Hb b.
  destruct (Z.ltb_spec a 0); [|destruct (Z.eqb_spec a 0) as [->|]; [done|]].
  - rewrite Z.sgn_neg, <- Zmod.of_Z_opp by lia. done.
  - rewrite Z.sgn_pos by lia. by rewrite Z.mul_1_l.
Qed.

Lemma bigint_to_scalar_small (a : Z) : Z.abs a < 2 ^ 256 -> bigint_to_scalar a = scalar a.
Proof.
  intros Ha. rewrite bigint_to_scalar_spec, Z.mod_small by lia.
  f_equal. rewrite Z.mul_comm. apply Z.abs_sgn.
Qed.

Lemma bigint_to_scalar_to_bigint (a : Scalar) : bigint_to_scalar (scalar_to_bigint a) = a.
Proof.
  rewrite scalar_to_bigint_spec. pose proof (scalar_lt_253 a).
  rewrite bigint_to_scalar_small by lia. apply Zmod.of_Z_unsigned.
Qed.

Lemma biguint_to_scalar_small (a : Z) : 0 <= a < 2 ^ 256 -> biguint_to_scalar a = scalar a.
Proof. intros Ha. apply bigint_to_scalar_small. lia. Qed.

(** ** Bits *)

(** A bit as a scalar. *)
Definition bit_scalar (b : bool) : Scalar := if b then Zmod.one else Zmod.zero.

Lemma bit_scalar_Z b : bit_scalar b = scalar (Z.b2z b).
Proof. by destruct b. Qed.

Lemma testbit_byte z (i : nat) : (i < 8)%nat ->
  Z.testbit (z mod 256) (Z.of_nat i) = Z.testbit z (Z.of_nat i).
Proof. intros Hi. change 256 with (2 ^ 8). apply Z.mod_pow2_bits_low. lia. Qed.

Lemma concat_byte_bits n z :
  concat ((fun byte => (fun i : nat => bit_scalar (Z.testbit byte (Z.of_nat i))) <$> seq 0 8)
    <$> le_digits 256 n z) =
  (fun i : nat => bit_scalar (Z.testbit z (Z.of_nat i))) <$> seq 0 (8 * n).
Proof.
  revert z; induction n as [|n IH]; intros z; [done|].
  replace (8 * S n)%nat with (8 + 8 * n)%nat by lia.
  rewrite seq_app, fmap_app. cbn [le_digits]. rewrite fmap_cons. cbn [concat].
  rewrite IH. f_equal.
  - apply list_fmap_ext. intros i x Hi. apply lookup_seq in Hi as [-> Hi].
    f_equal. apply testbit_byte. lia.
  - rewrite <- (Nat.add_0_r (0 + 8)) , <- fmap_add_seq, <- list_fmap_compose.
    apply list_fmap_ext. intros i x _. cbn. f_equal.
    change 256 with (2 ^ 8). rewrite <- Z.shiftr_div_pow2, Z.shiftr_spec by lia.
    f_equal. lia.
Qed.

Lemma scalar_to_bits_le_spec (a : Scalar) :
  scalar_to_bits_le a =
  (fun i : nat => bit_scalar (Z.testbit (Zmod.to_Z a) (Z.of_nat i))) <$> seq 0 256.
Proof. exact (concat_byte_bits 32 (Zmod.to_Z a)). Qed.

Lemma length_scalar_to_bits_le a : length (scalar_to_bits_le a) = 256%nat.
Proof. by rewrite scalar_to_bits_le_spec, length_fmap, length_seq. Qed.

Lemma bigint_to_scalar_bits_spec D a :
  bigint_to_scalar_bits D a =
  (fun i : nat => bit_scalar (Z.testbit a (Z.of_nat i))) <$> seq 0 D.
Proof. done. Qed.

(** ** Recomposition of bits *)

(** The scalar with the given little-endian bits. *)
Definition bits_value (bits : list Scalar) : Scalar :=
  foldr (fun b acc => Zmod.add b (Zmod.mul (scalar 2) acc)) Zmod.zero bits.

Lemma bits_value_app l1 l2 :
  bits_value (l1 ++ l2) =
  Zmod.add (bits_value l1) (Zmod.mul (scalar (2 ^ Z.of_nat (length l1))) (bits_value l2)).
Proof.
  induction l1 as [|b l1 IH].
  - cbn [app length]. change (bits_value []) with (scalar 0).
    change (2 ^ Z.of_nat 0) with 1. ring.
  - cbn [app length]. unfold bits_value in *. cbn [foldr]. rewrite IH.
    rewrite Nat2Z.inj_succ, Z.pow_succ_r, Zmod.of_Z_mul by lia. ring.
Qed.

Lemma bits_value_testbit (z : Z) (n : nat) :
  bits_value ((fun i : nat => bit_scalar (Z.testbit z (Z.of_nat i))) <$> seq 0 n) =
  scalar (z mod 2 ^ Z.of_nat n).
Proof.
  induction n as [|n IH]; [by rewrite Z.mod_1_r|].
  rewrite seq_S, fmap_app, bits_value_app, IH, length_fmap, length_seq.
  cbn [fmap list_fmap bits_value foldr]. rewrite bit_scalar_Z, Nat.add_0_l.
  rewrite Zmod.mul_0_r, Zmod.add_0_r, <- Zmod.of_Z_mul, <- Zmod.of_Z_add. f_equal.
  rewrite Nat2Z.inj_succ, <- Z.add_1_r, Z.pow_add_r, Z.rem_mul_r by lia.
  rewrite <- Z.shiftr_div_pow2 by lia. change (2 ^ 1) with 2.
  rewrite <- (Z.bit0_mod (Z.shiftr z (Z.of_nat n))), Z.shiftr_spec by lia. done.
Qed.

Lemma bits_value_zeros n : bits_value (replicate n Zmod.zero) = Zmod.zero.
Proof.
  induction n as [|n IH]; [done|].
  unfold bits_value in *; cbn [replicate foldr]. rewrite IH. ring.
Qed.

(** The low [D] bits of a scalar recompose to its residue modulo [2^D]. *)
Lemma scalar_bits_recompose (a : Scalar) (D : nat) : (D <= 256)%nat ->
  bits_value (take D (scalar_to_bits_le a)) = scalar (Zmod.to_Z a mod 2 ^ Z.of_nat D).
Proof.
  intros HD. rewrite scalar_to_bits_le_spec, <- fmap_take, take_seq, Nat.min_l by done.
  apply bits_value_testbit.
Qed.

(** ** Powers of two *)

Lemma scalar_2_to_m_spec (m : nat) :
  (m < SCALAR_MAX_BITS)%nat -> scalar_2_to_m m = scalar (2 ^ Z.of_nat m).
Proof.
  unfold scalar_2_to_m. intros Hm.
  destruct (Nat.leb_spec SCALAR_MAX_BITS m) as [|_]; [lia|].
  destruct (Nat.leb_spec 128 m) as [H128|H128]; cbn [andb].
  - destruct (Nat.ltb_spec m SCALAR_MAX_BITS) as [_|]; [|lia].
    rewrite <- Zmod.of_Z_mul, !Z.shiftl_1_l. f_equal.
    rewrite <- Z.pow_add_r by lia. f_equal. lia.
  - by rewrite Z.shiftl_1_l.
Qed.

Lemma scalar_pow2_neq_zero (m : nat) : (m < SCALAR_MAX_BITS)%nat ->
  scalar (2 ^ Z.of_nat m) <> Zmod.zero.
Proof.
  intros Hm H. apply (f_equal Zmod.to_Z) in H.
  assert (2 ^ Z.of_nat m <= 2 ^ 252) by (apply Z.pow_le_mono_r; unfold SCALAR_MAX_BITS in Hm; lia).
  assert (2 ^ 252 < ristretto_order) by done.
  pose proof (Z.pow_pos_nonneg 2 (Z.of_nat m)).
  rewrite to_Z_small, Zmod.unsigned_0 in H by lia. lia.
Qed.

(** * Properties *)

(** Scalars and big integers convert into each other without loss: the
    integer of a scalar converts back to it, and an integer of at most 32 bytes
    converts to the scalar whose integer is its residue modulo the group order. *)
Theorem bigint_scalar_roundtrip :
  (forall a : Scalar, bigint_to_scalar (scalar_to_bigint a) = a) /\
  (forall z : Z, Z.abs z < 2 ^ 256 ->
    scalar_to_bigint (bigint_to_scalar z) = z mod ristretto_order).
Proof.
  split; [apply bigint_to_scalar_to_bigint|]. intros z Hz.
  rewrite scalar_to_bigint_spec, bigint_to_scalar_small by done. apply Zmod.unsigned_of_Z.
Qed.

(** The bits of a scalar recompose to it. *)
Theorem scalar_bits_roundtrip (a : Scalar) : bits_value (scalar_to_bits_le a) = a.
Proof.
  rewrite <- (firstn_all (scalar_to_bits_le a)), length_scalar_to_bits_le.
  rewrite scalar_bits_recompose by done. pose proof (scalar_lt_253 a).
  pose proof (scalar_range a). rewrite Z.mod_small.
  - apply Zmod.of_Z_unsigned.
  - split; [lia|]. apply Z.lt_trans with (2 ^ 253); [lia|]. done.
Qed.

(** [scalar_2_to_m] is the power of two below 253 bits, and zero from there
    on. *)
Theorem scalar_2_to_m_correct (m : nat) :
  scalar_2_to_m m = if (m <? SCALAR_MAX_BITS)%nat then scalar (2 ^ Z.of_nat m) else Zmod.zero.
Proof.
  destruct (Nat.ltb_spec m SCALAR_MAX_BITS) as [Hm|Hm]; [by apply scalar_2_to_m_spec|].
  unfold scalar_2_to_m. by destruct (Nat.leb_spec SCALAR_MAX_BITS m); [|lia].
Qed.
