(* ===== verification/Starknet.v ===== *)
(** Conversions between scalars and elements of the Starknet field:
    crypto/src/fields.rs.  An element of the Starknet library is its residue; its bytes are
    those of the canonical representative, most significant first, and 32 bytes that are
    not the bytes of an element are an error. *)

From Stdlib Require Import Zmod.
From S2P Require Import Prelude Primality Field.

#[global] Set Default Goal Selector "!".
#[local] Open Scope Z_scope.

Definition starknet_prime : Z := 2 ^ 251 + 17 * 2 ^ 192 + 1.

Definition Felt : Type := Zmod starknet_prime.

Definition felt_to_bytes_be (f : Felt) : list Z := rev (le_digits 256 32 (Zmod.to_Z f)).

Definition felt_from_bytes_be (bytes : list Z) : option Felt :=
  let z := le_sum 256 (rev bytes) in
  if z <? starknet_prime then Some (Zmod.of_Z _ z) else None.

(** [scalar_to_starknet_felt] *)
Definition scalar_to_starknet_felt (a : Scalar) : outcome unit Felt :=
  match felt_from_bytes_be (rev (to_bytes a)) with
  | Some f => Ret f
  | None => Panic
  end.

(** [biguint_to_starknet_felt] *)
Definition biguint_to_starknet_felt (a : Z) : outcome unit Felt :=
  scalar_to_starknet_felt (biguint_to_scalar a).

(** [starknet_felt_to_scalar] *)
Definition starknet_felt_to_scalar (element : Felt) : Scalar :=
  from_bytes_mod_order (rev (felt_to_bytes_be element)).

(** [starknet_felt_to_biguint] *)
Definition starknet_felt_to_biguint (element : Felt) : Z := le_sum 256 (rev (felt_to_bytes_be element)).

(** [starknet_felt_to_u64]: the last eight bytes *)
Definition starknet_felt_to_u64 (element : Felt) : Z :=
  le_sum 256 (rev (drop 24 (felt_to_bytes_be element))).

Lemma starknet_prime_bound : starknet_prime < ristretto_order /\ ristretto_order < 256 ^ 32.
Proof. by vm_compute. Qed.

Lemma felt_range (f : Felt) : 0 <= Zmod.to_Z f < starknet_prime.
Proof. apply Zmod.unsigned_pos_bound. reflexivity. Qed.

Lemma felt_to_biguint_spec f : starknet_felt_to_biguint f = Zmod.to_Z f.
Proof.
  unfold starknet_felt_to_biguint, felt_to_bytes_be. rewrite rev_involutive.
  pose proof (felt_range f). pose proof starknet_prime_bound. by rewrite le_sum_digits_small by (cbn; lia).
Qed.

Lemma felt_to_scalar_spec f : starknet_felt_to_scalar f = scalar (Zmod.to_Z f).
Proof.
  unfold starknet_felt_to_scalar, from_bytes_mod_order, felt_to_bytes_be. rewrite rev_involutive.
  pose proof (felt_range f). pose proof starknet_prime_bound. by rewrite le_sum_digits_small by (cbn; lia).
Qed.

Lemma scalar_to_felt_spec a :
  scalar_to_starknet_felt a =
  if Zmod.to_Z a <? starknet_prime then Ret (Zmod.of_Z _ (Zmod.to_Z a)) else Panic.
Proof.
  unfold scalar_to_starknet_felt, felt_from_bytes_be, to_bytes. rewrite rev_involutive.
  pose proof (scalar_range a). pose proof starknet_prime_bound. rewrite le_sum_digits_small by (cbn; lia).
  by destruct (Z.ltb_spec (Zmod.to_Z a) starknet_prime).
Qed.

Lemma felt_to_u64_spec f : starknet_felt_to_u64 f = Zmod.to_Z f mod 2 ^ 64.
Proof.
  unfold starknet_felt_to_u64, felt_to_bytes_be.
  assert (H : rev (drop 24 (rev (le_digits 256 32 (Zmod.to_Z f)))) = le_digits 256 8 (Zmod.to_Z f)).
  { generalize (Zmod.to_Z f). intros z. reflexivity. }
  rewrite H. apply (le_sum_digits 256 ltac:(lia) 8).
Qed.

(** C40: A Starknet field element survives the way through a scalar, and as an integer it
    is read without loss; a scalar that is not below the Starknet prime has no element and
    the conversion panics.  The conversion to 64 bits truncates. *)
Theorem felt_conversions (f : Felt) (a : Scalar) :
  scalar_to_starknet_felt (starknet_felt_to_scalar f) = Ret f /\
  biguint_to_starknet_felt (starknet_felt_to_biguint f) = Ret f /\
  (scalar_to_starknet_felt a = Panic <-> starknet_prime <= Zmod.to_Z a) /\
  starknet_felt_to_u64 f = starknet_felt_to_biguint f mod 2 ^ 64.
Proof.
  pose proof (felt_range f). pose proof starknet_prime_bound.
  assert (Hf : scalar_to_starknet_felt (scalar (Zmod.to_Z f)) = Ret f).
  { rewrite scalar_to_felt_spec, to_Z_small by lia.
    destruct (Z.ltb_spec (Zmod.to_Z f) starknet_prime); [|lia]. f_equal. apply Zmod.of_Z_to_Z. }
  split; [by rewrite felt_to_scalar_spec|]. split; [|split].
  - unfold biguint_to_starknet_felt. rewrite felt_to_biguint_spec, biguint_to_scalar_small; [done|].
    change (256 ^ 32) with (2 ^ 256) in *. lia.
  - rewrite scalar_to_felt_spec. destruct (Z.ltb_spec (Zmod.to_Z a) starknet_prime); split; intros; try done; lia.
  - by rewrite felt_to_u64_spec, felt_to_biguint_spec.
Qed.
