(* ===== verification/ConstraintSystem.v ===== *)
(** The interface of the rank-1 constraint system.

    The gadgets of circuits/src/zk_gadgets are generic over the trait
    [RandomizableConstraintSystem] of mpc-bulletproof, a dependency that is not
    part of the repository.  It is a parameter of the development: the class
    [ConstraintSystem] lists the operations that the gadgets call, and the
    classes [ConstraintSystemLaws] and [ProverLaws] state what is documented of
    them.  The circuits are programs of the [circuit] monad over these
    operations, and two triples are proved about each of them:

    - [sound g R]: every assignment that satisfies the constraints that [g]
      adds is in the relation [R]; this is what a verifier learns, and it holds
      of assignments chosen by any prover;
    - [wp g s Q]: run by an honest prover in state [s], [g] returns without an
      error, and the final state and the condition under which the prover's own
      assignment satisfies the added constraints are as [Q] says.

    A third triple, [forge g s w Q], describes what a dishonest prover can do:
    [g] returns without an error, and the assignment [w] of the variables in use
    can be extended to an assignment that satisfies the constraints of [g] and
    the property [Q].

    [ListR1CS] is a concrete system that satisfies the laws; the witnesses of the
    theorems run the gadgets in it. *)

From Stdlib Require Import Zmod.
From S2P Require Import Prelude Primality Field.

#[local] Open Scope Zmod_scope.

(** * Operations *)

Class ConstraintSystem := {
  cs : Type;
  R1CSVar : Type;
  LinearCombination : Type;
  R1CSError : Type;
  R1CSVar_eq_dec :: EqDecision R1CSVar;
  (* the constants [Variable::One()] and [Variable::Zero()] *)
  VarOne : R1CSVar;
  VarZero : R1CSVar;
  (* [From] conversions and arithmetic of linear combinations *)
  lc_default : LinearCombination;
  lc_var : R1CSVar -> LinearCombination;
  lc_scalar : Scalar -> LinearCombination;
  lc_add : LinearCombination -> LinearCombination -> LinearCombination;
  lc_sub : LinearCombination -> LinearCombination -> LinearCombination;
  lc_neg : LinearCombination -> LinearCombination;
  lc_scale : Scalar -> LinearCombination -> LinearCombination;
  (* operations on the constraint system *)
  cs_multiply : LinearCombination -> LinearCombination -> cs ->
    (R1CSVar * R1CSVar * R1CSVar) * cs;
  cs_allocate : option Scalar -> cs -> outcome R1CSError (R1CSVar * cs);
  cs_constrain : LinearCombination -> cs -> cs;
  cs_commit : Scalar -> cs -> R1CSVar * cs;
  cs_commit_public : Scalar -> cs -> R1CSVar * cs;
  cs_eval : cs -> LinearCombination -> Scalar;
}.

Coercion lc_var : R1CSVar >-> LinearCombination.

Declare Scope lc_scope.
Delimit Scope lc_scope with lc.
Bind Scope lc_scope with LinearCombination.
Notation "a + b" := (lc_add a b) : lc_scope.
Notation "a - b" := (lc_sub a b) : lc_scope.
Notation "- a" := (lc_neg a) : lc_scope.
Notation "c *! a" := (lc_scale c a) (at level 40, left associativity) : lc_scope.

(** * Documented behaviour *)

(** An assignment of values to the variables of a constraint system. *)
Abbreviation assignment := (R1CSVar -> Scalar).

Definition valid {C : ConstraintSystem} (w : assignment) : Prop :=
  w VarOne = 1 /\ w VarZero = 0.

Class ConstraintSystemLaws (C : ConstraintSystem) := {
  lc_eval : assignment -> LinearCombination -> Scalar;
  lc_eval_default w : lc_eval w lc_default = 0;
  lc_eval_var w (v : R1CSVar) : lc_eval w v = w v;
  lc_eval_scalar w c : lc_eval w (lc_scalar c) = c * w VarOne;
  lc_eval_add w a b : lc_eval w (a + b)%lc = lc_eval w a + lc_eval w b;
  lc_eval_sub w a b : lc_eval w (a - b)%lc = lc_eval w a - lc_eval w b;
  lc_eval_neg w a : lc_eval w (- a)%lc = - lc_eval w a;
  lc_eval_scale w c a : lc_eval w (c *! a)%lc = c * lc_eval w a;
  (* the variables in use, and the assignments that satisfy the constraints *)
  scope : cs -> R1CSVar -> Prop;
  sat : cs -> assignment -> Prop;
  cs_wf : cs -> Prop;
  scope_one s : scope s VarOne;
  scope_zero s : scope s VarZero;
  sat_valid s w : sat s w -> valid w;
  sat_local s w w' : cs_wf s -> valid w' ->
    (forall v, scope s v -> w' v = w v) -> sat s w -> sat s w';
  (* [multiply] allocates a gate of three new variables, constrained to the two
     inputs and to their product *)
  multiply_sat a b s w : let '((l, r, o), s') := cs_multiply a b s in
    sat s' w <-> sat s w /\ w l = lc_eval w a /\ w r = lc_eval w b /\ w o = w l * w r;
  multiply_scope a b s v : let '((l, r, o), s') := cs_multiply a b s in
    scope s' v <-> scope s v \/ v = l \/ v = r \/ v = o;
  multiply_fresh a b s : let '((l, r, o), s') := cs_multiply a b s in
    ~ scope s l /\ ~ scope s r /\ ~ scope s o /\ l <> r /\ l <> o /\ r <> o;
  multiply_wf a b s : cs_wf s ->
    (forall w w', (forall v, scope s v -> w' v = w v) -> lc_eval w' a = lc_eval w a) ->
    (forall w w', (forall v, scope s v -> w' v = w v) -> lc_eval w' b = lc_eval w b) ->
    cs_wf (snd (cs_multiply a b s));
  (* [allocate] adds a new unconstrained variable, given a value *)
  allocate_ret x s : exists v s', cs_allocate (Some x) s = Ret (v, s');
  allocate_sat x s v s' w : cs_allocate x s = Ret (v, s') -> (sat s' w <-> sat s w);
  allocate_scope x s v s' u : cs_allocate x s = Ret (v, s') ->
    (scope s' u <-> scope s u \/ u = v);
  allocate_fresh x s v s' : cs_allocate x s = Ret (v, s') -> ~ scope s v;
  allocate_wf x s v s' : cs_allocate x s = Ret (v, s') -> cs_wf s -> cs_wf s';
  (* [constrain] requires a linear combination to be zero *)
  constrain_sat a s w : sat (cs_constrain a s) w <-> sat s w /\ lc_eval w a = 0;
  constrain_scope a s v : scope (cs_constrain a s) v <-> scope s v;
  constrain_wf a s : cs_wf s ->
    (forall w w', (forall v, scope s v -> w' v = w v) -> lc_eval w' a = lc_eval w a) ->
    cs_wf (cs_constrain a s);
  (* [commit] adds a new variable with a hidden value, [commit_public] one whose
     value the verifier knows *)
  commit_sat x s w : let '(v, s') := cs_commit x s in sat s' w <-> sat s w;
  commit_scope x s u : let '(v, s') := cs_commit x s in scope s' u <-> scope s u \/ u = v;
  commit_fresh x s : ~ scope s (fst (cs_commit x s));
  commit_wf x s : cs_wf s -> cs_wf (snd (cs_commit x s));
  commit_public_sat x s w : let '(v, s') := cs_commit_public x s in
    sat s' w <-> sat s w /\ w v = x;
  commit_public_scope x s u : let '(v, s') := cs_commit_public x s in
    scope s' u <-> scope s u \/ u = v;
  commit_public_fresh x s : ~ scope s (fst (cs_commit_public x s));
  commit_public_wf x s : cs_wf s -> cs_wf (snd (cs_commit_public x s));
}.

(** What an honest prover adds: it knows a value of every variable, gives the
    values that it is told to, and evaluates linear combinations at them. *)
Class ProverLaws (C : ConstraintSystem) {L : ConstraintSystemLaws C} := {
  witness : cs -> assignment;
  witness_valid s : valid (witness s);
  eval_witness s a : cs_eval s a = lc_eval (witness s) a;
  multiply_witness a b s : let '((l, r, o), s') := cs_multiply a b s in
    (forall v, scope s v -> witness s' v = witness s v) /\
    witness s' l = lc_eval (witness s) a /\ witness s' r = lc_eval (witness s) b /\
    witness s' o = lc_eval (witness s) a * lc_eval (witness s) b;
  allocate_witness x s v s' : cs_allocate (Some x) s = Ret (v, s') ->
    (forall u, scope s u -> witness s' u = witness s u) /\ witness s' v = x;
  constrain_witness a s v : witness (cs_constrain a s) v = witness s v;
  commit_witness x s : let '(v, s') := cs_commit x s in
    (forall u, scope s u -> witness s' u = witness s u) /\ witness s' v = x;
  commit_public_witness x s : let '(v, s') := cs_commit_public x s in
    (forall u, scope s u -> witness s' u = witness s u) /\ witness s' v = x;
}.

(** * The circuit monad *)

Definition circuit {C : ConstraintSystem} (A : Type) : Type :=
  cs -> outcome R1CSError (A * cs).

Section monad.
  Context {C : ConstraintSystem}.

Definition c_ret {A} (a : A) : circuit A := fun s => Ret (a, s).

Definition c_bind {A B} (m : circuit A) (k : A -> circuit B) : circuit B :=
  fun s => match m s with
           | Ret (a, s') => k a s'
           | Fail e => Fail e
           | Panic => Panic
           end.

Definition multiply (a b : LinearCombination) : circuit (R1CSVar * R1CSVar * R1CSVar) :=
  fun s => Ret (cs_multiply a b s).
Definition allocate (x : option Scalar) : circuit R1CSVar := cs_allocate x.
Definition constrain (a : LinearCombination) : circuit unit :=
  fun s => Ret (tt, cs_constrain a s).
Definition eval (a : LinearCombination) : circuit Scalar := fun s => Ret (cs_eval s a, s).
Definition commit (x : Scalar) : circuit R1CSVar := fun s => Ret (cs_commit x s).
Definition commit_public (x : Scalar) : circuit R1CSVar := fun s => Ret (cs_commit_public x s).

Lemma c_bind_assoc {A B D} (m : circuit A) (f : A -> circuit B) (g : B -> circuit D) s :
  c_bind (c_bind m f) g s = c_bind m (fun x => c_bind (f x) g) s.
Proof. unfold c_bind. by destruct (m s) as [[? ?]| |]. Qed.

(** [assert!] and [unwrap] inside a circuit. *)
Definition c_assert (b : bool) : circuit unit := fun s => if b then Ret (tt, s) else Panic.
Definition c_unwrap {A} (m : circuit A) : circuit A := fun s => unwrap (m s).

(** Indexing a vector panics out of range. *)
Definition c_get {A} (o : option A) : circuit A :=
  fun s => match o with Some a => Ret (a, s) | None => Panic end.

(** [iter().map(f).collect()] with a body that extends the circuit. *)
Fixpoint mapM {A B} (f : A -> circuit B) (l : list A) : circuit (list B) :=
  match l with
  | [] => c_ret []
  | x :: l' => c_bind (f x) (fun y => c_bind (mapM f l') (fun ys => c_ret (y :: ys)))
  end.

(** A [for] loop that threads a value. *)
Fixpoint foldM {A B} (f : B -> A -> circuit B) (b : B) (l : list A) : circuit B :=
  match l with
  | [] => c_ret b
  | x :: l' => c_bind (f b x) (fun b' => foldM f b' l')
  end.

Lemma foldM_app {A B} (f : B -> A -> circuit B) l k : forall b s,
  foldM f b (l ++ k) s = c_bind (foldM f b l) (fun b' => foldM f b' k) s.
Proof.
  induction l as [|x l IH]; intros b s; [done|]. cbn [app foldM]. rewrite c_bind_assoc.
  unfold c_bind at 1 2. destruct (f b x s) as [[b' s']| |]; [apply IH|done..].
Qed.

(** A loop over lists is a loop over their concatenation. *)
Lemma foldM_concat {A B D} (f : B -> A -> circuit B) (g : D -> list A) l : forall b s,
  foldM (fun b x => foldM f b (g x)) b l s = foldM f b (concat (g <$> l)) s.
Proof.
  induction l as [|x l IH]; intros b s; [done|]. cbn [foldM fmap list_fmap concat].
  rewrite foldM_app. unfold c_bind. destruct (foldM f b (g x) s) as [[b' s']| |]; [apply IH|done..].
Qed.
End monad.

Declare Scope circuit_scope.
Delimit Scope circuit_scope with circuit.
Notation "'let!' x ':=' m 'in' k" := (c_bind m (fun x => k))
  (at level 10, x pattern, m at level 100, k at level 200) : circuit_scope.
Notation "m ';;' k" := (c_bind m (fun _ => k))
  (at level 100, k at level 200, right associativity) : circuit_scope.

(** * Soundness triples *)

Section sound.
  Context {C : ConstraintSystem} {L : ConstraintSystemLaws C}.

Definition sound {A} (g : circuit A) (R : assignment -> A -> Prop) : Prop :=
  forall s a s', g s = Ret (a, s') -> forall w, sat s' w -> sat s w /\ R w a.

Lemma sound_ret {A} (a : A) (R : assignment -> A -> Prop) :
  (forall w, valid w -> R w a) -> sound (c_ret a) R.
Proof. intros H s a' s' [= <- <-] w Hw. split; [done|]. eauto using sat_valid. Qed.

Lemma sound_bind {A B} (g : circuit A) (k : A -> circuit B) R1 (R2 : assignment -> B -> Prop) :
  sound g R1 -> (forall a, sound (k a) (fun w b => R1 w a -> R2 w b)) ->
  sound (c_bind g k) R2.
Proof.
  intros Hg Hk s b s' E w Hw. unfold c_bind in E.
  destruct (g s) as [[a s1]| |] eqn:Eg; try discriminate.
  destruct (Hk a s1 b s' E w Hw) as [Hw1 HR].
  destruct (Hg s a s1 Eg w Hw1) as [Hw0 HR1]. auto.
Qed.

Lemma sound_ext {A} (g g' : circuit A) R : (forall s, g' s = g s) -> sound g R -> sound g' R.
Proof. intros Hg H s a s' E. apply (H s a s'). by rewrite <- Hg. Qed.

Lemma sound_assoc {A B D} (m : circuit A) (f : A -> circuit B) (g : B -> circuit D) R :
  sound (c_bind (c_bind m f) g) R -> sound (c_bind m (fun x => c_bind (f x) g)) R.
Proof. intros H s a s' E. apply (H s a s'). by rewrite c_bind_assoc. Qed.

Lemma sound_weaken {A} (g : circuit A) (R R' : assignment -> A -> Prop) :
  sound g R -> (forall w a, valid w -> R w a -> R' w a) -> sound g R'.
Proof.
  intros Hg HR s a s' E w Hw. destruct (Hg s a s' E w Hw) as [Hs Ha].
  split; [done|]. apply HR; [by eapply sat_valid|done].
Qed.

Lemma sound_and {A} (g : circuit A) (R R' : assignment -> A -> Prop) :
  sound g R -> sound g R' -> sound g (fun w a => R w a /\ R' w a).
Proof.
  intros H1 H2 s a s' E w Hw.
  destruct (H1 s a s' E w Hw), (H2 s a s' E w Hw). done.
Qed.

Lemma sound_multiply a b :
  sound (multiply a b) (fun w '(l, r, o) =>
    w l = lc_eval w a /\ w r = lc_eval w b /\ w o = lc_eval w a * lc_eval w b).
Proof.
  intros s [[l r] o] s' [= E] w Hw. pose proof (multiply_sat a b s w) as Hm.
  rewrite E in Hm. apply Hm in Hw as (Hs & Hl & Hr & Ho).
  split; [done|]. rewrite <- Hl, <- Hr. done.
Qed.

Lemma sound_allocate x : sound (allocate x) (fun _ _ => True).
Proof. intros s v s' E w Hw. split; [|done]. by apply (allocate_sat x s v s' w E). Qed.

Lemma sound_constrain a : sound (constrain a) (fun w _ => lc_eval w a = 0).
Proof. intros s [] s' [= <-] w Hw. by apply constrain_sat. Qed.

Lemma sound_commit x : sound (commit x) (fun _ _ => True).
Proof.
  intros s v s' [= E] w Hw. pose proof (commit_sat x s w) as H. rewrite E in H.
  split; [by apply H|done].
Qed.

Lemma sound_commit_public x : sound (commit_public x) (fun w v => w v = x).
Proof.
  intros s v s' [= E] w Hw. pose proof (commit_public_sat x s w) as H. rewrite E in H.
  by apply H.
Qed.

Lemma sound_eval a : sound (eval a) (fun _ _ => True).
Proof. intros s x s' [= _ <-] w Hw. done. Qed.

Lemma sound_assert b : sound (c_assert b) (fun _ _ => b = true).
Proof. intros s [] s'. unfold c_assert. destruct b; [|done]. intros [= <-]. done. Qed.

Lemma sound_assert_bind {A} b (k : unit -> circuit A) R :
  (b = true -> sound (k tt) R) -> sound (c_bind (c_assert b) k) R.
Proof.
  intros H s a s' E. unfold c_bind, c_assert in E. destruct b; [|done].
  by apply (H eq_refl s).
Qed.

Lemma sound_get {A} (o : option A) : sound (c_get o) (fun _ a => o = Some a).
Proof. intros s a s'. unfold c_get. destruct o; [|done]. by intros [= <- <-]. Qed.

Lemma sound_unwrap {A} (g : circuit A) R : sound g R -> sound (c_unwrap g) R.
Proof.
  intros H s a s' E. apply (H s). unfold c_unwrap, unwrap in E.
  destruct (g s); congruence.
Qed.

(** Loops: a relation between each element and its image. *)
Lemma sound_mapM {A B} (f : A -> circuit B) (R : assignment -> A -> B -> Prop) l :
  (forall x, x ∈ l -> sound (f x) (fun w y => R w x y)) ->
  sound (mapM f l) (fun w ys => Forall2 (R w) l ys).
Proof.
  induction l as [|x l IH]; intros Hf; cbn [mapM].
  - apply sound_ret. constructor.
  - eapply sound_bind; [apply Hf, list_elem_of_here|]. intros y.
    eapply sound_bind; [apply IH; intros; by apply Hf, list_elem_of_further|]. intros ys.
    apply sound_ret. intros w _ Hys Hy. by constructor.
Qed.

Lemma sound_foldM {A B} (f : B -> A -> circuit B) (R : assignment -> list A -> B -> Prop) :
  (forall pre x b, sound (f b x) (fun w b' => R w pre b -> R w (pre ++ [x]) b')) ->
  forall l b pre, sound (foldM f b l) (fun w b' => R w pre b -> R w (pre ++ l) b').
Proof.
  intros Hf. induction l as [|x l IH]; intros b pre; cbn [foldM].
  - apply sound_ret. intros w _. by rewrite app_nil_r.
  - eapply sound_bind; [apply (Hf pre)|]. intros b'.
    eapply sound_weaken; [apply (IH b' (pre ++ [x]))|].
    intros w b'' _ H1 H2 H3. rewrite <- app_assoc in H1. auto.
Qed.
End sound.

(** Evaluation of linear combinations. *)
Create HintDb lc discriminated.
Ltac lc_simpl :=
  repeat first
    [ rewrite lc_eval_add | rewrite lc_eval_sub | rewrite lc_eval_neg
    | rewrite lc_eval_scale | rewrite lc_eval_scalar | rewrite lc_eval_var
    | rewrite lc_eval_default ];
  repeat match goal with
  | H : valid ?w |- context [?w VarOne] => rewrite (proj1 H)
  | H : valid ?w |- context [?w VarZero] => rewrite (proj2 H)
  end.

Ltac lc_simpl_in H :=
  repeat first
    [ rewrite lc_eval_add in H | rewrite lc_eval_sub in H | rewrite lc_eval_neg in H
    | rewrite lc_eval_scale in H | rewrite lc_eval_scalar in H | rewrite lc_eval_var in H
    | rewrite lc_eval_default in H ];
  repeat match goal with
  | Hv : valid ?w |- _ =>
      match type of H with
      | context [w VarOne] => rewrite (proj1 Hv) in H
      | context [w VarZero] => rewrite (proj2 Hv) in H
      end
  end.

(** One step of a soundness proof: the primitive operations of the monad. *)
Ltac sound_step :=
  lazymatch goal with
  | |- sound (c_bind (multiply _ _) _) _ =>
      eapply sound_bind; [apply sound_multiply|]; intros [[? ?] ?]
  | |- sound (c_bind (allocate _) _) _ =>
      eapply sound_bind; [apply sound_allocate|]; intros ?
  | |- sound (c_bind (c_unwrap (allocate _)) _) _ =>
      eapply sound_bind; [apply sound_unwrap, sound_allocate|]; intros ?
  | |- sound (c_bind (constrain _) _) _ =>
      eapply sound_bind; [apply sound_constrain|]; intros []
  | |- sound (c_bind (eval _) _) _ =>
      eapply sound_bind; [apply sound_eval|]; intros ?
  | |- sound (c_bind (c_assert _) _) _ =>
      apply sound_assert_bind; intros ?
  | |- sound (c_ret _) _ => apply sound_ret; intros ? ?
  end.

(** * Honest runs *)

Section honest.
  Context {C : ConstraintSystem} {L : ConstraintSystemLaws C} {P : ProverLaws C}.

(** A linear combination over variables in use. *)
Definition lc_scoped (s : cs) (a : LinearCombination) : Prop :=
  forall w w', (forall v, scope s v -> w' v = w v) -> lc_eval w' a = lc_eval w a.

(** The value of a linear combination in the prover's assignment. *)
Definition value (s : cs) (a : LinearCombination) : Scalar := lc_eval (witness s) a.

(** The prover's assignment satisfies the constraints. *)
Definition honest (s : cs) : Prop := sat s (witness s).

Record extends (s s' : cs) : Prop := {
  extends_scope v : scope s v -> scope s' v;
  extends_witness v : scope s v -> witness s' v = witness s v;
}.

Lemma extends_refl s : extends s s.
Proof. by split. Qed.

Lemma extends_trans s1 s2 s3 : extends s1 s2 -> extends s2 s3 -> extends s1 s3.
Proof.
  intros [S12 W12] [S23 W23]. split; [auto|].
  intros v Hv. rewrite W23 by auto. auto.
Qed.

Lemma extends_scoped s s' a : extends s s' -> lc_scoped s a -> lc_scoped s' a.
Proof. intros E Ha w w' H. apply Ha. intros v Hv. apply H. by apply E. Qed.

Lemma extends_value s s' a : extends s s' -> lc_scoped s a -> value s' a = value s a.
Proof. intros E Ha. apply Ha. apply E. Qed.

Lemma extends_scoped_list s s' l :
  extends s s' -> Forall (lc_scoped s) l -> Forall (lc_scoped s') l.
Proof. intros E H. eapply Forall_impl; [exact H|]. intros a. by apply extends_scoped. Qed.

Lemma extends_value_list s s' l :
  extends s s' -> Forall (lc_scoped s) l -> value s' <$> l = value s <$> l.
Proof.
  intros E H. induction H as [|a l Ha _ IH]; [done|].
  rewrite !fmap_cons, IH. f_equal. by apply extends_value.
Qed.

Lemma scoped_var s v : scope s v -> lc_scoped s (lc_var v).
Proof. intros Hv w w' H. rewrite !lc_eval_var. auto. Qed.
Lemma scoped_scalar s c : lc_scoped s (lc_scalar c).
Proof. intros w w' H. rewrite !lc_eval_scalar, H; [done|apply scope_one]. Qed.
Lemma scoped_default s : lc_scoped s lc_default.
Proof. intros w w' H. by rewrite !lc_eval_default. Qed.
Lemma scoped_add s a b : lc_scoped s a -> lc_scoped s b -> lc_scoped s (a + b)%lc.
Proof. intros Ha Hb w w' H. by rewrite !lc_eval_add, (Ha w w' H), (Hb w w' H). Qed.
Lemma scoped_sub s a b : lc_scoped s a -> lc_scoped s b -> lc_scoped s (a - b)%lc.
Proof. intros Ha Hb w w' H. by rewrite !lc_eval_sub, (Ha w w' H), (Hb w w' H). Qed.
Lemma scoped_neg s a : lc_scoped s a -> lc_scoped s (- a)%lc.
Proof. intros Ha w w' H. by rewrite !lc_eval_neg, (Ha w w' H). Qed.
Lemma scoped_scale s c a : lc_scoped s a -> lc_scoped s (c *! a)%lc.
Proof. intros Ha w w' H. by rewrite !lc_eval_scale, (Ha w w' H). Qed.
Lemma scoped_one s : lc_scoped s VarOne.
Proof. apply scoped_var, scope_one. Qed.
Lemma scoped_zero s : lc_scoped s VarZero.
Proof. apply scoped_var, scope_zero. Qed.

Lemma value_default s : value s lc_default = 0.
Proof. apply lc_eval_default. Qed.
Lemma value_add s a b : value s (a + b)%lc = value s a + value s b.
Proof. apply lc_eval_add. Qed.
Lemma value_sub s a b : value s (a - b)%lc = value s a - value s b.
Proof. apply lc_eval_sub. Qed.
Lemma value_neg s a : value s (- a)%lc = - value s a.
Proof. apply lc_eval_neg. Qed.
Lemma value_scale s c a : value s (c *! a)%lc = c * value s a.
Proof. apply lc_eval_scale. Qed.
Lemma value_one s : value s VarOne = 1.
Proof. unfold value. rewrite lc_eval_var. apply witness_valid. Qed.
Lemma value_zero s : value s VarZero = 0.
Proof. unfold value. rewrite lc_eval_var. apply witness_valid. Qed.
Lemma value_scalar s c : value s (lc_scalar c) = c.
Proof.
  unfold value. rewrite lc_eval_scalar, (proj1 (witness_valid s)). apply Zmod.mul_1_r.
Qed.

(** ** The weakest precondition of a run

    [K] is the condition under which the constraints that the run adds hold
    in the prover's assignment. *)
Definition wp {A} (g : circuit A) (s : cs) (Q : A -> cs -> Prop -> Prop) : Prop :=
  cs_wf s -> exists a s' K, g s = Ret (a, s') /\ cs_wf s' /\ extends s s' /\
    (honest s' <-> honest s /\ K) /\ Q a s' K.

Lemma wp_ret {A} (a : A) s (Q : A -> cs -> Prop -> Prop) : Q a s True -> wp (c_ret a) s Q.
Proof. intros HQ Hs. exists a, s, True. split_and!; eauto using extends_refl; tauto. Qed.

Lemma wp_bind {A B} (g : circuit A) (k : A -> circuit B) s (Q : B -> cs -> Prop -> Prop) :
  wp g s (fun a s1 K1 => wp (k a) s1 (fun b s2 K2 => Q b s2 (K1 /\ K2))) ->
  wp (c_bind g k) s Q.
Proof.
  intros H Hs. destruct (H Hs) as (a & s1 & K1 & Eg & Hs1 & E1 & HK1 & Hk).
  destruct (Hk Hs1) as (b & s2 & K2 & Ek & Hs2 & E2 & HK2 & HQ).
  exists b, s2, (K1 /\ K2). split_and!; eauto using extends_trans.
  - unfold c_bind. by rewrite Eg.
  - tauto.
Qed.

Lemma wp_ext {A} (g g' : circuit A) s (Q : A -> cs -> Prop -> Prop) :
  (forall s, g' s = g s) -> wp g s Q -> wp g' s Q.
Proof. intros Hg H Hs. rewrite Hg. by apply H. Qed.

Lemma wp_assoc {A B D} (m : circuit A) (f : A -> circuit B) (g : B -> circuit D) s Q :
  wp (c_bind (c_bind m f) g) s Q -> wp (c_bind m (fun x => c_bind (f x) g)) s Q.
Proof. intros H Hs. destruct (H Hs) as (a & s' & K & E & ?). rewrite c_bind_assoc in E. eauto. Qed.

Lemma wp_mono {A} (g : circuit A) s (Q Q' : A -> cs -> Prop -> Prop) :
  wp g s Q -> (forall a s' K, extends s s' -> Q a s' K -> Q' a s' K) -> wp g s Q'.
Proof.
  intros H HQ Hs. destruct (H Hs) as (a & s' & K & ? & ? & ? & ? & ?).
  exists a, s', K. eauto 10.
Qed.

Lemma honest_local s s' : cs_wf s -> extends s s' -> (sat s (witness s') <-> honest s).
Proof.
  intros Hs E. split; apply sat_local; try done; try apply witness_valid.
  - intros v Hv. symmetry. by apply E.
  - apply E.
Qed.

Lemma wp_multiply a b s (Q : _ -> cs -> Prop -> Prop) :
  lc_scoped s a -> lc_scoped s b ->
  (forall l r o s', extends s s' -> lc_scoped s' (lc_var l) -> lc_scoped s' (lc_var r) ->
    lc_scoped s' (lc_var o) -> value s' l = value s' a -> value s' r = value s' b ->
    value s' o = value s' a * value s' b -> Q (l, r, o) s' True) ->
  wp (multiply a b) s Q.
Proof.
  intros Ha Hb HQ Hs. unfold multiply.
  pose proof (multiply_witness a b s) as Hw. pose proof (multiply_wf a b s Hs Ha Hb) as Hwf.
  pose proof (fun w => multiply_sat a b s w) as Hsat.
  pose proof (fun v => multiply_scope a b s v) as Hsc.
  destruct (cs_multiply a b s) as [[[l r] o] s'] eqn:Em. cbn in Hwf.
  destruct Hw as (Hw & Hl & Hr & Ho).
  assert (extends s s') as E by (split; [intros v ?; apply Hsc; auto|done]).
  exists (l, r, o), s', True. split_and!; [done|done|done| |].
  - unfold honest. rewrite Hsat, Hl, Hr, Ho, (honest_local s s' Hs E).
    fold (value s' a) (value s' b). rewrite !(extends_value s s') by done.
    unfold value. tauto.
  - apply HQ; try done; try (apply scoped_var, Hsc; tauto);
      rewrite ?(extends_value s s' a E Ha), ?(extends_value s s' b E Hb);
      unfold value at 1; by rewrite lc_eval_var.
Qed.

Lemma wp_allocate x s (Q : R1CSVar -> cs -> Prop -> Prop) :
  (forall v s', extends s s' -> lc_scoped s' (lc_var v) -> value s' v = x ->
    ~ scope s v -> Q v s' True) ->
  wp (allocate (Some x)) s Q.
Proof.
  intros HQ Hs. destruct (allocate_ret x s) as (v & s' & Ea).
  destruct (allocate_witness x s v s' Ea) as [Hw Hv].
  pose proof (fun u => allocate_scope (Some x) s v s' u Ea) as Hsc.
  assert (extends s s') as E by (split; [intros u ?; apply Hsc; auto|done]).
  exists v, s', True. split_and!; [done|by eapply allocate_wf|done| |].
  - unfold honest at 1. rewrite (allocate_sat (Some x) s v s' _ Ea).
    rewrite (honest_local s s' Hs E). tauto.
  - apply HQ; [done| | |by eapply allocate_fresh].
    + apply scoped_var, Hsc. auto.
    + unfold value. by rewrite lc_eval_var.
Qed.

Lemma wp_commit x s (Q : R1CSVar -> cs -> Prop -> Prop) :
  (forall v s', extends s s' -> lc_scoped s' (lc_var v) -> value s' v = x -> Q v s' True) ->
  wp (commit x) s Q.
Proof.
  intros HQ Hs. pose proof (commit_witness x s) as Hw. pose proof (commit_wf x s Hs) as Hwf.
  pose proof (fun u => commit_scope x s u) as Hsc. pose proof (fun w => commit_sat x s w) as Hsat.
  unfold commit. destruct (cs_commit x s) as [v s']. destruct Hw as [Hw Hv].
  assert (extends s s') as E by (split; [intros u ?; apply Hsc; auto|done]).
  exists v, s', True. split_and!; [done|done|done| |].
  - unfold honest at 1. rewrite Hsat, (honest_local s s' Hs E). tauto.
  - apply HQ; [done|apply scoped_var, Hsc; auto|]. unfold value. by rewrite lc_eval_var.
Qed.

Lemma wp_commit_public x s (Q : R1CSVar -> cs -> Prop -> Prop) :
  (forall v s', extends s s' -> lc_scoped s' (lc_var v) -> value s' v = x -> Q v s' True) ->
  wp (commit_public x) s Q.
Proof.
  intros HQ Hs. pose proof (commit_public_witness x s) as Hw.
  pose proof (commit_public_wf x s Hs) as Hwf.
  pose proof (fun u => commit_public_scope x s u) as Hsc.
  pose proof (fun w => commit_public_sat x s w) as Hsat.
  unfold commit_public. destruct (cs_commit_public x s) as [v s']. destruct Hw as [Hw Hv].
  assert (extends s s') as E by (split; [intros u ?; apply Hsc; auto|done]).
  exists v, s', True. split_and!; [done|done|done| |].
  - unfold honest at 1. rewrite Hsat, (honest_local s s' Hs E). tauto.
  - apply HQ; [done|apply scoped_var, Hsc; auto|]. unfold value. by rewrite lc_eval_var.
Qed.

Lemma wp_constrain a s (Q : unit -> cs -> Prop -> Prop) :
  lc_scoped s a -> (forall s', extends s s' -> Q tt s' (value s' a = 0)) ->
  wp (constrain a) s Q.
Proof.
  intros Ha HQ Hs. set (s' := cs_constrain a s).
  assert (extends s s') as E.
  { split; [intros v; apply constrain_scope|intros v _; apply constrain_witness]. }
  exists tt, s', (value s' a = 0). split_and!; [done|by apply constrain_wf|done| |auto].
  unfold honest at 1, s'. rewrite constrain_sat. fold s'.
  by rewrite (honest_local s s' Hs E).
Qed.

Lemma wp_eval a s (Q : Scalar -> cs -> Prop -> Prop) : Q (value s a) s True -> wp (eval a) s Q.
Proof.
  intros HQ Hs. exists (value s a), s, True. unfold eval. rewrite eval_witness.
  split_and!; eauto using extends_refl; tauto.
Qed.

Lemma wp_assert b s (Q : unit -> cs -> Prop -> Prop) :
  b = true -> Q tt s True -> wp (c_assert b) s Q.
Proof. intros -> HQ Hs. exists tt, s, True. split_and!; eauto using extends_refl; tauto. Qed.

Lemma wp_get {A} (o : option A) a s (Q : A -> cs -> Prop -> Prop) :
  o = Some a -> Q a s True -> wp (c_get o) s Q.
Proof. intros -> HQ Hs. exists a, s, True. split_and!; eauto using extends_refl; tauto. Qed.

Lemma wp_unwrap {A} (g : circuit A) s (Q : A -> cs -> Prop -> Prop) :
  wp g s Q -> wp (c_unwrap g) s Q.
Proof.
  intros H Hs. destruct (H Hs) as (a & s' & K & E & ?).
  exists a, s', K. unfold c_unwrap. by rewrite E.
Qed.
End honest.

#[export] Hint Resolve extends_refl scoped_scalar scoped_default scoped_add scoped_sub
  scoped_neg scoped_scale scoped_one scoped_zero : lc.

Ltac scoped := solve [eauto 10 with lc].

(** Chains the extensions of a run. *)
Ltac extended :=
  solve [repeat first [assumption | apply extends_refl | eapply extends_trans; [eassumption|]]].

Ltac value_simpl :=
  repeat first
    [ rewrite value_add | rewrite value_sub | rewrite value_neg | rewrite value_scale
    | rewrite value_scalar | rewrite value_one | rewrite value_zero | rewrite value_default ].

(** Moves every fact to the state that extends the current one. *)
Ltac advance E :=
  match type of E with
  | extends ?s ?s' =>
      repeat match goal with
      | H : lc_scoped s ?a |- _ =>
          try rewrite <- (extends_value s s' a E H) in *;
          apply (extends_scoped s s' a E) in H
      | H : Forall (lc_scoped s) ?l |- _ =>
          try rewrite <- (extends_value_list s s' l E H) in *;
          apply (extends_scoped_list s s' l E) in H
      end
  end.

(** * Dishonest runs *)

Section forge.
  Context {C : ConstraintSystem} {L : ConstraintSystemLaws C}.

(** The assignment [w'] of [s'] keeps what [w] says of the variables of [s]. *)
Definition keeps (s s' : cs) (w w' : assignment) : Prop :=
  forall v, scope s v -> scope s' v /\ w' v = w v.

Definition forge {A} (g : circuit A) (s : cs) (w : assignment)
    (Q : A -> cs -> assignment -> Prop) : Prop :=
  cs_wf s -> sat s w -> exists a s' w', g s = Ret (a, s') /\
    cs_wf s' /\ sat s' w' /\ keeps s s' w w' /\ Q a s' w'.

Definition override (w : assignment) (v : R1CSVar) (x : Scalar) : assignment :=
  fun u => if decide (u = v) then x else w u.

Lemma override_eq w v x : override w v x v = x.
Proof. unfold override. by rewrite decide_True. Qed.
Lemma override_ne w v x u : u <> v -> override w v x u = w u.
Proof. intros. unfold override. by rewrite decide_False. Qed.

Lemma override_valid s w v x : ~ scope s v -> valid w -> valid (override w v x).
Proof.
  intros Hv [H1 H0]. split; rewrite override_ne; try done; intros <-; apply Hv;
    [apply scope_one|apply scope_zero].
Qed.

Lemma keeps_refl s w : keeps s s w w.
Proof. by intros v Hv. Qed.

Lemma keeps_trans s1 s2 s3 w1 w2 w3 :
  keeps s1 s2 w1 w2 -> keeps s2 s3 w2 w3 -> keeps s1 s3 w1 w3.
Proof.
  intros H12 H23 v Hv. destruct (H12 v Hv) as [Hv2 E12].
  destruct (H23 v Hv2) as [Hv3 E23]. split; congruence.
Qed.

Lemma keeps_scoped s s' w w' a : keeps s s' w w' -> lc_scoped s a -> lc_scoped s' a.
Proof. intros Hk Ha u u' H. apply Ha. intros v Hv. apply H. by apply Hk. Qed.

Lemma keeps_eval s s' w w' a :
  keeps s s' w w' -> lc_scoped s a -> lc_eval w' a = lc_eval w a.
Proof. intros Hk Ha. apply Ha. intros v Hv. by apply Hk. Qed.

Lemma forge_ret {A} (a : A) s w (Q : A -> cs -> assignment -> Prop) :
  Q a s w -> forge (c_ret a) s w Q.
Proof. intros HQ Hs Hw. exists a, s, w. eauto using keeps_refl. Qed.

Lemma forge_bind {A B} (g : circuit A) (k : A -> circuit B) s w
    (Q : B -> cs -> assignment -> Prop) :
  forge g s w (fun a s1 w1 => forge (k a) s1 w1 Q) -> forge (c_bind g k) s w Q.
Proof.
  intros H Hs Hw. destruct (H Hs Hw) as (a & s1 & w1 & Eg & Hs1 & Hw1 & Hk1 & Hk).
  destruct (Hk Hs1 Hw1) as (b & s2 & w2 & Ek & Hs2 & Hw2 & Hk2 & HQ).
  exists b, s2, w2. unfold c_bind. rewrite Eg. split_and!; eauto using keeps_trans.
Qed.

(** The prover assigns any value to an allocated variable. *)
Lemma forge_allocate y x s w (Q : R1CSVar -> cs -> assignment -> Prop) :
  (forall v s' w', keeps s s' w w' -> lc_scoped s' (lc_var v) -> lc_eval w' v = y ->
    Q v s' w') ->
  forge (allocate (Some x)) s w Q.
Proof.
  intros HQ Hs Hw. destruct (allocate_ret x s) as (v & s' & E).
  pose proof (allocate_fresh (Some x) s v s' E) as Hv.
  pose proof (fun u => allocate_scope (Some x) s v s' u E) as Hsc.
  assert (keeps s s' w (override w v y)) as Hk.
  { intros u Hu. split; [apply Hsc; auto|]. apply override_ne. by intros ->. }
  exists v, s', (override w v y). split_and!.
  - done.
  - by eapply allocate_wf.
  - apply (allocate_sat (Some x) s v s' _ E). eapply sat_local; [done|..|exact Hw].
    + eapply override_valid; [exact Hv|]. by eapply sat_valid.
    + intros u Hu. apply override_ne. by intros ->.
  - done.
  - apply HQ; [done|apply scoped_var, Hsc; auto|]. rewrite lc_eval_var. apply override_eq.
Qed.

Lemma forge_multiply a b s w (Q : _ -> cs -> assignment -> Prop) :
  lc_scoped s a -> lc_scoped s b ->
  (forall l r o s' w', keeps s s' w w' -> lc_scoped s' (lc_var l) ->
    lc_scoped s' (lc_var r) -> lc_scoped s' (lc_var o) ->
    lc_eval w' o = lc_eval w' a * lc_eval w' b -> Q (l, r, o) s' w') ->
  forge (multiply a b) s w Q.
Proof.
  intros Ha Hb HQ Hs Hw. destruct (cs_multiply a b s) as [[[l r] o] s'] eqn:E.
  pose proof (multiply_wf a b s Hs Ha Hb) as Hwf.
  pose proof (fun w => multiply_sat a b s w) as Hsat.
  pose proof (fun v => multiply_scope a b s v) as Hsc.
  pose proof (multiply_fresh a b s) as Hf. rewrite E in *. cbn in Hwf.
  destruct Hf as (Fl & Fr & Fo & Nlr & Nlo & Nro).
  set (w' := override (override (override w l (lc_eval w a)) r (lc_eval w b)) o
               (lc_eval w a * lc_eval w b)).
  assert (forall v, scope s v -> w' v = w v) as Hold.
  { intros v Hv. unfold w'. rewrite !override_ne; [done|..]; congruence. }
  assert (keeps s s' w w') as Hk by (intros v Hv; split; [apply Hsc; auto|auto]).
  assert (w' l = lc_eval w a /\ w' r = lc_eval w b /\ w' o = lc_eval w a * lc_eval w b)
    as (Wl & Wr & Wo).
  { unfold w'. split_and!; repeat (rewrite override_eq || rewrite override_ne by congruence);
      done. }
  exists (l, r, o), s', w'. split_and!; [by unfold multiply; rewrite E|done| |done|].
  - apply Hsat. rewrite Wl, Wr, Wo, (Ha w w' Hold), (Hb w w' Hold). split_and!; try done.
    eapply sat_local; [done| |exact Hold|exact Hw].
    apply sat_valid in Hw. unfold w'. do 3 (eapply override_valid; [eassumption|]). done.
  - apply HQ; try done; try (apply scoped_var, Hsc; auto).
    by rewrite lc_eval_var, (keeps_eval _ _ _ _ _ Hk Ha), (keeps_eval _ _ _ _ _ Hk Hb).
Qed.

Lemma forge_constrain a s w (Q : unit -> cs -> assignment -> Prop) :
  lc_scoped s a -> (valid w -> lc_eval w a = 0) ->
  (forall s', keeps s s' w w -> Q tt s' w) -> forge (constrain a) s w Q.
Proof.
  intros Ha Hz HQ Hs Hw.
  assert (keeps s (cs_constrain a s) w w) as Hk
    by (intros v Hv; split; [by apply constrain_scope|done]).
  exists tt, (cs_constrain a s), w. split_and!; [done|by apply constrain_wf| |done|auto].
  apply constrain_sat. eauto using sat_valid.
Qed.

Lemma forge_eval a s w (Q : Scalar -> cs -> assignment -> Prop) :
  (forall x, Q x s w) -> forge (eval a) s w Q.
Proof. intros HQ Hs Hw. exists (cs_eval s a), s, w. eauto using keeps_refl. Qed.

Lemma forge_assert b s w (Q : unit -> cs -> assignment -> Prop) :
  b = true -> Q tt s w -> forge (c_assert b) s w Q.
Proof. intros -> HQ Hs Hw. exists tt, s, w. eauto using keeps_refl. Qed.

Lemma forge_unwrap {A} (g : circuit A) s w (Q : A -> cs -> assignment -> Prop) :
  forge g s w Q -> forge (c_unwrap g) s w Q.
Proof.
  intros H Hs Hw. destruct (H Hs Hw) as (a & s' & w' & E & ?).
  exists a, s', w'. unfold c_unwrap. by rewrite E.
Qed.

Lemma forge_mono {A} (g : circuit A) s w (Q Q' : A -> cs -> assignment -> Prop) :
  forge g s w Q -> (forall a s' w', keeps s s' w w' -> Q a s' w' -> Q' a s' w') ->
  forge g s w Q'.
Proof.
  intros H HQ Hs Hw. destruct (H Hs Hw) as (a & s' & w' & ? & ? & ? & ? & ?).
  exists a, s', w'. eauto 10.
Qed.

Lemma keeps_scoped_list s s' w w' l :
  keeps s s' w w' -> Forall (lc_scoped s) l -> Forall (lc_scoped s') l.
Proof. intros Hk H. eapply Forall_impl; [exact H|]. intros a. by eapply keeps_scoped. Qed.

Lemma keeps_eval_list s s' w w' l :
  keeps s s' w w' -> Forall (lc_scoped s) l -> lc_eval w' <$> l = lc_eval w <$> l.
Proof.
  intros Hk H. induction H as [|a l Ha _ IH]; [done|]. rewrite !fmap_cons, IH. f_equal.
  by apply (keeps_eval s s').
Qed.

(** The part of [forge] that does not say that the run returns: a run in which the
    assertions are about the values of the honest prover is shown to return by [wp]. *)
Definition admits {A} (g : circuit A) (s : cs) (w : assignment)
    (Q : A -> cs -> assignment -> Prop) : Prop :=
  cs_wf s -> sat s w -> forall a s', g s = Ret (a, s') ->
    exists w', cs_wf s' /\ sat s' w' /\ keeps s s' w w' /\ Q a s' w'.

Lemma admits_forge {A} (g : circuit A) s w (Q : A -> cs -> assignment -> Prop) :
  forge g s w Q -> admits g s w Q.
Proof.
  intros H Hs Hw a s' E. destruct (H Hs Hw) as (a' & s1 & w' & E' & H').
  rewrite E in E'. injection E' as <- <-. by exists w'.
Qed.

Lemma admits_ret {A} (a : A) s w (Q : A -> cs -> assignment -> Prop) :
  Q a s w -> admits (c_ret a) s w Q.
Proof. intros HQ. by apply admits_forge, forge_ret. Qed.

Lemma admits_bind {A B} (g : circuit A) (k : A -> circuit B) s w
    (Q : B -> cs -> assignment -> Prop) :
  admits g s w (fun a s1 w1 => admits (k a) s1 w1 Q) -> admits (c_bind g k) s w Q.
Proof.
  intros H Hs Hw b s' E. unfold c_bind in E. destruct (g s) as [[a s1]| |] eqn:Eg; try discriminate.
  destruct (H Hs Hw a s1 Eg) as (w1 & Hs1 & Hw1 & Hk1 & Hk).
  destruct (Hk Hs1 Hw1 b s' E) as (w2 & Hs2 & Hw2 & Hk2 & HQ). eauto 10 using keeps_trans.
Qed.

Lemma admits_assoc {A B D} (m : circuit A) (f : A -> circuit B) (g : B -> circuit D) s w
    (Q : D -> cs -> assignment -> Prop) :
  admits (c_bind (c_bind m f) g) s w Q -> admits (c_bind m (fun x => c_bind (f x) g)) s w Q.
Proof. intros H Hs Hw a s' E. rewrite <- c_bind_assoc in E. by apply H. Qed.

Lemma admits_assert b s w (Q : unit -> cs -> assignment -> Prop) :
  (b = true -> Q tt s w) -> admits (c_assert b) s w Q.
Proof.
  intros HQ Hs Hw a s'. unfold c_assert. destruct b; [|done]. intros [= <- <-].
  exists w. eauto using keeps_refl.
Qed.

Lemma admits_get {A} (o : option A) s w (Q : A -> cs -> assignment -> Prop) :
  (forall a, o = Some a -> Q a s w) -> admits (c_get o) s w Q.
Proof.
  intros HQ Hs Hw a s'. unfold c_get. destruct o as [x|]; [|done]. intros [= <- <-].
  exists w. eauto using keeps_refl.
Qed.
End forge.

(** Moves every fact to the assignment that extends the current one. *)
Ltac keep H :=
  match type of H with
  | keeps ?s ?s' ?w ?w' =>
      repeat match goal with
      | Ha : lc_scoped s ?a |- _ =>
          try rewrite <- (keeps_eval s s' w w' a H Ha) in *;
          apply (keeps_scoped s s' w w' a H) in Ha
      | Ha : Forall (lc_scoped s) ?l |- _ =>
          try rewrite <- (keeps_eval_list s s' w w' l H Ha) in *;
          apply (keeps_scoped_list s s' w w' l H) in Ha
      end
  end.
