(* ===== verification/ListR1CS.v ===== *)
(** A concrete constraint system.

    Variables are numbered wires, a linear combination is a list of terms, and
    the state keeps the prover's values, the linear constraints and the
    multiplication gates.  It satisfies the laws of [ConstraintSystem], so the
    hypotheses of the theorems about gadgets can be met, and it is executable,
    so that gadgets can be run on concrete inputs. *)

From Stdlib Require Import Zmod.
From S2P Require Import Prelude Primality Field ConstraintSystem.

#[local] Open Scope Zmod_scope.

Inductive wire := WOne | WZero | Wire (n : nat).

#[export] Instance wire_eq_dec : EqDecision wire.
Proof. solve_decision. Defined.

Record state := {
  values : list Scalar;
  linear : list (list (wire * Scalar));
  gates : list (nat * nat * nat);
}.

Definition empty_state : state := {| values := []; linear := []; gates := [] |}.

Definition wire_value (s : state) (v : wire) : Scalar :=
  match v with
  | WOne => 1
  | WZero => 0
  | Wire n => default 0 (values s !! n)
  end.

Definition terms_eval (w : wire -> Scalar) (a : list (wire * Scalar)) : Scalar :=
  foldr (fun t acc => snd t * w (fst t) + acc) 0 a.

Definition terms_scale (c : Scalar) (a : list (wire * Scalar)) : list (wire * Scalar) :=
  (fun t => (fst t, c * snd t)) <$> a.

Definition push_values (s : state) (l : list Scalar) : state :=
  {| values := values s ++ l; linear := linear s; gates := gates s |}.

Definition add_linear (s : state) (a : list (wire * Scalar)) : state :=
  {| values := values s; linear := a :: linear s; gates := gates s |}.

Definition add_gate (s : state) (g : nat * nat * nat) : state :=
  {| values := values s; linear := linear s; gates := g :: gates s |}.

Definition terms_sub (a b : list (wire * Scalar)) := a ++ terms_scale (Zmod.opp Zmod.one) b.

#[export] Instance list_cs : ConstraintSystem := {|
  cs := state;
  R1CSVar := wire;
  LinearCombination := list (wire * Scalar);
  R1CSError := unit;
  VarOne := WOne;
  VarZero := WZero;
  lc_default := [];
  lc_var v := [(v, 1)];
  lc_scalar c := [(WOne, c)];
  lc_add a b := a ++ b;
  lc_sub := terms_sub;
  lc_neg := terms_scale (Zmod.opp Zmod.one);
  lc_scale := terms_scale;
  cs_multiply a b s :=
    let x := terms_eval (wire_value s) a in
    let y := terms_eval (wire_value s) b in
    let n := length (values s) in
    let s1 := push_values s [x; y; x * y] in
    let s2 := add_linear s1 (terms_sub [(Wire n, 1)] a) in
    let s3 := add_linear s2 (terms_sub [(Wire (n + 1), 1)] b) in
    ((Wire n, Wire (n + 1), Wire (n + 2)), add_gate s3 (n, n + 1, n + 2))%nat;
  cs_allocate x s :=
    match x with
    | Some x => Ret (Wire (length (values s)), push_values s [x])
    | None => Fail tt
    end;
  cs_constrain a s := add_linear s a;
  cs_commit x s := (Wire (length (values s)), push_values s [x]);
  cs_commit_public x s :=
    let n := length (values s) in
    (Wire n, add_linear (push_values s [x]) [(Wire n, 1); (WOne, - x)]);
  cs_eval s a := terms_eval (wire_value s) a;
|}.

(** * The laws *)

Definition gate_holds (w : wire -> Scalar) (g : nat * nat * nat) : Prop :=
  let '(l, r, o) := g in w (Wire o) = w (Wire l) * w (Wire r).

Definition wire_scope (s : state) (v : wire) : Prop :=
  match v with Wire n => n < length (values s) | _ => True end.

Definition state_sat (s : state) (w : wire -> Scalar) : Prop :=
  (w WOne = 1 /\ w WZero = 0) /\
  Forall (fun a => terms_eval w a = 0) (linear s) /\ Forall (gate_holds w) (gates s).

Definition terms_local (s : state) (a : list (wire * Scalar)) : Prop :=
  forall w w', (forall v, wire_scope s v -> w' v = w v) -> terms_eval w' a = terms_eval w a.

Definition state_wf (s : state) : Prop :=
  Forall (terms_local s) (linear s) /\
  Forall (fun '(l, r, o) => l < length (values s) /\ r < length (values s) /\
    o < length (values s)) (gates s).

Lemma terms_eval_app w a b : terms_eval w (a ++ b) = terms_eval w a + terms_eval w b.
Proof.
  induction a as [|t a IH]; [symmetry; apply Zmod.add_0_l|].
  change (terms_eval w ((t :: a) ++ b)) with (snd t * w (fst t) + terms_eval w (a ++ b)).
  rewrite IH. change (terms_eval w (t :: a)) with (snd t * w (fst t) + terms_eval w a).
  ring.
Qed.

Lemma terms_eval_scale w c a : terms_eval w (terms_scale c a) = c * terms_eval w a.
Proof.
  induction a as [|t a IH]; [symmetry; apply Zmod.mul_0_r|].
  change (terms_eval w (terms_scale c (t :: a)))
    with (c * snd t * w (fst t) + terms_eval w (terms_scale c a)).
  rewrite IH. change (terms_eval w (t :: a)) with (snd t * w (fst t) + terms_eval w a).
  ring.
Qed.

Lemma terms_eval_sub w a b : terms_eval w (terms_sub a b) = terms_eval w a - terms_eval w b.
Proof. unfold terms_sub. rewrite terms_eval_app, terms_eval_scale. ring. Qed.

Lemma terms_eval_one w v c : terms_eval w [(v, c)] = c * w v.
Proof. change (c * w v + 0 = c * w v). ring. Qed.

Lemma push_values_lookup s l n :
  n < length (values s) -> values (push_values s l) !! n = values s !! n.
Proof. intros Hn. by apply lookup_app_l. Qed.

Lemma wire_scope_mono s s' v :
  length (values s) <= length (values s') -> wire_scope s v -> wire_scope s' v.
Proof. destruct v; cbn; [done..|lia]. Qed.

Lemma terms_local_mono s s' a :
  length (values s) <= length (values s') -> terms_local s a -> terms_local s' a.
Proof. intros Hl Ha w w' H. apply Ha. intros v Hv. apply H. by eapply wire_scope_mono. Qed.

Lemma terms_local_sub s a b : terms_local s a -> terms_local s b -> terms_local s (terms_sub a b).
Proof. intros Ha Hb w w' H. by rewrite !terms_eval_sub, (Ha w w' H), (Hb w w' H). Qed.

Lemma terms_local_wire s n : n < length (values s) -> terms_local s [(Wire n, 1)].
Proof. intros Hn w w' H. rewrite !terms_eval_one, H; [done|exact Hn]. Qed.

Lemma state_wf_push s l : state_wf s -> state_wf (push_values s l).
Proof.
  intros [Hl Hg]. split; cbn.
  - eapply Forall_impl; [exact Hl|]. intros a. apply terms_local_mono. cbn.
    rewrite length_app. lia.
  - eapply Forall_impl; [exact Hg|]. intros [[? ?] ?]. rewrite length_app. lia.
Qed.

Lemma state_wf_linear s a : state_wf s -> terms_local s a -> state_wf (add_linear s a).
Proof. intros [Hl Hg] Ha. split; cbn; [constructor; done|done]. Qed.

Lemma state_sat_linear s a w : state_sat (add_linear s a) w <-> state_sat s w /\ terms_eval w a = 0.
Proof. unfold state_sat; cbn. rewrite Forall_cons. tauto. Qed.

Lemma state_sat_gate s g w : state_sat (add_gate s g) w <-> state_sat s w /\ gate_holds w g.
Proof. unfold state_sat; cbn. rewrite Forall_cons. tauto. Qed.

Lemma state_sat_local s (w w' : wire -> Scalar) :
  state_wf s -> w' WOne = 1 /\ w' WZero = 0 ->
  (forall v, wire_scope s v -> w' v = w v) -> state_sat s w -> state_sat s w'.
Proof.
  intros [Hl Hg] Hv H (_ & Hsl & Hsg). split_and!; [tauto|tauto|..].
  - rewrite Forall_forall in Hl, Hsl |- *. intros a Ha.
    rewrite (Hl a Ha w w' H). auto.
  - rewrite Forall_forall in Hg, Hsg |- *. intros [[l r] o] Hin.
    destruct (Hg _ Hin) as (? & ? & ?). specialize (Hsg _ Hin).
    unfold gate_holds in *. by rewrite !H.
Qed.

Lemma wire_scope_push s x n :
  (n < length (values s ++ [x]) <-> n < length (values s) \/ Wire n = Wire (length (values s)))%nat.
Proof.
  rewrite length_app. cbn. split; [|intros [|[= ->]]; lia].
  intros. destruct (decide (n = length (values s))) as [->|]; [auto|left; lia].
Qed.

Lemma public_terms s w n x :
  state_sat s w /\ terms_eval w [(Wire n, 1); (WOne, - x)] = 0 <-> state_sat s w /\ w (Wire n) = x.
Proof.
  unfold terms_eval; cbn. split; intros [Hs H]; (split; [done|]);
    pose proof (proj1 Hs) as [H1 _]; rewrite H1 in *.
  - transitivity (w (Wire n) - (1 * w (Wire n) + (- x * 1 + 0)) + 0); [rewrite H; ring|ring].
  - rewrite H. ring.
Qed.

#[local] Arguments terms_eval : simpl never.
#[local] Arguments terms_scale : simpl never.
#[local] Arguments terms_sub : simpl never.

#[export] Instance list_cs_laws : ConstraintSystemLaws list_cs.
Proof.
  refine {| lc_eval := terms_eval : (@R1CSVar list_cs -> Scalar) -> @LinearCombination list_cs -> Scalar;
            scope := wire_scope; sat := state_sat; cs_wf := state_wf |}.
  - done.
  - intros w v. cbn. rewrite terms_eval_one. apply Zmod.mul_1_l.
  - intros w c. apply terms_eval_one.
  - intros w a b. apply terms_eval_app.
  - intros w a b. apply terms_eval_sub.
  - intros w a. cbn. rewrite terms_eval_scale. ring.
  - intros w c a. apply terms_eval_scale.
  - done.
  - done.
  - by intros s w [Hv _].
  - intros s w w'. apply state_sat_local.
  - intros a b s w. cbn. rewrite state_sat_gate, !state_sat_linear, !terms_eval_sub, !terms_eval_one,
      !scalar_sub_zero, !Zmod.mul_1_l. unfold gate_holds, state_sat. cbn. tauto.
  - intros a b s [| |n]; cbn; [tauto..|]. rewrite length_app. cbn.
    split; [|intros [|[[= ->]|[[= ->]|[= ->]]]]; lia].
    intros. destruct (decide (n = length (values s))) as [->|]; [auto|].
    destruct (decide (n = (length (values s) + 1)%nat)) as [->|]; [auto|].
    destruct (decide (n = (length (values s) + 2)%nat)) as [->|]; [auto|]. lia.
  - intros a b s; cbn. split_and!; try lia; intros [=]; lia.
  - intros a b s Hs Ha Hb. cbn.
    assert (forall n l, (n < length (values s) + length l)%nat -> terms_local (push_values s l) [(Wire n, 1)]).
    { intros n l Hn. apply terms_local_wire. cbn. by rewrite length_app. }
    split; cbn.
    + constructor; [|constructor; [|apply (state_wf_push s _ Hs)]];
        apply (terms_local_sub (push_values s _)); try (apply H; cbn; lia);
        eapply terms_local_mono; try eassumption; cbn; rewrite length_app; lia.
    + constructor; [rewrite length_app; cbn; lia|apply (state_wf_push s _ Hs)].
  - intros x s. cbn. eauto.
  - intros [x|] s v s' w; cbn; [|done]. intros [= <- <-]. done.
  - intros [x|] s v s' u; cbn; [|done]. intros [= <- <-]. destruct u as [| |n]; cbn; [tauto..|].
    apply wire_scope_push.
  - intros [x|] s v s'; cbn; [|done]. intros [= <- <-]. cbn. lia.
  - intros [x|] s v s'; cbn; [|done]. intros [= <- <-]. apply state_wf_push.
  - intros a s w. apply state_sat_linear.
  - done.
  - intros a s. apply state_wf_linear.
  - done.
  - intros x s [| |n]; cbn; [tauto..|]. apply wire_scope_push.
  - intros x s; cbn. lia.
  - intros x s. apply state_wf_push.
  - intros x s w. cbn. rewrite state_sat_linear, public_terms. done.
  - intros x s [| |n]; cbn; [tauto..|]. apply wire_scope_push.
  - intros x s; cbn. lia.
  - intros x s Hs. apply state_wf_linear; [by apply state_wf_push|].
    intros w w' H. unfold terms_eval; cbn. rewrite !H; [done|done|].
    cbn. rewrite length_app. cbn. lia.
Defined.

#[export] Instance list_cs_prover : ProverLaws list_cs.
Proof.
  assert (forall s l n, n < length l ->
    default 0 (values (push_values s l) !! (length (values s) + n)%nat) = default 0 (l !! n)) as Hnew.
  { intros s l n Hn. cbn. rewrite lookup_app_r by lia. do 2 f_equal. lia. }
  assert (forall s l v, wire_scope s v -> wire_value (push_values s l) v = wire_value s v) as Hold.
  { intros s l [| |n] Hn; cbn; [done..|]. by rewrite lookup_app_l. }
  refine {| witness := wire_value : @cs list_cs -> @R1CSVar list_cs -> Scalar |}.
  - by intros s.
  - done.
  - intros a b s. cbn. split_and!.
    + intros v Hv. by apply (Hold s).
    + specialize (Hnew s [terms_eval (wire_value s) a; terms_eval (wire_value s) b;
        terms_eval (wire_value s) a * terms_eval (wire_value s) b] 0%nat).
      rewrite Nat.add_0_r in Hnew. apply Hnew. cbn; lia.
    + apply (Hnew s [_; _; _] 1%nat). cbn; lia.
    + apply (Hnew s [_; _; _] 2%nat). cbn; lia.
  - intros x s v s' [= <- <-]. split; [intros u Hu; by apply (Hold s)|].
    specialize (Hnew s [x] 0%nat). rewrite Nat.add_0_r in Hnew. apply Hnew. cbn; lia.
  - intros a s [| |n]; done.
  - intros x s. cbn. split; [intros u Hu; by apply (Hold s)|].
    specialize (Hnew s [x] 0%nat). rewrite Nat.add_0_r in Hnew. apply Hnew. cbn; lia.
  - intros x s. cbn. split; [intros u Hu; by apply (Hold s)|].
    specialize (Hnew s [x] 0%nat). rewrite Nat.add_0_r in Hnew. apply Hnew. cbn; lia.
Defined.

(** * Concrete states *)

(** A state with the given committed values and no constraints yet. *)
Definition with_values (l : list Scalar) : state := push_values empty_state l.

Lemma with_values_wf l : cs_wf (with_values l).
Proof. apply state_wf_push. by split. Qed.

Lemma with_values_sat l : sat (with_values l) (wire_value (with_values l)).
Proof. by split_and!. Qed.

Lemma with_values_scoped l n :
  (n <? length l)%nat = true -> lc_scoped (with_values l) (lc_var (Wire n : R1CSVar)).
Proof. intros Hn%Nat.ltb_lt w w' H. rewrite !lc_eval_var. apply H. exact Hn. Qed.

#[export] Hint Resolve with_values_wf with_values_sat : lc.
#[export] Hint Extern 1 (lc_scoped (with_values _) (lc_var (Wire _))) =>
  apply with_values_scoped; reflexivity : lc.
#[export] Hint Extern 1 (lc_scoped (with_values _) [(Wire _, _)]) =>
  apply with_values_scoped; reflexivity : lc.

(** The variable of the [n]-th committed value. *)
Definition input (n : nat) : @LinearCombination list_cs := lc_var (Wire n : R1CSVar).
#[export] Hint Extern 1 (lc_scoped (with_values _) (input _)) =>
  apply with_values_scoped; reflexivity : lc.
