(* ===== verification/Gates.v ===== *)
(** Logical gates and selection: circuits/src/zk_gadgets/gates.rs and
    circuits/src/zk_gadgets/select.rs. *)

From Stdlib Require Import Zmod.
From S2P Require Import Prelude Primality Field ConstraintSystem.

#[local] Open Scope Zmod_scope.
#[local] Open Scope circuit_scope.

Section gates.
  Context {C : ConstraintSystem}.

(** [OrGate::or] *)
Definition or_gate (a b : LinearCombination) : circuit LinearCombination :=
  let! (a, b, a_times_b) := multiply a b in
  c_ret (a + b - a_times_b)%lc.

(** [AndGate::and] *)
Definition and_gate (a b : LinearCombination) : circuit R1CSVar :=
  let! (_, _, out) := multiply a b in
  c_ret out.

(** [ConstrainBinaryGadget::constrain_binary] *)
Definition constrain_binary (x : LinearCombination) : circuit unit :=
  let! (_, _, mul_out) := multiply x (VarOne - x)%lc in
  constrain mul_out.

(** [CondSelectGadget::select] *)
Definition select (a b selector : LinearCombination) : circuit LinearCombination :=
  let! (_, _, mul1_out) := multiply a selector in
  let! (_, _, mul2_out) := multiply b (VarOne - selector)%lc in
  c_ret (mul1_out + mul2_out)%lc.

(** [CondSelectVectorGadget::select] *)
Definition select_vector (a b : list LinearCombination) (selector : LinearCombination)
    : circuit (list LinearCombination) :=
  c_assert (length a =? length b)%nat ;;
  mapM (fun '(a_val, b_val) => select a_val b_val selector) (zip a b).
End gates.

(** A scalar that encodes a boolean. *)
Definition binary (x : Scalar) : Prop := x = 0 \/ x = 1.

Lemma binary_bit_scalar b : binary (bit_scalar b).
Proof. destruct b; [by right|by left]. Qed.

Lemma binary_cases x : binary x -> exists b, x = bit_scalar b.
Proof. intros [-> | ->]; [by exists false|by exists true]. Qed.

Lemma bit_scalar_inj b1 b2 : bit_scalar b1 = bit_scalar b2 -> b1 = b2.
Proof.
  destruct b1, b2; cbn; intros H; try done; exfalso; apply scalar_one_neq_zero; congruence.
Qed.

Lemma binary_iff x : x * (1 - x) = 0 <-> binary x.
Proof.
  rewrite scalar_mul_zero. unfold binary. split; intros [H|H]; auto.
  - right. symmetry. by apply scalar_sub_zero.
  - right. rewrite H. apply Zmod.sub_same.
Qed.

(** * Soundness *)

Section gates_sound.
  Context {C : ConstraintSystem} {L : ConstraintSystemLaws C}.

Lemma or_gate_sound a b :
  sound (or_gate a b) (fun w out =>
    lc_eval w out = lc_eval w a + lc_eval w b - lc_eval w a * lc_eval w b).
Proof.
  unfold or_gate. sound_step. sound_step. intros (Ha & Hb & Ho).
  lc_simpl. by rewrite Ha, Hb, Ho.
Qed.

Lemma and_gate_sound a b :
  sound (and_gate a b) (fun w out => w out = lc_eval w a * lc_eval w b).
Proof. unfold and_gate. sound_step. sound_step. cbn. tauto. Qed.

Lemma constrain_binary_sound x :
  sound (constrain_binary x) (fun w _ => binary (lc_eval w x)).
Proof.
  unfold constrain_binary. sound_step.
  eapply sound_weaken; [apply sound_constrain|]. intros w [] Hv H (Hl & Hr & Ho).
  apply binary_iff. rewrite lc_eval_var in H. rewrite <- H, Ho. lc_simpl. done.
Qed.

Lemma select_sound a b sel :
  sound (select a b sel) (fun w out =>
    lc_eval w out = lc_eval w a * lc_eval w sel + lc_eval w b * (1 - lc_eval w sel)).
Proof.
  unfold select. sound_step. sound_step. sound_step.
  intros (? & ? & M2) (? & ? & M1). lc_simpl. rewrite M1, M2. lc_simpl. done.
Qed.

Lemma select_bit_sound a b sel :
  sound (select a b sel) (fun w out => forall s : bool,
    lc_eval w sel = bit_scalar s -> lc_eval w out = lc_eval w (if s then a else b)).
Proof.
  eapply sound_weaken; [apply select_sound|]. intros w out _ -> [] ->; cbn; ring.
Qed.

Lemma select_vector_sound a b sel :
  sound (select_vector a b sel) (fun w out => forall s : bool,
    lc_eval w sel = bit_scalar s ->
    lc_eval w <$> out = lc_eval w <$> (if s then a else b)).
Proof.
  unfold select_vector. sound_step. rename H into Hlen.
  eapply sound_weaken.
  { apply (sound_mapM _ (fun w '(x, y) z => forall s : bool,
      lc_eval w sel = bit_scalar s -> lc_eval w z = lc_eval w (if s then x else y))).
    intros [x y] _. apply select_bit_sound. }
  cbn. intros w out _ H s Hs. apply Nat.eqb_eq in Hlen.
  revert b out H Hlen. induction a as [|x a IH]; intros [|y b] out H Hlen; try done.
  - apply Forall2_nil_inv_l in H as ->. by destruct s.
  - cbn in H. apply Forall2_cons_inv_l in H as (z & out' & Hz & H & ->).
    specialize (IH b out' H ltac:(cbn in Hlen; lia)).
    destruct s; cbn; rewrite IH; f_equal; by apply (Hz _ Hs).
Qed.
End gates_sound.

(** * Honest runs *)

Section gates_honest.
  Context {C : ConstraintSystem} {L : ConstraintSystemLaws C} {P : ProverLaws C}.

Lemma wp_or_gate a b s (Q : LinearCombination -> cs -> Prop -> Prop) :
  lc_scoped s a -> lc_scoped s b ->
  (forall out s' (K : Prop), K -> extends s s' -> lc_scoped s' out ->
    value s' out = value s' a + value s' b - value s' a * value s' b -> Q out s' K) ->
  wp (or_gate a b) s Q.
Proof.
  intros Ha Hb HQ. apply wp_bind, wp_multiply; [done..|].
  intros l r o s' E Hl Hr Ho Vl Vr Vo. apply wp_ret. advance E.
  apply HQ; [done|done|scoped|]. value_simpl. by rewrite Vl, Vr, Vo.
Qed.

Lemma wp_and_gate a b s (Q : R1CSVar -> cs -> Prop -> Prop) :
  lc_scoped s a -> lc_scoped s b ->
  (forall out s' (K : Prop), K -> extends s s' -> lc_scoped s' (lc_var out) ->
    value s' out = value s' a * value s' b -> Q out s' K) ->
  wp (and_gate a b) s Q.
Proof.
  intros Ha Hb HQ. apply wp_bind, wp_multiply; [done..|].
  intros l r o s' E Hl Hr Ho Vl Vr Vo. apply wp_ret. advance E.
  by apply HQ.
Qed.

Lemma wp_constrain_binary x s (Q : unit -> cs -> Prop -> Prop) :
  lc_scoped s x ->
  (forall s' (K : Prop), extends s s' -> (K <-> binary (value s' x)) -> Q tt s' K) ->
  wp (constrain_binary x) s Q.
Proof.
  intros Hx HQ. apply wp_bind, wp_multiply; [scoped..|].
  intros l r o s1 E1 Hl Hr Ho Vl Vr Vo. advance E1. rewrite value_sub, value_one in Vo.
  apply wp_constrain; [scoped|]. intros s2 E2. apply HQ.
  - extended.
  - advance E2. rewrite Vo, <- binary_iff. tauto.
Qed.
End gates_honest.

Section select_honest.
  Context {C : ConstraintSystem} {L : ConstraintSystemLaws C} {P : ProverLaws C}.

Lemma wp_select a b sel s (Q : LinearCombination -> cs -> Prop -> Prop) :
  lc_scoped s a -> lc_scoped s b -> lc_scoped s sel ->
  (forall out s' (K : Prop), K -> extends s s' -> lc_scoped s' out ->
    value s' out = value s' a * value s' sel + value s' b * (1 - value s' sel) ->
    Q out s' K) ->
  wp (select a b sel) s Q.
Proof.
  intros Ha Hb Hs HQ. apply wp_bind, wp_multiply; [done..|].
  intros l1 r1 o1 s1 E1 _ _ Ho1 _ _ V1. advance E1.
  apply wp_bind, wp_multiply; [scoped..|].
  intros l2 r2 o2 s2 E2 _ _ Ho2 _ _ V2. advance E2.
  apply wp_ret, HQ; [done|extended|scoped|].
  value_simpl. rewrite V1, V2. value_simpl. done.
Qed.

Lemma wp_select_bit a b sel s (bit : bool) (Q : LinearCombination -> cs -> Prop -> Prop) :
  lc_scoped s a -> lc_scoped s b -> lc_scoped s sel -> value s sel = bit_scalar bit ->
  (forall out s' (K : Prop), K -> extends s s' -> lc_scoped s' out ->
    value s' out = (if bit then value s' a else value s' b) -> Q out s' K) ->
  wp (select a b sel) s Q.
Proof.
  intros Ha Hb Hs Hbit HQ. apply wp_select; [done..|].
  intros out s' K HK E Ho V. advance E. apply HQ; [done..|].
  rewrite V, Hbit. destruct bit; cbn; ring.
Qed.
End select_honest.
