(* ===== verification/Comparators.v ===== *)
(** Bit decomposition and comparators in the single-prover system:
    circuits/src/zk_gadgets/bits.rs and circuits/src/zk_gadgets/comparators.rs. *)

From Stdlib Require Import Zmod.
From S2P Require Import Prelude Primality Field ConstraintSystem ListR1CS Gates.

#[local] Open Scope Zmod_scope.
#[local] Open Scope circuit_scope.

Section comparators.
  Context {C : ConstraintSystem}.

(** [EqZeroGadget::eq_zero] *)
Definition eq_zero (val_lc : LinearCombination) : circuit R1CSVar :=
  let! val_eval := eval val_lc in
  let '(is_zero, inverse) :=
    if bool_decide (val_eval = 0) then (1, 0) else (0, Zmod.inv val_eval) in
  let! is_zero_var := c_unwrap (allocate (Some is_zero)) in
  let! inv_var := c_unwrap (allocate (Some inverse)) in
  let! (_, _, val_times_inv) := multiply val_lc inv_var in
  constrain (is_zero_var - lc_scalar 1 + val_times_inv)%lc ;;
  let! (_, _, in_times_out) := multiply val_lc is_zero_var in
  constrain in_times_out ;;
  c_ret is_zero_var.

(** [EqGadget::eq] *)
Definition eq_gadget (a b : LinearCombination) : circuit R1CSVar := eq_zero (a - b)%lc.

(** [NotEqualGadget::not_equal] *)
Definition not_equal (a b : LinearCombination) : circuit LinearCombination :=
  let! is_eq := eq_zero (a - b)%lc in
  c_ret (VarOne - is_eq)%lc.

(** [EqVecGadget::eq_vec] *)
Definition eq_vec (a b : list LinearCombination) : circuit R1CSVar :=
  c_assert (length a =? length b)%nat ;;
  let! not_equal_values := mapM (fun '(a_val, b_val) => not_equal a_val b_val) (zip a b) in
  eq_zero (foldl (fun acc ne_val => acc + ne_val)%lc (lc_var VarZero) not_equal_values).

(** [EqVecGadget::constrain_eq_vec] *)
Definition constrain_eq_vec (a b : list LinearCombination) : circuit unit :=
  c_assert (length a =? length b)%nat ;;
  foldM (fun _ '(a_val, b_val) => constrain (a_val - b_val)%lc) tt (zip a b).

(** [ToBitsGadget::to_bits]: the loop that allocates the bits and adds up the
    reconstruction, and the gadget.  The slice [..D] of the 256 bits panics when
    [D] exceeds their number. *)
Fixpoint to_bits_loop (index : nat) (bits : list Scalar) (res_bits : list R1CSVar)
    (reconstructed : LinearCombination) : circuit (list R1CSVar * LinearCombination) :=
  match bits with
  | [] => c_ret (res_bits, reconstructed)
  | bit :: bits' =>
      let! bit_lc := allocate (Some bit) in
      let shift_bit := bigint_to_scalar (Z.shiftl 1 (Z.of_nat index)) in
      to_bits_loop (S index) bits' (res_bits ++ [bit_lc])
        (reconstructed + shift_bit *! bit_lc)%lc
  end.

Definition to_bits (D : nat) (a : LinearCombination) : circuit (list R1CSVar) :=
  let! a_scalar := eval a in
  c_assert (D <=? 256)%nat ;;
  let! (res_bits, reconstructed) :=
    to_bits_loop 0 (take D (scalar_to_bits_le a_scalar)) [] lc_default in
  constrain (reconstructed - a)%lc ;;
  c_ret res_bits.

(** [GreaterThanEqZeroGadget::bit_decompose_reconstruct] *)
Definition bit_decompose_reconstruct (D : nat) (x : LinearCombination)
    : circuit LinearCombination :=
  c_assert (D <=? POSITIVE_SCALAR_MAX_BITS)%nat ;;
  let! x_scalar := eval x in
  let! bits := mapM (fun bit => c_unwrap (allocate (Some bit)))
                 (take D (scalar_to_bits_le x_scalar)) in
  c_ret (foldl (fun res bit => scalar 2 *! res + lc_var bit)%lc lc_default (rev bits)).

(** [GreaterThanEqZeroGadget::greater_than_zero] *)
Definition greater_than_zero (D : nat) (x : LinearCombination) : circuit R1CSVar :=
  let! bit_reconstructed := bit_decompose_reconstruct D x in
  eq_zero (bit_reconstructed - x)%lc.

(** [GreaterThanEqZeroGadget::constrain_greater_than_zero] *)
Definition constrain_greater_than_zero (D : nat) (x : LinearCombination) : circuit unit :=
  let! bit_reconstructed := bit_decompose_reconstruct D x in
  constrain (bit_reconstructed - x)%lc.

(** [GreaterThanEqGadget] *)
Definition greater_than_eq (D : nat) (a b : LinearCombination) : circuit R1CSVar :=
  greater_than_zero D (a - b)%lc.
Definition constrain_greater_than_eq (D : nat) (a b : LinearCombination) : circuit unit :=
  constrain_greater_than_zero D (a - b)%lc.

(** [LessThanGadget] *)
Definition less_than (D : nat) (a b : LinearCombination) : circuit LinearCombination :=
  let! a_geq_b := greater_than_eq D a b in
  c_ret (VarOne - a_geq_b)%lc.
Definition constrain_less_than (D : nat) (a b : LinearCombination) : circuit unit :=
  let! lt_result := less_than D a b in
  constrain (VarOne - lt_result)%lc.
End comparators.

(** * Equality *)

(** What the two constraints of [eq_zero] force. *)
Lemma eq_zero_equations (v z i : Scalar) :
  z - 1 + v * i = 0 -> v * z = 0 -> z = bit_scalar (bool_decide (v = 0)).
Proof.
  intros H1 H2. case_bool_decide as Hv; cbn.
  - rewrite Hv in H1. replace z with (z - 1 + 0 * i + 1) by ring. rewrite H1. ring.
  - apply scalar_mul_zero in H2 as [|]; done.
Qed.

Lemma eq_zero_witness (x : Scalar) :
  bit_scalar (bool_decide (x = 0)) - 1 + x * (if bool_decide (x = 0) then 0 else Zmod.inv x) = 0
  /\ x * bit_scalar (bool_decide (x = 0)) = 0.
Proof.
  case_bool_decide as Hx0; cbn.
  - rewrite Hx0. split; ring.
  - rewrite scalar_inv_r by done. split; ring.
Qed.

Section equality_sound.
  Context {C : ConstraintSystem} {L : ConstraintSystemLaws C}.

Lemma eq_zero_sound a :
  sound (eq_zero a) (fun w out => w out = bit_scalar (bool_decide (lc_eval w a = 0))).
Proof.
  unfold eq_zero. sound_step.
  destruct (if bool_decide (a0 = 0) then _ else _) as [z i].
  do 7 sound_step.
  intros Hc2 (? & ? & M2) Hc1 (? & ? & M1) _ _ _.
  lc_simpl_in Hc1. lc_simpl_in Hc2. lc_simpl_in M1. lc_simpl_in M2.
  eapply eq_zero_equations; [|rewrite <- M2; exact Hc2].
  rewrite <- M1, <- Hc1. ring.
Qed.

Lemma eq_gadget_sound a b :
  sound (eq_gadget a b) (fun w out =>
    w out = bit_scalar (bool_decide (lc_eval w a = lc_eval w b))).
Proof.
  eapply sound_weaken; [apply eq_zero_sound|]. intros w out _ ->. f_equal.
  apply bool_decide_ext. rewrite lc_eval_sub. apply scalar_sub_zero.
Qed.

Lemma not_equal_sound a b :
  sound (not_equal a b) (fun w out =>
    lc_eval w out = bit_scalar (bool_decide (lc_eval w a <> lc_eval w b))).
Proof.
  unfold not_equal. eapply sound_bind; [apply eq_gadget_sound|]. intros v.
  sound_step. intros Hv. lc_simpl. rewrite Hv.
  rewrite bool_decide_not. destruct (bool_decide _); cbn; ring.
Qed.

Lemma constrain_eq_vec_sound a b :
  sound (constrain_eq_vec a b) (fun w _ => lc_eval w <$> a = lc_eval w <$> b).
Proof.
  unfold constrain_eq_vec. sound_step. rename H into Hlen.
  eapply sound_weaken.
  { apply (sound_foldM _ (fun w pre _ =>
      Forall (fun '(x, y) => lc_eval w x = lc_eval w y) pre)) with (pre := []).
    intros pre [x y] b0. eapply sound_weaken; [apply sound_constrain|].
    intros w [] _ H Hpre. apply Forall_app. split; [done|].
    repeat constructor. rewrite lc_eval_sub in H. by apply scalar_sub_zero. }
  cbn. intros w [] _ H. apply Nat.eqb_eq in Hlen.
  specialize (H ltac:(constructor)). revert b H Hlen.
  induction a as [|x a IH]; intros [|y b] H Hlen; try done.
  cbn in H. apply Forall_cons in H as [Hxy H]. cbn in *. f_equal; [done|]. apply IH; [done|lia].
Qed.
End equality_sound.

(** ** Equality of vectors *)

(** The number of positions at which two vectors differ. *)
Definition differences (l1 l2 : list Scalar) : nat :=
  length (filter (fun '(x, y) => x <> y) (zip l1 l2)).

Lemma differences_le l1 l2 : differences l1 l2 <= length l1.
Proof.
  unfold differences. etransitivity; [apply length_filter|].
  rewrite length_zip_with. lia.
Qed.

Lemma differences_zero l1 l2 :
  length l1 = length l2 -> (differences l1 l2 = 0%nat <-> l1 = l2).
Proof.
  unfold differences. revert l2; induction l1 as [|x l1 IH]; intros [|y l2] Hlen; try done.
  cbn in Hlen. injection Hlen as Hlen. cbn [zip zip_with]. rewrite filter_cons.
  specialize (IH l2 Hlen). case_decide as Hxy; cbn [length].
  - split; [lia|]. intros [= -> ->]. done.
  - rewrite IH. subst y. split; [by intros ->|by intros [= ->]].
Qed.

Section sum.
  Context {C : ConstraintSystem} {L : ConstraintSystemLaws C}.

Lemma lc_eval_sum w (l : list LinearCombination) a :
  lc_eval w (foldl (fun acc x => acc + x)%lc a l) =
  lc_eval w a + foldr Zmod.add 0 (lc_eval w <$> l).
Proof.
  revert a; induction l as [|x l IH]; intros a; cbn [foldl].
  - symmetry. apply Zmod.add_0_r.
  - rewrite IH, lc_eval_add. cbn. symmetry. apply Zmod.add_assoc.
Qed.

Lemma sum_not_equal w (a b : list LinearCombination) nes :
  Forall2 (fun '(x, y) ne =>
    lc_eval w ne = bit_scalar (bool_decide (lc_eval w x <> lc_eval w y))) (zip a b) nes ->
  foldr Zmod.add 0 (lc_eval w <$> nes) =
  scalar (Z.of_nat (differences (lc_eval w <$> a) (lc_eval w <$> b))).
Proof.
  revert b nes; induction a as [|x a IH]; intros [|y b] nes H;
    [apply Forall2_nil_inv_l in H as ->; done..|].
  cbn in H. apply Forall2_cons_inv_l in H as (ne & nes' & Hne & H & ->).
  rewrite !fmap_cons. cbn [foldr]. rewrite (IH b nes' H), Hne. unfold differences.
  cbn [zip zip_with]. rewrite filter_cons. rewrite bit_scalar_Z, <- Zmod.of_Z_add. f_equal.
  destruct (decide (lc_eval w x = lc_eval w y)) as [Hxy|Hxy].
  - rewrite bool_decide_false, decide_False by auto. cbn [Z.b2z]. lia.
  - rewrite bool_decide_true, decide_True by auto. cbn [length Z.b2z]. lia.
Qed.

Lemma scalar_count_zero n :
  (Z.of_nat n < ristretto_order)%Z -> (scalar (Z.of_nat n) = 0 <-> n = 0%nat).
Proof.
  intros Hn. split; [|by intros ->]. intros H%(f_equal Zmod.to_Z).
  rewrite to_Z_small, Zmod.unsigned_0 in H by lia. lia.
Qed.

(** The bound is on the number of differences: a sum of [p] ones would wrap to
    zero. *)
Lemma eq_vec_sound a b :
  (Z.of_nat (length a) < ristretto_order)%Z ->
  sound (eq_vec a b) (fun w out =>
    w out = bit_scalar (bool_decide (lc_eval w <$> a = lc_eval w <$> b))).
Proof.
  intros Hlen. unfold eq_vec. sound_step. rename H into Heq.
  eapply sound_bind.
  { apply (sound_mapM _ (fun w '(x, y) ne =>
      lc_eval w ne = bit_scalar (bool_decide (lc_eval w x <> lc_eval w y)))).
    intros [x y] _. apply not_equal_sound. }
  intros nes. eapply sound_weaken; [apply eq_zero_sound|].
  intros w out Hv -> Hne. apply Nat.eqb_eq in Heq. f_equal. apply bool_decide_ext.
  rewrite lc_eval_sum, (sum_not_equal w a b nes Hne). lc_simpl. rewrite Zmod.add_0_l.
  pose proof (differences_le (lc_eval w <$> a) (lc_eval w <$> b)) as Hd.
  rewrite length_fmap in Hd.
  rewrite scalar_count_zero by lia. apply differences_zero. by rewrite !length_fmap.
Qed.
End sum.

(** ** Honest runs *)

Section equality_honest.
  Context {C : ConstraintSystem} {L : ConstraintSystemLaws C} {P : ProverLaws C}.

Lemma wp_eq_zero a s (Q : R1CSVar -> cs -> Prop -> Prop) :
  lc_scoped s a ->
  (forall out s' (K : Prop), K -> extends s s' -> lc_scoped s' (lc_var out) ->
    value s' out = bit_scalar (bool_decide (value s' a = 0)) -> Q out s' K) ->
  wp (eq_zero a) s Q.
Proof.
  intros Ha HQ. unfold eq_zero. apply wp_bind, wp_eval. cbn.
  remember (value s a) as x eqn:Hx. set (z := bit_scalar (bool_decide (x = 0))).
  set (i := if bool_decide (x = 0) then 0 else Zmod.inv x).
  replace (if bool_decide (x = 0) then _ else _) with (z, i)
    by (unfold z, i; by case_bool_decide).
  destruct (eq_zero_witness x) as [Hzi Hxz]. fold z i in Hzi, Hxz.
  apply wp_bind, wp_unwrap, wp_allocate. intros vz s1 E1 Hvz Vz _. advance E1.
  apply wp_bind, wp_unwrap, wp_allocate. intros vi s2 E2 Hvi Vi _. advance E2.
  apply wp_bind, wp_multiply; [done..|]. intros l3 r3 o3 s3 E3 _ _ Ho3 _ _ V3. advance E3.
  apply wp_bind, wp_constrain; [scoped|]. intros s4 E4. value_simpl. advance E4.
  apply wp_bind, wp_multiply; [done..|]. intros l5 r5 o5 s5 E5 _ _ Ho5 _ _ V5. advance E5.
  apply wp_bind, wp_constrain; [done|]. intros s6 E6. advance E6.
  assert (extends s s6) as E by extended.
  apply wp_ret, HQ; [|done|done|].
  - rewrite V3, V5, Vz, Vi, <- Hx. split_and!; done.
  - rewrite Vz, <- Hx. done.
Qed.
End equality_honest.

Section vectors_honest.
  Context {C : ConstraintSystem} {L : ConstraintSystemLaws C} {P : ProverLaws C}.

Lemma wp_eq_gadget a b s (Q : R1CSVar -> cs -> Prop -> Prop) :
  lc_scoped s a -> lc_scoped s b ->
  (forall out s' (K : Prop), K -> extends s s' -> lc_scoped s' (lc_var out) ->
    value s' out = bit_scalar (bool_decide (value s' a = value s' b)) -> Q out s' K) ->
  wp (eq_gadget a b) s Q.
Proof.
  intros Ha Hb HQ. apply wp_eq_zero; [scoped|]. intros out s' K HK E Ho V.
  apply HQ; [done..|]. rewrite V. f_equal. apply bool_decide_ext.
  rewrite value_sub. apply scalar_sub_zero.
Qed.

Lemma wp_not_equal a b s (Q : LinearCombination -> cs -> Prop -> Prop) :
  lc_scoped s a -> lc_scoped s b ->
  (forall out s' (K : Prop), K -> extends s s' -> lc_scoped s' out ->
    value s' out = bit_scalar (bool_decide (value s' a <> value s' b)) -> Q out s' K) ->
  wp (not_equal a b) s Q.
Proof.
  intros Ha Hb HQ. apply wp_bind, wp_eq_gadget; [done..|].
  intros v s' K HK E Hv V. apply wp_ret, HQ; [done|done|scoped|].
  value_simpl. rewrite V, bool_decide_not. destruct (bool_decide _); cbn; ring.
Qed.
End vectors_honest.

(** * Bits *)

Section bits_sound.
  Context {C : ConstraintSystem} {L : ConstraintSystemLaws C}.

Lemma lc_eval_horner w (bits : list R1CSVar) :
  lc_eval w (foldl (fun res bit => scalar 2 *! res + lc_var bit)%lc lc_default (rev bits)) =
  bits_value (w <$> bits).
Proof.
  induction bits as [|b bits IH]; cbn [rev].
  - apply lc_eval_default.
  - rewrite foldl_app. cbn [foldl]. rewrite lc_eval_add, lc_eval_scale, lc_eval_var, IH.
    rewrite fmap_cons. unfold bits_value at 2. cbn [foldr]. fold (bits_value (w <$> bits)).
    ring.
Qed.

Lemma to_bits_loop_sound bits : forall index res rec,
  (index + length bits <= 256)%nat ->
  sound (to_bits_loop index bits res rec) (fun w '(res', rec') =>
    exists new, res' = res ++ new /\ length new = length bits /\
      lc_eval w rec' = lc_eval w rec + scalar (2 ^ Z.of_nat index) * bits_value (w <$> new)).
Proof.
  induction bits as [|bit bits IH]; intros index res rec Hidx; cbn [to_bits_loop].
  - sound_step. exists []. rewrite app_nil_r. split_and!; [done..|].
    change (bits_value (_ <$> [])) with (scalar 0). ring.
  - sound_step. eapply sound_weaken; [apply IH; cbn in Hidx; lia|].
    intros w [res' rec'] _ (new & -> & Hlen & He) _. exists (a :: new).
    rewrite <- app_assoc. split_and!; [done|cbn; lia|].
    rewrite He, lc_eval_add, lc_eval_scale, lc_eval_var, bigint_to_scalar_small.
    + rewrite Z.shiftl_1_l, Nat2Z.inj_succ, Z.pow_succ_r, Zmod.of_Z_mul by lia.
      rewrite fmap_cons. unfold bits_value at 2. cbn [foldr].
      fold (bits_value (w <$> new)). ring.
    + rewrite Z.shiftl_1_l, Z.abs_eq by lia. cbn in Hidx. apply Z.pow_lt_mono_r; lia.
Qed.

(** The decomposition has the right length and recomposes to the input.  It
    does not follow that its elements are bits. *)
Lemma to_bits_sound D a :
  sound (to_bits D a) (fun w bits =>
    length bits = D /\ bits_value (w <$> bits) = lc_eval w a).
Proof.
  unfold to_bits. sound_step. sound_step.
  rename H into HD. apply Nat.leb_le in HD.
  eapply sound_bind.
  { apply to_bits_loop_sound. rewrite length_take, length_scalar_to_bits_le. lia. }
  intros [res rec]. sound_step. sound_step. intros Hc (new & -> & Hlen & He).
  rewrite length_take, length_scalar_to_bits_le in Hlen. cbn. split; [lia|].
  lc_simpl_in Hc. apply scalar_sub_eq in Hc. rewrite <- Hc, He, lc_eval_default.
  rewrite Zmod.add_0_l. symmetry. apply Zmod.mul_1_l.
Qed.

Lemma bit_decompose_reconstruct_sound D x :
  sound (bit_decompose_reconstruct D x) (fun w out =>
    exists bits, length bits = D /\ lc_eval w out = bits_value (w <$> bits)).
Proof.
  unfold bit_decompose_reconstruct. sound_step. rename H into HD.
  unfold POSITIVE_SCALAR_MAX_BITS in HD. apply Nat.leb_le in HD.
  sound_step. eapply sound_bind.
  { apply (sound_mapM _ (fun _ _ _ => True)). intros b _.
    apply sound_unwrap, sound_allocate. }
  intros bits. sound_step. intros Hf _. exists bits. split.
  - apply Forall2_length in Hf. rewrite length_take, length_scalar_to_bits_le in Hf. lia.
  - apply lc_eval_horner.
Qed.
End bits_sound.

Section bits_honest.
  Context {C : ConstraintSystem} {L : ConstraintSystemLaws C} {P : ProverLaws C}.

Definition vars (l : list R1CSVar) : list LinearCombination := lc_var <$> l.

Lemma value_vars s l : value s <$> vars l = witness s <$> l.
Proof.
  unfold vars. rewrite <- list_fmap_compose. apply list_fmap_ext.
  intros i v _. cbn. unfold value. by rewrite lc_eval_var.
Qed.

Lemma value_horner s (bits : list R1CSVar) :
  value s (foldl (fun res bit => scalar 2 *! res + lc_var bit)%lc lc_default (rev bits)) =
  bits_value (value s <$> vars bits).
Proof. rewrite value_vars. apply lc_eval_horner. Qed.

Lemma scoped_foldl_horner s l a :
  lc_scoped s a -> Forall (lc_scoped s) (vars l) ->
  lc_scoped s (foldl (fun res bit => scalar 2 *! res + lc_var bit)%lc a l).
Proof.
  revert a; induction l as [|v l IH]; intros a Ha Hl; [done|].
  apply Forall_cons in Hl as [Hv Hl]. apply IH; [scoped|done].
Qed.

Lemma vars_rev l : vars (rev l) = rev (vars l).
Proof. apply map_rev. Qed.

Lemma scoped_horner s (bits : list R1CSVar) :
  Forall (lc_scoped s) (vars bits) ->
  lc_scoped s (foldl (fun res bit => scalar 2 *! res + lc_var bit)%lc lc_default (rev bits)).
Proof.
  intros H. apply scoped_foldl_horner; [scoped|]. rewrite vars_rev.
  by apply Forall_rev.
Qed.

Lemma wp_commit_list l : forall s (Q : list R1CSVar -> cs -> Prop -> Prop),
  (forall vs s' (K : Prop), K -> extends s s' -> Forall (lc_scoped s') (vars vs) ->
    value s' <$> vars vs = l -> Q vs s' K) ->
  wp (mapM commit l) s Q.
Proof.
  induction l as [|x l IH]; intros s Q HQ; cbn [mapM].
  - apply wp_ret, HQ; [done|apply extends_refl|constructor|done].
  - apply wp_bind, wp_commit. intros v s1 E1 Hv Vv.
    apply wp_bind, IH. intros vs s2 K2 HK2 E2 Hvs Vvs. advance E2.
    apply wp_ret, HQ; [done|extended|by constructor|]. cbn. by rewrite Vv, <- Vvs.
Qed.

Lemma wp_allocate_list bits : forall s (Q : list R1CSVar -> cs -> Prop -> Prop),
  (forall vs s' (K : Prop), K -> extends s s' -> Forall (lc_scoped s') (vars vs) ->
    value s' <$> vars vs = bits -> Q vs s' K) ->
  wp (mapM (fun bit => c_unwrap (allocate (Some bit))) bits) s Q.
Proof.
  induction bits as [|b bits IH]; intros s Q HQ; cbn [mapM].
  - apply wp_ret, HQ; done.
  - apply wp_bind, wp_unwrap, wp_allocate. intros v s1 E1 Hv Vv _.
    apply wp_bind, IH. intros vs s2 K HK E2 Hvs Vvs. advance E2.
    apply wp_ret, HQ; [done|extended|by constructor|].
    cbn. by rewrite Vv, <- Vvs.
Qed.

Lemma wp_to_bits_loop bits : forall index res rec s
    (Q : list R1CSVar * LinearCombination -> cs -> Prop -> Prop),
  (index + length bits <= 256)%nat -> Forall (lc_scoped s) (vars res) -> lc_scoped s rec ->
  (forall new rec' s' (K : Prop), K -> extends s s' ->
    Forall (lc_scoped s') (vars (res ++ new)) ->
    lc_scoped s' rec' -> value s' <$> vars new = bits ->
    value s' rec' = value s' rec + scalar (2 ^ Z.of_nat index) * bits_value bits ->
    Q (res ++ new, rec') s' K) ->
  wp (to_bits_loop index bits res rec) s Q.
Proof.
  induction bits as [|bit bits IH]; intros index res rec s Q Hidx Hres Hrec HQ;
    cbn [to_bits_loop].
  - apply wp_ret. specialize (HQ [] rec). rewrite app_nil_r in HQ.
    apply HQ; try done. change (bits_value []) with (scalar 0). ring.
  - apply wp_bind, wp_allocate. intros v s1 E1 Hv Vv _. advance E1.
    cbn in Hidx. apply IH; [lia| |scoped|].
    { unfold vars. rewrite fmap_app. apply Forall_app. by repeat constructor. }
    intros new rec' s' K HK E2 Hnew Hrec' Vnew Vrec. advance E2.
    specialize (HQ (v :: new)). rewrite <- app_assoc in *. apply HQ; try done.
    + extended.
    + cbn. by rewrite Vv, <- Vnew.
    + rewrite Vrec. value_simpl. rewrite Vv, bigint_to_scalar_small.
      * rewrite Z.shiftl_1_l, Nat2Z.inj_succ, Z.pow_succ_r, Zmod.of_Z_mul by lia.
        unfold bits_value at 2. cbn [foldr]. fold (bits_value bits). ring.
      * rewrite Z.shiftl_1_l, Z.abs_eq by lia. apply Z.pow_lt_mono_r; lia.
Qed.

(** Bits below the length of a scalar recompose to it exactly when it fits. *)
Lemma fits_iff (x : Scalar) (D : nat) :
  scalar (Zmod.to_Z x mod 2 ^ Z.of_nat D) = x <-> (Zmod.to_Z x < 2 ^ Z.of_nat D)%Z.
Proof.
  pose proof (scalar_range x). pose proof (Z.pow_pos_nonneg 2 (Z.of_nat D)).
  pose proof (Z.mod_pos_bound (Zmod.to_Z x) (2 ^ Z.of_nat D)).
  pose proof (Z.mod_le (Zmod.to_Z x) (2 ^ Z.of_nat D)).
  rewrite scalar_eq_iff, to_Z_small by lia. split; [lia|].
  intros. apply Z.mod_small. lia.
Qed.

Lemma wp_to_bits D a s (Q : list R1CSVar -> cs -> Prop -> Prop) :
  (D <= 256)%nat -> lc_scoped s a ->
  (forall bits s' (K : Prop), extends s s' -> Forall (lc_scoped s') (vars bits) ->
    value s' <$> vars bits = take D (scalar_to_bits_le (value s' a)) ->
    (K <-> Zmod.to_Z (value s' a) < 2 ^ Z.of_nat D)%Z -> Q bits s' K) ->
  wp (to_bits D a) s Q.
Proof.
  intros HD Ha HQ. unfold to_bits. apply wp_bind, wp_eval.
  apply wp_bind, wp_assert; [by apply Nat.leb_le|].
  apply wp_bind, wp_to_bits_loop; [|done|scoped|].
  { rewrite length_take, length_scalar_to_bits_le. lia. }
  intros new rec s1 K1 HK1 E1 Hnew Hrec Vnew Vrec.
  cbn [app] in Hnew. rewrite value_default in Vrec. advance E1.
  apply wp_bind, wp_constrain; [scoped|]. intros s2 E2. value_simpl. advance E2.
  cbn. apply wp_ret, HQ; [extended|done|done|].
  rewrite scalar_bits_recompose in Vrec by done.
  rewrite Vrec, <- (fits_iff _ D), scalar_sub_zero, Zmod.add_0_l.
  change (scalar (2 ^ Z.of_nat 0)) with (Zmod.one : Scalar).
  rewrite Zmod.mul_1_l. tauto.
Qed.
End bits_honest.

(** * Range checks *)

(** The difference of two [D]-bit integers is a [D]-bit scalar exactly when it
    is not negative; [D] is at most 251, so the negative ones wrap above. *)
Lemma difference_fits (x y : Scalar) (D : nat) :
  (D <= POSITIVE_SCALAR_MAX_BITS)%nat ->
  (Zmod.to_Z x < 2 ^ Z.of_nat D)%Z -> (Zmod.to_Z y < 2 ^ Z.of_nat D)%Z ->
  (Zmod.to_Z (x - y)%Zmod < 2 ^ Z.of_nat D <-> Zmod.to_Z y <= Zmod.to_Z x)%Z.
Proof.
  intros HD Hx Hy. pose proof (scalar_range x). pose proof (scalar_range y).
  assert (2 ^ Z.of_nat D <= 2 ^ 251)%Z
    by (apply Z.pow_le_mono_r; unfold POSITIVE_SCALAR_MAX_BITS in HD; lia).
  assert (2 ^ 251 + 2 ^ 251 < ristretto_order)%Z by done.
  rewrite Zmod.unsigned_sub. split.
  - intros Hlt. destruct (Z.le_gt_cases (Zmod.to_Z y) (Zmod.to_Z x)); [done|].
    rewrite <- (Z.mod_add _ 1) in Hlt by done. rewrite Z.mod_small in Hlt by lia. lia.
  - intros Hle. rewrite Z.mod_small by lia. lia.
Qed.

Section range_honest.
  Context {C : ConstraintSystem} {L : ConstraintSystemLaws C} {P : ProverLaws C}.

Lemma wp_bit_decompose_reconstruct D x s (Q : LinearCombination -> cs -> Prop -> Prop) :
  (D <= POSITIVE_SCALAR_MAX_BITS)%nat -> lc_scoped s x ->
  (forall out s' (K : Prop), K -> extends s s' -> lc_scoped s' out ->
    value s' out = scalar (Zmod.to_Z (value s' x) mod 2 ^ Z.of_nat D) -> Q out s' K) ->
  wp (bit_decompose_reconstruct D x) s Q.
Proof.
  intros HD Hx HQ. unfold bit_decompose_reconstruct.
  apply wp_bind, wp_assert; [by apply Nat.leb_le|].
  apply wp_bind, wp_eval. apply wp_bind, wp_allocate_list.
  intros vs s1 K HK E Hvs Vvs. advance E.
  apply wp_ret, HQ; [done|done|by apply scoped_horner|].
  rewrite value_horner, Vvs. apply scalar_bits_recompose.
  unfold POSITIVE_SCALAR_MAX_BITS in HD. lia.
Qed.

Lemma wp_greater_than_zero D x s (Q : R1CSVar -> cs -> Prop -> Prop) :
  (D <= POSITIVE_SCALAR_MAX_BITS)%nat -> lc_scoped s x ->
  (forall out s' (K : Prop), K -> extends s s' -> lc_scoped s' (lc_var out) ->
    value s' out = bit_scalar (bool_decide (Zmod.to_Z (value s' x) < 2 ^ Z.of_nat D)%Z) ->
    Q out s' K) ->
  wp (greater_than_zero D x) s Q.
Proof.
  intros HD Hx HQ. apply wp_bind, wp_bit_decompose_reconstruct; [done..|].
  intros r s1 K1 HK1 E1 Hr Vr. advance E1.
  apply wp_eq_zero; [scoped|]. intros out s2 K2 HK2 E2 Ho Vo. advance E2.
  apply HQ; [done|extended|done|]. rewrite Vo. f_equal.
  apply bool_decide_ext. rewrite value_sub, scalar_sub_zero, Vr. apply fits_iff.
Qed.

Lemma wp_constrain_greater_than_zero D x s (Q : unit -> cs -> Prop -> Prop) :
  (D <= POSITIVE_SCALAR_MAX_BITS)%nat -> lc_scoped s x ->
  (forall s' (K : Prop), extends s s' ->
    (K <-> Zmod.to_Z (value s' x) < 2 ^ Z.of_nat D)%Z -> Q tt s' K) ->
  wp (constrain_greater_than_zero D x) s Q.
Proof.
  intros HD Hx HQ. apply wp_bind, wp_bit_decompose_reconstruct; [done..|].
  intros r s1 K1 HK1 E1 Hr Vr. advance E1.
  apply wp_constrain; [scoped|]. intros s2 E2. value_simpl. advance E2.
  apply HQ; [extended|].
  rewrite scalar_sub_zero, Vr, fits_iff. tauto.
Qed.

Lemma wp_greater_than_eq D a b s (Q : R1CSVar -> cs -> Prop -> Prop) :
  (D <= POSITIVE_SCALAR_MAX_BITS)%nat -> lc_scoped s a -> lc_scoped s b ->
  (Zmod.to_Z (value s a) < 2 ^ Z.of_nat D)%Z -> (Zmod.to_Z (value s b) < 2 ^ Z.of_nat D)%Z ->
  (forall out s' (K : Prop), K -> extends s s' -> lc_scoped s' (lc_var out) ->
    value s' out =
      bit_scalar (bool_decide (Zmod.to_Z (value s' b) <= Zmod.to_Z (value s' a))%Z) ->
    Q out s' K) ->
  wp (greater_than_eq D a b) s Q.
Proof.
  intros HD Ha Hb Ra Rb HQ. apply wp_greater_than_zero; [done|scoped|].
  intros out s' K HK E Ho V. advance E. apply HQ; [done..|]. rewrite V. f_equal.
  apply bool_decide_ext. rewrite value_sub. by apply difference_fits.
Qed.

Lemma wp_less_than D a b s (Q : LinearCombination -> cs -> Prop -> Prop) :
  (D <= POSITIVE_SCALAR_MAX_BITS)%nat -> lc_scoped s a -> lc_scoped s b ->
  (Zmod.to_Z (value s a) < 2 ^ Z.of_nat D)%Z -> (Zmod.to_Z (value s b) < 2 ^ Z.of_nat D)%Z ->
  (forall out s' (K : Prop), K -> extends s s' -> lc_scoped s' out ->
    value s' out =
      bit_scalar (bool_decide (Zmod.to_Z (value s' a) < Zmod.to_Z (value s' b))%Z) ->
    Q out s' K) ->
  wp (less_than D a b) s Q.
Proof.
  intros HD Ha Hb Ra Rb HQ. apply wp_bind, wp_greater_than_eq; [done..|].
  intros v s' K HK E Hv V. apply wp_ret, HQ; [done|done|scoped|].
  value_simpl. rewrite V. do 2 case_bool_decide; cbn; try lia; ring.
Qed.
End range_honest.

(** ** What the range checks do not constrain *)

Section range_forge.
  Context {C : ConstraintSystem} {L : ConstraintSystemLaws C}.

(** The prover chooses the values of all the variables that it allocates. *)
Lemma forge_allocate_list (ys bits : list Scalar) :
  length ys = length bits -> forall s w (Q : list R1CSVar -> cs -> assignment -> Prop),
  (forall vs s' w', keeps s s' w w' -> Forall (lc_scoped s') (lc_var <$> vs) ->
    w' <$> vs = ys -> Q vs s' w') ->
  forge (mapM (fun bit => c_unwrap (allocate (Some bit))) bits) s w Q.
Proof.
  revert ys; induction bits as [|b bits IH]; intros [|y ys] Hlen s w Q HQ; try done;
    cbn [mapM].
  - apply forge_ret, HQ; [apply keeps_refl|by constructor|done].
  - apply forge_bind, forge_unwrap, (forge_allocate y). intros v s1 w1 Hk1 Hv Vv.
    apply forge_bind, (IH ys); [by injection Hlen|].
    intros vs s2 w2 Hk2 Hvs Vvs. keep Hk2.
    apply forge_ret, HQ; [by eapply keeps_trans|by constructor|].
    cbn. rewrite <- Vvs. f_equal. by rewrite <- Vv, lc_eval_var.
Qed.

(** The reconstruction of the "bits" can be made any scalar: nothing requires
    them to be bits. *)
Lemma forge_bit_decompose_reconstruct (y : Scalar) D x s w
    (Q : LinearCombination -> cs -> assignment -> Prop) :
  (0 < D <= POSITIVE_SCALAR_MAX_BITS)%nat ->
  (forall out s' w', keeps s s' w w' -> lc_scoped s' out -> lc_eval w' out = y ->
    Q out s' w') ->
  forge (bit_decompose_reconstruct D x) s w Q.
Proof.
  intros [HD HD2] HQ. unfold bit_decompose_reconstruct.
  apply forge_bind, forge_assert; [by apply Nat.leb_le|].
  unfold POSITIVE_SCALAR_MAX_BITS in HD2.
  apply forge_bind, forge_eval. intros z.
  apply forge_bind, (forge_allocate_list (y :: replicate (D - 1) 0)).
  { cbn [length]. rewrite length_replicate, length_take, length_scalar_to_bits_le. lia. }
  intros vs s' w' Hk Hvs Vvs. apply forge_ret, HQ; [done|by apply scoped_horner|].
  rewrite lc_eval_horner, Vvs. unfold bits_value; cbn [foldr].
  fold (bits_value (replicate (D - 1) 0)). rewrite bits_value_zeros. ring.
Qed.

(** Any assignment at all extends to one that satisfies the range check. *)
Lemma constrain_greater_than_zero_forge D x s w :
  (0 < D <= POSITIVE_SCALAR_MAX_BITS)%nat -> lc_scoped s x ->
  forge (constrain_greater_than_zero D x) s w (fun _ _ _ => True).
Proof.
  intros HD Hx. apply forge_bind, (forge_bit_decompose_reconstruct (lc_eval w x)); [done|].
  intros out s1 w1 Hk Hout Vout. keep Hk.
  apply forge_constrain; [scoped| |done].
  rewrite lc_eval_sub, Vout. intros _. apply Zmod.sub_same.
Qed.

Lemma forge_eq_zero a s w (Q : R1CSVar -> cs -> assignment -> Prop) :
  lc_scoped s a ->
  (forall out s' w', keeps s s' w w' -> lc_scoped s' (lc_var out) ->
    lc_eval w' out = bit_scalar (bool_decide (lc_eval w' a = 0)) -> Q out s' w') ->
  forge (eq_zero a) s w Q.
Proof.
  intros Ha HQ. remember (lc_eval w a) as x eqn:Hx.
  set (z := bit_scalar (bool_decide (x = 0))) in *.
  set (i := if bool_decide (x = 0) then 0 else Zmod.inv x).
  destruct (eq_zero_witness x) as [Hzi Hxz]. fold z i in Hzi, Hxz.
  unfold eq_zero. apply forge_bind, forge_eval. intros e.
  destruct (if bool_decide (e = 0) then _ else _) as [ez ei].
  apply forge_bind, forge_unwrap, (forge_allocate z). intros vz s1 w1 Hk1 Hvz Vz. keep Hk1.
  apply forge_bind, forge_unwrap, (forge_allocate i). intros vi s2 w2 Hk2 Hvi Vi. keep Hk2.
  apply forge_bind, forge_multiply; [done..|]. intros l3 r3 o3 s3 w3 Hk3 _ _ Ho3 V3. keep Hk3.
  apply forge_bind, forge_constrain; [scoped| |].
  { intros Hv. rewrite <- Hzi. lc_simpl. rewrite !lc_eval_var in *. rewrite V3, Vz, Vi, Hx. ring. }
  intros s4 Hk4. keep Hk4.
  apply forge_bind, forge_multiply; [done..|]. intros l5 r5 o5 s5 w5 Hk5 _ _ Ho5 V5. keep Hk5.
  apply forge_bind, forge_constrain; [scoped| |].
  { intros Hv. rewrite V5, <- Hx, Vz. done. }
  intros s6 Hk6. keep Hk6. apply forge_ret, HQ; [|done|].
  - repeat (eapply keeps_trans; [eassumption|]). apply keeps_refl.
  - rewrite Vz, <- Hx. done.
Qed.

(** Both answers of the comparator can be proved of any operands. *)
Lemma forge_greater_than_eq (answer : bool) D a b s w
    (Q : R1CSVar -> cs -> assignment -> Prop) :
  (0 < D <= POSITIVE_SCALAR_MAX_BITS)%nat -> lc_scoped s a -> lc_scoped s b ->
  (forall out s' w', keeps s s' w w' -> lc_scoped s' (lc_var out) ->
    lc_eval w' out = bit_scalar answer -> Q out s' w') ->
  forge (greater_than_eq D a b) s w Q.
Proof.
  intros HD Ha Hb HQ. set (x := lc_eval w (a - b)%lc).
  apply forge_bind, (forge_bit_decompose_reconstruct (if answer then x else x + 1)); [done|].
  intros r s1 w1 Hk Hr Vr. apply forge_eq_zero.
  { keep Hk. scoped. }
  intros out s2 w2 Hk2 Hout Vout. apply HQ; [by eapply keeps_trans|done|].
  rewrite Vout. f_equal.
  assert (lc_eval w2 r = (if answer then x else x + 1)) as Er by (by keep Hk2).
  assert (lc_eval w2 (a - b)%lc = x) as Ex.
  { unfold x. apply (keeps_eval s s2); [by eapply keeps_trans|scoped]. }
  rewrite lc_eval_sub, Er, Ex. destruct answer.
  - apply bool_decide_eq_true. apply Zmod.sub_same.
  - apply bool_decide_eq_false. replace (x + 1 - x) with (1 : Scalar) by ring.
    apply scalar_one_neq_zero.
Qed.
End range_forge.

(** * Properties *)

Section properties.
  Context {C : ConstraintSystem} {L : ConstraintSystemLaws C} {P : ProverLaws C}.

(** The zero test is correct on both sides.  Every assignment that satisfies
    its constraints gives the output the value 1 if the input is zero and 0
    otherwise, and an honest prover always obtains such an assignment. *)
Theorem eq_zero_correct a :
  sound (eq_zero a) (fun w out => w out = bit_scalar (bool_decide (lc_eval w a = 0))) /\
  forall s, lc_scoped s a -> wp (eq_zero a) s (fun out s' K =>
    K /\ value s' out = bit_scalar (bool_decide (value s' a = 0))).
Proof.
  split; [apply eq_zero_sound|]. intros s Ha. apply wp_eq_zero; [done|]. auto.
Qed.

(** The vector comparison returns 1 exactly when the two vectors are equal,
    in every satisfying assignment, for vectors shorter than the field. *)
Theorem eq_vec_correct a b :
  (Z.of_nat (length a) < ristretto_order)%Z ->
  sound (eq_vec a b) (fun w out =>
    w out = bit_scalar (bool_decide (lc_eval w <$> a = lc_eval w <$> b))).
Proof. apply eq_vec_sound. Qed.

(** The bit decomposition of an honest prover consists of the binary digits
    of the canonical representative, and its proof verifies exactly when the
    value has at most [D] bits. *)
Theorem to_bits_correct D a s :
  (D <= 256)%nat -> lc_scoped s a ->
  wp (to_bits D a) s (fun bits s' K =>
    (K <-> Zmod.to_Z (value s' a) < 2 ^ Z.of_nat D)%Z /\
    value s' <$> vars bits =
      (fun i : nat => bit_scalar (Z.testbit (Zmod.to_Z (value s' a)) (Z.of_nat i)))
        <$> seq 0 D).
Proof.
  intros HD Ha. apply wp_to_bits; [done..|]. intros bits s' K _ _ Hb HK. split; [done|].
  by rewrite Hb, scalar_to_bits_le_spec, <- fmap_take, take_seq, Nat.min_l by done.
Qed.

(** An honest prover passes the range check exactly on the values with at
    most [D] bits. *)
Theorem range_check_honest D x s :
  (D <= POSITIVE_SCALAR_MAX_BITS)%nat -> lc_scoped s x ->
  wp (constrain_greater_than_zero D x) s (fun _ s' K =>
    K <-> Zmod.to_Z (value s' x) < 2 ^ Z.of_nat D)%Z.
Proof. intros HD Hx. apply wp_constrain_greater_than_zero; auto. Qed.

(** C34: The range check does not bind a dishonest prover.  The allocated bits are
    not constrained to be binary, so whatever the value of [x], a satisfying
    assignment of the system before the check extends to one after it. *)
Theorem range_check_forgeable D x s w :
  (0 < D <= POSITIVE_SCALAR_MAX_BITS)%nat -> lc_scoped s x ->
  forge (constrain_greater_than_zero D x) s w (fun _ _ _ => True).
Proof. apply constrain_greater_than_zero_forge. Qed.

(** On operands of at most [D] bits an honest run of the comparison [a >= b]
    verifies and returns the order of the canonical representatives. *)
Theorem greater_than_eq_honest D a b s :
  (D <= POSITIVE_SCALAR_MAX_BITS)%nat -> lc_scoped s a -> lc_scoped s b ->
  (Zmod.to_Z (value s a) < 2 ^ Z.of_nat D)%Z -> (Zmod.to_Z (value s b) < 2 ^ Z.of_nat D)%Z ->
  wp (greater_than_eq D a b) s (fun out s' K => K /\
    value s' out =
      bit_scalar (bool_decide (Zmod.to_Z (value s' b) <= Zmod.to_Z (value s' a))%Z)).
Proof. intros. apply wp_greater_than_eq; auto. Qed.

(** A dishonest prover can make the comparison [a >= b] return either answer
    for any operands. *)
Theorem greater_than_eq_forgeable (answer : bool) D a b s w :
  (0 < D <= POSITIVE_SCALAR_MAX_BITS)%nat -> lc_scoped s a -> lc_scoped s b ->
  forge (greater_than_eq D a b) s w (fun out _ w' => w' out = bit_scalar answer).
Proof.
  intros. apply (forge_greater_than_eq answer); [done..|].
  intros out s' w' _ _ Hout. by rewrite lc_eval_var in Hout.
Qed.
End properties.

(** ** Witnesses, in the concrete system *)

Lemma eq_zero_correct_witness :
  cs_wf (with_values [scalar 5]) /\
  wp (eq_zero (input 0)) (with_values [scalar 5]) (fun out s' K =>
    K /\ value s' out = bit_scalar (bool_decide (value s' (input 0) = 0))).
Proof. split; [scoped|]. apply (eq_zero_correct (input 0)). scoped. Defined.

Lemma eq_vec_correct_witness :
  sound (eq_vec [input 0; input 1] [input 1; input 0]) (fun w out =>
    w out = bit_scalar (bool_decide
      (lc_eval w <$> [input 0; input 1] = lc_eval w <$> [input 1; input 0]))).
Proof. apply (eq_vec_correct [input 0; input 1] [input 1; input 0]). done. Defined.

Lemma to_bits_correct_witness :
  cs_wf (with_values [scalar 5]) /\
  wp (to_bits 8 (input 0)) (with_values [scalar 5]) (fun bits s' K =>
    (K <-> Zmod.to_Z (value s' (input 0)) < 2 ^ Z.of_nat 8)%Z /\
    value s' <$> vars bits =
      (fun i : nat => bit_scalar (Z.testbit (Zmod.to_Z (value s' (input 0))) (Z.of_nat i)))
        <$> seq 0 8).
Proof. split; [scoped|]. apply (to_bits_correct 8 (input 0)); [lia|scoped]. Defined.

Lemma range_check_honest_witness :
  cs_wf (with_values [scalar 5]) /\
  wp (constrain_greater_than_zero 64 (input 0)) (with_values [scalar 5]) (fun _ s' K =>
    K <-> Zmod.to_Z (value s' (input 0)) < 2 ^ Z.of_nat 64)%Z.
Proof.
  split; [scoped|]. apply (range_check_honest 64 (input 0)); [by apply Nat.leb_le|scoped].
Defined.

(** The value [-1] passes the check for eight bits. *)
Lemma range_check_forgeable_witness :
  let s := with_values [Zmod.opp Zmod.one] in
  cs_wf s /\ sat s (wire_value s) /\
  forge (constrain_greater_than_zero 8 (input 0)) s (wire_value s) (fun _ _ _ => True).
Proof.
  split_and!; [scoped..|]. apply (range_check_forgeable 8 (input 0)); [split; by apply Nat.leb_le|scoped].
Defined.

Lemma greater_than_eq_honest_witness :
  let s := with_values [scalar 5; scalar 3] in
  cs_wf s /\
  wp (greater_than_eq 64 (input 0) (input 1)) s (fun out s' K => K /\
    value s' out = bit_scalar (bool_decide
      (Zmod.to_Z (value s' (input 1)) <= Zmod.to_Z (value s' (input 0)))%Z)).
Proof.
  split; [scoped|].
  apply (greater_than_eq_honest 64 (input 0) (input 1));
    [by apply Nat.leb_le|scoped|scoped|by vm_compute..].
Defined.

(** The comparison of 3 with 5 can be made to answer [3 >= 5]. *)
Lemma greater_than_eq_forgeable_witness :
  let s := with_values [scalar 3; scalar 5] in
  cs_wf s /\ sat s (wire_value s) /\
  forge (greater_than_eq 8 (input 0) (input 1)) s (wire_value s)
    (fun out _ w' => w' out = bit_scalar true).
Proof.
  split_and!; [scoped..|].
  apply (greater_than_eq_forgeable true 8 (input 0) (input 1)); [split; by apply Nat.leb_le|scoped|scoped].
Defined.
