(* ===== verification/NonNative.v ===== *)
(** Arithmetic in a field that is not the native one, on words of 126 bits:
    circuits/src/zk_gadgets/nonnative.rs.

    A big unsigned integer is a non-negative [Z]; a division by zero and a difference
    below zero panic.  The honest prover computes in the field; a dishonest one can
    choose the result of every reduction, because the words are not range checked. *)

From Stdlib Require Import Zmod.
From S2P Require Import Prelude Primality Field ConstraintSystem Gates.

#[local] Open Scope Z_scope.
#[local] Open Scope circuit_scope.

(** * Words *)

Definition WORD_SIZE : Z := 126.
Definition BIGINT_2_TO_WORD_SIZE : Z := Z.shiftl 1 126.
Definition BIGINT_WORD_MASK : Z := BIGINT_2_TO_WORD_SIZE - 1.

(** [BigUint::bits] *)
Definition big_bits (val : Z) : Z := if val =? 0 then 0 else Z.log2 val + 1.

Definition repr_word_width (val : Z) : nat :=
  if big_bits val mod WORD_SIZE =? 0 then Z.to_nat (big_bits val / WORD_SIZE)
  else (Z.to_nat (big_bits val / WORD_SIZE) + 1)%nat.

(** The loop of [bigint_to_scalar_words]; every turn consumes at least a bit. *)
Fixpoint scalar_words (fuel : nat) (val : Z) : list Scalar :=
  match fuel with
  | O => []
  | S fuel' =>
      if 0 <? val
      then biguint_to_scalar (Z.land val BIGINT_WORD_MASK) :: scalar_words fuel' (Z.shiftr val WORD_SIZE)
      else []
  end.

Definition bigint_to_scalar_words (val : Z) : list Scalar :=
  scalar_words (Z.to_nat (big_bits val)) val.

(** [FieldMod] *)
Record FieldMod := { modulus : Z; is_prime : bool }.

#[export] Instance FieldMod_eq_dec : EqDecision FieldMod.
Proof. solve_decision. Defined.

(** [FieldMod::from_modulus], with the primality test of its library *)
Definition from_modulus (miller_rabin : Z -> nat -> bool) (m : Z) : FieldMod :=
  {| modulus := m; is_prime := miller_rabin m 10%nat |}.

(** [BigUint::modpow] *)
Definition modpow (base exponent m : Z) : Z := Zmod.to_Z (Zmod.pow (Zmod.of_Z m base) exponent).

Section nonnative.
  Context {C : ConstraintSystem}.

(** Division and remainder panic on a zero divisor, subtraction below zero. *)
Definition divisor (m : Z) : circuit unit := c_assert (negb (m =? 0)).

Definition mod_inv_prime (val modulo : Z) : circuit Z :=
  c_assert (2 <=? modulo) ;;
  c_ret (modpow val (modulo - 2) modulo).

Definition div_rem_word (val : LinearCombination) (m : Z) : circuit (R1CSVar * R1CSVar) :=
  let! v := eval val in
  let val_bigint := scalar_to_biguint v in
  c_assert (big_bits val_bigint <=? 2 * WORD_SIZE) ;;
  divisor m ;;
  let! div_var := c_unwrap (allocate (Some (biguint_to_scalar (val_bigint / m)))) in
  let! rem_var := c_unwrap (allocate (Some (biguint_to_scalar (val_bigint mod m)))) in
  constrain (val - (biguint_to_scalar m *! div_var + rem_var))%lc ;;
  c_ret (div_var, rem_var).

(** The loops of the additions: words are added with carry. *)
Definition add_words (ls rs : list LinearCombination) : circuit (list LinearCombination) :=
  let! (carry, new_words) :=
    foldM (fun '(carry, new_words) '(lhs_word, rhs_word) =>
        let! (q, r) := div_rem_word (lhs_word + rhs_word + lc_var carry)%lc BIGINT_2_TO_WORD_SIZE in
        c_ret (q, new_words ++ [lc_var r])) (VarZero, []) (zip ls rs) in
  c_ret (new_words ++ [lc_var carry]).

(** [buckets[i].push(x)] *)
Definition push_at (i : nat) (x : R1CSVar) (buckets : list (list R1CSVar))
    : circuit (list (list R1CSVar)) :=
  let! b := c_get (buckets !! i) in
  c_ret (<[i := b ++ [x]]> buckets).

(** The loops of the products: the product of two words goes to the bucket of its shift
    and its carry to the next one. *)
Definition mul_terms {B} (product : LinearCombination -> B -> circuit LinearCombination)
    (ls : list LinearCombination) (rs : list B) (terms carries : list (list R1CSVar))
    : circuit (list (list R1CSVar) * list (list R1CSVar)) :=
  foldM (fun acc '(lhs_index, lhs_word) =>
      foldM (fun '(terms, carries) '(rhs_index, rhs_word) =>
          let! term_direct_product := product lhs_word rhs_word in
          let! (term_carry, term) := div_rem_word term_direct_product BIGINT_2_TO_WORD_SIZE in
          let! terms := push_at (lhs_index + rhs_index) term terms in
          let! carries := push_at (lhs_index + rhs_index + 1) term_carry carries in
          c_ret (terms, carries)) acc (imap pair rs)) (terms, carries) (imap pair ls).

(** Each bucket is summed with the carry of the one before. *)
Definition reduce_buckets (n : nat) (terms carries : list (list R1CSVar))
    : circuit (R1CSVar * list LinearCombination) :=
  foldM (fun '(carry, res_words) word_index =>
      let! t := c_get (terms !! word_index) in
      let! c := c_get (carries !! word_index) in
      let summed_word := foldl (fun acc v => (acc + lc_var v)%lc) (lc_var carry) (t ++ c) in
      let! (q, r) := div_rem_word summed_word BIGINT_2_TO_WORD_SIZE in
      c_ret (q, res_words ++ [lc_var r])) (VarZero, []) (seq 0 n).
End nonnative.

(** * Elements *)

Module NonNativeElementVar.
Section elements.
  Context {C : ConstraintSystem}.

Record NonNativeElementVar := { words : list LinearCombination; field_mod : FieldMod }.

(** [new] *)
Definition new (ws : list LinearCombination) (fm : FieldMod) : NonNativeElementVar :=
  let field_words := repr_word_width (modulus fm) in
  {| words := if (length ws <? field_words)%nat
              then ws ++ replicate (field_words - length ws) (lc_var VarZero) else ws;
     field_mod := fm |}.

(** The loop that splits a value into [n] words, each put into the system by [alloc]. *)
Fixpoint split_words (alloc : Scalar -> circuit R1CSVar) (n : nat) (value : Z)
    : circuit (list LinearCombination) :=
  match n with
  | O => c_ret []
  | S n' =>
      let! word_var := alloc (biguint_to_scalar (Z.land value BIGINT_WORD_MASK)) in
      let! ws := split_words alloc n' (Z.shiftr value WORD_SIZE) in
      c_ret (lc_var word_var :: ws)
  end.

(** [from_bigint] *)
Definition from_bigint (value : Z) (fm : FieldMod) : circuit NonNativeElementVar :=
  divisor (modulus fm) ;;
  let! ws := split_words (fun x => c_unwrap (allocate (Some x))) (repr_word_width (modulus fm))
               (value mod modulus fm) in
  c_ret {| words := ws; field_mod := fm |}.

(** [from_bigint_unreduced] *)
Definition from_bigint_unreduced (value : Z) (word_width : nat) (fm : FieldMod)
    : circuit NonNativeElementVar :=
  c_assert (repr_word_width value <=? word_width)%nat ;;
  let ws := bigint_to_scalar_words value in
  let ws := ws ++ replicate (word_width - length ws) Zmod.zero in
  let! allocated_words := mapM (fun word => c_unwrap (allocate (Some word))) ws in
  c_ret {| words := lc_var <$> allocated_words; field_mod := fm |}.

(** [commit_witness], [commit_public] *)
Definition commit_witness (val : Z) (fm : FieldMod) : circuit NonNativeElementVar :=
  let! ws := split_words commit (repr_word_width (modulus fm)) val in
  c_ret {| words := ws; field_mod := fm |}.

Definition commit_public (val : Z) (fm : FieldMod) : circuit NonNativeElementVar :=
  let! ws := split_words commit_public (repr_word_width (modulus fm)) val in
  c_ret {| words := ws; field_mod := fm |}.

(** [word_iterator().take(n)] *)
Definition word_iterator (self : NonNativeElementVar) (n : nat) : list LinearCombination :=
  take n (words self ++ replicate n (lc_var VarZero)).

(** [as_bigint] *)
Definition as_bigint (self : NonNativeElementVar) : circuit Z :=
  foldM (fun res word =>
      let! x := eval word in
      c_ret (Z.shiftl res WORD_SIZE + scalar_to_biguint x)) 0 (rev (words self)).

(** The loop of [to_bits] that puts the words together again from the scalars [bits] *)
Definition bits_to_words (bits : list Scalar) : list LinearCombination :=
  let '(ws, curr_word) :=
    foldl (fun '(ws, curr_word) '(index, bit) =>
        let bit_index := (index mod 126)%nat in
        let '(ws, curr_word) :=
          if ((0 <? index) && (bit_index =? 0))%nat
          then (ws ++ [curr_word], lc_var VarZero) else (ws, curr_word) in
        let shift_scalar := biguint_to_scalar (Z.shiftl 1 (Z.of_nat bit_index)) in
        (ws, curr_word + lc_scalar (Zmod.mul shift_scalar bit))%lc)
      ([], lc_var VarZero) (imap pair bits) in
  ws ++ [curr_word].

(** [to_bits::<D>] *)
Definition to_bits (D : nat) (self : NonNativeElementVar) : circuit (list R1CSVar) :=
  let! self_bigint := as_bigint self in
  let bits := bigint_to_scalar_bits D self_bigint in
  let! allocated_bits := mapM (fun bit => c_unwrap (allocate (Some bit))) bits in
  let n := repr_word_width (Z.shiftl 1 (Z.of_nat D)) in
  let reconstructed := take n (bits_to_words bits ++ replicate n (lc_var VarZero)) in
  mapM (fun '(reconstructed_word, self_word) => constrain (reconstructed_word - self_word)%lc)
    (zip reconstructed (word_iterator self n)) ;;
  c_ret allocated_bits.

(** [cond_select] *)
Definition cond_select (selector : LinearCombination) (lhs rhs : NonNativeElementVar)
    : circuit NonNativeElementVar :=
  let max_len := (length (words lhs) `max` length (words rhs))%nat in
  let! selected_words :=
    select_vector (word_iterator lhs max_len) (word_iterator rhs max_len) selector in
  c_ret (new selected_words (field_mod lhs)).

(** [constrain_equal] *)
Definition constrain_equal (lhs rhs : NonNativeElementVar) : circuit unit :=
  let max_len := (length (words lhs) `max` length (words rhs))%nat in
  mapM (fun '(lhs_word, rhs_word) => constrain (lhs_word - rhs_word)%lc)
    (zip (word_iterator lhs max_len) (word_iterator rhs max_len)) ;;
  c_ret tt.

(** [constrain_equal_biguint], [constrain_zero] *)
Definition constrain_equal_biguint (lhs : NonNativeElementVar) (rhs : Z) : circuit unit :=
  let biguint_words := bigint_to_scalar_words rhs in
  let max_len := (length biguint_words `max` length (words lhs))%nat in
  let rhs_words := take max_len (biguint_words ++ replicate max_len Zmod.zero) in
  mapM (fun '(lhs_word, rhs_word) => constrain (lhs_word - lc_scalar rhs_word)%lc)
    (zip (word_iterator lhs max_len) rhs_words) ;;
  c_ret tt.

Definition constrain_zero (val : NonNativeElementVar) : circuit unit := constrain_equal_biguint val 0.

(** [add_unreduced] *)
Definition add_unreduced (lhs rhs : NonNativeElementVar) : circuit NonNativeElementVar :=
  c_assert (bool_decide (field_mod lhs = field_mod rhs)) ;;
  let max_word_width := (length (words lhs) `max` length (words rhs))%nat in
  let! new_words := add_words (word_iterator lhs max_word_width) (word_iterator rhs max_word_width) in
  c_ret {| words := new_words; field_mod := field_mod lhs |}.

(** [add_bigint_unreduced] *)
Definition add_bigint_unreduced (lhs : NonNativeElementVar) (rhs : Z) : circuit NonNativeElementVar :=
  let rhs_words := bigint_to_scalar_words rhs in
  let max_len := (length rhs_words `max` length (words lhs))%nat in
  let! new_words := add_words (word_iterator lhs max_len)
    (lc_scalar <$> take max_len (rhs_words ++ replicate max_len Zmod.zero)) in
  c_ret {| words := new_words; field_mod := field_mod lhs |}.

(** [mul_unreduced] *)
Definition mul_unreduced (lhs rhs : NonNativeElementVar) : circuit NonNativeElementVar :=
  c_assert (bool_decide (field_mod lhs = field_mod rhs)) ;;
  let n_result_words := (length (words lhs) + length (words rhs))%nat in
  let! (terms, carries) :=
    mul_terms (fun l r => let! (_, _, o) := multiply l r in c_ret (lc_var o))
      (words lhs) (words rhs) (replicate n_result_words []) (replicate (n_result_words + 1) []) in
  let! (carry, res_words) := reduce_buckets n_result_words terms carries in
  c_ret {| words := res_words ++ [lc_var carry]; field_mod := field_mod lhs |}.

(** [mul_bigint_unreduced] *)
Definition mul_bigint_unreduced (lhs : NonNativeElementVar) (rhs : Z) : circuit NonNativeElementVar :=
  let rhs_words := bigint_to_scalar_words rhs in
  let n_result_words := (length rhs_words + length (words lhs))%nat in
  let! (terms, carries) :=
    mul_terms (fun l r => c_ret (r *! l)%lc)
      (words lhs) rhs_words (replicate n_result_words []) (replicate n_result_words []) in
  let! (_, res_words) := reduce_buckets n_result_words terms carries in
  c_ret {| words := res_words; field_mod := field_mod lhs |}.

(** [reduce], which returns the element that it leaves in [self] *)
Definition reduce (self : NonNativeElementVar) : circuit NonNativeElementVar :=
  let m := modulus (field_mod self) in
  let! self_bigint := as_bigint self in
  divisor m ;;
  let div_bigint := self_bigint / m in
  let mod_bigint := self_bigint mod m in
  let field_modulus_word_width := repr_word_width m in
  c_assert (field_modulus_word_width <=? length (words self) + 1)%nat ;;
  let div_word_width := (length (words self) + 1 - field_modulus_word_width)%nat in
  let! div_nonnative := from_bigint_unreduced div_bigint div_word_width (field_mod self) in
  let! mod_nonnative := from_bigint mod_bigint (field_mod self) in
  let! div_mod_mul := mul_bigint_unreduced div_nonnative m in
  let! reconstructed := add_unreduced div_mod_mul mod_nonnative in
  constrain_equal self reconstructed ;;
  c_ret {| words := words mod_nonnative; field_mod := field_mod self |}.

(** [add], [add_bigint], [mul], [mul_bigint], [mul_var] *)
Definition add (lhs rhs : NonNativeElementVar) : circuit NonNativeElementVar :=
  let! new_elem := add_unreduced lhs rhs in reduce new_elem.

Definition add_bigint (lhs : NonNativeElementVar) (rhs : Z) : circuit NonNativeElementVar :=
  let! res := add_bigint_unreduced lhs rhs in reduce res.

Definition mul (lhs rhs : NonNativeElementVar) : circuit NonNativeElementVar :=
  let! res := mul_unreduced lhs rhs in reduce res.

Definition mul_bigint (lhs : NonNativeElementVar) (rhs : Z) : circuit NonNativeElementVar :=
  let! res := mul_bigint_unreduced lhs rhs in reduce res.

Definition mul_var (lhs : NonNativeElementVar) (rhs : R1CSVar) : circuit NonNativeElementVar :=
  mul lhs {| words := [lc_var rhs]; field_mod := field_mod lhs |}.

(** [additive_inverse], [subtract], [subtract_bigint] *)
Definition additive_inverse (val : NonNativeElementVar) : circuit NonNativeElementVar :=
  let m := modulus (field_mod val) in
  let! val_bigint := as_bigint val in
  divisor m ;;
  let! inv_nonnative := from_bigint (m - val_bigint mod m) (field_mod val) in
  let! val_plus_inv := add val inv_nonnative in
  constrain_equal_biguint val_plus_inv 0 ;;
  c_ret inv_nonnative.

Definition subtract (lhs rhs : NonNativeElementVar) : circuit NonNativeElementVar :=
  let! add_inv := additive_inverse rhs in add lhs add_inv.

Definition subtract_bigint (lhs : NonNativeElementVar) (rhs : Z) : circuit NonNativeElementVar :=
  let m := modulus (field_mod lhs) in
  divisor m ;;
  add_bigint lhs (m - rhs mod m).

(** [invert] *)
Definition invert (val : NonNativeElementVar) : circuit NonNativeElementVar :=
  c_assert (is_prime (field_mod val)) ;;
  let m := modulus (field_mod val) in
  let! val_bigint := as_bigint val in
  divisor m ;;
  let! inverse := mod_inv_prime (val_bigint mod m) m in
  let! inverse_nonnative := from_bigint inverse (field_mod val) in
  let! val_times_inverse := mul val inverse_nonnative in
  constrain_equal_biguint val_times_inverse 1 ;;
  c_ret inverse_nonnative.

(** [is_zero] *)
Definition is_zero (self : NonNativeElementVar) : circuit R1CSVar :=
  c_assert (is_prime (field_mod self)) ;;
  let! self_bigint := as_bigint self in
  let! (is_zero, self_inv) :=
    if self_bigint =? 0 then c_ret (VarOne, 0)
    else let! i := mod_inv_prime self_bigint (modulus (field_mod self)) in c_ret (VarZero, i) in
  let! inv_nonnative := from_bigint self_inv (field_mod self) in
  let! val_times_inv := mul self inv_nonnative in
  let! negated := additive_inverse val_times_inv in
  let! one_minus_val := add_bigint negated 1 in
  constrain_equal_biguint one_minus_val 0 ;;
  let! mul_res := mul_var self is_zero in
  constrain_zero mul_res ;;
  c_ret is_zero.
End elements.
End NonNativeElementVar.

(** * Facts about words *)

#[local] Abbreviation B := BIGINT_2_TO_WORD_SIZE (only parsing).

Lemma word_base : B = 2 ^ 126.
Proof. reflexivity. Qed.

Lemma word_base_big : 1 < B.
Proof. reflexivity. Qed.

#[export] Hint Resolve word_base_big : core.

Lemma word_div_mod v : v = B * (v / B) + v mod B.
Proof. by apply Z.div_mod. Qed.

Lemma word_land v : Z.land v BIGINT_WORD_MASK = v mod B.
Proof. change BIGINT_WORD_MASK with (Z.ones 126). by rewrite Z.land_ones by lia. Qed.

Lemma word_shiftr v : Z.shiftr v WORD_SIZE = v / B.
Proof. unfold WORD_SIZE. by rewrite Z.shiftr_div_pow2 by lia. Qed.

Lemma word_shiftl v : Z.shiftl v WORD_SIZE = v * B.
Proof. unfold WORD_SIZE. by rewrite Z.shiftl_mul_pow2 by lia. Qed.

Lemma word_scalar d : 0 <= d < B -> Zmod.to_Z (biguint_to_scalar d) = d.
Proof.
  intros Hd. rewrite word_base in Hd. rewrite biguint_to_scalar_small by lia. apply to_Z_small.
  split; [lia|]. eapply Z.lt_trans; [apply Hd|reflexivity].
Qed.

Lemma big_bits_le v n : 0 <= v -> 0 <= n -> big_bits v <= n <-> v < 2 ^ n.
Proof.
  intros Hv Hn. unfold big_bits. destruct (Z.eqb_spec v 0) as [->|Hne].
  - split; intros; [apply Z.pow_pos_nonneg|]; lia.
  - pose proof (Z.log2_lt_pow2 v n ltac:(lia)). lia.
Qed.

Lemma big_bits_nonneg v : 0 <= big_bits v.
Proof. unfold big_bits. destruct (v =? 0); [lia|]. pose proof (Z.log2_nonneg v). lia. Qed.

(** The width is the least number of words that hold the value. *)
Lemma repr_word_width_le v n : 0 <= v -> (repr_word_width v <= n)%nat <-> v < B ^ Z.of_nat n.
Proof.
  intros Hv. rewrite word_base, <- Z.pow_mul_r by lia. rewrite <- big_bits_le by lia.
  pose proof (big_bits_nonneg v) as Hb. unfold repr_word_width, WORD_SIZE.
  assert (0 <= big_bits v / 126) by (apply Z.div_pos; lia).
  destruct (Z.eqb_spec (big_bits v mod 126) 0); Z.div_mod_to_equations; lia.
Qed.

Lemma repr_word_width_bound v : 0 <= v -> v < B ^ Z.of_nat (repr_word_width v).
Proof. intros Hv. by apply repr_word_width_le. Qed.

Lemma repr_word_width_step v : 0 < v -> repr_word_width v = S (repr_word_width (v / B)).
Proof.
  intros Hv. assert (0 <= v / B) as Hd by (apply Z.div_pos; [lia|done]).
  apply Nat.le_antisymm.
  - apply repr_word_width_le; [lia|]. pose proof (repr_word_width_bound (v / B) Hd) as Hw.
    rewrite Nat2Z.inj_succ, Z.pow_succ_r by lia.
    pose proof (Z.mod_pos_bound v B eq_refl). pose proof (Z.div_mod v B). nia.
  - pose proof (repr_word_width_bound v ltac:(lia)) as Hw.
    destruct (repr_word_width v) as [|n]; [cbn in Hw; lia|].
    apply le_n_S, repr_word_width_le; [done|].
    rewrite Nat2Z.inj_succ, Z.pow_succ_r in Hw by lia. by apply Z.div_lt_upper_bound.
Qed.

(** The words of a value are its digits. *)
Lemma scalar_words_digits fuel : forall v, 0 <= v -> big_bits v <= Z.of_nat fuel ->
  scalar_words fuel v = biguint_to_scalar <$> le_digits B (repr_word_width v) v.
Proof.
  induction fuel as [|fuel IH]; intros v Hv Hf.
  - apply big_bits_le in Hf; [|lia..]. replace v with 0 by (cbn in Hf; lia). done.
  - cbn [scalar_words]. destruct (Z.ltb_spec 0 v) as [Hp|Hn]; [|by replace v with 0 by lia].
    rewrite repr_word_width_step, word_land, word_shiftr by done. cbn [le_digits fmap list_fmap].
    f_equal. apply IH; [by apply Z.div_pos|].
    apply big_bits_le; [by apply Z.div_pos|lia|]. apply big_bits_le in Hf; [|lia..].
    apply Z.div_lt_upper_bound; [done|]. rewrite Nat2Z.inj_succ, Z.pow_succ_r in Hf by lia.
    pose proof word_base_big. nia.
Qed.

Lemma bigint_to_scalar_words_digits v : 0 <= v ->
  bigint_to_scalar_words v = biguint_to_scalar <$> le_digits B (repr_word_width v) v.
Proof.
  intros Hv. apply scalar_words_digits; [done|]. pose proof (big_bits_nonneg v). lia.
Qed.

Lemma to_Z_digits n v : Zmod.to_Z <$> (biguint_to_scalar <$> le_digits B n v) = le_digits B n v.
Proof.
  rewrite <- list_fmap_compose. rewrite <- list_fmap_id. apply list_fmap_ext. intros i d Hd.
  apply word_scalar. apply (Forall_lookup_1 _ _ _ _ (le_digits_range B word_base_big n v) Hd).
Qed.
