(* ===== verification/NonNativeProperties.v ===== *)
(** What the arithmetic on words computes for an honest prover, and what a dishonest one
    can make of it: circuits/src/zk_gadgets/nonnative.rs. *)

From Stdlib Require Import Zmod.
From S2P Require Import Prelude Primality Field ConstraintSystem ListR1CS Gates NonNative.

Import NonNativeElementVar.

#[local] Open Scope Z_scope.
#[local] Open Scope circuit_scope.

#[local] Abbreviation B := BIGINT_2_TO_WORD_SIZE (only parsing).

(** The digits of a list of words, and the number that they represent *)
Abbreviation digits s l := (Zmod.to_Z <$> (value s <$> l)).
Abbreviation number s l := (le_sum BIGINT_2_TO_WORD_SIZE (digits s l)).
Abbreviation word_range := (Forall (fun d => 0 <= d < BIGINT_2_TO_WORD_SIZE)).

Section honest.
  Context {C : ConstraintSystem} {L : ConstraintSystemLaws C} {P : ProverLaws C}.

(** ** One word *)

Lemma square_below_order : B * B <= ristretto_order.
Proof. by vm_compute. Qed.

Lemma to_Z_scalar_below z : 0 <= z < B * B -> Zmod.to_Z (scalar z) = z.
Proof. intros Hz. apply to_Z_small. pose proof square_below_order. lia. Qed.

Lemma wp_div_rem_word a s (Q : R1CSVar * R1CSVar -> cs -> Prop -> Prop) :
  lc_scoped s a -> Zmod.to_Z (value s a) < B * B ->
  (forall q r s' (K : Prop), K -> extends s s' -> lc_scoped s' (lc_var q) -> lc_scoped s' (lc_var r) ->
    Zmod.to_Z (value s' q) = Zmod.to_Z (value s' a) / B ->
    Zmod.to_Z (value s' r) = Zmod.to_Z (value s' a) mod B -> Q (q, r) s' K) ->
  wp (div_rem_word a B) s Q.
Proof.
  intros Ha Hlt HQ. unfold div_rem_word. apply wp_bind, wp_eval. cbn zeta.
  rewrite scalar_to_biguint_spec. pose proof (scalar_range (value s a)) as Hr.
  apply wp_bind, wp_assert.
  { apply Z.leb_le, big_bits_le; [lia|done|exact Hlt]. }
  apply wp_bind, wp_assert; [done|].
  remember (Zmod.to_Z (value s a)) as v eqn:Hv.
  assert (0 <= v / B < B) as Hq by (split; [apply Z.div_pos; [lia|done]|by apply Z.div_lt_upper_bound]).
  pose proof (Z.mod_pos_bound v B eq_refl) as Hm.
  apply wp_bind, wp_unwrap, wp_allocate. intros q s1 E1 Hq1 Vq _. advance E1.
  apply wp_bind, wp_unwrap, wp_allocate. intros r s2 E2 Hr2 Vr _. advance E2.
  apply wp_bind, wp_constrain; [scoped|]. intros s3 E3. advance E3.
  apply wp_ret. apply HQ; [|extended|done|done|..].
  - split_and!; try done. value_simpl. apply scalar_sub_zero. rewrite Vq, Vr.
    rewrite <- (Zmod.of_Z_to_Z (value s3 a)).
    rewrite !biguint_to_scalar_small by (rewrite ?word_base in *; lia).
    rewrite <- Zmod.of_Z_mul, <- Zmod.of_Z_add. f_equal. rewrite <- Hv. by apply Z.div_mod.
  - rewrite Vq, <- Hv. by apply word_scalar.
  - rewrite Vr, <- Hv. by apply word_scalar.
Qed.

Lemma to_Z_add_below (a b : Scalar) :
  Zmod.to_Z a + Zmod.to_Z b < B * B -> Zmod.to_Z (Zmod.add a b) = Zmod.to_Z a + Zmod.to_Z b.
Proof.
  intros H. rewrite Zmod.to_Z_add. apply Z.mod_small. pose proof square_below_order.
  pose proof (scalar_range a). pose proof (scalar_range b). lia.
Qed.

Lemma to_Z_mul_below (a b : Scalar) :
  Zmod.to_Z a * Zmod.to_Z b < B * B -> Zmod.to_Z (Zmod.mul a b) = Zmod.to_Z a * Zmod.to_Z b.
Proof.
  intros H. rewrite Zmod.to_Z_mul. apply Z.mod_small. pose proof square_below_order.
  pose proof (scalar_range a). pose proof (scalar_range b). nia.
Qed.

(** ** Addition *)

Lemma wp_add_loop ls : forall rs carry acc s (Q : _ -> cs -> Prop -> Prop),
  length ls = length rs -> Forall (lc_scoped s) ls -> Forall (lc_scoped s) rs ->
  word_range (digits s ls) -> word_range (digits s rs) ->
  lc_scoped s (lc_var carry) -> Zmod.to_Z (value s carry) < B ->
  (forall carry' new s' (K : Prop), K -> extends s s' -> length new = length ls ->
    Forall (lc_scoped s') new -> word_range (digits s' new) ->
    lc_scoped s' (lc_var carry') -> Zmod.to_Z (value s' carry') < B ->
    number s' new + B ^ Z.of_nat (length ls) * Zmod.to_Z (value s' carry') =
      number s' ls + number s' rs + Zmod.to_Z (value s' carry) ->
    Q (carry', acc ++ new) s' K) ->
  wp (foldM (fun '(carry, new_words) '(lhs_word, rhs_word) =>
        let! (q, r) := div_rem_word (lhs_word + rhs_word + lc_var carry)%lc B in
        c_ret (q, new_words ++ [lc_var r])) (carry, acc) (zip ls rs)) s Q.
Proof.
  induction ls as [|l ls IH]; intros [|r rs] carry acc s Q Hlen Hls Hrs Rl Rr Hc Vc HQ; try done.
  - cbn. apply wp_ret. rewrite <- (app_nil_r acc). apply HQ; try done; [constructor..|].
    cbn [le_sum fmap list_fmap length]. change (B ^ Z.of_nat 0) with 1. lia.
  - cbn [zip zip_with foldM]. apply Forall_cons in Hls as [Hl Hls], Hrs as [Hr Hrs].
    rewrite !fmap_cons in Rl, Rr. apply Forall_cons in Rl as [Rl Rls], Rr as [Rr Rrs].
    pose proof (scalar_range (value s carry)) as Hc0. pose proof word_base_big.
    assert (Zmod.to_Z (value s (l + r + lc_var carry)%lc) =
      Zmod.to_Z (value s l) + Zmod.to_Z (value s r) + Zmod.to_Z (value s carry)) as Hsum.
    { value_simpl. rewrite !to_Z_add_below; [done|..]; rewrite ?to_Z_add_below; rewrite word_base in *; lia. }
    assert (lc_scoped s (l + r + lc_var carry)%lc) as Hw by scoped.
    apply wp_bind, wp_bind, wp_div_rem_word; [done|rewrite Hsum, word_base in *; lia|].
    intros q m s1 K1 HK1 E1 Hq Hm Vq Vm. advance E1.
    apply wp_ret. apply IH; [by injection Hlen|done..| |].
    + rewrite Vq, Hsum. apply Z.div_lt_upper_bound; rewrite word_base in *; lia.
    + intros carry' new s2 K2 HK2 E2 Hn Hnew Rnew Hc' Vc' Hnum. advance E2.
      rewrite <- app_assoc. cbn [app]. apply HQ; [done|extended|cbn; lia|by constructor| |done|done|].
      * rewrite !fmap_cons. constructor; [|done]. rewrite Vm. by apply Z.mod_pos_bound.
      * rewrite !fmap_cons. cbn [le_sum length]. rewrite Nat2Z.inj_succ, Z.pow_succ_r by lia.
        rewrite Vm, Hsum. rewrite Vq, Hsum in Hnum.
        pose proof (word_div_mod (Zmod.to_Z (value s2 l) + Zmod.to_Z (value s2 r) + Zmod.to_Z (value s2 carry))).
        nia.
Qed.

(** A list of words in scope *)
Record good_words (s : cs) (l : list LinearCombination) : Prop := {
  good_scoped : Forall (lc_scoped s) l;
  good_range : word_range (digits s l);
}.

Lemma good_extends s s' l : extends s s' -> good_words s l -> good_words s' l.
Proof.
  intros E [H1 H2]. split; [by eapply extends_scoped_list|]. by rewrite (extends_value_list s s').
Qed.

Lemma number_extends s s' l : extends s s' -> good_words s l -> number s' l = number s l.
Proof. intros E [H1 _]. by rewrite (extends_value_list s s'). Qed.

Lemma number_range s l : good_words s l -> 0 <= number s l < B ^ Z.of_nat (length l).
Proof. intros [_ H]. pose proof (le_sum_range B word_base_big _ H) as Hr. by rewrite !length_fmap in Hr. Qed.

Lemma number_app s l k : number s (l ++ k) = number s l + B ^ Z.of_nat (length l) * number s k.
Proof. rewrite !fmap_app, le_sum_app by done. by rewrite !length_fmap. Qed.

Lemma number_one s a : number s [a] = Zmod.to_Z (value s a).
Proof. cbn. lia. Qed.

Lemma digits_zeros s n : digits s (replicate n (lc_var VarZero)) = repeat 0 n.
Proof. induction n as [|n IH]; [done|]. cbn [replicate repeat]. by rewrite !fmap_cons, IH, value_zero. Qed.

Lemma good_zeros s n : good_words s (replicate n (lc_var VarZero)).
Proof.
  split; [apply Forall_replicate; scoped|]. rewrite digits_zeros. pose proof word_base_big.
  induction n; cbn; constructor; [lia|done].
Qed.

Lemma good_app s l k : good_words s l -> good_words s k -> good_words s (l ++ k).
Proof. intros [] []. split; [by apply Forall_app|]. rewrite !fmap_app. by apply Forall_app. Qed.

Lemma good_one s a : lc_scoped s a -> Zmod.to_Z (value s a) < B -> good_words s [a].
Proof.
  intros H1 H2. pose proof (scalar_range (value s a)). split; (constructor; [|constructor]); [done|lia].
Qed.

(** Equal numbers of one length have equal words. *)
Lemma good_inj s l k : good_words s l -> good_words s k -> length l = length k ->
  number s l = number s k -> value s <$> l = value s <$> k.
Proof.
  intros [_ Hl] [_ Hk] Hlen Hn. apply (f_equal (le_digits B (length l))) in Hn.
  rewrite <- (length_fmap (value s)), <- (length_fmap Zmod.to_Z) in Hn. rewrite le_digits_sum in Hn by done.
  rewrite !length_fmap, Hlen, <- (length_fmap (value s) k), <- (length_fmap Zmod.to_Z) in Hn.
  rewrite le_digits_sum in Hn by done.
  apply (list_fmap_eq_inj Zmod.to_Z) in Hn; [done|]. intros x y. apply Zmod.to_Z_inj.
Qed.

Lemma iterator_pad e n : (length (words e) <= n)%nat ->
  word_iterator e n = words e ++ replicate (n - length (words e)) (lc_var VarZero).
Proof.
  intros Hn. unfold word_iterator. rewrite take_app_ge by lia. by rewrite take_replicate, Nat.min_l by lia.
Qed.

Lemma iterator_length e n : (length (words e) <= n)%nat -> length (word_iterator e n) = n.
Proof. intros Hn. rewrite iterator_pad, length_app, length_replicate by done. lia. Qed.

Lemma iterator_good s e n : (length (words e) <= n)%nat -> good_words s (words e) ->
  good_words s (word_iterator e n).
Proof. intros Hn H. rewrite iterator_pad by done. apply good_app; [done|apply good_zeros]. Qed.

Lemma iterator_number s e n : (length (words e) <= n)%nat ->
  number s (word_iterator e n) = number s (words e).
Proof. intros Hn. rewrite iterator_pad, number_app, digits_zeros, le_sum_zeros by done. lia. Qed.

Lemma wp_add_words ls rs s (Q : _ -> cs -> Prop -> Prop) :
  length ls = length rs -> good_words s ls -> good_words s rs ->
  (forall new s' (K : Prop), K -> extends s s' -> length new = S (length ls) -> good_words s' new ->
    number s' new = number s ls + number s rs -> Q new s' K) ->
  wp (add_words ls rs) s Q.
Proof.
  intros Hlen [Hl Rl] [Hr Rr] HQ. unfold add_words.
  apply wp_bind, wp_add_loop; try done; [scoped|by rewrite value_zero|].
  intros carry new s1 K1 HK1 E1 Hn Hs R Hc Vc Hnum. advance E1. rewrite value_zero in Hnum. apply wp_ret. cbn [app].
  apply HQ; [done|done|rewrite length_app; cbn; lia| |].
  - apply good_app; [done|by apply good_one].
  - rewrite number_app, number_one, Hn, Hnum, Zmod.to_Z_0. lia.
Qed.

(** ** Multiplication *)

(** The sum of a bucket, and the number that the buckets represent *)
Definition bucket_sum (s : cs) (b : list R1CSVar) : Z :=
  foldr (fun v acc => Zmod.to_Z (value s (lc_var v)) + acc) 0 b.

Lemma bucket_sum_cons s v b :
  bucket_sum s (v :: b) = Zmod.to_Z (value s (lc_var v)) + bucket_sum s b.
Proof. done. Qed.

Abbreviation bucket_number s bs := (le_sum BIGINT_2_TO_WORD_SIZE (bucket_sum s <$> bs)).

(** Words in scope, at most [k] in a bucket *)
Definition good_bucket (s : cs) (k : nat) (b : list R1CSVar) : Prop :=
  (length b <= k)%nat /\
  Forall (fun v => lc_scoped s (lc_var v) /\ Zmod.to_Z (value s (lc_var v)) < B) b.

Lemma good_bucket_extends s s' k b :
  extends s s' -> good_bucket s k b -> good_bucket s' k b /\ bucket_sum s' b = bucket_sum s b.
Proof.
  intros E [Hk H]. unfold good_bucket. induction H as [|v b [Hv Vv] _ IH]; [done|].
  destruct IH as [[_ IH1] IH2]; [cbn in Hk; lia|]. rewrite !bucket_sum_cons.
  rewrite (extends_value s s') by done. split; [split; [done|]|by rewrite <- IH2].
  constructor; [|done]. split; [by eapply extends_scoped|]. by rewrite (extends_value s s').
Qed.

Lemma buckets_extends s s' k bs :
  extends s s' -> Forall (good_bucket s k) bs ->
  Forall (good_bucket s' k) bs /\ bucket_number s' bs = bucket_number s bs.
Proof.
  intros E H. induction H as [|b bs Hb _ [IH1 IH2]]; [done|].
  destruct (good_bucket_extends s s' k b E Hb) as [Hb' Hs].
  split; [by constructor|]. cbn. by rewrite Hs, IH2.
Qed.

Lemma good_bucket_le s k k' b : (k <= k')%nat -> good_bucket s k b -> good_bucket s k' b.
Proof. intros Hk [H1 H2]. split; [lia|done]. Qed.

Lemma buckets_le s k k' bs : (k <= k')%nat -> Forall (good_bucket s k) bs -> Forall (good_bucket s k') bs.
Proof. intros Hk H. eapply Forall_impl; [exact H|]. intros b. by apply good_bucket_le. Qed.

Lemma bucket_sum_app s b v : bucket_sum s (b ++ [v]) = bucket_sum s b + Zmod.to_Z (value s (lc_var v)).
Proof. induction b as [|u b IH]; [cbn; lia|]. cbn [app]. rewrite !bucket_sum_cons. lia. Qed.

Lemma bucket_number_insert s bs i b v : bs !! i = Some b ->
  bucket_number s (<[i := b ++ [v]]> bs) =
  bucket_number s bs + B ^ Z.of_nat i * Zmod.to_Z (value s (lc_var v)).
Proof.
  revert i; induction bs as [|b' bs IH]; intros [|i] Hi; try done.
  - injection Hi as ->. cbn [insert list_insert]. rewrite !fmap_cons. cbn [le_sum].
    rewrite bucket_sum_app. change (B ^ Z.of_nat 0) with 1. lia.
  - cbn in Hi. change (<[S i := b ++ [v]]> (b' :: bs)) with (b' :: <[i := b ++ [v]]> bs).
    rewrite !fmap_cons. cbn [le_sum]. rewrite (IH i Hi), Nat2Z.inj_succ, Z.pow_succ_r by lia. lia.
Qed.

Lemma bucket_sum_range s k b : good_bucket s k b -> 0 <= bucket_sum s b <= Z.of_nat k * B.
Proof.
  intros [Hk H]. assert (0 <= bucket_sum s b <= Z.of_nat (length b) * B) as Hb.
  { clear Hk. induction H as [|v b [_ Hv] _ IH]; [done|]. rewrite bucket_sum_cons. cbn [length].
    pose proof (scalar_range (value s (lc_var v))). lia. }
  pose proof word_base_big. nia.
Qed.

Lemma wp_push_at i v bs s k (Q : _ -> cs -> Prop -> Prop) :
  (i < length bs)%nat -> Forall (good_bucket s k) bs ->
  lc_scoped s (lc_var v) -> Zmod.to_Z (value s v) < B ->
  (forall bs' (K : Prop), K -> length bs' = length bs -> Forall (good_bucket s (S k)) bs' ->
    bucket_number s bs' = bucket_number s bs + B ^ Z.of_nat i * Zmod.to_Z (value s v) ->
    (forall j, j <> i -> bs' !! j = bs !! j) -> Q bs' s K) ->
  wp (push_at i v bs) s Q.
Proof.
  intros Hi Hbs Hv Vv HQ. destruct (lookup_lt_is_Some_2 bs i Hi) as [b Hb].
  unfold push_at. apply wp_bind, (wp_get _ b); [done|]. apply wp_ret, HQ; [done|..].
  - apply length_insert.
  - apply Forall_insert; [by apply (buckets_le s k); [lia|]|].
    destruct (Forall_lookup_1 _ _ _ _ Hbs Hb) as [Hk H]. split; [rewrite length_app; cbn; lia|].
    apply Forall_app; split; [done|by constructor].
  - by apply bucket_number_insert.
  - intros j Hj. by apply list_lookup_insert_ne.
Qed.

Section product.
  Context {R : Type} (product : LinearCombination -> R -> circuit LinearCombination).
  Context (rval : cs -> R -> Z) (rok : cs -> R -> Prop).
  Context (rok_extends : forall s s' r, extends s s' -> rok s r -> rok s' r /\ rval s' r = rval s r).
  Context (rval_range : forall s r, rok s r -> 0 <= rval s r < B).
  Context (wp_product : forall l r s (Q : _ -> cs -> Prop -> Prop),
    lc_scoped s l -> Zmod.to_Z (value s l) < B -> rok s r ->
    (forall o s' (K : Prop), K -> extends s s' -> lc_scoped s' o ->
      Zmod.to_Z (value s' o) = Zmod.to_Z (value s l) * rval s r -> Q o s' K) ->
    wp (product l r) s Q).

Lemma imap_indexed {A} (l : list A) : forall j,
  imap (fun i x => ((j + i)%nat, x)) l = zip (seq j (length l)) l.
Proof.
  induction l as [|x l IH]; intros j; [done|]. cbn [imap length seq zip zip_with].
  rewrite Nat.add_0_r. f_equal. rewrite <- IH. apply imap_ext. intros i y _. cbn. f_equal. lia.
Qed.

Lemma rs_extends s s' rs : extends s s' -> Forall (rok s) rs ->
  Forall (rok s') rs /\ rval s' <$> rs = rval s <$> rs.
Proof.
  intros E H. induction H as [|r rs Hr _ [IH1 IH2]]; [done|].
  destruct (rok_extends s s' r E Hr) as [Hr' Hv]. split; [by constructor|]. by rewrite !fmap_cons, Hv, IH2.
Qed.

Lemma wp_mul_row l i rs : forall j terms carries k s (Q : _ -> cs -> Prop -> Prop),
  lc_scoped s l -> Zmod.to_Z (value s l) < B -> Forall (rok s) rs ->
  (i + j + length rs <= length terms)%nat -> (i + j + length rs < length carries)%nat ->
  Forall (good_bucket s k) terms -> Forall (good_bucket s k) carries ->
  (forall terms' carries' s' (K : Prop), K -> extends s s' ->
    length terms' = length terms -> length carries' = length carries ->
    Forall (good_bucket s' (k + length rs)) terms' -> Forall (good_bucket s' (k + length rs)) carries' ->
    bucket_number s' terms' + bucket_number s' carries' =
      bucket_number s terms + bucket_number s carries +
      B ^ Z.of_nat (i + j) * (Zmod.to_Z (value s l) * le_sum B (rval s <$> rs)) ->
    (forall m, (i + j + length rs < m)%nat -> carries' !! m = carries !! m) ->
    Q (terms', carries') s' K) ->
  wp (foldM (fun '(terms, carries) '(rhs_index, rhs_word) =>
          let! term_direct_product := product l rhs_word in
          let! (term_carry, term) := div_rem_word term_direct_product B in
          let! terms := push_at (i + rhs_index) term terms in
          let! carries := push_at (i + rhs_index + 1) term_carry carries in
          c_ret (terms, carries)) (terms, carries) (zip (seq j (length rs)) rs)) s Q.
Proof.
  induction rs as [|r rs IH]; intros j terms carries k s Q Hl Vl Hrs Ht Hc Gt Gc HQ; cbn [length seq zip zip_with foldM].
  - apply wp_ret. rewrite Nat.add_0_r in HQ. apply HQ; try done. cbn. lia.
  - apply Forall_cons in Hrs as [Hr Hrs]. pose proof (scalar_range (value s l)) as Hl0.
    cbn [length] in *. pose proof (rval_range s r Hr) as Hr0.
    apply wp_bind, wp_bind, wp_product; [done..|]. intros o s1 K1 HK1 E1 Ho Vo.
    destruct (rs_extends s s1 rs E1 Hrs) as [Hrs1 Vrs], (buckets_extends s s1 k _ E1 Gt) as [Gt1 Nt],
      (buckets_extends s s1 k _ E1 Gc) as [Gc1 Nc]. clear Hrs Gt Gc. advance E1.
    apply wp_bind, wp_div_rem_word; [done|rewrite Vo; nia|].
    intros q t s2 K2 HK2 E2 Hq Hm Vq Vt. advance E2. rewrite Vo in Vq, Vt.
    destruct (rs_extends s1 s2 rs E2 Hrs1) as [Hrs2 Vrs2], (buckets_extends s1 s2 k _ E2 Gt1) as [Gt2 Nt2],
      (buckets_extends s1 s2 k _ E2 Gc1) as [Gc2 Nc2]. clear Hrs1 Gt1 Gc1.
    assert (Zmod.to_Z (value s2 q) < B) by (rewrite Vq; apply Z.div_lt_upper_bound; [done|nia]).
    assert (Zmod.to_Z (value s2 t) < B) by (rewrite Vt; by apply Z.mod_pos_bound).
    apply wp_bind, (wp_push_at _ _ _ _ k); [lia|done..|]. intros terms1 K3 HK3 Lt Gt3 Nt3 _.
    apply wp_bind, (wp_push_at _ _ _ _ k); [lia|done..|]. intros carries1 K4 HK4 Lc Gc3 Nc3 Kc.
    apply wp_ret. apply (IH (S j) _ _ (S k)); [done|done|done|lia|lia|done|done|].
    intros terms2 carries2 s3 K5 HK5 E3 Lt2 Lc2 Gt4 Gc4 Hnum Kc2. advance E3.
    apply HQ; [done|extended|lia|lia|by rewrite <- Nat.add_succ_comm|by rewrite <- Nat.add_succ_comm| |].
    + rewrite Hnum, Nt3, Nc3, Nt2, Nc2, Nt, Nc, Vrs2, Vrs, Vq, Vt, !fmap_cons. cbn [le_sum].
      replace (i + S j)%nat with (S (i + j)) by lia. replace (i + j + 1)%nat with (S (i + j)) by lia.
      rewrite !Nat2Z.inj_succ, !Z.pow_succ_r by lia.
      pose proof (word_div_mod (Zmod.to_Z (value s3 l) * rval s r)). nia.
    + intros m Hm'. rewrite Kc2 by lia. apply Kc. lia.
Qed.

Lemma wp_mul_rows rs ls : forall i terms carries k s (Q : _ -> cs -> Prop -> Prop),
  good_words s ls -> Forall (rok s) rs ->
  (i + length ls + length rs <= length terms)%nat -> (i + length ls + length rs <= length carries)%nat ->
  Forall (good_bucket s k) terms -> Forall (good_bucket s k) carries ->
  (forall terms' carries' s' (K : Prop), K -> extends s s' ->
    length terms' = length terms -> length carries' = length carries ->
    Forall (good_bucket s' (k + length ls * length rs)) terms' ->
    Forall (good_bucket s' (k + length ls * length rs)) carries' ->
    bucket_number s' terms' + bucket_number s' carries' =
      bucket_number s terms + bucket_number s carries +
      B ^ Z.of_nat i * (number s' ls * le_sum B (rval s <$> rs)) ->
    (forall m, (i + length ls + length rs <= m)%nat -> carries' !! m = carries !! m) ->
    Q (terms', carries') s' K) ->
  wp (foldM (fun acc '(lhs_index, lhs_word) =>
      foldM (fun '(terms, carries) '(rhs_index, rhs_word) =>
          let! term_direct_product := product lhs_word rhs_word in
          let! (term_carry, term) := div_rem_word term_direct_product B in
          let! terms := push_at (lhs_index + rhs_index) term terms in
          let! carries := push_at (lhs_index + rhs_index + 1) term_carry carries in
          c_ret (terms, carries)) acc (imap pair rs)) (terms, carries) (zip (seq i (length ls)) ls)) s Q.
Proof.
  induction ls as [|l ls IH]; intros i terms carries k s Q [Hls Rls] Hrs Ht Hc Gt Gc HQ;
    cbn [length seq zip zip_with foldM].
  - apply wp_ret. rewrite Nat.add_0_r in HQ. apply HQ; try done. cbn. lia.
  - apply Forall_cons in Hls as [Hl Hls]. rewrite !fmap_cons in Rls. apply Forall_cons in Rls as [Rl Rls].
    cbn [length] in *. apply wp_bind. change (imap pair rs) with (imap (fun i x => ((0 + i)%nat, x)) rs).
    rewrite (imap_indexed rs 0). apply (wp_mul_row l i rs 0 _ _ k); [done|lia|done|lia|lia|done|done|].
    intros terms1 carries1 s1 K1 HK1 E1 Lt Lc Gt1 Gc1 Hnum Kc.
    destruct (rs_extends s s1 rs E1 Hrs) as [Hrs1 Vrs]. clear Hrs. advance E1.
    rewrite <- (imap_indexed rs 0). apply (IH (S i) _ _ (k + length rs)%nat); [done|done|lia|lia|done|done|].
    intros terms2 carries2 s2 K2 HK2 E2 Lt2 Lc2 Gt2 Gc2 Hnum2 Kc2. advance E2.
    rewrite <- Nat.add_assoc in Gt2, Gc2. apply HQ; [done|extended|lia|lia|done|done| |].
    + rewrite Hnum2, Hnum, Vrs, !fmap_cons, Nat.add_0_r, Nat2Z.inj_succ, Z.pow_succ_r by lia. cbn [le_sum]. ring.
    + intros m Hm. rewrite Kc2, Kc by lia. done.
Qed.

Lemma bucket_number_empty s n : bucket_number s (replicate n []) = 0.
Proof. induction n as [|n IH]; [done|]. cbn [replicate]. rewrite fmap_cons. cbn [le_sum]. rewrite IH. cbn. lia. Qed.

Lemma wp_mul_terms ls rs n m s (Q : _ -> cs -> Prop -> Prop) :
  good_words s ls -> Forall (rok s) rs -> (length ls + length rs = n)%nat -> (n <= m)%nat ->
  (forall terms carries s' (K : Prop), K -> extends s s' -> length terms = n -> (n <= length carries)%nat ->
    Forall (good_bucket s' (length ls * length rs)) terms ->
    Forall (good_bucket s' (length ls * length rs)) carries ->
    bucket_number s' terms + bucket_number s' (take n carries) = number s' ls * le_sum B (rval s <$> rs) ->
    Q (terms, carries) s' K) ->
  wp (mul_terms product ls rs (replicate n []) (replicate m [])) s Q.
Proof.
  intros Hls Hrs <- Hm HQ. unfold mul_terms.
  assert (forall n, Forall (good_bucket s 0) (replicate n [])) as Hempty.
  { intros x. apply Forall_replicate. by split. }
  change (imap pair ls) with (imap (fun i x => ((0 + i)%nat, x)) ls). rewrite (imap_indexed ls 0).
  apply (wp_mul_rows rs ls 0 _ _ 0); [done|done|rewrite length_replicate; lia..|done|done|].
  intros terms carries s1 K1 HK1 E1 Lt Lc Gt Gc Hnum Kc. rewrite !length_replicate in *. cbn [Nat.add] in *.
  apply HQ; [done|done|lia|lia|done|done|].
  rewrite !bucket_number_empty in Hnum. change (B ^ Z.of_nat 0) with 1 in Hnum.
  rewrite <- (take_drop (length ls + length rs) carries), fmap_app, le_sum_app in Hnum by done.
  replace (drop (length ls + length rs) carries) with (replicate (m - (length ls + length rs)) (@nil R1CSVar)) in Hnum;
    [rewrite bucket_number_empty in Hnum; lia|].
  apply list_eq. intros j. by rewrite lookup_drop, Kc, <- lookup_drop, drop_replicate by lia.
Qed.
End product.

Lemma bucket_sum_cat s b c : bucket_sum s (b ++ c) = bucket_sum s b + bucket_sum s c.
Proof. induction b as [|v b IH]; [done|]. cbn [app]. rewrite !bucket_sum_cons. lia. Qed.

Lemma good_bucket_app s k k' b c : good_bucket s k b -> good_bucket s k' c -> good_bucket s (k + k') (b ++ c).
Proof. intros [H1 H2] [H3 H4]. split; [rewrite length_app; lia|by apply Forall_app]. Qed.

Lemma summed_word_value s k b : forall a, lc_scoped s a -> good_bucket s k b ->
  Zmod.to_Z (value s a) + bucket_sum s b < B * B ->
  lc_scoped s (foldl (fun acc v => (acc + lc_var v)%lc) a b) /\
  Zmod.to_Z (value s (foldl (fun acc v => (acc + lc_var v)%lc) a b)) = Zmod.to_Z (value s a) + bucket_sum s b.
Proof.
  revert k; induction b as [|v b IH]; intros k a Ha [Hk Hb] Hlt; cbn [foldl].
  - cbn in *. split; [done|lia].
  - apply Forall_cons in Hb as [[Hv Vv] Hb]. rewrite bucket_sum_cons in *. cbn [length] in Hk.
    assert (good_bucket s (length b) b) as Gb by done. pose proof (bucket_sum_range _ _ _ Gb).
    assert (Zmod.to_Z (value s (a + lc_var v)%lc) = Zmod.to_Z (value s a) + Zmod.to_Z (value s (lc_var v))) as Hsum.
    { value_simpl. apply to_Z_add_below. lia. }
    destruct (IH (length b) (a + lc_var v)%lc) as [H1 H2]; [scoped|done|lia|]. split; [done|lia].
Qed.

Lemma wp_reduce_loop terms carries k n : Z.of_nat (2 * k + 1) < B ->
  forall i carry acc s (Q : _ -> cs -> Prop -> Prop),
  (i + n <= length terms)%nat -> (i + n <= length carries)%nat ->
  Forall (good_bucket s k) terms -> Forall (good_bucket s k) carries ->
  lc_scoped s (lc_var carry) -> Zmod.to_Z (value s carry) < B ->
  (forall carry' new s' (K : Prop), K -> extends s s' -> length new = n -> good_words s' new ->
    lc_scoped s' (lc_var carry') -> Zmod.to_Z (value s' carry') < B ->
    number s' new + B ^ Z.of_nat n * Zmod.to_Z (value s' carry') =
      Zmod.to_Z (value s' carry) + bucket_number s (take n (drop i terms)) + bucket_number s (take n (drop i carries)) ->
    Q (carry', acc ++ new) s' K) ->
  wp (foldM (fun '(carry, res_words) word_index =>
      let! t := c_get (terms !! word_index) in
      let! c := c_get (carries !! word_index) in
      let summed_word := foldl (fun acc v => (acc + lc_var v)%lc) (lc_var carry) (t ++ c) in
      let! (q, r) := div_rem_word summed_word B in
      c_ret (q, res_words ++ [lc_var r])) (carry, acc) (seq i n)) s Q.
Proof.
  intros Hk. induction n as [|n IH]; intros i carry acc s Q Ht Hc Gt Gc Hcar Vcar HQ; cbn [seq foldM].
  - apply wp_ret. rewrite <- (app_nil_r acc). apply HQ; try done.
    change (B ^ Z.of_nat 0) with 1. rewrite !firstn_O. cbn [fmap list_fmap le_sum]. lia.
  - destruct (lookup_lt_is_Some_2 terms i) as [t Et]; [lia|].
    destruct (lookup_lt_is_Some_2 carries i) as [c Ec]; [lia|].
    apply wp_bind, wp_bind, (wp_get _ t); [done|]. apply wp_bind, (wp_get _ c); [done|].
    pose proof (Forall_lookup_1 _ _ _ _ Gt Et) as Gb. pose proof (Forall_lookup_1 _ _ _ _ Gc Ec) as Gd.
    pose proof (good_bucket_app s k k t c Gb Gd) as Gbd. pose proof (bucket_sum_range _ _ _ Gbd) as Hb.
    pose proof (scalar_range (value s carry)) as Hc0. pose proof word_base_big.
    assert (Z.of_nat (k + k) + 1 < B) as Hkk by lia.
    assert (Zmod.to_Z (value s carry) + bucket_sum s (t ++ c) < B * B) as Hlt by nia.
    destruct (summed_word_value s _ _ (lc_var carry) Hcar Gbd Hlt) as [Hw Vw].
    apply wp_bind, wp_div_rem_word; [done|lia|]. intros q r s1 K1 HK1 E1 Hq Hr Vq Vr. advance E1.
    destruct (buckets_extends s s1 k _ E1 Gt) as [Gt1 _], (buckets_extends s s1 k _ E1 Gc) as [Gc1 _].
    assert (forall j bs, Forall (good_bucket s k) bs ->
      bucket_number s1 (take n (drop j bs)) = bucket_number s (take n (drop j bs))) as Nb.
    { intros j bs Hbs. by apply (buckets_extends s s1 k), Forall_take, Forall_drop. }
    apply wp_ret. apply (IH (S i)); [lia|lia|done|done|done| |].
    { rewrite Vq, Vw. apply Z.div_lt_upper_bound; [done|nia]. }
    intros carry' new s2 K2 HK2 E2 Hn Hnew Hc' Vc' Hnum. advance E2. rewrite <- app_assoc. cbn [app].
    apply HQ; [done|extended|cbn; lia| |done|done|].
    + apply (good_app s2 [lc_var r]); [|done]. apply good_one; [done|]. rewrite Vr. by apply Z.mod_pos_bound.
    + rewrite (drop_S _ _ _ Et), (drop_S _ _ _ Ec). cbn [take]. rewrite !fmap_cons. cbn [le_sum].
      rewrite !Nb in Hnum by done. rewrite bucket_sum_cat in Vw. rewrite Vr. rewrite Vq in Hnum.
      rewrite Nat2Z.inj_succ, Z.pow_succ_r by lia.
      pose proof (word_div_mod (Zmod.to_Z (value s2 (foldl (fun acc v => (acc + lc_var v)%lc) (lc_var carry) (t ++ c))))).
      nia.
Qed.

Lemma wp_reduce_buckets terms carries k n s (Q : _ -> cs -> Prop -> Prop) :
  Z.of_nat (2 * k + 1) < B -> length terms = n -> (n <= length carries)%nat ->
  Forall (good_bucket s k) terms -> Forall (good_bucket s k) carries ->
  (forall carry new s' (K : Prop), K -> extends s s' -> length new = n -> good_words s' new ->
    lc_scoped s' (lc_var carry) -> Zmod.to_Z (value s' carry) < B ->
    number s' new + B ^ Z.of_nat n * Zmod.to_Z (value s' carry) =
      bucket_number s terms + bucket_number s (take n carries) -> Q (carry, new) s' K) ->
  wp (reduce_buckets n terms carries) s Q.
Proof.
  intros Hk <- Hc Gt Gc HQ. apply (wp_reduce_loop terms carries k); [done|done|done|done|done|scoped|by rewrite value_zero|].
  intros carry new s1 K1 HK1 E1 Hn Hnew Hcar Vcar Hnum. cbn [app]. apply HQ; [done..|].
  rewrite !drop_0, firstn_all, value_zero, Zmod.to_Z_0 in Hnum. lia.
Qed.

Lemma Forall_digits s l : good_words s l -> Forall (fun a => lc_scoped s a /\ Zmod.to_Z (value s a) < B) l.
Proof.
  intros [H1 H2]. apply Forall_forall. intros a Ha. split; [by eapply Forall_forall in H1|].
  rewrite !Forall_fmap in H2. eapply Forall_forall in H2; [|exact Ha]. apply H2.
Qed.

Lemma wp_mul_unreduced a b s (Q : _ -> cs -> Prop -> Prop) :
  field_mod a = field_mod b -> good_words s (words a) -> good_words s (words b) ->
  Z.of_nat (2 * (length (words a) * length (words b)) + 1) < B ->
  (forall e s' (K : Prop), K -> extends s s' -> field_mod e = field_mod a ->
    length (words e) = S (length (words a) + length (words b)) -> good_words s' (words e) ->
    number s' (words e) = number s' (words a) * number s' (words b) -> Q e s' K) ->
  wp (mul_unreduced a b) s Q.
Proof.
  intros Hf Ga Gb Hlen HQ. unfold mul_unreduced. apply wp_bind, wp_assert; [by apply bool_decide_eq_true|].
  apply wp_bind, (wp_mul_terms _ (fun s r => Zmod.to_Z (value s r))
    (fun s r => lc_scoped s r /\ Zmod.to_Z (value s r) < B)); [| | |done|by apply Forall_digits|done|lia|].
  - intros s1 s2 r E [Hr Vr]. rewrite (extends_value s1 s2) by done. eauto using extends_scoped.
  - intros s1 r [Hr Vr]. pose proof (scalar_range (value s1 r)). lia.
  - intros l r s1 Q1 Hl Vl [Hr Vr] HQ1. apply wp_bind, wp_multiply; [done..|].
    intros x y o s2 E2 _ _ Ho _ _ Vo. advance E2. apply wp_ret, HQ1; [done|done|done|].
    rewrite Vo. apply to_Z_mul_below. pose proof (scalar_range (value s2 l)). pose proof (scalar_range (value s2 r)). nia.
  - intros terms carries s1 K1 HK1 E1 Lt Lc Gt Gc Hnum.
    apply wp_bind, (wp_reduce_buckets _ _ (length (words a) * length (words b))); [done..|].
    intros carry new s2 K2 HK2 E2 Hn Hnew Hc Vc Hnum2. apply wp_ret, HQ; [done|extended|done|..]; cbn [words].
    + rewrite length_app. cbn. lia.
    + apply good_app; [done|by apply good_one].
    + rewrite number_app, number_one, Hn, Hnum2, Hnum.
      assert (extends s s2) as E by extended.
      change ((fun r => Zmod.to_Z (value s r)) <$> words b) with (Zmod.to_Z ∘ value s <$> words b).
      rewrite list_fmap_compose.
      rewrite !(number_extends s s2), (number_extends s s1) by done. done.
Qed.

Lemma wp_mul_bigint_unreduced a z s (Q : _ -> cs -> Prop -> Prop) :
  0 <= z -> good_words s (words a) ->
  Z.of_nat (2 * (length (words a) * repr_word_width z) + 1) < B ->
  (forall e s' (K : Prop), K -> extends s s' -> field_mod e = field_mod a ->
    length (words e) = (repr_word_width z + length (words a))%nat -> good_words s' (words e) ->
    number s' (words e) = number s' (words a) * z -> Q e s' K) ->
  wp (mul_bigint_unreduced a z) s Q.
Proof.
  intros Hz Ga Hlen HQ. unfold mul_bigint_unreduced.
  rewrite bigint_to_scalar_words_digits by done. set (w := repr_word_width z) in *.
  pose proof (to_Z_digits w z) as Hd. pose proof (le_digits_range B word_base_big w z) as Hrange.
  remember (biguint_to_scalar <$> le_digits B w z) as ws eqn:Hws.
  assert (length ws = w) as Lw by (subst ws; by rewrite length_fmap, length_le_digits).
  apply wp_bind, (wp_mul_terms _ (fun _ r => Zmod.to_Z r) (fun _ r => Zmod.to_Z r < B)); [done| | |done| |lia|lia|].
  - intros s1 r Hr. pose proof (scalar_range r). lia.
  - intros l r s1 Q1 Hl Vl Hr HQ1. apply wp_ret, HQ1; [done|done|scoped|]. value_simpl.
    rewrite to_Z_mul_below; [lia|]. pose proof (scalar_range (value s1 l)). pose proof (scalar_range r). nia.
  - rewrite <- Hd, Forall_fmap in Hrange. eapply Forall_impl; [exact Hrange|]. cbn. lia.
  - intros terms carries s1 K1 HK1 E1 Lt Lc Gt Gc Hnum. rewrite Lw in *.
    apply wp_bind, (wp_reduce_buckets _ _ (length (words a) * w)); [done..|].
    intros carry new s2 K2 HK2 E2 Hn Hnew Hc Vc Hnum2. assert (extends s s2) as E by extended.
    apply wp_ret, HQ; [done|done|done|..]; cbn [words]; [done|done|].
    change (fun r : Scalar => Zmod.to_Z r) with (@Zmod.to_Z ristretto_order) in Hnum.
    rewrite Hd, le_sum_digits_small in Hnum by (done || (split; [done|by apply repr_word_width_bound])).
    rewrite <- (number_extends s1 s2) in Hnum by (done || by apply (good_extends s)).
    rewrite Hnum in Hnum2. pose proof (number_range s2 new Hnew) as Hr.
    pose proof (number_range s2 (words a) (good_extends _ _ _ E Ga)) as Hra.
    pose proof (repr_word_width_bound z Hz) as Hb. fold w in Hb.
    pose proof (scalar_range (value s2 carry)).
    rewrite Nat2Z.inj_add, Z.pow_add_r in Hnum2 by lia. clear -Hnum2 Hr Hra Hb Hz H.
    set (pw := B ^ Z.of_nat w) in *. set (pa := B ^ Z.of_nat (length (words a))) in *.
    set (na := number s2 (words a)) in *. set (c := Zmod.to_Z (value s2 carry)) in *.
    assert (na * z < pw * pa) as Hlt by nia. assert (c = 0) as Hc0 by nia. rewrite Hc0 in Hnum2. lia.
Qed.

(** ** Conversions *)

Lemma wp_as_bigint_loop ws : forall res s (Q : Z -> cs -> Prop -> Prop),
  (forall K : Prop, K -> Q (res * B ^ Z.of_nat (length ws) + number s ws) s K) ->
  wp (foldM (fun res word =>
      let! x := eval word in
      c_ret (Z.shiftl res WORD_SIZE + scalar_to_biguint x)) res (rev ws)) s Q.
Proof.
  induction ws as [|w ws IH] using rev_ind; intros res s Q HQ.
  - apply wp_ret. specialize (HQ True I). cbn [length fmap list_fmap le_sum] in HQ.
    change (B ^ Z.of_nat 0) with 1 in HQ. by rewrite Z.mul_1_r, Z.add_0_r in HQ.
  - rewrite rev_app_distr. cbn [rev app foldM]. apply wp_bind, wp_bind, wp_eval, wp_ret, IH. intros K HK.
    rewrite scalar_to_biguint_spec, word_shiftl.
    replace ((res * B + Zmod.to_Z (value s w)) * B ^ Z.of_nat (length ws) + number s ws)
      with (res * B ^ Z.of_nat (length (ws ++ [w])) + number s (ws ++ [w])); [by apply HQ|].
    rewrite number_app, number_one, length_app. cbn [length].
    rewrite Nat2Z.inj_add, Z.pow_add_r by lia. change (B ^ Z.of_nat 1) with B. lia.
Qed.

Lemma wp_as_bigint e s (Q : Z -> cs -> Prop -> Prop) :
  (forall K : Prop, K -> Q (number s (words e)) s K) -> wp (as_bigint e) s Q.
Proof. intros HQ. apply wp_as_bigint_loop. intros K HK. by apply HQ. Qed.

Lemma wp_split_words alloc n : (forall x s (Q : _ -> cs -> Prop -> Prop),
    (forall v s' (K : Prop), K -> extends s s' -> lc_scoped s' (lc_var v) -> value s' v = x -> Q v s' K) ->
    wp (alloc x) s Q) ->
  forall z s (Q : _ -> cs -> Prop -> Prop),
  (forall ws s' (K : Prop), K -> extends s s' -> length ws = n -> good_words s' ws ->
    number s' ws = z mod B ^ Z.of_nat n -> Q ws s' K) ->
  wp (split_words alloc n z) s Q.
Proof.
  intros Halloc. induction n as [|n IH]; intros z s Q HQ; cbn [split_words].
  - apply wp_ret, HQ; try done. cbn. by rewrite Z.mod_1_r.
  - apply wp_bind, Halloc. intros v s1 K1 HK1 E1 Hv Vv.
    apply wp_bind, IH. intros ws s2 K2 HK2 E2 Lw Gw Nw. advance E2.
    pose proof (Z.mod_pos_bound z B eq_refl) as Hm.
    apply (f_equal Zmod.to_Z) in Vv. rewrite word_land, word_scalar in Vv by done.
    apply wp_ret, HQ; [done|extended|cbn; lia| |].
    + apply (good_app s2 [lc_var v]); [|done]. apply good_one; [done|lia].
    + change (lc_var v :: ws) with ([lc_var v] ++ ws). rewrite number_app, number_one, Nw, word_shiftr, Vv.
      cbn [length]. change (B ^ Z.of_nat 1) with B. rewrite Nat2Z.inj_succ, Z.pow_succ_r by lia.
      by rewrite Z.rem_mul_r by (try apply Z.pow_pos_nonneg; lia || done).
Qed.

Lemma wp_from_bigint z fm s (Q : _ -> cs -> Prop -> Prop) :
  0 < modulus fm ->
  (forall e s' (K : Prop), K -> extends s s' -> field_mod e = fm ->
    length (words e) = repr_word_width (modulus fm) -> good_words s' (words e) ->
    number s' (words e) = z mod modulus fm -> Q e s' K) ->
  wp (from_bigint z fm) s Q.
Proof.
  intros Hm HQ. unfold from_bigint. apply wp_bind, wp_assert.
  { apply negb_true_iff, Z.eqb_neq. lia. }
  apply wp_bind, wp_split_words.
  { intros x s1 Q1 HQ1. apply wp_unwrap, wp_allocate. eauto. }
  intros ws s1 K1 HK1 E1 Lw Gw Nw. apply wp_ret, HQ; try done. cbn. rewrite Nw. apply Z.mod_small.
  pose proof (Z.mod_pos_bound z (modulus fm) Hm). pose proof (repr_word_width_bound (modulus fm)). lia.
Qed.

Lemma wp_mapM_allocate xs : forall s (Q : list R1CSVar -> cs -> Prop -> Prop),
  (forall vs s' (K : Prop), K -> extends s s' -> Forall (lc_scoped s') (lc_var <$> vs) ->
    value s' <$> (lc_var <$> vs) = xs -> Q vs s' K) ->
  wp (mapM (fun x => c_unwrap (allocate (Some x))) xs) s Q.
Proof.
  induction xs as [|x xs IH]; intros s Q HQ; cbn [mapM].
  - apply wp_ret, HQ; [done|extended|constructor|done].
  - apply wp_bind, wp_unwrap, wp_allocate. intros v s1 E1 Hv Vv _.
    apply wp_bind, IH. intros vs s2 K2 HK2 E2 Hvs Vvs. advance E2.
    apply wp_ret, HQ; [done|extended|by constructor|]. by rewrite !fmap_cons, Vv, Vvs.
Qed.

Lemma wp_from_bigint_unreduced z n fm s (Q : _ -> cs -> Prop -> Prop) :
  0 <= z < B ^ Z.of_nat n ->
  (forall e s' (K : Prop), K -> extends s s' -> field_mod e = fm -> length (words e) = n ->
    good_words s' (words e) -> number s' (words e) = z -> Q e s' K) ->
  wp (from_bigint_unreduced z n fm) s Q.
Proof.
  intros [Hz Hn] HQ. apply repr_word_width_le in Hn; [|done]. unfold from_bigint_unreduced.
  apply wp_bind, wp_assert; [by apply Nat.leb_le|]. rewrite bigint_to_scalar_words_digits by done.
  apply wp_bind, wp_mapM_allocate. intros vs s1 K1 HK1 E1 Hvs Vvs.
  assert (digits s1 (lc_var <$> vs) =
    le_digits B (repr_word_width z) z ++ repeat 0 (n - repr_word_width z)) as Hd.
  { rewrite Vvs, fmap_app, to_Z_digits. f_equal. rewrite length_fmap, length_le_digits.
    induction (n - repr_word_width z)%nat as [|k IH]; [done|]. cbn [replicate repeat]. by rewrite fmap_cons, IH. }
  apply wp_ret, HQ; cbn [words field_mod]; [done|done|done|..].
  - apply (f_equal length) in Hd. rewrite !length_fmap, length_app, length_le_digits, repeat_length in Hd.
    rewrite length_fmap. lia.
  - split; [done|]. rewrite Hd. apply Forall_app; split; [by apply le_digits_range|].
    pose proof word_base_big. clear Hd. induction (n - repr_word_width z)%nat; cbn; constructor; [lia|done].
  - rewrite Hd, le_sum_app, le_sum_zeros by done.
    rewrite le_sum_digits_small; [lia|done|]. split; [done|by apply repr_word_width_bound].
Qed.

(** ** Equality constraints *)

Lemma wp_mapM_equal {A} (f : A -> LinearCombination) l : forall (k : list A) s (Q : _ -> cs -> Prop -> Prop),
  length l = length k -> Forall (lc_scoped s) l -> Forall (lc_scoped s) (f <$> k) ->
  (forall us s' (K : Prop), extends s s' -> (K <-> value s' <$> l = value s' <$> (f <$> k)) -> Q us s' K) ->
  wp (mapM (fun '(a, b) => constrain (a - f b)%lc) (zip l k)) s Q.
Proof.
  induction l as [|a l IH]; intros [|b k] s Q Hlen Hl Hk HQ; try done; cbn [zip zip_with mapM].
  - apply wp_ret, HQ; [extended|done].
  - rewrite fmap_cons in Hk. apply Forall_cons in Hl as [Ha Hl], Hk as [Hb Hk].
    apply wp_bind, wp_constrain; [scoped|]. intros s1 E1. advance E1.
    apply wp_bind, IH; [by injection Hlen|done|done|]. intros us s2 K2 E2 HK2.
    assert (value s2 a = value s1 a /\ value s2 (f b) = value s1 (f b)) as [Va Vb]
      by (split; by apply extends_value).
    apply wp_ret, HQ; [extended|]. rewrite !fmap_cons. value_simpl. rewrite scalar_sub_zero, HK2, <- Va, <- Vb.
    split; [intros (-> & -> & _); done|]. intros H. apply cons_inj in H. tauto.
Qed.

Lemma wp_constrain_equal a b s (Q : unit -> cs -> Prop -> Prop) :
  good_words s (words a) -> good_words s (words b) ->
  (forall s' (K : Prop), extends s s' -> (K <-> number s' (words a) = number s' (words b)) -> Q tt s' K) ->
  wp (constrain_equal a b) s Q.
Proof.
  intros Ga Gb HQ. unfold constrain_equal. set (n := (length (words a) `max` length (words b))%nat).
  assert (length (words a) <= n /\ length (words b) <= n)%nat as [Ha Hb] by lia.
  pose proof (iterator_good s a n Ha Ga) as Ia. pose proof (iterator_good s b n Hb Gb) as Ib.
  apply wp_bind. rewrite <- (list_fmap_id (word_iterator b n)) in Ib.
  apply (wp_mapM_equal id); [by rewrite !iterator_length|apply Ia|apply Ib|].
  intros us s1 K1 E1 HK1. rewrite list_fmap_id in *. apply wp_ret, HQ; [done|].
  rewrite <- (iterator_number s1 a n Ha), <- (iterator_number s1 b n Hb).
  split; [intros [H _]; by rewrite (proj1 HK1 H)|]. intros H. split; [|done]. apply HK1.
  apply good_inj; [by eapply good_extends..|by rewrite !iterator_length|done].
Qed.

Lemma good_scalars s ws : Forall (fun x => Zmod.to_Z x < B) ws -> good_words s (lc_scalar <$> ws).
Proof.
  intros H. split.
  - apply Forall_fmap, Forall_forall. intros. apply scoped_scalar.
  - rewrite !Forall_fmap. eapply Forall_impl; [exact H|]. intros x Hx. unfold compose. rewrite value_scalar.
    pose proof (scalar_range x). cbn beta in Hx. lia.
Qed.

Lemma digits_scalars s (ws : list Scalar) : digits s (lc_scalar <$> ws) = Zmod.to_Z <$> ws.
Proof. induction ws as [|x ws IH]; [done|]. by rewrite !fmap_cons, IH, value_scalar. Qed.

(** The words of a constant, padded to [n] *)
Lemma padded_constant s z n : 0 <= z -> (repr_word_width z <= n)%nat ->
  let ws := take n (bigint_to_scalar_words z ++ replicate n Zmod.zero) in
  length ws = n /\ good_words s (lc_scalar <$> ws) /\ number s (lc_scalar <$> ws) = z.
Proof.
  intros Hz Hn ws. subst ws. rewrite bigint_to_scalar_words_digits by done.
  rewrite take_app_ge, take_replicate, length_fmap, length_le_digits by (rewrite length_fmap, length_le_digits; lia).
  rewrite Nat.min_l by lia.
  assert (Zmod.to_Z <$> replicate (n - repr_word_width z) (Zmod.zero : Scalar) = repeat 0 (n - repr_word_width z)) as Hzero.
  { induction (n - repr_word_width z)%nat as [|k IH]; [done|]. cbn [replicate repeat]. by rewrite fmap_cons, IH. }
  split_and!.
  - rewrite length_app, length_replicate, length_fmap, length_le_digits. lia.
  - apply good_scalars, Forall_app. split.
    + pose proof (le_digits_range B word_base_big (repr_word_width z) z) as H.
      apply Forall_fmap. eapply Forall_impl; [exact H|]. intros d Hd. cbn beta in Hd. unfold compose. rewrite word_scalar; lia.
    + by apply Forall_replicate.
  - rewrite digits_scalars, fmap_app, to_Z_digits, Hzero, le_sum_app, le_sum_zeros by done.
    rewrite le_sum_digits_small; [lia|done|]. split; [done|by apply repr_word_width_bound].
Qed.

Lemma wp_constrain_equal_biguint a z s (Q : unit -> cs -> Prop -> Prop) :
  0 <= z -> good_words s (words a) ->
  (forall s' (K : Prop), extends s s' -> (K <-> number s' (words a) = z) -> Q tt s' K) ->
  wp (constrain_equal_biguint a z) s Q.
Proof.
  intros Hz Ga HQ. unfold constrain_equal_biguint.
  replace (length (bigint_to_scalar_words z)) with (repr_word_width z)
    by (by rewrite bigint_to_scalar_words_digits, length_fmap, length_le_digits).
  set (n := (repr_word_width z `max` length (words a))%nat).
  assert (length (words a) <= n /\ repr_word_width z <= n)%nat as [Ha Hb] by lia.
  pose proof (iterator_good s a n Ha Ga) as Ia.
  apply wp_bind. pose proof (fun s => padded_constant s z n Hz Hb) as Hc. cbn zeta in Hc.
  apply (wp_mapM_equal lc_scalar); [by rewrite iterator_length, (proj1 (Hc s))|apply Ia|apply (Hc s)|].
  intros us s1 K1 E1 HK1. apply wp_ret, HQ; [done|]. destruct (Hc s1) as (Lc & Gc & Nc).
  rewrite <- (iterator_number s1 a n Ha), <- Nc.
  split; [intros [H _]; by rewrite (proj1 HK1 H)|]. intros H. split; [|done]. apply HK1.
  apply good_inj; [by eapply good_extends|done|by rewrite length_fmap, Lc, iterator_length|done].
Qed.

(** ** Sums *)

Lemma wp_add_unreduced a b s (Q : _ -> cs -> Prop -> Prop) :
  field_mod a = field_mod b -> good_words s (words a) -> good_words s (words b) ->
  (forall e s' (K : Prop), K -> extends s s' -> field_mod e = field_mod a ->
    length (words e) = S (length (words a) `max` length (words b)) -> good_words s' (words e) ->
    number s' (words e) = number s' (words a) + number s' (words b) -> Q e s' K) ->
  wp (add_unreduced a b) s Q.
Proof.
  intros Hf Ga Gb HQ. unfold add_unreduced. apply wp_bind, wp_assert; [by apply bool_decide_eq_true|].
  set (n := (length (words a) `max` length (words b))%nat).
  assert (length (words a) <= n /\ length (words b) <= n)%nat as [Ha Hb] by lia.
  apply wp_bind, wp_add_words; [by rewrite !iterator_length|by apply iterator_good..|].
  intros new s1 K1 HK1 E1 Ln Gn Nn. apply wp_ret, HQ; cbn [words field_mod]; [done|done|done| |done|].
  - by rewrite Ln, iterator_length.
  - by rewrite Nn, !iterator_number, !(number_extends s s1).
Qed.

Lemma wp_add_bigint_unreduced a z s (Q : _ -> cs -> Prop -> Prop) :
  0 <= z -> good_words s (words a) ->
  (forall e s' (K : Prop), K -> extends s s' -> field_mod e = field_mod a ->
    length (words e) = S (repr_word_width z `max` length (words a)) -> good_words s' (words e) ->
    number s' (words e) = number s' (words a) + z -> Q e s' K) ->
  wp (add_bigint_unreduced a z) s Q.
Proof.
  intros Hz Ga HQ. unfold add_bigint_unreduced.
  replace (length (bigint_to_scalar_words z)) with (repr_word_width z)
    by (by rewrite bigint_to_scalar_words_digits, length_fmap, length_le_digits).
  set (n := (repr_word_width z `max` length (words a))%nat).
  assert (length (words a) <= n /\ repr_word_width z <= n)%nat as [Ha Hb] by lia.
  destruct (padded_constant s z n Hz Hb) as (Lc & Gc & Nc).
  apply wp_bind, wp_add_words; [by rewrite length_fmap, Lc, iterator_length|by apply iterator_good|done|].
  intros new s1 K1 HK1 E1 Ln Gn Nn. apply wp_ret, HQ; cbn [words field_mod]; [done|done|done| |done|].
  - by rewrite Ln, iterator_length.
  - by rewrite Nn, Nc, iterator_number, (number_extends s s1).
Qed.

(** ** Reduction *)

(** A modulus whose width is bounded so that no sum of products overflows a scalar *)
Record field_ok (fm : FieldMod) : Prop := {
  field_positive : 0 < modulus fm;
  field_width : Z.of_nat (repr_word_width (modulus fm)) < 2 ^ 32;
}.

(** The words of [e] represent [z]. *)
Record represents (s : cs) (fm : FieldMod) (z : Z) (e : NonNativeElementVar) : Prop := {
  rep_field : field_mod e = fm;
  rep_length : Z.of_nat (length (words e)) < 2 ^ 34;
  rep_words : good_words s (words e);
  rep_number : number s (words e) = z;
}.

(** An operand has at least the words of the modulus, and not too many. *)
Definition sized (fm : FieldMod) (e : NonNativeElementVar) : Prop :=
  (repr_word_width (modulus fm) <= length (words e))%nat /\ Z.of_nat (length (words e)) < 2 ^ 32.

(** The canonical element of a number *)
Record reduced (s : cs) (fm : FieldMod) (z : Z) (e : NonNativeElementVar) : Prop := {
  red_field : field_mod e = fm;
  red_length : length (words e) = repr_word_width (modulus fm);
  red_words : good_words s (words e);
  red_number : number s (words e) = z mod modulus fm;
}.

Lemma reduced_extends s s' fm z e : extends s s' -> reduced s fm z e -> reduced s' fm z e.
Proof.
  intros E []. split; [done|done|by eapply good_extends|]. by rewrite (number_extends s s').
Qed.

Lemma represents_extends s s' fm z e : extends s s' -> represents s fm z e -> represents s' fm z e.
Proof.
  intros E []. split; [done|done|by eapply good_extends|]. by rewrite (number_extends s s').
Qed.

Lemma reduced_represents s fm z e : field_ok fm -> reduced s fm z e ->
  represents s fm (z mod modulus fm) e /\ sized fm e.
Proof. intros [H1 H2] [H3 H4 H5 H6]. split; [|unfold sized; lia]. split; [done|lia|done|done]. Qed.

Lemma wp_reduce fm z a s (Q : _ -> cs -> Prop -> Prop) :
  field_ok fm -> represents s fm z a -> (repr_word_width (modulus fm) <= length (words a) + 1)%nat ->
  (forall e s' (K : Prop), K -> extends s s' -> reduced s' fm z e -> Q e s' K) ->
  wp (reduce a) s Q.
Proof.
  intros [Hm Hw] [<- Hlen Ga <-] Hen HQ. unfold reduce. apply wp_bind, wp_as_bigint. intros K0 HK0.
  set (m := modulus (field_mod a)) in *. set (v := number s (words a)) in *.
  pose proof (number_range s (words a) Ga) as Hv. fold v in Hv.
  apply wp_bind, wp_assert; [apply negb_true_iff, Z.eqb_neq; lia|].
  apply wp_bind, wp_assert; [by apply Nat.leb_le|].
  set (n := (length (words a) + 1 - repr_word_width m)%nat).
  assert (0 <= v / m < B ^ Z.of_nat n) as Hdiv.
  { split; [apply Z.div_pos; lia|]. apply Z.div_lt_upper_bound; [done|].
    assert (B ^ Z.of_nat (length (words a)) <= m * B ^ Z.of_nat n) as Hle; [|lia].
    assert (B ^ Z.of_nat (repr_word_width m - 1) <= m) as Hlow.
    { destruct (Z.le_gt_cases (B ^ Z.of_nat (repr_word_width m - 1)) m) as [|Hgt]; [done|].
      apply repr_word_width_le in Hgt; [|lia]. rewrite repr_word_width_step in Hgt by done. lia. }
    replace (length (words a)) with (repr_word_width m - 1 + n)%nat.
    - rewrite Nat2Z.inj_add, Z.pow_add_r by lia. apply Z.mul_le_mono_nonneg_r; [|done]. apply Z.pow_nonneg. done.
    - pose proof (repr_word_width_step m Hm). subst n. lia. }
  apply wp_bind, wp_from_bigint_unreduced; [done|]. intros d s1 K1 HK1 E1 Fd Ld Gd Nd.
  apply wp_bind, wp_from_bigint; [done|]. intros r s2 K2 HK2 E2 Fr Lr Gr Nr.
  apply wp_bind, wp_mul_bigint_unreduced; [lia|by eapply good_extends| |].
  { rewrite Ld. rewrite word_base. fold m. nia. }
  intros p s3 K3 HK3 E3 Fp Lp Gp Np.
  apply wp_bind, wp_add_unreduced; [congruence|done|by eapply good_extends|].
  intros t s4 K4 HK4 E4 Ft Lt Gt Nt.
  assert (extends s s4) as E04 by extended. assert (extends s1 s3) as E13 by extended.
  assert (extends s2 s4) as E24 by extended.
  apply wp_bind, wp_constrain_equal; [by apply (good_extends s)|done|]. intros s5 K5 E5 HK5.
  apply wp_ret, HQ; [|extended|].
  - split_and!; try done. apply HK5. assert (extends s s5) as E05 by extended.
    rewrite (number_extends s s5), (number_extends s4 s5), Nt, (number_extends s3 s4), Np,
      (number_extends s1 s3), Nd, (number_extends s2 s4), Nr by done. fold v m.
    rewrite Z.mod_mod by lia. rewrite Z.mul_comm. by apply Z.div_mod; lia.
  - assert (extends s2 s5) as E25 by extended. split; cbn [words field_mod]; [done|done|by apply (good_extends s2)|].
    rewrite (number_extends s2 s5), Nr by done. by rewrite Z.mod_mod by lia.
Qed.

(** ** Operations *)

(** An honest run of [g] satisfies its constraints and returns the canonical element of [z]. *)
Definition computes (g : circuit NonNativeElementVar) (s : cs) (fm : FieldMod) (z : Z) : Prop :=
  forall Q : NonNativeElementVar -> cs -> Prop -> Prop,
  (forall e s' (K : Prop), K -> extends s s' -> reduced s' fm z e -> Q e s' K) -> wp g s Q.

Section operations.
  Context (fm : FieldMod) (Hfm : field_ok fm).

Lemma add_computes s a b x y :
  represents s fm x a -> represents s fm y b -> sized fm a -> Z.of_nat (length (words b)) < 2 ^ 32 ->
  computes (add a b) s fm (x + y).
Proof.
  intros [Fa _ Ga Na] [Fb _ Gb Nb] [Wa La] Lb Q HQ. unfold add.
  apply wp_bind, wp_add_unreduced; [congruence|done|done|]. intros e s1 K1 HK1 E1 Fe Le Ge Ne.
  apply (wp_reduce fm (x + y)); [done| |lia|].
  - split; [congruence|lia|done|]. by rewrite Ne, !(number_extends s s1), Na, Nb.
  - intros r s2 K2 HK2 E2 Hr. apply HQ; [done|extended|done].
Qed.

Lemma add_bigint_computes s a x z :
  represents s fm x a -> sized fm a -> 0 <= z -> Z.of_nat (repr_word_width z) < 2 ^ 32 ->
  computes (add_bigint a z) s fm (x + z).
Proof.
  intros [Fa _ Ga Na] [Wa La] Hz Lz Q HQ. unfold add_bigint.
  apply wp_bind, wp_add_bigint_unreduced; [done|done|]. intros e s1 K1 HK1 E1 Fe Le Ge Ne.
  apply (wp_reduce fm (x + z)); [done| |lia|].
  - split; [congruence|lia|done|]. by rewrite Ne, (number_extends s s1), Na.
  - intros r s2 K2 HK2 E2 Hr. apply HQ; [done|extended|done].
Qed.

Lemma mul_computes s a b x y :
  represents s fm x a -> represents s fm y b -> sized fm a -> Z.of_nat (length (words b)) < 2 ^ 32 ->
  computes (mul a b) s fm (x * y).
Proof.
  intros [Fa _ Ga Na] [Fb _ Gb Nb] [Wa La] Lb Q HQ. unfold mul.
  apply wp_bind, wp_mul_unreduced; [congruence|done|done| |].
  { rewrite word_base. nia. }
  intros e s1 K1 HK1 E1 Fe Le Ge Ne. apply (wp_reduce fm (x * y)); [done| |lia|].
  - split; [congruence|lia|done|]. by rewrite Ne, !(number_extends s s1), Na, Nb.
  - intros r s2 K2 HK2 E2 Hr. apply HQ; [done|extended|done].
Qed.

Lemma mul_bigint_computes s a x z :
  represents s fm x a -> sized fm a -> 0 <= z -> Z.of_nat (repr_word_width z) < 2 ^ 32 ->
  computes (mul_bigint a z) s fm (x * z).
Proof.
  intros [Fa _ Ga Na] [Wa La] Hz Lz Q HQ. unfold mul_bigint.
  apply wp_bind, wp_mul_bigint_unreduced; [done|done|rewrite word_base; nia|].
  intros e s1 K1 HK1 E1 Fe Le Ge Ne. apply (wp_reduce fm (x * z)); [done| |lia|].
  - split; [congruence|lia|done|]. by rewrite Ne, (number_extends s s1), Na.
  - intros r s2 K2 HK2 E2 Hr. apply HQ; [done|extended|done].
Qed.

Lemma reduced_mod s z z' e : z mod modulus fm = z' mod modulus fm -> reduced s fm z e -> reduced s fm z' e.
Proof. intros H []. split; [done|done|done|congruence]. Qed.

Lemma from_bigint_computes s z : computes (from_bigint z fm) s fm z.
Proof.
  intros Q HQ. apply wp_from_bigint; [apply Hfm|]. intros e s1 K1 HK1 E1 Fe Le Ge Ne.
  apply HQ; [done|done|]. by split.
Qed.

Lemma additive_inverse_computes s a x :
  represents s fm x a -> sized fm a -> computes (additive_inverse a) s fm (- x).
Proof.
  intros Ra Wa Q HQ. pose proof Ra as [Fa _ Ga Na]. unfold additive_inverse. rewrite Fa.
  pose proof (field_positive fm Hfm) as Hm.
  apply wp_bind, wp_as_bigint. intros K0 HK0. rewrite Na.
  apply wp_bind, wp_assert; [apply negb_true_iff, Z.eqb_neq; lia|].
  apply wp_bind, from_bigint_computes. intros i s1 K1 HK1 E1 Hi.
  destruct (reduced_represents s1 fm _ i Hfm Hi) as [Ri [Wi Li]].
  apply wp_bind. eapply (add_computes s1 a i x); [by eapply represents_extends|exact Ri|done|done|].
  intros t s2 K2 HK2 E2 Ht. destruct Ht as [Ft Lt Gt Nt].
  apply wp_bind, wp_constrain_equal_biguint; [done|done|]. intros s3 K3 E3 HK3.
  apply wp_ret, HQ; [|extended|].
  - split_and!; try done. apply HK3. rewrite (number_extends s2 s3), Nt by done.
    rewrite Z.add_mod_idemp_r by lia. replace (x + (modulus fm - x mod modulus fm)) with (modulus fm + (x - x mod modulus fm)) by lia.
    rewrite Z.add_mod, Zminus_mod_idemp_r, Z.sub_diag by lia. rewrite Z_mod_same_full, Z.mod_0_l by lia. done.
  - apply (reduced_mod _ (modulus fm - x mod modulus fm)).
    + rewrite Zminus_mod_idemp_r. replace (modulus fm - x) with (- x + 1 * modulus fm) by lia. by apply Z.mod_add; lia.
    + eapply reduced_extends; [|exact Hi]. extended.
Qed.

Lemma subtract_computes s a b x y :
  represents s fm x a -> represents s fm y b -> sized fm a -> sized fm b ->
  computes (subtract a b) s fm (x - y).
Proof.
  intros Ra Rb Wa Wb Q HQ. unfold subtract. apply wp_bind, (additive_inverse_computes s b y); [done..|].
  intros i s1 K1 HK1 E1 Hi. destruct (reduced_represents s1 fm _ i Hfm Hi) as [Ri [Wi Li]].
  apply (add_computes s1 a i x (- y mod modulus fm)); [by eapply represents_extends|done..|].
  intros e s2 K2 HK2 E2 He. apply HQ; [done|extended|]. eapply reduced_mod, He.
  rewrite Z.add_mod_idemp_r by (pose proof (field_positive fm Hfm); lia). f_equal.
Qed.

Lemma subtract_bigint_computes s a x z :
  represents s fm x a -> sized fm a -> 0 <= z -> computes (subtract_bigint a z) s fm (x - z).
Proof.
  intros Ra Wa Hz Q HQ. pose proof (field_positive fm Hfm) as Hm. unfold subtract_bigint. rewrite (rep_field _ _ _ _ Ra).
  apply wp_bind, wp_assert; [apply negb_true_iff, Z.eqb_neq; lia|].
  pose proof (Z.mod_pos_bound z _ Hm). apply (add_bigint_computes s a x); [done|done|lia| |].
  - eapply Z.le_lt_trans; [|apply (field_width fm Hfm)]. apply Nat2Z.inj_le, repr_word_width_le; [lia|].
    pose proof (repr_word_width_bound (modulus fm)). lia.
  - intros e s1 K1 HK1 E1 He. apply HQ; [done|done|]. eapply reduced_mod, He.
    replace (x + (modulus fm - z mod modulus fm)) with (x - z mod modulus fm + 1 * modulus fm) by lia.
    rewrite Z.mod_add by lia. apply Zminus_mod_idemp_r.
Qed.

(** ** Inverses *)

Lemma modpow_inverse p x : Z.prime p -> x mod p <> 0 -> (x * modpow x (p - 2) p) mod p = 1.
Proof.
  intros Hp Hx. unfold modpow. pose proof (Z.prime_ge_2 p Hp).
  assert (Zmod.of_Z p x <> Zmod.zero) as Hnz.
  { intros H0. apply (f_equal Zmod.to_Z) in H0. rewrite Zmod.to_Z_of_Z, Zmod.to_Z_0 in H0. done. }
  rewrite Zmod.fermat_inv by done. rewrite <- Z.mul_mod_idemp_l by lia.
  replace (x mod p) with (Zmod.to_Z (Zmod.of_Z p x)) by apply Zmod.to_Z_of_Z.
  rewrite <- Zmod.to_Z_mul, Zmod.mul_inv_same_r_prime by done.
  rewrite Zmod.to_Z_1. apply Z.mod_1_l. lia.
Qed.

Lemma zero_no_inverse p x y : 1 < p -> x mod p = 0 -> (x * y) mod p <> 1.
Proof. intros Hp Hx H. rewrite <- Z.mul_mod_idemp_l, Hx, Z.mul_0_l, Z.mod_0_l in H by lia. lia. Qed.

Lemma one_minus_zero m y : 1 < m -> 0 <= y < m -> (- y + 1) mod m = 0 <-> y = 1.
Proof.
  intros Hm Hy. split; [|intros ->; by apply Z.mod_0_l; lia]. intros H0.
  destruct (Z.eq_dec y 0) as [->|]; [rewrite Z.mod_small in H0; lia|].
  destruct (Z.eq_dec y 1); [done|]. replace (- y + 1) with (- (y - 1)) in H0 by lia.
  rewrite Z.mod_opp_l_nz, Z.mod_small in H0; rewrite ?Z.mod_small; lia.
Qed.

Context (Hprime : Z.prime (modulus fm)) (Hflag : is_prime fm = true).

Lemma wp_mod_inv_prime x s (Q : Z -> cs -> Prop -> Prop) :
  (forall K : Prop, K -> Q (modpow x (modulus fm - 2) (modulus fm)) s K) ->
  wp (mod_inv_prime x (modulus fm)) s Q.
Proof.
  intros HQ. apply wp_bind, wp_assert; [apply Z.leb_le, Z.prime_ge_2, Hprime|]. apply wp_ret, HQ. done.
Qed.

(** The inverse that the prover computes *)
Definition field_inverse (x : Z) : Z := modpow (x mod modulus fm) (modulus fm - 2) (modulus fm).

Lemma field_inverse_ok x : x mod modulus fm <> 0 -> (x * field_inverse x) mod modulus fm = 1.
Proof.
  pose proof (Z.prime_ge_2 _ Hprime). intros Hx. rewrite <- Z.mul_mod_idemp_l by lia.
  apply modpow_inverse; [done|]. by rewrite Z.mod_mod by lia.
Qed.

Lemma wp_invert s a x (Q : _ -> cs -> Prop -> Prop) :
  represents s fm x a -> sized fm a ->
  (forall e s' (K : Prop), extends s s' -> reduced s' fm (field_inverse x) e ->
    (K <-> x mod modulus fm <> 0) -> Q e s' K) ->
  wp (invert a) s Q.
Proof.
  intros Ra Wa HQ. pose proof (Z.prime_ge_2 _ Hprime) as H2. pose proof Ra as [Fa _ Ga Na]. unfold invert. rewrite Fa.
  apply wp_bind, wp_assert; [done|]. apply wp_bind, wp_as_bigint. intros K0 HK0. rewrite Na.
  apply wp_bind, wp_assert; [apply negb_true_iff, Z.eqb_neq; lia|].
  apply wp_bind, wp_mod_inv_prime. intros K1 HK1. fold (field_inverse x).
  apply wp_bind, from_bigint_computes. intros e s1 K2 HK2 E1 He.
  destruct (reduced_represents s1 fm _ e Hfm He) as [Re [We Le]].
  apply wp_bind. eapply (mul_computes s1 a e x); [by eapply represents_extends|exact Re|done|done|].
  intros t s2 K3 HK3 E2 [Ft Lt Gt Nt].
  apply wp_bind, wp_constrain_equal_biguint; [done|done|]. intros s3 K4 E3 HK4.
  apply wp_ret, HQ; [extended|eapply reduced_extends, He; extended|].
  rewrite (number_extends s2 s3), Nt, Z.mul_mod_idemp_r in HK4 by (done || lia).
  split.
  - intros (_ & _ & _ & _ & _ & _ & HK & _) Hx. apply HK4 in HK. by apply (zero_no_inverse (modulus fm) x (field_inverse x)); [lia|..].
  - intros Hx. split_and!; try done. by apply HK4, field_inverse_ok.
Qed.

Lemma wp_is_zero s a x (Q : _ -> cs -> Prop -> Prop) :
  represents s fm x a -> sized fm a ->
  (forall v s' (K : Prop), extends s s' -> v = (if x =? 0 then VarOne else VarZero) ->
    (K <-> x mod modulus fm <> 0) -> Q v s' K) ->
  wp (is_zero a) s Q.
Proof.
  intros Ra Wa HQ. pose proof (Z.prime_ge_2 _ Hprime) as H2. pose proof Ra as [Fa _ Ga Na]. unfold is_zero. rewrite Fa.
  apply wp_bind, wp_assert; [done|]. apply wp_bind, wp_as_bigint. intros K0 HK0. rewrite Na.
  apply wp_bind.
  assert (forall (Q' : _ -> cs -> Prop -> Prop), (forall i (K : Prop), K ->
      (x mod modulus fm <> 0 -> (x * i) mod modulus fm = 1) -> Q' (if x =? 0 then VarOne else VarZero, i) s K) ->
    wp (if x =? 0 then c_ret (VarOne, 0)
        else let! i := mod_inv_prime x (modulus fm) in c_ret (VarZero, i)) s Q') as Hinv.
  { intros Q' HQ'. destruct (Z.eqb_spec x 0) as [->|Hx].
    - apply wp_ret, HQ'; [done|]. by rewrite Z.mod_0_l by lia.
    - apply wp_bind, wp_mod_inv_prime. intros K1 HK1. apply wp_ret, HQ'; [done|]. by apply modpow_inverse. }
  apply Hinv. intros i K1 HK1 Hi. clear Hinv.
  apply wp_bind, from_bigint_computes. intros e s1 K2 HK2 E1 He.
  destruct (reduced_represents s1 fm _ e Hfm He) as [Re [We Le]].
  apply wp_bind. eapply (mul_computes s1 a e x); [by eapply represents_extends|exact Re|done|done|].
  intros t s2 K3 HK3 E2 Ht. destruct (reduced_represents s2 fm _ t Hfm Ht) as [Rt Wt].
  apply wp_bind, (additive_inverse_computes s2 t _ Rt Wt). intros n s3 K4 HK4 E3 Hn.
  destruct (reduced_represents s3 fm _ n Hfm Hn) as [Rn Wn].
  apply wp_bind, (add_bigint_computes s3 n _ 1 Rn Wn); [done|done|]. intros o s4 K5 HK5 E4 [Fo Lo Go No].
  apply wp_bind, wp_constrain_equal_biguint; [done|done|]. intros s5 K6 E5 HK6.
  rewrite (number_extends s4 s5), No in HK6 by done.
  assert (K6 <-> x mod modulus fm <> 0) as HK.
  { rewrite HK6. rewrite Z.add_mod_idemp_l, Z.mul_mod_idemp_r by lia.
    assert ((- ((x * i) mod modulus fm) + 1) mod modulus fm = 0 <-> (x * i) mod modulus fm = 1) as ->.
    { apply one_minus_zero; [lia|]. apply Z.mod_pos_bound. lia. }
    split; [intros H Hx; by apply (zero_no_inverse (modulus fm) x i); [lia|..]|apply Hi]. }
  set (v := if x =? 0 then VarOne else VarZero) in *.
  assert (represents s5 fm (Zmod.to_Z (value s5 v)) {| words := [lc_var v]; field_mod := field_mod a |}) as Rv.
  { split; cbn [words field_mod length]; [done|lia| |by rewrite number_one].
    apply good_one; subst v; destruct (x =? 0); [scoped|scoped|by rewrite value_one|by rewrite value_zero]. }
  apply wp_bind. apply (mul_computes s5 a _ x _) with (2 := Rv); [by eapply represents_extends; [|exact Ra]; extended|done|done|].
  intros u s6 K7 HK7 E6 [Fu Lu Gu Nu]. apply wp_bind, wp_constrain_equal_biguint; [done|done|].
  intros s7 K8 E7 HK8. apply wp_ret, HQ; [extended|done|].
  rewrite (number_extends s6 s7), Nu in HK8 by done. rewrite <- HK. split; [tauto|]. intros H6.
  split_and!; try done. apply HK8. apply HK in H6. subst v. destruct (Z.eqb_spec x 0) as [->|Hx].
  - by rewrite Z.mod_0_l in H6 by lia.
  - by rewrite value_zero, Zmod.to_Z_0, Z.mul_0_r, Z.mod_0_l by lia.
Qed.
End operations.
End honest.

(** * Dishonest runs *)

Section dishonest.
  Context {C : ConstraintSystem} {L : ConstraintSystemLaws C}.

Lemma word_base_invertible : biguint_to_scalar B <> Zmod.zero.
Proof. rewrite biguint_to_scalar_small by done. by vm_compute. Qed.

(** Any value can be given to the remainder of a word. *)
Lemma admits_div_rem_word a x s w (Q : R1CSVar * R1CSVar -> cs -> assignment -> Prop) :
  lc_scoped s a ->
  (forall q r s' w', keeps s s' w w' -> lc_scoped s' (lc_var q) -> lc_scoped s' (lc_var r) ->
    lc_eval w' r = x -> lc_eval w' a = Zmod.add (Zmod.mul (biguint_to_scalar B) (lc_eval w' q)) x ->
    Q (q, r) s' w') ->
  admits (div_rem_word a B) s w Q.
Proof.
  intros Ha HQ. unfold div_rem_word.
  apply admits_bind, admits_forge, forge_eval. intros v. cbn zeta.
  apply admits_bind, admits_assert. intros _. apply admits_bind, admits_assert. intros _.
  remember (lc_eval w a) as y eqn:Hy.
  apply admits_bind, admits_forge, forge_unwrap,
    (forge_allocate (Zmod.mul (Zmod.inv (biguint_to_scalar B)) (Zmod.sub y x))).
  intros q s1 w1 K1 Hq Vq. keep K1.
  apply admits_bind, admits_forge, forge_unwrap, (forge_allocate x). intros r s2 w2 K2 Hr Vr. keep K2.
  assert (lc_eval w2 a = Zmod.add (Zmod.mul (biguint_to_scalar B) (lc_eval w2 q)) x) as Heq.
  { rewrite Vq, Zmod.mul_assoc, scalar_inv_r, <- Hy by apply word_base_invertible. ring. }
  apply admits_bind, admits_forge, forge_constrain; [scoped|intros Hv|].
  - rewrite lc_eval_sub, lc_eval_add, lc_eval_scale, Heq, Vr. ring.
  - intros s3 K3. keep K3. apply admits_ret, HQ; [|done|done|done|done].
    eauto using keeps_trans.
Qed.

(** Buckets in scope *)
Definition scoped_buckets (s : cs) (bs : list (list R1CSVar)) : Prop :=
  Forall (Forall (fun v => lc_scoped s (lc_var v))) bs.

Lemma scoped_buckets_keeps s s' w w' bs : keeps s s' w w' -> scoped_buckets s bs -> scoped_buckets s' bs.
Proof.
  intros Hk H. eapply Forall_impl; [exact H|]. intros b Hb.
  eapply Forall_impl; [exact Hb|]. intros v. by eapply keeps_scoped.
Qed.

Lemma admits_push_at i v bs s w (Q : _ -> cs -> assignment -> Prop) :
  scoped_buckets s bs -> lc_scoped s (lc_var v) ->
  (forall bs', scoped_buckets s bs' -> Q bs' s w) -> admits (push_at i v bs) s w Q.
Proof.
  intros Hbs Hv HQ. apply admits_bind, admits_get. intros b Hb. apply admits_ret, HQ.
  apply Forall_insert; [done|]. apply Forall_app; split; [|by constructor].
  exact (Forall_lookup_1 _ _ _ _ Hbs Hb).
Qed.

Lemma admits_mul_bigint_terms ls (rs : list Scalar) terms carries s w (Q : _ -> cs -> assignment -> Prop) :
  Forall (lc_scoped s) ls -> scoped_buckets s terms -> scoped_buckets s carries ->
  (forall terms' carries' s' w', keeps s s' w w' -> scoped_buckets s' terms' -> scoped_buckets s' carries' ->
    Q (terms', carries') s' w') ->
  admits (mul_terms (fun l r => c_ret (r *! l)%lc) ls rs terms carries) s w Q.
Proof.
  unfold mul_terms. generalize (imap pair rs). intros rs'. clear rs.
  assert (forall l, l ∈ imap pair ls -> l.2 ∈ ls) as Hin.
  { intros [i l] Hl. apply elem_of_lookup_imap_1 in Hl as (j & y & [= -> ->] & Hj). by eapply list_elem_of_lookup_2. }
  intros Hls. assert (Forall (fun il => lc_scoped s il.2) (imap pair ls)) as Hs.
  { apply Forall_forall. intros il Hil. eapply Forall_forall in Hls; [done|]. by apply Hin. }
  clear Hin Hls. revert s w terms carries Q Hs.
  induction (imap pair ls) as [|[i l] ls' IH]; intros s w terms carries Q Hs Ht Hc HQ; cbn [foldM].
  - apply admits_ret, HQ; [apply keeps_refl|done|done].
  - apply Forall_cons in Hs as [Hl Hs]. apply admits_bind.
    assert (forall (Q' : _ -> cs -> assignment -> Prop),
      (forall terms' carries' s' w', keeps s s' w w' -> scoped_buckets s' terms' -> scoped_buckets s' carries' ->
        Q' (terms', carries') s' w') ->
      admits (foldM (fun '(terms, carries) '(rhs_index, rhs_word) =>
          let! term_direct_product := c_ret (rhs_word *! l)%lc in
          let! (term_carry, term) := div_rem_word term_direct_product B in
          let! terms := push_at (i + rhs_index) term terms in
          let! carries := push_at (i + rhs_index + 1) term_carry carries in
          c_ret (terms, carries)) (terms, carries) rs') s w Q') as Hrow.
    { clear IH HQ Q Hs ls' ls. revert s w terms carries Hl Ht Hc.
      induction rs' as [|[j r] rs' IH]; intros s w terms carries Hl Ht Hc Q' HQ'; cbn [foldM].
      - apply admits_ret, HQ'; [apply keeps_refl|done|done].
      - apply admits_bind, admits_bind, admits_ret, admits_bind, (admits_div_rem_word _ Zmod.zero); [scoped|].
        intros q t s1 w1 K1 Hq Ht1 _ _. keep K1.
        apply admits_bind, admits_push_at; [by eapply scoped_buckets_keeps|done|]. intros terms1 Ht2.
        apply admits_bind, admits_push_at; [by eapply scoped_buckets_keeps|done|]. intros carries1 Hc2.
        apply admits_ret, IH; [done..|]. intros terms2 carries2 s2 w2 K2 Ht3 Hc3.
        apply HQ'; [by eapply keeps_trans|done|done]. }
    apply Hrow. intros terms1 carries1 s1 w1 K1 Ht1 Hc1. apply IH; [|done|done|].
    + eapply Forall_impl; [exact Hs|]. intros il. by eapply keeps_scoped.
    + intros terms2 carries2 s2 w2 K2 Ht2 Hc2. apply HQ; [by eapply keeps_trans|done|done].
Qed.

Lemma summed_word_scoped s b : forall a, lc_scoped s a -> Forall (fun v => lc_scoped s (lc_var v)) b ->
  lc_scoped s (foldl (fun acc v => (acc + lc_var v)%lc) a b).
Proof.
  induction b as [|v b IH]; intros a Ha Hb; [done|]. apply Forall_cons in Hb as [Hv Hb]. apply IH; [scoped|done].
Qed.

(** The words of a product are chosen freely: its last carry is dropped. *)
Lemma admits_reduce_buckets terms carries ps s w (Q : _ -> cs -> assignment -> Prop) :
  scoped_buckets s terms -> scoped_buckets s carries ->
  (forall carry new s' w', keeps s s' w w' -> Forall (lc_scoped s') new -> lc_eval w' <$> new = ps ->
    Q (carry, new) s' w') ->
  admits (reduce_buckets (length ps) terms carries) s w Q.
Proof.
  intros Ht Hc HQ. unfold reduce_buckets.
  assert (forall ps i carry acc s w (Q : _ -> cs -> assignment -> Prop),
    scoped_buckets s terms -> scoped_buckets s carries -> lc_scoped s (lc_var carry) ->
    (forall carry' new s' w', keeps s s' w w' -> Forall (lc_scoped s') new -> lc_eval w' <$> new = ps ->
      Q (carry', acc ++ new) s' w') ->
    admits (foldM (fun '(carry, res_words) word_index =>
      let! t := c_get (terms !! word_index) in
      let! c := c_get (carries !! word_index) in
      let summed_word := foldl (fun acc v => (acc + lc_var v)%lc) (lc_var carry) (t ++ c) in
      let! (q, r) := div_rem_word summed_word B in
      c_ret (q, res_words ++ [lc_var r])) (carry, acc) (seq i (length ps))) s w Q) as Hloop.
  { clear ps s w Q Ht Hc HQ. induction ps as [|x ps IH]; intros i carry acc s w Q Ht Hc Hcar HQ; cbn [length seq foldM].
    - apply admits_ret. rewrite <- (app_nil_r acc). apply HQ; [apply keeps_refl|constructor|done].
    - apply admits_bind, admits_bind, admits_get. intros t Et. apply admits_bind, admits_get. intros c Ec.
      apply admits_bind, (admits_div_rem_word _ x).
      { apply summed_word_scoped; [done|]. apply Forall_app.
        split; [exact (Forall_lookup_1 _ _ _ _ Ht Et)|exact (Forall_lookup_1 _ _ _ _ Hc Ec)]. }
      intros q r s1 w1 K1 Hq Hr Vr _. apply admits_ret, IH; [by eapply scoped_buckets_keeps..|done|].
      intros carry' new s2 w2 K2 Hnew Vnew. keep K2. rewrite <- app_assoc. apply HQ; [by eapply keeps_trans|by constructor|].
      cbn [app]. by rewrite fmap_cons, Vr, Vnew. }
  apply Hloop; [done|done|apply scoped_zero|]. intros. by apply HQ.
Qed.

(** Without carries, the words of a sum are the sums of the words. *)
Lemma admits_add_words ls : forall rs s w (Q : _ -> cs -> assignment -> Prop),
  length ls = length rs -> Forall (lc_scoped s) ls -> Forall (lc_scoped s) rs ->
  (forall new s' w', keeps s s' w w' -> valid w' -> Forall (lc_scoped s') new ->
    lc_eval w' <$> new = zip_with Zmod.add (lc_eval w' <$> ls) (lc_eval w' <$> rs) ++ [Zmod.zero] -> Q new s' w') ->
  admits (add_words ls rs) s w Q.
Proof.
  intros rs s w Q Hlen Hls Hrs HQ Hs Hsat. revert Hs Hsat. unfold add_words. apply admits_bind.
  assert (forall ls rs carry acc s w (Q : _ -> cs -> assignment -> Prop),
    length ls = length rs -> Forall (lc_scoped s) ls -> Forall (lc_scoped s) rs ->
    lc_scoped s (lc_var carry) -> lc_eval w carry = Zmod.zero ->
    (forall carry' new s' w', keeps s s' w w' -> Forall (lc_scoped s') new -> lc_scoped s' (lc_var carry') ->
      lc_eval w' carry' = Zmod.zero ->
      lc_eval w' <$> new = zip_with Zmod.add (lc_eval w' <$> ls) (lc_eval w' <$> rs) -> Q (carry', acc ++ new) s' w') ->
    admits (foldM (fun '(carry, new_words) '(lhs_word, rhs_word) =>
        let! (q, r) := div_rem_word (lhs_word + rhs_word + lc_var carry)%lc B in
        c_ret (q, new_words ++ [lc_var r])) (carry, acc) (zip ls rs)) s w Q) as Hloop.
  { clear. induction ls as [|l ls IH]; intros [|r rs] carry acc s w Q Hlen Hls Hrs Hc Vc HQ; try done; cbn [zip zip_with foldM].
    - apply admits_ret. rewrite <- (app_nil_r acc). by apply HQ; [apply keeps_refl|..].
    - apply Forall_cons in Hls as [Hl Hls], Hrs as [Hr Hrs].
      apply admits_bind, admits_bind, (admits_div_rem_word _ (Zmod.add (lc_eval w l) (lc_eval w r))); [scoped|].
      intros q m s1 w1 K1 Hq Hm Vm Veq. keep K1.
      assert (lc_eval w1 q = Zmod.zero) as Vq.
      { rewrite !lc_eval_add, Vc in Veq.
        assert (Zmod.mul (biguint_to_scalar B) (lc_eval w1 q) = Zmod.zero) as Hz.
        { replace (Zmod.mul _ _) with (Zmod.sub (Zmod.add (Zmod.mul (biguint_to_scalar B) (lc_eval w1 q))
            (Zmod.add (lc_eval w1 l) (lc_eval w1 r))) (Zmod.add (lc_eval w1 l) (lc_eval w1 r))) by ring.
          rewrite <- Veq. ring. }
        apply scalar_mul_zero in Hz as [Hz|Hz]; [by apply word_base_invertible in Hz|done]. }
      apply admits_ret, IH; [by injection Hlen|done..|].
      intros carry' new s2 w2 K2 Hnew Hc' Vc' Vnew. keep K2. rewrite <- app_assoc. cbn [app].
      apply HQ; [by eapply keeps_trans|by constructor|done|done|]. rewrite !fmap_cons. cbn [zip_with].
      by rewrite Vm, Vnew. }
  intros Hs Hsat. pose proof (sat_valid _ _ Hsat) as Hv. revert Hs Hsat.
  apply Hloop; [done|done|done|apply scoped_zero|rewrite lc_eval_var; apply Hv|].
  intros carry new s1 w1 K1 Hnew Hc Vc Vnew. apply admits_ret. cbn [app].
  apply HQ; [done| |by apply Forall_app; split; [|constructor]|].
  - destruct Hv as [H1 H0]. split; [rewrite (proj2 (K1 _ (scope_one s)))|rewrite (proj2 (K1 _ (scope_zero s)))]; done.
  - rewrite fmap_app, Vnew. f_equal. by rewrite fmap_cons, Vc.
Qed.

Lemma admits_split_words ts : forall z s w (Q : _ -> cs -> assignment -> Prop),
  (forall ws s' w', keeps s s' w w' -> Forall (lc_scoped s') ws -> lc_eval w' <$> ws = ts -> Q ws s' w') ->
  admits (split_words (fun x => c_unwrap (allocate (Some x))) (length ts) z) s w Q.
Proof.
  induction ts as [|t ts IH]; intros z s w Q HQ; cbn [length split_words].
  - apply admits_ret, HQ; [apply keeps_refl|constructor|done].
  - apply admits_bind, admits_forge, forge_unwrap, (forge_allocate t). intros v s1 w1 K1 Hv Vv.
    apply admits_bind, IH. intros ws s2 w2 K2 Hws Vws. keep K2.
    apply admits_ret, HQ; [by eapply keeps_trans|by constructor|]. by rewrite fmap_cons, Vv, Vws.
Qed.

Lemma admits_mapM_allocate ts : forall xs s w (Q : _ -> cs -> assignment -> Prop),
  length xs = length ts ->
  (forall vs s' w', keeps s s' w w' -> Forall (lc_scoped s') (lc_var <$> vs) ->
    lc_eval w' <$> (lc_var <$> vs) = ts -> Q vs s' w') ->
  admits (mapM (fun x => c_unwrap (allocate (Some x))) xs) s w Q.
Proof.
  induction ts as [|t ts IH]; intros [|x xs] s w Q Hlen HQ; try done; cbn [mapM].
  - apply admits_ret, HQ; [apply keeps_refl|constructor|done].
  - apply admits_bind, admits_forge, forge_unwrap, (forge_allocate t). intros v s1 w1 K1 Hv Vv.
    apply admits_bind, IH; [by injection Hlen|]. intros vs s2 w2 K2 Hvs Vvs. keep K2.
    apply admits_ret, HQ; [by eapply keeps_trans|by constructor|]. by rewrite !fmap_cons, Vv, Vvs.
Qed.

Lemma admits_mapM_equal l : forall k s w (Q : _ -> cs -> assignment -> Prop),
  Forall (lc_scoped s) l -> Forall (lc_scoped s) k -> lc_eval w <$> l = lc_eval w <$> k ->
  (forall us s', keeps s s' w w -> Q us s' w) ->
  admits (mapM (fun '(a, b) => constrain (a - b)%lc) (zip l k)) s w Q.
Proof.
  induction l as [|a l IH]; intros [|b k] s w Q Hl Hk Heq HQ; try done; cbn [zip zip_with mapM].
  - apply admits_ret, HQ, keeps_refl.
  - rewrite !fmap_cons in Heq. apply cons_inj in Heq as [Hab Heq].
    apply Forall_cons in Hl as [Ha Hl], Hk as [Hb Hk].
    apply admits_bind, admits_forge, forge_constrain; [scoped|intros _; by rewrite lc_eval_sub, scalar_sub_zero|].
    intros s1 K1. apply admits_bind, IH; [by eapply keeps_scoped_list..|done|].
    intros us s2 K2. apply admits_ret, HQ. by eapply keeps_trans.
Qed.

Lemma iterator_scoped s e n : Forall (lc_scoped s) (words e) -> Forall (lc_scoped s) (word_iterator e n).
Proof. intros H. apply Forall_take, Forall_app. split; [done|]. apply Forall_replicate, scoped_zero. Qed.

Lemma iterator_eval w e n : valid w -> (length (words e) <= n)%nat ->
  lc_eval w <$> word_iterator e n = (lc_eval w <$> words e) ++ replicate (n - length (words e)) Zmod.zero.
Proof.
  intros Hv Hn. rewrite iterator_pad, fmap_app, fmap_replicate by done. f_equal. f_equal.
  rewrite lc_eval_var. apply Hv.
Qed.

Lemma keeps_valid s s' w w' : keeps s s' w w' -> valid w -> valid w'.
Proof.
  intros K [H1 H0]. split; [rewrite (proj2 (K _ (scope_one s)))|rewrite (proj2 (K _ (scope_zero s)))]; done.
Qed.

Lemma sub_add_zip (a t : list Scalar) : length a = length t ->
  zip_with Zmod.add (zip_with Zmod.sub a t) t = a.
Proof.
  revert t; induction a as [|x a IH]; intros [|y t] Hlen; try done. cbn [zip_with]. f_equal; [ring|].
  apply IH. by injection Hlen.
Qed.

(** A product and a remainder whose words add up to those of [a] pass as the division of [a]. *)
Lemma admits_recombine a p r n s w (Q : unit -> cs -> assignment -> Prop) :
  valid w -> Forall (lc_scoped s) (words a) -> Forall (lc_scoped s) (words p) -> Forall (lc_scoped s) (words r) ->
  length (words p) = n -> (length (words a) <= n)%nat -> (length (words r) <= n)%nat ->
  lc_eval w <$> words p =
    zip_with Zmod.sub (lc_eval w <$> word_iterator a n) (lc_eval w <$> word_iterator r n) ->
  (forall s' w', keeps s s' w w' -> Q tt s' w') ->
  admits (let! reconstructed := add_unreduced p r in constrain_equal a reconstructed) s w Q.
Proof.
  intros Hv Ha Hp Hr Lp La Lr Vp HQ.
  assert (word_iterator p n = words p) as Ip.
  { unfold word_iterator. by rewrite take_app_le, firstn_all2 by lia. }
  pose proof (iterator_scoped s r n Hr) as Hrn. pose proof (iterator_scoped s a n Ha) as Han.
  pose proof (iterator_length a n La) as Lan. pose proof (iterator_length r n Lr) as Lrn.
  unfold add_unreduced. apply admits_bind, admits_bind, admits_assert. intros _. rewrite Lp, Nat.max_l, Ip by lia.
  apply admits_bind, admits_add_words; [lia|done|done|].
  intros sum s1 w1 K1 Hv1 Hsum Vsum. apply admits_ret.
  rewrite (keeps_eval_list s s1 w w1 (words p)), (keeps_eval_list s s1 w w1 (word_iterator r n)) in Vsum by done.
  rewrite Vp, sub_add_zip in Vsum by (by rewrite !length_fmap, Lan, Lrn). keep K1.
  unfold constrain_equal. cbn [words].
  assert (length sum = S n) as Lsum.
  { apply (f_equal length) in Vsum. rewrite length_app, !length_fmap, Lan in Vsum. cbn in Vsum. lia. }
  rewrite Lsum, Nat.max_r by lia.
  apply admits_bind, admits_mapM_equal; [by apply iterator_scoped|by apply iterator_scoped| |].
  { rewrite (iterator_eval w1 {| words := sum; field_mod := field_mod p |} (S n)) by (done || (cbn; lia)).
    cbn [words]. rewrite Lsum, Nat.sub_diag, Vsum, app_nil_r, !iterator_eval by (done || lia).
    rewrite <- app_assoc. f_equal. replace (S n - length (words a))%nat with (n - length (words a) + 1)%nat by lia.
    by rewrite replicate_add. }
  intros us s2 K2. apply admits_ret, HQ. by eapply keeps_trans.
Qed.

Lemma admits_reduce a ts s w (Q : _ -> cs -> assignment -> Prop) :
  Forall (lc_scoped s) (words a) -> 0 < modulus (field_mod a) -> valid w ->
  length ts = repr_word_width (modulus (field_mod a)) ->
  (forall e s' w', keeps s s' w w' -> lc_eval w' <$> words e = ts -> Q e s' w') ->
  admits (reduce a) s w Q.
Proof.
  intros Ha Hm Hv Hts HQ. unfold reduce. set (m := modulus (field_mod a)) in *.
  assert (forall l res (Q' : Z -> cs -> assignment -> Prop), (forall x, Q' x s w) ->
    admits (foldM (fun res word => let! x := eval word in
      c_ret (Z.shiftl res WORD_SIZE + scalar_to_biguint x)) res l) s w Q') as Heval.
  { induction l as [|x l IH]; intros res Q' HQ'; cbn [foldM]; [by apply admits_ret|].
    apply admits_bind, admits_bind, admits_forge, forge_eval. intros y. apply admits_ret, IH, HQ'. }
  apply admits_bind, Heval. intros v. clear Heval.
  apply admits_bind, admits_assert. intros _. apply admits_bind, admits_assert. intros Hw%Nat.leb_le.
  set (dw := (length (words a) + 1 - repr_word_width m)%nat). unfold from_bigint_unreduced, from_bigint.
  apply admits_bind, admits_bind, admits_assert. intros _.
  set (ds := bigint_to_scalar_words _ ++ _).
  assert (dw <= length ds)%nat as Hd by (subst ds; rewrite length_app, length_replicate; lia).
  apply admits_bind, (admits_mapM_allocate (replicate (length ds) Zmod.zero)); [by rewrite length_replicate|].
  intros vs s1 w1 K1 Hvs Vvs. apply admits_ret. keep K1.
  apply admits_bind, admits_bind, admits_assert. intros _. fold m. rewrite <- Hts at 1.
  apply admits_bind, admits_split_words. intros r s2 w2 K2 Hr Vr. apply admits_ret. keep K2.
  unfold mul_bigint_unreduced. cbn [words field_mod].
  assert (length (bigint_to_scalar_words m) = repr_word_width m) as Lm.
  { by rewrite bigint_to_scalar_words_digits, length_fmap, length_le_digits by lia. }
  rewrite Lm. set (n := (repr_word_width m + length (lc_var <$> vs))%nat).
  assert (length (lc_var <$> vs) = length ds) as Lvs.
  { apply (f_equal length) in Vvs. by rewrite length_fmap, length_replicate in Vvs. }
  assert (length (words a) < n)%nat as Hn by (subst n; lia).
  assert (length r = repr_word_width m) as Lr by (rewrite <- Hts, <- Vr; by rewrite length_fmap).
  assert (valid w2) as Hv2 by (eapply keeps_valid, keeps_valid; [exact K2|exact K1|exact Hv]).
  assert (forall n, scoped_buckets s2 (replicate n [])) as Hempty by (intros; by apply Forall_replicate).
  apply admits_bind, admits_bind, admits_mul_bigint_terms; [done|done|done|].
  intros terms carries s3 w3 K3 Ht3 Hc3. keep K3.
  set (rn := {| words := r; field_mod := field_mod a |}).
  set (ps := zip_with Zmod.sub (lc_eval w3 <$> word_iterator a n) (lc_eval w3 <$> word_iterator rn n)).
  assert (length (word_iterator a n) = n) as La by (apply iterator_length; lia).
  assert (length (word_iterator rn n) = n) as Lrn by (apply iterator_length; cbn; lia).
  assert (length ps = n) as Lps by (subst ps; rewrite length_zip_with, !length_fmap, La, Lrn; lia).
  rewrite <- Lps at 1. apply admits_bind, (admits_reduce_buckets _ _ ps); [done|done|].
  intros carry new s4 w4 K4 Hnew Vnew. apply admits_ret.
  assert (length new = n) as Lnew by (rewrite <- Lps, <- Vnew; by rewrite length_fmap).
  assert (Forall (lc_scoped s3) (word_iterator a n)) as Han by by apply iterator_scoped.
  assert (Forall (lc_scoped s3) (word_iterator rn n)) as Hrn by by apply iterator_scoped.
  apply admits_assoc, admits_bind, (admits_recombine a _ rn n);
    [|by eapply keeps_scoped_list|done|by eapply keeps_scoped_list|done|lia|cbn; lia| |].
  - eapply keeps_valid, keeps_valid; [exact K4|exact K3|done].
  - cbn [words]. by rewrite (keeps_eval_list s3 s4 w3 w4 (word_iterator a n)),
      (keeps_eval_list s3 s4 w3 w4 (word_iterator rn n)).
  - intros s5 w5 K5. keep K4. keep K5. apply admits_ret, HQ; [|exact Vr].
    repeat (eapply keeps_trans; [eassumption|]). apply keeps_refl.
Qed.
End dishonest.

(** * Bits *)

Section bits.
  Context {C : ConstraintSystem} {L : ConstraintSystemLaws C}.

(** The words that [to_bits] puts together from constants, in any valid assignment *)
Definition const_digits (w : assignment) (l : list LinearCombination) : list Z := Zmod.to_Z <$> (lc_eval w <$> l).

Definition bit_step : list LinearCombination * LinearCombination -> nat * Scalar ->
    list LinearCombination * LinearCombination :=
  fun '(ws, curr_word) '(index, bit) =>
    let bit_index := (index mod 126)%nat in
    let '(ws, curr_word) :=
      if ((0 <? index) && (bit_index =? 0))%nat then (ws ++ [curr_word], lc_var VarZero) else (ws, curr_word) in
    let shift_scalar := biguint_to_scalar (Z.shiftl 1 (Z.of_nat bit_index)) in
    (ws, curr_word + lc_scalar (Zmod.mul shift_scalar bit))%lc.

(** After [i] bits, the complete words and the current one hold the [i] low bits. *)
Record bits_state (w : assignment) (z : Z) (i : nat) (st : list LinearCombination * LinearCombination) : Prop := {
  bs_length : length st.1 = ((i - 1) / 126)%nat;
  bs_range : word_range (const_digits w st.1);
  bs_current : 0 <= Zmod.to_Z (lc_eval w st.2) < 2 ^ (Z.of_nat i - 126 * Z.of_nat ((i - 1) / 126));
  bs_number : le_sum B (const_digits w (st.1 ++ [st.2])) = z mod 2 ^ Z.of_nat i;
}.

Lemma const_digits_app w l k : const_digits w (l ++ k) = const_digits w l ++ const_digits w k.
Proof. unfold const_digits. by rewrite !fmap_app. Qed.

Lemma mod_pow2_succ z i : 0 <= i -> z mod 2 ^ (i + 1) = z mod 2 ^ i + 2 ^ i * Z.b2z (Z.testbit z i).
Proof.
  intros Hi. rewrite Z.pow_add_r, Z.rem_mul_r by lia. f_equal. f_equal.
  by rewrite Z.testbit_spec', Z.pow_1_r by lia.
Qed.

Lemma current_add w c j (b : bool) k : valid w -> 0 <= Zmod.to_Z (lc_eval w c) < 2 ^ j -> 0 <= j < 126 -> k = j ->
  Zmod.to_Z (lc_eval w (c + lc_scalar (Zmod.mul (biguint_to_scalar (Z.shiftl 1 k)) (bit_scalar b)))%lc)
  = Zmod.to_Z (lc_eval w c) + 2 ^ j * Z.b2z b.
Proof.
  intros Hv Hc Hj ->. rewrite lc_eval_add, lc_eval_scalar, (proj1 Hv), Zmod.mul_1_r, Z.shiftl_1_l.
  assert (2 ^ j <= 2 ^ 125) as Hp by (apply Z.pow_le_mono_r; lia). assert (0 < 2 ^ j) by (apply Z.pow_pos_nonneg; lia).
  rewrite biguint_to_scalar_small by (split; [lia|]; eapply Z.le_lt_trans; [exact Hp|done]).
  rewrite bit_scalar_Z, <- Zmod.of_Z_mul. rewrite to_Z_add_below; rewrite to_Z_scalar_below.
  - done.
  - destruct b; cbn [Z.b2z]; rewrite word_base; lia.
  - destruct b; cbn [Z.b2z]; rewrite word_base; lia.
  - destruct b; cbn [Z.b2z]; rewrite word_base; lia.
Qed.

Lemma word_base_pow k : B ^ Z.of_nat k = 2 ^ (126 * Z.of_nat k).
Proof. rewrite word_base. symmetry. apply Z.pow_mul_r; lia. Qed.

Lemma const_digits_snoc w l a :
  le_sum B (const_digits w (l ++ [a])) =
  le_sum B (const_digits w l) + B ^ Z.of_nat (length l) * Zmod.to_Z (lc_eval w a).
Proof.
  rewrite const_digits_app, le_sum_app by done. unfold const_digits. rewrite !length_fmap. cbn [fmap list_fmap le_sum]. lia.
Qed.

Lemma bit_step_ok w z i st : valid w -> bits_state w z i st ->
  bits_state w z (S i) (bit_step st (i, bit_scalar (Z.testbit z (Z.of_nat i)))).
Proof.
  intros Hv [H1 H2 H3 H4]. destruct st as [ws c]. cbn [fst snd] in *. unfold bit_step.
  set (b := Z.testbit z (Z.of_nat i)). set (k := (i / 126)%nat).
  assert (i = 126 * k + i mod 126)%nat as Hi by (apply Nat.div_mod; lia).
  pose proof (Nat.mod_upper_bound i 126 ltac:(lia)) as Hm.
  destruct ((0 <? i) && (i mod 126 =? 0))%nat eqn:Hcut.
  - apply andb_true_iff in Hcut as [H0%Nat.ltb_lt Hz%Nat.eqb_eq]. rewrite Hz in *.
    assert ((i - 1) / 126 = k - 1)%nat as Hk by (symmetry; apply (Nat.div_unique _ _ _ 125); lia).
    rewrite Hk in H1, H3. replace (Z.of_nat i - 126 * Z.of_nat (k - 1)) with 126 in H3 by lia.
    assert (Zmod.to_Z (lc_eval w (lc_var VarZero)) = 0) as Hzero by (rewrite lc_eval_var, (proj2 Hv); apply Zmod.to_Z_0).
    pose proof (current_add w (lc_var VarZero) 0 b (Z.of_nat 0) Hv ltac:(rewrite Hzero; done) ltac:(lia) eq_refl) as Hc.
    rewrite Hzero in Hc. change (2 ^ 0) with 1 in Hc.
    split; cbn [fst snd]; replace (S i - 1)%nat with i by lia; fold k.
    + rewrite length_app. cbn [length]. lia.
    + rewrite const_digits_app. apply Forall_app. split; [done|]. constructor; [by rewrite word_base|constructor].
    + rewrite Hc. replace (Z.of_nat (S i) - 126 * Z.of_nat k) with 1 by lia. destruct b; cbn; lia.
    + rewrite const_digits_snoc, H4, length_app, H1, Hc. cbn [length].
      rewrite word_base_pow. replace (126 * Z.of_nat (k - 1 + 1)) with (Z.of_nat i) by lia.
      rewrite Nat2Z.inj_succ. unfold Z.succ. rewrite mod_pow2_succ by lia. fold b. lia.
  - assert ((i - 1) / 126 = k)%nat as Hk.
    { apply andb_false_iff in Hcut as [H0%Nat.ltb_ge|Hz%Nat.eqb_neq].
      - assert (i = 0)%nat as Hi0 by lia. subst k. by rewrite Hi0.
      - symmetry. apply (Nat.div_unique _ _ _ (i mod 126 - 1)); lia. }
    rewrite Hk in H1, H3.
    pose proof (current_add w c (Z.of_nat (i mod 126)) b _ Hv ltac:(replace (Z.of_nat (i mod 126)) with (Z.of_nat i - 126 * Z.of_nat k) by lia; exact H3) ltac:(lia) eq_refl) as Hc.
    rewrite const_digits_snoc, H1, word_base_pow in H4.
    split; cbn [fst snd]; replace (S i - 1)%nat with i by lia; fold k; [done|done|..].
    + rewrite Hc. replace (Z.of_nat (S i) - 126 * Z.of_nat k) with (Z.of_nat (i mod 126) + 1) by lia.
      replace (Z.of_nat i - 126 * Z.of_nat k) with (Z.of_nat (i mod 126)) in H3 by lia.
      rewrite Z.pow_add_r by lia. destruct b; cbn [Z.b2z]; lia.
    + assert (2 ^ Z.of_nat i = 2 ^ (126 * Z.of_nat k) * 2 ^ Z.of_nat (i mod 126)) as Hp
        by (rewrite <- Z.pow_add_r by lia; f_equal; lia).
      rewrite const_digits_snoc, H1, word_base_pow, Hc, Nat2Z.inj_succ. unfold Z.succ.
      rewrite mod_pow2_succ, <- H4, Hp by lia. fold b. ring.
Qed.

Lemma bits_to_words_ok w z D : valid w ->
  let ws := bits_to_words (bigint_to_scalar_bits D z) in
  length ws = S ((D - 1) / 126)%nat /\ word_range (const_digits w ws) /\
  le_sum B (const_digits w ws) = z mod 2 ^ Z.of_nat D.
Proof.
  intros Hv. cbn zeta.
  assert (bits_state w z D (foldl bit_step ([], lc_var VarZero) (imap pair (bigint_to_scalar_bits D z)))) as H.
  { rewrite bigint_to_scalar_bits_spec. induction D as [|D IH].
    - assert (Zmod.to_Z (lc_eval w (lc_var VarZero)) = 0) as Hzero by (rewrite lc_eval_var, (proj2 Hv); apply Zmod.to_Z_0).
      split; cbn [imap foldl seq fmap list_fmap fst snd]; [done|constructor| |].
      + rewrite Hzero. done.
      + rewrite const_digits_snoc, Hzero. cbn. by rewrite Z.mod_1_r.
    - rewrite seq_S, fmap_app, imap_app, foldl_app. cbn [Nat.add fmap list_fmap imap foldl].
      rewrite length_fmap, length_seq. cbn. rewrite Nat.add_0_r. by apply bit_step_ok. }
  unfold bits_to_words. change (fun '(ws, curr_word) => _) with bit_step.
  destruct (foldl bit_step _ _) as [ws c]. destruct H as [H1 H2 H3 H4]. cbn [fst snd] in *. split_and!; [|..|done].
  - rewrite length_app. cbn [length]. lia.
  - rewrite const_digits_app. apply Forall_app. split; [done|]. constructor; [|constructor].
    split; [lia|]. eapply Z.lt_le_trans; [apply H3|]. rewrite word_base. apply Z.pow_le_mono_r; [lia|].
    pose proof (Nat.div_mod (D - 1) 126 ltac:(lia)). pose proof (Nat.mod_upper_bound (D - 1) 126 ltac:(lia)). lia.
Qed.

Lemma padded_digits w l n : valid w -> word_range (const_digits w l) ->
  let k := take n (l ++ replicate n (lc_var VarZero)) in
  length k = n /\ word_range (const_digits w k) /\
  le_sum B (const_digits w k) = le_sum B (const_digits w l) mod B ^ Z.of_nat n.
Proof.
  intros Hv Hl. cbn zeta.
  assert (const_digits w (l ++ replicate n (lc_var VarZero)) = const_digits w l ++ repeat 0 n) as Hd.
  { rewrite const_digits_app. f_equal. unfold const_digits. rewrite !fmap_replicate, lc_eval_var, (proj2 Hv), Zmod.to_Z_0.
    induction n as [|n IH]; [done|]. cbn. by rewrite IH. }
  set (l' := l ++ _) in *. assert (n <= length l')%nat as Hn by (subst l'; rewrite length_app, length_replicate; lia).
  assert (word_range (const_digits w l')) as Hr.
  { rewrite Hd. apply Forall_app. split; [done|]. pose proof word_base_big. clear. induction n; cbn; constructor; [|done].
    by split. }
  assert (word_range (const_digits w (take n l'))) as Ht.
  { unfold const_digits in *. rewrite !fmap_take. by apply Forall_take. }
  split_and!; [by rewrite length_take, Nat.min_l|done|].
  replace (le_sum B (const_digits w l)) with (le_sum B (const_digits w l'))
    by (rewrite Hd, le_sum_app, le_sum_zeros by done; lia).
  rewrite <- (take_drop n l') at 2. rewrite const_digits_app, le_sum_app by done.
  assert (length (const_digits w (take n l')) = n) as Ln
    by (unfold const_digits; rewrite !length_fmap, length_take; lia).
  rewrite Ln, (Z.mul_comm (B ^ _)), Z.mod_add by (apply Z.pow_nonzero; done || lia). symmetry. apply Z.mod_small.
  pose proof (le_sum_range B word_base_big _ Ht) as Hrange. by rewrite Ln in Hrange.
Qed.

Lemma const_digits_inj w l k : word_range (const_digits w l) -> word_range (const_digits w k) ->
  length l = length k -> le_sum B (const_digits w l) = le_sum B (const_digits w k) ->
  lc_eval w <$> l = lc_eval w <$> k.
Proof.
  intros Hl Hk Hlen Hn. apply (f_equal (le_digits B (length l))) in Hn. unfold const_digits in *.
  rewrite <- (length_fmap (lc_eval w)), <- (length_fmap Zmod.to_Z) in Hn. rewrite le_digits_sum in Hn by done.
  rewrite !length_fmap, Hlen, <- (length_fmap (lc_eval w) k), <- (length_fmap Zmod.to_Z) in Hn.
  rewrite le_digits_sum in Hn by done.
  apply (list_fmap_eq_inj Zmod.to_Z) in Hn; [done|]. intros x y. apply Zmod.to_Z_inj.
Qed.

(** The words from the bits are the words of the element, when it has at most [D] bits. *)
Lemma bits_match w a D : valid w -> word_range (const_digits w (words a)) ->
  le_sum B (const_digits w (words a)) < 2 ^ Z.of_nat D ->
  let z := le_sum B (const_digits w (words a)) in
  let n := repr_word_width (Z.shiftl 1 (Z.of_nat D)) in
  lc_eval w <$> take n (bits_to_words (bigint_to_scalar_bits D z) ++ replicate n (lc_var VarZero)) =
  lc_eval w <$> word_iterator a n.
Proof.
  intros Hv Ha Hlt. cbn zeta. rewrite Z.shiftl_1_l. set (z := le_sum B _) in *.
  set (n := repr_word_width _). assert (2 ^ Z.of_nat D < B ^ Z.of_nat n) as Hn.
  { apply repr_word_width_bound. apply Z.pow_nonneg. lia. }
  assert (0 <= z) as Hz by (subst z; by apply le_sum_range).
  destruct (bits_to_words_ok w z D Hv) as (_ & Hb & Nb).
  destruct (padded_digits w _ n Hv Hb) as (L1 & R1 & N1).
  destruct (padded_digits w (words a) n Hv Ha) as (L2 & R2 & N2).
  apply const_digits_inj; [done|done|by rewrite L1; symmetry|]. rewrite N1. unfold word_iterator. rewrite N2, Nb. fold z.
  by rewrite (Z.mod_small z (2 ^ Z.of_nat D)) by lia.
Qed.
End bits.

(** * Results *)

Section results.
  Context {C : ConstraintSystem} {L : ConstraintSystemLaws C} {P : ProverLaws C}.

(** An honest run of [g] satisfies its constraints and returns the canonical element of [z]. *)
Definition evaluates (g : circuit NonNativeElementVar) (s : cs) (fm : FieldMod) (z : Z) : Prop :=
  wp g s (fun e s' K => K /\ reduced s' fm z e).

(** A dishonest prover, with an assignment that agrees on the variables of [s] with that of
    the honest one, satisfies the constraints and obtains the values [ts] for the result. *)
Definition can_return {A} (g : circuit A) (s : cs) (vars : A -> list LinearCombination) (ts : list Scalar) : Prop :=
  exists a s' w, g s = Ret (a, s') /\ sat s' w /\ (forall v, scope s v -> w v = witness s v) /\
    lc_eval w <$> vars a = ts.

Lemma computes_evaluates g s fm z : computes g s fm z -> evaluates g s fm z.
Proof. intros H. apply H. by split. Qed.

Lemma value_const_digits s l : digits s l = const_digits (witness s) l.
Proof. done. Qed.

Lemma bits_to_words_scoped s bits : Forall (lc_scoped s) (bits_to_words bits).
Proof.
  unfold bits_to_words. change (fun '(ws, curr_word) => _) with bit_step. generalize (imap pair bits) as l. intros l.
  assert (forall st, Forall (lc_scoped s) st.1 -> lc_scoped s st.2 ->
    Forall (lc_scoped s) (foldl bit_step st l).1 /\ lc_scoped s (foldl bit_step st l).2) as H.
  { induction l as [|[i b] l IH]; intros [ws c] Hw Hc; [done|]. cbn [foldl fst snd] in *. unfold bit_step at 2 4.
    cbn zeta. destruct (_ && _); cbn beta iota; apply IH; cbn [fst snd]; [|scoped|done|scoped].
    apply Forall_app; split; [done|by constructor]. }
  destruct (H ([], lc_var VarZero)) as [H1 H2]; [constructor|apply scoped_zero|].
  destruct (foldl bit_step _ l) as [ws c]. apply Forall_app. split; [done|by constructor].
Qed.

Lemma wp_element_bits D fm z a s (Q : _ -> cs -> Prop -> Prop) :
  represents s fm z a -> z < 2 ^ Z.of_nat D ->
  (forall vs s' (K : Prop), K -> extends s s' -> Forall (lc_scoped s') (lc_var <$> vs) ->
    value s' <$> (lc_var <$> vs) = bigint_to_scalar_bits D z -> Q vs s' K) ->
  wp (to_bits D a) s Q.
Proof.
  intros [Fa La Ga Na] Hz HQ. unfold to_bits. apply wp_bind, wp_as_bigint. intros K0 HK0. rewrite Na.
  apply wp_bind, wp_mapM_allocate. intros vs s1 K1 HK1 E1 Hvs Vvs.
  pose proof (good_extends s s1 _ E1 Ga) as Ga1.
  set (n := repr_word_width _). apply wp_bind, (wp_mapM_equal id).
  - unfold word_iterator. rewrite !length_take, !length_app, !length_replicate. lia.
  - apply Forall_take, Forall_app. split; [|apply Forall_replicate, scoped_zero]. apply bits_to_words_scoped.
  - rewrite list_fmap_id. apply iterator_scoped, Ga1.
  - intros us s2 K2 E2 HK2. apply wp_ret, HQ; [|extended|by eapply extends_scoped_list|].
    + split_and!; try done. apply HK2. rewrite list_fmap_id.
      assert (good_words s2 (words a)) as [_ Gr] by (by eapply good_extends).
      pose proof (bits_match (witness s2) a D (witness_valid s2) Gr) as Hm. rewrite <- value_const_digits in Hm.
      assert (number s2 (words a) = z) as Hn.
      { rewrite (number_extends s s2), Na by (extended || done). done. }
      rewrite Hn in Hm. by apply Hm.
    + by rewrite (extends_value_list s1 s2).
Qed.

(** Whatever an honest prover has computed, its reduction can be given any words. *)
Lemma reduce_can_return fm (g : circuit NonNativeElementVar) s ts :
  cs_wf s -> honest s -> field_ok fm -> length ts = repr_word_width (modulus fm) ->
  wp g s (fun e s' K => K /\ (repr_word_width (modulus fm) <= length (words e) + 1)%nat /\
    exists z, represents s' fm z e) ->
  can_return (let! e := g in reduce e) s words ts.
Proof.
  intros Hs Hh Hfm Hts Hg. destruct (Hg Hs) as (e & s1 & K & Eg & Hs1 & E1 & HK & HKp & Hw & z & He).
  destruct (wp_reduce fm z e s1 (fun _ _ _ => True) Hfm He Hw) with (2 := Hs1) as (b & s2 & _ & Er & _); [done|].
  destruct He as [<- _ [Hsc _] _].
  destruct (admits_reduce e ts s1 (witness s1) (fun b _ w => lc_eval w <$> words b = ts) Hsc)
    with (a := b) (s' := s2) as (w & _ & Hw' & Hkeep & Ht);
    [apply Hfm|apply witness_valid|done|done|done|by apply HK|done|].
  exists b, s2, w. split_and!; [by unfold c_bind; rewrite Eg|done| |done].
  intros v Hv. rewrite (proj2 (Hkeep v (extends_scope _ _ E1 v Hv))). by apply E1.
Qed.

(** C30: The arithmetic on words is that of the field: run by an honest prover, each operation
    returns without an error, its constraints hold, and the result is the canonical
    representation of the sum, difference, product or inverse modulo the modulus. *)
Theorem nonnative_arithmetic fm s a b x y z :
  field_ok fm -> represents s fm x a -> represents s fm y b -> sized fm a -> sized fm b ->
  0 <= z -> Z.of_nat (repr_word_width z) < 2 ^ 32 ->
  evaluates (add a b) s fm (x + y) /\ evaluates (subtract a b) s fm (x - y) /\
  evaluates (mul a b) s fm (x * y) /\ evaluates (additive_inverse a) s fm (- x) /\
  evaluates (add_bigint a z) s fm (x + z) /\ evaluates (subtract_bigint a z) s fm (x - z) /\
  evaluates (mul_bigint a z) s fm (x * z).
Proof.
  intros Hfm Ha Hb Wa Wb Hz Lz. split_and!; apply computes_evaluates.
  - apply add_computes; try done. apply Wb.
  - by apply subtract_computes.
  - apply mul_computes; try done. apply Wb.
  - by apply additive_inverse_computes.
  - by apply add_bigint_computes.
  - by apply subtract_bigint_computes.
  - by apply mul_bigint_computes.
Qed.

(** In a prime field the inverse of an element is accepted exactly when the element is not
    zero, and it is then its inverse.  The zero test is accepted in the same cases only:
    for zero itself its constraints cannot be met, so that it never answers yes. *)
Theorem nonnative_inverse fm s a x :
  field_ok fm -> Z.prime (modulus fm) -> is_prime fm = true -> represents s fm x a -> sized fm a ->
  wp (invert a) s (fun e s' K =>
    (K <-> x mod modulus fm <> 0) /\
    (K -> exists i, reduced s' fm i e /\ (x * i) mod modulus fm = 1)) /\
  wp (is_zero a) s (fun v _ K => (K <-> x mod modulus fm <> 0) /\ (K -> v = VarZero)).
Proof.
  intros Hfm Hp Hf Ha Wa. split.
  - apply (wp_invert fm Hfm Hp Hf s a x); [done|done|]. intros e s' K E He HK. split; [done|].
    intros H. exists (field_inverse fm x). split; [done|]. by apply field_inverse_ok, HK.
  - apply (wp_is_zero fm Hfm Hp Hf s a x); [done|done|]. intros v s' K E -> HK. split; [done|].
    intros H. apply HK in H. destruct (Z.eqb_spec x 0) as [->|]; [|done]. by rewrite Z.mod_0_l in H.
Qed.

(** C32: The words of a reduction are not range checked, and the last carry of a product is
    dropped: a dishonest prover can make the sum and the product of any two elements come
    out as any words whatsoever. *)
Theorem nonnative_forgeable fm s a b x y ts :
  field_ok fm -> represents s fm x a -> represents s fm y b -> sized fm a -> sized fm b ->
  cs_wf s -> honest s -> length ts = repr_word_width (modulus fm) ->
  can_return (add a b) s words ts /\ can_return (mul a b) s words ts.
Proof.
  intros Hfm [Fa La Ga Na] [Fb Lb Gb Nb] [Wa Sa] [Wb Sb] Hs Hh Hts. split; apply (reduce_can_return fm); try done.
  - apply wp_add_unreduced; [congruence|done|done|]. intros e s' K HK E Fe Le Ge Ne.
    split_and!; [done|lia|]. eexists. split; [congruence|lia|done|done].
  - apply wp_mul_unreduced; [congruence|done|done|rewrite word_base; nia|]. intros e s' K HK E Fe Le Ge Ne.
    split_and!; [done|lia|]. eexists. split; [congruence|lia|done|done].
Qed.

Lemma as_bigint_run e s : cs_wf s -> as_bigint e s = Ret (number s (words e), s).
Proof.
  intros Hs. destruct (wp_as_bigint e s (fun z s' _ => z = number s (words e) /\ s' = s)) as (z & s' & _ & E & _ & _ & _ & -> & ->);
    done.
Qed.

(** The bits of an element are put together from constants and not from the variables
    that are returned: the honest prover obtains the bits of the element, but a dishonest
    one can give the variables any values, not even zeros and ones. *)
Theorem nonnative_bits_unconstrained fm D s a z xs :
  represents s fm z a -> z < 2 ^ Z.of_nat D -> cs_wf s -> honest s -> length xs = D ->
  wp (to_bits D a) s (fun vs s' K => K /\ value s' <$> (lc_var <$> vs) = bigint_to_scalar_bits D z) /\
  can_return (to_bits D a) s (fun vs => lc_var <$> vs) xs.
Proof.
  intros Ha Hz Hs Hh Hxs. split.
  { by apply (wp_element_bits D fm z). }
  destruct (wp_element_bits D fm z a s (fun _ _ _ => True) Ha Hz) with (2 := Hs) as (vs & s' & _ & E & _); [done|].
  assert (admits (to_bits D a) s (witness s) (fun vs _ w => lc_eval w <$> (lc_var <$> vs) = xs)) as Hadm.
  { destruct Ha as [Fa La [Hsc Hr] Na]. apply admits_bind. intros Hwf Hsat z' s1 E1.
    rewrite as_bigint_run, Na in E1 by done. injection E1 as <- <-. exists (witness s).
    split_and!; [done|done|apply keeps_refl|]. cbn zeta.
    apply admits_bind, (admits_mapM_allocate xs); [by rewrite bigint_to_scalar_bits_spec, length_fmap, length_seq|].
    intros us s2 w2 K2 Hus Vus. pose proof (keeps_valid _ _ _ _ K2 (witness_valid s)) as Hv2.
    apply admits_bind, admits_mapM_equal.
    - apply Forall_take, Forall_app. split; [|apply Forall_replicate, scoped_zero].
      apply bits_to_words_scoped.
    - apply iterator_scoped. by eapply keeps_scoped_list.
    - assert (const_digits w2 (words a) = const_digits (witness s) (words a)) as Hd.
      { unfold const_digits. by rewrite (keeps_eval_list s s2 (witness s) w2). }
      pose proof (bits_match w2 a D Hv2) as Hm. rewrite Hd, <- value_const_digits, Na in Hm. by apply Hm.
    - intros ls s3 K3. keep K3. by apply admits_ret. }
  destruct (Hadm Hs Hh vs s' E) as (w & _ & Hw & Hkeep & Ht).
  exists vs, s', w. split_and!; [done|done| |done]. intros v Hv. apply (Hkeep v Hv).
Qed.
End results.

(** * Examples *)

(** A prime of two words *)
Definition sample_field : FieldMod :=
  {| modulus := 19757330305831588566944191468367130476339; is_prime := true |}.

Definition sample_state : cs := with_values [scalar 5; scalar 3; scalar 7; scalar 0].

Definition sample_a : NonNativeElementVar := {| words := [input 0; input 1]; field_mod := sample_field |}.
Definition sample_b : NonNativeElementVar := {| words := [input 2; input 3]; field_mod := sample_field |}.

Lemma sample_field_ok : field_ok sample_field.
Proof. split; vm_compute; reflexivity. Qed.

Lemma sample_good n m : (n < 4)%nat -> (m < 4)%nat -> good_words sample_state [input n; input m].
Proof.
  intros Hn Hm. split.
  - apply Forall_forall. intros a Ha.
    apply list_elem_of_In in Ha as [<-|[<-|[]]]; by apply with_values_scoped, Nat.ltb_lt.
  - do 4 (destruct n as [|n]; [do 4 (destruct m as [|m]; [repeat constructor; vm_compute; done|]); lia|]). lia.
Qed.

Lemma sample_a_represents : represents sample_state sample_field (5 + 3 * 2 ^ 126) sample_a.
Proof. split; [done|done|apply sample_good; lia|by vm_compute]. Qed.

Lemma sample_b_represents : represents sample_state sample_field 7 sample_b.
Proof. split; [done|done|apply sample_good; lia|by vm_compute]. Qed.

Lemma sample_sized e : length (words e) = 2%nat -> sized sample_field e.
Proof. intros H. unfold sized. rewrite H. vm_compute. by split; [repeat constructor|]. Qed.

Lemma nonnative_arithmetic_witness :
  evaluates (mul sample_a sample_b) sample_state sample_field ((5 + 3 * 2 ^ 126) * 7).
Proof.
  apply (nonnative_arithmetic sample_field sample_state sample_a sample_b (5 + 3 * 2 ^ 126) 7 9 sample_field_ok
    sample_a_represents sample_b_represents); [by apply sample_sized..|done|by vm_compute].
Defined.

Lemma nonnative_inverse_witness :
  wp (is_zero sample_b) sample_state
    (fun v _ K => (K <-> 7 mod modulus sample_field <> 0) /\ (K -> v = VarZero)).
Proof.
  apply (nonnative_inverse sample_field sample_state sample_b 7 sample_field_ok prime_cert_134 eq_refl
    sample_b_represents). by apply sample_sized.
Defined.

Lemma nonnative_forgeable_witness :
  can_return (add sample_a sample_b) sample_state words [scalar 1; scalar 2].
Proof.
  apply (nonnative_forgeable sample_field sample_state sample_a sample_b (5 + 3 * 2 ^ 126) 7 [scalar 1; scalar 2]
    sample_field_ok sample_a_represents sample_b_represents); [by apply sample_sized..|scoped|apply with_values_sat|by vm_compute].
Defined.

Lemma nonnative_bits_unconstrained_witness :
  can_return (to_bits 3 sample_b) sample_state (fun vs => lc_var <$> vs) [scalar 8; scalar 9; scalar 10].
Proof.
  apply (nonnative_bits_unconstrained sample_field 3 sample_state sample_b 7 [scalar 8; scalar 9; scalar 10]
    sample_b_represents); [done|scoped|apply with_values_sat|done].
Defined.
