(* ===== verification/Arithmetic.v ===== *)
(** Arithmetic gadgets of the single-prover system:
    circuits/src/zk_gadgets/arithmetic.rs. *)

From Stdlib Require Import Zmod.
From S2P Require Import Prelude Primality Field ConstraintSystem ListR1CS Gates Comparators.

#[local] Open Scope Zmod_scope.
#[local] Open Scope circuit_scope.

Section arithmetic.
  Context {C : ConstraintSystem}.

(** [DivRemGadget::div_rem] *)
Definition div_rem (D : nat) (a_lc b_lc : LinearCombination) : circuit (R1CSVar * R1CSVar) :=
  let! a_eval := eval a_lc in
  let! b_eval := eval b_lc in
  let a_bigint := scalar_to_biguint a_eval in
  let b_bigint := scalar_to_biguint b_eval in
  let '(q, r) :=
    (if b_bigint =? 0 then (0, b_bigint) else (a_bigint / b_bigint, a_bigint mod b_bigint))%Z in
  let! q_var := c_unwrap (allocate (Some (biguint_to_scalar q))) in
  let! r_var := c_unwrap (allocate (Some (biguint_to_scalar r))) in
  let! (_, _, bq) := multiply b_lc q_var in
  constrain (a_lc - bq - r_var)%lc ;;
  constrain_less_than D r_var b_lc ;;
  c_ret (q_var, r_var).

(** [ExpGadget::exp]; the exponent is a [u64], so the recursion, which halves it,
    is at most 64 calls deep. *)
Fixpoint exp_fuel (fuel : nat) (x : LinearCombination) (alpha : Z) : circuit LinearCombination :=
  match fuel with
  | O => fun _ => Panic
  | S fuel' =>
      if (alpha =? 0)%Z then c_ret (lc_scalar 1)
      else if (alpha =? 1)%Z then c_ret x
      else if (alpha mod 2 =? 0)%Z then
        let! recursive_result := exp_fuel fuel' x (alpha / 2)%Z in
        let! (_, _, out_var) := multiply recursive_result recursive_result in
        c_ret (lc_var out_var)
      else
        let! recursive_result := exp_fuel fuel' x ((alpha - 1) / 2)%Z in
        let! (_, _, out_var1) := multiply recursive_result recursive_result in
        let! (_, _, out_var2) := multiply out_var1 x in
        c_ret (lc_var out_var2)
  end.

Definition exp (x : LinearCombination) (alpha : Z) : circuit LinearCombination :=
  exp_fuel 64 x alpha.

(** [ExpGadget::generate_exp_constraints] *)
Definition generate_exp_constraints (x_var y_var : R1CSVar) (alpha : Z) : circuit unit :=
  let! res := exp x_var alpha in
  constrain (res - y_var)%lc.

(** [PrivateExpGadget::all_bits_zero] *)
Definition all_bits_zero (bits : list LinearCombination) : circuit R1CSVar :=
  eq_zero (foldl (fun bit_sum bit => bit_sum + bit)%lc (lc_var VarZero) bits).

(** [PrivateExpGadget::exp_private_fixed_base_impl] *)
Fixpoint exp_private_fixed_base_impl (x : Scalar) (alpha_bits : list R1CSVar)
    : circuit LinearCombination :=
  match alpha_bits with
  | [] => c_ret (lc_scalar 1)
  | is_odd :: rest =>
      let! alpha_zero := all_bits_zero (lc_var <$> alpha_bits) in
      let! recursive_result := exp_private_fixed_base_impl x rest in
      let! (_, _, recursive_doubled) := multiply recursive_result recursive_result in
      let recursive_plus_one := (x *! recursive_doubled)%lc in
      let! odd_bit_selection := select recursive_plus_one recursive_doubled is_odd in
      select VarOne odd_bit_selection alpha_zero
  end.

(** [PrivateExpGadget::exp_private_impl] *)
Fixpoint exp_private_impl (x_lc : LinearCombination) (alpha_bits : list R1CSVar)
    : circuit LinearCombination :=
  match alpha_bits with
  | [] => c_ret (lc_scalar 1)
  | is_odd :: rest =>
      let! alpha_zero := all_bits_zero (lc_var <$> alpha_bits) in
      let! recursive_result := exp_private_impl x_lc rest in
      let! (_, _, recursive_doubled) := multiply recursive_result recursive_result in
      let! (_, _, recursive_plus_one) := multiply x_lc recursive_doubled in
      let! odd_bit_selection := select recursive_plus_one recursive_doubled is_odd in
      select VarOne odd_bit_selection alpha_zero
  end.

(** [PrivateExpGadget::exp_private_fixed_base] and [exp_private] *)
Definition exp_private_fixed_base (ALPHA_BITS : nat) (x : Scalar) (alpha : LinearCombination)
    : circuit LinearCombination :=
  let! alpha_bits := to_bits ALPHA_BITS alpha in
  exp_private_fixed_base_impl x alpha_bits.

Definition exp_private (ALPHA_BITS : nat) (x alpha : LinearCombination)
    : circuit LinearCombination :=
  let! alpha_bits := to_bits ALPHA_BITS alpha in
  exp_private_impl x alpha_bits.
End arithmetic.

(** * Exponentiation *)

Lemma pow_square (x : Scalar) (n : Z) : (0 <= n)%Z -> x ^ n * x ^ n = x ^ (2 * n)%Z.
Proof. intros. rewrite <- Zmod.pow_add_r_nonneg by lia. f_equal. lia. Qed.

Lemma pow_square_odd (x : Scalar) (n : Z) :
  (0 <= n)%Z -> x ^ n * x ^ n * x = x ^ (2 * n + 1)%Z.
Proof.
  intros. rewrite pow_square, Zmod.pow_add_r_nonneg, Zmod.pow_1_r by lia. done.
Qed.

(** A fuel that is enough for an exponent. *)
Definition enough_fuel (fuel : nat) (alpha : Z) : Prop :=
  (0 <= alpha < 2 ^ Z.of_nat fuel)%Z /\ (0 < fuel)%nat.

Lemma enough_fuel_half fuel alpha a' :
  enough_fuel (S fuel) alpha -> (1 < alpha)%Z -> (alpha = 2 * a' \/ alpha = 2 * a' + 1)%Z ->
  enough_fuel fuel a' /\ (0 <= a')%Z.
Proof.
  unfold enough_fuel. rewrite Nat2Z.inj_succ, Z.pow_succ_r by lia. intros [Ha _] H1 H2.
  destruct fuel as [|fuel]; [cbn in Ha; lia|]. lia.
Qed.

(** The two recursive cases of the code. *)
Lemma exp_cases alpha :
  (0 <= alpha)%Z ->
  (alpha = 0 \/ alpha = 1 \/
   (1 < alpha /\ alpha mod 2 = 0 /\ alpha = 2 * (alpha / 2)) \/
   (1 < alpha /\ alpha mod 2 <> 0 /\ alpha = 2 * ((alpha - 1) / 2) + 1))%Z.
Proof. intros. div_lia. Qed.

Ltac exp_case alpha H :=
  destruct (exp_cases alpha H) as [-> | [-> | [(Hgt & Hev & Hhalf) | (Hgt & Hodd & Hhalf)]]];
  [ rewrite Z.eqb_refl
  | change (1 =? 0)%Z with false; change (1 =? 1)%Z with true; cbv iota
  | rewrite (proj2 (Z.eqb_neq alpha 0)), (proj2 (Z.eqb_neq alpha 1)),
      (proj2 (Z.eqb_eq (alpha mod 2) 0)) by lia
  | rewrite (proj2 (Z.eqb_neq alpha 0)), (proj2 (Z.eqb_neq alpha 1)),
      (proj2 (Z.eqb_neq (alpha mod 2) 0)) by lia ].

Section exp_sound.
  Context {C : ConstraintSystem} {L : ConstraintSystemLaws C}.

Lemma exp_fuel_sound fuel : forall x alpha,
  (0 <= alpha)%Z ->
  sound (exp_fuel fuel x alpha) (fun w out => lc_eval w out = lc_eval w x ^ alpha).
Proof.
  induction fuel as [|fuel IH]; intros x alpha Ha; [by intros s a s'|].
  cbn [exp_fuel]. exp_case alpha Ha.
  - sound_step. lc_simpl. by rewrite Zmod.pow_0_r.
  - sound_step. by rewrite Zmod.pow_1_r.
  - eapply sound_bind; [apply IH; lia|]. intros r. sound_step. sound_step.
    intros (? & ? & M) Hr. rewrite lc_eval_var, M, Hr, pow_square by lia. f_equal. lia.
  - eapply sound_bind; [apply IH; lia|]. intros r. do 3 sound_step.
    intros (? & ? & M2) (? & ? & M1) Hr.
    rewrite lc_eval_var, M2, lc_eval_var, M1, Hr, pow_square_odd by lia. f_equal. lia.
Qed.

Lemma exp_sound x alpha :
  (0 <= alpha)%Z ->
  sound (exp x alpha) (fun w out => lc_eval w out = lc_eval w x ^ alpha).
Proof. apply exp_fuel_sound. Qed.
End exp_sound.

Section exp_honest.
  Context {C : ConstraintSystem} {L : ConstraintSystemLaws C} {P : ProverLaws C}.

Lemma wp_exp_fuel fuel : forall x alpha s (Q : LinearCombination -> cs -> Prop -> Prop),
  enough_fuel fuel alpha -> lc_scoped s x ->
  (forall out s' (K : Prop), K -> extends s s' -> lc_scoped s' out ->
    value s' out = value s' x ^ alpha -> Q out s' K) ->
  wp (exp_fuel fuel x alpha) s Q.
Proof.
  induction fuel as [|fuel IH]; intros x alpha s Q Hf Hx HQ; [destruct Hf; lia|].
  assert (0 <= alpha)%Z as Ha by apply Hf. cbn [exp_fuel]. exp_case alpha Ha.
  - apply wp_ret, HQ; [done|scoped|scoped|]. by rewrite value_scalar, Zmod.pow_0_r.
  - apply wp_ret, HQ; [done|scoped|done|]. by rewrite Zmod.pow_1_r.
  - destruct (enough_fuel_half fuel alpha (alpha / 2)) as [Hf' Hpos]; [done|lia|auto|].
    apply wp_bind, IH; [done..|]. intros r s1 K1 HK1 E1 Hr Vr. advance E1.
    apply wp_bind, wp_multiply; [done..|]. intros l2 r2 o s2 E2 _ _ Ho _ _ Vo. advance E2.
    apply wp_ret, HQ; [done|extended|done|].
    rewrite Vo, Vr, pow_square by lia. f_equal. lia.
  - destruct (enough_fuel_half fuel alpha ((alpha - 1) / 2)) as [Hf' Hpos]; [done|lia|auto|].
    apply wp_bind, IH; [done..|]. intros r s1 K1 HK1 E1 Hr Vr. advance E1.
    apply wp_bind, wp_multiply; [done..|]. intros l2 r2 o s2 E2 _ _ Ho _ _ Vo. advance E2.
    apply wp_bind, wp_multiply; [done..|]. intros l3 r3 o3 s3 E3 _ _ Ho3 _ _ Vo3. advance E3.
    apply wp_ret, HQ; [done|extended|done|].
    rewrite Vo3, Vo, Vr, pow_square_odd by lia. f_equal. lia.
Qed.

(** On every [u64] exponent the recursion returns. *)
Lemma wp_exp x alpha s (Q : LinearCombination -> cs -> Prop -> Prop) :
  (0 <= alpha < 2 ^ 64)%Z -> lc_scoped s x ->
  (forall out s' (K : Prop), K -> extends s s' -> lc_scoped s' out ->
    value s' out = value s' x ^ alpha -> Q out s' K) ->
  wp (exp x alpha) s Q.
Proof. intros Ha. apply wp_exp_fuel. split; [done|lia]. Qed.
End exp_honest.

(** * Exponentiation to a private exponent *)

(** The integer with the given little-endian bits. *)
Definition bits_Z (bs : list bool) : Z := le_sum 2 (Z.b2z <$> bs).

Lemma bits_Z_nonneg bs : (0 <= bits_Z bs)%Z.
Proof.
  induction bs as [|b bs IH]; [done|]. unfold bits_Z in *. cbn [fmap list_fmap le_sum].
  destruct b; cbn; lia.
Qed.

Lemma bits_Z_cons b bs : bits_Z (b :: bs) = (Z.b2z b + 2 * bits_Z bs)%Z.
Proof. done. Qed.

Lemma bits_Z_zero bs : bits_Z bs = 0%Z <-> Forall (fun b => b = false) bs.
Proof.
  induction bs as [|b bs IH]; [split; auto|]. rewrite bits_Z_cons, Forall_cons, <- IH.
  pose proof (bits_Z_nonneg bs). destruct b; cbn; split; intros; try lia; naive_solver lia.
Qed.

(** The sum of a list of bits counts the ones. *)
Lemma sum_bits bs :
  foldr Zmod.add 0 (bit_scalar <$> bs) = scalar (Z.of_nat (length (filter (fun b => b = true) bs))).
Proof.
  induction bs as [|b bs IH]; [done|]. rewrite fmap_cons, filter_cons. cbn [foldr].
  rewrite IH. destruct b.
  - rewrite decide_True by done. cbn [length]. rewrite Nat2Z.inj_succ.
    rewrite <- Z.add_1_l, Zmod.of_Z_add. done.
  - rewrite decide_False by done. apply Zmod.add_0_l.
Qed.

Lemma filter_true_nil bs :
  length (filter (fun b => b = true) bs) = 0%nat <-> Forall (fun b => b = false) bs.
Proof.
  rewrite length_zero_iff_nil. induction bs as [|b bs IH]; [split; auto|].
  rewrite filter_cons, Forall_cons, <- IH. destruct b.
  - rewrite decide_True by done. naive_solver.
  - rewrite decide_False by done. naive_solver.
Qed.

Section private_exp_honest.
  Context {C : ConstraintSystem} {L : ConstraintSystemLaws C} {P : ProverLaws C}.

Lemma scoped_foldl_add s l a :
  lc_scoped s a -> Forall (lc_scoped s) l ->
  lc_scoped s (foldl (fun acc x => acc + x)%lc a l).
Proof.
  revert a; induction l as [|x l IH]; intros a Ha Hl; [done|].
  apply Forall_cons in Hl as [Hx Hl]. apply IH; [scoped|done].
Qed.

Lemma wp_all_bits_zero bits bs s (Q : R1CSVar -> cs -> Prop -> Prop) :
  (Z.of_nat (length bs) < ristretto_order)%Z ->
  Forall (lc_scoped s) bits -> value s <$> bits = bit_scalar <$> bs ->
  (forall out s' (K : Prop), K -> extends s s' -> lc_scoped s' (lc_var out) ->
    value s' out = bit_scalar (bool_decide (bits_Z bs = 0%Z)) -> Q out s' K) ->
  wp (all_bits_zero bits) s Q.
Proof.
  intros Hlen Hb Vb HQ. apply wp_eq_zero; [by apply scoped_foldl_add; scoped || done|].
  intros out s' K HK E Ho V. advance E. apply HQ; [done..|]. rewrite V. f_equal.
  apply bool_decide_ext. unfold value at 1. rewrite lc_eval_sum.
  fold (value s' VarZero). rewrite value_zero.
  change (lc_eval (witness s') <$> bits) with (value s' <$> bits).
  rewrite Vb, sum_bits, Zmod.add_0_l, bits_Z_zero.
  pose proof (length_filter (fun b => b = true) bs).
  rewrite scalar_count_zero by lia. apply filter_true_nil.
Qed.

(** The value that a run on the remaining bits must give. *)
Lemma exp_bits_step (x r : Scalar) b bs :
  r = x ^ bits_Z bs ->
  (if bool_decide (bits_Z (b :: bs) = 0%Z) then 1 else
     if b then x * (r * r) else r * r) = x ^ bits_Z (b :: bs).
Proof.
  intros ->. pose proof (bits_Z_nonneg bs). rewrite pow_square by done.
  case_bool_decide as Hz.
  - by rewrite Hz, Zmod.pow_0_r.
  - rewrite bits_Z_cons. destruct b; cbn [Z.b2z]; [|f_equal; lia].
    rewrite Zmod.pow_add_r_nonneg, Zmod.pow_1_r by lia. done.
Qed.

Lemma wp_exp_private_impl x bits : forall bs s (Q : LinearCombination -> cs -> Prop -> Prop),
  (Z.of_nat (length bs) < ristretto_order)%Z -> lc_scoped s x ->
  Forall (lc_scoped s) (vars bits) -> value s <$> vars bits = bit_scalar <$> bs ->
  (forall out s' (K : Prop), K -> extends s s' -> lc_scoped s' out ->
    value s' out = value s' x ^ bits_Z bs -> Q out s' K) ->
  wp (exp_private_impl x bits) s Q.
Proof.
  induction bits as [|v bits IH]; intros [|b bs] s Q Hlen Hx Hb Vb HQ; try done;
    cbn [exp_private_impl].
  - apply wp_ret, HQ; [done|scoped|scoped|]. by rewrite value_scalar, Zmod.pow_0_r.
  - apply wp_bind, (wp_all_bits_zero _ (b :: bs)); [done|done|done|].
    intros vz s1 K1 HK1 E1 Hvz Vz. advance E1.
    apply Forall_cons in Hb as [Hv Hb]. cbn [vars fmap list_fmap] in Vb.
    injection Vb as Vv Vb. apply wp_bind, (IH bs); [cbn in Hlen; lia|done|done|done|].
    intros r s2 K2 HK2 E2 Hr Vr. advance E2.
    apply wp_bind, wp_multiply; [done..|]. intros ? ? d s3 E3 _ _ Hd _ _ Vd. advance E3.
    apply wp_bind, wp_multiply; [done..|]. intros ? ? p s4 E4 _ _ Hp _ _ Vp. advance E4.
    apply wp_bind, (wp_select_bit _ _ _ _ b); [done..|].
    intros o s5 K5 HK5 E5 Ho Vo. advance E5.
    apply (wp_select_bit _ _ _ _ (bool_decide (bits_Z (b :: bs) = 0%Z))); [scoped|done..|].
    intros out s6 K6 HK6 E6 Hout Vout. advance E6.
    apply HQ; [done|extended|done|].
    rewrite <- (exp_bits_step _ _ b bs Vr), Vout. case_bool_decide; [by rewrite value_one|].
    rewrite Vo. destruct b; [rewrite Vp|]; by rewrite Vd.
Qed.

Lemma wp_exp_private_fixed_base_impl x bits :
  forall bs s (Q : LinearCombination -> cs -> Prop -> Prop),
  (Z.of_nat (length bs) < ristretto_order)%Z ->
  Forall (lc_scoped s) (vars bits) -> value s <$> vars bits = bit_scalar <$> bs ->
  (forall out s' (K : Prop), K -> extends s s' -> lc_scoped s' out ->
    value s' out = x ^ bits_Z bs -> Q out s' K) ->
  wp (exp_private_fixed_base_impl x bits) s Q.
Proof.
  induction bits as [|v bits IH]; intros [|b bs] s Q Hlen Hb Vb HQ; try done;
    cbn [exp_private_fixed_base_impl].
  - apply wp_ret, HQ; [done|scoped|scoped|]. by rewrite value_scalar, Zmod.pow_0_r.
  - apply wp_bind, (wp_all_bits_zero _ (b :: bs)); [done|done|done|].
    intros vz s1 K1 HK1 E1 Hvz Vz. advance E1.
    apply Forall_cons in Hb as [Hv Hb]. cbn [vars fmap list_fmap] in Vb.
    injection Vb as Vv Vb. apply wp_bind, (IH bs); [cbn in Hlen; lia|done|done|].
    intros r s2 K2 HK2 E2 Hr Vr. advance E2.
    apply wp_bind, wp_multiply; [done..|]. intros ? ? d s3 E3 _ _ Hd _ _ Vd. advance E3.
    apply wp_bind, (wp_select_bit _ _ _ _ b); [scoped|done..|].
    intros o s5 K5 HK5 E5 Ho Vo. rewrite value_scale in Vo. advance E5.
    apply (wp_select_bit _ _ _ _ (bool_decide (bits_Z (b :: bs) = 0%Z))); [scoped|done..|].
    intros out s6 K6 HK6 E6 Hout Vout. advance E6.
    apply HQ; [done|extended|done|].
    rewrite <- (exp_bits_step _ _ b bs Vr), Vout. case_bool_decide; [by rewrite value_one|].
    rewrite Vo. destruct b; by rewrite Vd.
Qed.

(** The bits of an exponent that fits, as booleans. *)
Definition exponent_bits (alpha : Scalar) (D : nat) : list bool :=
  (fun i : nat => Z.testbit (Zmod.to_Z alpha) (Z.of_nat i)) <$> seq 0 D.

Lemma exponent_bits_spec alpha D : (D <= 256)%nat ->
  take D (scalar_to_bits_le alpha) = bit_scalar <$> exponent_bits alpha D.
Proof.
  intros HD. rewrite scalar_to_bits_le_spec, <- fmap_take, take_seq, Nat.min_l by done.
  unfold exponent_bits. by rewrite <- list_fmap_compose.
Qed.

Lemma le_sum_testbit z n :
  le_sum 2 (Z.b2z <$> ((fun i : nat => Z.testbit z (Z.of_nat i)) <$> seq 0 n)) =
  (z mod 2 ^ Z.of_nat n)%Z.
Proof.
  induction n as [|n IH]; [by rewrite Z.mod_1_r|].
  rewrite seq_S, !fmap_app, le_sum_app, IH, !length_fmap, length_seq by lia.
  cbn [fmap list_fmap le_sum]. rewrite Nat.add_0_l, Nat2Z.inj_succ, <- Z.add_1_r.
  rewrite Z.pow_add_r, Z.rem_mul_r, <- Z.shiftr_div_pow2 by lia. change (2 ^ 1)%Z with 2%Z.
  rewrite <- (Z.bit0_mod (Z.shiftr z (Z.of_nat n))), Z.shiftr_spec by lia.
  rewrite Z.add_0_l. lia.
Qed.

Lemma exponent_bits_Z alpha D :
  (Zmod.to_Z alpha < 2 ^ Z.of_nat D)%Z -> bits_Z (exponent_bits alpha D) = Zmod.to_Z alpha.
Proof.
  intros H. pose proof (scalar_range alpha). unfold bits_Z, exponent_bits.
  rewrite le_sum_testbit. apply Z.mod_small. lia.
Qed.

(** An honest prover obtains the power, and its proof verifies exactly when the
    exponent has at most [ALPHA_BITS] bits. *)
Lemma wp_exp_private D x alpha s (Q : LinearCombination -> cs -> Prop -> Prop) :
  (D <= 256)%nat -> lc_scoped s x -> lc_scoped s alpha ->
  (forall out s' (K : Prop), extends s s' -> lc_scoped s' out ->
    (K <-> Zmod.to_Z (value s' alpha) < 2 ^ Z.of_nat D)%Z ->
    (K -> value s' out = value s' x ^ Zmod.to_Z (value s' alpha)) -> Q out s' K) ->
  wp (exp_private D x alpha) s Q.
Proof.
  intros HD Hx Ha HQ. apply wp_bind, wp_to_bits; [done..|].
  intros bits s1 K1 E1 Hb Vb HK1. advance E1. rewrite exponent_bits_spec in Vb by done.
  assert (length (exponent_bits (value s1 alpha) D) = D) as Hlen
    by (unfold exponent_bits; by rewrite length_fmap, length_seq).
  assert (256 < ristretto_order)%Z by done.
  apply (wp_exp_private_impl x bits (exponent_bits (value s1 alpha) D)); [lia|done..|].
  intros out s2 K2 HK2 E2 Ho Vo. advance E2. apply HQ; [extended|done|tauto|].
  intros [Hfit _]. rewrite Vo, exponent_bits_Z by tauto. done.
Qed.

Lemma wp_exp_private_fixed_base D x alpha s (Q : LinearCombination -> cs -> Prop -> Prop) :
  (D <= 256)%nat -> lc_scoped s alpha ->
  (forall out s' (K : Prop), extends s s' -> lc_scoped s' out ->
    (K <-> Zmod.to_Z (value s' alpha) < 2 ^ Z.of_nat D)%Z ->
    (K -> value s' out = x ^ Zmod.to_Z (value s' alpha)) -> Q out s' K) ->
  wp (exp_private_fixed_base D x alpha) s Q.
Proof.
  intros HD Ha HQ. apply wp_bind, wp_to_bits; [done..|].
  intros bits s1 K1 E1 Hb Vb HK1. advance E1. rewrite exponent_bits_spec in Vb by done.
  assert (length (exponent_bits (value s1 alpha) D) = D) as Hlen
    by (unfold exponent_bits; by rewrite length_fmap, length_seq).
  assert (256 < ristretto_order)%Z by done.
  apply (wp_exp_private_fixed_base_impl x bits (exponent_bits (value s1 alpha) D));
    [lia|done..|].
  intros out s2 K2 HK2 E2 Ho Vo. advance E2. apply HQ; [extended|done|tauto|].
  intros [Hfit _]. rewrite Vo, exponent_bits_Z by tauto. done.
Qed.
End private_exp_honest.

(** * Division *)

(** The remainder of a division is below the divisor, and the comparison sees it
    as long as the divisor is below [p - 2^D]. *)
Lemma remainder_wraps (r b : Scalar) (D : nat) :
  (Zmod.to_Z r < Zmod.to_Z b)%Z -> (Zmod.to_Z b + 2 ^ Z.of_nat D <= ristretto_order)%Z ->
  ~ (Zmod.to_Z (r - b)%Zmod < 2 ^ Z.of_nat D)%Z.
Proof.
  intros Hrb Hb. pose proof (scalar_range r). pose proof (scalar_range b).
  rewrite Zmod.unsigned_sub, <- (Z.mod_add _ 1), Z.mod_small by (done || lia). lia.
Qed.

(** Quotient and remainder the prover computes outside of the circuit. *)
Definition honest_quotient (a b : Scalar) : Z * Z :=
  (if Zmod.to_Z b =? 0 then (0, Zmod.to_Z b)
   else (Zmod.to_Z a / Zmod.to_Z b, Zmod.to_Z a mod Zmod.to_Z b))%Z.

Definition division (a b q r : Scalar) : Prop :=
  (Zmod.to_Z q = Zmod.to_Z a / Zmod.to_Z b /\ Zmod.to_Z r = Zmod.to_Z a mod Zmod.to_Z b)%Z.

Lemma honest_quotient_spec a b q r : honest_quotient a b = (q, r) -> b <> 0 ->
  division a b (biguint_to_scalar q) (biguint_to_scalar r) /\
  a - b * biguint_to_scalar q - biguint_to_scalar r = 0 /\
  (Zmod.to_Z (biguint_to_scalar r) < Zmod.to_Z b)%Z.
Proof.
  unfold honest_quotient, division. intros H Hb.
  assert (Zmod.to_Z b <> 0%Z) as Hb0 by (intros H0; by apply Hb, Zmod.unsigned_inj).
  pose proof (scalar_range a). pose proof (scalar_range b).
  destruct (Z.eqb_spec (Zmod.to_Z b) 0) as [|_]; [done|]. injection H as <- <-.
  assert (0 <= Zmod.to_Z a mod Zmod.to_Z b < Zmod.to_Z b)%Z by (apply Z.mod_pos_bound; lia).
  assert (0 <= Zmod.to_Z a / Zmod.to_Z b <= Zmod.to_Z a)%Z.
  { split; [apply Z.div_pos; lia|]. apply Z.div_le_upper_bound; nia. }
  assert (ristretto_order < 2 ^ 256)%Z by done.
  rewrite !biguint_to_scalar_small, !to_Z_small by lia. split_and!; try lia.
  transitivity (a - (b * scalar (Zmod.to_Z a / Zmod.to_Z b) + scalar (Zmod.to_Z a mod Zmod.to_Z b)));
    [ring|]. apply scalar_sub_zero, scalar_eq_iff.
  rewrite Zmod.to_Z_add, Zmod.to_Z_mul, !to_Z_small, Zplus_mod_idemp_l by lia.
  rewrite <- Z.div_mod, Z.mod_small by lia. done.
Qed.

Lemma honest_quotient_zero a b q r : honest_quotient a b = (q, r) -> b = 0 ->
  biguint_to_scalar r - b = 0.
Proof. unfold honest_quotient. intros H ->. cbn in H. injection H as <- <-. by vm_compute. Qed.

Section div_rem_honest.
  Context {C : ConstraintSystem} {L : ConstraintSystemLaws C} {P : ProverLaws C}.

Lemma wp_constrain_less_than D a b s (Q : unit -> cs -> Prop -> Prop) :
  (D <= POSITIVE_SCALAR_MAX_BITS)%nat -> lc_scoped s a -> lc_scoped s b ->
  (forall s' (K : Prop), extends s s' ->
    (K <-> ~ (Zmod.to_Z (value s' a - value s' b)%Zmod < 2 ^ Z.of_nat D)%Z) -> Q tt s' K) ->
  wp (constrain_less_than D a b) s Q.
Proof.
  intros HD Ha Hb HQ. apply wp_bind, wp_bind, wp_greater_than_zero; [done|scoped|].
  intros v s1 K1 HK1 E1 Hv Vv. rewrite value_sub in Vv. advance E1.
  apply wp_ret, wp_constrain; [scoped|]. intros s2 E2. value_simpl. advance E2.
  apply HQ; [extended|]. rewrite Vv.
  case_bool_decide as Hlt; unfold bit_scalar; split; [|tauto| |].
  - intros [_ H] _. apply scalar_one_neq_zero. rewrite <- H. ring.
  - done.
  - intros _. split; [tauto|]. ring.
Qed.

(** An honest run of the division returns quotient and remainder of the
    canonical representatives, and verifies unless the divisor is zero. *)
Lemma wp_div_rem D a b s (Q : R1CSVar * R1CSVar -> cs -> Prop -> Prop) :
  (D <= POSITIVE_SCALAR_MAX_BITS)%nat -> lc_scoped s a -> lc_scoped s b ->
  (Zmod.to_Z (value s b) + 2 ^ Z.of_nat D <= ristretto_order)%Z ->
  (forall (q r : R1CSVar) s' (K : Prop), extends s s' -> lc_scoped s' q -> lc_scoped s' r ->
    (K <-> value s' b <> 0) ->
    (value s' b <> 0 -> division (value s' a) (value s' b) (value s' q) (value s' r)) ->
    Q (q, r) s' K) ->
  wp (div_rem D a b) s Q.
Proof.
  intros HD Ha Hb Hrange HQ. apply wp_bind, wp_eval, wp_bind, wp_eval. cbn zeta.
  rewrite !scalar_to_biguint_spec.
  pose proof (honest_quotient_spec (value s a) (value s b)) as Hspec.
  pose proof (honest_quotient_zero (value s a) (value s b)) as Hzero.
  fold (honest_quotient (value s a) (value s b)).
  destruct (honest_quotient (value s a) (value s b)) as [q r].
  specialize (Hspec q r eq_refl). specialize (Hzero q r eq_refl).
  apply wp_bind, wp_unwrap, wp_allocate. intros qv s1 E1 Hq Vq _. advance E1.
  apply wp_bind, wp_unwrap, wp_allocate. intros rv s2 E2 Hr Vr _. advance E2.
  apply wp_bind, wp_multiply; [done..|]. intros ? ? bq s3 E3 _ _ Hbq _ _ Vbq. advance E3.
  apply wp_bind, wp_constrain; [scoped|]. intros s4 E4. value_simpl. advance E4.
  apply wp_bind, wp_constrain_less_than; [done..|]. intros s5 K E5 HK. advance E5.
  apply wp_ret, HQ; [extended|done..| |].
  - rewrite Vbq, Vq, Vr in *. split.
    + intros (_ & _ & _ & _ & _ & _ & Hlt & _) Hb0. apply HK in Hlt. apply Hlt.
      rewrite Hzero by done. change (0 < 2 ^ Z.of_nat D)%Z. lia.
    + intros Hb0. destruct (Hspec Hb0) as (_ & Heq & Hlt).
      split_and!; try done. apply HK. by apply remainder_wraps.
  - rewrite Vq, Vr. intros Hb0. by apply Hspec.
Qed.
End div_rem_honest.

Section div_rem_forge.
  Context {C : ConstraintSystem} {L : ConstraintSystemLaws C}.

Lemma forge_constrain_less_than D a b s w (Q : unit -> cs -> assignment -> Prop) :
  (0 < D <= POSITIVE_SCALAR_MAX_BITS)%nat -> lc_scoped s a -> lc_scoped s b ->
  (forall s' w', keeps s s' w w' -> Q tt s' w') ->
  forge (constrain_less_than D a b) s w Q.
Proof.
  intros HD Ha Hb HQ. apply forge_bind, forge_bind, (forge_greater_than_eq false); [done..|].
  intros out s1 w1 Hk1 Hout Vout. apply forge_ret, forge_constrain; [scoped| |].
  - intros Hw. rewrite !lc_eval_sub, Vout. lc_simpl. unfold bit_scalar. ring.
  - intros s2 Hk2. apply HQ. by eapply keeps_trans.
Qed.

(** Any quotient and remainder with [a = b q + r] can be proved, however large
    the remainder. *)
Lemma forge_div_rem (q r : Scalar) D a b s w (Q : R1CSVar * R1CSVar -> cs -> assignment -> Prop) :
  (0 < D <= POSITIVE_SCALAR_MAX_BITS)%nat -> lc_scoped s a -> lc_scoped s b ->
  lc_eval w a = lc_eval w b * q + r ->
  (forall (qv rv : R1CSVar) s' w', keeps s s' w w' -> lc_scoped s' qv -> lc_scoped s' rv ->
    lc_eval w' qv = q -> lc_eval w' rv = r -> Q (qv, rv) s' w') ->
  forge (div_rem D a b) s w Q.
Proof.
  intros HD Ha Hb Hqr HQ. apply forge_bind, forge_eval. intros za.
  apply forge_bind, forge_eval. intros zb. cbn zeta. destruct (if (_ =? 0)%Z then _ else _).
  apply forge_bind, forge_unwrap, (forge_allocate q). intros qv s1 w1 Hk1 Hq Vq. keep Hk1.
  apply forge_bind, forge_unwrap, (forge_allocate r). intros rv s2 w2 Hk2 Hr Vr. keep Hk2.
  apply forge_bind, forge_multiply; [done..|]. intros ? ? o s3 w3 Hk3 _ _ Ho Vo. keep Hk3.
  apply forge_bind, forge_constrain; [scoped| |].
  { intros _. rewrite !lc_eval_sub, Vo, Vq, Vr, Hqr. ring. }
  intros s4 Hk4. keep Hk4. apply forge_bind, forge_constrain_less_than; [done..|].
  intros s5 w5 Hk5. keep Hk5. apply forge_ret, HQ; try done.
  eauto 10 using keeps_trans.
Qed.
End div_rem_forge.

(** * Properties *)

Section properties.
  Context {C : ConstraintSystem} {L : ConstraintSystemLaws C} {P : ProverLaws C}.

(** Exponentiation by a public [u64] is correct on both sides: every
    satisfying assignment gives the output the value [x^alpha], and an honest run
    terminates, verifies and computes it. *)
Theorem exp_correct x alpha :
  (0 <= alpha < 2 ^ 64)%Z ->
  sound (exp x alpha) (fun w out => lc_eval w out = lc_eval w x ^ alpha) /\
  forall s, lc_scoped s x -> wp (exp x alpha) s (fun out s' K =>
    K /\ value s' out = value s' x ^ alpha).
Proof.
  intros Ha. split; [apply exp_sound; lia|]. intros s Hx. apply wp_exp; auto.
Qed.

(** An honest run of the exponentiation with a private exponent verifies
    exactly when the exponent has at most [D] bits, and then computes the power. *)
Theorem exp_private_correct D x alpha s :
  (D <= 256)%nat -> lc_scoped s x -> lc_scoped s alpha ->
  wp (exp_private D x alpha) s (fun out s' K =>
    (K <-> Zmod.to_Z (value s' alpha) < 2 ^ Z.of_nat D)%Z /\
    (K -> value s' out = value s' x ^ Zmod.to_Z (value s' alpha))).
Proof. intros HD Hx Ha. apply wp_exp_private; auto. Qed.

(** With a public base the private exponentiation computes the same power. *)
Theorem exp_private_fixed_base_correct D x alpha s :
  (D <= 256)%nat -> lc_scoped s alpha ->
  wp (exp_private_fixed_base D x alpha) s (fun out s' K =>
    (K <-> Zmod.to_Z (value s' alpha) < 2 ^ Z.of_nat D)%Z /\
    (K -> value s' out = x ^ Zmod.to_Z (value s' alpha))).
Proof. intros HD Ha. apply wp_exp_private_fixed_base; auto. Qed.

(** An honest division of canonical representatives verifies exactly when
    the divisor is not zero, and then returns quotient and remainder. *)
Theorem div_rem_honest D a b s :
  (D <= POSITIVE_SCALAR_MAX_BITS)%nat -> lc_scoped s a -> lc_scoped s b ->
  (Zmod.to_Z (value s b) + 2 ^ Z.of_nat D <= ristretto_order)%Z ->
  wp (div_rem D a b) s (fun '(q, r) s' K => (K <-> value s' b <> 0) /\
    (value s' b <> 0 -> division (value s' a) (value s' b) (value s' q) (value s' r))).
Proof. intros. apply wp_div_rem; auto. Qed.

(** The division gadget does not determine its result: any quotient and
    remainder with [a = b q + r] can be proved, however large the remainder. *)
Theorem div_rem_forgeable (q r : Scalar) D a b s w :
  (0 < D <= POSITIVE_SCALAR_MAX_BITS)%nat -> lc_scoped s a -> lc_scoped s b ->
  lc_eval w a = lc_eval w b * q + r ->
  forge (div_rem D a b) s w (fun '(qv, rv) _ w' => w' qv = q /\ w' rv = r).
Proof.
  intros. apply (forge_div_rem q r); [done..|]. intros qv rv s' w' _ _ _ Eq Er.
  by rewrite !lc_eval_var in *.
Qed.
End properties.

(** ** Witnesses, in the concrete system *)

Lemma exp_correct_witness :
  cs_wf (with_values [scalar 3]) /\
  wp (exp (input 0) 10) (with_values [scalar 3]) (fun out s' K =>
    K /\ value s' out = value s' (input 0) ^ 10).
Proof. split; [scoped|]. apply (exp_correct (input 0) 10); [lia|scoped]. Defined.

Lemma exp_private_correct_witness :
  let s := with_values [scalar 3; scalar 10] in
  cs_wf s /\
  wp (exp_private 8 (input 0) (input 1)) s (fun out s' K =>
    (K <-> Zmod.to_Z (value s' (input 1)) < 2 ^ Z.of_nat 8)%Z /\
    (K -> value s' out = value s' (input 0) ^ Zmod.to_Z (value s' (input 1)))).
Proof.
  split; [scoped|]. apply (exp_private_correct 8 (input 0) (input 1)); [lia|scoped|scoped].
Defined.

Lemma exp_private_fixed_base_correct_witness :
  let s := with_values [scalar 10] in
  cs_wf s /\
  wp (exp_private_fixed_base 8 (scalar 3) (input 0)) s (fun out s' K =>
    (K <-> Zmod.to_Z (value s' (input 0)) < 2 ^ Z.of_nat 8)%Z /\
    (K -> value s' out = scalar 3 ^ Zmod.to_Z (value s' (input 0)))).
Proof.
  split; [scoped|]. apply (exp_private_fixed_base_correct 8 (scalar 3) (input 0)); [lia|scoped].
Defined.

Lemma div_rem_honest_witness :
  let s := with_values [scalar 17; scalar 5] in
  cs_wf s /\
  wp (div_rem 32 (input 0) (input 1)) s (fun '(q, r) s' K =>
    (K <-> value s' (input 1) <> 0) /\
    (value s' (input 1) <> 0 ->
      division (value s' (input 0)) (value s' (input 1)) (value s' q) (value s' r))).
Proof.
  split; [scoped|]. apply (div_rem_honest 32 (input 0) (input 1));
    [by apply Nat.leb_le|scoped|scoped|by vm_compute].
Defined.

(** The prover divides 17 by 5 with quotient 0 and remainder 17. *)
Lemma div_rem_forgeable_witness :
  let s := with_values [scalar 17; scalar 5] in
  cs_wf s /\ sat s (wire_value s) /\
  forge (div_rem 32 (input 0) (input 1)) s (wire_value s)
    (fun '(qv, rv) _ w' => w' qv = 0 /\ w' rv = scalar 17).
Proof.
  split_and!; [scoped..|]. apply (div_rem_forgeable 0 (scalar 17) 32 (input 0) (input 1));
    [split; by apply Nat.leb_le|scoped|scoped|by apply Zmod.to_Z_inj; vm_compute].
Defined.
