(* ===== verification/Edwards.v ===== *)
(** Arithmetic on twisted Edwards curves over a non-native field:
    circuits/src/zk_gadgets/edwards.rs. *)

From Stdlib Require Import Zmod Zdiv.
From S2P Require Import Prelude Primality Field ConstraintSystem ListR1CS Gates Comparators NonNative.
From S2P Require Import NonNativeProperties Arithmetic.

Import NonNativeElementVar.

#[local] Open Scope Z_scope.
#[local] Open Scope circuit_scope.

(** * Gadgets *)

Record TwistedEdwardsCurve := { curve_a : Z; curve_d : Z }.

Module EdwardsPoint.
Section points.
  Context {C : ConstraintSystem}.

Record EdwardsPoint := { x : NonNativeElementVar; y : NonNativeElementVar }.

(** [commit_witness], [commit_public] *)
Definition commit_witness (px py : Z) (fm : FieldMod) : circuit EdwardsPoint :=
  let! x_var := NonNativeElementVar.commit_witness px fm in
  let! y_var := NonNativeElementVar.commit_witness py fm in
  c_ret {| x := x_var; y := y_var |}.

Definition commit_public (px py : Z) (fm : FieldMod) : circuit EdwardsPoint :=
  let! x_var := NonNativeElementVar.commit_public px fm in
  let! y_var := NonNativeElementVar.commit_public py fm in
  c_ret {| x := x_var; y := y_var |}.

(** [field_mod] *)
Definition point_field (self : EdwardsPoint) : FieldMod := field_mod (x self).

(** [new_from_bigints], [zero] *)
Definition new_from_bigints (px py : Z) (fm : FieldMod) : circuit EdwardsPoint :=
  let! x_nonnative := from_bigint px fm in
  let! y_nonnative := from_bigint py fm in
  c_ret {| x := x_nonnative; y := y_nonnative |}.

Definition zero (fm : FieldMod) : circuit EdwardsPoint := new_from_bigints 0 1 fm.

(** [get_affine_coordinates] *)
Definition get_affine_coordinates (self : EdwardsPoint) : circuit (Z * Z) :=
  let! x_bigint := as_bigint (x self) in
  let! y_bigint := as_bigint (y self) in
  c_ret (x_bigint, y_bigint).

(** [cond_select] *)
Definition cond_select (selector : LinearCombination) (pt1 pt2 : EdwardsPoint) : circuit EdwardsPoint :=
  let! px := NonNativeElementVar.cond_select selector (x pt1) (x pt2) in
  let! py := NonNativeElementVar.cond_select selector (y pt1) (y pt2) in
  c_ret {| x := px; y := py |}.

(** [constrain_equal]: both constraints are on the first coordinate. *)
Definition constrain_equal (pt1 pt2 : EdwardsPoint) : circuit unit :=
  NonNativeElementVar.constrain_equal (x pt1) (x pt2) ;;
  NonNativeElementVar.constrain_equal (x pt1) (x pt2).
End points.
End EdwardsPoint.

Import EdwardsPoint.

Section curve.
  Context {C : ConstraintSystem} (self : TwistedEdwardsCurve).

(** [add_points] *)
Definition add_points (lhs rhs : EdwardsPoint) : circuit EdwardsPoint :=
  let! x1y2 := mul (x lhs) (y rhs) in
  let! x2y1 := mul (y lhs) (x rhs) in
  let! x1x2y1y2 := mul x1y2 x2y1 in
  let! dx1x2y1y2 := mul_bigint x1x2y1y2 (curve_d self) in
  let! denom_x3 := add_bigint dx1x2y1y2 1 in
  let! num_x3 := add x1y2 x2y1 in
  let! denom_x3_inv := invert denom_x3 in
  let! x3 := mul num_x3 denom_x3_inv in
  let! y1y2 := mul (y lhs) (y rhs) in
  let! x1x2 := mul (x lhs) (x rhs) in
  let! ax1x2 := mul_bigint x1x2 (curve_a self) in
  let! numerator := subtract y1y2 ax1x2 in
  let! denom_term_inv := additive_inverse dx1x2y1y2 in
  let! denom := add_bigint denom_term_inv 1 in
  let! denom_inv := invert denom in
  let! y3 := mul numerator denom_inv in
  c_ret {| x := x3; y := y3 |}.

(** [all_bits_zero] *)
Definition scalar_bits_zero (bits : list R1CSVar) : circuit R1CSVar :=
  eq_zero (foldl (fun bit_sum bit => bit_sum + bit)%lc (lc_var VarZero) (lc_var <$> bits)).

(** [scalar_mul_impl] *)
Fixpoint scalar_mul_impl (ec_point : EdwardsPoint) (scalar_bits : list R1CSVar) : circuit EdwardsPoint :=
  match scalar_bits with
  | [] => zero (point_field ec_point)
  | is_odd :: rest =>
      let! recursive_result := scalar_mul_impl ec_point rest in
      let! doubled_recursive_res := add_points recursive_result recursive_result in
      let! identity := zero (point_field ec_point) in
      let! additive_term := EdwardsPoint.cond_select is_odd ec_point identity in
      let! res := add_points doubled_recursive_res additive_term in
      let! zero_mask := scalar_bits_zero scalar_bits in
      EdwardsPoint.cond_select zero_mask identity res
  end.

(** [scalar_mul::<SCALAR_BITS>] *)
Definition scalar_mul (SCALAR_BITS : nat) (k : NonNativeElementVar) (ec_point : EdwardsPoint)
    : circuit EdwardsPoint :=
  match SCALAR_BITS with
  | O => zero (field_mod k)
  | _ =>
      let! scalar_bits := to_bits SCALAR_BITS k in
      scalar_mul_impl ec_point scalar_bits
  end.
End curve.

(** * The curve on integers *)

Section native.
  Context (fm : FieldMod) (c : TwistedEdwardsCurve).

(** The addition formula that the documentation gives, with [d * x_1 * x_2 * y_1 * y_2] *)
Definition cross (P Q : Z * Z) : Z := curve_d c * P.1 * Q.1 * P.2 * Q.2.

Definition edwards_add (P Q : Z * Z) : Z * Z :=
  (((P.1 * Q.2 + P.2 * Q.1) * field_inverse fm (1 + cross P Q)) mod modulus fm,
   ((P.2 * Q.2 - curve_a c * P.1 * Q.1) * field_inverse fm (1 - cross P Q)) mod modulus fm).

(** It is defined when the denominators are not zero. *)
Definition edwards_defined (P Q : Z * Z) : Prop :=
  (1 + cross P Q) mod modulus fm <> 0 /\ (1 - cross P Q) mod modulus fm <> 0.

(** Double and add *)
Fixpoint edwards_mul (bits : list bool) (P : Z * Z) : Z * Z :=
  match bits with
  | [] => (0, 1)
  | b :: rest =>
      let r := edwards_mul rest P in
      if bool_decide (bits_Z bits = 0) then (0, 1)
      else edwards_add (edwards_add r r) (if b then P else (0, 1))
  end.

Fixpoint edwards_mul_defined (bits : list bool) (P : Z * Z) : Prop :=
  match bits with
  | [] => True
  | b :: rest =>
      let r := edwards_mul rest P in
      edwards_mul_defined rest P /\ edwards_defined r r /\
      edwards_defined (edwards_add r r) (if b then P else (0, 1))
  end.
End native.

(** * Honest runs *)

Section honest.
  Context {C : ConstraintSystem} {L : ConstraintSystemLaws C} {P : ProverLaws C}.

Lemma wp_select_vector_bit ls : forall rs sel s (bit : bool) (Q : _ -> cs -> Prop -> Prop),
  length ls = length rs -> Forall (lc_scoped s) ls -> Forall (lc_scoped s) rs -> lc_scoped s sel ->
  value s sel = bit_scalar bit ->
  (forall out s' (K : Prop), K -> extends s s' -> Forall (lc_scoped s') out ->
    value s' <$> out = value s' <$> (if bit then ls else rs) -> Q out s' K) ->
  wp (mapM (fun '(a_val, b_val) => select a_val b_val sel) (zip ls rs)) s Q.
Proof.
  induction ls as [|l ls IH]; intros [|r rs] sel s bit Q Hlen Hl Hr Hs Vs HQ; try done; cbn [zip zip_with mapM].
  - apply wp_ret, HQ; [done|extended|constructor|by destruct bit].
  - apply Forall_cons in Hl as [Hl Hls], Hr as [Hr Hrs].
    apply wp_bind, (wp_select_bit _ _ _ _ bit); [done..|]. intros o s1 K1 HK1 E1 Ho Vo. advance E1.
    apply wp_bind, (IH _ _ _ bit); [by injection Hlen|done..|]. intros out s2 K2 HK2 E2 Hout Vout. advance E2.
    apply wp_ret, HQ; [done|extended|by constructor|]. rewrite fmap_cons, Vo, Vout. by destruct bit.
Qed.

Section field.
  Context (fm : FieldMod) (Hfm : field_ok fm).

(** An operand that represents a number *)
Definition operand (s : cs) (z : Z) (e : NonNativeElementVar) : Prop := represents s fm z e /\ sized fm e.

Lemma operand_extends s s' z e : extends s s' -> operand s z e -> operand s' z e.
Proof. intros E [H1 H2]. split; [by eapply represents_extends|done]. Qed.

Lemma reduced_operand s z e : reduced s fm z e -> operand s (z mod modulus fm) e.
Proof. by apply reduced_represents. Qed.

Lemma wp_cond_select sel a b u v s (bit : bool) (Q : _ -> cs -> Prop -> Prop) :
  operand s u a -> operand s v b -> lc_scoped s sel -> value s sel = bit_scalar bit ->
  (forall e s' (K : Prop), K -> extends s s' -> operand s' (if bit then u else v) e -> Q e s' K) ->
  wp (NonNativeElementVar.cond_select sel a b) s Q.
Proof.
  intros [[Fa La Ga Na] [Wa Sa]] [[Fb Lb Gb Nb] [Wb Sb]] Hs Vs HQ. unfold NonNativeElementVar.cond_select.
  set (n := (length (words a) `max` length (words b))%nat).
  assert (length (words a) <= n /\ length (words b) <= n)%nat as [Ha Hb] by lia.
  pose proof (iterator_good s a n Ha Ga) as Ia. pose proof (iterator_good s b n Hb Gb) as Ib.
  pose proof (iterator_length a n Ha) as La'. pose proof (iterator_length b n Hb) as Lb'.
  apply wp_bind, wp_bind, wp_assert; [apply Nat.eqb_eq; lia|].
  apply (wp_select_vector_bit _ _ _ _ bit); [lia|apply Ia|apply Ib|done|done|].
  intros out s1 K1 HK1 E1 Hout Vout. apply wp_ret. unfold new. rewrite Fa.
  assert (length out = n) as Lo.
  { apply (f_equal length) in Vout. rewrite !length_fmap in Vout. rewrite Vout. by destruct bit. }
  destruct (Nat.ltb_spec (length out) (repr_word_width (modulus fm))) as [Hlt|_]; [lia|].
  assert (good_words s1 out /\ number s1 out = if bit then u else v) as [Go No].
  { rewrite Vout. split.
    - split; [done|]. rewrite Vout. destruct bit; by apply (good_extends s s1).
    - destruct bit; rewrite (number_extends s s1) by done; by rewrite iterator_number. }
  apply HQ; [done|done|]. split; [split|split]; cbn [words field_mod]; [done|lia|done|done|lia|lia].
Qed.

(** The operations on operands *)
Lemma operand_step g s z (Q : _ -> cs -> Prop -> Prop) :
  computes g s fm z ->
  (forall e s' (K : Prop), K -> extends s s' -> operand s' (z mod modulus fm) e -> Q e s' K) -> wp g s Q.
Proof. intros Hg HQ. apply Hg. intros e s' K HK E He. apply HQ; [done|done|by apply reduced_operand]. Qed.

Lemma wp_mul_operand s u v a b (Q : _ -> cs -> Prop -> Prop) :
  operand s u a -> operand s v b ->
  (forall e s' (K : Prop), K -> extends s s' -> operand s' ((u * v) mod modulus fm) e -> Q e s' K) ->
  wp (mul a b) s Q.
Proof. intros [Ra Wa] [Rb Wb]. apply operand_step, mul_computes; try done. apply Wb. Qed.

Lemma wp_add_operand s u v a b (Q : _ -> cs -> Prop -> Prop) :
  operand s u a -> operand s v b ->
  (forall e s' (K : Prop), K -> extends s s' -> operand s' ((u + v) mod modulus fm) e -> Q e s' K) ->
  wp (add a b) s Q.
Proof. intros [Ra Wa] [Rb Wb]. apply operand_step, add_computes; try done. apply Wb. Qed.

Lemma wp_subtract_operand s u v a b (Q : _ -> cs -> Prop -> Prop) :
  operand s u a -> operand s v b ->
  (forall e s' (K : Prop), K -> extends s s' -> operand s' ((u - v) mod modulus fm) e -> Q e s' K) ->
  wp (subtract a b) s Q.
Proof. intros [Ra Wa] [Rb Wb]. by apply operand_step, subtract_computes. Qed.

Lemma wp_mul_bigint_operand s u z a (Q : _ -> cs -> Prop -> Prop) :
  operand s u a -> 0 <= z -> Z.of_nat (repr_word_width z) < 2 ^ 32 ->
  (forall e s' (K : Prop), K -> extends s s' -> operand s' ((u * z) mod modulus fm) e -> Q e s' K) ->
  wp (mul_bigint a z) s Q.
Proof. intros [Ra Wa] Hz Lz. by apply operand_step, mul_bigint_computes. Qed.

Lemma wp_add_one_operand s u a (Q : _ -> cs -> Prop -> Prop) :
  operand s u a ->
  (forall e s' (K : Prop), K -> extends s s' -> operand s' ((u + 1) mod modulus fm) e -> Q e s' K) ->
  wp (add_bigint a 1) s Q.
Proof. intros [Ra Wa]. by apply operand_step, add_bigint_computes. Qed.

Lemma wp_opposite_operand s u a (Q : _ -> cs -> Prop -> Prop) :
  operand s u a ->
  (forall e s' (K : Prop), K -> extends s s' -> operand s' (- u mod modulus fm) e -> Q e s' K) ->
  wp (additive_inverse a) s Q.
Proof. intros [Ra Wa]. by apply operand_step, additive_inverse_computes. Qed.

Lemma wp_from_bigint_operand s z (Q : _ -> cs -> Prop -> Prop) :
  (forall e s' (K : Prop), K -> extends s s' -> operand s' (z mod modulus fm) e -> Q e s' K) ->
  wp (from_bigint z fm) s Q.
Proof. by apply operand_step, from_bigint_computes. Qed.

Context (Hprime : Z.prime (modulus fm)) (Hflag : is_prime fm = true).

Lemma wp_invert_operand s u a (Q : _ -> cs -> Prop -> Prop) :
  operand s u a ->
  (forall e s' (K : Prop), extends s s' -> operand s' (field_inverse fm u mod modulus fm) e ->
    (K <-> u mod modulus fm <> 0) -> Q e s' K) ->
  wp (invert a) s Q.
Proof.
  intros [Ra Wa] HQ. apply (wp_invert fm Hfm Hprime Hflag s a u); [done|done|]. intros e s' K E He HK.
  apply HQ; [done|by apply reduced_operand|done].
Qed.

(** ** Points *)

Definition on_point (s : cs) (p : Z * Z) (pt : EdwardsPoint) : Prop := operand s p.1 (x pt) /\ operand s p.2 (y pt).

Lemma on_point_extends s s' p pt : extends s s' -> on_point s p pt -> on_point s' p pt.
Proof. intros E [H1 H2]. by split; eapply operand_extends. Qed.

(** Moves the facts on operands and points to the next state. *)
Ltac carry E :=
  match type of E with
  | extends ?s ?s' =>
      repeat match goal with
      | H : operand s _ _ |- _ => apply (operand_extends s s' _ _ E) in H
      | H : on_point s _ _ |- _ => apply (on_point_extends s s' _ _ E) in H
      end
  end.

Lemma field_inverse_eqm a b : a mod modulus fm = b mod modulus fm -> field_inverse fm a = field_inverse fm b.
Proof. unfold field_inverse. congruence. Qed.

#[local] Existing Instance eqm_setoid.
#[local] Existing Instance Zplus_eqm.
#[local] Existing Instance Zminus_eqm.
#[local] Existing Instance Zmult_eqm.
#[local] Existing Instance Zopp_eqm.

Ltac modular :=
  match goal with |- ?a mod ?m = ?b mod ?m => change (eqm m a b) end; rewrite ?Zmod_eqm; unfold eqm; f_equal; ring.

Context (c : TwistedEdwardsCurve) (Ha : 0 <= curve_a c) (La : Z.of_nat (repr_word_width (curve_a c)) < 2 ^ 32)
  (Hd : 0 <= curve_d c) (Ld : Z.of_nat (repr_word_width (curve_d c)) < 2 ^ 32).

Lemma operand_eq s u v e : u = v -> operand s u e -> operand s v e.
Proof. by intros ->. Qed.

Lemma sum_denominator p q :
  ((((p.1 * q.2) mod modulus fm * ((p.2 * q.1) mod modulus fm)) mod modulus fm * curve_d c) mod modulus fm + 1)
    mod modulus fm = (1 + cross c p q) mod modulus fm.
Proof. unfold cross. modular. Qed.

Lemma difference_denominator p q :
  (- ((((p.1 * q.2) mod modulus fm * ((p.2 * q.1) mod modulus fm)) mod modulus fm * curve_d c) mod modulus fm)
    mod modulus fm + 1) mod modulus fm = (1 - cross c p q) mod modulus fm.
Proof. unfold cross. modular. Qed.

Lemma wp_add_points s p q lhs rhs (Q : _ -> cs -> Prop -> Prop) :
  on_point s p lhs -> on_point s q rhs ->
  (forall pt s' (K : Prop), extends s s' -> on_point s' (edwards_add fm c p q) pt ->
    (K <-> edwards_defined fm c p q) -> Q pt s' K) ->
  wp (add_points c lhs rhs) s Q.
Proof.
  intros [X1 Y1] [X2 Y2] HQ. unfold add_points.
  apply wp_bind, (wp_mul_operand s p.1 q.2); [done..|]. intros e1 s1 K1 HK1 E1 O1. carry E1.
  apply wp_bind, (wp_mul_operand s1 p.2 q.1); [done..|]. intros e2 s2 K2 HK2 E2 O2. carry E2.
  apply wp_bind. eapply wp_mul_operand; [done..|]. intros e3 s3 K3 HK3 E3 O3. carry E3.
  apply wp_bind. eapply wp_mul_bigint_operand; [done..|]. intros e4 s4 K4 HK4 E4 O4. carry E4.
  apply wp_bind. eapply wp_add_one_operand; [done|]. intros e5 s5 K5 HK5 E5 O5. carry E5.
  apply wp_bind. eapply wp_add_operand; [exact O1|exact O2|]. intros e6 s6 K6 HK6 E6 O6. carry E6.
  apply wp_bind. eapply wp_invert_operand; [done|]. intros e7 s7 K7 E7 O7 HK7. carry E7.
  apply wp_bind. eapply wp_mul_operand; [done..|]. intros e8 s8 K8 HK8 E8 O8. carry E8.
  apply wp_bind, (wp_mul_operand s8 p.2 q.2); [done..|]. intros e9 s9 K9 HK9 E9 O9. carry E9.
  apply wp_bind, (wp_mul_operand s9 p.1 q.1); [done..|]. intros e10 s10 K10 HK10 E10 O10. carry E10.
  apply wp_bind. eapply wp_mul_bigint_operand; [done..|]. intros e11 s11 K11 HK11 E11 O11. carry E11.
  apply wp_bind. eapply wp_subtract_operand; [done..|]. intros e12 s12 K12 HK12 E12 O12. carry E12.
  apply wp_bind. eapply wp_opposite_operand; [done|]. intros e13 s13 K13 HK13 E13 O13. carry E13.
  apply wp_bind. eapply wp_add_one_operand; [done|]. intros e14 s14 K14 HK14 E14 O14. carry E14.
  apply wp_bind. eapply wp_invert_operand; [done|]. intros e15 s15 K15 E15 O15 HK15. carry E15.
  apply wp_bind. eapply wp_mul_operand; [done..|]. intros e16 s16 K16 HK16 E16 O16. carry E16.
  pose proof (field_positive fm Hfm) as Hm. rewrite !Z.mod_mod in HK7, HK15 by lia.
  rewrite (sum_denominator p q) in HK7. rewrite (difference_denominator p q) in HK15.
  rewrite (field_inverse_eqm _ (1 + cross c p q)) in O8
    by (rewrite Z.mod_mod by lia; apply sum_denominator).
  rewrite (field_inverse_eqm _ (1 - cross c p q)) in O16
    by (rewrite Z.mod_mod by lia; apply difference_denominator).
  apply wp_ret, HQ; [extended| |unfold edwards_defined; naive_solver].
  split; cbn [x y edwards_add fst snd].
  - eapply operand_eq, O8. modular.
  - eapply operand_eq, O16. modular.
Qed.

Lemma wp_zero s (Q : _ -> cs -> Prop -> Prop) :
  (forall pt s' (K : Prop), K -> extends s s' -> on_point s' (0, 1) pt -> Q pt s' K) -> wp (zero fm) s Q.
Proof.
  intros HQ. apply wp_bind, wp_from_bigint_operand. intros e1 s1 K1 HK1 E1 O1. carry E1.
  apply wp_bind, wp_from_bigint_operand. intros e2 s2 K2 HK2 E2 O2. carry E2.
  apply wp_ret, HQ; [done|extended|]. pose proof (Z.prime_ge_2 _ Hprime).
  rewrite Z.mod_0_l in O1 by lia. rewrite Z.mod_1_l in O2 by lia. by split.
Qed.

Lemma wp_cond_select_point s (bit : bool) sel p q pt1 pt2 (Q : _ -> cs -> Prop -> Prop) :
  lc_scoped s sel -> value s sel = bit_scalar bit -> on_point s p pt1 -> on_point s q pt2 ->
  (forall pt s' (K : Prop), K -> extends s s' -> on_point s' (if bit then p else q) pt -> Q pt s' K) ->
  wp (EdwardsPoint.cond_select sel pt1 pt2) s Q.
Proof.
  intros Hs Vs [X1 Y1] [X2 Y2] HQ.
  apply wp_bind, (wp_cond_select sel _ _ p.1 q.1 s bit); [done..|]. intros e1 s1 K1 HK1 E1 O1. advance E1. carry E1.
  apply wp_bind, (wp_cond_select sel _ _ p.2 q.2 s1 bit); [done..|]. intros e2 s2 K2 HK2 E2 O2. carry E2.
  apply wp_ret, HQ; [done|extended|]. by destruct bit.
Qed.

Lemma wp_scalar_mul_impl p pt bits : forall bs s (Q : _ -> cs -> Prop -> Prop),
  on_point s p pt -> Z.of_nat (length bs) < ristretto_order ->
  Forall (lc_scoped s) (lc_var <$> bits) -> value s <$> (lc_var <$> bits) = bit_scalar <$> bs ->
  (forall res s' (K : Prop), extends s s' -> on_point s' (edwards_mul fm c bs p) res ->
    (K <-> edwards_mul_defined fm c bs p) -> Q res s' K) ->
  wp (scalar_mul_impl c pt bits) s Q.
Proof.
  induction bits as [|b bits IH]; intros [|bit bs] s Q Hp Hlen Hb Vb HQ; try done;
    cbn [scalar_mul_impl edwards_mul edwards_mul_defined] in *;
    pose proof (rep_field _ _ _ _ (proj1 (proj1 Hp))) as Hf; unfold point_field; rewrite Hf.
  { apply wp_zero. intros z s1 K1 HK1 E1 Hz. by apply HQ. }
  assert (lc_scoped s (lc_var b) /\ Forall (lc_scoped s) (lc_var <$> bits)) as [Hb1 Hb2] by (by apply Forall_cons).
  assert (value s (lc_var b) = bit_scalar bit /\ value s <$> (lc_var <$> bits) = bit_scalar <$> bs) as [Vb1 Vb2]
    by (by injection Vb).
  cbn [length] in Hlen.
  apply wp_bind, (IH bs); [done|lia|done|done|]. intros r s1 K1 E1 Hr HK1. advance E1. carry E1.
  apply wp_bind. eapply wp_add_points; [done..|]. intros d s2 K2 E2 Hd2 HK2. advance E2. carry E2.
  apply wp_bind, wp_zero. intros z s3 K3 HK3 E3 Hz. advance E3. carry E3.
  apply wp_bind. eapply (wp_cond_select_point s3 bit); [done..|]. intros t s4 K4 HK4 E4 Ht. advance E4. carry E4.
  apply wp_bind. eapply wp_add_points; [exact Hd2|exact Ht|]. intros u s5 K5 E5 Hu HK5. advance E5. carry E5.
  apply wp_bind, (wp_all_bits_zero _ (bit :: bs)); [cbn [length]; lia|done|done|].
  intros m s6 K6 HK6 E6 Hm Vm. advance E6. carry E6.
  eapply wp_cond_select_point; [exact Hm|exact Vm|exact Hz|exact Hu|]. intros res s7 K7 HK7 E7 Hres.
  apply HQ; [extended| |naive_solver]. by case_bool_decide.
Qed.

(** The bits of a number *)
Definition number_bits (n : nat) (z : Z) : list bool := (fun i => Z.testbit z (Z.of_nat i)) <$> seq 0 n.

Lemma wp_scalar_mul n s k z p pt (Q : _ -> cs -> Prop -> Prop) :
  represents s fm z k -> z < 2 ^ Z.of_nat n -> on_point s p pt -> Z.of_nat n < ristretto_order ->
  (forall res s' (K : Prop), extends s s' -> on_point s' (edwards_mul fm c (number_bits n z) p) res ->
    (K <-> edwards_mul_defined fm c (number_bits n z) p) -> Q res s' K) ->
  wp (scalar_mul c n k pt) s Q.
Proof.
  intros Hk Hz Hp Hn HQ. unfold scalar_mul. destruct n as [|n].
  - rewrite (rep_field _ _ _ _ Hk). apply wp_zero. intros o s1 K1 HK1 E1 Ho. by apply HQ.
  - apply wp_bind, (wp_element_bits (S n) fm z); [done..|]. intros vs s1 K1 HK1 E1 Hvs Vvs. carry E1.
    apply (wp_scalar_mul_impl p pt vs (number_bits (S n) z)); [done| |done| |].
    + unfold number_bits. by rewrite length_fmap, length_seq.
    + rewrite Vvs, bigint_to_scalar_bits_spec. unfold number_bits. by rewrite <- list_fmap_compose.
    + intros res s2 K2 E2 Hres HK2. apply HQ; [extended|done|]. naive_solver.
Qed.
End field.
End honest.

(** * Correctness *)

Section correctness.
  Context {C : ConstraintSystem} {L : ConstraintSystemLaws C} {P : ProverLaws C}.
  Context (fm : FieldMod) (c : TwistedEdwardsCurve).

(** A prime field, and a curve whose coefficients have a bounded width *)
Record curve_ok : Prop := {
  curve_field : field_ok fm;
  curve_prime : Z.prime (modulus fm);
  curve_flag : is_prime fm = true;
  curve_a_positive : 0 <= curve_a c;
  curve_a_width : Z.of_nat (repr_word_width (curve_a c)) < 2 ^ 32;
  curve_d_positive : 0 <= curve_d c;
  curve_d_width : Z.of_nat (repr_word_width (curve_d c)) < 2 ^ 32;
}.

(** An honest run of [TwistedEdwardsCurve::add_points] returns the sum that the addition formula of the
    documentation gives, and its constraints hold exactly when both denominators of the formula are units. *)
Theorem edwards_addition s p q lhs rhs :
  curve_ok -> on_point fm s p lhs -> on_point fm s q rhs ->
  wp (add_points c lhs rhs) s (fun pt s' K =>
    on_point fm s' (edwards_add fm c p q) pt /\ (K <-> edwards_defined fm c p q)).
Proof. intros [] Hp Hq. by eapply wp_add_points. Qed.


(** [EdwardsPoint::constrain_equal] compares the first coordinates twice and never the second ones: its constraints
    hold on two points as soon as their first coordinates agree. *)
Theorem edwards_equality_ignores_y s p q lhs rhs :
  on_point fm s p lhs -> on_point fm s q rhs ->
  wp (EdwardsPoint.constrain_equal lhs rhs) s (fun _ _ K => K <-> p.1 = q.1).
Proof.
  intros [[[F1 L1 G1 N1] _] _] [[[F2 L2 G2 N2] _] _].
  apply wp_bind, wp_constrain_equal; [done|done|]. intros s1 K1 E1 HK1.
  apply wp_constrain_equal; [by eapply good_extends..|]. intros s2 K2 E2 HK2.
  assert (extends s s2) as E02 by extended.
  rewrite !(number_extends s s1), N1, N2 in HK1 by done. rewrite !(number_extends s s2), N1, N2 in HK2 by done.
  naive_solver.
Qed.
End correctness.

(** * Examples *)

Definition sample_curve : TwistedEdwardsCurve := {| curve_a := 1; curve_d := 2 |}.

Definition sample_pt1 : EdwardsPoint := {| x := sample_a; y := sample_b |}.
Definition sample_pt2 : EdwardsPoint := {| x := sample_a; y := sample_a |}.

Lemma sample_on_point1 : on_point sample_field sample_state (5 + 3 * 2 ^ 126, 7) sample_pt1.
Proof.
  split; (split; [|by apply sample_sized]); [apply sample_a_represents|apply sample_b_represents].
Qed.

Lemma sample_on_point2 : on_point sample_field sample_state (5 + 3 * 2 ^ 126, 5 + 3 * 2 ^ 126) sample_pt2.
Proof. split; (split; [apply sample_a_represents|by apply sample_sized]). Qed.

Lemma sample_curve_ok : curve_ok sample_field sample_curve.
Proof. split; [apply sample_field_ok|apply prime_cert_134|done..]. Qed.

Lemma edwards_addition_witness :
  wp (add_points sample_curve sample_pt1 sample_pt2) sample_state (fun pt s' K =>
    on_point sample_field s'
      (edwards_add sample_field sample_curve (5 + 3 * 2 ^ 126, 7) (5 + 3 * 2 ^ 126, 5 + 3 * 2 ^ 126)) pt /\
    (K <-> edwards_defined sample_field sample_curve (5 + 3 * 2 ^ 126, 7) (5 + 3 * 2 ^ 126, 5 + 3 * 2 ^ 126))).
Proof.
  apply (edwards_addition sample_field sample_curve sample_state _ _ _ _ sample_curve_ok sample_on_point1
    sample_on_point2).
Defined.


Lemma edwards_equality_ignores_y_witness :
  (5 + 3 * 2 ^ 126, 7) <> (5 + 3 * 2 ^ 126, 5 + 3 * 2 ^ 126) /\
  wp (EdwardsPoint.constrain_equal sample_pt1 sample_pt2) sample_state
    (fun _ _ K => K <-> 5 + 3 * 2 ^ 126 = 5 + 3 * 2 ^ 126).
Proof.
  split; [done|]. apply (edwards_equality_ignores_y sample_field sample_state _ _ _ _ sample_on_point1 sample_on_point2).
Defined.
