(* ===== verification/FixedPoint.v ===== *)
(** Fixed-point numbers: circuits/src/zk_gadgets/fixed_point.rs.

    A rational [z / 2^32] is represented by the scalar [z]; the native type holds
    the scalar, the variable a linear combination of the constraint system. *)

From Stdlib Require Import Zmod SpecFloat.
From S2P Require Import Prelude Primality Field ConstraintSystem ListR1CS Gates Comparators Arithmetic.

#[local] Open Scope Zmod_scope.
#[local] Open Scope circuit_scope.

Definition DEFAULT_PRECISION : nat := 32.
Definition TWO_TO_M : Z := Z.shiftl 1 (Z.of_nat DEFAULT_PRECISION).
Definition TWO_TO_M_SCALAR : Scalar := biguint_to_scalar TWO_TO_M.
Definition TWO_TO_NEG_M : Scalar := Zmod.inv TWO_TO_M_SCALAR.

Lemma TWO_TO_M_SCALAR_spec : TWO_TO_M_SCALAR = scalar (2 ^ 32).
Proof. by apply Zmod.to_Z_inj; vm_compute. Qed.

Lemma TWO_TO_M_inv : TWO_TO_M_SCALAR * TWO_TO_NEG_M = 1.
Proof.
  apply scalar_inv_r. rewrite TWO_TO_M_SCALAR_spec. apply (scalar_pow2_neq_zero 32).
  by apply Nat.ltb_lt.
Qed.

(** * The native type *)

Module FixedPoint.

Record FixedPoint := { repr : Scalar }.

(** [FixedPoint::from_integer], of a [u64] *)
Definition from_integer (val : Z) : FixedPoint :=
  let val_shifted := scalar val * TWO_TO_M_SCALAR in
  {| repr := val_shifted |}.

(** The [f32] [2u64.pow(DEFAULT_PRECISION) as f32] and the product of two [f32] *)
Definition TWO_TO_M_F32 : spec_float := S754_finite false 8388608 9.
Definition f32_mul : spec_float -> spec_float -> spec_float := SFmul 24 128.

(** [shifted_val.floor() as u64]: the cast saturates, and takes what is no number to zero. *)
Definition f32_floor_as_u64 (x : spec_float) : Z :=
  match x with
  | S754_zero _ | S754_nan | S754_infinity true => 0
  | S754_infinity false => 2 ^ 64 - 1
  | S754_finite s m e =>
      let z := if s then Zneg m else Zpos m in
      Z.max 0 (Z.min (2 ^ 64 - 1) (if (0 <=? e)%Z then z * 2 ^ e else z / 2 ^ (- e)))
  end%Z.

(** [shifted_val == shifted_val.floor()] *)
Definition f32_is_integer (x : spec_float) : bool :=
  match x with
  | S754_zero _ | S754_infinity _ => true
  | S754_nan => false
  | S754_finite _ m e => (0 <=? e)%Z || (Zpos m mod 2 ^ (- e) =? 0)%Z
  end.

(** [FixedPoint::from_f32_round_down] *)
Definition from_f32_round_down (val : spec_float) : FixedPoint :=
  let shifted_val := f32_mul val TWO_TO_M_F32 in
  {| repr := scalar (f32_floor_as_u64 shifted_val) |}.

(** [impl From<f32> for FixedPoint] *)
Definition from_f32 (val : spec_float) : outcome unit FixedPoint :=
  let shifted_val := f32_mul val TWO_TO_M_F32 in
  (try! _ := assert_ (f32_is_integer shifted_val) in
   Ret {| repr := scalar (f32_floor_as_u64 shifted_val) |})%outcome.

(** [FixedPoint::floor] *)
Definition floor (self : FixedPoint) : Scalar :=
  let self_bigint := scalar_to_bigint (repr self) in
  let self_bigint := Z.shiftr self_bigint (Z.of_nat DEFAULT_PRECISION) in
  bigint_to_scalar self_bigint.

(** [impl From<u64>], [impl From<Scalar>]: the representation itself *)
Definition from_u64 (val : Z) : FixedPoint := {| repr := scalar val |}.
Definition from_scalar (a : Scalar) : FixedPoint := {| repr := a |}.
Definition into_scalar (fp : FixedPoint) : Scalar := repr fp.

(** The arithmetic operators *)
Definition add (self rhs : FixedPoint) : FixedPoint := {| repr := repr self + repr rhs |}.
Definition add_scalar (self : FixedPoint) (rhs : Scalar) : FixedPoint :=
  {| repr := repr self + TWO_TO_M_SCALAR * rhs |}.
Definition scalar_add (self : Scalar) (rhs : FixedPoint) : FixedPoint := add_scalar rhs self.
Definition mul_scalar (self : FixedPoint) (rhs : Scalar) : FixedPoint :=
  {| repr := repr self * rhs |}.
Definition neg (self : FixedPoint) : FixedPoint := {| repr := - repr self |}.
Definition sub (self rhs : FixedPoint) : FixedPoint := add self (neg rhs).
Definition sub_scalar (self : FixedPoint) (rhs : Scalar) : FixedPoint := add_scalar self (- rhs).
Definition scalar_sub (self : Scalar) (rhs : FixedPoint) : FixedPoint := scalar_add self (neg rhs).

(** The representation of [z / 2^32]. *)
Definition of_numerator (z : Z) : FixedPoint := {| repr := scalar z |}.

Lemma from_integer_numerator (v : Z) : from_integer v = of_numerator (v * 2 ^ 32).
Proof. unfold from_integer, of_numerator. by rewrite TWO_TO_M_SCALAR_spec, Zmod.of_Z_mul. Qed.

Lemma scalar_opp (z : Z) : - scalar z = scalar (- z).
Proof. by rewrite Zmod.of_Z_opp. Qed.

(** The operators compute on numerators like those of the rationals. *)
Lemma operators_numerator (x y n : Z) :
  add (of_numerator x) (of_numerator y) = of_numerator (x + y) /\
  sub (of_numerator x) (of_numerator y) = of_numerator (x - y) /\
  neg (of_numerator x) = of_numerator (- x) /\
  mul_scalar (of_numerator x) (scalar n) = of_numerator (x * n) /\
  add_scalar (of_numerator x) (scalar n) = of_numerator (x + n * 2 ^ 32) /\
  sub_scalar (of_numerator x) (scalar n) = of_numerator (x - n * 2 ^ 32) /\
  scalar_sub (scalar n) (of_numerator x) = of_numerator (n * 2 ^ 32 - x).
Proof.
  cbv [add sub neg mul_scalar add_scalar sub_scalar scalar_sub scalar_add of_numerator repr].
  rewrite !TWO_TO_M_SCALAR_spec.
  split_and!; f_equal; rewrite ?Zmod.of_Z_add, ?Zmod.of_Z_sub, ?Zmod.of_Z_mul,
    ?Zmod.of_Z_opp; ring.
Qed.

(** A number with a sign is taken to zero and not refused: here, minus three halves. *)
Lemma from_f32_negative : from_f32 (S754_finite true 12582912 (-23)) = Ret {| repr := 0 |}.
Proof. reflexivity. Qed.

(** The floor of a non-negative number. *)
Lemma floor_numerator (z : Z) :
  (0 <= z < ristretto_order)%Z -> floor (of_numerator z) = scalar (z / 2 ^ 32).
Proof.
  intros Hz. unfold floor, of_numerator; cbn [repr].
  rewrite scalar_to_bigint_spec, to_Z_small, Z.shiftr_div_pow2 by (done || lia).
  assert (ristretto_order < 2 ^ 256)%Z by done. apply bigint_to_scalar_small.
  assert (0 <= z / 2 ^ 32 <= z)%Z by (split; [apply Z.div_pos|apply Z.div_le_upper_bound]; lia).
  change (Z.of_nat DEFAULT_PRECISION) with 32%Z. lia.
Qed.

End FixedPoint.

(** * The variable of the constraint system *)

Module FixedPointVar.
Section operations.
  Context {C : ConstraintSystem}.

Record FixedPointVar := { repr : LinearCombination }.

(** [FixedPoint::commit_public] *)
Definition commit_public (self : FixedPoint.FixedPoint) : circuit FixedPointVar :=
  let! v := ConstraintSystem.commit_public (FixedPoint.repr self) in
  c_ret {| repr := lc_var v |}.

(** [FixedPointVar::floor] *)
Definition floor (self : FixedPointVar) : circuit R1CSVar :=
  let! (div, _) := div_rem DEFAULT_PRECISION (repr self) (TWO_TO_M_SCALAR *! VarOne)%lc in
  c_ret div.

(** [FixedPointVar::constraint_equal] *)
Definition constraint_equal (self rhs : FixedPointVar) : circuit unit :=
  constrain (repr self - repr rhs)%lc.

(** [FixedPointVar::equal] *)
Definition equal (self rhs : FixedPointVar) : circuit R1CSVar := eq_gadget (repr self) (repr rhs).

(** [FixedPointVar::shift_integer] *)
Definition shift_integer (val : R1CSVar) : FixedPointVar :=
  {| repr := (TWO_TO_M_SCALAR *! val)%lc |}.

(** [FixedPointVar::constraint_equal_integer] *)
Definition constraint_equal_integer (self : FixedPointVar) (rhs : R1CSVar) : circuit unit :=
  constraint_equal self (shift_integer rhs).

(** [FixedPointVar::equal_integer] *)
Definition equal_integer (self : FixedPointVar) (rhs : R1CSVar) : circuit R1CSVar :=
  equal self (shift_integer rhs).

(** [FixedPointVar::mul_fixed_point] *)
Definition mul_fixed_point (self rhs : FixedPointVar) : circuit FixedPointVar :=
  let! (_, _, direct_mul) := multiply (repr self) (repr rhs) in
  c_ret {| repr := (TWO_TO_NEG_M *! direct_mul)%lc |}.

(** [FixedPointVar::mul_integer] *)
Definition mul_integer (self : FixedPointVar) (rhs : LinearCombination) : circuit FixedPointVar :=
  let! (_, _, direct_mul) := multiply (repr self) rhs in
  c_ret {| repr := lc_var direct_mul |}.

(** The operators *)
Definition add (self rhs : FixedPointVar) : FixedPointVar :=
  {| repr := (repr self + repr rhs)%lc |}.
Definition add_variable (self : FixedPointVar) (rhs : R1CSVar) : FixedPointVar :=
  {| repr := (repr self + TWO_TO_M_SCALAR *! rhs)%lc |}.
Definition variable_add (self : R1CSVar) (rhs : FixedPointVar) : FixedPointVar :=
  add_variable rhs self.
Definition neg (self : FixedPointVar) : FixedPointVar :=
  {| repr := (Zmod.opp Zmod.one *! repr self)%lc |}.
Definition sub (self rhs : FixedPointVar) : FixedPointVar :=
  {| repr := (repr self - repr rhs)%lc |}.
Definition variable_sub (self : R1CSVar) (rhs : FixedPointVar) : FixedPointVar :=
  variable_add self (neg rhs).
Definition sub_variable (self : FixedPointVar) (rhs : R1CSVar) : FixedPointVar :=
  {| repr := (repr self - TWO_TO_M_SCALAR *! rhs)%lc |}.
End operations.

Section specifications.
  Context {C : ConstraintSystem} {L : ConstraintSystemLaws C}.

Lemma mul_fixed_point_sound a b :
  sound (mul_fixed_point a b) (fun w out =>
    lc_eval w (repr out) = TWO_TO_NEG_M * (lc_eval w (repr a) * lc_eval w (repr b))).
Proof.
  unfold mul_fixed_point. sound_step. apply sound_ret. intros w _ (_ & _ & Ho). cbn.
  by rewrite lc_eval_scale, lc_eval_var, Ho.
Qed.

Lemma mul_integer_sound a n :
  sound (mul_integer a n) (fun w out => lc_eval w (repr out) = lc_eval w (repr a) * lc_eval w n).
Proof.
  unfold mul_integer. sound_step. apply sound_ret. intros w _ (_ & _ & Ho). cbn.
  by rewrite lc_eval_var, Ho.
Qed.

Lemma equal_integer_sound a v :
  sound (equal_integer a v) (fun w out =>
    w out = bit_scalar (bool_decide (lc_eval w (repr a) = TWO_TO_M_SCALAR * w v))).
Proof.
  eapply sound_weaken; [apply eq_gadget_sound|]. cbn. intros w out _ ->. lc_simpl. done.
Qed.

(** A dishonest prover chooses the floor. *)
Lemma forge_floor (q : Scalar) a s w (Q : R1CSVar -> cs -> assignment -> Prop) :
  lc_scoped s (repr a) ->
  (forall out s' w', keeps s s' w w' -> lc_scoped s' (lc_var out) ->
    lc_eval w' out = q -> Q out s' w') ->
  forge (floor a) s w Q.
Proof.
  intros Ha HQ. set (b := (TWO_TO_M_SCALAR *! VarOne)%lc).
  apply forge_bind, (forge_div_rem q (lc_eval w (repr a) - lc_eval w b * q));
    [split; by apply Nat.leb_le|done|unfold b; scoped|subst b; ring|].
  intros qv rv s' w' Hk Hq Hr Eq _. apply forge_ret. by apply HQ.
Qed.
End specifications.

Section honest_run.
  Context {C : ConstraintSystem} {L : ConstraintSystemLaws C} {P : ProverLaws C}.

Lemma wp_mul_fixed_point a b s (Q : FixedPointVar -> cs -> Prop -> Prop) :
  lc_scoped s (repr a) -> lc_scoped s (repr b) ->
  (forall out s' (K : Prop), K -> extends s s' -> lc_scoped s' (repr out) ->
    value s' (repr out) = TWO_TO_NEG_M * (value s' (repr a) * value s' (repr b)) -> Q out s' K) ->
  wp (mul_fixed_point a b) s Q.
Proof.
  intros Ha Hb HQ. apply wp_bind, wp_multiply; [done..|].
  intros ? ? o s1 E1 _ _ Ho _ _ Vo. apply wp_ret, HQ; [done|done|cbn; scoped|].
  cbn. by rewrite value_scale, Vo.
Qed.

Lemma wp_floor a s (Q : R1CSVar -> cs -> Prop -> Prop) :
  lc_scoped s (repr a) ->
  (forall (out : R1CSVar) s' (K : Prop), K -> extends s s' -> lc_scoped s' out ->
    (Zmod.to_Z (value s' out) = Zmod.to_Z (value s' (repr a)) / 2 ^ 32)%Z -> Q out s' K) ->
  wp (floor a) s Q.
Proof.
  intros Ha HQ.
  assert (forall s, value s (TWO_TO_M_SCALAR *! VarOne)%lc = scalar (2 ^ 32)) as V32.
  { intros s0. value_simpl. rewrite TWO_TO_M_SCALAR_spec. ring. }
  apply wp_bind, wp_div_rem; [by apply Nat.leb_le|done|scoped|by rewrite V32; vm_compute|].
  intros q r s' K E Hq Hr HK Hdiv. apply wp_ret. rewrite V32 in *.
  assert (scalar (2 ^ 32) <> 0) as Hne by by vm_compute.
  apply HQ; [tauto|done|done|]. by destruct (Hdiv Hne) as [Hv _].
Qed.
End honest_run.
End FixedPointVar.

(** * Exactness of multiplication *)

(** Reducing a product by [2^-32] in the field divides it only when the division
    is exact: the result is the representation of [z / 2^32] for a [z] of less
    than 219 bits if and only if the product is. *)
Lemma mul_reduce_exact (x y z : Z) :
  (2 * Z.abs (x * y) < ristretto_order)%Z -> (2 * Z.abs (z * 2 ^ 32) < ristretto_order)%Z ->
  TWO_TO_NEG_M * (scalar x * scalar y) = scalar z <-> (x * y = z * 2 ^ 32)%Z.
Proof.
  intros Hxy Hz. pose proof TWO_TO_M_inv as Hinv. rewrite TWO_TO_M_SCALAR_spec in Hinv.
  transitivity (scalar (x * y) = scalar (z * 2 ^ 32)).
  - rewrite !Zmod.of_Z_mul. split; intros H.
    + rewrite <- H. transitivity (scalar (2 ^ 32) * TWO_TO_NEG_M * (scalar x * scalar y));
        [rewrite Hinv|]; ring.
    + rewrite H. transitivity (scalar (2 ^ 32) * TWO_TO_NEG_M * scalar z); [ring|].
      rewrite Hinv. ring.
  - split; [|by intros ->]. intros H. apply (f_equal Zmod.to_Z) in H.
    rewrite !Zmod.unsigned_of_Z in H.
    assert ((x * y - z * 2 ^ 32) mod ristretto_order = 0)%Z as Hm.
    { by rewrite Zminus_mod, H, Z.sub_diag. }
    apply Z.mod_divide in Hm as [k Hk]; [|done].
    set (u := (x * y)%Z) in *. set (v := (z * 2 ^ 32)%Z) in *.
    destruct (decide (k = 0%Z)) as [->|Hk0]; [lia|].
    assert (ristretto_order <= Z.abs (k * ristretto_order))%Z by (rewrite Z.abs_mul; nia). lia.
Qed.

(** * Properties *)

(** Native fixed-point arithmetic agrees with the rationals: the operators act
    on numerators over [2^32] as addition, subtraction, negation and
    multiplication by an integer do, integers convert with denominator one, and
    the floor of a non-negative number is the integer quotient. *)
Theorem native_arithmetic (x y n : Z) :
  let fp := FixedPoint.of_numerator in
  FixedPoint.from_integer n = fp (n * 2 ^ 32)%Z /\
  FixedPoint.add (fp x) (fp y) = fp (x + y)%Z /\
  FixedPoint.sub (fp x) (fp y) = fp (x - y)%Z /\
  FixedPoint.neg (fp x) = fp (- x)%Z /\
  FixedPoint.mul_scalar (fp x) (scalar n) = fp (x * n)%Z /\
  FixedPoint.add_scalar (fp x) (scalar n) = fp (x + n * 2 ^ 32)%Z /\
  FixedPoint.sub_scalar (fp x) (scalar n) = fp (x - n * 2 ^ 32)%Z /\
  FixedPoint.scalar_sub (scalar n) (fp x) = fp (n * 2 ^ 32 - x)%Z /\
  ((0 <= x < ristretto_order)%Z -> FixedPoint.floor (fp x) = scalar (x / 2 ^ 32)).
Proof.
  cbn zeta. pose proof (FixedPoint.operators_numerator x y n) as H.
  split; [apply FixedPoint.from_integer_numerator|].
  destruct H as (? & ? & ? & ? & ? & ? & ?). split_and!; try done.
  apply FixedPoint.floor_numerator.
Qed.

Section properties.
  Context {C : ConstraintSystem} {L : ConstraintSystemLaws C} {P : ProverLaws C}.

(** C37: The multiplication gadget is exact or meaningless.  In every satisfying
    assignment that gives the operands the numerators [x] and [y], the output has
    a small numerator [z] exactly when [x y = z 2^32]; there is no rounding. *)
Theorem mul_fixed_point_exact a b :
  sound (FixedPointVar.mul_fixed_point a b) (fun w out => forall x y z : Z,
    lc_eval w (FixedPointVar.repr a) = scalar x -> lc_eval w (FixedPointVar.repr b) = scalar y ->
    (2 * Z.abs (x * y) < ristretto_order)%Z -> (2 * Z.abs (z * 2 ^ 32) < ristretto_order)%Z ->
    lc_eval w (FixedPointVar.repr out) = scalar z <-> (x * y = z * 2 ^ 32)%Z).
Proof.
  eapply sound_weaken; [apply FixedPointVar.mul_fixed_point_sound|].
  intros w out _ Hout x y z Ea Eb Hxy Hz. rewrite Hout, Ea, Eb. by apply mul_reduce_exact.
Qed.

(** An honest run of the floor gadget verifies and returns the integer part of
    the canonical representative. *)
Theorem floor_honest a s :
  lc_scoped s (FixedPointVar.repr a) ->
  wp (FixedPointVar.floor a) s (fun out s' K => K /\
    Zmod.to_Z (value s' out) = Zmod.to_Z (value s' (FixedPointVar.repr a)) / 2 ^ 32)%Z.
Proof. intros Ha. apply FixedPointVar.wp_floor; auto. Qed.

(** The floor gadget does not determine its result: a dishonest prover can
    make it return any scalar for any operand. *)
Theorem floor_forgeable (q : Scalar) a s w :
  lc_scoped s (FixedPointVar.repr a) ->
  forge (FixedPointVar.floor a) s w (fun out _ w' => w' out = q).
Proof.
  intros Ha. apply (FixedPointVar.forge_floor q); [done|]. intros out s' w' _ _ Hq.
  by rewrite lc_eval_var in Hq.
Qed.
End properties.

Definition input_fp (n : nat) : @FixedPointVar.FixedPointVar list_cs :=
  {| FixedPointVar.repr := input n |}.

Lemma floor_honest_witness :
  let s := with_values [scalar (5 * 2 ^ 32 + 7)] in
  cs_wf s /\ wp (FixedPointVar.floor (input_fp 0)) s (fun out s' K => K /\
    Zmod.to_Z (value s' out) = Zmod.to_Z (value s' (input 0)) / 2 ^ 32)%Z.
Proof. split; [scoped|]. apply (floor_honest (input_fp 0)). unfold input_fp; cbn; scoped. Defined.

(** The prover claims that the floor of one is 1000. *)
Lemma floor_forgeable_witness :
  let s := with_values [scalar (2 ^ 32)] in
  cs_wf s /\ sat s (wire_value s) /\
  forge (FixedPointVar.floor (input_fp 0)) s (wire_value s) (fun out _ w' => w' out = scalar 1000).
Proof.
  split_and!; [scoped..|]. apply (floor_forgeable (scalar 1000) (input_fp 0)).
  unfold input_fp; cbn; scoped.
Defined.

Lemma mul_fixed_point_exact_witness :
  sound (FixedPointVar.mul_fixed_point (input_fp 0) (input_fp 1)) (fun w out =>
    w (Wire 0) = scalar (3 * 2 ^ 31) -> w (Wire 1) = scalar (2 * 2 ^ 32) ->
    lc_eval w (FixedPointVar.repr out) = scalar (3 * 2 ^ 32)).
Proof.
  eapply sound_weaken; [apply (mul_fixed_point_exact (input_fp 0) (input_fp 1))|].
  intros w out _ H E0 E1. apply (H (3 * 2 ^ 31) (2 * 2 ^ 32) (3 * 2 ^ 32))%Z; try done.
  all: cbn [FixedPointVar.repr input_fp]; unfold input; rewrite lc_eval_var; done.
Defined.
