(* ===== verification/Poseidon.v ===== *)
(** The Poseidon hash: circuits/src/zk_gadgets/poseidon.rs, with the parameters of
    circuits/src/mpc_gadgets/poseidon.rs and crypto/src/hash.rs.

    The reference is the sponge on scalars ([Native]); the gadget builds the same
    computation in a constraint system. *)

From Stdlib Require Import Zmod.
From S2P Require Import Prelude Primality Field ConstraintSystem ListR1CS Gates Comparators.
From S2P Require Import Arithmetic PoseidonConstants.

#[local] Open Scope Zmod_scope.
#[local] Open Scope circuit_scope.

(** * Parameters *)

Record PoseidonSpongeParameters := {
  round_constants : list (list Scalar);
  mds_matrix : list (list Scalar);
  alpha : Z;
  rate : nat;
  capacity : nat;
  full_rounds : nat;
  parital_rounds : nat;
}.

(** [PoseidonSpongeParameters::new] validates the dimensions. *)
Definition params_new (round_constants mds_matrix : list (list Scalar)) (alpha : Z)
    (rate capacity full_rounds parital_rounds : nat)
    : outcome unit PoseidonSpongeParameters :=
  let state_width := (rate + capacity)%nat in
  (try! _ := assert_ (full_rounds mod 2 =? 0)%nat in
   try! _ := assert_ (full_rounds + parital_rounds =? length round_constants)%nat in
   try! _ := assert_ (forallb (fun rc => length rc =? state_width)%nat round_constants) in
   try! _ := assert_ ((length mds_matrix =? state_width)%nat &&
     forallb (fun row => length row =? state_width)%nat mds_matrix) in
   Ret {| round_constants := round_constants; mds_matrix := mds_matrix; alpha := alpha;
          rate := rate; capacity := capacity; full_rounds := full_rounds;
          parital_rounds := parital_rounds |})%outcome.

(** [PoseidonSpongeParameters::get_round_constant] *)
Definition get_round_constant (p : PoseidonSpongeParameters) (round_index : nat)
    : option (list Scalar) := round_constants p !! round_index.

(** [default_poseidon_params] and [PoseidonSpongeParameters::default] *)
Definition params_default : outcome unit PoseidonSpongeParameters :=
  (try! ark := POSEIDON_ROUND_CONSTANTS_T_3 in
   try! mds := POSEIDON_MDS_MATRIX_T_3 in
   params_new ark mds 5 2 1 8 56)%outcome.

Definition default_params_def : PoseidonSpongeParameters := {|
  round_constants := round_constant_values; mds_matrix := mds_values; alpha := 5;
  rate := 2; capacity := 1; full_rounds := 8; parital_rounds := 56 |}.

(** What the validation establishes, with an exponent of 64 bits and a rate that is
    not zero. *)
Record params_ok (p : PoseidonSpongeParameters) : Prop := {
  ok_even : (full_rounds p / 2 + full_rounds p / 2 = full_rounds p)%nat;
  ok_rounds : length (round_constants p) = (full_rounds p + parital_rounds p)%nat;
  ok_constants : Forall (fun rc => length rc = (rate p + capacity p)%nat) (round_constants p);
  ok_mds : length (mds_matrix p) = (rate p + capacity p)%nat;
  ok_rows : Forall (fun row => length row = (rate p + capacity p)%nat) (mds_matrix p);
  ok_alpha : (0 <= alpha p < 2 ^ 64)%Z;
  ok_rate : (0 < rate p)%nat;
}.

Lemma forallb_length (n : nat) (l : list (list Scalar)) :
  forallb (fun row => length row =? n)%nat l = true <-> Forall (fun row => length row = n) l.
Proof.
  rewrite forallb_forall, Forall_forall. split; intros H x Hx.
  - apply Nat.eqb_eq, H. by apply list_elem_of_In.
  - apply Nat.eqb_eq, H. by apply list_elem_of_In.
Qed.

Lemma params_new_ok rc mds a r c f q p :
  params_new rc mds a r c f q = Ret p -> (0 <= a < 2 ^ 64)%Z -> (0 < r)%nat -> params_ok p.
Proof.
  unfold params_new, assert_. intros H Ha Hr.
  destruct (Nat.eqb_spec (f mod 2) 0) as [He|]; [cbn in H|done].
  destruct (Nat.eqb_spec (f + q) (length rc)) as [Hl|]; [cbn in H|done].
  destruct (forallb _ rc) eqn:Hrc; [cbn in H|done].
  destruct (Nat.eqb_spec (length mds) (r + c)) as [Hm|]; [cbn in H|done].
  destruct (forallb _ mds) eqn:Hrow; [|done]. injection H as <-.
  apply forallb_length in Hrc, Hrow.
  assert (f / 2 + f / 2 = f)%nat by (pose proof (Nat.div_mod_eq f 2); lia).
  by constructor.
Qed.

Lemma default_dimensions :
  length round_constant_values = 64%nat /\
  forallb (fun rc => length rc =? 3)%nat round_constant_values = true /\
  length mds_values = 3%nat /\ forallb (fun row => length row =? 3)%nat mds_values = true.
Proof. split_and!; vm_compute; reflexivity. Qed.

#[global] Opaque round_constant_values mds_values.

Lemma params_new_default :
  params_new round_constant_values mds_values 5 2 1 8 56 = Ret default_params_def.
Proof.
  destruct default_dimensions as (Hr & Hr3 & Hq & Hq3). unfold params_new, default_params_def.
  change (2 + 1)%nat with 3%nat. rewrite Hr, Hr3, Hq, Hq3. reflexivity.
Qed.

Lemma params_default_eq : params_default = Ret default_params_def.
Proof.
  unfold params_default. rewrite (proj1 constants_parse), (proj2 constants_parse).
  apply params_new_default.
Qed.

Lemma default_params_def_ok : params_ok default_params_def.
Proof. eapply params_new_ok; [apply params_new_default|done|lia]. Qed.

(** Outside of this file only the equations of the parameters are used: the proofs
    never evaluate the hash. *)
Definition default_params_aux : { p | p = default_params_def }.
Proof. by exists default_params_def. Qed.
Definition default_params : PoseidonSpongeParameters := proj1_sig default_params_aux.

Lemma default_params_eq : default_params = default_params_def.
Proof. exact (proj2_sig default_params_aux). Qed.

Lemma default_params_ok : params_ok default_params.
Proof. rewrite default_params_eq. apply default_params_def_ok. Qed.

(** * The reference sponge, on scalars *)

Module Native.
Section native.
  Context (p : PoseidonSpongeParameters).

Definition width : nat := (rate p + capacity p)%nat.

Definition dot (row st : list Scalar) : Scalar :=
  foldl Zmod.add 0 (zip_with Zmod.mul row st).

Definition add_constants (r : nat) (st : list Scalar) : list Scalar :=
  zip_with Zmod.add st (default [] (round_constants p !! r)).

Definition sbox (x : Scalar) : Scalar := x ^ alpha p.

Definition substitute (full_round : bool) (st : list Scalar) : list Scalar :=
  if full_round then sbox <$> st
  else match st with [] => [] | x :: st' => sbox x :: st' end.

Definition mix (st : list Scalar) : list Scalar := (fun row => dot row st) <$> mds_matrix p.

Definition round (full_round : bool) (st : list Scalar) (r : nat) : list Scalar :=
  mix (substitute full_round (add_constants r st)).

(** The substitution is full in the first and the last half of the full rounds. *)
Definition is_full (r : nat) : bool :=
  (r <? full_rounds p / 2)%nat || (full_rounds p / 2 + parital_rounds p <=? r)%nat.

Definition permute (st : list Scalar) : list Scalar :=
  foldl (fun st r => round (is_full r) st r) st (seq 0 (full_rounds p + parital_rounds p)).

(** The sponge that absorbs element by element. *)
Definition absorb (h : list Scalar * nat) (a : Scalar) : list Scalar * nat :=
  let '(st, next) := h in
  let '(st, next) := if (next =? rate p)%nat then (permute st, O) else (st, next) in
  (alter (fun x => x + a) (next + capacity p)%nat st, S next).

Definition zeros : list Scalar := replicate width 0.

Definition hash (l : list Scalar) : Scalar :=
  default 0 (permute (fst (foldl absorb (zeros, O) l)) !! capacity p).

(** The sponge of the literature: blocks of [rate] elements are added to the
    state, each followed by the permutation. *)
Fixpoint add_prefix (st b : list Scalar) : list Scalar :=
  match st, b with
  | x :: st', y :: b' => (x + y) :: add_prefix st' b'
  | _, _ => st
  end.

Definition add_block (b st : list Scalar) : list Scalar :=
  take (capacity p) st ++ add_prefix (drop (capacity p) st) b.

Fixpoint blocks (fuel : nat) (l : list Scalar) : list (list Scalar) :=
  match fuel with
  | O => [l]
  | S fuel' => if (length l <=? rate p)%nat then [l]
               else take (rate p) l :: blocks fuel' (drop (rate p) l)
  end.

Definition sponge (l : list Scalar) : Scalar :=
  default 0 (foldl (fun st b => permute (add_block b st)) zeros (blocks (length l) l)
    !! capacity p).
End native.
End Native.

(** * The gadget *)

(** The state of a hasher, of linear combinations in the gadget. *)
Record hasher (T : Type) := {
  state : list T;
  next_index : nat;
  in_squeeze_state : bool;
}.
Arguments state {T}.
Arguments next_index {T}.
Arguments in_squeeze_state {T}.

Definition with_state {T} (h : hasher T) (st : list T) : hasher T :=
  {| state := st; next_index := next_index h; in_squeeze_state := in_squeeze_state h |}.

(** [iter_mut().zip(..)] with an assignment: elements beyond the shorter list
    stay. *)
Fixpoint zip_assign {A B} (f : A -> B -> A) (l : list A) (k : list B) : list A :=
  match l, k with
  | x :: l', y :: k' => f x y :: zip_assign f l' k'
  | _, _ => l
  end.

Module PoseidonHashGadget.
Section gadget.
  Context {C : ConstraintSystem} (p : PoseidonSpongeParameters).

Abbreviation Hasher := (hasher LinearCombination).

(** [PoseidonHashGadget::new] *)
Definition new : Hasher :=
  {| state := replicate (capacity p + rate p) (lc_scalar 0); next_index := 0;
     in_squeeze_state := false |}.

(** [PoseidonHashGadget::add_round_constants] *)
Definition add_round_constants (round_number : nat) (self : Hasher) : circuit Hasher :=
  let! rc := c_get (get_round_constant p round_number) in
  c_ret (with_state self
    (zip_assign (fun elem c => elem + lc_scalar c)%lc (state self) rc)).

(** [PoseidonHashGadget::apply_sbox] *)
Definition apply_sbox (full_round : bool) (self : Hasher) : circuit Hasher :=
  if full_round then
    let! st := mapM (fun val => exp val (alpha p)) (state self) in
    c_ret (with_state self st)
  else
    let! x := c_get (state self !! O) in
    let! y := exp x (alpha p) in
    c_ret (with_state self (<[O := y]> (state self))).

(** [PoseidonHashGadget::apply_mds]; assigning to an index beyond the state
    panics. *)
Definition apply_mds (self : Hasher) : circuit Hasher :=
  let row_product row :=
    foldl (fun acc '(a, b) => acc + a *! b)%lc lc_default (zip row (state self)) in
  let new_state := row_product <$> mds_matrix p in
  c_assert (length (mds_matrix p) <=? length (state self))%nat ;;
  c_ret (with_state self
    (new_state ++ replicate (length (state self) - length (mds_matrix p)) lc_default)).

(** [PoseidonHashGadget::permute] *)
Definition round (full_round : bool) (self : Hasher) (r : nat) : circuit Hasher :=
  let! self := add_round_constants r self in
  let! self := apply_sbox full_round self in
  apply_mds self.

Definition permute (self : Hasher) : circuit Hasher :=
  let! self := foldM (round true) self (seq 0 (full_rounds p / 2)) in
  let partial_rounds_start := (full_rounds p / 2)%nat in
  let partial_rounds_end := (partial_rounds_start + parital_rounds p)%nat in
  let! self := foldM (round false) self
    (seq partial_rounds_start (partial_rounds_end - partial_rounds_start)) in
  let final_full_rounds_start := partial_rounds_end in
  let final_full_rounds_end := (parital_rounds p + full_rounds p)%nat in
  foldM (round true) self
    (seq final_full_rounds_start (final_full_rounds_end - final_full_rounds_start)).

(** [PoseidonHashGadget::absorb] *)
Definition absorb (self : Hasher) (a : LinearCombination) : circuit Hasher :=
  c_assert (negb (in_squeeze_state self)) ;;
  let! self :=
    (if (next_index self =? rate p)%nat then
       let! self := permute self in
       c_ret {| state := state self; next_index := 0;
                in_squeeze_state := in_squeeze_state self |}
     else c_ret self) in
  let access_index := (next_index self + capacity p)%nat in
  let! elem := c_get (state self !! access_index) in
  c_ret {| state := <[access_index := (elem + a)%lc]> (state self);
           next_index := S (next_index self);
           in_squeeze_state := in_squeeze_state self |}.

(** [PoseidonHashGadget::batch_absorb] *)
Definition batch_absorb (self : Hasher) (a : list LinearCombination) : circuit Hasher :=
  foldM absorb self a.

(** [PoseidonHashGadget::squeeze] *)
Definition squeeze (self : Hasher) : circuit (LinearCombination * Hasher) :=
  let! self :=
    (if negb (in_squeeze_state self) || (next_index self =? rate p)%nat then
       let! self := permute self in
       c_ret {| state := state self; next_index := 0; in_squeeze_state := true |}
     else c_ret self) in
  let! elem := c_get (state self !! (capacity p + next_index self)%nat) in
  c_ret (elem, self).

(** [PoseidonHashGadget::batch_squeeze] *)
Fixpoint batch_squeeze (self : Hasher) (num_elements : nat)
    : circuit (list LinearCombination * Hasher) :=
  match num_elements with
  | O => c_ret ([], self)
  | S n => let! (x, self) := squeeze self in
           let! (xs, self) := batch_squeeze self n in
           c_ret (x :: xs, self)
  end.

(** [PoseidonHashGadget::constrained_squeeze] *)
Definition constrained_squeeze (self : Hasher) (expected : LinearCombination) : circuit Hasher :=
  let! (squeezed_elem, self) := squeeze self in
  constrain (squeezed_elem - expected)%lc ;;
  c_ret self.

(** [PoseidonHashGadget::batch_constrained_squeeze] *)
Definition batch_constrained_squeeze (self : Hasher) (expected : list LinearCombination)
    : circuit Hasher := foldM constrained_squeeze self expected.

(** [PoseidonHashGadget::hash] *)
Definition hash (self : Hasher) (hash_input : list LinearCombination)
    (expected_output : LinearCombination) : circuit Hasher :=
  let! self := batch_absorb self hash_input in
  constrained_squeeze self expected_output.
End gadget.
End PoseidonHashGadget.

(** * The reference sponge and the sponge of the literature *)

Section native_facts.
  Context (p : PoseidonSpongeParameters) (Hok : params_ok p).

Lemma length_native_round b st r : length (Native.round p b st r) = Native.width p.
Proof. unfold Native.round, Native.mix. rewrite length_fmap. apply Hok. Qed.

Lemma length_native_permute st :
  length st = Native.width p -> length (Native.permute p st) = Native.width p.
Proof.
  unfold Native.permute. generalize (seq 0 (full_rounds p + parital_rounds p)) as l.
  intros l. revert st; induction l as [|r l IH]; intros st Hst; [done|].
  cbn [foldl]. apply IH, length_native_round.
Qed.

Lemma foldl_ext_in {A B} (f g : A -> B -> A) (l : list B) a :
  (forall a x, x ∈ l -> f a x = g a x) -> foldl f a l = foldl g a l.
Proof.
  revert a; induction l as [|x l IH]; intros a H; [done|]. cbn [foldl].
  rewrite H by apply list_elem_of_here. apply IH. intros. by apply H, list_elem_of_further.
Qed.

(** The permutation as the three loops of the code. *)
Lemma native_permute_split st :
  Native.permute p st =
  let h := (full_rounds p / 2)%nat in
  foldl (Native.round p true)
    (foldl (Native.round p false)
      (foldl (Native.round p true) st (seq 0 h)) (seq h (parital_rounds p)))
    (seq (h + parital_rounds p) h).
Proof.
  cbn zeta. pose proof (ok_even _ Hok) as He. unfold Native.permute.
  set (h := (full_rounds p / 2)%nat) in *.
  replace (full_rounds p + parital_rounds p)%nat with (h + (parital_rounds p + h))%nat by lia.
  rewrite !seq_app, !foldl_app, Nat.add_0_l.
  rewrite (foldl_ext_in _ (Native.round p true) (seq (h + parital_rounds p) h)).
  2: { intros a x [? ?]%elem_of_seq. f_equal. unfold Native.is_full. fold h.
       destruct (Nat.leb_spec (h + parital_rounds p) x); [|lia]. apply orb_true_r. }
  f_equal. rewrite (foldl_ext_in _ (Native.round p false) (seq h (parital_rounds p))).
  2: { intros a x [? ?]%elem_of_seq. f_equal. unfold Native.is_full. fold h.
       destruct (Nat.leb_spec (h + parital_rounds p) x), (Nat.ltb_spec x h); lia || done. }
  f_equal. apply foldl_ext_in. intros a x [? ?]%elem_of_seq. f_equal.
  unfold Native.is_full. fold h. by destruct (Nat.ltb_spec x h); [|lia].
Qed.

Lemma length_add_prefix st b : length (Native.add_prefix st b) = length st.
Proof. revert b; induction st as [|x st IH]; intros [|y b]; cbn; auto. Qed.

Lemma length_add_block b st : length (Native.add_block p b st) = length st.
Proof.
  unfold Native.add_block. rewrite length_app, length_add_prefix, length_take, length_drop. lia.
Qed.

Lemma add_prefix_snoc b a st :
  (length b < length st)%nat ->
  alter (fun x => x + a) (length b) (Native.add_prefix st b) = Native.add_prefix st (b ++ [a]).
Proof.
  revert st; induction b as [|y b IH]; intros [|x st] H; cbn in H; try lia; [by destruct st|].
  cbn [app Native.add_prefix length]. rewrite <- IH by lia. done.
Qed.

Lemma add_block_snoc b a st :
  length st = Native.width p -> (length b < rate p)%nat ->
  alter (fun x => x + a) (length b + capacity p)%nat (Native.add_block p b st) =
  Native.add_block p (b ++ [a]) st.
Proof.
  unfold Native.width, Native.add_block. intros Hst Hb.
  assert (length (take (capacity p) st) = capacity p) as Hc by (rewrite length_take; lia).
  rewrite alter_app_r_alt, Hc by lia.
  replace (length b + capacity p - capacity p)%nat with (length b) by lia.
  by rewrite add_prefix_snoc by (rewrite length_drop; lia).
Qed.

(** Absorbing the rest of a block. *)
Lemma native_absorb_block l : forall b st,
  length st = Native.width p -> (length b + length l <= rate p)%nat ->
  foldl (Native.absorb p) (Native.add_block p b st, length b) l =
  (Native.add_block p (b ++ l) st, (length b + length l)%nat).
Proof.
  induction l as [|a l IH]; intros b st Hst Hl; cbn [length] in *.
  - cbn [foldl]. by rewrite app_nil_r, Nat.add_0_r.
  - cbn [foldl]. unfold Native.absorb at 2.
    destruct (Nat.eqb_spec (length b) (rate p)); [lia|].
    rewrite add_block_snoc by lia.
    replace (S (length b)) with (length (b ++ [a])) by (rewrite length_app; cbn; lia).
    rewrite IH by (try done; rewrite length_app; cbn; lia).
    rewrite <- app_assoc, length_app. cbn. f_equal. lia.
Qed.

Lemma add_block_nil st : Native.add_block p [] st = st.
Proof. unfold Native.add_block. destruct (drop _ _) eqn:E; cbn; rewrite <- E; apply take_drop. Qed.

Lemma native_absorb_blocks fuel : forall l st,
  (length l <= fuel)%nat -> length st = Native.width p ->
  Native.permute p (fst (foldl (Native.absorb p) (st, O) l)) =
  foldl (fun st b => Native.permute p (Native.add_block p b st)) st (Native.blocks p fuel l).
Proof.
  pose proof (ok_rate _ Hok) as Hrate.
  assert (forall l st, (length l <= rate p)%nat -> length st = Native.width p ->
    foldl (Native.absorb p) (st, O) l = (Native.add_block p l st, length l)) as Hblock.
  { intros l st Hl Hst. pose proof (native_absorb_block l [] st Hst) as H.
    rewrite add_block_nil in H. apply H. cbn; lia. }
  induction fuel as [|fuel IH]; intros l st Hl Hst.
  - destruct l; cbn in Hl; [|lia]. cbn [Native.blocks foldl fst]. by rewrite add_block_nil.
  - cbn [Native.blocks]. destruct (Nat.leb_spec (length l) (rate p)) as [Hs|Hs].
    + by rewrite Hblock by lia.
    + rewrite <- (take_drop (rate p) l) at 1. rewrite foldl_app.
      rewrite Hblock by (try done; rewrite length_take; lia). cbn [foldl].
      rewrite length_take, Nat.min_l by lia.
      rewrite <- IH;
        [|rewrite length_drop; lia|apply length_native_permute; by rewrite length_add_block].
      destruct (drop (rate p) l) as [|x r] eqn:Er.
      { apply (f_equal length) in Er. rewrite length_drop in Er. cbn in Er. lia. }
      do 2 f_equal. cbn [foldl]. f_equal. unfold Native.absorb.
      rewrite Nat.eqb_refl. by destruct (Nat.eqb_spec 0 (rate p)); [lia|].
Qed.

Lemma native_hash_sponge l : Native.hash p l = Native.sponge p l.
Proof.
  unfold Native.hash, Native.sponge. do 2 f_equal.
  apply native_absorb_blocks; [done|]. unfold Native.zeros. apply length_replicate.
Qed.
End native_facts.

(** * The gadget refines the reference *)

Module Refinement.
Import PoseidonHashGadget.

Definition same_flags {T} (h h' : hasher T) : Prop :=
  next_index h' = next_index h /\ in_squeeze_state h' = in_squeeze_state h.

Lemma zip_assign_zip_with {A B} (f : A -> B -> A) (l : list A) (k : list B) :
  length l = length k -> zip_assign f l k = zip_with f l k.
Proof.
  revert k; induction l as [|x l IH]; intros [|y k] H; cbn in H; try lia; [done|].
  cbn. f_equal. apply IH. lia.
Qed.

Lemma foldl_map {A B D} (f : D -> B -> D) (g : A -> B) l d :
  foldl f d (g <$> l) = foldl (fun d x => f d (g x)) d l.
Proof. revert d; induction l as [|x l IH]; intros d; cbn; auto. Qed.

Section sound.
  Context {C : ConstraintSystem} {L : ConstraintSystemLaws C}.
  Context (p : PoseidonSpongeParameters) (Hok : params_ok p).

Definition evals (w : assignment) (h : hasher LinearCombination) : list Scalar :=
  lc_eval w <$> state h.

(** The step [g] computes [F] on the state, for every satisfying assignment. *)
Definition refines (g : hasher LinearCombination -> circuit (hasher LinearCombination))
    (F : list Scalar -> list Scalar) : Prop :=
  forall h, sound (g h) (fun w h' => valid w -> same_flags h h' /\
    (length (state h) = Native.width p ->
      length (state h') = Native.width p /\ evals w h' = F (evals w h))).

Lemma refines_bind g g' F F' :
  refines g F -> refines g' F' ->
  refines (fun h => let! h1 := g h in g' h1) (fun st => F' (F st)).
Proof.
  intros Hg Hg' h. eapply sound_bind; [apply Hg|]. intros h1.
  eapply sound_weaken; [apply Hg'|]. intros w h2 Hv H2 H1 _.
  destruct (H1 Hv) as [[Hn1 Hs1] H1']. destruct (H2 Hv) as [[Hn2 Hs2] H2'].
  split; [split; congruence|]. intros Hl. destruct (H1' Hl) as [Hl1 E1].
  destruct (H2' Hl1) as [Hl2 E2]. split; [done|]. by rewrite E2, E1.
Qed.

Lemma refines_foldM {A} (f : hasher LinearCombination -> A -> circuit (hasher LinearCombination))
    (F : list Scalar -> A -> list Scalar) l :
  (forall x, x ∈ l -> refines (fun h => f h x) (fun st => F st x)) ->
  refines (fun h => foldM f h l) (fun st => foldl F st l).
Proof.
  induction l as [|x l IH]; intros Hf h; cbn [foldM foldl].
  - apply sound_ret. by intros w _ _.
  - pose proof (refines_bind _ _ _ _ (Hf x (list_elem_of_here _ _))
      (IH (fun y Hy => Hf y (list_elem_of_further _ _ _ Hy)))) as H. apply H.
Qed.

Lemma eval_add_constants w st rc : valid w ->
  lc_eval w <$> zip_with (fun elem c => elem + lc_scalar c)%lc st rc =
  zip_with Zmod.add (lc_eval w <$> st) rc.
Proof.
  intros Hv. revert rc; induction st as [|x st IH]; intros [|y rc]; try done.
  cbn. f_equal; [|apply IH]. lc_simpl. ring.
Qed.

Lemma eval_row_product w row st :
  lc_eval w (foldl (fun acc '(a, b) => acc + a *! b)%lc lc_default (zip row st)) =
  Native.dot row (lc_eval w <$> st).
Proof.
  unfold Native.dot. rewrite <- (lc_eval_default w). generalize lc_default as acc.
  revert st; induction row as [|a row IH]; intros [|b st] acc; try done.
  cbn. rewrite IH. by rewrite lc_eval_add, lc_eval_scale.
Qed.

Lemma add_round_constants_sound r :
  refines (add_round_constants p r) (Native.add_constants p r).
Proof.
  intros h. eapply sound_bind; [apply sound_get|]. intros rc. apply sound_ret.
  intros w Hv Hrc _. split; [done|]. intros Hl. unfold get_round_constant in Hrc.
  assert (length rc = Native.width p) as Hlr.
  { apply list_elem_of_lookup_2 in Hrc. pose proof (ok_constants _ Hok) as H.
    rewrite Forall_forall in H. by apply H. }
  unfold evals, Native.add_constants, with_state; cbn [state]. rewrite Hrc.
  rewrite zip_assign_zip_with by congruence. split; [rewrite length_zip_with; lia|].
  by apply eval_add_constants.
Qed.

Lemma apply_sbox_sound b : refines (apply_sbox p b) (Native.substitute p b).
Proof.
  pose proof (ok_alpha _ Hok) as Ha. intros h. destruct b; cbn [apply_sbox].
  - eapply sound_bind.
    { apply (sound_mapM _ (fun w x y => lc_eval w y = lc_eval w x ^ alpha p)).
      intros x _. apply exp_sound. lia. }
    intros st. apply sound_ret. intros w _ Hst _. split; [done|]. intros Hl.
    unfold evals, Native.substitute, with_state; cbn [state].
    split; [by rewrite <- (Forall2_length _ _ _ Hst)|].
    clear Hl. induction Hst as [|x y l k Hxy _ IH]; [done|]. cbn. by rewrite Hxy, IH.
  - eapply sound_bind; [apply sound_get|]. intros x.
    eapply sound_bind; [apply exp_sound; lia|]. intros y. apply sound_ret.
    intros w _ Hy Hx _. split; [done|]. intros Hl. unfold evals, with_state; cbn [state].
    rewrite length_insert. split; [done|]. destruct (state h) as [|x' st]; [done|].
    injection Hx as ->. cbn. by rewrite Hy.
Qed.

Lemma apply_mds_sound : refines (apply_mds p) (Native.mix p).
Proof.
  intros h. apply sound_assert_bind. intros _. apply sound_ret. intros w _ _.
  split; [done|]. intros Hl. unfold evals, Native.mix, with_state; cbn [state].
  pose proof (ok_mds _ Hok) as Hm. unfold Native.width in *.
  rewrite Hl, Hm, Nat.sub_diag, app_nil_r, length_fmap. split; [done|].
  rewrite <- list_fmap_compose. apply list_fmap_ext. intros i row _. apply eval_row_product.
Qed.

Lemma round_sound b r : refines (fun h => round p b h r) (fun st => Native.round p b st r).
Proof.
  apply (refines_bind (add_round_constants p r) (fun h => let! h := apply_sbox p b h in apply_mds p h)
    _ (fun st => Native.mix p (Native.substitute p b st)));
    [apply add_round_constants_sound|].
  apply refines_bind; [apply apply_sbox_sound|apply apply_mds_sound].
Qed.

Lemma permute_sound : refines (permute p) (Native.permute p).
Proof.
  pose proof (ok_even _ Hok) as He. intros h. unfold permute. cbn zeta.
  set (k := (full_rounds p / 2)%nat) in *.
  replace (k + parital_rounds p - k)%nat with (parital_rounds p) by lia.
  replace (parital_rounds p + full_rounds p - (k + parital_rounds p))%nat with k by lia.
  assert (forall b l, refines (fun h => foldM (round p b) h l)
    (fun st => foldl (Native.round p b) st l)) as Hf.
  { intros b l. apply refines_foldM. intros r _. apply round_sound. }
  eapply sound_weaken; [apply (refines_bind _ _ _ _ (Hf true (seq 0 k))
    (refines_bind _ _ _ _ (Hf false (seq k (parital_rounds p)))
      (Hf true (seq (k + parital_rounds p) k))))|].
  intros w h' _ Hh Hv. rewrite native_permute_split by done. by apply Hh.
Qed.

Definition absorbing (w : assignment) (h : hasher LinearCombination) (n : list Scalar * nat) : Prop :=
  in_squeeze_state h = false /\ length (state h) = Native.width p /\
  (evals w h, next_index h) = n.

Lemma eval_insert w (st : list LinearCombination) (i : nat) e a : st !! i = Some e ->
  lc_eval w <$> <[i := (e + a)%lc]> st = alter (fun x => x + lc_eval w a) i (lc_eval w <$> st).
Proof.
  intros He. rewrite list_fmap_insert, lc_eval_add, list_insert_alter.
  apply list_alter_ext; [|done]. intros x. rewrite list_lookup_fmap, He. by intros [= <-].
Qed.

Lemma absorb_sound h a :
  sound (absorb p h a) (fun w h' => forall n,
    absorbing w h n -> absorbing w h' (Native.absorb p n (lc_eval w a))).
Proof.
  apply sound_assert_bind. intros Hsq%negb_true_iff.
  eapply (sound_bind _ _ (fun w h1 => valid w -> forall n, absorbing w h n ->
    absorbing w h1 (if (snd n =? rate p)%nat then (Native.permute p (fst n), O) else n))).
  - destruct (Nat.eqb_spec (next_index h) (rate p)) as [Hn|Hn].
    + eapply sound_bind; [apply permute_sound|]. intros h1. apply sound_ret.
      intros w _ H1 Hv n (_ & Hl & <-). destruct (H1 Hv) as [[_ Hs] H1'].
      destruct (H1' Hl) as [Hl1 E1]. cbn [fst snd]. rewrite Hn, Nat.eqb_refl.
      split_and!; cbn; [congruence|done|]. unfold evals in *. cbn. by rewrite E1.
    + apply sound_ret. intros w _ _ n (? & Hl & <-). cbn [snd].
      by destruct (Nat.eqb_spec (next_index h) (rate p)).
  - intros h1. eapply sound_bind; [apply sound_get|]. intros e. apply sound_ret.
    intros w Hv He H1 [st k] H. destruct (H1 Hv _ H) as (Hs1 & Hl1 & E1).
    split_and!; [done|cbn; by rewrite length_insert|]. unfold Native.absorb.
    cbn [fst snd] in E1. rewrite <- E1. unfold evals; cbn.
    by rewrite (eval_insert w _ _ _ a He).
Qed.

Lemma batch_absorb_sound l : forall h,
  sound (batch_absorb p h l) (fun w h' => forall n,
    absorbing w h n -> absorbing w h' (foldl (Native.absorb p) n (lc_eval w <$> l))).
Proof.
  unfold batch_absorb. induction l as [|a l IH]; intros h; cbn [foldM].
  - apply sound_ret. by intros w _ m.
  - eapply sound_bind; [apply absorb_sound|]. intros h1.
    eapply sound_weaken; [apply IH|]. intros w h2 _ H2 H1 n Hn. cbn. by apply H2, H1.
Qed.

Lemma squeeze_sound h :
  sound (squeeze p h) (fun w '(out, h') => forall n, absorbing w h n ->
    Some (lc_eval w out) = Native.permute p (fst n) !! capacity p /\
    evals w h' = Native.permute p (fst n) /\ next_index h' = O /\ in_squeeze_state h' = true).
Proof.
  eapply (sound_bind _ _ (fun w h1 => valid w -> forall n, absorbing w h n ->
    evals w h1 = Native.permute p (fst n) /\ next_index h1 = O /\ in_squeeze_state h1 = true)).
  - destruct (negb (in_squeeze_state h) || _) eqn:Hc.
    + eapply sound_bind; [apply permute_sound|]. intros h1. apply sound_ret.
      intros w _ H1 Hv n (_ & Hl & <-). destruct (H1 Hv) as [_ H1'].
      by destruct (H1' Hl) as [Hl1 E1].
    + apply sound_ret. intros w _ _ n (Hs & _). by rewrite Hs in Hc.
  - intros h1. eapply sound_bind; [apply sound_get|]. intros e. apply sound_ret.
    intros w Hv He H1 n H. destruct (H1 Hv n H) as (E1 & Hn & Hs). split; [|done].
    rewrite Hn, Nat.add_0_r in He. rewrite <- E1. unfold evals.
    by rewrite list_lookup_fmap, He.
Qed.

Lemma absorbing_new w : valid w -> absorbing w (new p) (Native.zeros p, O).
Proof.
  intros Hv. split_and!; [done|..]; cbn.
  - unfold Native.width. rewrite length_replicate. lia.
  - f_equal. unfold evals, Native.zeros, Native.width; cbn. rewrite fmap_replicate.
    f_equal; [lia|]. lc_simpl. ring.
Qed.

(** A new hasher that absorbs [l] and is squeezed once returns the hash of [l]. *)
Lemma digest_sound l :
  sound (let! h := batch_absorb p (new p) l in squeeze p h) (fun w '(out, _) =>
    lc_eval w out = Native.hash p (lc_eval w <$> l)).
Proof.
  eapply sound_bind; [apply batch_absorb_sound|]. intros h.
  eapply sound_weaken; [apply squeeze_sound|]. intros w [out h'] Hv Hsq Habs.
  destruct (Hsq _ (Habs _ (absorbing_new w Hv))) as [Ho _].
  unfold Native.hash. by rewrite <- Ho.
Qed.
End sound.

Section honest.
  Context {C : ConstraintSystem} {L : ConstraintSystemLaws C} {P : ProverLaws C}.
  Context (p : PoseidonSpongeParameters) (Hok : params_ok p).

Definition values (s : cs) (h : hasher LinearCombination) : list Scalar := value s <$> state h.

Definition usable (s : cs) (h : hasher LinearCombination) : Prop :=
  length (state h) = Native.width p /\ Forall (lc_scoped s) (state h).

(** An honest run of the step [g] computes [F] on the state. *)
Definition computes (g : hasher LinearCombination -> circuit (hasher LinearCombination))
    (F : list Scalar -> list Scalar) : Prop :=
  forall h s (Q : hasher LinearCombination -> cs -> Prop -> Prop), usable s h ->
  (forall h' s' (K : Prop), K -> extends s s' -> same_flags h h' -> usable s' h' ->
    values s' h' = F (values s' h) -> Q h' s' K) ->
  wp (g h) s Q.

Lemma usable_extends s s' h : extends s s' -> usable s h -> usable s' h.
Proof. intros E [Hl Hs]. split; [done|]. by eapply extends_scoped_list. Qed.

Lemma values_extends s s' h : extends s s' -> usable s h -> values s' h = values s h.
Proof. intros E [_ Hs]. by apply extends_value_list. Qed.

Lemma computes_bind g g' F F' :
  computes g F -> computes g' F' ->
  computes (fun h => let! h1 := g h in g' h1) (fun st => F' (F st)).
Proof.
  intros Hg Hg' h s Q Hu HQ. apply wp_bind, Hg; [done|].
  intros h1 s1 K1 HK1 E1 [Hn1 Hq1] Hu1 V1. apply Hg'; [done|].
  intros h2 s2 K2 HK2 E2 [Hn2 Hq2] Hu2 V2.
  apply HQ; [done|extended|split; congruence|done|].
  rewrite V2, (values_extends s1 s2) by done. rewrite V1. do 2 f_equal.
  symmetry. apply values_extends; [done|]. by apply (usable_extends s).
Qed.

Lemma computes_foldM {A} (f : hasher LinearCombination -> A -> circuit (hasher LinearCombination))
    (F : list Scalar -> A -> list Scalar) l :
  (forall x, x ∈ l -> computes (fun h => f h x) (fun st => F st x)) ->
  computes (fun h => foldM f h l) (fun st => foldl F st l).
Proof.
  induction l as [|x l IH]; intros Hf h s Q Hu HQ; cbn [foldM foldl].
  - apply wp_ret. by apply HQ; try apply extends_refl.
  - apply (computes_bind _ _ _ _ (Hf x (list_elem_of_here _ _))
      (IH (fun y Hy => Hf y (list_elem_of_further _ _ _ Hy)))); done.
Qed.

Lemma wp_add_round_constants r :
  (r < full_rounds p + parital_rounds p)%nat ->
  computes (add_round_constants p r) (Native.add_constants p r).
Proof.
  intros Hr h s Q [Hl Hs] HQ.
  destruct (lookup_lt_is_Some_2 (round_constants p) r) as [rc Hrc];
    [by rewrite (ok_rounds _ Hok)|].
  assert (length rc = Native.width p) as Hlr.
  { pose proof (ok_constants _ Hok) as H. rewrite Forall_forall in H.
    by apply H, (list_elem_of_lookup_2 _ r). }
  apply wp_bind, (wp_get _ rc); [done|]. apply wp_ret.
  rewrite zip_assign_zip_with by congruence.
  apply HQ; [done|extended|done|split|].
  - cbn. rewrite length_zip_with. lia.
  - cbn. apply Forall_zip_with_fst with (P := lc_scoped s); [done|].
    apply Forall_true. intros; scoped.
  - unfold values, Native.add_constants; cbn. rewrite Hrc.
    unfold value at 1. apply eval_add_constants, witness_valid.
Qed.

Lemma wp_mapM_exp l : forall s (Q : list LinearCombination -> cs -> Prop -> Prop),
  Forall (lc_scoped s) l ->
  (forall outs s' (K : Prop), K -> extends s s' -> Forall (lc_scoped s') outs ->
    value s' <$> outs = Native.sbox p <$> (value s' <$> l) -> Q outs s' K) ->
  wp (mapM (fun val => exp val (alpha p)) l) s Q.
Proof.
  induction l as [|x l IH]; intros s Q Hl HQ; cbn [mapM].
  - apply wp_ret, HQ; [done|extended|constructor|done].
  - apply Forall_cons in Hl as [Hx Hl].
    apply wp_bind, wp_exp; [apply Hok|done|]. intros y s1 K1 HK1 E1 Hy Vy. advance E1.
    apply wp_bind, IH; [done|]. intros ys s2 K2 HK2 E2 Hys Vys. advance E2.
    apply wp_ret, HQ; [done|extended|by constructor|]. cbn. by rewrite Vy, Vys.
Qed.

Lemma wp_apply_sbox b : (0 < Native.width p)%nat -> computes (apply_sbox p b) (Native.substitute p b).
Proof.
  intros Hw h s Q [Hl Hs] HQ. destruct b; cbn [apply_sbox].
  - apply wp_bind, wp_mapM_exp; [done|]. intros st s1 K1 HK1 E1 Hst Vst.
    apply wp_ret, HQ; [done|done|done|split|done]; [|done].
    cbn. apply (f_equal length) in Vst. rewrite !length_fmap in Vst. lia.
  - destruct (state h) as [|x st] eqn:Est; [cbn in Hl; lia|].
    apply wp_bind, (wp_get _ x); [done|]. apply Forall_cons in Hs as [Hx Hst].
    apply wp_bind, wp_exp; [apply Hok|done|]. intros y s1 K1 HK1 E1 Hy Vy. advance E1.
    apply wp_ret, HQ; [done|done|done|split|]; cbn; [done|by constructor|].
    unfold values. rewrite Est. cbn. by rewrite Vy.
Qed.

Lemma scoped_row_product s row st : Forall (lc_scoped s) st ->
  lc_scoped s (foldl (fun acc '(a, b) => acc + a *! b)%lc lc_default (zip row st)).
Proof.
  intros Hst. assert (lc_scoped s lc_default) as Hacc by scoped. revert Hacc.
  generalize lc_default as acc. revert st Hst; induction row as [|a row IH]; intros st Hst acc Hacc;
    [done|]. destruct Hst as [|b st Hb Hst]; [done|]. cbn. apply IH; [done|]. scoped.
Qed.

Lemma wp_apply_mds : computes (apply_mds p) (Native.mix p).
Proof.
  intros h s Q [Hl Hs] HQ. pose proof (ok_mds _ Hok) as Hm. unfold Native.width in *.
  apply wp_bind, wp_assert; [apply Nat.leb_le; lia|]. apply wp_ret.
  rewrite Hl, Hm, Nat.sub_diag, app_nil_r.
  apply HQ; [done|extended|done|split|]; cbn.
  - unfold Native.width. by rewrite length_fmap.
  - apply Forall_fmap, Forall_true. intros row. by apply scoped_row_product.
  - unfold values, Native.mix; cbn. rewrite <- list_fmap_compose. apply list_fmap_ext.
    intros i row _. apply eval_row_product.
Qed.

Lemma wp_round b r : (r < full_rounds p + parital_rounds p)%nat ->
  computes (fun h => round p b h r) (fun st => Native.round p b st r).
Proof.
  intros Hr. pose proof (ok_rate _ Hok).
  apply (computes_bind (add_round_constants p r) (fun h => let! h := apply_sbox p b h in apply_mds p h)
    _ (fun st => Native.mix p (Native.substitute p b st)));
    [by apply wp_add_round_constants|].
  apply computes_bind; [|apply wp_apply_mds]. apply wp_apply_sbox. unfold Native.width. lia.
Qed.

Lemma wp_permute : computes (permute p) (Native.permute p).
Proof.
  pose proof (ok_even _ Hok) as He. intros h s Q Hu HQ. unfold permute. cbn zeta.
  set (k := (full_rounds p / 2)%nat) in *.
  replace (k + parital_rounds p - k)%nat with (parital_rounds p) by lia.
  replace (parital_rounds p + full_rounds p - (k + parital_rounds p))%nat with k by lia.
  assert (forall b i n, (i + n <= full_rounds p + parital_rounds p)%nat ->
    computes (fun h => foldM (round p b) h (seq i n))
      (fun st => foldl (Native.round p b) st (seq i n))) as Hf.
  { intros b i n Hin. apply computes_foldM. intros r [? ?]%elem_of_seq. apply wp_round. lia. }
  apply (computes_bind _ _ _ _ (Hf true 0%nat k ltac:(lia))
    (computes_bind _ _ _ _ (Hf false k (parital_rounds p) ltac:(lia))
      (Hf true (k + parital_rounds p)%nat k ltac:(lia)))); [done|].
  intros h' s' K HK E Hflags Hu' V. apply HQ; try done.
  by rewrite native_permute_split.
Qed.

Lemma wp_absorb h a s (Q : hasher LinearCombination -> cs -> Prop -> Prop) :
  usable s h -> in_squeeze_state h = false -> (next_index h <= rate p)%nat -> lc_scoped s a ->
  (forall h' s' (K : Prop), K -> extends s s' -> usable s' h' -> in_squeeze_state h' = false ->
    (next_index h' <= rate p)%nat ->
    (values s' h', next_index h') = Native.absorb p (values s' h, next_index h) (value s' a) ->
    Q h' s' K) ->
  wp (absorb p h a) s Q.
Proof.
  intros Hu Hsq Hn Ha HQ. apply wp_bind, wp_assert; [by rewrite Hsq|]. apply wp_bind.
  assert (forall h1 s1 (K1 : Prop), K1 -> extends s s1 -> usable s1 h1 ->
    in_squeeze_state h1 = false -> (next_index h1 < rate p)%nat ->
    (values s1 h1, next_index h1) =
      (if (next_index h =? rate p)%nat then (Native.permute p (values s1 h), O)
       else (values s1 h, next_index h)) ->
    wp (let! elem := c_get (state h1 !! (next_index h1 + capacity p)%nat) in
        c_ret {| state := <[(next_index h1 + capacity p)%nat := (elem + a)%lc]> (state h1);
                 next_index := S (next_index h1); in_squeeze_state := in_squeeze_state h1 |})
      s1 (fun h' s' K => Q h' s' (True /\ K1 /\ K))) as Hrest.
  { intros h1 s1 K1 HK1 E1 [Hl1 Hs1] Hq1 Hn1 V1.
    destruct (lookup_lt_is_Some_2 (state h1) (next_index h1 + capacity p)) as [e He];
      [unfold Native.width in Hl1; lia|].
    assert (lc_scoped s1 e) as Hse.
    { rewrite Forall_forall in Hs1. by eapply Hs1, list_elem_of_lookup_2. }
    apply (extends_scoped s s1 a E1) in Ha.
    apply wp_bind, (wp_get _ e); [done|].
    apply wp_ret, HQ; [done|extended|split|done|cbn; lia|]; cbn.
    - by rewrite length_insert.
    - apply Forall_insert; [done|scoped].
    - rewrite <- V1. unfold values; cbn. unfold value at 1. by rewrite (eval_insert _ _ _ _ a He). }
  destruct (Nat.eqb_spec (next_index h) (rate p)) as [Hr|Hr].
  - apply wp_bind, wp_permute; [done|]. intros h1 s1 K1 HK1 E1 [_ Hq1] Hu1 V1.
    apply wp_ret. apply (Hrest {| state := state h1; next_index := 0;
      in_squeeze_state := in_squeeze_state h1 |} s1); try done; cbn; [congruence|apply Hok|].
    unfold values in *; cbn. by rewrite V1.
  - apply wp_ret. apply (Hrest h s True); try done. lia.
Qed.

Lemma wp_batch_absorb l : forall h s (Q : hasher LinearCombination -> cs -> Prop -> Prop),
  usable s h -> in_squeeze_state h = false -> (next_index h <= rate p)%nat ->
  Forall (lc_scoped s) l ->
  (forall h' s' (K : Prop), K -> extends s s' -> usable s' h' -> in_squeeze_state h' = false ->
    (values s' h', next_index h') =
      foldl (Native.absorb p) (values s' h, next_index h) (value s' <$> l) -> Q h' s' K) ->
  wp (batch_absorb p h l) s Q.
Proof.
  unfold batch_absorb. induction l as [|a l IH]; intros h s Q Hu Hsq Hn Hl HQ; cbn [foldM].
  - apply wp_ret. by apply HQ; try apply extends_refl.
  - apply Forall_cons in Hl as [Ha Hl]. apply wp_bind, wp_absorb; [done..|].
    intros h1 s1 K1 HK1 E1 Hu1 Hsq1 Hn1 V1. advance E1. apply IH; [done..|].
    intros h2 s2 K2 HK2 E2 Hu2 Hsq2 V2. apply HQ; [done|extended|done|done|].
    rewrite V2. cbn [fmap list_fmap foldl]. f_equal.
    rewrite (values_extends s1 s2), V1 by done. f_equal; [f_equal|].
    + symmetry. apply values_extends; [done|]. by apply (usable_extends s).
    + symmetry. by apply extends_value.
Qed.

Lemma wp_squeeze h s (Q : LinearCombination * hasher LinearCombination -> cs -> Prop -> Prop) :
  usable s h -> in_squeeze_state h = false ->
  (forall out h' s' (K : Prop), K -> extends s s' -> lc_scoped s' out -> usable s' h' ->
    in_squeeze_state h' = true -> next_index h' = O -> state h' !! capacity p = Some out ->
    Some (value s' out) = Native.permute p (values s' h) !! capacity p ->
    Q (out, h') s' K) ->
  wp (squeeze p h) s Q.
Proof.
  intros Hu Hsq HQ. unfold squeeze. rewrite Hsq. cbn [negb orb].
  apply wp_bind, wp_bind, wp_permute; [done|]. intros h1 s1 K1 HK1 E1 _ [Hl1 Hs1] V1.
  apply wp_ret. cbn [state next_index]. rewrite Nat.add_0_r.
  destruct (lookup_lt_is_Some_2 (state h1) (capacity p)) as [e He].
  { pose proof (ok_rate _ Hok). unfold Native.width in Hl1. lia. }
  apply wp_bind, (wp_get _ e); [done|]. apply wp_ret. apply HQ; try done.
  - rewrite Forall_forall in Hs1. by eapply Hs1, list_elem_of_lookup_2.
  - rewrite <- V1. unfold values. by rewrite list_lookup_fmap, He.
Qed.

Lemma usable_new s : usable s (new p) /\ values s (new p) = Native.zeros p.
Proof.
  destruct (absorbing_new p (witness s) (witness_valid s)) as (_ & Hl & [= Hv]).
  split; [split; [done|]|done]. cbn. apply Forall_replicate. scoped.
Qed.

(** The honest digest of a list is its hash. *)
Lemma wp_digest l s (Q : LinearCombination * hasher LinearCombination -> cs -> Prop -> Prop) :
  Forall (lc_scoped s) l ->
  (forall out h' s' (K : Prop), K -> extends s s' -> lc_scoped s' out -> usable s' h' ->
    in_squeeze_state h' = true -> next_index h' = O -> state h' !! capacity p = Some out ->
    value s' out = Native.hash p (value s' <$> l) -> Q (out, h') s' K) ->
  wp (let! h := batch_absorb p (new p) l in squeeze p h) s Q.
Proof.
  intros Hl HQ. destruct (usable_new s) as [Hu Hz].
  apply wp_bind, wp_batch_absorb; [done|done|cbn; lia|done|].
  intros h1 s1 K1 HK1 E1 Hu1 Hsq1 V1. advance E1. apply wp_squeeze; [done..|].
  intros out h2 s2 K2 HK2 E2 Hout Hu2 Hsq2 Hn2 Hst Vout. advance E2.
  apply HQ; try done; [extended|]. unfold Native.hash.
  rewrite (values_extends s1 s2) in Vout by done. rewrite (proj2 (usable_new s1)) in V1.
  cbn [next_index new] in V1. rewrite <- V1. cbn [fst]. by rewrite <- Vout.
Qed.

(** Squeezing again returns the same element: the index does not advance. *)
Lemma wp_squeeze_again h out s (Q : LinearCombination * hasher LinearCombination -> cs -> Prop -> Prop) :
  in_squeeze_state h = true -> next_index h = O -> state h !! capacity p = Some out ->
  (forall K : Prop, K -> Q (out, h) s K) -> wp (squeeze p h) s Q.
Proof.
  intros Hsq Hn Hst HQ. unfold squeeze. rewrite Hsq, Hn. cbn [negb orb].
  pose proof (ok_rate _ Hok). destruct (Nat.eqb_spec 0 (rate p)); [lia|].
  apply wp_bind, wp_ret. rewrite Hn, Nat.add_0_r. apply wp_bind, (wp_get _ out); [done|].
  by apply wp_ret, HQ.
Qed.

Lemma wp_batch_squeeze_again n : forall h out s
    (Q : list LinearCombination * hasher LinearCombination -> cs -> Prop -> Prop),
  in_squeeze_state h = true -> next_index h = O -> state h !! capacity p = Some out ->
  (forall K : Prop, K -> Q (replicate n out, h) s K) -> wp (batch_squeeze p h n) s Q.
Proof.
  induction n as [|n IH]; intros h out s Q Hsq Hn Hst HQ; cbn [batch_squeeze].
  - by apply wp_ret, HQ.
  - apply wp_bind, (wp_squeeze_again _ out); [done..|]. intros K1 HK1.
    apply wp_bind, (IH _ out); [done..|]. intros K2 HK2. by apply wp_ret, HQ.
Qed.
End honest.
End Refinement.

(** * The permutation is injective *)

Lemma fermat_exponent (x : Scalar) (k : Z) :
  (0 <= k)%Z -> x ^ (Z.succ (Z.pred ristretto_order * k)) = x.
Proof.
  intros Hk. assert (0 <= Z.pred ristretto_order)%Z as Hp by done.
  rewrite Zmod.pow_succ_nonneg_r by (by apply Z.mul_nonneg_nonneg).
  destruct (decide (x = 0)) as [->|Hx]; [apply Zmod.mul_0_l|].
  rewrite Zmod.pow_mul_r_nonneg by done.
  rewrite (Zmod.fermat_nz x Hx ristretto_order_prime), Zmod.pow_1_l. apply Zmod.mul_1_r.
Qed.

(** The substitution [x^5] is a permutation of the field: 5 is coprime to the
    order of the multiplicative group. *)
Lemma fifth_power_inj (x y : Scalar) : x ^ 5 = y ^ 5 -> x = y.
Proof.
  intros H. set (e := (Z.succ (Z.pred ristretto_order * 3) / 5)%Z).
  assert (5 * e = Z.succ (Z.pred ristretto_order * 3))%Z as He by (vm_compute; reflexivity).
  assert (0 <= e)%Z by (vm_compute; discriminate).
  rewrite <- (fermat_exponent x 3), <- (fermat_exponent y 3), <- He by lia.
  rewrite !Zmod.pow_mul_r_nonneg by lia. by rewrite H.
Qed.

Definition det3 (m : list (list Scalar)) : Scalar :=
  match m with
  | [[a; b; c]; [d; e; f]; [g; h; i]] =>
      a * (e * i - f * h) - b * (d * i - f * g) + c * (d * h - e * g)
  | _ => 0
  end.

Definition nonzero (x : Scalar) : bool := negb (Zmod.to_Z x =? 0)%Z.

Lemma nonzero_spec x : nonzero x = true -> x <> 0.
Proof. unfold nonzero. by intros H%negb_true_iff%Z.eqb_neq ->. Qed.

(** A linear map with a determinant that is not zero is injective. *)
Lemma dot3 a b c x y z : Native.dot [a; b; c] [x; y; z] = a * x + b * y + c * z.
Proof. unfold Native.dot; cbn. ring. Qed.

Lemma matrix3_inj (m : list (list Scalar)) (s t : list Scalar) :
  nonzero (det3 m) = true -> length s = 3%nat -> length t = 3%nat ->
  (fun row => Native.dot row s) <$> m = (fun row => Native.dot row t) <$> m -> s = t.
Proof.
  intros Hdet%nonzero_spec Hs Ht H.
  destruct m as [|[|a [|b [|c []]]] [|[|d [|e [|f []]]] [|[|g [|h [|i []]]] []]]]; try done.
  destruct s as [|x [|y [|z []]]]; try done. destruct t as [|x' [|y' [|z' []]]]; try done.
  cbn [fmap list_fmap] in H. rewrite !dot3 in H.
  apply cons_inj in H as [H1 [H2 [H3 _]%cons_inj]%cons_inj].
  cbn [det3] in Hdet. set (D := a * (e * i - f * h) - b * (d * i - f * g) + c * (d * h - e * g)) in *.
  assert (forall u v, D * (u - v) = 0 -> u = v) as Hcancel.
  { intros u v [|Hz]%scalar_mul_zero; [done|]. by apply scalar_sub_eq. }
  set (d1 := a * x + b * y + c * z - (a * x' + b * y' + c * z')) in *.
  assert (d1 = 0) as E1 by (unfold d1; rewrite H1; ring).
  set (d2 := d * x + e * y + f * z - (d * x' + e * y' + f * z')) in *.
  assert (d2 = 0) as E2 by (unfold d2; rewrite H2; ring).
  set (d3 := g * x + h * y + i * z - (g * x' + h * y' + i * z')) in *.
  assert (d3 = 0) as E3 by (unfold d3; rewrite H3; ring).
  f_equal; [|f_equal; [|f_equal]]; apply Hcancel.
  - transitivity ((e * i - f * h) * d1 + (c * h - b * i) * d2 + (b * f - c * e) * d3);
      [unfold D, d1, d2, d3; ring|rewrite E1, E2, E3; ring].
  - transitivity ((f * g - d * i) * d1 + (a * i - c * g) * d2 + (c * d - a * f) * d3);
      [unfold D, d1, d2, d3; ring|rewrite E1, E2, E3; ring].
  - transitivity ((d * h - e * g) * d1 + (b * g - a * h) * d2 + (a * e - b * d) * d3);
      [unfold D, d1, d2, d3; ring|rewrite E1, E2, E3; ring].
Qed.

Lemma default_det : nonzero (det3 mds_values) = true.
Proof. vm_compute. reflexivity. Qed.

Lemma add_constants_inj (rc s t : list Scalar) :
  length s = length rc -> length t = length rc ->
  zip_with Zmod.add s rc = zip_with Zmod.add t rc -> s = t.
Proof.
  revert s t; induction rc as [|c rc IH]; intros [|x s] [|y t] Hs Ht H; try done.
  apply cons_inj in H as [H1 H2]. f_equal; [|by apply IH; [by injection Hs|by injection Ht|]].
  transitivity (x + c - c); [ring|]. rewrite H1. ring.
Qed.

Lemma default_round_inj b r s t :
  (r < 64)%nat -> length s = 3%nat -> length t = 3%nat ->
  Native.round default_params_def b s r = Native.round default_params_def b t r -> s = t.
Proof.
  intros Hr Hs Ht H.
  destruct (lookup_lt_is_Some_2 (round_constants default_params_def) r) as [rc Hrc];
    [by rewrite (ok_rounds _ default_params_def_ok)|].
  assert (length rc = 3%nat) as Hlr.
  { pose proof (ok_constants _ default_params_def_ok) as Hall. rewrite Forall_forall in Hall.
    by apply Hall, (list_elem_of_lookup_2 _ r). }
  unfold Native.round, Native.mix, Native.add_constants in H. rewrite Hrc in H.
  change (default [] (Some rc)) with rc in H.
  assert (forall st, length st = 3%nat -> length (zip_with Zmod.add st rc) = 3%nat) as Hzl.
  { intros st Hst. rewrite length_zip_with. lia. }
  assert (forall st, length st = 3%nat -> length (Native.substitute default_params_def b st) = 3%nat) as Hsl.
  { intros st Hst. destruct b; cbn [Native.substitute]; [by rewrite length_fmap|by destruct st]. }
  apply matrix3_inj in H; [|apply default_det|by apply Hsl, Hzl..].
  apply (add_constants_inj rc); [congruence..|]. revert H.
  specialize (Hzl s Hs) as H1. specialize (Hzl t Ht) as H2.
  destruct (zip_with Zmod.add s rc) as [|x [|y [|z []]]]; try done.
  destruct (zip_with Zmod.add t rc) as [|x' [|y' [|z' []]]]; try done.
  destruct b; cbn [Native.substitute fmap list_fmap];
    intros [E1 [E2 [E3 _]%cons_inj]%cons_inj]%cons_inj; apply fifth_power_inj in E1.
  - apply fifth_power_inj in E2, E3. by subst.
  - by subst.
Qed.

Lemma default_rounds_inj l : Forall (fun r => r < 64)%nat l -> forall s t,
  length s = 3%nat -> length t = 3%nat ->
  foldl (fun st r => Native.round default_params_def (Native.is_full default_params_def r) st r) s l =
  foldl (fun st r => Native.round default_params_def (Native.is_full default_params_def r) st r) t l ->
  s = t.
Proof.
  induction 1 as [|r l Hr _ IH]; intros s t Hs Ht H; [done|]. cbn [foldl] in H.
  apply IH in H; [|apply (length_native_round _ default_params_def_ok)..].
  by apply default_round_inj in H.
Qed.

(** * Collisions of inputs of different lengths *)

(** The position in the block after absorbing a list. *)
Lemma native_next p l : (0 < rate p)%nat ->
  snd (foldl (Native.absorb p) (Native.zeros p, O) l) =
  match l with [] => O | _ => S ((length l - 1) mod rate p) end.
Proof.
  intros Hr. induction l as [|a l IH] using rev_ind; [done|].
  rewrite foldl_app. cbn [foldl]. destruct (foldl _ _ l) as [st n] eqn:E. cbn [snd] in IH.
  assert (forall x y, snd (Native.absorb p (x, y) a) = if (y =? rate p)%nat then 1%nat else S y) as Hs.
  { intros x y. unfold Native.absorb. by destruct (y =? rate p)%nat. }
  rewrite Hs, IH. destruct l as [|b l].
  - cbn [app length Nat.sub]. rewrite Nat.Div0.mod_0_l.
    by destruct (Nat.eqb_spec 0 (rate p)); [lia|].
  - cbn [app length]. rewrite length_app. cbn [length].
    replace (S (length l + 1) - 1)%nat with (S (length l)) by lia.
    replace (S (length l) - 1)%nat with (length l) by lia.
    pose proof (Nat.mod_upper_bound (length l) (rate p)).
    destruct (Nat.eqb_spec (S (length l mod rate p)) (rate p)) as [Hf|Hf]; f_equal.
    + symmetry. apply Nat.Div0.mod_divides. exists (S (length l / rate p)).
      pose proof (Nat.div_mod_eq (length l) (rate p)). lia.
    + rewrite <- (Nat.add_1_r (length l)), <- Nat.Div0.add_mod_idemp_l.
      rewrite (Nat.mod_small (length l mod rate p + 1)); lia.
Qed.

(** The sponge does not pad: a zero appended to an incomplete block does not
    change the hash. *)
Lemma native_hash_trailing_zero p l : (0 < rate p)%nat -> (length l mod rate p <> 0)%nat ->
  Native.hash p (l ++ [0]) = Native.hash p l.
Proof.
  intros Hr Hl. unfold Native.hash. do 2 f_equal. rewrite foldl_app. cbn [foldl].
  pose proof (native_next p l Hr) as Hn. destruct (foldl _ _ l) as [st n]. cbn [snd fst] in *.
  unfold Native.absorb. destruct (Nat.eqb_spec n (rate p)) as [E|E].
  - destruct l as [|b l]; [lia|]. exfalso. apply Hl. cbn [length] in *.
    replace (S (length l) - 1)%nat with (length l) in Hn by lia.
    apply Nat.Div0.mod_divides. exists (S (length l / rate p)).
    pose proof (Nat.div_mod_eq (length l) (rate p)). lia.
  - cbn [fst]. f_equal. apply list_alter_id. intros x. apply Zmod.add_0_r.
Qed.

(** * Properties *)

(** All square submatrices of a matrix of three rows have a determinant that is
    not zero. *)
Definition det2 (a b c d : Scalar) : Scalar := a * d - b * c.

Definition is_mds3 (m : list (list Scalar)) : bool :=
  match m with
  | [[a; b; c]; [d; e; f]; [g; h; i]] =>
      forallb nonzero [a; b; c; d; e; f; g; h; i] &&
      forallb nonzero [det2 a b d e; det2 a c d f; det2 b c e f; det2 a b g h; det2 a c g i;
        det2 b c h i; det2 d e g h; det2 d f g i; det2 e f h i] &&
      nonzero (det3 m)
  | _ => false
  end.

(** C38: The default parameters pass their validation, the mixing matrix is maximum
    distance separable, the exponent is coprime to the order of the
    multiplicative group (and 3 is not), and the permutation is injective on
    states of three elements. *)
Theorem default_permutation_correct :
  params_default = Ret default_params /\ is_mds3 (mds_matrix default_params) = true /\
  Z.gcd (alpha default_params) (ristretto_order - 1) = 1%Z /\
  Z.gcd 3 (ristretto_order - 1) = 3%Z /\
  (forall s t, length s = 3%nat -> length t = 3%nat ->
    Native.permute default_params s = Native.permute default_params t -> s = t).
Proof.
  rewrite default_params_eq. split_and!; [apply params_default_eq|vm_compute; reflexivity..|].
  intros s t. apply default_rounds_inj. apply Forall_forall. intros r [_ Hr]%elem_of_seq.
  exact Hr.
Qed.

Section properties.
  Context {C : ConstraintSystem} {L : ConstraintSystemLaws C} {P : ProverLaws C}.
  Context (p : PoseidonSpongeParameters).


(** The pre-image argument.  [hash] forces the expected output to be the sponge
    of the input, and an honest prover passes exactly when it is. *)
Theorem hash_preimage_correct (Hok : params_ok p) l expected :
  let argument := PoseidonHashGadget.hash p (PoseidonHashGadget.new p) l expected in
  sound argument (fun w _ => lc_eval w expected = Native.sponge p (lc_eval w <$> l)) /\
  forall s, Forall (lc_scoped s) l -> lc_scoped s expected -> wp argument s (fun _ s' K =>
    K <-> value s' expected = Native.sponge p (value s' <$> l)).
Proof.
  cbn zeta. unfold PoseidonHashGadget.hash, PoseidonHashGadget.constrained_squeeze. split.
  - apply sound_assoc. eapply sound_bind; [by apply Refinement.digest_sound|]. intros [out h].
    sound_step. apply sound_ret. intros w _ Hc Ho.
    rewrite lc_eval_sub, Ho in Hc. apply scalar_sub_eq in Hc.
    rewrite <- Hc. by apply native_hash_sponge.
  - intros s Hl He. apply wp_assoc, wp_bind, (Refinement.wp_digest p Hok); [done|].
    intros out h s1 K HK E1 Hout _ _ _ _ Vout. advance E1.
    apply wp_bind, wp_constrain; [scoped|]. intros s2 E2. value_simpl. advance E2.
    apply wp_ret. rewrite Vout, native_hash_sponge, scalar_sub_zero by done.
    split; [by intros (_ & -> & _)|]. intros ->. done.
Qed.

(** Squeezing a batch from the gadget returns the same element [n] times.  The
    index of the next element is not advanced. *)
Theorem batch_squeeze_repeats (Hok : params_ok p) l n s :
  Forall (lc_scoped s) l ->
  wp (let! h := PoseidonHashGadget.batch_absorb p (PoseidonHashGadget.new p) l in
      let! (first, h) := PoseidonHashGadget.squeeze p h in
      let! (more, h) := PoseidonHashGadget.batch_squeeze p h n in
      c_ret (first, more)) s
    (fun '(first, more) s' K => K /\ more = replicate n first).
Proof.
  intros Hl. apply wp_assoc, wp_bind, (Refinement.wp_digest p Hok); [done|].
  intros out h s1 K HK E1 Hout _ Hsq Hn Hst _.
  apply wp_bind, (Refinement.wp_batch_squeeze_again p Hok n h out); [done..|].
  intros K2 HK2. by apply wp_ret.
Qed.

End properties.

(** ** Witnesses, for the default parameters in the concrete system *)


Lemma hash_preimage_correct_witness :
  let l := [input 0; input 1] in let s := with_values [scalar 1; scalar 2; scalar 3] in
  cs_wf s /\
  wp (PoseidonHashGadget.hash default_params (PoseidonHashGadget.new default_params) l (input 2)) s
    (fun _ s' K => K <-> value s' (input 2) = Native.sponge default_params (value s' <$> l)).
Proof.
  split; [scoped|]. apply (hash_preimage_correct default_params default_params_ok);
    [repeat constructor; scoped|scoped].
Defined.

Lemma batch_squeeze_repeats_witness :
  let s := with_values [scalar 1] in
  cs_wf s /\
  wp (let! h := PoseidonHashGadget.batch_absorb default_params
        (PoseidonHashGadget.new default_params) [input 0] in
      let! (first, h) := PoseidonHashGadget.squeeze default_params h in
      let! (more, h) := PoseidonHashGadget.batch_squeeze default_params h 1 in
      c_ret (first, more)) s
    (fun '(first, more) s' K => K /\ more = [first]).
Proof.
  split; [scoped|]. apply (batch_squeeze_repeats default_params default_params_ok [input 0] 1).
  repeat constructor; scoped.
Defined.

