(* ===== verification/Types.v ===== *)
(** The types of the protocol and their allocation in a constraint system:
    circuits/src/types/{balance,order,fee,keychain,wallet,note}.rs.

    A [u64] and a [BigUint] are integers.  Committing to a value adds a variable to
    the constraint system; the Pedersen commitment that the library returns beside
    the variable is not modelled. *)

From Stdlib Require Import Zmod.
From S2P Require Import Prelude Primality Field ConstraintSystem FixedPoint.

#[local] Open Scope Zmod_scope.
#[local] Open Scope circuit_scope.

(** * Native types *)

Record Balance := { balance_mint : Z; balance_amount : Z }.

Inductive OrderSide := Buy | Sell.

#[export] Instance OrderSide_eq_dec : EqDecision OrderSide.
Proof. solve_decision. Defined.

Record Order := {
  order_quote_mint : Z;
  order_base_mint : Z;
  order_side : OrderSide;
  order_price : FixedPoint.FixedPoint;
  order_amount : Z;
  order_timestamp : Z;
}.

Record Fee := {
  fee_settle_key : Z;
  fee_gas_addr : Z;
  fee_gas_token_amount : Z;
  fee_percentage_fee : FixedPoint.FixedPoint;
}.

Record KeyChain := { pk_root : Scalar; pk_match : Scalar; pk_settle : Scalar; pk_view : Scalar }.

Record Wallet := {
  wallet_balances : list Balance;
  wallet_orders : list Order;
  wallet_fees : list Fee;
  wallet_keys : KeyChain;
  wallet_randomness : Scalar;
}.

Inductive NoteType := InternalTransfer | NoteMatch.

Record Note := {
  note_mint1 : Z;
  note_volume1 : Z;
  note_direction1 : OrderSide;
  note_mint2 : Z;
  note_volume2 : Z;
  note_direction2 : OrderSide;
  note_fee_mint : Z;
  note_fee_volume : Z;
  note_fee_direction : OrderSide;
  note_type : NoteType;
  note_randomness : Z;
}.

(** * Conversions *)

(** [OrderSide::opposite] *)
Definition opposite (self : OrderSide) : OrderSide :=
  match self with Buy => Sell | Sell => Buy end.

(** [impl From<OrderSide> for u64], [impl From<u64> for OrderSide] *)
Definition side_to_u64 (side : OrderSide) : Z := match side with Buy => 0 | Sell => 1 end.

Definition side_from_u64 (val : Z) : outcome unit OrderSide :=
  if (val =? 0)%Z then Ret Buy else if (val =? 1)%Z then Ret Sell else Panic.

(** [impl From<OrderSide> for Scalar], [impl From<Scalar> for OrderSide] *)
Definition side_to_scalar (side : OrderSide) : Scalar :=
  match side with Buy => scalar 0 | Sell => scalar 1 end.

Definition side_from_scalar (side : Scalar) : outcome unit OrderSide :=
  if decide (side = 0) then Ret Buy else if decide (side = 1) then Ret Sell else Panic.

Definition note_type_to_scalar (t : NoteType) : Scalar :=
  match t with InternalTransfer => scalar 0 | NoteMatch => scalar 1 end.

(** The errors of [TryFrom], by what they complain about. *)
Inductive TypeConversionError := WrongLength (len : nat) | InvalidSide (val : Z).

(** [impl TryFrom<&[u64]> for Order] *)
Definition order_try_from (value : list Z) : outcome TypeConversionError Order :=
  if negb (length value =? 6)%nat then Fail (WrongLength (length value))
  else match value with
       | [v0; v1; v2; v3; v4; v5] =>
           if negb ((v2 =? 0) || (v2 =? 1))%Z then Fail (InvalidSide v2)
           else Ret {| order_quote_mint := v0; order_base_mint := v1;
                       order_side := if (v2 =? 0)%Z then Buy else Sell;
                       order_price := FixedPoint.from_scalar (scalar v3);
                       order_amount := v4; order_timestamp := v5 |}
       | _ => Panic
       end.

(** [impl TryFrom<&[u64]> for Fee] *)
Definition fee_try_from (values : list Z) : outcome TypeConversionError Fee :=
  if negb (length values =? 4)%nat then Fail (WrongLength (length values))
  else match values with
       | [v0; v1; v2; v3] =>
           Ret {| fee_settle_key := v0; fee_gas_addr := v1; fee_gas_token_amount := v2;
                  fee_percentage_fee := FixedPoint.from_scalar (scalar v3) |}
       | _ => Panic
       end.

(** [BigUint::try_into] a [u64] *)
Definition try_into_u64 (z : Z) : outcome TypeConversionError Z :=
  if (z <? 2 ^ 64)%Z then Ret z else Panic.

(** [impl From<&Fee> for Vec<u64>]; the conversion of a scalar to a [u64] belongs to
    the MPC library. *)
Definition fee_to_u64s (scalar_to_u64 : Scalar -> Z) (fee : Fee) : outcome TypeConversionError (list Z) :=
  (try! settle_key := try_into_u64 (fee_settle_key fee) in
   try! gas_addr := try_into_u64 (fee_gas_addr fee) in
   Ret [settle_key; gas_addr; fee_gas_token_amount fee;
        scalar_to_u64 (FixedPoint.repr (fee_percentage_fee fee))])%outcome.

Definition NUM_KEYS : nat := 4.

(** [impl TryFrom<Vec<Scalar>> for KeyChain], [impl From<KeyChain> for Vec<Scalar>] *)
Definition keychain_try_from (values : list Scalar) : outcome TypeConversionError KeyChain :=
  if negb (length values =? NUM_KEYS)%nat then Fail (WrongLength (length values))
  else match values with
       | [v0; v1; v2; v3] => Ret {| pk_root := v0; pk_match := v1; pk_settle := v2; pk_view := v3 |}
       | _ => Panic
       end.

Definition keychain_to_vec (keychain : KeyChain) : list Scalar :=
  [pk_root keychain; pk_match keychain; pk_settle keychain; pk_view keychain].

(** The serialized form of a key chain, a sequence of big integers, and its
    reader: [KeyChain::serialize], [KeyChainVisitor::visit_seq]. *)
Definition keychain_serialize (k : KeyChain) : list Z :=
  [scalar_to_biguint (pk_root k); scalar_to_biguint (pk_match k);
   scalar_to_biguint (pk_settle k); scalar_to_biguint (pk_view k)].

Definition keychain_visit_seq (seq : list Z) : outcome TypeConversionError KeyChain :=
  match seq with
  | root :: match_ :: settle :: view :: _ =>
      Ret {| pk_root := biguint_to_scalar root; pk_match := biguint_to_scalar match_;
             pk_settle := biguint_to_scalar settle; pk_view := biguint_to_scalar view |}
  | _ => Fail (WrongLength (length seq))
  end.

(** * Variables *)

Section variables.
  Context {C : ConstraintSystem}.

Record BalanceVar := { bv_mint : R1CSVar; bv_amount : R1CSVar }.

Record OrderVar := {
  ov_quote_mint : R1CSVar;
  ov_base_mint : R1CSVar;
  ov_side : R1CSVar;
  ov_price : FixedPointVar.FixedPointVar;
  ov_amount : R1CSVar;
  ov_timestamp : R1CSVar;
}.

Record FeeVar := {
  fv_settle_key : R1CSVar;
  fv_gas_addr : R1CSVar;
  fv_gas_token_amount : R1CSVar;
  fv_percentage_fee : FixedPointVar.FixedPointVar;
}.

Record KeyChainVar := {
  kv_pk_root : R1CSVar; kv_pk_match : R1CSVar; kv_pk_settle : R1CSVar; kv_pk_view : R1CSVar }.

Record WalletVar := {
  wv_balances : list BalanceVar;
  wv_orders : list OrderVar;
  wv_fees : list FeeVar;
  wv_keys : KeyChainVar;
  wv_randomness : R1CSVar;
}.

Record NoteVar := {
  nv_mint1 : R1CSVar;
  nv_volume1 : R1CSVar;
  nv_direction1 : R1CSVar;
  nv_mint2 : R1CSVar;
  nv_volume2 : R1CSVar;
  nv_direction2 : R1CSVar;
  nv_fee_mint : R1CSVar;
  nv_fee_volume : R1CSVar;
  nv_fee_direction : R1CSVar;
  nv_type : R1CSVar;
  nv_randomness : R1CSVar;
}.

(** [impl From<OrderVar> for Vec<LinearCombination>] and the like *)
Definition balance_lcs (b : BalanceVar) : list LinearCombination :=
  [lc_var (bv_mint b); lc_var (bv_amount b)].

Definition order_lcs (o : OrderVar) : list LinearCombination :=
  [lc_var (ov_quote_mint o); lc_var (ov_base_mint o); lc_var (ov_side o);
   FixedPointVar.repr (ov_price o); lc_var (ov_amount o); lc_var (ov_timestamp o)].

Definition fee_lcs (f : FeeVar) : list LinearCombination :=
  [lc_var (fv_settle_key f); lc_var (fv_gas_addr f); lc_var (fv_gas_token_amount f);
   FixedPointVar.repr (fv_percentage_fee f)].

Definition keychain_lcs (k : KeyChainVar) : list LinearCombination :=
  [lc_var (kv_pk_root k); lc_var (kv_pk_match k); lc_var (kv_pk_settle k); lc_var (kv_pk_view k)].

Definition note_lcs (n : NoteVar) : list LinearCombination :=
  [lc_var (nv_mint1 n); lc_var (nv_volume1 n); lc_var (nv_direction1 n); lc_var (nv_mint2 n);
   lc_var (nv_volume2 n); lc_var (nv_direction2 n); lc_var (nv_fee_mint n);
   lc_var (nv_fee_volume n); lc_var (nv_fee_direction n); lc_var (nv_type n);
   lc_var (nv_randomness n)].

(** ** [CommitProver::commit_prover] *)

Definition commit_balance (b : Balance) : circuit BalanceVar :=
  let! mint_var := commit (biguint_to_scalar (balance_mint b)) in
  let! amount_var := commit (scalar (balance_amount b)) in
  c_ret {| bv_mint := mint_var; bv_amount := amount_var |}.

Definition commit_fixed_point (fp : FixedPoint.FixedPoint) : circuit FixedPointVar.FixedPointVar :=
  let! var := commit (FixedPoint.repr fp) in
  c_ret {| FixedPointVar.repr := lc_var var |}.

Definition commit_order (o : Order) : circuit OrderVar :=
  let! quote_var := commit (biguint_to_scalar (order_quote_mint o)) in
  let! base_var := commit (biguint_to_scalar (order_base_mint o)) in
  let! side_var := commit (scalar (side_to_u64 (order_side o))) in
  let! price_var := commit_fixed_point (order_price o) in
  let! amount_var := commit (scalar (order_amount o)) in
  let! timestamp_var := commit (scalar (order_timestamp o)) in
  c_ret {| ov_quote_mint := quote_var; ov_base_mint := base_var; ov_side := side_var;
           ov_price := price_var; ov_amount := amount_var; ov_timestamp := timestamp_var |}.

Definition commit_fee (f : Fee) : circuit FeeVar :=
  let! settle_var := commit (biguint_to_scalar (fee_settle_key f)) in
  let! addr_var := commit (biguint_to_scalar (fee_gas_addr f)) in
  let! amount_var := commit (scalar (fee_gas_token_amount f)) in
  let! percent_var := commit_fixed_point (fee_percentage_fee f) in
  c_ret {| fv_settle_key := settle_var; fv_gas_addr := addr_var;
           fv_gas_token_amount := amount_var; fv_percentage_fee := percent_var |}.

Definition commit_keychain (k : KeyChain) : circuit KeyChainVar :=
  let! root_var := commit (pk_root k) in
  let! match_var := commit (pk_match k) in
  let! settle_var := commit (pk_settle k) in
  let! view_var := commit (pk_view k) in
  c_ret {| kv_pk_root := root_var; kv_pk_match := match_var; kv_pk_settle := settle_var;
           kv_pk_view := view_var |}.

Definition commit_wallet (w : Wallet) : circuit WalletVar :=
  let! balance_vars := mapM commit_balance (wallet_balances w) in
  let! order_vars := mapM commit_order (wallet_orders w) in
  let! fee_vars := mapM commit_fee (wallet_fees w) in
  let! key_vars := commit_keychain (wallet_keys w) in
  let! randomness_var := commit (wallet_randomness w) in
  c_ret {| wv_balances := balance_vars; wv_orders := order_vars; wv_fees := fee_vars;
           wv_keys := key_vars; wv_randomness := randomness_var |}.

Definition commit_note (n : Note) : circuit NoteVar :=
  let! mint1_var := commit (biguint_to_scalar (note_mint1 n)) in
  let! volume1_var := commit (scalar (note_volume1 n)) in
  let! direction1_var := commit (side_to_scalar (note_direction1 n)) in
  let! mint2_var := commit (biguint_to_scalar (note_mint2 n)) in
  let! volume2_var := commit (scalar (note_volume2 n)) in
  let! direction2_var := commit (side_to_scalar (note_direction2 n)) in
  let! fee_mint_var := commit (biguint_to_scalar (note_fee_mint n)) in
  let! fee_volume_var := commit (scalar (note_fee_volume n)) in
  let! fee_direction_var := commit (side_to_scalar (note_fee_direction n)) in
  let! type_var := commit (note_type_to_scalar (note_type n)) in
  let! randomness_var := commit (biguint_to_scalar (note_randomness n)) in
  c_ret {| nv_mint1 := mint1_var; nv_volume1 := volume1_var; nv_direction1 := direction1_var;
           nv_mint2 := mint2_var; nv_volume2 := volume2_var; nv_direction2 := direction2_var;
           nv_fee_mint := fee_mint_var; nv_fee_volume := fee_volume_var;
           nv_fee_direction := fee_direction_var; nv_type := type_var;
           nv_randomness := randomness_var |}.
End variables.

(** * Allocated values *)

(** The trait [CommitProver]: a type that can be committed to, the linear
    combinations of its variable type, and the scalars that it is encoded as. *)
Class CommitProver {C : ConstraintSystem} (A B : Type) := {
  commit_prover : A -> circuit B;
  var_lcs : B -> list LinearCombination;
  encoding : A -> list Scalar;
}.

#[export] Instance balance_commit {C : ConstraintSystem} : CommitProver Balance BalanceVar := {|
  commit_prover := commit_balance; var_lcs := balance_lcs;
  encoding b := [biguint_to_scalar (balance_mint b); scalar (balance_amount b)] |}.

#[export] Instance order_commit {C : ConstraintSystem} : CommitProver Order OrderVar := {|
  commit_prover := commit_order; var_lcs := order_lcs;
  encoding o := [biguint_to_scalar (order_quote_mint o); biguint_to_scalar (order_base_mint o);
    scalar (side_to_u64 (order_side o)); FixedPoint.repr (order_price o);
    scalar (order_amount o); scalar (order_timestamp o)] |}.

#[export] Instance fee_commit {C : ConstraintSystem} : CommitProver Fee FeeVar := {|
  commit_prover := commit_fee; var_lcs := fee_lcs;
  encoding f := [biguint_to_scalar (fee_settle_key f); biguint_to_scalar (fee_gas_addr f);
    scalar (fee_gas_token_amount f); FixedPoint.repr (fee_percentage_fee f)] |}.

#[export] Instance keychain_commit {C : ConstraintSystem} : CommitProver KeyChain KeyChainVar := {|
  commit_prover := commit_keychain; var_lcs := keychain_lcs; encoding := keychain_to_vec |}.

#[export] Instance note_commit_prover {C : ConstraintSystem} : CommitProver Note NoteVar := {|
  commit_prover := commit_note; var_lcs := note_lcs;
  encoding n := [biguint_to_scalar (note_mint1 n); scalar (note_volume1 n);
    side_to_scalar (note_direction1 n); biguint_to_scalar (note_mint2 n);
    scalar (note_volume2 n); side_to_scalar (note_direction2 n);
    biguint_to_scalar (note_fee_mint n); scalar (note_fee_volume n);
    side_to_scalar (note_fee_direction n); note_type_to_scalar (note_type n);
    biguint_to_scalar (note_randomness n)] |}.

Section allocated.
  Context {C : ConstraintSystem} {L : ConstraintSystemLaws C} {P : ProverLaws C}.

(** The variables [y] carry the encoding of [x]. *)
Definition allocated {A B} {T : CommitProver A B} (s : cs) (x : A) (y : B) : Prop :=
  Forall (lc_scoped s) (var_lcs y) /\ value s <$> var_lcs y = encoding x.

Lemma allocated_extends {A B} {T : CommitProver A B} s s' (x : A) (y : B) :
  extends s s' -> allocated s x y -> allocated s' x y.
Proof.
  intros E [Hs Hv]. split; [by eapply extends_scoped_list|].
  by rewrite (extends_value_list s s').
Qed.

Lemma allocated_list_extends {A B} {T : CommitProver A B} s s' (l : list A) (k : list B) :
  extends s s' -> Forall2 (allocated s) l k -> Forall2 (allocated s') l k.
Proof. intros E H. eapply Forall2_impl; [exact H|]. intros. by eapply allocated_extends. Qed.

(** Every implementation of the trait allocates its encoding. *)
Class CommitProverSpec {A B} (T : CommitProver A B) : Prop :=
  wp_commit_prover : forall x s (Q : B -> cs -> Prop -> Prop),
    (forall y s' (K : Prop), K -> extends s s' -> allocated s' x y -> Q y s' K) ->
    wp (commit_prover x) s Q.
End allocated.

(** Runs a sequence of commitments and returns the variables. *)
Ltac commit_all HQ :=
  lazymatch goal with
  | |- wp (c_bind (c_bind _ _) _) _ _ => apply wp_bind; commit_all HQ
  | |- wp (c_bind (commit _) _) _ _ =>
      let v := fresh "v" in let s := fresh "s" in let E := fresh "E" in
      let H := fresh "H" in let V := fresh "V" in
      apply wp_bind, wp_commit; intros v s E H V; advance E; commit_all HQ
  | |- wp (c_ret _) _ (fun _ _ _ => wp _ _ _) => apply wp_ret; commit_all HQ
  | |- wp (c_ret _) _ _ =>
      apply wp_ret, HQ;
      [done|extended|
       split; cbn; [repeat first [apply Forall_nil_2 | apply Forall_cons_2; [done|]]
                   |repeat (apply cons_eq; [done|]); done]]
  end.

Section specs.
  Context {C : ConstraintSystem} {L : ConstraintSystemLaws C} {P : ProverLaws C}.

#[export] Instance balance_commit_spec : CommitProverSpec balance_commit.
Proof. intros x s Q HQ. cbn [commit_prover balance_commit]. unfold commit_balance. commit_all HQ. Qed.

#[export] Instance order_commit_spec : CommitProverSpec order_commit.
Proof.
  intros x s Q HQ. cbn [commit_prover order_commit]. unfold commit_order, commit_fixed_point.
  commit_all HQ.
Qed.

#[export] Instance fee_commit_spec : CommitProverSpec fee_commit.
Proof.
  intros x s Q HQ. cbn [commit_prover fee_commit]. unfold commit_fee, commit_fixed_point.
  commit_all HQ.
Qed.

#[export] Instance keychain_commit_spec : CommitProverSpec keychain_commit.
Proof. intros x s Q HQ. cbn [commit_prover keychain_commit]. unfold commit_keychain. commit_all HQ. Qed.

#[export] Instance note_commit_spec : CommitProverSpec note_commit_prover.
Proof. intros x s Q HQ. cbn [commit_prover note_commit_prover]. unfold commit_note. commit_all HQ. Qed.
End specs.

Section wallets.
  Context {C : ConstraintSystem} {L : ConstraintSystemLaws C} {P : ProverLaws C}.

Lemma wp_mapM_commit {A B} (T : CommitProver A B) {S : CommitProverSpec T} l :
  forall s (Q : list B -> cs -> Prop -> Prop),
  (forall ys s' (K : Prop), K -> extends s s' -> Forall2 (allocated s') l ys -> Q ys s' K) ->
  wp (mapM commit_prover l) s Q.
Proof.
  induction l as [|x l IH]; intros s Q HQ; cbn [mapM].
  - apply wp_ret, HQ; [done|apply extends_refl|constructor].
  - apply wp_bind, wp_commit_prover. intros y s1 K1 HK1 E1 Hy.
    apply wp_bind, IH. intros ys s2 K2 HK2 E2 Hys.
    apply wp_ret, HQ; [done|extended|]. constructor; [by eapply allocated_extends|done].
Qed.

Record wallet_allocated (s : cs) (w : Wallet) (v : WalletVar) : Prop := {
  wa_balances : Forall2 (allocated s) (wallet_balances w) (wv_balances v);
  wa_orders : Forall2 (allocated s) (wallet_orders w) (wv_orders v);
  wa_fees : Forall2 (allocated s) (wallet_fees w) (wv_fees v);
  wa_keys : allocated s (wallet_keys w) (wv_keys v);
  wa_randomness_scoped : lc_scoped s (lc_var (wv_randomness v));
  wa_randomness : value s (wv_randomness v) = wallet_randomness w;
}.

Lemma wallet_allocated_extends s s' w v :
  extends s s' -> wallet_allocated s w v -> wallet_allocated s' w v.
Proof.
  intros E []. constructor; eauto using allocated_extends, allocated_list_extends, extends_scoped.
  by rewrite (extends_value s s').
Qed.

(** An honest prover that commits to a wallet holds variables for all of it. *)
Lemma wp_commit_wallet w s (Q : WalletVar -> cs -> Prop -> Prop) :
  (forall v s' (K : Prop), K -> extends s s' -> wallet_allocated s' w v -> Q v s' K) ->
  wp (commit_wallet w) s Q.
Proof.
  intros HQ. apply wp_bind, (wp_mapM_commit balance_commit). intros bs s1 K1 HK1 E1 Hb.
  apply wp_bind, (wp_mapM_commit order_commit). intros os s2 K2 HK2 E2 Ho.
  apply wp_bind, (wp_mapM_commit fee_commit). intros fs s3 K3 HK3 E3 Hf.
  apply wp_bind, (wp_commit_prover (T := keychain_commit)). intros ks s4 K4 HK4 E4 Hk.
  apply wp_bind, wp_commit. intros r s5 E5 Hr Vr. apply wp_ret, HQ; [done|extended|].
  assert (extends s3 s5) as E35 by extended. assert (extends s2 s5) as E25 by extended.
  assert (extends s1 s5) as E15 by extended.
  constructor; cbn; [..|done|done]; eauto using allocated_extends, allocated_list_extends.
Qed.
End wallets.
