(* ===== verification/Merkle.v ===== *)
(** Merkle openings: circuits/src/zk_gadgets/merkle.rs, and the native
    authentication paths of core/src/state/wallet.rs.

    The gadgets build their hashers with [PoseidonSpongeParameters::default()],
    which [Poseidon.params_default_eq] shows to be [default_params]. *)

From Stdlib Require Import Zmod.
From S2P Require Import Prelude Primality Field ConstraintSystem ListR1CS Gates Comparators.
From S2P Require Import Arithmetic PoseidonConstants Poseidon.

#[local] Open Scope Zmod_scope.
#[local] Open Scope circuit_scope.

(** The two-to-one hash of the tree, on scalars. *)
Abbreviation hash2 := (fun l r => Native.sponge default_params [l; r]).

(** * The gadget *)

Section gadget.
  Context {C : ConstraintSystem}.

Record MerkleOpeningVar := { mo_elems : list R1CSVar; mo_indices : list R1CSVar }.

(** [PoseidonMerkleHashGadget::leaf_hash] *)
Definition leaf_hash (values : list LinearCombination) : circuit LinearCombination :=
  let hasher := PoseidonHashGadget.new default_params in
  let! hasher := PoseidonHashGadget.batch_absorb default_params hasher values in
  let! (out, _) := PoseidonHashGadget.squeeze default_params hasher in
  c_ret out.

(** [PoseidonMerkleHashGadget::hash_internal_nodes] *)
Definition hash_internal_nodes (left right : LinearCombination) : circuit LinearCombination :=
  let hasher := PoseidonHashGadget.new default_params in
  let! hasher := PoseidonHashGadget.batch_absorb default_params hasher [left; right] in
  let! (out, _) := PoseidonHashGadget.squeeze default_params hasher in
  c_ret out.

(** [PoseidonMerkleHashGadget::select_left_right] *)
Definition select_left_right (current_hash sister_node lr_select : LinearCombination)
    : circuit (LinearCombination * LinearCombination) :=
  let! (_, _, left_child_term1) := multiply current_hash (- lr_select + lc_scalar 1)%lc in
  let! (_, _, left_child_term2) := multiply sister_node lr_select in
  let left_child := (left_child_term1 + left_child_term2)%lc in
  let right_child := (current_hash + sister_node - left_child)%lc in
  c_ret (left_child, right_child).

(** [PoseidonMerkleHashGadget::compute_root_prehashed] *)
Definition compute_root_prehashed (leaf_node : LinearCombination) (opening : MerkleOpeningVar)
    : circuit LinearCombination :=
  foldM (fun current_hash '(path_elem, lr_select) =>
      let! (lhs, rhs) := select_left_right current_hash (lc_var path_elem) (lc_var lr_select) in
      hash_internal_nodes lhs rhs)
    leaf_node (zip (mo_elems opening) (mo_indices opening)).

(** [PoseidonMerkleHashGadget::compute_root] *)
Definition compute_root (leaf_node : list LinearCombination) (opening : MerkleOpeningVar)
    : circuit LinearCombination :=
  let! leaf_hash := leaf_hash leaf_node in
  compute_root_prehashed leaf_hash opening.

(** [PoseidonMerkleHashGadget::compute_and_constrain_root] *)
Definition compute_and_constrain_root (leaf_node : list LinearCombination)
    (opening : MerkleOpeningVar) (expected_root : LinearCombination) : circuit unit :=
  let! root := compute_root leaf_node opening in
  constrain (expected_root - root)%lc.

(** [PoseidonMerkleHashGadget::compute_and_constrain_root_prehashed] *)
Definition compute_and_constrain_root_prehashed (leaf_node : LinearCombination)
    (opening : MerkleOpeningVar) (expected_root : LinearCombination) : circuit unit :=
  let! root := compute_root_prehashed leaf_node opening in
  constrain (expected_root - root)%lc.

(** [impl CommitProver for MerkleOpening] *)
Definition commit_opening (elems indices : list Scalar) : circuit MerkleOpeningVar :=
  let! opening_vars := mapM commit elems in
  let! index_vars := mapM commit indices in
  c_ret {| mo_elems := opening_vars; mo_indices := index_vars |}.
End gadget.

(** * The native path *)

Record MerkleOpening := { opening_elems : list Scalar; opening_indices : list Scalar }.

Record MerkleTreeCoords := { height : nat; index : Z }.

Definition MERKLE_HEIGHT : nat := 32.

Module MerkleAuthenticationPath.

Record t := { path_siblings : list Scalar; leaf_index : Z; value : Scalar }.

(** [MerkleAuthenticationPath::compute_authentication_path_coords] *)
Fixpoint path_coords (current_index : Z) (heights : list nat) : list MerkleTreeCoords :=
  match heights with
  | [] => []
  | height :: heights' =>
      let sibling_index :=
        (if current_index mod 2 =? 0 then current_index + 1 else current_index - 1)%Z in
      {| height := height; index := sibling_index |} :: path_coords (Z.shiftr current_index 1) heights'
  end.

Definition compute_authentication_path_coords (self : t) : list MerkleTreeCoords :=
  path_coords (leaf_index self) (rev (seq 1 MERKLE_HEIGHT)).

(** [MerkleAuthenticationPath::compute_root]; the hash of two scalars is
    [compute_poseidon_hash] of the circuits crate *)
Fixpoint fold_path (compute_poseidon_hash : list Scalar -> Scalar) (current_index : Z)
    (current_value : Scalar) (siblings : list Scalar) : Scalar :=
  match siblings with
  | [] => current_value
  | sibling :: siblings' =>
      let current_value :=
        (if (current_index mod 2 =? 0)%Z then compute_poseidon_hash [current_value; sibling]
         else compute_poseidon_hash [sibling; current_value]) in
      fold_path compute_poseidon_hash (Z.shiftr current_index 1) current_value siblings'
  end.

Definition compute_root (compute_poseidon_hash : list Scalar -> Scalar) (self : t) : Scalar :=
  fold_path compute_poseidon_hash (leaf_index self) (value self) (path_siblings self).

(** [impl From<MerkleAuthenticationPath> for MerkleOpening] *)
Definition into_opening (native_path : t) : MerkleOpening := {|
  opening_elems := path_siblings native_path;
  opening_indices := (fun bit : nat => if Z.testbit (leaf_index native_path) (Z.of_nat bit)
                                       then 1 else 0) <$> seq 0 MERKLE_HEIGHT |}.
End MerkleAuthenticationPath.

(** * What the gadget computes *)

(** One level of the path on scalars, for an index that need not be a bit. *)
Definition select_pair (cur e i : Scalar) : Scalar * Scalar :=
  let left := cur * (1 - i) + e * i in (left, cur + e - left).

Fixpoint root_of (cur : Scalar) (path : list (Scalar * Scalar)) : Scalar :=
  match path with
  | [] => cur
  | (e, i) :: path' => let '(l, r) := select_pair cur e i in root_of (hash2 l r) path'
  end.

(** The values of the elements and of the indices of an opening. *)
Definition path_values {C : ConstraintSystem} (f : R1CSVar -> Scalar) (o : MerkleOpeningVar)
    : list (Scalar * Scalar) := (fun '(e, i) => (f e, f i)) <$> zip (mo_elems o) (mo_indices o).

Section sound.
  Context {C : ConstraintSystem} {L : ConstraintSystemLaws C}.

Lemma leaf_hash_sound l :
  sound (leaf_hash l) (fun w out => lc_eval w out = Native.sponge default_params (lc_eval w <$> l)).
Proof.
  unfold leaf_hash. apply sound_assoc.
  eapply sound_bind; [apply Refinement.digest_sound, default_params_ok|]. intros [out h].
  apply sound_ret. intros w _ ->. apply native_hash_sponge, default_params_ok.
Qed.

Lemma select_left_right_sound cur e i :
  sound (select_left_right cur e i) (fun w '(l, r) =>
    (lc_eval w l, lc_eval w r) = select_pair (lc_eval w cur) (lc_eval w e) (lc_eval w i)).
Proof.
  unfold select_left_right. do 2 sound_step. apply sound_ret.
  intros w Hv (_ & _ & H2) (_ & _ & H1). unfold select_pair. lc_simpl. rewrite H1, H2.
  lc_simpl. f_equal; ring.
Qed.

Lemma root_step_sound cur (e i : R1CSVar) :
  sound (let! (lhs, rhs) := select_left_right cur (lc_var e) (lc_var i) in
         hash_internal_nodes lhs rhs) (fun w out => forall path,
    root_of (lc_eval w cur) ((w e, w i) :: path) = root_of (lc_eval w out) path).
Proof.
  eapply sound_bind; [apply select_left_right_sound|]. intros [l r].
  eapply sound_weaken; [apply (leaf_hash_sound [l; r])|]. intros w out _ Ho Hlr path.
  rewrite !lc_eval_var in Hlr. cbn [root_of]. rewrite <- Hlr. by rewrite Ho.
Qed.

Lemma compute_root_prehashed_sound leaf o :
  sound (compute_root_prehashed leaf o) (fun w out =>
    lc_eval w out = root_of (lc_eval w leaf) (path_values w o)).
Proof.
  unfold compute_root_prehashed, path_values. revert leaf. generalize (zip (mo_elems o) (mo_indices o)) as l.
  induction l as [|[e i] l IH]; intros leaf; cbn [foldM fmap list_fmap].
  - by apply sound_ret.
  - eapply sound_bind; [apply root_step_sound|]. intros out.
    eapply sound_weaken; [apply IH|]. intros w out' _ -> ->. done.
Qed.
End sound.

Section honest.
  Context {C : ConstraintSystem} {L : ConstraintSystemLaws C} {P : ProverLaws C}.

Lemma wp_leaf_hash l s (Q : LinearCombination -> cs -> Prop -> Prop) :
  Forall (lc_scoped s) l ->
  (forall out s' (K : Prop), K -> extends s s' -> lc_scoped s' out ->
    value s' out = Native.sponge default_params (value s' <$> l) -> Q out s' K) ->
  wp (leaf_hash l) s Q.
Proof.
  intros Hl HQ. unfold leaf_hash.
  apply wp_assoc, wp_bind, (Refinement.wp_digest _ default_params_ok); [done|].
  intros out h s' K HK E Ho _ _ _ _ Vo. apply wp_ret, HQ; try done.
  rewrite Vo. apply native_hash_sponge, default_params_ok.
Qed.

Lemma wp_select_left_right cur e i s (Q : LinearCombination * LinearCombination -> cs -> Prop -> Prop) :
  lc_scoped s cur -> lc_scoped s e -> lc_scoped s i ->
  (forall l r s' (K : Prop), K -> extends s s' -> lc_scoped s' l -> lc_scoped s' r ->
    (value s' l, value s' r) = select_pair (value s' cur) (value s' e) (value s' i) ->
    Q (l, r) s' K) ->
  wp (select_left_right cur e i) s Q.
Proof.
  intros Hc He Hi HQ. unfold select_left_right.
  apply wp_bind, wp_multiply; [scoped..|]. intros ? ? o1 s1 E1 _ _ Ho1 _ _ V1.
  revert V1. value_simpl. intros V1. advance E1.
  apply wp_bind, wp_multiply; [scoped..|]. intros ? ? o2 s2 E2 _ _ Ho2 _ _ V2. advance E2.
  apply wp_ret, HQ; [done|extended|scoped|scoped|]. unfold select_pair. value_simpl.
  rewrite V1, V2. f_equal; ring.
Qed.

Definition opening_scoped (s : cs) (o : MerkleOpeningVar) : Prop :=
  Forall (fun '(e, i) => lc_scoped s (lc_var e) /\ lc_scoped s (lc_var i))
    (zip (mo_elems o) (mo_indices o)).

Definition var_value (s : cs) (v : R1CSVar) : Scalar := value s (lc_var v).

Lemma wp_compute_root_prehashed leaf o s (Q : LinearCombination -> cs -> Prop -> Prop) :
  lc_scoped s leaf -> opening_scoped s o ->
  (forall out s' (K : Prop), K -> extends s s' -> lc_scoped s' out ->
    value s' out = root_of (value s' leaf) (path_values (var_value s') o) ->
    Q out s' K) ->
  wp (compute_root_prehashed leaf o) s Q.
Proof.
  unfold compute_root_prehashed, path_values, opening_scoped.
  generalize (zip (mo_elems o) (mo_indices o)) as l. intros l.
  revert leaf s Q; induction l as [|[e i] l IH]; intros leaf s Q Hleaf Ho HQ;
    cbn [foldM fmap list_fmap].
  - by apply wp_ret, HQ; try apply extends_refl.
  - apply Forall_cons in Ho as [[He Hi] Ho].
    apply wp_bind, wp_bind, wp_select_left_right; [done..|].
    intros lhs rhs s1 K1 HK1 E1 Hl Hr V1. advance E1.
    apply (wp_leaf_hash [lhs; rhs]); [repeat constructor; done|].
    intros out s2 K2 HK2 E2 Hout Vout. cbn [fmap list_fmap] in Vout. advance E2.
    apply IH; [done| |].
    + eapply Forall_impl; [exact Ho|]. intros [e' i'] [He' Hi'].
      split; eapply extends_scoped; try eassumption; eapply extends_scoped; eassumption.
    + intros out' s3 K3 HK3 E3 Hout' V3. advance E3. apply HQ; [done|extended|done|].
      rewrite V3, Vout, fmap_cons. cbn [root_of].
      change (var_value s3 e) with (value s3 (lc_var e)).
      change (var_value s3 i) with (value s3 (lc_var i)). by rewrite <- V1.
Qed.

Lemma path_values_extends s s' o :
  extends s s' -> opening_scoped s o ->
  path_values (var_value s') o = path_values (var_value s) o.
Proof.
  unfold path_values, opening_scoped, var_value. intros E.
  induction 1 as [|[e i] l [He Hi] _ IH]; [done|]. cbn [fmap list_fmap].
  by rewrite (extends_value s s' _ E He), (extends_value s s' _ E Hi), IH.
Qed.

Lemma opening_scoped_extends s s' o : extends s s' -> opening_scoped s o -> opening_scoped s' o.
Proof.
  intros E H. eapply Forall_impl; [exact H|].
  intros [e i] [He Hi]. split; by eapply extends_scoped.
Qed.

Lemma wp_compute_and_constrain_root_prehashed leaf o root s (Q : unit -> cs -> Prop -> Prop) :
  lc_scoped s leaf -> opening_scoped s o -> lc_scoped s root ->
  (forall s' (K : Prop), extends s s' ->
    (K <-> value s' root = root_of (value s' leaf) (path_values (var_value s') o)) -> Q tt s' K) ->
  wp (compute_and_constrain_root_prehashed leaf o root) s Q.
Proof.
  intros Hleaf Ho Hroot HQ. apply wp_bind, wp_compute_root_prehashed; [done..|].
  intros out s1 K1 HK1 E1 Hout Vout. advance E1. apply (opening_scoped_extends s s1) in Ho; [|done].
  apply wp_constrain; [scoped|]. intros s2 E2. value_simpl. apply HQ; [extended|].
  rewrite <- (path_values_extends s1 s2) in Vout by done. advance E2.
  rewrite scalar_sub_zero, Vout. tauto.
Qed.
End honest.

(** * The gadget and the native path *)

Lemma select_pair_bit cur e (b : bool) :
  select_pair cur e (if b then 1 else 0) = if b then (e, cur) else (cur, e).
Proof. unfold select_pair. destruct b; f_equal; ring. Qed.

Lemma fold_path_root_of (hash : list Scalar -> Scalar) :
  (forall l, hash l = Native.sponge default_params l) ->
  forall siblings n leaf_index cur,
  root_of cur (zip siblings ((fun bit : nat => if Z.testbit leaf_index (Z.of_nat bit) then 1 else 0)
    <$> seq n (length siblings))) =
  MerkleAuthenticationPath.fold_path hash (Z.shiftr leaf_index (Z.of_nat n)) cur siblings.
Proof.
  intros Hh. induction siblings as [|e siblings IH]; intros n leaf_index cur; [done|].
  cbn [length seq fmap list_fmap zip_with root_of MerkleAuthenticationPath.fold_path].
  rewrite select_pair_bit, Z.shiftr_shiftr by lia.
  replace (Z.of_nat n + 1)%Z with (Z.of_nat (S n)) by lia. rewrite <- IH.
  rewrite <- Z.bit0_mod, Z.shiftr_spec, Z.add_0_l by lia.
  destruct (Z.testbit leaf_index (Z.of_nat n)); cbn [Z.b2z Z.eqb]; by rewrite !Hh.
Qed.

(** The values of an opening committed from a native path lead to the native
    root. *)
Lemma native_root (hash : list Scalar -> Scalar) path :
  (forall l, hash l = Native.sponge default_params l) ->
  length (MerkleAuthenticationPath.path_siblings path) = MERKLE_HEIGHT ->
  let o := MerkleAuthenticationPath.into_opening path in
  root_of (MerkleAuthenticationPath.value path) (zip (opening_elems o) (opening_indices o)) =
  MerkleAuthenticationPath.compute_root hash path.
Proof.
  intros Hh Hl. cbn [opening_elems opening_indices MerkleAuthenticationPath.into_opening].
  rewrite <- Hl. by apply (fold_path_root_of hash Hh _ 0).
Qed.

Lemma sibling_index_lxor i : (if i mod 2 =? 0 then i + 1 else i - 1)%Z = Z.lxor i 1.
Proof.
  assert (forall j, j mod 2 = 0 -> j + 1 = Z.lxor j 1)%Z as Heven.
  { intros j Hj. apply Z.add_nocarry_lxor. rewrite <- Hj. by apply (Z.land_ones j 1). }
  destruct (Z.eqb_spec (i mod 2) 0) as [E|E]; [by apply Heven|].
  pose proof (Z.mod_pos_bound i 2 ltac:(lia)).
  assert ((i - 1) mod 2 = 0)%Z as E1 by (rewrite Zminus_mod; replace (i mod 2)%Z with 1%Z by lia; done).
  specialize (Heven _ E1). replace (i - 1 + 1)%Z with i in Heven by lia.
  rewrite Heven at 2. by rewrite Z.lxor_assoc, Z.lxor_nilpotent, Z.lxor_0_r.
Qed.

(** Each coordinate of the authentication path is the sibling of the node at that
    level. *)
Lemma path_coords_spec heights : forall i k h,
  heights !! k = Some h ->
  MerkleAuthenticationPath.path_coords i heights !! k =
  Some {| height := h; index := Z.lxor (Z.shiftr i (Z.of_nat k)) 1 |}.
Proof.
  induction heights as [|h0 heights IH]; intros i k h Hk; [done|].
  cbn [MerkleAuthenticationPath.path_coords]. rewrite sibling_index_lxor. destruct k as [|k].
  - injection Hk as ->. done.
  - cbn. rewrite (IH _ _ h Hk), Z.shiftr_shiftr by lia.
    by replace (1 + Z.of_nat k)%Z with (Z.of_nat (S k)) by lia.
Qed.

(** * Forged openings *)

(** The index of a level need not be a bit, so any pair [(l, r)] can be selected
    from a node [c]: the sister is [l + r - c], and the index solves a linear
    equation. *)
Definition forged_sister (c l r : Scalar) : Scalar := l + r - c.
Definition forged_index (c l r : Scalar) : Scalar := (l - c) * Zmod.inv (l + r - c - c).

Lemma select_pair_forged c l r :
  l + r <> c + c -> select_pair c (forged_sister c l r) (forged_index c l r) = (l, r).
Proof.
  intros Hne. unfold select_pair, forged_sister, forged_index.
  assert (l + r - c - c <> 0) as Hd.
  { intros H. apply Hne. transitivity (l + r - c - c + (c + c)); [ring|]. rewrite H. ring. }
  pose proof (scalar_inv_r _ Hd) as Hinv. set (inv := Zmod.inv (l + r - c - c)) in *.
  assert (c * (1 - (l - c) * inv) + (l + r - c) * ((l - c) * inv) = l) as Hl.
  { transitivity (c + (l - c) * ((l + r - c - c) * inv)); [ring|]. rewrite Hinv. ring. }
  rewrite Hl. f_equal. ring.
Qed.

(** A path of at least one level can be rewritten to lead from any other leaf to
    the same root. *)
Lemma forged_path leaf c e i path :
  leaf + e <> c + c ->
  let '(l, r) := select_pair leaf e i in
  root_of c ((forged_sister c l r, forged_index c l r) :: path) = root_of leaf ((e, i) :: path).
Proof.
  intros Hne. destruct (select_pair leaf e i) as [l r] eqn:Hsel. cbn [root_of].
  rewrite Hsel, select_pair_forged; [done|].
  assert (l + r = leaf + e) as ->; [|done].
  unfold select_pair in Hsel. apply pair_equal_spec in Hsel as [<- <-]. ring.
Qed.

(** * Committed openings *)

Section committed.
  Context {C : ConstraintSystem} {L : ConstraintSystemLaws C} {P : ProverLaws C}.

Lemma zip_vars s (l k : list R1CSVar) :
  (fun '(e, i) => (var_value s e, var_value s i)) <$> zip l k =
  zip (value s <$> vars l) (value s <$> vars k).
Proof. revert k; induction l as [|x l IH]; intros [|y k]; cbn; try done. f_equal. apply IH. Qed.

Lemma wp_commit_opening elems indices s (Q : MerkleOpeningVar -> cs -> Prop -> Prop) :
  (forall o s' (K : Prop), K -> extends s s' -> opening_scoped s' o ->
    path_values (var_value s') o = zip elems indices -> Q o s' K) ->
  wp (commit_opening elems indices) s Q.
Proof.
  intros HQ. apply wp_bind, wp_commit_list. intros es s1 K1 HK1 E1 Hes Ves.
  apply wp_bind, wp_commit_list. intros ks s2 K2 HK2 E2 His Vis. advance E2.
  apply wp_ret, HQ; [done|extended| |].
  - unfold opening_scoped. cbn. clear Ves Vis. revert ks His.
    induction es as [|e es IH]; intros [|i ks] His; cbn; try by constructor.
    apply Forall_cons in Hes as [He Hes]. apply Forall_cons in His as [Hi His].
    constructor; auto.
  - unfold path_values. cbn. by rewrite zip_vars, Ves, Vis.
Qed.

(** C26: The Merkle gadget computes the root of the native authentication path.  Run
    honestly on the opening of a native path it verifies and returns the root
    that the relayer computes, and in every satisfying assignment whose variables
    carry the opening the output is that root. *)
Theorem merkle_refines_native (hash : list Scalar -> Scalar) path :
  (forall l, hash l = Native.sponge default_params l) ->
  length (MerkleAuthenticationPath.path_siblings path) = MERKLE_HEIGHT ->
  let opening := MerkleAuthenticationPath.into_opening path in
  let root := MerkleAuthenticationPath.compute_root hash path in
  (forall s, wp (let! o := commit_opening (opening_elems opening) (opening_indices opening) in
       let! leaf := commit (MerkleAuthenticationPath.value path) in
       compute_root_prehashed leaf o) s (fun out s' K => K /\ value s' out = root)) /\
  (forall leaf o, sound (compute_root_prehashed leaf o) (fun w out =>
     lc_eval w leaf = MerkleAuthenticationPath.value path ->
     path_values w o = zip (opening_elems opening) (opening_indices opening) ->
     lc_eval w out = root)).
Proof.
  intros Hh Hl opening root. pose proof (native_root hash path Hh Hl) as Hroot.
  fold opening root in Hroot. split.
  - intros s. apply wp_bind, wp_commit_opening. intros o s1 K1 HK1 E1 Ho Vo.
    apply wp_bind, wp_commit. intros leaf s2 E2 Hleaf Vleaf.
    apply wp_compute_root_prehashed; [done|by apply (opening_scoped_extends s1)|].
    intros out s3 K3 HK3 E3 Hout Vout. split; [done|].
    rewrite <- (path_values_extends s1 s2) in Vo by done.
    rewrite <- (path_values_extends s2 s3) in Vo by (try apply (opening_scoped_extends s1); done).
    rewrite Vout, Vo, <- Hroot. advance E3. by rewrite Vleaf.
  - intros leaf o. eapply sound_weaken; [apply compute_root_prehashed_sound|].
    intros w out _ -> -> ->. done.
Qed.

(** C35: Membership in the tree is forgeable.  The index of each level is not
    constrained to be a bit, so for a path to the root and any other leaf [c]
    there is an opening with the same number of levels for which the prover's
    run on [c] verifies against the same root.  (The condition excludes the leaf
    for which the linear equation of the index is degenerate.) *)
Theorem merkle_membership_forgeable leaf e i path (c : Scalar) :
  leaf + e <> c + c ->
  exists elems indices, length elems = S (length path) /\ length indices = S (length path) /\
  forall s, wp (let! o := commit_opening elems indices in
      let! leaf_var := commit c in
      let! root_var := commit_public (root_of leaf ((e, i) :: path)) in
      compute_and_constrain_root_prehashed leaf_var o root_var) s (fun _ _ K => K).
Proof.
  intros Hne. pose proof (forged_path leaf c e i path Hne) as Hf.
  destruct (select_pair leaf e i) as [l r]. set (path' := (_, _) :: path) in Hf.
  exists (fst <$> path'), (snd <$> path'). rewrite !length_fmap. split_and!; [done..|].
  intros s. apply wp_bind, wp_commit_opening. intros o s1 K1 HK1 E1 Ho Vo.
  apply wp_bind, wp_commit. intros lv s2 E2 Hlv Vlv. apply (opening_scoped_extends s1 s2) in Ho as Ho2; [|done].
  apply wp_bind, wp_commit_public. intros rv s3 E3 Hrv Vrv. advance E3.
  apply (opening_scoped_extends s2 s3) in Ho2 as Ho3; [|done].
  apply wp_compute_and_constrain_root_prehashed; [done..|].
  intros s4 K4 E4 HK4. advance E4. split_and!; try done. apply HK4.
  rewrite Vrv, Vlv, <- Hf. f_equal.
  rewrite (path_values_extends s3 s4), (path_values_extends s2 s3), (path_values_extends s1 s2), Vo by done.
  symmetry. apply zip_fst_snd.
Qed.
End committed.

(** The [k]-th coordinate of an authentication path is at height
    [MERKLE_HEIGHT - k] and names the sibling, in which the lowest bit of the index
    of the node is flipped. *)
Theorem authentication_path_coords path k :
  (k < MERKLE_HEIGHT)%nat ->
  MerkleAuthenticationPath.compute_authentication_path_coords path !! k =
  Some {| height := (MERKLE_HEIGHT - k)%nat;
          index := Z.lxor (Z.shiftr (MerkleAuthenticationPath.leaf_index path) (Z.of_nat k)) 1 |}.
Proof.
  intros Hk. apply path_coords_spec.
  change (rev (seq 1 MERKLE_HEIGHT)) with (reverse (seq 1 MERKLE_HEIGHT)).
  rewrite reverse_lookup by (by rewrite length_seq). rewrite length_seq, lookup_seq_lt by lia.
  f_equal. lia.
Qed.

(** ** Witnesses *)

Definition sample_path : MerkleAuthenticationPath.t := {|
  MerkleAuthenticationPath.path_siblings := replicate MERKLE_HEIGHT (scalar 3);
  MerkleAuthenticationPath.leaf_index := 5;
  MerkleAuthenticationPath.value := scalar 9 |}.

Lemma merkle_refines_native_witness :
  let opening := MerkleAuthenticationPath.into_opening sample_path in
  cs_wf (with_values []) /\
  wp (let! o := commit_opening (opening_elems opening) (opening_indices opening) in
      let! leaf := commit (scalar 9) in compute_root_prehashed leaf o) (with_values [])
    (fun out s' K => K /\ value s' out =
       MerkleAuthenticationPath.compute_root (Native.sponge default_params) sample_path).
Proof.
  split; [scoped|].
  apply (merkle_refines_native (Native.sponge default_params) sample_path); done.
Defined.

(** The value 7 is proved to be a member of the tree with the leaves 1 and 2. *)
Lemma merkle_membership_forgeable_witness :
  exists elems indices, length elems = 1%nat /\ length indices = 1%nat /\
  forall s : @cs list_cs, wp (let! o := commit_opening elems indices in
      let! leaf_var := commit (scalar 7) in
      let! root_var := commit_public (root_of (scalar 1) [(scalar 2, 0)]) in
      compute_and_constrain_root_prehashed leaf_var o root_var) s (fun _ _ K => K).
Proof. apply (merkle_membership_forgeable (scalar 1) (scalar 2) 0 [] (scalar 7)). by vm_compute. Defined.

Lemma authentication_path_coords_witness :
  MerkleAuthenticationPath.compute_authentication_path_coords sample_path !! 1%nat =
  Some {| height := 31; index := Z.lxor (Z.shiftr 5 1) 1 |}.
Proof. apply (authentication_path_coords sample_path 1). by apply Nat.ltb_lt. Defined.
