(* ===== verification/Commitments.v ===== *)
(** Commitments and nullifiers: circuits/src/zk_gadgets/commitments.rs, and the
    native helpers of circuits/src/lib.rs that compute the same values outside of a
    circuit.

    The native helpers use the Poseidon sponge of the arkworks library.  It is a
    parameter [ark_hash] of the model, from the list of absorbed field elements to
    the squeezed one; the theorems assume that it is the sponge of the
    literature. *)

From Stdlib Require Import Zmod.
From S2P Require Import Prelude Primality Field ConstraintSystem ListR1CS Gates Comparators.
From S2P Require Import Arithmetic FixedPoint PoseidonConstants Poseidon Types Merkle.

#[local] Open Scope Zmod_scope.
#[local] Open Scope circuit_scope.

(** * Gadgets *)

Section gadgets.
  Context {C : ConstraintSystem}.

Abbreviation absorb_all := (PoseidonHashGadget.batch_absorb default_params).

(** [hasher.squeeze(cs)], of which only the element is used *)
Definition squeeze_elem (h : hasher LinearCombination) : circuit LinearCombination :=
  let! (out, _) := PoseidonHashGadget.squeeze default_params h in
  c_ret out.

(** [WalletCommitGadget::wallet_commit] *)
Definition wallet_commit (wallet : WalletVar) : circuit LinearCombination :=
  let hasher := PoseidonHashGadget.new default_params in
  let! hasher := foldM (fun hasher balance =>
    absorb_all hasher [lc_var (bv_mint balance); lc_var (bv_amount balance)])
    hasher (wv_balances wallet) in
  let! hasher := foldM (fun hasher order =>
    absorb_all hasher [lc_var (ov_quote_mint order); lc_var (ov_base_mint order);
      lc_var (ov_side order); FixedPointVar.repr (ov_price order); lc_var (ov_amount order)])
    hasher (wv_orders wallet) in
  let! hasher := foldM (fun hasher fee =>
    absorb_all hasher [lc_var (fv_settle_key fee); lc_var (fv_gas_addr fee);
      lc_var (fv_gas_token_amount fee); FixedPointVar.repr (fv_percentage_fee fee)])
    hasher (wv_fees wallet) in
  let! hasher := absorb_all hasher
    [lc_var (kv_pk_root (wv_keys wallet)); lc_var (kv_pk_match (wv_keys wallet));
     lc_var (kv_pk_settle (wv_keys wallet)); lc_var (kv_pk_view (wv_keys wallet))] in
  let! hasher := PoseidonHashGadget.absorb default_params hasher (lc_var (wv_randomness wallet)) in
  squeeze_elem hasher.

(** [NoteCommitmentGadget::note_commit] *)
Definition note_commit (note : NoteVar) (recipient_pub_key : R1CSVar) : circuit LinearCombination :=
  let hasher := PoseidonHashGadget.new default_params in
  let! hasher := absorb_all hasher
    [lc_var (nv_mint1 note); lc_var (nv_volume1 note); lc_var (nv_direction1 note);
     lc_var (nv_mint2 note); lc_var (nv_volume2 note); lc_var (nv_direction2 note);
     lc_var (nv_fee_mint note); lc_var (nv_fee_volume note); lc_var (nv_fee_direction note);
     lc_var (nv_type note); lc_var (nv_randomness note); lc_var recipient_pub_key] in
  squeeze_elem hasher.

(** [NullifierGadget::spend_nullifier] *)
Definition spend_nullifier (wallet_randomness : R1CSVar) (wallet_commit : LinearCombination)
    : circuit LinearCombination :=
  let hasher := PoseidonHashGadget.new default_params in
  let! hasher := absorb_all hasher [wallet_commit; lc_var wallet_randomness] in
  squeeze_elem hasher.

(** [NullifierGadget::match_nullifier] *)
Definition match_nullifier (wallet_randomness : R1CSVar) (wallet_commit : LinearCombination)
    : circuit LinearCombination :=
  let hasher := PoseidonHashGadget.new default_params in
  let! hasher := absorb_all hasher
    [wallet_commit; (lc_var wallet_randomness + lc_scalar 1)%lc] in
  squeeze_elem hasher.

(** [NullifierGadget::note_redeem_nullifier] *)
Definition note_redeem_nullifier (pk_settle_receiver : R1CSVar) (note_commitment : LinearCombination)
    : circuit LinearCombination :=
  let hasher := PoseidonHashGadget.new default_params in
  let! hasher := absorb_all hasher [note_commitment; lc_var pk_settle_receiver] in
  squeeze_elem hasher.
End gadgets.

(** * Native helpers *)

Section native.
  Context (ark_hash : list Scalar -> Scalar) (scalar_to_u64 : Scalar -> Z).

(** [native_helpers::compute_poseidon_hash] *)
Definition compute_poseidon_hash (values : list Scalar) : Scalar := ark_hash values.

(** The elements that [compute_wallet_commitment] absorbs; a [u64] is absorbed as the
    field element of its value, a big integer as its residue. *)
Definition balance_preimage (b : Balance) : list Scalar :=
  [scalar (balance_mint b); scalar (balance_amount b)].

Definition order_preimage (o : Order) : list Scalar :=
  [scalar (order_quote_mint o); scalar (order_base_mint o);
   scalar (side_to_u64 (order_side o));
   scalar (scalar_to_u64 (FixedPoint.repr (order_price o))); scalar (order_amount o)].

Definition fee_preimage (f : Fee) : list Scalar :=
  [scalar (fee_settle_key f); scalar (fee_gas_addr f); scalar (fee_gas_token_amount f);
   scalar (scalar_to_u64 (FixedPoint.repr (fee_percentage_fee f)))].

(** [native_helpers::compute_wallet_commitment] *)
Definition compute_wallet_commitment (wallet : Wallet) : Scalar :=
  ark_hash (concat (balance_preimage <$> wallet_balances wallet) ++
    concat (order_preimage <$> wallet_orders wallet) ++
    concat (fee_preimage <$> wallet_fees wallet) ++
    keychain_to_vec (wallet_keys wallet) ++ [wallet_randomness wallet]).

(** [native_helpers::compute_note_commitment] *)
Definition compute_note_commitment (note : Note) (pk_settle_receiver : Scalar) : Scalar :=
  ark_hash [scalar (note_mint1 note); scalar (note_volume1 note);
    scalar (side_to_u64 (note_direction1 note)); scalar (note_mint2 note);
    scalar (note_volume2 note); scalar (side_to_u64 (note_direction2 note));
    scalar (note_fee_mint note); scalar (note_fee_volume note);
    scalar (side_to_u64 (note_fee_direction note)); note_type_to_scalar (note_type note);
    scalar (note_randomness note); pk_settle_receiver].

(** [native_helpers::compute_wallet_spend_nullifier] *)
Definition compute_wallet_spend_nullifier (wallet : Wallet) (commitment : Scalar) : Scalar :=
  ark_hash [commitment; wallet_randomness wallet].

(** [native_helpers::compute_wallet_match_nullifier] *)
Definition compute_wallet_match_nullifier (wallet : Wallet) (commitment : Scalar) : Scalar :=
  ark_hash [commitment; wallet_randomness wallet + 1].

(** [native_helpers::compute_note_redeem_nullifier] *)
Definition compute_note_redeem_nullifier (note_commitment pk_settle_receiver : Scalar) : Scalar :=
  ark_hash [note_commitment; pk_settle_receiver].
End native.

(** * The wallet gadget as a single hash *)

Section wallet.
  Context {C : ConstraintSystem}.

(** The variables that the wallet gadget hashes, in order. *)
Definition order_hash_lcs (o : OrderVar) : list LinearCombination :=
  [lc_var (ov_quote_mint o); lc_var (ov_base_mint o); lc_var (ov_side o);
   FixedPointVar.repr (ov_price o); lc_var (ov_amount o)].

Definition wallet_lcs (w : WalletVar) : list LinearCombination :=
  concat (balance_lcs <$> wv_balances w) ++ concat (order_hash_lcs <$> wv_orders w) ++
  concat (fee_lcs <$> wv_fees w) ++ keychain_lcs (wv_keys w) ++ [lc_var (wv_randomness w)].

Lemma c_bind_ext {A B} (m m' : circuit A) (k k' : A -> circuit B) s :
  m s = m' s -> (forall a s, k a s = k' a s) -> c_bind m k s = c_bind m' k' s.
Proof. intros Hm Hk. unfold c_bind. rewrite Hm. destruct (m' s) as [[? ?]| |]; auto. Qed.

Lemma foldM_app_bind {A B D} (f : B -> A -> circuit B) l k b (K : B -> circuit D) s :
  c_bind (foldM f b (l ++ k)) K s =
  c_bind (foldM f b l) (fun b' => c_bind (foldM f b' k) K) s.
Proof.
  rewrite <- c_bind_assoc. unfold c_bind at 1 2. by rewrite foldM_app.
Qed.

Lemma wallet_commit_digest w s : wallet_commit w s = leaf_hash (wallet_lcs w) s.
Proof.
  unfold wallet_commit, leaf_hash, wallet_lcs, PoseidonHashGadget.batch_absorb. cbn zeta.
  set (f := PoseidonHashGadget.absorb default_params).
  rewrite foldM_app_bind. apply c_bind_ext; [apply foldM_concat|]. intros h1 s1.
  rewrite foldM_app_bind. apply c_bind_ext; [apply foldM_concat|]. intros h2 s2.
  rewrite foldM_app_bind. apply c_bind_ext; [apply foldM_concat|]. intros h3 s3.
  rewrite foldM_app_bind. apply c_bind_ext; [done|]. intros h4 s4.
  apply c_bind_ext; [|done]. cbn [foldM]. unfold c_bind, c_ret.
  by destruct (f h4 _ s4) as [[? ?]| |].
Qed.
End wallet.

(** * What the gadgets compute *)

Section specifications.
  Context {C : ConstraintSystem} {L : ConstraintSystemLaws C} {P : ProverLaws C}.

Lemma wallet_commit_sound w :
  sound (wallet_commit w) (fun a out =>
    lc_eval a out = Native.sponge default_params (lc_eval a <$> wallet_lcs w)).
Proof. eapply sound_ext; [apply wallet_commit_digest|]. apply leaf_hash_sound. Qed.

Lemma wp_wallet_commit w s (Q : LinearCombination -> cs -> Prop -> Prop) :
  Forall (lc_scoped s) (wallet_lcs w) ->
  (forall out s' (K : Prop), K -> extends s s' -> lc_scoped s' out ->
    value s' out = Native.sponge default_params (value s' <$> wallet_lcs w) -> Q out s' K) ->
  wp (wallet_commit w) s Q.
Proof. intros Hw HQ. eapply wp_ext; [apply wallet_commit_digest|]. by apply wp_leaf_hash. Qed.

Lemma squeeze_elem_digest l s :
  (let! h := PoseidonHashGadget.batch_absorb default_params (PoseidonHashGadget.new default_params) l in
   squeeze_elem h) s = leaf_hash l s.
Proof. done. Qed.

(** A hash of a list of scoped linear combinations. *)
Lemma wp_digest_elem l s (Q : LinearCombination -> cs -> Prop -> Prop) :
  Forall (lc_scoped s) l ->
  (forall out s' (K : Prop), K -> extends s s' -> lc_scoped s' out ->
    value s' out = Native.sponge default_params (value s' <$> l) -> Q out s' K) ->
  wp (let! h := PoseidonHashGadget.batch_absorb default_params
        (PoseidonHashGadget.new default_params) l in squeeze_elem h) s Q.
Proof. intros Hl HQ. eapply wp_ext; [apply squeeze_elem_digest|]. by apply wp_leaf_hash. Qed.
End specifications.

(** * The gadgets and the native helpers *)

(** The values for which the conversions to scalars lose nothing. *)
Definition big (z : Z) : Prop := (0 <= z < 2 ^ 256)%Z.
Definition small_price (fp : FixedPoint.FixedPoint) : Prop :=
  (Zmod.to_Z (FixedPoint.repr fp) < 2 ^ 64)%Z.

Record wallet_in_range (w : Wallet) : Prop := {
  range_balances : Forall (fun b => big (balance_mint b)) (wallet_balances w);
  range_orders : Forall (fun o => big (order_quote_mint o) /\ big (order_base_mint o) /\
    small_price (order_price o)) (wallet_orders w);
  range_fees : Forall (fun f => big (fee_settle_key f) /\ big (fee_gas_addr f) /\
    small_price (fee_percentage_fee f)) (wallet_fees w);
}.

Section refinement.
  Context {C : ConstraintSystem} {L : ConstraintSystemLaws C} {P : ProverLaws C}.
  Context (scalar_to_u64 : Scalar -> Z).
  Hypothesis scalar_to_u64_small :
    forall a, (Zmod.to_Z a < 2 ^ 64)%Z -> scalar_to_u64 a = Zmod.to_Z a.

Lemma price_absorbed fp : small_price fp ->
  scalar (scalar_to_u64 (FixedPoint.repr fp)) = FixedPoint.repr fp.
Proof. intros H. rewrite scalar_to_u64_small by done. apply Zmod.of_Z_unsigned. Qed.

Lemma concat_values {A B} (T : CommitProver A B) (lcs : B -> list LinearCombination)
    (enc : A -> list Scalar) (R : A -> Prop) s l k :
  Forall R l -> Forall2 (allocated s) l k ->
  (forall x y, R x -> allocated s x y -> Forall (lc_scoped s) (lcs y) /\ value s <$> lcs y = enc x) ->
  Forall (lc_scoped s) (concat (lcs <$> k)) /\ value s <$> concat (lcs <$> k) = concat (enc <$> l).
Proof.
  intros HR H Hxy. induction H as [|x y l k Hal _ IH]; [by split; [constructor|]|].
  apply Forall_cons in HR as [HRx HR]. destruct (IH HR) as [Hs Hv].
  destruct (Hxy x y HRx Hal) as [Hsx Hvx]. cbn [fmap list_fmap concat]. split.
  - by apply Forall_app.
  - by rewrite fmap_app, Hvx, Hv.
Qed.

Lemma wallet_preimage s w v : wallet_in_range w -> wallet_allocated s w v ->
  Forall (lc_scoped s) (wallet_lcs v) /\
  value s <$> wallet_lcs v =
    concat (balance_preimage <$> wallet_balances w) ++
    concat (order_preimage scalar_to_u64 <$> wallet_orders w) ++
    concat (fee_preimage scalar_to_u64 <$> wallet_fees w) ++
    keychain_to_vec (wallet_keys w) ++ [wallet_randomness w].
Proof.
  intros [Hb Ho Hf] [Ab Ao Af [Ak Vk] Ar Vr]. unfold wallet_lcs.
  destruct (concat_values balance_commit balance_lcs balance_preimage _ s _ _ Hb Ab)
    as [Hs1 Hv1].
  { intros x y Hx [Hs Hv]. split; [done|]. cbn [var_lcs encoding balance_commit] in Hv.
    rewrite Hv. unfold balance_preimage. by rewrite biguint_to_scalar_small. }
  destruct (concat_values order_commit order_hash_lcs (order_preimage scalar_to_u64) _ s _ _ Ho Ao)
    as [Hs2 Hv2].
  { intros x y (Hq & Hbm & Hp) [Hs Hv]. cbn [var_lcs encoding order_commit] in Hs, Hv. split.
    - unfold order_lcs in Hs. repeat (apply Forall_cons in Hs as [? Hs]). by repeat constructor.
    - apply (f_equal (take 5)) in Hv. cbn [take fmap list_fmap order_lcs] in Hv.
      cbn [fmap list_fmap order_hash_lcs]. rewrite Hv. unfold order_preimage.
      by rewrite price_absorbed, !biguint_to_scalar_small. }
  destruct (concat_values fee_commit fee_lcs (fee_preimage scalar_to_u64) _ s _ _ Hf Af)
    as [Hs3 Hv3].
  { intros x y (Hk & Hg & Hp) [Hs Hv]. split; [done|].
    cbn [var_lcs encoding fee_commit] in Hv. rewrite Hv. unfold fee_preimage.
    by rewrite price_absorbed, !biguint_to_scalar_small. }
  cbn [var_lcs encoding keychain_commit] in Ak, Vk. split.
  - rewrite !Forall_app. split_and!; try done. by repeat constructor.
  - rewrite !fmap_app, Hv1, Hv2, Hv3, Vk. cbn [fmap list_fmap]. by rewrite Vr.
Qed.
End refinement.

(** * Properties *)

Section properties.
  Context {C : ConstraintSystem} {L : ConstraintSystemLaws C} {P : ProverLaws C}.

(** The commitment and the two nullifiers of a wallet, in one circuit. *)
Definition wallet_hashes (w : Wallet)
    : circuit (LinearCombination * LinearCombination * LinearCombination) :=
  let! v := commit_wallet w in
  let! commitment := wallet_commit v in
  let! spend := spend_nullifier (wv_randomness v) commitment in
  let! match_ := match_nullifier (wv_randomness v) commitment in
  c_ret (commitment, spend, match_).

Lemma wp_wallet_hashes scalar_to_u64
    (Hu64 : forall a, (Zmod.to_Z a < 2 ^ 64)%Z -> scalar_to_u64 a = Zmod.to_Z a) w s
    (Q : LinearCombination * LinearCombination * LinearCombination -> cs -> Prop -> Prop) :
  wallet_in_range w ->
  (forall c n m s' (K : Prop), K ->
    let commitment := compute_wallet_commitment (Native.sponge default_params) scalar_to_u64 w in
    value s' c = commitment ->
    value s' n = compute_wallet_spend_nullifier (Native.sponge default_params) w commitment ->
    value s' m = compute_wallet_match_nullifier (Native.sponge default_params) w commitment ->
    Q (c, n, m) s' K) ->
  wp (wallet_hashes w) s Q.
Proof.
  intros Hw HQ. apply wp_bind, wp_commit_wallet. intros v s1 K1 HK1 E1 Hv.
  destruct (wallet_preimage scalar_to_u64 Hu64 s1 w v Hw Hv) as [Hs Hp].
  destruct Hv as [_ _ _ _ Hr Vr].
  apply wp_bind, wp_wallet_commit; [done|]. intros c s2 K2 HK2 E2 Hc Vc.
  rewrite (extends_value_list s1 s2), Hp in Vc by done. advance E2.
  apply wp_bind, wp_digest_elem; [by repeat constructor|].
  intros n s3 K3 HK3 E3 Hn Vn. cbn [fmap list_fmap] in Vn. advance E3.
  apply wp_bind, wp_digest_elem; [repeat constructor; scoped|].
  intros m s4 K4 HK4 E4 Hm Vm. cbn [fmap list_fmap] in Vm. advance E4.
  rewrite value_add, value_scalar in Vm.
  apply wp_ret, HQ; [done|done|..]; cbn zeta; unfold compute_wallet_commitment,
    compute_wallet_spend_nullifier, compute_wallet_match_nullifier; rewrite <- Vc.
  - by rewrite Vn, Vr.
  - by rewrite Vm, Vr.
Qed.


(** Replaces the timestamps of the orders. *)
Definition retime (f : Order -> Z) (w : Wallet) : Wallet := {|
  wallet_balances := wallet_balances w;
  wallet_orders := (fun o => {| order_quote_mint := order_quote_mint o;
    order_base_mint := order_base_mint o; order_side := order_side o;
    order_price := order_price o; order_amount := order_amount o;
    order_timestamp := f o |}) <$> wallet_orders w;
  wallet_fees := wallet_fees w; wallet_keys := wallet_keys w;
  wallet_randomness := wallet_randomness w |}.

Lemma retime_in_range f w : wallet_in_range w -> wallet_in_range (retime f w).
Proof. intros [Hb Ho Hf]. constructor; cbn; [done| |done]. by apply Forall_fmap. Qed.

Lemma retime_commitment hash to_u64 f w :
  compute_wallet_commitment hash to_u64 (retime f w) = compute_wallet_commitment hash to_u64 w.
Proof.
  unfold compute_wallet_commitment, retime; cbn. by rewrite <- list_fmap_compose.
Qed.

(** The commitment and the nullifiers do not bind the timestamps of the orders:
    the circuit run on the wallet with other timestamps outputs those of the
    original wallet. *)
Theorem timestamps_not_committed scalar_to_u64 f w s :
  (forall a, (Zmod.to_Z a < 2 ^ 64)%Z -> scalar_to_u64 a = Zmod.to_Z a) ->
  wallet_in_range w ->
  let hash := Native.sponge default_params in
  let commitment := compute_wallet_commitment hash scalar_to_u64 w in
  wp (wallet_hashes (retime f w)) s (fun '(c, n, m) s' K => K /\ value s' c = commitment /\
    value s' n = compute_wallet_spend_nullifier hash w commitment /\
    value s' m = compute_wallet_match_nullifier hash w commitment).
Proof.
  intros Hu64 Hw hash commitment.
  apply (wp_wallet_hashes scalar_to_u64 Hu64); [by apply retime_in_range|].
  intros c n m s' K HK. rewrite retime_commitment. auto.
Qed.
End properties.

(** ** Witnesses *)

Definition sample_order : Order := {|
  order_quote_mint := 1; order_base_mint := 2; order_side := Sell;
  order_price := FixedPoint.from_integer 3; order_amount := 10; order_timestamp := 1000 |}.

Definition sample_wallet : Wallet := {|
  wallet_balances := [{| balance_mint := 1; balance_amount := 100 |}];
  wallet_orders := [sample_order];
  wallet_fees := [{| fee_settle_key := 11; fee_gas_addr := 1; fee_gas_token_amount := 2;
                     fee_percentage_fee := FixedPoint.from_u64 5 |}];
  wallet_keys := {| pk_root := scalar 1; pk_match := scalar 2; pk_settle := scalar 3;
                    pk_view := scalar 4 |};
  wallet_randomness := scalar 77 |}.

Lemma sample_wallet_in_range : wallet_in_range sample_wallet.
Proof. by constructor; repeat constructor; try lia. Qed.


Lemma timestamps_not_committed_witness :
  let hash := Native.sponge default_params in
  let commitment := compute_wallet_commitment hash Zmod.to_Z sample_wallet in
  cs_wf (with_values []) /\
  wp (wallet_hashes (retime (fun _ => 5%Z) sample_wallet)) (with_values []) (fun '(c, n, m) s' K =>
    K /\ value s' c = commitment /\
    value s' n = compute_wallet_spend_nullifier hash sample_wallet commitment /\
    value s' m = compute_wallet_match_nullifier hash sample_wallet commitment).
Proof.
  split; [scoped|].
  apply (timestamps_not_committed Zmod.to_Z (fun _ => 5%Z) sample_wallet);
    [done|apply sample_wallet_in_range].
Defined.
