(* ===== verification/ElGamal.v ===== *)
(** ElGamal encryption in the scalar field: circuits/src/zk_gadgets/elgamal.rs. *)

From Stdlib Require Import Zmod.
From S2P Require Import Prelude Primality Field ConstraintSystem ListR1CS Gates Comparators.
From S2P Require Import Arithmetic FixedPoint Types.

#[local] Open Scope Zmod_scope.
#[local] Open Scope circuit_scope.

Definition DEFAULT_ELGAMAL_GENERATOR : Scalar := scalar 2.

Record ElGamalCiphertext := { partial_shared_secret : Scalar; encrypted_message : Scalar }.

Record ElGamalWitness := { eg_randomness : Scalar; eg_plaintext : Scalar }.

Record ElGamalStatement := {
  eg_pub_key : Scalar;
  eg_generator : Scalar;
  eg_expected_ciphertext : Scalar * Scalar;
}.

(** * The gadget *)

Section gadget.
  Context {C : ConstraintSystem}.

Record ElGamalCiphertextVar := {
  cv_partial_shared_secret : R1CSVar;
  cv_encrypted_message : R1CSVar;
}.

Record ElGamalWitnessVar := { ew_randomness : R1CSVar; ew_plaintext : R1CSVar }.

(** [ElGamalGadget::encrypt] *)
Definition encrypt (SCALAR_BITS : nat) (generator : Scalar)
    (randomness plaintext pub_key : LinearCombination)
    : circuit (LinearCombination * LinearCombination) :=
  let! ciphertext1 := exp_private_fixed_base SCALAR_BITS generator randomness in
  let! partial_shared_secret := exp_private SCALAR_BITS pub_key randomness in
  let! (_, _, blinded_plaintext) := multiply partial_shared_secret plaintext in
  c_ret (ciphertext1, lc_var blinded_plaintext).

(** [ElGamalCiphertext::commit_public] and [commit_prover] *)
Definition commit_public_ciphertext (self : ElGamalCiphertext) : circuit ElGamalCiphertextVar :=
  let! partial_shared_secret_var := commit_public (partial_shared_secret self) in
  let! encrypted_message_var := commit_public (encrypted_message self) in
  c_ret {| cv_partial_shared_secret := partial_shared_secret_var;
           cv_encrypted_message := encrypted_message_var |}.

Definition commit_ciphertext (self : ElGamalCiphertext) : circuit ElGamalCiphertextVar :=
  let! partial_shared_secret_var := commit (partial_shared_secret self) in
  let! encrypted_message_var := commit (encrypted_message self) in
  c_ret {| cv_partial_shared_secret := partial_shared_secret_var;
           cv_encrypted_message := encrypted_message_var |}.

(** [impl CommitProver for ElGamalWitness] *)
Definition commit_elgamal_witness (self : ElGamalWitness) : circuit ElGamalWitnessVar :=
  let! randomness_var := commit (eg_randomness self) in
  let! plaintext_var := commit (eg_plaintext self) in
  c_ret {| ew_randomness := randomness_var; ew_plaintext := plaintext_var |}.

(** [ElGamalGadget::prove], up to the proof of the constraints *)
Definition prove_elgamal (SCALAR_BITS : nat) (witness : ElGamalWitness)
    (statement : ElGamalStatement) : circuit unit :=
  let! witness_var := commit_elgamal_witness witness in
  let! pub_key_var := commit_public (eg_pub_key statement) in
  let! expected0 := commit_public (eg_expected_ciphertext statement).1 in
  let! expected1 := commit_public (eg_expected_ciphertext statement).2 in
  let! res := encrypt SCALAR_BITS (eg_generator statement) (lc_var (ew_randomness witness_var))
    (lc_var (ew_plaintext witness_var)) (lc_var pub_key_var) in
  constrain (res.1 - lc_var expected0)%lc ;;
  constrain (res.2 - lc_var expected1)%lc.
End gadget.

(** * The cryptosystem *)

Definition encryption (generator pub_key randomness plaintext : Scalar) : Scalar * Scalar :=
  (generator ^ Zmod.to_Z randomness, pub_key ^ Zmod.to_Z randomness * plaintext).

Definition decryption (sk : Z) (c : Scalar * Scalar) : Scalar := c.2 * Zmod.inv (c.1 ^ sk).

Lemma scalar_pow_nonzero (x : Scalar) (k : Z) : x <> 0 -> (0 <= k)%Z -> x ^ k <> 0.
Proof.
  intros Hx Hk. revert k Hk. apply natlike_ind.
  - rewrite Zmod.pow_0_r. apply scalar_one_neq_zero.
  - intros k Hk IH. rewrite Zmod.pow_succ_nonneg_r by done. intros H.
    apply scalar_mul_zero in H as [H|H]; done.
Qed.

Lemma decryption_encryption g sk r m : g <> 0 -> (0 <= sk)%Z ->
  decryption sk (encryption g (g ^ sk) r m) = m.
Proof.
  intros Hg Hsk. unfold decryption, encryption. cbn [fst snd].
  pose proof (Zmod.unsigned_pos_bound r ltac:(done)) as Hr.
  rewrite <- !Zmod.pow_mul_r_nonneg by lia. rewrite (Z.mul_comm sk).
  assert (g ^ (Zmod.to_Z r * sk) <> 0) as Hp by (apply scalar_pow_nonzero; [done|lia]).
  set (x := g ^ (Zmod.to_Z r * sk)) in *.
  transitivity (m * (x * Zmod.inv x)); [ring|]. rewrite scalar_inv_r by done. ring.
Qed.

Section properties.
  Context {C : ConstraintSystem} {L : ConstraintSystemLaws C} {P : ProverLaws C}.

Lemma wp_encrypt D g r m k s (Q : _ -> cs -> Prop -> Prop) :
  (D <= 256)%nat -> lc_scoped s r -> lc_scoped s m -> lc_scoped s k ->
  (forall c1 c2 s' (K : Prop), extends s s' -> lc_scoped s' c1 -> lc_scoped s' c2 ->
    (K <-> Zmod.to_Z (value s' r) < 2 ^ Z.of_nat D)%Z ->
    (K -> (value s' c1, value s' c2) = encryption g (value s' k) (value s' r) (value s' m)) ->
    Q (c1, c2) s' K) ->
  wp (encrypt D g r m k) s Q.
Proof.
  intros HD Hr Hm Hk HQ. unfold encrypt.
  apply wp_bind, wp_exp_private_fixed_base; [done..|]. intros c1 s1 K1 E1 H1 HK1 V1. advance E1.
  apply wp_bind, wp_exp_private; [done..|]. intros c2 s2 K2 E2 H2 HK2 V2. advance E2.
  apply wp_bind, wp_multiply; [done..|]. intros ? ? o s3 E3 _ _ Ho _ _ Vo. advance E3.
  apply wp_ret, HQ; [extended|done|scoped|tauto|]. intros (HK & HK' & _).
  unfold encryption. by rewrite V1, Vo, V2.
Qed.

(** An honest ElGamal proof verifies exactly when the randomness fits the bit
    length and the expected ciphertext is the encryption of the plaintext; and every
    ciphertext under the key of [sk] decrypts to its plaintext. *)
Theorem elgamal_correct D witness statement s :
  (D <= 256)%nat ->
  wp (prove_elgamal D witness statement) s (fun _ _ K =>
    K <-> (Zmod.to_Z (eg_randomness witness) < 2 ^ Z.of_nat D)%Z /\
      eg_expected_ciphertext statement = encryption (eg_generator statement)
        (eg_pub_key statement) (eg_randomness witness) (eg_plaintext witness)) /\
  forall g sk r m, g <> 0 -> (0 <= sk)%Z -> decryption sk (encryption g (g ^ sk) r m) = m.
Proof.
  intros HD. split; [|apply decryption_encryption]. unfold prove_elgamal, commit_elgamal_witness.
  apply wp_bind, wp_bind, wp_commit. intros vr s1 E1 Hr Vr. advance E1.
  apply wp_bind, wp_commit. intros vm s2 E2 Hm Vm. advance E2. apply wp_ret.
  cbn [ew_randomness ew_plaintext].
  apply wp_bind, wp_commit_public. intros vk s3 E3 Hk Vk. advance E3.
  apply wp_bind, wp_commit_public. intros v0 s4 E4 H0 V0. advance E4.
  apply wp_bind, wp_commit_public. intros v1 s5 E5 H1 V1. advance E5.
  apply wp_bind, wp_encrypt; [done..|]. intros c1 c2 s6 K6 E6 Hc1 Hc2 HK6 V6. advance E6.
  cbn [fst snd].
  apply wp_bind, wp_constrain; [scoped|]. intros s7 E7. value_simpl. advance E7.
  apply wp_constrain; [scoped|]. intros s8 E8. value_simpl. advance E8.
  rewrite !scalar_sub_zero, V0, V1. rewrite Vr in HK6. rewrite Vr, Vm, Vk in V6.
  destruct (eg_expected_ciphertext statement) as [e0 e1]. cbn [fst snd] in *. split.
  - intros HK. split; [tauto|]. 
    assert (value s8 c1 = e0 /\ value s8 c2 = e1 /\ K6) as (<- & <- & HK') by tauto. auto.
  - intros [Hfit Heq]. rewrite <- V6 in Heq by tauto. injection Heq as -> ->. tauto.
Qed.
End properties.

Lemma elgamal_correct_witness :
  let witness := {| eg_randomness := scalar 5; eg_plaintext := scalar 42 |} in
  let statement := {| eg_pub_key := scalar 8; eg_generator := DEFAULT_ELGAMAL_GENERATOR;
    eg_expected_ciphertext := (scalar 32, scalar (32768 * 42)) |} in
  cs_wf (with_values []) /\
  wp (prove_elgamal 64 witness statement) (with_values []) (fun _ _ K =>
    K <-> (Zmod.to_Z (eg_randomness witness) < 2 ^ Z.of_nat 64)%Z /\
      eg_expected_ciphertext statement = encryption (eg_generator statement)
        (eg_pub_key statement) (eg_randomness witness) (eg_plaintext witness)).
Proof. cbn zeta. split; [scoped|]. apply elgamal_correct. by apply Nat.leb_le. Defined.
