(* ===== verification/MatchTypes.v ===== *)
(** Matches and linkable commitments: circuits/src/types/match.rs, the linkable types of
    circuits/src/{lib.rs,types/fee.rs,zk_gadgets/fixed_point.rs}.

    A linkable commitment keeps the blinder of a Pedersen commitment, so that another proof
    can commit to the same value with the same commitment.  The witness and the statement of VALID MATCH
    ENCRYPTION (circuits/src/zk_circuits/valid_match_encryption.rs) are here, because the relayer builds them. *)

From Stdlib Require Import Zmod.
From S2P Require Import Prelude Primality Field ConstraintSystem FixedPoint Types ElGamal.

#[local] Open Scope Zmod_scope.
#[local] Open Scope circuit_scope.

(** * Native types *)

Definition MATCH_SIZE_SCALARS : nat := 8.

(** [max_minus_min_amount] is a [u32], [min_amount_order_index] a [u8]. *)
Record MatchResult := {
  mr_quote_mint : Z;
  mr_base_mint : Z;
  mr_quote_amount : Z;
  mr_base_amount : Z;
  mr_direction : Z;
  mr_execution_price : FixedPoint.FixedPoint;
  mr_max_minus_min_amount : Z;
  mr_min_amount_order_index : Z;
}.

(** [impl TryFrom<&[u64]> for MatchResult] *)
Definition match_try_from (values : list Z) : outcome TypeConversionError MatchResult :=
  if negb (length values =? MATCH_SIZE_SCALARS)%nat then Fail (WrongLength (length values))
  else match values with
       | [v0; v1; v2; v3; v4; v5; v6; v7] =>
           Ret {| mr_quote_mint := v0; mr_base_mint := v1; mr_quote_amount := v2; mr_base_amount := v3;
                  mr_direction := v4; mr_execution_price := FixedPoint.from_scalar (scalar v5);
                  mr_max_minus_min_amount := (v6 mod 2 ^ 32)%Z; mr_min_amount_order_index := (v7 mod 2 ^ 8)%Z |}
       | _ => Panic
       end.

(** * Linkable commitments *)

Record LinkableCommitment := { lk_val : Scalar; lk_randomness : Scalar }.

Record LinkableFixedPointCommitment := { lf_repr : LinkableCommitment }.

Record LinkableFeeCommitment := {
  lfee_settle_key : LinkableCommitment;
  lfee_gas_addr : LinkableCommitment;
  lfee_gas_token_amount : LinkableCommitment;
  lfee_percentage_fee : LinkableFixedPointCommitment;
}.

Record LinkableMatchResultCommitment := {
  lm_quote_mint : LinkableCommitment;
  lm_base_mint : LinkableCommitment;
  lm_quote_amount : LinkableCommitment;
  lm_base_amount : LinkableCommitment;
  lm_direction : LinkableCommitment;
  lm_execution_price : LinkableFixedPointCommitment;
  lm_max_minus_min_amount : LinkableCommitment;
  lm_min_amount_order_index : LinkableCommitment;
}.

(** [impl From<LinkableFixedPointCommitment> for FixedPoint] *)
Definition linkable_fixed_point (fp : LinkableFixedPointCommitment) : FixedPoint.FixedPoint :=
  {| FixedPoint.repr := lk_val (lf_repr fp) |}.

(** [LinkableCommitment::new] takes its blinder from the random generator, here an argument. *)
Definition linkable_new (blinder val : Scalar) : LinkableCommitment :=
  {| lk_val := val; lk_randomness := blinder |}.

(** [impl From<MatchResult> for LinkableMatchResultCommitment] *)
Definition linkable_match (blinder : nat -> Scalar) (m : MatchResult) : LinkableMatchResultCommitment := {|
  lm_quote_mint := linkable_new (blinder 0%nat) (biguint_to_scalar (mr_quote_mint m));
  lm_base_mint := linkable_new (blinder 1%nat) (biguint_to_scalar (mr_base_mint m));
  lm_quote_amount := linkable_new (blinder 2%nat) (scalar (mr_quote_amount m));
  lm_base_amount := linkable_new (blinder 3%nat) (scalar (mr_base_amount m));
  lm_direction := linkable_new (blinder 4%nat) (scalar (mr_direction m));
  lm_execution_price := {| lf_repr := linkable_new (blinder 5%nat) (FixedPoint.repr (mr_execution_price m)) |};
  lm_max_minus_min_amount := linkable_new (blinder 6%nat) (scalar (mr_max_minus_min_amount m));
  lm_min_amount_order_index := linkable_new (blinder 7%nat) (scalar (mr_min_amount_order_index m)) |}.

(** [impl From<Fee> for LinkableFeeCommitment] *)
Definition linkable_fee (blinder : nat -> Scalar) (f : Fee) : LinkableFeeCommitment := {|
  lfee_settle_key := linkable_new (blinder 0%nat) (biguint_to_scalar (fee_settle_key f));
  lfee_gas_addr := linkable_new (blinder 1%nat) (biguint_to_scalar (fee_gas_addr f));
  lfee_gas_token_amount := linkable_new (blinder 2%nat) (scalar (fee_gas_token_amount f));
  lfee_percentage_fee := {| lf_repr := linkable_new (blinder 3%nat) (FixedPoint.repr (fee_percentage_fee f)) |} |}.

(** * Witness and statement of VALID MATCH ENCRYPTION *)

Definition NUM_ENCRYPTIONS : nat := 9.

Record ValidMatchEncryptionWitness := {
  ew_match_res : LinkableMatchResultCommitment;
  ew_party0_fee : LinkableFeeCommitment;
  ew_party1_fee : LinkableFeeCommitment;
  ew_party0_randomness_hash : LinkableCommitment;
  ew_party1_randomness_hash : LinkableCommitment;
  ew_party0_note : Note;
  ew_party1_note : Note;
  ew_relayer0_note : Note;
  ew_relayer1_note : Note;
  ew_protocol_note : Note;
  ew_elgamal_randomness : list Scalar;
}.

Record ValidMatchEncryptionStatement := {
  es_party0_note_commit : Scalar;
  es_party1_note_commit : Scalar;
  es_relayer0_note_commit : Scalar;
  es_relayer1_note_commit : Scalar;
  es_protocol_note_commit : Scalar;
  es_pk_settle_party0 : Scalar;
  es_pk_settle_party1 : Scalar;
  es_pk_settle_relayer0 : Scalar;
  es_pk_settle_relayer1 : Scalar;
  es_pk_settle_protocol : Scalar;
  es_protocol_fee : FixedPoint.FixedPoint;
  es_volume1_ciphertext1 : ElGamalCiphertext;
  es_volume2_ciphertext1 : ElGamalCiphertext;
  es_volume1_ciphertext2 : ElGamalCiphertext;
  es_volume2_ciphertext2 : ElGamalCiphertext;
  es_mint1_protocol_ciphertext : ElGamalCiphertext;
  es_volume1_protocol_ciphertext : ElGamalCiphertext;
  es_mint2_protocol_ciphertext : ElGamalCiphertext;
  es_volume2_protocol_ciphertext : ElGamalCiphertext;
  es_randomness_protocol_ciphertext : ElGamalCiphertext;
}.

(** * Variables *)

Section variables.
  Context {C : ConstraintSystem}.

Record MatchResultVar := {
  mv_quote_mint : R1CSVar;
  mv_base_mint : R1CSVar;
  mv_quote_amount : R1CSVar;
  mv_base_amount : R1CSVar;
  mv_direction : R1CSVar;
  mv_execution_price : FixedPointVar.FixedPointVar;
  mv_max_minus_min_amount : R1CSVar;
  mv_min_amount_order_index : R1CSVar;
}.

Definition match_lcs (m : MatchResultVar) : list LinearCombination :=
  [lc_var (mv_quote_mint m); lc_var (mv_base_mint m); lc_var (mv_quote_amount m); lc_var (mv_base_amount m);
   lc_var (mv_direction m); FixedPointVar.repr (mv_execution_price m); lc_var (mv_max_minus_min_amount m);
   lc_var (mv_min_amount_order_index m)].

(** [impl CommitProver for MatchResult] *)
Definition commit_match (m : MatchResult) : circuit MatchResultVar :=
  let! quote_mint_var := commit (biguint_to_scalar (mr_quote_mint m)) in
  let! base_mint_var := commit (biguint_to_scalar (mr_base_mint m)) in
  let! quote_amount_var := commit (scalar (mr_quote_amount m)) in
  let! base_amount_var := commit (scalar (mr_base_amount m)) in
  let! direction_var := commit (scalar (mr_direction m)) in
  let! price_var := commit_fixed_point (mr_execution_price m) in
  let! max_minus_min_var := commit (scalar (mr_max_minus_min_amount m)) in
  let! min_index_var := commit (scalar (mr_min_amount_order_index m)) in
  c_ret {| mv_quote_mint := quote_mint_var; mv_base_mint := base_mint_var; mv_quote_amount := quote_amount_var;
           mv_base_amount := base_amount_var; mv_direction := direction_var; mv_execution_price := price_var;
           mv_max_minus_min_amount := max_minus_min_var; mv_min_amount_order_index := min_index_var |}.

(** [impl CommitProver for LinkableCommitment]: the value with its own blinder. *)
Definition commit_linkable (l : LinkableCommitment) : circuit R1CSVar := commit (lk_val l).

Definition commit_linkable_fixed_point (fp : LinkableFixedPointCommitment) : circuit FixedPointVar.FixedPointVar :=
  let! var := commit_linkable (lf_repr fp) in
  c_ret {| FixedPointVar.repr := lc_var var |}.

(** [impl CommitProver for LinkableFeeCommitment] *)
Definition commit_linkable_fee (f : LinkableFeeCommitment) : circuit FeeVar :=
  let! key_var := commit_linkable (lfee_settle_key f) in
  let! gas_addr_var := commit_linkable (lfee_gas_addr f) in
  let! gas_amount_var := commit_linkable (lfee_gas_token_amount f) in
  let! percent_fee_var := commit_linkable_fixed_point (lfee_percentage_fee f) in
  c_ret {| fv_settle_key := key_var; fv_gas_addr := gas_addr_var; fv_gas_token_amount := gas_amount_var;
           fv_percentage_fee := percent_fee_var |}.

(** [impl CommitProver for LinkableMatchResultCommitment] *)
Definition commit_linkable_match (m : LinkableMatchResultCommitment) : circuit MatchResultVar :=
  let! quote_mint_var := commit_linkable (lm_quote_mint m) in
  let! base_mint_var := commit_linkable (lm_base_mint m) in
  let! quote_amount_var := commit_linkable (lm_quote_amount m) in
  let! base_amount_var := commit_linkable (lm_base_amount m) in
  let! direction_var := commit_linkable (lm_direction m) in
  let! price_var := commit_linkable_fixed_point (lm_execution_price m) in
  let! max_minus_min_var := commit_linkable (lm_max_minus_min_amount m) in
  let! min_amount_index_var := commit_linkable (lm_min_amount_order_index m) in
  c_ret {| mv_quote_mint := quote_mint_var; mv_base_mint := base_mint_var; mv_quote_amount := quote_amount_var;
           mv_base_amount := base_amount_var; mv_direction := direction_var; mv_execution_price := price_var;
           mv_max_minus_min_amount := max_minus_min_var; mv_min_amount_order_index := min_amount_index_var |}.
End variables.

(** * The commitments allocate the values *)

#[export] Instance linkable_commit {C : ConstraintSystem} : CommitProver LinkableCommitment R1CSVar := {|
  commit_prover := commit_linkable; var_lcs v := [lc_var v]; encoding l := [lk_val l] |}.

#[export] Instance match_commit {C : ConstraintSystem} : CommitProver MatchResult MatchResultVar := {|
  commit_prover := commit_match; var_lcs := match_lcs;
  encoding m := [biguint_to_scalar (mr_quote_mint m); biguint_to_scalar (mr_base_mint m);
    scalar (mr_quote_amount m); scalar (mr_base_amount m); scalar (mr_direction m);
    FixedPoint.repr (mr_execution_price m); scalar (mr_max_minus_min_amount m);
    scalar (mr_min_amount_order_index m)] |}.

#[export] Instance linkable_fee_commit {C : ConstraintSystem} : CommitProver LinkableFeeCommitment FeeVar := {|
  commit_prover := commit_linkable_fee; var_lcs := fee_lcs;
  encoding f := [lk_val (lfee_settle_key f); lk_val (lfee_gas_addr f); lk_val (lfee_gas_token_amount f);
    lk_val (lf_repr (lfee_percentage_fee f))] |}.

#[export] Instance linkable_match_commit {C : ConstraintSystem} :
    CommitProver LinkableMatchResultCommitment MatchResultVar := {|
  commit_prover := commit_linkable_match; var_lcs := match_lcs;
  encoding m := [lk_val (lm_quote_mint m); lk_val (lm_base_mint m); lk_val (lm_quote_amount m);
    lk_val (lm_base_amount m); lk_val (lm_direction m); lk_val (lf_repr (lm_execution_price m));
    lk_val (lm_max_minus_min_amount m); lk_val (lm_min_amount_order_index m)] |}.

Section specs.
  Context {C : ConstraintSystem} {L : ConstraintSystemLaws C} {P : ProverLaws C}.

#[export] Instance linkable_commit_spec : CommitProverSpec linkable_commit.
Proof.
  intros x s Q HQ. apply wp_commit. intros v s1 E1 H1 V1. apply HQ; [done|done|].
  split; cbn; [by repeat constructor|by rewrite V1].
Qed.

#[export] Instance match_commit_spec : CommitProverSpec match_commit.
Proof.
  intros x s Q HQ. cbn [commit_prover match_commit]. unfold commit_match, commit_fixed_point. commit_all HQ.
Qed.

#[export] Instance linkable_fee_commit_spec : CommitProverSpec linkable_fee_commit.
Proof.
  intros x s Q HQ. cbn [commit_prover linkable_fee_commit].
  unfold commit_linkable_fee, commit_linkable_fixed_point, commit_linkable. commit_all HQ.
Qed.

#[export] Instance linkable_match_commit_spec : CommitProverSpec linkable_match_commit.
Proof.
  intros x s Q HQ. cbn [commit_prover linkable_match_commit].
  unfold commit_linkable_match, commit_linkable_fixed_point, commit_linkable. commit_all HQ.
Qed.
End specs.

(** A linkable match has the encoding of the match: a proof about the one is about the other. *)
Lemma linkable_match_encoding {C : ConstraintSystem} blinder m :
  encoding (linkable_match blinder m) = encoding m.
Proof. done. Qed.

Lemma linkable_fee_encoding {C : ConstraintSystem} blinder f : encoding (linkable_fee blinder f) = encoding f.
Proof. done. Qed.

(** * Examples *)

Definition sample_link (z : Z) : LinkableCommitment := {| lk_val := scalar z; lk_randomness := scalar 0 |}.

Definition sample_fee : LinkableFeeCommitment := {|
  lfee_settle_key := sample_link 1; lfee_gas_addr := sample_link 2; lfee_gas_token_amount := sample_link 3;
  lfee_percentage_fee := {| lf_repr := sample_link 4 |} |}.

Definition sample_match_result : LinkableMatchResultCommitment := {|
  lm_quote_mint := sample_link 5; lm_base_mint := sample_link 6; lm_quote_amount := sample_link 100;
  lm_base_amount := sample_link 10; lm_direction := sample_link 0;
  lm_execution_price := {| lf_repr := sample_link (10 * 2 ^ 32) |};
  lm_max_minus_min_amount := sample_link 0; lm_min_amount_order_index := sample_link 0 |}.
