(* ===== verification/Mpc.v ===== *)
(** Two-party computation: the interface of the mpc_ristretto library that the gadgets of
    circuits/src/mpc_gadgets/ use, and the source of shared values of
    integration-helpers/src/mpc_network/mocks.rs.

    Both parties run the same program in lockstep; a value of type [AuthenticatedScalar] stands for the shares that
    the two hold, [reveal] for the scalar that they share.  The library is a parameter, [MpcLaws] is what it
    documents: linear operations are local, products and openings go over the network and fail only when it does.
    [TwoParty] is additive sharing with Beaver's products, which has these laws. *)

From Stdlib Require Import Zmod.
From stdpp Require Import strings.
From S2P Require Import Prelude Primality Field.

#[global] Set Default Goal Selector "!".
#[local] Open Scope Zmod_scope.

(** [MpcError] of circuits/src/errors.rs *)
Inductive MpcError :=
  | ArithmeticError (msg : string)
  | OpeningError (msg : string)
  | SerializationError (msg : string)
  | SetupError (msg : string)
  | SharingError (msg : string).

(** * The library *)

Class MpcFabric := {
  Fabric : Type;
  AuthenticatedScalar : Type;
  (* local operations *)
  sc_add : AuthenticatedScalar -> AuthenticatedScalar -> AuthenticatedScalar;
  sc_sub : AuthenticatedScalar -> AuthenticatedScalar -> AuthenticatedScalar;
  sc_scale : Scalar -> AuthenticatedScalar -> AuthenticatedScalar;
  sc_add_public : Scalar -> AuthenticatedScalar -> AuthenticatedScalar;
  allocate_public_scalar : Scalar -> AuthenticatedScalar;
  is_public : AuthenticatedScalar -> bool;
  to_scalar : AuthenticatedScalar -> Scalar;
  (* operations over the network, with the message of an error; the operator [*] panics *)
  sc_mul : AuthenticatedScalar -> AuthenticatedScalar -> Fabric -> option AuthenticatedScalar * Fabric;
  sc_batch_mul : list AuthenticatedScalar -> list AuthenticatedScalar -> Fabric ->
    outcome string (list AuthenticatedScalar) * Fabric;
  sc_open : AuthenticatedScalar -> Fabric -> outcome string AuthenticatedScalar * Fabric;
  sc_open_and_authenticate : AuthenticatedScalar -> Fabric -> outcome string AuthenticatedScalar * Fabric;
  sc_batch_open : list AuthenticatedScalar -> Fabric -> outcome string (list AuthenticatedScalar) * Fabric;
  sc_batch_open_and_authenticate : list AuthenticatedScalar -> Fabric ->
    outcome string (list AuthenticatedScalar) * Fabric;
  (* what the owning party passes is shared *)
  sc_batch_allocate_private : nat -> (nat -> list Scalar) -> Fabric ->
    outcome string (list AuthenticatedScalar) * Fabric;
  (* the scalars of both parties are the shares *)
  batch_allocate_preshared_scalar : list (Scalar * Scalar) -> list AuthenticatedScalar;
  (* values of the pre-processing *)
  random_shared_bits : nat -> Fabric -> list AuthenticatedScalar * Fabric;
  random_shared_scalar : Fabric -> AuthenticatedScalar * Fabric;
  random_inverse_pairs : nat -> Fabric -> list (AuthenticatedScalar * AuthenticatedScalar) * Fabric;
}.

Section monad.
  Context {M : MpcFabric}.

Definition mpc (A : Type) : Type := Fabric -> outcome MpcError A * Fabric.

Definition m_ret {A} (a : A) : mpc A := fun f => (Ret a, f).
Definition m_panic {A} : mpc A := fun f => (Panic, f).
Definition m_bind {A B} (m : mpc A) (k : A -> mpc B) : mpc B := fun f =>
  match m f with
  | (Ret a, f') => k a f'
  | (Fail e, f') => (Fail e, f')
  | (Panic, f') => (Panic, f')
  end.

(** [assert!] *)
Definition m_assert (b : bool) : mpc unit := if b then m_ret tt else m_panic.

(** [map_err] and [unwrap] *)
Definition map_err {A} (c : string -> MpcError) (m : Fabric -> outcome string A * Fabric) : mpc A := fun f =>
  let (r, f') := m f in (match r with Ret a => Ret a | Fail e => Fail (c e) | Panic => Panic end, f').
Definition m_unwrap {A} (m : Fabric -> outcome string A * Fabric) : mpc A := fun f =>
  let (r, f') := m f in (match r with Ret a => Ret a | _ => Panic end, f').

Definition draw {A} (m : Fabric -> A * Fabric) : mpc A := fun f => let (a, f') := m f in (Ret a, f').

(** [v\[i\]] *)
Definition m_index {A} (l : list A) (i : nat) : mpc A := match l !! i with Some a => m_ret a | None => m_panic end.

(** The operator [*] *)
Definition mul (a b : AuthenticatedScalar) : mpc AuthenticatedScalar := fun f =>
  let (r, f') := sc_mul a b f in (match r with Some c => Ret c | None => Panic end, f').

(** [allocate_zero], [allocate_zeros], [allocate_public_u64], [allocate_random_*] *)
Definition allocate_zero : AuthenticatedScalar := allocate_public_scalar 0.
Definition allocate_zeros (n : nat) : list AuthenticatedScalar := replicate n allocate_zero.
Definition allocate_public_u64 (z : Z) : AuthenticatedScalar := allocate_public_scalar (scalar z).

(** [s - x] for a scalar [s] *)
Definition public_sub (s : Scalar) (x : AuthenticatedScalar) : AuthenticatedScalar :=
  sc_add_public s (sc_scale (- (1)) x).

(** [iter().sum()], which starts from a zero *)
Definition sc_sum (l : list AuthenticatedScalar) : AuthenticatedScalar := foldl sc_add allocate_zero l.
End monad.

Declare Scope mpc_scope.
Delimit Scope mpc_scope with mpc.
Notation "'let?' x ':=' m 'in' k" := (m_bind m (fun x => k))
  (at level 10, x pattern, m at level 100, k at level 200) : mpc_scope.
Notation "m ';;?' k" := (m_bind m (fun _ => k)) (at level 100, k at level 200, right associativity) : mpc_scope.

(** * What it promises *)

(** What the pre-processing reveals: the bits of a batch, a value, and the pairs of a batch *)
Record Source := {
  src_bit : nat -> bool;
  src_value : Scalar;
  src_pair : nat -> Scalar * Scalar;
}.
Existing Class Source.

Class MpcLaws (M : MpcFabric) (src : Source) := {
  reveal : AuthenticatedScalar -> Scalar;
  reliable : Prop;
  reveal_add a b : reveal (sc_add a b) = reveal a + reveal b;
  reveal_sub a b : reveal (sc_sub a b) = reveal a - reveal b;
  reveal_scale s a : reveal (sc_scale s a) = s * reveal a;
  reveal_add_public s a : reveal (sc_add_public s a) = s + reveal a;
  reveal_public s : reveal (allocate_public_scalar s) = s;
  to_scalar_public a : is_public a = true -> to_scalar a = reveal a;
  public_add a b : is_public (sc_add a b) = is_public a && is_public b;
  public_subtract a b : is_public (sc_sub a b) = is_public a && is_public b;
  public_scale s a : is_public (sc_scale s a) = is_public a;
  public_add_public s a : is_public (sc_add_public s a) = is_public a;
  mul_law a b f : match (sc_mul a b f).1 with
    | Some c => reveal c = reveal a * reveal b /\ is_public c = is_public a && is_public b
    | None => ~ reliable
    end;
  batch_mul_law la lb f : match (sc_batch_mul la lb f).1 with
    | Ret lc => reveal <$> lc = zip_with Zmod.mul (reveal <$> la) (reveal <$> lb)
    | _ => length la = length lb -> ~ reliable
    end;
  open_law a f : match (sc_open a f).1 with
    | Ret c => is_public c = true /\ reveal c = reveal a | _ => ~ reliable end;
  open_and_authenticate_law a f : match (sc_open_and_authenticate a f).1 with
    | Ret c => is_public c = true /\ reveal c = reveal a | _ => ~ reliable end;
  batch_open_law la f : match (sc_batch_open la f).1 with
    | Ret lc => reveal <$> lc = reveal <$> la /\ Forall (fun c => is_public c = true) lc | _ => ~ reliable end;
  batch_open_and_authenticate_law la f : match (sc_batch_open_and_authenticate la f).1 with
    | Ret lc => reveal <$> lc = reveal <$> la /\ Forall (fun c => is_public c = true) lc | _ => ~ reliable end;
  preshared_law l : reveal <$> batch_allocate_preshared_scalar l = (fun p => p.1 + p.2) <$> l;
  allocate_private_law p values f : match (sc_batch_allocate_private p values f).1 with
    | Ret lc => reveal <$> lc = values p /\ Forall (fun c => is_public c = false) lc | _ => ~ reliable end;
  shared_bits_law n f : reveal <$> (random_shared_bits n f).1 = (fun i => bit_scalar (src_bit src i)) <$> seq 0 n;
  shared_scalar_law f :
    reveal (random_shared_scalar f).1 = src_value src /\ is_public (random_shared_scalar f).1 = false;
  inverse_pairs_law n f :
    (fun p => (reveal p.1, reveal p.2)) <$> (random_inverse_pairs n f).1 = src_pair src <$> seq 0 n;
  inverse_pairs_inverse i : (src_pair src i).1 * (src_pair src i).2 = 1;
}.

(** * Partial failure: a computation gives what [Q] says, or the network is not reliable. *)

Section computes.
  Context `{L : MpcLaws}.

Definition computes {A} (m : mpc A) (Q : A -> Prop) : Prop :=
  forall f, match (m f).1 with Ret a => Q a | _ => ~ reliable end.

Lemma computes_ret {A} (a : A) (Q : A -> Prop) : Q a -> computes (m_ret a) Q.
Proof. intros H f. exact H. Qed.

Lemma computes_seq {A B} (m : mpc A) (k : A -> mpc B) (Q : B -> Prop) :
  computes m (fun a => computes (k a) Q) -> computes (m_bind m k) Q.
Proof. intros H f. specialize (H f). unfold m_bind. by destruct (m f) as [[] ?]; cbn in *; [apply H|..]. Qed.

Lemma computes_mono {A} (m : mpc A) (Q Q' : A -> Prop) : computes m Q -> (forall a, Q a -> Q' a) -> computes m Q'.
Proof. intros H HQ f. specialize (H f). by destruct (m f) as [[] ?]; cbn in *; [apply HQ|..]. Qed.

(** The rule of a call, with the specification of the callee *)
Lemma computes_call {A B} (m : mpc A) (P : A -> Prop) (k : A -> mpc B) (Q : B -> Prop) :
  computes m P -> (forall a, P a -> computes (k a) Q) -> computes (m_bind m k) Q.
Proof. intros Hm Hk. apply computes_seq. by eapply computes_mono. Qed.

Lemma computes_assert (b : bool) (Q : unit -> Prop) : b = true -> Q tt -> computes (m_assert b) Q.
Proof. intros -> H. by apply computes_ret. Qed.

Lemma computes_index {A} (l : list A) i a (Q : A -> Prop) : l !! i = Some a -> Q a -> computes (m_index l i) Q.
Proof. intros Hl H. unfold m_index. rewrite Hl. by apply computes_ret. Qed.

Lemma computes_mul a b :
  computes (mul a b) (fun c => reveal c = reveal a * reveal b /\ is_public c = is_public a && is_public b).
Proof. intros f. pose proof (mul_law a b f) as H. unfold mul. by destruct (sc_mul a b f) as [[] ?]. Qed.

Lemma computes_map_err {A} c (m : Fabric -> outcome string A * Fabric) (Q : A -> Prop) :
  (forall f, match (m f).1 with Ret a => Q a | _ => ~ reliable end) -> computes (map_err c m) Q.
Proof. intros H f. specialize (H f). unfold map_err. by destruct (m f) as [[] ?]. Qed.

Lemma computes_unwrap {A} (m : Fabric -> outcome string A * Fabric) (Q : A -> Prop) :
  (forall f, match (m f).1 with Ret a => Q a | _ => ~ reliable end) -> computes (m_unwrap m) Q.
Proof. intros H f. specialize (H f). unfold m_unwrap. by destruct (m f) as [[] ?]. Qed.

Lemma batch_mul_lengths la lb f : length la = length lb ->
  match (sc_batch_mul la lb f).1 with
  | Ret lc => reveal <$> lc = zip_with Zmod.mul (reveal <$> la) (reveal <$> lb) | _ => ~ reliable end.
Proof. intros Hl. pose proof (batch_mul_law la lb f) as H. destruct (sc_batch_mul la lb f) as [[] ?]; cbn in *; auto. Qed.

Lemma computes_draw {A} (m : Fabric -> A * Fabric) (Q : A -> Prop) : (forall f, Q (m f).1) -> computes (draw m) Q.
Proof. intros H f. specialize (H f). unfold draw. by destruct (m f). Qed.

Lemma reveal_zero : reveal allocate_zero = 0.
Proof. apply reveal_public. Qed.

Lemma reveal_public_sub s x : reveal (public_sub s x) = s - reveal x.
Proof. unfold public_sub. rewrite reveal_add_public, reveal_scale. ring. Qed.

Lemma reveal_sum l : reveal (sc_sum l) = foldr Zmod.add 0 (reveal <$> l).
Proof.
  unfold sc_sum. enough (forall a, reveal (foldl sc_add a l) = reveal a + foldr Zmod.add 0 (reveal <$> l)) as H.
  { rewrite H, reveal_zero. ring. }
  induction l as [|x l IH]; intros a; cbn; [ring|]. rewrite IH, reveal_add. ring.
Qed.
End computes.

(** * The source of the repository *)

Record PartyIDBeaverSource := { party_id : Z }.

Definition next_shared_bit (self : PartyIDBeaverSource) : outcome unit Scalar :=
  (try! _ := assert_ ((party_id self =? 0)%Z || (party_id self =? 1)%Z) in Ret (scalar (party_id self)))%outcome.

Definition next_triplet (self : PartyIDBeaverSource) : Scalar * Scalar * Scalar :=
  if (party_id self =? 0)%Z then (scalar 1, scalar 3, scalar 2) else (scalar 1, scalar 0, scalar 4).

Definition next_shared_inverse_pair (self : PartyIDBeaverSource) : Scalar * Scalar :=
  (scalar (party_id self), scalar (party_id self)).

Definition next_shared_value (self : PartyIDBeaverSource) : Scalar := scalar (party_id self).

Definition party0 : PartyIDBeaverSource := {| party_id := 0 |}.
Definition party1 : PartyIDBeaverSource := {| party_id := 1 |}.

(** The shared bit, as both parties draw it *)
Definition shared_bit : Scalar :=
  match next_shared_bit party0, next_shared_bit party1 with Ret a, Ret b => a + b | _, _ => 0 end.

(** What both parties' values add up to *)
Definition party_id_source : Source := {|
  src_bit := fun _ => negb (bool_decide (shared_bit = 0));
  src_value := next_shared_value party0 + next_shared_value party1;
  src_pair := fun _ =>
    ((next_shared_inverse_pair party0).1 + (next_shared_inverse_pair party1).1,
     (next_shared_inverse_pair party0).2 + (next_shared_inverse_pair party1).2) |}.

Lemma party_id_bit i : src_bit party_id_source i = true.
Proof. reflexivity. Qed.
Lemma party_id_value : src_value party_id_source = 1.
Proof. by apply Zmod.to_Z_inj. Qed.
Lemma party_id_pair i : src_pair party_id_source i = (1, 1).
Proof. cbn. f_equal; by apply Zmod.to_Z_inj. Qed.

(** * Additive sharing *)

Module TwoParty.
Inductive share := Public (s : Scalar) | Shared (s0 s1 : Scalar).

Definition value (a : share) : Scalar := match a with Public s => s | Shared s0 s1 => s0 + s1 end.
Definition public (a : share) : bool := match a with Public _ => true | Shared _ _ => false end.

Definition add (a b : share) : share :=
  match a, b with
  | Public s, Public t => Public (s + t)
  | Public s, Shared t0 t1 | Shared t0 t1, Public s => Shared (s + t0) t1
  | Shared s0 s1, Shared t0 t1 => Shared (s0 + t0) (s1 + t1)
  end.

Definition scale (s : Scalar) (a : share) : share :=
  match a with Public t => Public (s * t) | Shared t0 t1 => Shared (s * t0) (s * t1) end.

(** Beaver's product: with a shared triplet [c = a * b], both parties open [x - a] and [y - b]. *)
Definition product (x y : share) : share :=
  match x, y with
  | Public s, _ => scale s y
  | _, Public s => scale s x
  | Shared _ _, Shared _ _ =>
      let '(a0, b0, c0) := next_triplet party0 in
      let '(a1, b1, c1) := next_triplet party1 in
      let d := value x - (a0 + a1) in
      let e := value y - (b0 + b1) in
      Shared (c0 + d * b0 + e * a0 + d * e) (c1 + d * b1 + e * a1)
  end.

#[export] Instance fabric : MpcFabric := {|
  Fabric := unit; AuthenticatedScalar := share;
  sc_add := add; sc_sub := fun a b => add a (scale (- (1)) b); sc_scale := scale;
  sc_add_public := fun s a => add (Public s) a; allocate_public_scalar := Public;
  is_public := public; to_scalar := fun a => match a with Public s => s | Shared s0 _ => s0 end;
  sc_mul := fun a b f => (Some (product a b), f);
  sc_batch_mul := fun la lb f => (Ret (zip_with product la lb), f);
  sc_open := fun a f => (Ret (Public (value a)), f);
  sc_open_and_authenticate := fun a f => (Ret (Public (value a)), f);
  sc_batch_open := fun la f => (Ret ((fun a => Public (value a)) <$> la), f);
  sc_batch_open_and_authenticate := fun la f => (Ret ((fun a => Public (value a)) <$> la), f);
  batch_allocate_preshared_scalar := fmap (fun p => Shared p.1 p.2);
  sc_batch_allocate_private := fun p values f =>
    (Ret ((fun v => if decide (p = 0%nat) then Shared v 0 else Shared 0 v) <$> values p), f);
  random_shared_bits := fun n f => (replicate n (Shared (scalar 0) (scalar 1)), f);
  random_shared_scalar := fun f => (Shared (next_shared_value party0) (next_shared_value party1), f);
  random_inverse_pairs := fun n f =>
    (replicate n (Shared (next_shared_inverse_pair party0).1 (next_shared_inverse_pair party1).1,
                  Shared (next_shared_inverse_pair party0).2 (next_shared_inverse_pair party1).2), f) |}.

Lemma value_product x y : value (product x y) = value x * value y /\ public (product x y) = public x && public y.
Proof.
  destruct x as [s|s0 s1], y as [t|t0 t1]; cbn; split; try done; try ring.
Qed.

Lemma share_add a b : value (add a b) = value a + value b.
Proof. destruct a, b; cbn; ring. Qed.
Lemma share_scale s a : value (scale s a) = s * value a.
Proof. destruct a; cbn; ring. Qed.
Lemma public_scale s a : public (scale s a) = public a.
Proof. by destruct a. Qed.
Lemma public_add a b : public (add a b) = public a && public b.
Proof. by destruct a, b. Qed.

Lemma replicate_seq {A B} (g : A -> B) (h : nat -> B) (a : A) n :
  (forall i, g a = h i) -> g <$> replicate n a = h <$> seq 0 n.
Proof.
  intros H. rewrite fmap_replicate. generalize 0%nat. induction n as [|n IH]; intros i; [done|]. cbn. by rewrite <- IH, (H i).
Qed.

#[export] Instance laws : MpcLaws fabric party_id_source.
Proof.
  refine {| reveal := value : @AuthenticatedScalar fabric -> Scalar; reliable := True |}.
  - apply share_add.
  - intros a b. cbn. rewrite share_add, share_scale. ring.
  - apply share_scale.
  - intros s a. apply share_add.
  - done.
  - by intros [].
  - apply public_add.
  - intros a b. cbn. by rewrite public_add, public_scale.
  - apply public_scale.
  - intros s a. apply public_add.
  - intros a b f. apply value_product.
  - intros la lb f. cbn. revert lb. induction la as [|x la IH]; intros [|y lb]; cbn; [done..|].
    rewrite IH. f_equal. apply value_product.
  - done.
  - done.
  - intros la f. cbn. split; [by rewrite <- list_fmap_compose|]. by apply Forall_fmap, Forall_true.
  - intros la f. cbn. split; [by rewrite <- list_fmap_compose|]. by apply Forall_fmap, Forall_true.
  - intros l. cbn. by rewrite <- list_fmap_compose.
  - intros p values f. cbn. split.
    + rewrite <- list_fmap_compose. rewrite <- (list_fmap_id (values p)) at 2. apply list_fmap_ext.
      intros i x _. unfold compose. case_decide; cbn; ring.
    + apply Forall_fmap, Forall_true. intros x. unfold compose. by case_decide.
  - intros n f. apply replicate_seq. intros i. by apply Zmod.to_Z_inj.
  - done.
  - intros n f. by apply (replicate_seq (fun p => (value p.1, value p.2))).
  - intros i. by apply Zmod.to_Z_inj.
Defined.
End TwoParty.
