(* ===== verification/MpcGadgets.v ===== *)
(** The gadgets of the two-party computation: circuits/src/mpc_gadgets/{bits,arithmetic,modulo,comparators}.rs. *)

From Stdlib Require Import Zmod Ascii.
From stdpp Require Import strings.
From S2P Require Import Prelude Primality Field Mpc.

#[local] Open Scope Zmod_scope.
#[local] Open Scope mpc_scope.

(** * The text of an error *)

(** [derive(Debug)] on a string: what is not printed as it is *)
Fixpoint escape (s : string) : string :=
  match s with
  | EmptyString => EmptyString
  | String c s =>
      let n := nat_of_ascii c in
      if decide (n = 34 \/ n = 92)%nat then String (ascii_of_nat 92) (String c (escape s))
      else if decide (n = 10)%nat then String (ascii_of_nat 92) (String (ascii_of_nat 110) (escape s))
      else String c (escape s)
  end.

Definition quoted (s : string) : string :=
  let quote := String (ascii_of_nat 34) EmptyString in ("(" +:+ quote +:+ escape s +:+ quote +:+ ")")%string.

(** [impl Display for MpcError] *)
Definition display_mpc_error (e : MpcError) : string :=
  match e with
  | ArithmeticError msg => "ArithmeticError" +:+ quoted msg
  | OpeningError msg => "OpeningError" +:+ quoted msg
  | SerializationError msg => "SerializationError" +:+ quoted msg
  | SetupError msg => "SetupError" +:+ quoted msg
  | SharingError msg => "SharingError" +:+ quoted msg
  end%string.

Section gadgets.
  Context {M : MpcFabric}.

(** [map_err] on a result of the gadgets *)
Definition remap {A} (c : string -> MpcError) (m : mpc A) : mpc A := fun f =>
  let (r, f') := m f in (match r with Fail e => Fail (c (display_mpc_error e)) | r => r end, f').

(** * bits.rs *)

Definition BLINDING_FACTOR_MAX_BITS : nat := 252.

Definition scalar_from_bits_le (bits : list AuthenticatedScalar) : mpc AuthenticatedScalar :=
  match rev bits with
  | [] => m_panic
  | last :: rest => m_ret (foldl (fun result bit => sc_add (sc_scale (scalar 2) result) bit) last rest)
  end.

Definition resize_bitvector_to_length (bitvec : list AuthenticatedScalar) (desired_length : nat)
    : list AuthenticatedScalar :=
  let bitvec :=
    if (length bitvec <? desired_length)%nat then bitvec ++ allocate_zeros (desired_length - length bitvec)
    else bitvec in
  take desired_length bitvec.

Definition bit_xor (a b : AuthenticatedScalar) : mpc AuthenticatedScalar :=
  let? product := mul (sc_scale (scalar 2) a) b in
  m_ret (sc_sub (sc_add a b) product).

(** The loop of [bit_add_impl] *)
Fixpoint bit_add_loop (a b result : list AuthenticatedScalar) (carry : AuthenticatedScalar)
    : mpc (list AuthenticatedScalar * AuthenticatedScalar) :=
  match a, b with
  | a_bit :: a, b_bit :: b =>
      let? a_xor_b := bit_xor a_bit b_bit in
      let? out := bit_xor a_xor_b carry in
      let? both := mul a_bit b_bit in
      let? carried := mul a_xor_b carry in
      bit_add_loop a b (result ++ [out]) (sc_add both carried)
  | _, _ => m_ret (result, carry)
  end.

Definition bit_add_impl (a b : list AuthenticatedScalar) (initial_carry : AuthenticatedScalar)
    : mpc (list AuthenticatedScalar * AuthenticatedScalar) :=
  m_assert (length a =? length b)%nat ;;? bit_add_loop a b [] initial_carry.

Definition bit_add (a b : list AuthenticatedScalar) : mpc (list AuthenticatedScalar * AuthenticatedScalar) :=
  bit_add_impl a b allocate_zero.

Definition carry_out (a b : list AuthenticatedScalar) (initial_carry : AuthenticatedScalar)
    : mpc AuthenticatedScalar :=
  let? r := bit_add_impl a b initial_carry in m_ret r.2.

Definition to_bits_le (D : nat) (x : AuthenticatedScalar) : mpc (list AuthenticatedScalar) :=
  m_assert (D <? SCALAR_MAX_BITS)%nat ;;?
  if is_public x then m_ret (allocate_public_scalar <$> Field.scalar_to_bits_le (to_scalar x)) else
  let? random_bits := draw (random_shared_bits (Nat.min D BLINDING_FACTOR_MAX_BITS)) in
  let? random_scalar := scalar_from_bits_le random_bits in
  let? random_upper_bits :=
    if (D <? SCALAR_MAX_BITS)%nat
    then let? r := draw random_shared_scalar in m_ret (sc_scale (scalar_2_to_m D) r)
    else m_ret allocate_zero in
  let blinding_factor := sc_add random_upper_bits random_scalar in
  let blinded_value := sc_add_public (scalar_2_to_m (D + 1)) (sc_sub x blinding_factor) in
  let? blinded_value_open :=
    map_err (fun _ => OpeningError "error opening blinded value while truncating") (sc_open blinded_value) in
  let blinded_value_bits := allocate_public_scalar <$> Field.scalar_to_bits_le (to_scalar blinded_value_open) in
  let? r := bit_add (resize_bitvector_to_length blinded_value_bits D) (resize_bitvector_to_length random_bits D) in
  m_ret r.1.

Definition bit_lt (a b : list AuthenticatedScalar) : mpc AuthenticatedScalar :=
  m_assert (length a =? length b)%nat ;;?
  let b_inverted := public_sub (scalar 1) <$> b in
  let? carry := carry_out a b_inverted (allocate_public_u64 1) in
  m_ret (public_sub (scalar 1) carry).

(** * arithmetic.rs *)

(** The loop over the opened values of [prefix_product_impl] *)
Fixpoint partial_products (accumulator : AuthenticatedScalar) (d_values_open : list AuthenticatedScalar)
    : mpc (list AuthenticatedScalar) :=
  match d_values_open with
  | [] => m_ret []
  | d_value :: rest =>
      let? accumulator := mul accumulator d_value in
      let? products := partial_products accumulator rest in
      m_ret (accumulator :: products)
  end.

(** [pre.iter().map(|index| l\[*index\].clone())] *)
Fixpoint select_indices (l : list AuthenticatedScalar) (pre : list nat) : mpc (list AuthenticatedScalar) :=
  match pre with
  | [] => m_ret []
  | i :: pre => let? x := m_index l i in let? rest := select_indices l pre in m_ret (x :: rest)
  end.

(** The first part of [prefix_product_impl]: the random pairs, and the opened values that telescope *)
Definition open_telescope (a : list AuthenticatedScalar)
    : mpc (list AuthenticatedScalar * list AuthenticatedScalar * list AuthenticatedScalar) :=
  let n := length a in
  let? pairs := draw (random_inverse_pairs (n + 1)) in
  let b_values := fst <$> pairs in
  let b_inv_values := snd <$> pairs in
  let? d_partial := map_err ArithmeticError (sc_batch_mul (take n b_values) a) in
  let? d_values := map_err ArithmeticError (sc_batch_mul d_partial (drop 1 b_inv_values)) in
  let? d_values_open :=
    map_err (fun _ => OpeningError "error opening d_values in prefix_mul") (sc_batch_open d_values) in
  m_ret (b_values, b_inv_values, d_values_open).

Definition prefix_product_impl (a : list AuthenticatedScalar) (pre : list nat) : mpc (list AuthenticatedScalar) :=
  let n := length a in
  m_assert (forallb (fun x => (x <? n)%nat) pre) ;;?
  let? (b_values, b_inv_values, d_values_open) := open_telescope a in
  let? products := partial_products (allocate_public_u64 1) d_values_open in
  let? first_inverse := m_index b_inv_values 0 in
  let? selected_b := select_indices b_values pre in
  let? cancellation_factors :=
    map_err ArithmeticError (sc_batch_mul (replicate (length pre) first_inverse) selected_b) in
  let? selected_partial_products := select_indices products pre in
  m_unwrap (sc_batch_mul selected_partial_products cancellation_factors).

(** [a.len() - 1] on an empty slice is no index of it. *)
Definition product (a : list AuthenticatedScalar) : mpc AuthenticatedScalar :=
  match length a with
  | O => m_panic
  | S last => let? r := prefix_product_impl a [last] in m_index r 0
  end.

Definition prefix_mul (a : list AuthenticatedScalar) : mpc (list AuthenticatedScalar) :=
  prefix_product_impl a (seq 0 (length a)).

(** The recursion of [pow], on the binary digits of the exponent *)
Fixpoint pow_positive (a : AuthenticatedScalar) (n : positive) : mpc AuthenticatedScalar :=
  match n with
  | xH => m_ret a
  | xO n => let? recursive_res := pow_positive a n in mul recursive_res recursive_res
  | xI n =>
      let? recursive_res := pow_positive a n in
      let? square := mul recursive_res recursive_res in
      mul square a
  end.

(** [pow] *)
Definition mpc_pow (a : AuthenticatedScalar) (n : N) : mpc AuthenticatedScalar :=
  match n with N0 => m_ret allocate_zero | Npos n => pow_positive a n end.

(** * modulo.rs *)

Definition mod_2m (m : nat) (a : AuthenticatedScalar) : mpc AuthenticatedScalar :=
  if (256 <=? m)%nat then m_ret a else
  let scalar_2m := scalar_2_to_m m in
  let? random_bits := draw (random_shared_bits m) in
  let? random_lower_bits :=
    match random_bits with [] => m_ret allocate_zero | _ => scalar_from_bits_le random_bits end in
  let? random_upper := draw random_shared_scalar in
  let random_upper_bits := sc_scale scalar_2m random_upper in
  let blinding_factor := sc_add random_upper_bits random_lower_bits in
  let blinded_value := sc_add a blinding_factor in
  let? blinded_value_open :=
    map_err (fun _ => OpeningError "error opening blinded value while taking mod_2m")
      (sc_open_and_authenticate blinded_value) in
  let value_open_mod_2m := Z.rem (scalar_to_bigint (to_scalar blinded_value_open)) (Z.shiftl 1 (Z.of_nat m)) in
  let mod_opened_value_bits := take m (allocate_public_scalar <$> bigint_to_scalar_bits m value_open_mod_2m) in
  let? lt := bit_lt mod_opened_value_bits random_bits in
  let shift_bit := sc_scale scalar_2m lt in
  m_ret (sc_sub (sc_add_public (bigint_to_scalar value_open_mod_2m) shift_bit) random_lower_bits).

Definition truncate (m : nat) (x : AuthenticatedScalar) : mpc AuthenticatedScalar :=
  if (SCALAR_MAX_BITS <=? m)%nat then m_ret allocate_zero else
  let? x_mod_2m := mod_2m m x in
  m_ret (sc_scale (Zmod.inv (scalar_2_to_m m)) (sc_sub x x_mod_2m)).

Definition shift_right (m : nat) (a : AuthenticatedScalar) : mpc AuthenticatedScalar :=
  if (256 <=? m)%nat then m_ret allocate_zero else truncate m a.

(** * comparators.rs *)

(** [constant_round_or_impl] *)
Definition constant_round_or_impl (a : list AuthenticatedScalar) : mpc AuthenticatedScalar :=
  let n := length a in
  let sum_a := sc_sum a in
  let sum_monomials :=
    (fun x => let x := scalar (Z.of_nat x) in sc_scale (Zmod.inv x) (public_sub x sum_a)) <$> seq 1 n in
  let? monomial_product := remap ArithmeticError (product sum_monomials) in
  m_ret (public_sub (scalar 1) monomial_product).

(** [zip] of public bits with shared bits, and their [bit_xor] *)
Fixpoint xor_bits (public : list Scalar) (shared : list AuthenticatedScalar) : mpc (list AuthenticatedScalar) :=
  match public, shared with
  | p :: public, s :: shared =>
      let? x := bit_xor (allocate_public_scalar p) s in
      let? rest := xor_bits public shared in
      m_ret (x :: rest)
  | _, _ => m_ret []
  end.

(** [((a.len() + 1) as f32).log2().ceil() as usize] *)
Definition count_bits (len : nat) : nat := Z.to_nat (Z.log2_up (Z.of_nat (len + 1))).

Definition kary_or (a : list AuthenticatedScalar) : mpc AuthenticatedScalar :=
  let max_bits := count_bits (length a) in
  let? blinding_bits := draw (random_shared_bits max_bits) in
  let? blinding_value := scalar_from_bits_le blinding_bits in
  let? upper := draw random_shared_scalar in
  let blinding_value_upper_bits := sc_scale (scalar (Z.shiftl 1 (Z.of_nat max_bits))) upper in
  let sum_a := sc_sum a in
  let blinded_sum := sc_add (sc_add sum_a blinding_value) blinding_value_upper_bits in
  let? blinded_sum_open := map_err OpeningError (sc_open_and_authenticate blinded_sum) in
  let? unblinded_shared_bits := xor_bits (Field.scalar_to_bits_le (to_scalar blinded_sum_open)) blinding_bits in
  constant_round_or_impl unblinded_shared_bits.

Definition eq_zero (D : nat) (a : AuthenticatedScalar) : mpc AuthenticatedScalar :=
  let? bits := to_bits_le D a in
  let? or := kary_or bits in
  m_ret (public_sub (scalar 1) or).

(** [eq] *)
Definition mpc_eq (D : nat) (a b : AuthenticatedScalar) : mpc AuthenticatedScalar := eq_zero D (sc_sub a b).

(** [ne] *)
Definition mpc_ne (D : nat) (a b : AuthenticatedScalar) : mpc AuthenticatedScalar :=
  let? equal := mpc_eq D a b in m_ret (public_sub (scalar 1) equal).

(** The width of the comparisons below is a parameter of the code that it does not use. *)
Definition less_than_zero (a : AuthenticatedScalar) : mpc AuthenticatedScalar :=
  let? truncated := truncate 250 a in mpc_ne 2 truncated allocate_zero.

Definition less_than (a b : AuthenticatedScalar) : mpc AuthenticatedScalar := less_than_zero (sc_sub a b).

Definition greater_than (a b : AuthenticatedScalar) : mpc AuthenticatedScalar := less_than_zero (sc_sub b a).

Definition less_than_equal (a b : AuthenticatedScalar) : mpc AuthenticatedScalar :=
  let? greater := greater_than a b in m_ret (public_sub (scalar 1) greater).

Definition greater_than_equal (a b : AuthenticatedScalar) : mpc AuthenticatedScalar :=
  let? less := less_than a b in m_ret (public_sub (scalar 1) less).

(** [min]: the index of the smaller value and the value *)
Definition mpc_min (a b : AuthenticatedScalar) : mpc (AuthenticatedScalar * AuthenticatedScalar) :=
  let? a_lt_b := less_than a b in
  let? selected_a := mul a_lt_b a in
  let? selected_b := mul (public_sub (scalar 1) a_lt_b) b in
  m_ret (public_sub (scalar 1) a_lt_b, sc_add selected_a selected_b).

Definition cond_select (s a b : AuthenticatedScalar) : mpc AuthenticatedScalar :=
  let? selectors := map_err ArithmeticError (sc_batch_mul [a; b] [s; public_sub (scalar 1) s]) in
  let? x := m_index selectors 0 in
  let? y := m_index selectors 1 in
  m_ret (sc_add x y).

Definition cond_select_vec (s : AuthenticatedScalar) (a b : list AuthenticatedScalar)
    : mpc (list AuthenticatedScalar) :=
  m_assert (length a =? length b)%nat ;;?
  let? selectors := map_err ArithmeticError (sc_batch_mul (a ++ b)
    (replicate (length a) s ++ replicate (length b) (public_sub (scalar 1) s))) in
  m_ret (zip_with sc_add (take (length a) selectors) (drop (length a) selectors)).
End gadgets.
