(* ===== verification/MpcProperties.v ===== *)
(** What the gadgets of the two-party computation reveal, for any shared randomness. *)

From Stdlib Require Import Zmod.
From stdpp Require Import strings.
From S2P Require Import Prelude Primality Field Mpc MpcGadgets.

#[local] Open Scope Zmod_scope.
#[local] Open Scope mpc_scope.

(** * Bits *)

(** The number with the given bits, the lowest first *)
Definition bools_value (l : list bool) : Z := foldr (fun b acc => Z.b2z b + 2 * acc)%Z 0%Z l.

Definition testbits (n : nat) (z : Z) : list bool := (fun i : nat => Z.testbit z (Z.of_nat i)) <$> seq 0 n.

Lemma bools_value_range l : (0 <= bools_value l < 2 ^ Z.of_nat (length l))%Z.
Proof.
  induction l as [|b l IH]; [cbn; lia|]. cbn [bools_value foldr length]. fold (bools_value l).
  rewrite Nat2Z.inj_succ, Z.pow_succ_r by lia. destruct b; cbn [Z.b2z]; lia.
Qed.

Lemma bools_value_inj l l' : length l = length l' -> bools_value l = bools_value l' -> l = l'.
Proof.
  revert l'. induction l as [|b l IH]; intros [|b' l'] Hl Hv; try done.
  cbn [bools_value foldr] in Hv. fold (bools_value l) (bools_value l') in Hv. injection Hl as Hl.
  assert (b = b') as -> by (destruct b, b'; cbn [Z.b2z] in Hv; done || lia). f_equal. apply IH; [done|lia].
Qed.

Lemma bits_value_bools l : bits_value (bit_scalar <$> l) = scalar (bools_value l).
Proof.
  induction l as [|b l IH]; [done|]. unfold bits_value in *. cbn [fmap list_fmap foldr]. rewrite IH.
  cbn [bools_value foldr]. fold (bools_value l). rewrite bit_scalar_Z, Zmod.of_Z_add, Zmod.of_Z_mul. ring.
Qed.

Lemma length_testbits n z : length (testbits n z) = n.
Proof. unfold testbits. by rewrite length_fmap, length_seq. Qed.

Lemma bools_value_app l l' :
  bools_value (l ++ l') = (bools_value l + 2 ^ Z.of_nat (length l) * bools_value l')%Z.
Proof.
  induction l as [|b l IH]; [change (2 ^ Z.of_nat (length (@nil bool)))%Z with 1%Z; cbn [app]; change (bools_value []) with 0%Z; lia|].
  cbn [app bools_value foldr length]. fold (bools_value (l ++ l')) (bools_value l).
  rewrite IH, Nat2Z.inj_succ, Z.pow_succ_r by lia. lia.
Qed.

Lemma bools_value_testbits n z : bools_value (testbits n z) = (z mod 2 ^ Z.of_nat n)%Z.
Proof.
  induction n as [|n IH]; [cbn; by rewrite Z.mod_1_r|].
  unfold testbits in *. rewrite seq_S, fmap_app, bools_value_app, IH, length_fmap, length_seq, Nat.add_0_l.
  cbn [fmap list_fmap bools_value foldr].
  rewrite Nat2Z.inj_succ, Z.pow_succ_r, Z.testbit_spec' by lia.
  rewrite (Z.mul_comm 2 (2 ^ _)), Z.rem_mul_r by lia. by rewrite Z.mul_0_r, Z.add_0_r.
Qed.

Lemma testbits_take n m z : (n <= m)%nat -> take n (testbits m z) = testbits n z.
Proof. intros H. unfold testbits. by rewrite <- fmap_take, take_seq, Nat.min_l. Qed.

Lemma scalar_bits_bools a : Field.scalar_to_bits_le a = bit_scalar <$> testbits 256 (Zmod.to_Z a).
Proof. rewrite scalar_to_bits_le_spec. unfold testbits. by rewrite <- list_fmap_compose. Qed.

Section gadgets.
  Context `{L : MpcLaws}.

(** Shares of bits *)
Definition shares (l : list AuthenticatedScalar) (bs : list bool) : Prop := reveal <$> l = bit_scalar <$> bs.

Lemma shares_length l bs : shares l bs -> length l = length bs.
Proof. intros H. apply (f_equal length) in H. by rewrite !length_fmap in H. Qed.

Lemma computes_from_bits bits :
  bits <> [] -> computes (scalar_from_bits_le bits) (fun r => reveal r = bits_value (reveal <$> bits)).
Proof.
  intros Hne. unfold scalar_from_bits_le. assert (Hb : bits = rev (rev bits)) by by rewrite rev_involutive.
  destruct (rev bits) as [|x rest]; [done|]. subst bits. apply computes_ret. clear Hne.
  enough (forall x, reveal (foldl (fun result bit => sc_add (sc_scale (scalar 2) result) bit) x rest) =
    bits_value (reveal <$> rev rest) + scalar (2 ^ Z.of_nat (length rest)) * reveal x) as H.
  { rewrite H. cbn [rev]. rewrite fmap_app, bits_value_app, length_fmap, length_rev. f_equal. f_equal.
    unfold bits_value. cbn [fmap list_fmap foldr]. ring. }
  induction rest as [|y rest IH]; intros z.
  - cbn [foldl rev length fmap list_fmap]. change (2 ^ Z.of_nat 0)%Z with 1%Z. change (bits_value []) with (0 : Scalar). ring.
  - cbn [foldl rev length]. rewrite IH, reveal_add, reveal_scale, fmap_app, bits_value_app, length_fmap, length_rev.
    rewrite Nat2Z.inj_succ, Z.pow_succ_r, Zmod.of_Z_mul by lia. unfold bits_value. cbn [fmap list_fmap foldr]. ring.
Qed.

Lemma computes_from_shares l bs :
  shares l bs -> bs <> [] -> computes (scalar_from_bits_le l) (fun r => reveal r = scalar (bools_value bs)).
Proof.
  intros Hs Hne. rewrite <- bits_value_bools, <- Hs. apply computes_from_bits.
  intros ->. apply shares_length in Hs. by destruct bs.
Qed.

Lemma computes_xor a b x y :
  reveal a = bit_scalar x -> reveal b = bit_scalar y ->
  computes (bit_xor a b) (fun c => reveal c = bit_scalar (xorb x y)).
Proof.
  intros Ha Hb. unfold bit_xor. eapply computes_call; [apply computes_mul|]. intros p [Hp _]. apply computes_ret.
  rewrite reveal_sub, reveal_add, Hp, reveal_scale, Ha, Hb. destruct x, y; cbn; by apply Zmod.to_Z_inj.
Qed.

(** A step of the adder *)
Lemma full_adder x y c :
  (Z.b2z x + Z.b2z y + Z.b2z c = Z.b2z (xorb (xorb x y) c) + 2 * Z.b2z (x && y || xorb x y && c))%Z.
Proof. by destruct x, y, c. Qed.

Lemma computes_bit_add_loop a b la lb result lr carry c :
  shares a la -> shares b lb -> length la = length lb -> shares result lr -> reveal carry = bit_scalar c ->
  computes (bit_add_loop a b result carry) (fun r => exists out c',
    shares r.1 (lr ++ out) /\ length out = length la /\ reveal r.2 = bit_scalar c' /\
    (bools_value la + bools_value lb + Z.b2z c = bools_value out + 2 ^ Z.of_nat (length la) * Z.b2z c')%Z).
Proof.
  revert b la lb result lr carry c. induction a as [|a_bit a IH]; intros b la lb result lr carry c Ha Hb Hl Hr Hc.
  { destruct la; [|done]. destruct lb; [|done]. destruct b; [|done]. apply computes_ret.
    exists [], c. rewrite app_nil_r. cbn -[Z.add Z.mul]. split_and!; try done; lia. }
  destruct la as [|x la]; [done|]. destruct lb as [|y lb]; [done|]. destruct b as [|b_bit b]; [done|].
  injection Ha as Hx Ha. injection Hb as Hy Hb. injection Hl as Hl. cbn [bit_add_loop].
  eapply computes_call; [by apply computes_xor|]. intros s Hs. cbn beta in Hs.
  eapply computes_call; [by apply computes_xor|]. intros o Ho. cbn beta in Ho.
  eapply computes_call; [apply computes_mul|]. intros p [Hp _].
  eapply computes_call; [apply computes_mul|]. intros q [Hq _].
  eapply computes_mono.
  - apply (IH b la lb (result ++ [o]) (lr ++ [xorb (xorb x y) c]) (sc_add p q) (x && y || xorb x y && c)); try done.
    + unfold shares in *. rewrite !fmap_app, Hr. cbn. by rewrite Ho.
    + rewrite reveal_add, Hp, Hq, Hx, Hy, Hs, Hc. destruct x, y, c; cbn; by apply Zmod.to_Z_inj.
  - intros r (out & c' & H1 & H2 & H3 & H4). exists (xorb (xorb x y) c :: out), c'.
    rewrite <- app_assoc in H1. split; [done|]. split; [by cbn; rewrite H2|]. split; [done|].
    cbn [bools_value foldr length]. fold (bools_value la) (bools_value lb) (bools_value out).
    rewrite Nat2Z.inj_succ, Z.pow_succ_r by lia. pose proof (full_adder x y c). lia.
Qed.

(** [bit_add_impl] adds, with the carries of both ends. *)
Lemma computes_bit_add a b la lb carry c :
  shares a la -> shares b lb -> length la = length lb -> reveal carry = bit_scalar c ->
  computes (bit_add_impl a b carry) (fun r => exists out c',
    shares r.1 out /\ length out = length la /\ reveal r.2 = bit_scalar c' /\
    (bools_value la + bools_value lb + Z.b2z c = bools_value out + 2 ^ Z.of_nat (length la) * Z.b2z c')%Z).
Proof.
  intros Ha Hb Hl Hc. unfold bit_add_impl. apply computes_seq, computes_assert.
  - apply Nat.eqb_eq. by rewrite (shares_length a la), (shares_length b lb).
  - by apply (computes_bit_add_loop a b la lb [] []).
Qed.

Lemma bools_value_negb l : bools_value (negb <$> l) = (2 ^ Z.of_nat (length l) - 1 - bools_value l)%Z.
Proof.
  induction l as [|b l IH]; [done|]. cbn [fmap list_fmap bools_value foldr length].
  fold (bools_value l) (bools_value (negb <$> l)). fold (fmap (M := list) negb l). rewrite IH, Nat2Z.inj_succ, Z.pow_succ_r by lia. destruct b; cbn [negb Z.b2z]; lia.
Qed.

Lemma computes_carry_out a b la lb carry c :
  shares a la -> shares b lb -> length la = length lb -> reveal carry = bit_scalar c ->
  computes (carry_out a b carry) (fun r =>
    reveal r = bit_scalar (2 ^ Z.of_nat (length la) <=? bools_value la + bools_value lb + Z.b2z c)%Z).
Proof.
  intros Ha Hb Hl Hc. unfold carry_out. eapply computes_call; [by apply computes_bit_add|].
  intros r (out & c' & _ & Hlen & Hr & Hv). apply computes_ret. rewrite Hr. f_equal.
  pose proof (bools_value_range out) as Hout. rewrite Hlen in Hout.
  destruct (Z.leb_spec (2 ^ Z.of_nat (length la)) (bools_value la + bools_value lb + Z.b2z c)), c'; cbn [Z.b2z] in *; done || lia.
Qed.

Lemma shares_inverted l bs : shares l bs -> shares (public_sub (scalar 1) <$> l) (negb <$> bs).
Proof.
  unfold shares. intros H. rewrite <- !list_fmap_compose.
  transitivity (Zmod.sub (scalar 1) <$> (reveal <$> l)).
  - rewrite <- list_fmap_compose. apply list_fmap_ext. intros i x _. unfold compose. by rewrite reveal_public_sub.
  - rewrite H, <- list_fmap_compose. apply list_fmap_ext. intros i [] _; by apply Zmod.to_Z_inj.
Qed.

(** [bit_lt] compares. *)
Lemma computes_bit_lt a b la lb :
  shares a la -> shares b lb -> length la = length lb ->
  computes (bit_lt a b) (fun c => reveal c = bit_scalar (bools_value la <? bools_value lb)%Z).
Proof.
  intros Ha Hb Hl. unfold bit_lt. apply computes_seq, computes_assert.
  { apply Nat.eqb_eq. by rewrite (shares_length a la), (shares_length b lb). }
  eapply computes_call; [apply (computes_carry_out a _ la (negb <$> lb) _ true)|].
  - done.
  - by apply shares_inverted.
  - by rewrite length_fmap.
  - unfold allocate_public_u64. rewrite reveal_public. done.
  - cbn beta. intros carry Hc. apply computes_ret. rewrite reveal_public_sub, Hc, bools_value_negb, Hl. cbn [Z.b2z].
    destruct (Z.leb_spec (2 ^ Z.of_nat (length lb)) (bools_value la + (2 ^ Z.of_nat (length lb) - 1 - bools_value lb) + 1)),
      (Z.ltb_spec (bools_value la) (bools_value lb)); try lia; by apply Zmod.to_Z_inj.
Qed.

(** * Decomposition *)

(** The random bits of a batch *)
Definition blinder (n : nat) : list bool := src_bit src <$> seq 0 n.

Lemma length_blinder n : length (blinder n) = n.
Proof. unfold blinder. by rewrite length_fmap, length_seq. Qed.

Lemma computes_random_bits n : computes (draw (random_shared_bits n)) (fun l => shares l (blinder n)).
Proof.
  apply computes_draw. intros f. unfold shares, blinder. rewrite shared_bits_law, <- list_fmap_compose. done.
Qed.

Lemma computes_random_scalar :
  computes (draw random_shared_scalar) (fun r => reveal r = src_value src).
Proof. apply computes_draw. intros f. apply shared_scalar_law. Qed.

Lemma computes_open c x :
  computes (map_err c (sc_open x)) (fun r => to_scalar r = reveal x).
Proof.
  apply computes_map_err. intros f. pose proof (open_law x f) as H. destruct (sc_open x f) as [[r| |] ?]; cbn in *; try done.
  destruct H as [H1 H2]. by rewrite to_scalar_public.
Qed.

Lemma computes_open_and_authenticate c x :
  computes (map_err c (sc_open_and_authenticate x)) (fun r => to_scalar r = reveal x).
Proof.
  apply computes_map_err. intros f. pose proof (open_and_authenticate_law x f) as H.
  destruct (sc_open_and_authenticate x f) as [[r| |] ?]; cbn in *; try done.
  destruct H as [H1 H2]. by rewrite to_scalar_public.
Qed.

Lemma shares_public (bs : list bool) : shares (allocate_public_scalar <$> (bit_scalar <$> bs)) bs.
Proof.
  unfold shares. rewrite <- list_fmap_compose. rewrite <- (list_fmap_id (bit_scalar <$> bs)) at 2.
  apply list_fmap_ext. intros i x _. apply reveal_public.
Qed.

Lemma shares_resize l bs n : shares l bs -> (n <= length bs)%nat -> shares (resize_bitvector_to_length l n) (take n bs).
Proof.
  intros H Hn. unfold resize_bitvector_to_length. rewrite (shares_length l bs) by done.
  destruct (Nat.ltb_spec (length bs) n); [lia|]. unfold shares in *. by rewrite !fmap_take, H.
Qed.

(** What is opened by [to_bits_le], and the number whose bits it gives *)
Definition opened_bits (D : nat) (x : Scalar) : Scalar :=
  scalar (2 ^ Z.of_nat (D + 1)) +
  (x - (scalar (2 ^ Z.of_nat D) * src_value src + scalar (bools_value (blinder D)))).

Definition decomposed (D : nat) (x : Scalar) : Z :=
  ((Zmod.to_Z (opened_bits D x) + bools_value (blinder D)) mod 2 ^ Z.of_nat D)%Z.

Lemma computes_to_bits D x :
  (0 < D < 252)%nat -> is_public x = false ->
  computes (to_bits_le D x) (fun r => shares r (testbits D (decomposed D (reveal x)))).
Proof.
  intros HD Hx. unfold to_bits_le.
  assert (HD' : (D <? SCALAR_MAX_BITS)%nat = true) by (apply Nat.ltb_lt; unfold SCALAR_MAX_BITS; lia).
  rewrite HD', Hx, Nat.min_l by (unfold BLINDING_FACTOR_MAX_BITS; lia).
  apply computes_seq, computes_assert; [done|].
  eapply computes_call; [apply computes_random_bits|]. intros bits Hbits. cbn beta in Hbits.
  eapply computes_call; [apply (computes_from_shares bits (blinder D)); [done|]|].
  { intros H. apply (f_equal length) in H. rewrite length_blinder in H. cbn in H. lia. }
  intros r Hr. cbn beta in Hr.
  apply computes_seq. eapply computes_call; [apply computes_random_scalar|]. intros u Hu. cbn beta in Hu.
  apply computes_ret. eapply computes_call; [apply computes_open|]. intros v Hv. cbn beta in Hv.
  assert (Hopen : to_scalar v = opened_bits D (reveal x)).
  { rewrite Hv, reveal_add_public, reveal_sub, reveal_add, reveal_scale, Hr, Hu, !scalar_2_to_m_spec
      by (unfold SCALAR_MAX_BITS; lia). done. }
  rewrite Hopen, scalar_bits_bools. set (o := Zmod.to_Z (opened_bits D (reveal x))) in *.
  eapply computes_call; [apply (computes_bit_add _ _ (testbits D o) (blinder D) _ false)|].
  - rewrite <- (testbits_take D 256) by lia. apply shares_resize; [apply shares_public|]. rewrite length_testbits. lia.
  - rewrite <- (firstn_all (blinder D)), length_blinder at 1. apply shares_resize; [done|]. by rewrite length_blinder.
  - by rewrite length_testbits, length_blinder.
  - apply reveal_zero.
  - cbn beta. intros [r1 r2] (out & c' & Hs & Hlen & _ & Hsum). apply computes_ret. cbn [fst].
    rewrite length_testbits in *. replace (testbits D (decomposed D (reveal x))) with out; [done|].
    apply bools_value_inj; [by rewrite length_testbits|]. pose proof (bools_value_range out) as Hrange. rewrite Hlen in Hrange.
    rewrite bools_value_testbits in *. unfold decomposed. fold o. rewrite Z.mod_mod by lia.
    rewrite <- (Z.add_mod_idemp_l o) by lia. cbn [Z.b2z] in Hsum. rewrite Z.add_0_r in Hsum. rewrite Hsum.
    rewrite (Z.mul_comm (2 ^ _)), Z.mod_add by lia. by rewrite Z.mod_small.
Qed.

(** How often the opened value wraps around the field *)
Definition wraps (D : nat) (x : Scalar) : Z :=
  ((Zmod.to_Z x + 2 ^ Z.of_nat (D + 1) - Zmod.to_Z (src_value src) * 2 ^ Z.of_nat D - bools_value (blinder D))
   / ristretto_order)%Z.

Lemma decomposed_wraps D x :
  decomposed D x = ((Zmod.to_Z x - wraps D x * ristretto_order) mod 2 ^ Z.of_nat D)%Z.
Proof.
  unfold decomposed, wraps. set (r := bools_value (blinder D)). set (u := Zmod.to_Z (src_value src)).
  set (e := (Zmod.to_Z x + 2 ^ Z.of_nat (D + 1) - u * 2 ^ Z.of_nat D - r)%Z).
  assert (opened_bits D x = scalar e) as ->.
  { unfold opened_bits, e. fold r. rewrite <- (Zmod.of_Z_to_Z (src_value src)). fold u.
    rewrite !Zmod.of_Z_sub, Zmod.of_Z_add, Zmod.of_Z_mul, Zmod.of_Z_to_Z. ring. }
  assert (0 < ristretto_order)%Z by done. rewrite Zmod.to_Z_of_Z, (Z.mod_eq e ristretto_order) by lia.
  assert (e = Zmod.to_Z x + 2 ^ Z.of_nat D * 2 - u * 2 ^ Z.of_nat D - r)%Z as He.
  { unfold e. by rewrite Nat2Z.inj_add, Z.pow_add_r by lia. }
  clearbody e r u. set (k := (e / ristretto_order)%Z). set (p := (2 ^ Z.of_nat D)%Z) in *.
  replace (e - ristretto_order * k + r)%Z with (Zmod.to_Z x - k * ristretto_order + (2 - u) * p)%Z by nia.
  apply Z.mod_add. unfold p. lia.
Qed.

Lemma wraps_exact (D : nat) (x w : Z) :
  ((x - w * ristretto_order) mod 2 ^ Z.of_nat D = x mod 2 ^ Z.of_nat D <-> w mod 2 ^ Z.of_nat D = 0)%Z.
Proof.
  assert (Hp : (2 ^ Z.of_nat D <> 0)%Z) by lia. rewrite Z.mod_divide by done. split.
  - intros H. assert ((w * ristretto_order) mod 2 ^ Z.of_nat D = 0)%Z as H0.
    { replace (w * ristretto_order)%Z with (x - (x - w * ristretto_order))%Z by lia.
      by rewrite Zminus_mod, H, Z.sub_diag, Zmod_0_l. }
    apply Z.mod_divide in H0; [|done]. rewrite Z.mul_comm in H0. apply Z.gauss in H0; [done|].
    apply Z.coprime_pow_l; [lia|]. reflexivity.
  - intros [k ->]. replace (x - k * 2 ^ Z.of_nat D * ristretto_order)%Z with (x + (- k * ristretto_order) * 2 ^ Z.of_nat D)%Z by lia.
    by apply Z.mod_add.
Qed.

Lemma shares_inj l bs bs' : shares l bs -> shares l bs' -> bs = bs'.
Proof.
  unfold shares. intros H1 H2. rewrite H1 in H2. revert bs' H2. clear H1.
  induction bs as [|b bs IH]; intros [|b' bs'] H; try discriminate H; [done|]. injection H as Hb H.
  f_equal; [|by apply IH]. destruct b, b'; try done; apply (f_equal Zmod.to_Z) in Hb; vm_compute in Hb; discriminate Hb.
Qed.

(** The bits of a shared value.  [to_bits_le] blinds the value with a multiple of [2^D] that is taken in the field;
    whatever the shared randomness, its bits are those of the value exactly if the number of times that the opened
    value wraps around the field is a multiple of [2^D]. *)
Theorem bit_decomposition_blinded D x f :
  (0 < D < 252)%nat -> is_public x = false ->
  match (to_bits_le D x f).1 with
  | Ret r => shares r (testbits D (Zmod.to_Z (reveal x))) <-> (wraps D (reveal x) mod 2 ^ Z.of_nat D = 0)%Z
  | _ => ~ reliable
  end.
Proof.
  intros HD Hx. revert f. change (computes (to_bits_le D x) (fun r =>
    shares r (testbits D (Zmod.to_Z (reveal x))) <-> (wraps D (reveal x) mod 2 ^ Z.of_nat D = 0)%Z)).
  eapply computes_mono; [by apply computes_to_bits|]. cbn beta. intros r Hr.
  rewrite <- (wraps_exact D (Zmod.to_Z (reveal x))), <- decomposed_wraps, <- (bools_value_testbits D (Zmod.to_Z (reveal x))).
  split.
  - intros H. rewrite <- (shares_inj _ _ _ Hr H), bools_value_testbits. unfold decomposed. by rewrite Z.mod_mod by lia.
  - intros H. replace (testbits D (Zmod.to_Z (reveal x))) with (testbits D (decomposed D (reveal x))); [done|].
    apply bools_value_inj; [by rewrite !length_testbits|]. rewrite <- H, bools_value_testbits. unfold decomposed.
    by rewrite Z.mod_mod by lia.
Qed.

(** What is opened by [mod_2m], and the residue that it gives *)
Definition opened_mod (m : nat) (a : Scalar) : Scalar :=
  a + (scalar (2 ^ Z.of_nat m) * src_value src + scalar (bools_value (blinder m))).

Definition residue (m : nat) (a : Scalar) : Z :=
  ((Zmod.to_Z (opened_mod m a) - bools_value (blinder m)) mod 2 ^ Z.of_nat m)%Z.

Lemma unblinded_residue o r p :
  (0 <= r < p)%Z -> ((o - r) mod p = p * Z.b2z (o mod p <? r) + o mod p - r)%Z.
Proof.
  intros Hr. pose proof (Z.mod_pos_bound o p ltac:(lia)). pose proof (Z.div_mod o p ltac:(lia)).
  symmetry. apply (Z.mod_unique _ _ (o / p - Z.b2z (o mod p <? r))%Z); [left|];
    destruct (Z.ltb_spec (o mod p) r); cbn [Z.b2z]; lia.
Qed.

Lemma computes_mod_2m m a :
  (0 < m < 253)%nat -> computes (mod_2m m a) (fun r => reveal r = scalar (residue m (reveal a))).
Proof.
  intros Hm. unfold mod_2m. destruct (Nat.leb_spec 256 m); [lia|].
  eapply computes_call; [apply computes_random_bits|]. intros bits Hbits. cbn beta in Hbits.
  eapply computes_call.
  { destruct bits as [|b bits]; [apply shares_length in Hbits; rewrite length_blinder in Hbits; cbn in Hbits; lia|].
    apply (computes_from_shares _ (blinder m)); [done|].
    intros H0. apply (f_equal length) in H0. rewrite length_blinder in H0. cbn in H0. lia. }
  intros r Hr. cbn beta in Hr. eapply computes_call; [apply computes_random_scalar|]. intros u Hu. cbn beta in Hu.
  eapply computes_call; [apply computes_open_and_authenticate|]. intros v Hv. cbn beta in Hv.
  assert (Hopen : to_scalar v = opened_mod m (reveal a)).
  { rewrite Hv, !reveal_add, reveal_scale, Hr, Hu, scalar_2_to_m_spec by (unfold SCALAR_MAX_BITS; lia). done. }
  rewrite Hopen, scalar_to_bigint_spec, Z.shiftl_1_l. set (o := Zmod.to_Z (opened_mod m (reveal a))).
  pose proof (scalar_range (opened_mod m (reveal a))) as Ho. fold o in Ho. rewrite Z.rem_mod_nonneg by lia.
  pose proof (Z.mod_pos_bound o (2 ^ Z.of_nat m) ltac:(lia)) as Hb.
  eapply computes_call; [apply (computes_bit_lt _ bits (testbits m (o mod 2 ^ Z.of_nat m)) (blinder m))|].
  - rewrite firstn_all2 by (rewrite length_fmap; unfold bigint_to_scalar_bits; by rewrite length_fmap, length_seq).
    replace (bigint_to_scalar_bits m (o mod 2 ^ Z.of_nat m)) with (bit_scalar <$> testbits m (o mod 2 ^ Z.of_nat m));
      [apply shares_public|]. unfold testbits. by rewrite <- list_fmap_compose.
  - done.
  - by rewrite length_testbits, length_blinder.
  - cbn beta. intros lt Hlt. apply computes_ret.
    rewrite reveal_sub, reveal_add_public, reveal_scale, Hlt, Hr, bools_value_testbits, Z.mod_mod by lia.
    rewrite scalar_2_to_m_spec by (unfold SCALAR_MAX_BITS; lia). unfold residue. fold o.
    pose proof (bools_value_range (blinder m)) as Hrange. rewrite length_blinder in Hrange.
    rewrite unblinded_residue, bit_scalar_Z by done. assert (2 ^ Z.of_nat m <= 2 ^ 252)%Z by (apply Z.pow_le_mono_r; lia).
    rewrite bigint_to_scalar_small by (assert (2 ^ 252 < 2 ^ 256)%Z by done; lia).
    rewrite !Zmod.of_Z_sub, !Zmod.of_Z_add, !Zmod.of_Z_mul. ring.
Qed.

Lemma computes_truncate m a :
  (0 < m < 253)%nat ->
  computes (truncate m a) (fun r =>
    reveal r = Zmod.inv (scalar (2 ^ Z.of_nat m)) * (reveal a - scalar (residue m (reveal a))) /\
    (is_public a = false -> is_public r = false)).
Proof.
  intros Hm. unfold truncate. destruct (Nat.leb_spec SCALAR_MAX_BITS m); [unfold SCALAR_MAX_BITS in *; lia|].
  eapply computes_call; [by apply computes_mod_2m|]. intros r Hr. apply computes_ret.
  split; [by rewrite reveal_scale, reveal_sub, Hr, scalar_2_to_m_spec|].
  intros Ha. by rewrite public_scale, public_subtract, Ha.
Qed.

(** * Products *)

Definition b_value (i : nat) : Scalar := (src_pair src i).1.
Definition b_inverse (i : nat) : Scalar := (src_pair src i).2.

Lemma b_cancel i : b_value i * b_inverse i = 1.
Proof. apply inverse_pairs_inverse. Qed.

Definition prod (l : list Scalar) : Scalar := foldr Zmod.mul 1 l.

(** The values that [prefix_product_impl] opens, from the pair with the given index on *)
Fixpoint telescope (j : nat) (a : list Scalar) : list Scalar :=
  match a with [] => [] | x :: a => b_value j * x * b_inverse (S j) :: telescope (S j) a end.

Lemma telescope_zip j a :
  zip_with Zmod.mul (zip_with Zmod.mul (b_value <$> seq j (length a)) a) (b_inverse <$> seq (S j) (length a)) =
  telescope j a.
Proof. revert j. induction a as [|x a IH]; intros j; [done|]. cbn. f_equal. apply (IH (S j)). Qed.

Lemma telescope_prod j l a :
  (l < length a)%nat ->
  prod (take (S l) (telescope j a)) = b_value j * prod (take (S l) a) * b_inverse (j + S l).
Proof.
  revert j l. induction a as [|x a IH]; intros j l Hl; [cbn in Hl; lia|].
  destruct l as [|l].
  - cbn. rewrite Nat.add_1_r. change (b_value j * x * b_inverse (S j) * 1 = b_value j * (x * 1) * b_inverse (S j)). ring.
  - change (b_value j * x * b_inverse (S j) * prod (take (S l) (telescope (S j) a)) =
      b_value j * (x * prod (take (S l) a)) * b_inverse (j + S (S l))).
    rewrite IH by (cbn in Hl; lia). replace (S j + S l)%nat with (j + S (S l))%nat by lia.
    transitivity (b_value j * (x * prod (take (S l) a)) * b_inverse (j + S (S l)) * (b_value (S j) * b_inverse (S j))); [ring|].
    rewrite b_cancel. ring.
Qed.

Lemma length_telescope j a : length (telescope j a) = length a.
Proof. revert j. induction a as [|x a IH]; intros j; cbn; [done|]. by rewrite IH. Qed.

Lemma computes_inverse_pairs n :
  computes (draw (random_inverse_pairs n)) (fun ps =>
    reveal <$> (fst <$> ps) = b_value <$> seq 0 n /\ reveal <$> (snd <$> ps) = b_inverse <$> seq 0 n).
Proof.
  apply computes_draw. intros f. pose proof (inverse_pairs_law n f) as H.
  pose proof (f_equal (fmap fst) H) as H1. pose proof (f_equal (fmap snd) H) as H2.
  rewrite <- !list_fmap_compose in *. done.
Qed.

Lemma computes_batch_mul c la lb :
  length la = length lb ->
  computes (map_err c (sc_batch_mul la lb)) (fun r => reveal <$> r = zip_with Zmod.mul (reveal <$> la) (reveal <$> lb)).
Proof. intros Hl. apply computes_map_err. intros f. by apply batch_mul_lengths. Qed.

Lemma computes_partial_products acc ds :
  computes (partial_products acc ds) (fun r =>
    reveal <$> r = (fun i => reveal acc * prod (take (S i) (reveal <$> ds))) <$> seq 0 (length ds)).
Proof.
  revert acc. induction ds as [|d ds IH]; intros acc; cbn [partial_products]; [by apply computes_ret|].
  eapply computes_call; [apply computes_mul|]. intros x [Hx _].
  eapply computes_call; [apply IH|]. intros r Hr. cbn beta in Hr. apply computes_ret.
  cbn [fmap list_fmap length seq]. fold (fmap (M := list) reveal). rewrite Hr, Hx. f_equal.
  - cbn. change (reveal acc * reveal d = reveal acc * (reveal d * 1)). ring.
  - rewrite <- seq_shift, <- list_fmap_compose. apply list_fmap_ext. intros i y _. unfold compose.
    change (reveal acc * reveal d * prod (take (S y) (reveal <$> ds)) =
      reveal acc * (reveal d * prod (take (S y) (reveal <$> ds)))). ring.
Qed.

Lemma computes_select l pre :
  Forall (fun i => i < length l)%nat pre ->
  computes (select_indices l pre) (fun r => reveal <$> r = (fun i => nth i (reveal <$> l) 0) <$> pre).
Proof.
  induction pre as [|i pre IH]; intros Hp; cbn [select_indices]; [by apply computes_ret|].
  apply Forall_cons in Hp as [Hi Hp]. destruct (lookup_lt_is_Some_2 l i Hi) as [x Hx].
  apply computes_seq, (computes_index _ _ x); [done|].
  eapply computes_call; [by apply IH|]. intros r Hr. apply computes_ret. cbn beta in Hr. cbn. rewrite Hr. f_equal.
  symmetry. apply nth_lookup_Some. by rewrite list_lookup_fmap, Hx.
Qed.

Lemma nth_fmap_seq (h : nat -> Scalar) i n d : (i < n)%nat -> nth i (h <$> seq 0 n) d = h i.
Proof. intros Hi. apply nth_lookup_Some. rewrite list_lookup_fmap, lookup_seq_lt by done. done. Qed.

(** What the code gives for a prefix: the factor for the next pair is missing. *)
Definition prefix_value (a : list Scalar) (l : nat) : Scalar :=
  prod (take (S l) a) * (b_value l * b_inverse (S l)).

(** The opened values *)
Lemma computes_open_telescope a :
  computes (open_telescope a) (fun r => let '(b, b', d) := r in
    reveal <$> b = b_value <$> seq 0 (length a + 1) /\
    reveal <$> b' = b_inverse <$> seq 0 (length a + 1) /\
    reveal <$> d = telescope 0 (reveal <$> a)).
Proof.
  unfold open_telescope. set (n := length a).
  eapply computes_call; [apply computes_inverse_pairs|]. intros ps [Hb Hi].
  pose proof (f_equal length Hb) as Hlb. pose proof (f_equal length Hi) as Hli. rewrite !length_fmap, length_seq in Hlb, Hli.
  eapply computes_call; [apply computes_batch_mul; rewrite length_take, length_fmap; lia|]. intros dp Hdp. cbn beta in Hdp.
  pose proof (f_equal length Hdp) as Hldp. rewrite length_zip_with, !length_fmap, length_take, length_fmap in Hldp.
  eapply computes_call; [apply computes_batch_mul; rewrite length_drop, length_fmap; lia|]. intros d Hd. cbn beta in Hd.
  eapply computes_call; [apply computes_map_err; intros f; exact (batch_open_law d f)|].
  intros o [Ho _]. apply computes_ret. split_and!; [done..|]. rewrite Ho, Hd, Hdp, <- telescope_zip.
  rewrite fmap_take, fmap_drop, Hb, Hi, <- fmap_take, <- fmap_drop, take_seq, drop_seq, length_fmap.
  f_equal; [do 3 f_equal|do 2 f_equal]; lia.
Qed.

Lemma cancel_prefixes a n pre :
  n = length a -> Forall (fun i => i < n)%nat pre ->
  zip_with Zmod.mul
    ((fun i => nth i ((fun i => scalar 1 * prod (take (S i) (telescope 0 a))) <$> seq 0 n) 0) <$> pre)
    (zip_with Zmod.mul (replicate (length pre) (b_inverse 0)) ((fun i => nth i (b_value <$> seq 0 (n + 1)) 0) <$> pre)) =
  prefix_value a <$> pre.
Proof.
  intros -> Hpre. induction pre as [|i pre IH]; [done|]. apply Forall_cons in Hpre as [Hi Hpre].
  cbn [fmap list_fmap length replicate zip_with]. f_equal; [|by apply IH].
  rewrite !nth_fmap_seq, telescope_prod by lia. unfold prefix_value. cbn [Nat.add].
  transitivity (prod (take (S i) a) * (b_value i * b_inverse (S i)) * (b_value 0 * b_inverse 0)); [ring|].
  rewrite b_cancel. ring.
Qed.

Lemma computes_prefix_product a pre :
  Forall (fun i => i < length a)%nat pre ->
  computes (prefix_product_impl a pre) (fun r => reveal <$> r = prefix_value (reveal <$> a) <$> pre).
Proof.
  intros Hpre. unfold prefix_product_impl. set (n := length a) in *.
  apply computes_seq, computes_assert.
  { apply forallb_forall. intros x Hx. rewrite Forall_forall in Hpre. apply Nat.ltb_lt, Hpre, list_elem_of_In, Hx. }
  eapply computes_call; [apply computes_open_telescope|]. intros [[b b'] d] (Hb & Hi & Hd). fold n in Hb, Hi.
  assert (Hlb : length b = (n + 1)%nat) by (apply (f_equal length) in Hb; by rewrite !length_fmap, length_seq in Hb).
  assert (Hld : length d = n).
  { apply (f_equal length) in Hd. by rewrite length_telescope, !length_fmap in Hd. }
  eapply computes_call; [apply computes_partial_products|]. intros pp Hpp. cbn beta in Hpp. rewrite Hld in Hpp.
  assert (Hlp : length pp = n) by (apply (f_equal length) in Hpp; by rewrite !length_fmap, length_seq in Hpp).
  rewrite Nat.add_1_r in Hi. destruct b' as [|i0 b']; [done|]. injection Hi as Hi0 Hi.
  apply computes_seq, (computes_index _ _ i0); [done|].
  eapply computes_call; [apply computes_select; eapply Forall_impl; [exact Hpre|]; cbn beta; lia|].
  intros sb Hsb. cbn beta in Hsb. pose proof (f_equal length Hsb) as Hlsb. rewrite !length_fmap in Hlsb.
  eapply computes_call; [apply computes_batch_mul; by rewrite length_replicate|]. intros cf Hcf. cbn beta in Hcf.
  eapply computes_call; [apply computes_select; by rewrite Hlp|]. intros sp Hsp. cbn beta in Hsp.
  apply computes_unwrap. intros f. pose proof (f_equal length Hsp) as Hlsp. pose proof (f_equal length Hcf) as Hlcf.
  rewrite length_zip_with, !length_fmap, length_replicate in Hlcf. rewrite !length_fmap in Hlsp.
  pose proof (batch_mul_lengths sp cf f ltac:(lia)) as H. destruct (sc_batch_mul sp cf f) as [[r| |] ?]; cbn in *; try done.
  rewrite H, Hsp, Hcf, Hsb, Hpp, Hb, Hd, fmap_replicate, Hi0, <- (cancel_prefixes (reveal <$> a) n)
    by (done || by rewrite length_fmap).
  unfold allocate_public_u64. by setoid_rewrite reveal_public.
Qed.

Lemma computes_product a :
  a <> [] ->
  computes (product a) (fun r =>
    reveal r = prod (reveal <$> a) * (b_value (length a - 1) * b_inverse (length a))).
Proof.
  intros Ha. unfold product. destruct a as [|x a]; [done|]. cbn [length].
  eapply computes_call; [apply (computes_prefix_product (x :: a) [length a]); repeat constructor|].
  intros r Hr. cbn beta in Hr. destruct r as [|y [|]]; try discriminate Hr. injection Hr as Hr.
  apply (computes_index _ _ y); [done|]. rewrite Hr. unfold prefix_value.
  rewrite firstn_all2 by (cbn; rewrite length_fmap; lia). by replace (S (length a) - 1)%nat with (length a) by lia.
Qed.

(** * Disjunction *)

Definition count (bs : list bool) : nat := length (filter (eq true) bs).

Lemma count_bound bs : (count bs <= length bs)%nat.
Proof. apply length_filter. Qed.

Lemma count_cons b bs : count (b :: bs) = ((if b then 1 else 0) + count bs)%nat.
Proof. unfold count. rewrite filter_cons. by destruct b. Qed.

Lemma count_zero bs : count bs = 0%nat <-> bools_value bs = 0%Z.
Proof.
  induction bs as [|b bs IH]; [done|]. rewrite count_cons. cbn [bools_value foldr]. fold (bools_value bs).
  pose proof (bools_value_range bs). destruct b; cbn [Z.b2z]; lia.
Qed.

Lemma sum_shares l bs : shares l bs -> reveal (sc_sum l) = scalar (Z.of_nat (count bs)).
Proof.
  intros H. rewrite reveal_sum, H. clear. induction bs as [|b bs IH]; [done|]. cbn [fmap list_fmap foldr].
  fold (fmap (M := list) bit_scalar). rewrite IH, count_cons, Nat2Z.inj_add, Zmod.of_Z_add, bit_scalar_Z. by destruct b.
Qed.

Lemma prod_zero l : 0 ∈ l -> prod l = 0.
Proof.
  induction l as [|x l IH]; [by intros ?%not_elem_of_nil|]. intros [<-|H]%elem_of_cons; cbn; fold (prod l).
  - ring.
  - rewrite IH by done. ring.
Qed.

Lemma prod_ones l : Forall (fun x => x = 1) l -> prod l = 1.
Proof. induction 1 as [|x l Hx H IH]; [done|]. cbn. fold (prod l). rewrite Hx, IH. ring. Qed.

Lemma small_invertible x : (0 < x < 2 ^ 64)%Z -> Zmod.inv (scalar x) * scalar x = 1.
Proof.
  intros Hx. rewrite Zmod.mul_comm. apply scalar_inv_r. intros H. apply (f_equal Zmod.to_Z) in H.
  assert (2 ^ 64 < ristretto_order)%Z by done. rewrite to_Z_small in H by lia. change (x = 0%Z) in H. lia.
Qed.

(** The polynomial of [constant_round_or_impl] *)
Lemma monomials_product (t n : nat) :
  (t <= n)%nat -> (Z.of_nat n < 2 ^ 64)%Z ->
  prod ((fun x => Zmod.inv (scalar (Z.of_nat x)) * (scalar (Z.of_nat x) - scalar (Z.of_nat t))) <$> seq 1 n) =
  bit_scalar (bool_decide (t = 0%nat)).
Proof.
  intros Ht Hn. case_bool_decide as H0.
  - subst t. apply prod_ones, Forall_fmap, Forall_forall. intros x [Hx1 Hx2]%elem_of_seq. unfold compose.
    replace (scalar (Z.of_nat x) - scalar (Z.of_nat 0)) with (scalar (Z.of_nat x)) by ring. apply small_invertible. lia.
  - apply prod_zero, list_elem_of_fmap. exists t. split; [ring|]. apply elem_of_seq. lia.
Qed.

Section pairs.
  Hypothesis pairs_cancel : forall i, b_value i * b_inverse (S i) = 1.

Lemma computes_constant_round_or l bs :
  shares l bs -> bs <> [] -> (Z.of_nat (length bs) < 2 ^ 64)%Z ->
  computes (constant_round_or_impl l) (fun r => reveal r = bit_scalar (negb (bools_value bs =? 0)%Z)).
Proof.
  intros Hs Hne Hn. unfold constant_round_or_impl.
  set (ms := fmap _ (seq 1 (length l))).
  assert (Hlen : length ms = length bs) by (unfold ms; by rewrite length_fmap, length_seq, (shares_length l bs)).
  assert (Hms : reveal <$> ms = (fun x => Zmod.inv (scalar (Z.of_nat x)) *
    (scalar (Z.of_nat x) - scalar (Z.of_nat (count bs)))) <$> seq 1 (length bs)).
  { unfold ms. rewrite <- list_fmap_compose, (shares_length l bs) by done. apply list_fmap_ext. intros i x _.
    unfold compose. by rewrite reveal_scale, reveal_public_sub, (sum_shares l bs). }
  eapply (computes_call _ (fun r => reveal r = bit_scalar (bool_decide (count bs = 0%nat)))).
  - assert (ms <> []) as Hms0 by (intros H; rewrite H in Hlen; by destruct bs).
    pose proof (computes_product ms Hms0) as Hp. intros f. specialize (Hp f). unfold remap.
    destruct (product ms f) as [[r| |] ?]; cbn in *; try done. rewrite Hp, Hms, monomials_product;
      [|apply count_bound|done]. destruct (length ms) as [|m] eqn:Hm; [by destruct ms|].
    cbn [Nat.sub]. rewrite Nat.sub_0_r, pairs_cancel. ring.
  - intros p Hp. apply computes_ret. rewrite reveal_public_sub, Hp.
    case_bool_decide as H0; destruct (Z.eqb_spec (bools_value bs) 0) as [H1|H1]; rewrite ?count_zero in H0; try done;
      by apply Zmod.to_Z_inj.
Qed.

Lemma computes_xor_bits ps l bs :
  shares l bs -> computes (xor_bits (bit_scalar <$> ps) l) (fun r => shares r (zip_with xorb ps bs)).
Proof.
  revert l bs. induction ps as [|p ps IH]; intros l bs Hs; cbn [fmap list_fmap xor_bits zip_with];
    [by apply computes_ret|].
  destruct l as [|x l], bs as [|b bs]; try done. injection Hs as Hx Hs.
  eapply computes_call; [apply (computes_xor _ _ p b); [apply reveal_public|done]|]. intros y Hy. cbn beta in Hy.
  eapply computes_call; [by apply IH|]. intros r Hr. apply computes_ret. unfold shares in *. cbn. by rewrite Hy, Hr.
Qed.

Lemma xor_zero l l' : length l = length l' -> bools_value (zip_with xorb l l') = 0%Z <-> l = l'.
Proof.
  revert l'. induction l as [|b l IH]; intros [|b' l'] Hl; try done. injection Hl as Hl.
  cbn [zip_with bools_value foldr]. fold (bools_value (zip_with xorb l l')).
  pose proof (bools_value_range (zip_with xorb l l')). specialize (IH l' Hl). split.
  - intros H0. f_equal; [destruct b, b'; cbn in *; done || lia|]. apply IH. destruct b, b'; cbn in *; lia.
  - intros [= -> Hl']. apply IH in Hl'. destruct b'; cbn in *; lia.
Qed.

Lemma zip_xor_take l l' : zip_with xorb l l' = zip_with xorb (take (length l') l) l'.
Proof. revert l. induction l' as [|b l' IH]; intros [|x l]; cbn; f_equal; auto. Qed.

(** What is opened by [kary_or] *)
Definition opened_or (n : nat) (sum : Scalar) : Scalar :=
  sum + scalar (bools_value (blinder n)) + scalar (2 ^ Z.of_nat n) * src_value src.

Lemma count_bits_range n : (0 < n <= 256)%nat -> (0 < count_bits n <= 9)%nat /\ (Z.of_nat n < 2 ^ Z.of_nat (count_bits n))%Z.
Proof.
  intros Hn. unfold count_bits. pose proof (Z.log2_up_spec (Z.of_nat (n + 1)) ltac:(lia)) as [_ H].
  pose proof (Z.log2_up_nonneg (Z.of_nat (n + 1))).
  pose proof (Z.log2_up_le_mono (Z.of_nat (n + 1)) (2 ^ 9) ltac:(lia)) as Hle. rewrite Z.log2_up_pow2 in Hle by lia.
  pose proof (Z.log2_up_pos (Z.of_nat (n + 1)) ltac:(lia)). rewrite Z2Nat.id by done. lia.
Qed.

Lemma computes_kary_or l bs :
  shares l bs -> (0 < length bs <= 256)%nat ->
  let n := count_bits (length bs) in
  computes (kary_or l) (fun r => reveal r = bit_scalar (negb
    (Zmod.to_Z (opened_or n (scalar (Z.of_nat (count bs)))) mod 2 ^ Z.of_nat n =? bools_value (blinder n))%Z)).
Proof.
  intros Hs Hlen n. unfold kary_or. rewrite (shares_length l bs) by done. fold n.
  destruct (count_bits_range (length bs) Hlen) as [Hn _]. fold n in Hn.
  assert (Hb0 : blinder n <> []) by (intros H; apply (f_equal length) in H; rewrite length_blinder in H; cbn in H; lia).
  eapply computes_call; [apply computes_random_bits|]. intros bits Hbits. cbn beta in Hbits.
  eapply computes_call; [by apply (computes_from_shares bits (blinder n))|]. intros r Hr. cbn beta in Hr.
  eapply computes_call; [apply computes_random_scalar|]. intros u Hu. cbn beta in Hu.
  eapply computes_call; [apply computes_open_and_authenticate|]. intros v Hv. cbn beta in Hv.
  rewrite !reveal_add, reveal_scale, Hr, Hu, (sum_shares l bs), Z.shiftl_1_l in Hv by done.
  fold (opened_or n (scalar (Z.of_nat (count bs)))) in Hv. rewrite Hv, scalar_bits_bools.
  set (o := Zmod.to_Z _). eapply computes_call; [by apply computes_xor_bits|]. intros x Hx. cbn beta in Hx.
  assert (Hz : zip_with xorb (testbits 256 o) (blinder n) = zip_with xorb (testbits n o) (blinder n)).
  { rewrite <- (testbits_take n 256), zip_xor_take, length_blinder by lia. done. }
  rewrite Hz in Hx. eapply computes_mono; [apply (computes_constant_round_or _ _ Hx)|].
  - intros H. apply (f_equal length) in H. rewrite length_zip_with, length_testbits, length_blinder in H. cbn in H. lia.
  - rewrite length_zip_with, length_testbits, length_blinder. lia.
  - cbn beta. intros y ->. f_equal. f_equal. rewrite <- (bools_value_testbits n o). apply eq_true_iff_eq. rewrite !Z.eqb_eq.
    rewrite xor_zero by (by rewrite length_testbits, length_blinder). split; [by intros ->|].
    apply bools_value_inj. by rewrite length_testbits, length_blinder.
Qed.
End pairs.
End gadgets.
