(* ===== verification/MpcComparisons.v ===== *)
(** The comparisons of the two-party computation with the shared values of the repository, those of
    [PartyIDBeaverSource]: every shared bit is one, the shared value and the inverse pairs are one. *)

From Stdlib Require Import Zmod.
From stdpp Require Import strings.
From S2P Require Import Prelude Primality Field Mpc MpcGadgets MpcProperties.

#[local] Open Scope Zmod_scope.
#[local] Open Scope mpc_scope.

#[local] Existing Instance party_id_source.

Section comparisons.
  Context {M : MpcFabric} {L : MpcLaws M party_id_source}.

Lemma party_blinder n : bools_value (blinder n) = (2 ^ Z.of_nat n - 1)%Z.
Proof.
  unfold blinder. generalize 0%nat. induction n as [|n IH]; intros i; [done|].
  change (bools_value (src_bit party_id_source <$> seq i (S n)))
    with (Z.b2z (src_bit party_id_source i) + 2 * bools_value (src_bit party_id_source <$> seq (S i) n))%Z.
  rewrite IH, party_id_bit, Nat2Z.inj_succ, Z.pow_succ_r by lia. cbn [Z.b2z]. lia.
Qed.

Lemma party_pairs i : b_value i * b_inverse (S i) = 1.
Proof. unfold b_value, b_inverse. rewrite !party_id_pair. by apply Zmod.to_Z_inj. Qed.

Lemma pow2_below n : (n <= 252)%nat -> (0 < 2 ^ Z.of_nat n < ristretto_order)%Z.
Proof.
  intros Hn. split; [lia|]. apply Z.le_lt_trans with (2 ^ 252)%Z; [apply Z.pow_le_mono_r; lia|done].
Qed.

(** [to_bits_le] *)
Lemma party_decomposed D x :
  (0 < D < 252)%nat ->
  decomposed D x = if decide (x = - (1)) then (2 ^ Z.of_nat D - 1)%Z else (Zmod.to_Z x mod 2 ^ Z.of_nat D)%Z.
Proof.
  intros HD. unfold decomposed. rewrite party_blinder.
  assert (opened_bits D x = x + 1) as ->.
  { unfold opened_bits. rewrite party_blinder, party_id_value, Nat.add_1_r, Nat2Z.inj_succ, Z.pow_succ_r by lia.
    rewrite Zmod.of_Z_sub, Zmod.of_Z_mul. ring. }
  pose proof (scalar_range x) as Hx. pose proof (pow2_below D ltac:(lia)). case_decide as Hd.
  - subst x. replace (- (1) + 1 : Scalar) with (0 : Scalar) by ring. change (Zmod.to_Z (0 : Scalar)) with 0%Z.
    rewrite Z.add_0_l. apply Z.mod_small. lia.
  - assert (Zmod.to_Z x <> ristretto_order - 1)%Z as Hne.
    { intros H1. apply Hd. rewrite <- (Zmod.of_Z_to_Z x), H1. by apply Zmod.to_Z_inj. }
    rewrite Zmod.to_Z_add. change (Zmod.to_Z (1 : Scalar)) with 1%Z. rewrite (Z.mod_small (_ + 1)) by lia.
    replace (Zmod.to_Z x + 1 + (2 ^ Z.of_nat D - 1))%Z with (Zmod.to_Z x + 1 * 2 ^ Z.of_nat D)%Z by lia.
    apply Z.mod_add. lia.
Qed.

(** [kary_or] *)
Lemma party_or l bs :
  shares l bs -> (0 < length bs <= 256)%nat ->
  computes (kary_or l) (fun r => reveal r = bit_scalar (negb (bools_value bs =? 0)%Z)).
Proof.
  intros Hs Hlen. eapply computes_mono; [apply (computes_kary_or party_pairs l bs Hs Hlen)|].
  cbn beta. intros r ->. destruct (count_bits_range _ Hlen) as [Hn Hc]. set (n := count_bits (length bs)) in *.
  pose proof (count_bound bs). pose proof (pow2_below n ltac:(lia)). rewrite party_blinder. f_equal. f_equal.
  assert (opened_or n (scalar (Z.of_nat (count bs))) = scalar (Z.of_nat (count bs) + 2 * 2 ^ Z.of_nat n - 1)) as ->.
  { unfold opened_or. rewrite party_blinder, party_id_value, !Zmod.of_Z_sub, Zmod.of_Z_add, Zmod.of_Z_mul. ring. }
  pose proof (pow2_below (S (S n)) ltac:(lia)) as Hs2. rewrite !Nat2Z.inj_succ, !Z.pow_succ_r in Hs2 by lia.
  rewrite to_Z_small by lia. apply eq_true_iff_eq. rewrite !Z.eqb_eq, <- count_zero.
  replace (Z.of_nat (count bs) + 2 * 2 ^ Z.of_nat n - 1)%Z with ((Z.of_nat (count bs) - 1) + 2 * 2 ^ Z.of_nat n)%Z by lia.
  rewrite Z.mod_add by lia. destruct (count bs) as [|k] eqn:Hk.
  - split; [done|]. intros _. replace (Z.of_nat 0 - 1)%Z with (2 ^ Z.of_nat n - 1 + (-1) * 2 ^ Z.of_nat n)%Z by lia.
    rewrite Z.mod_add by lia. apply Z.mod_small. lia.
  - split; [|done]. rewrite Z.mod_small by lia. lia.
Qed.

(** Whether the low bits of a value are zero, as [eq_zero] decides it *)
Definition low_zero (D : nat) (x : Scalar) : bool :=
  bool_decide (x <> - (1)) && (Zmod.to_Z x mod 2 ^ Z.of_nat D =? 0)%Z.

Lemma party_eq_zero D x :
  (0 < D < 252)%nat -> is_public x = false ->
  computes (eq_zero D x) (fun r => reveal r = bit_scalar (low_zero D (reveal x))).
Proof.
  intros HD Hx. unfold eq_zero. eapply computes_call; [by apply computes_to_bits|]. intros bits Hb. cbn beta in Hb.
  eapply computes_call; [apply (party_or _ _ Hb); rewrite length_testbits; lia|]. intros o Ho. cbn beta in Ho.
  apply computes_ret. rewrite reveal_public_sub, Ho, bools_value_testbits, party_decomposed by done.
  pose proof (pow2_below D ltac:(lia)). unfold low_zero. case_decide as Hd.
  - rewrite bool_decide_eq_false_2 by auto. rewrite Z.mod_small by lia.
    assert (2 ^ 1 <= 2 ^ Z.of_nat D)%Z by (apply Z.pow_le_mono_r; lia).
    destruct (Z.eqb_spec (2 ^ Z.of_nat D - 1) 0); [lia|]. by apply Zmod.to_Z_inj.
  - rewrite bool_decide_eq_true_2 by done. rewrite Z.mod_mod by lia. cbn [andb].
    destruct (Zmod.to_Z (reveal x) mod 2 ^ Z.of_nat D =? 0)%Z; by apply Zmod.to_Z_inj.
Qed.

Lemma party_eq D a b :
  (0 < D < 252)%nat -> is_public a && is_public b = false ->
  computes (mpc_eq D a b) (fun r => reveal r = bit_scalar (low_zero D (reveal a - reveal b))).
Proof.
  intros HD Hp. unfold mpc_eq. rewrite <- reveal_sub. apply party_eq_zero; [done|]. by rewrite public_subtract.
Qed.

Lemma one_minus_bit b : scalar 1 - bit_scalar b = bit_scalar (negb b).
Proof. destruct b; by apply Zmod.to_Z_inj. Qed.

Lemma party_ne D a b :
  (0 < D < 252)%nat -> is_public a && is_public b = false ->
  computes (mpc_ne D a b) (fun r => reveal r = bit_scalar (negb (low_zero D (reveal a - reveal b)))).
Proof.
  intros HD Hp. unfold mpc_ne. eapply computes_call; [by apply party_eq|]. intros r Hr. apply computes_ret.
  cbn beta in Hr. by rewrite reveal_public_sub, Hr, one_minus_bit.
Qed.

(** [mod_2m], on what does not wrap around, and on negative numbers for the width of the comparisons *)
Lemma party_residue m z :
  (0 < m <= 250)%nat -> (0 <= z < 2 ^ 250)%Z -> residue m (scalar z) = (z mod 2 ^ Z.of_nat m)%Z.
Proof.
  intros Hm Hz. unfold residue. rewrite party_blinder. pose proof (pow2_below m ltac:(lia)).
  assert (2 ^ Z.of_nat m <= 2 ^ 250)%Z by (apply Z.pow_le_mono_r; lia).
  assert (opened_mod m (scalar z) = scalar (z + 2 * 2 ^ Z.of_nat m - 1)) as ->.
  { unfold opened_mod. rewrite party_blinder, party_id_value, !Zmod.of_Z_sub, !Zmod.of_Z_add, Zmod.of_Z_mul. ring. }
  assert (2 ^ 250 + 2 * 2 ^ 250 < ristretto_order)%Z by done. rewrite to_Z_small by lia.
  replace (z + 2 * 2 ^ Z.of_nat m - 1 - (2 ^ Z.of_nat m - 1))%Z with (z + 1 * 2 ^ Z.of_nat m)%Z by lia.
  apply Z.mod_add. lia.
Qed.

Lemma party_residue_negative z :
  (- 2 ^ 250 <= z < 0)%Z -> residue 250 (scalar z) = (z + 2 ^ 250)%Z.
Proof.
  intros Hz. unfold residue. rewrite party_blinder. change (Z.of_nat 250) with 250%Z.
  assert (opened_mod 250 (scalar z) = scalar (z + 2 * 2 ^ 250 - 1)) as ->.
  { unfold opened_mod. rewrite party_blinder, party_id_value. change (Z.of_nat 250) with 250%Z.
    rewrite !Zmod.of_Z_sub, !Zmod.of_Z_add, Zmod.of_Z_mul. ring. }
  assert (2 * 2 ^ 250 < ristretto_order)%Z by done. rewrite to_Z_small by lia.
  replace (z + 2 * 2 ^ 250 - 1 - (2 ^ 250 - 1))%Z with (z + 2 ^ 250)%Z by lia. apply Z.mod_small. lia.
Qed.

Lemma pow2_inv n : (n <= 252)%nat -> Zmod.inv (scalar (2 ^ Z.of_nat n)) * scalar (2 ^ Z.of_nat n) = 1.
Proof. intros Hn. rewrite Zmod.mul_comm. apply scalar_inv_r, scalar_pow2_neq_zero. unfold SCALAR_MAX_BITS. lia. Qed.

(** [shift_right] of a number that does not wrap around *)
Lemma party_shift_right m a z :
  (0 < m <= 250)%nat -> reveal a = scalar z -> (0 <= z < 2 ^ 250)%Z ->
  computes (shift_right m a) (fun r => reveal r = scalar (z / 2 ^ Z.of_nat m)).
Proof.
  intros Hm Ha Hz. unfold shift_right. destruct (Nat.leb_spec 256 m); [lia|].
  eapply computes_mono; [apply computes_truncate; lia|]. cbn beta. intros r [-> _].
  rewrite Ha, party_residue, <- Zmod.of_Z_sub by done.
  replace (z - z mod 2 ^ Z.of_nat m)%Z with (2 ^ Z.of_nat m * (z / 2 ^ Z.of_nat m))%Z
    by (pose proof (Z.div_mod z (2 ^ Z.of_nat m) ltac:(lia)); lia).
  rewrite Zmod.of_Z_mul, Zmod.mul_assoc, pow2_inv by lia. ring.
Qed.

Lemma party_truncate_sign a z :
  reveal a = scalar z -> (- 2 ^ 250 <= z < 2 ^ 250)%Z -> is_public a = false ->
  computes (truncate 250 a) (fun r => reveal r = (if (z <? 0)%Z then - (1) else 0) /\ is_public r = false).
Proof.
  intros Ha Hz Hp. eapply computes_mono; [apply computes_truncate; lia|]. cbn beta. intros r [-> Hr].
  split; [|by apply Hr]. rewrite Ha. destruct (Z.ltb_spec z 0).
  - rewrite party_residue_negative by lia. rewrite Zmod.of_Z_add. change (2 ^ 250)%Z with (2 ^ Z.of_nat 250)%Z.
    transitivity (- (Zmod.inv (scalar (2 ^ Z.of_nat 250)) * scalar (2 ^ Z.of_nat 250)) : Scalar); [ring|].
    by rewrite pow2_inv by lia.
  - rewrite party_residue by lia. rewrite Z.mod_small by (change (Z.of_nat 250) with 250%Z; lia). ring.
Qed.

(** [less_than_zero] *)
Lemma party_less_than_zero a z :
  reveal a = scalar z -> (- 2 ^ 250 <= z < 2 ^ 250)%Z -> is_public a = false ->
  computes (less_than_zero a) (fun r => reveal r = bit_scalar (z <? 0)%Z).
Proof.
  intros Ha Hz Hp. unfold less_than_zero. eapply computes_call; [by apply party_truncate_sign|]. intros t [Ht Hpt].
  eapply computes_mono; [apply party_ne; [lia|by rewrite Hpt]|]. cbn beta. intros r ->. rewrite Ht, reveal_zero. f_equal.
  destruct (z <? 0)%Z; unfold low_zero.
  - replace (- (1) - 0 : Scalar) with (- (1) : Scalar) by ring. by rewrite bool_decide_eq_false_2 by auto.
  - replace (0 - 0 : Scalar) with (0 : Scalar) by ring. rewrite bool_decide_eq_true_2; [done|].
    intros H. apply (f_equal Zmod.to_Z) in H. vm_compute in H. discriminate H.
Qed.

Section ordered.
  Context (a b : AuthenticatedScalar) (x y : Z).
  Hypotheses (Ha : reveal a = scalar x) (Hb : reveal b = scalar y).
  Hypotheses (Hx : (0 <= x < 2 ^ 250)%Z) (Hy : (0 <= y < 2 ^ 250)%Z).
  Hypotheses (Hpa : is_public a = false) (Hpb : is_public b = false).

Lemma party_less_than : computes (less_than a b) (fun r => reveal r = bit_scalar (x <? y)%Z).
Proof.
  eapply computes_mono; [apply (party_less_than_zero _ (x - y))|].
  - by rewrite reveal_sub, Ha, Hb, Zmod.of_Z_sub.
  - lia.
  - by rewrite public_subtract, Hpa.
  - cbn beta. intros r ->. f_equal. destruct (Z.ltb_spec (x - y) 0), (Z.ltb_spec x y); done || lia.
Qed.

Lemma party_less_than_equal : computes (less_than_equal a b) (fun r => reveal r = bit_scalar (x <=? y)%Z).
Proof.
  unfold less_than_equal, greater_than. eapply computes_call; [apply (party_less_than_zero _ (y - x))|].
  - by rewrite reveal_sub, Ha, Hb, Zmod.of_Z_sub.
  - lia.
  - by rewrite public_subtract, Hpb.
  - cbn beta. intros r Hr. apply computes_ret. rewrite reveal_public_sub, Hr, one_minus_bit. f_equal.
    destruct (Z.ltb_spec (y - x) 0), (Z.leb_spec x y); done || lia.
Qed.

Lemma party_min :
  computes (mpc_min a b) (fun r =>
    reveal r.1 = bit_scalar (negb (x <? y)%Z) /\ reveal r.2 = scalar (Z.min x y)).
Proof.
  unfold mpc_min. eapply computes_call; [apply party_less_than|]. intros lt Hlt. cbn beta in Hlt.
  eapply computes_call; [apply computes_mul|]. intros u [Hu _].
  eapply computes_call; [apply computes_mul|]. intros v [Hv _]. apply computes_ret. cbn [fst snd].
  rewrite reveal_public_sub, reveal_add, Hu, Hv, reveal_public_sub, Hlt, one_minus_bit, Ha, Hb.
  split; [done|]. destruct (Z.ltb_spec x y); cbn [negb bit_scalar].
  - rewrite Z.min_l by lia. ring.
  - rewrite Z.min_r by lia. ring.
Qed.
End ordered.

(** [cond_select_vec] *)
Lemma computes_cond_select_vec s a b c :
  reveal s = bit_scalar c -> length a = length b ->
  computes (cond_select_vec s a b) (fun r => reveal <$> r = if c then reveal <$> a else reveal <$> b).
Proof.
  intros Hs Hl. unfold cond_select_vec. apply computes_seq, computes_assert; [by apply Nat.eqb_eq|].
  eapply computes_call; [apply computes_batch_mul; rewrite !length_app, !length_replicate; lia|].
  intros r Hr. cbn beta in Hr. apply computes_ret.
  rewrite !fmap_app, !fmap_replicate, reveal_public_sub, Hs, zip_with_app in Hr by (by rewrite length_fmap, length_replicate).
  assert (Hlen : length (zip_with Zmod.mul (reveal <$> a) (replicate (length a) (bit_scalar c))) = length a)
    by (rewrite length_zip_with, length_fmap, length_replicate; lia).
  assert (Hf : reveal <$> zip_with sc_add (take (length a) r) (drop (length a) r) =
    zip_with Zmod.add (take (length a) (reveal <$> r)) (drop (length a) (reveal <$> r))).
  { rewrite <- fmap_take, <- fmap_drop. clear. generalize (drop (length a) r) as t. generalize (take (length a) r) as u.
    induction u as [|x u IH]; intros [|y t]; cbn; [done..|]. by rewrite IH, reveal_add. }
  rewrite Hf, Hr, take_app_length', drop_app_length' by done. clear -Hl.
  revert b Hl. induction a as [|x a IH]; intros [|y b] Hl; try discriminate Hl; [by destruct c|]. injection Hl as Hl.
  specialize (IH b Hl). cbn [fmap list_fmap length replicate zip_with]. destruct c; f_equal; try exact IH;
    change (bit_scalar true) with (1 : Scalar); change (bit_scalar false) with (0 : Scalar); ring.
Qed.
End comparisons.

(** * Examples *)

(** With a shared value of 200 bits the decomposition of five wraps around, and its bits are wrong. *)
Lemma large_blinder_wraps :
  (wraps (src := {| src_bit := fun _ => true; src_value := scalar (2 ^ 200); src_pair := fun _ => (scalar 1, scalar 1) |})
    64 (scalar 5) mod 2 ^ 64 <> 0)%Z.
Proof. intros H. vm_compute in H. discriminate H. Qed.

Definition sample_shared : @AuthenticatedScalar TwoParty.fabric := TwoParty.Shared (scalar 5) (scalar 7).

Lemma bit_decomposition_blinded_witness :
  exists r, (to_bits_le (M := TwoParty.fabric) 8 sample_shared tt).1 = Ret r /\
    TwoParty.value <$> r = bit_scalar <$> testbits 8 12.
Proof.
  pose proof (bit_decomposition_blinded (L := TwoParty.laws) 8 sample_shared tt ltac:(lia) eq_refl) as H.
  destruct (to_bits_le _ _ _) as [[r|e|] f]; [|destruct H; exact I|destruct H; exact I].
  exists r. split; [reflexivity|]. apply H. vm_compute. reflexivity.
Defined.
