(* ===== verification/MpcMatch.v ===== *)
(** The match as a two-party computation: circuits/src/mpc_circuits/match.rs, the shared types of
    circuits/src/{lib.rs,types/order.rs,types/match.rs,zk_gadgets/fixed_point.rs} that it uses, and
    [execute_match_mpc] of core/src/handshake/match.rs. *)

From Stdlib Require Import Zmod SpecFloat.
From stdpp Require Import strings pretty.
From S2P Require Import Prelude Primality Field ConstraintSystem ListR1CS FixedPoint Types MatchTypes.
From S2P Require Import Mpc MpcGadgets MpcProperties MpcComparisons.

#[local] Open Scope Zmod_scope.
#[local] Open Scope mpc_scope.

(** * Shared types *)

Module AuthenticatedFixedPoint.
Section operations.
  Context {M : MpcFabric}.

Record AuthenticatedFixedPoint := { repr : AuthenticatedScalar }.

Definition from_integer (val : Scalar) : AuthenticatedFixedPoint :=
  {| repr := allocate_public_scalar (val * TWO_TO_M_SCALAR) |}.

(** [from_public_f32] *)
Definition from_public_f32 (val : spec_float) : mpc AuthenticatedFixedPoint :=
  let shifted_val := FixedPoint.f32_mul val FixedPoint.TWO_TO_M_F32 in
  m_assert (FixedPoint.f32_is_integer shifted_val) ;;?
  m_ret {| repr := allocate_public_scalar (scalar (FixedPoint.f32_floor_as_u64 shifted_val)) |}.

Definition as_integer (self : AuthenticatedFixedPoint) : mpc AuthenticatedScalar :=
  shift_right DEFAULT_PRECISION (repr self).

(** The operators *)
Definition mul (self rhs : AuthenticatedFixedPoint) : mpc AuthenticatedFixedPoint :=
  let? res_repr := Mpc.mul (repr self) (repr rhs) in
  m_ret {| repr := sc_scale TWO_TO_NEG_M res_repr |}.
Definition mul_scalar (self : AuthenticatedFixedPoint) (rhs : AuthenticatedScalar) : mpc AuthenticatedFixedPoint :=
  let? r := Mpc.mul (repr self) rhs in m_ret {| repr := r |}.
Definition scalar_mul (self : AuthenticatedScalar) (rhs : AuthenticatedFixedPoint) : mpc AuthenticatedFixedPoint :=
  let? r := Mpc.mul self (repr rhs) in m_ret {| repr := r |}.
Definition add (self rhs : AuthenticatedFixedPoint) : AuthenticatedFixedPoint :=
  {| repr := sc_add (repr self) (repr rhs) |}.
Definition add_scalar (self : AuthenticatedFixedPoint) (rhs : AuthenticatedScalar) : AuthenticatedFixedPoint :=
  {| repr := sc_add (repr self) (sc_scale TWO_TO_M_SCALAR rhs) |}.
Definition scalar_add (self : AuthenticatedScalar) (rhs : AuthenticatedFixedPoint) : AuthenticatedFixedPoint :=
  add_scalar rhs self.
Definition neg (self : AuthenticatedFixedPoint) : AuthenticatedFixedPoint :=
  {| repr := sc_scale (- (1)) (repr self) |}.
Definition sub (self rhs : AuthenticatedFixedPoint) : AuthenticatedFixedPoint := add self (neg rhs).
Definition sub_scalar (self : AuthenticatedFixedPoint) (rhs : AuthenticatedScalar) : AuthenticatedFixedPoint :=
  add_scalar self (sc_scale (- (1)) rhs).
Definition scalar_sub (self : AuthenticatedScalar) (rhs : AuthenticatedFixedPoint) : AuthenticatedFixedPoint :=
  scalar_add self (neg rhs).
End operations.
End AuthenticatedFixedPoint.

Section types.
  Context {M : MpcFabric}.

Record AuthenticatedOrder := {
  ao_quote_mint : AuthenticatedScalar;
  ao_base_mint : AuthenticatedScalar;
  ao_side : AuthenticatedScalar;
  ao_price : AuthenticatedFixedPoint.AuthenticatedFixedPoint;
  ao_amount : AuthenticatedScalar;
  ao_timestamp : AuthenticatedScalar;
}.

Record AuthenticatedMatchResult := {
  am_quote_mint : AuthenticatedScalar;
  am_base_mint : AuthenticatedScalar;
  am_quote_amount : AuthenticatedScalar;
  am_base_amount : AuthenticatedScalar;
  am_direction : AuthenticatedScalar;
  am_execution_price : AuthenticatedFixedPoint.AuthenticatedFixedPoint;
  am_max_minus_min_amount : AuthenticatedScalar;
  am_min_amount_order_index : AuthenticatedScalar;
}.

(** The scalars of an order, as [allocate] shares them *)
Definition order_scalars (o : Order) : list Scalar :=
  [biguint_to_scalar (order_quote_mint o); biguint_to_scalar (order_base_mint o); side_to_scalar (order_side o);
   FixedPoint.repr (order_price o); scalar (order_amount o); scalar (order_timestamp o)].

(** [impl Allocate for Order]; each party passes its own order. *)
Definition allocate_order (owning_party : nat) (orders : nat -> Order) : mpc AuthenticatedOrder :=
  let? shared_values :=
    map_err SharingError (sc_batch_allocate_private owning_party (fun p => order_scalars (orders p))) in
  let? quote_mint := m_index shared_values 0 in
  let? base_mint := m_index shared_values 1 in
  let? side := m_index shared_values 2 in
  let? price := m_index shared_values 3 in
  let? amount := m_index shared_values 4 in
  let? timestamp := m_index shared_values 5 in
  m_ret {| ao_quote_mint := quote_mint; ao_base_mint := base_mint; ao_side := side;
           ao_price := {| AuthenticatedFixedPoint.repr := price |}; ao_amount := amount; ao_timestamp := timestamp |}.

(** [impl From<AuthenticatedMatchResult> for Vec<AuthenticatedScalar>] *)
Definition match_to_vec (m : AuthenticatedMatchResult) : list AuthenticatedScalar :=
  [am_quote_mint m; am_base_mint m; am_quote_amount m; am_base_amount m; am_direction m;
   AuthenticatedFixedPoint.repr (am_execution_price m); am_max_minus_min_amount m; am_min_amount_order_index m].

(** [impl TryFrom<&\[AuthenticatedScalar\]> for AuthenticatedMatchResult], without the text of the error *)
Definition match_from_vec (values : list AuthenticatedScalar) : outcome MpcError AuthenticatedMatchResult :=
  match values with
  | [v0; v1; v2; v3; v4; v5; v6; v7] =>
      Ret {| am_quote_mint := v0; am_quote_amount := v1; am_base_mint := v2; am_base_amount := v3;
             am_direction := v4; am_execution_price := {| AuthenticatedFixedPoint.repr := v5 |};
             am_max_minus_min_amount := v6; am_min_amount_order_index := v7 |}
  | _ => Fail (SerializationError ("Expected 8 elements, got " +:+ pretty (length values)))
  end.

(** [AuthenticatedLinkableCommitment]: the blinder is the sum of those of both parties. *)
Record AuthenticatedLinkableCommitment := { al_val : AuthenticatedScalar; al_randomness : Scalar * Scalar }.

Record AuthenticatedLinkableMatchResultCommitment := {
  alm_quote_mint : AuthenticatedLinkableCommitment;
  alm_base_mint : AuthenticatedLinkableCommitment;
  alm_quote_amount : AuthenticatedLinkableCommitment;
  alm_base_amount : AuthenticatedLinkableCommitment;
  alm_direction : AuthenticatedLinkableCommitment;
  alm_execution_price : AuthenticatedLinkableCommitment;
  alm_max_minus_min_amount : AuthenticatedLinkableCommitment;
  alm_min_amount_order_index : AuthenticatedLinkableCommitment;
}.

(** [AuthenticatedLinkableCommitment::new], with the scalars of the random generators *)
Definition authenticated_linkable_new (randomness : Scalar * Scalar) (val : AuthenticatedScalar)
    : AuthenticatedLinkableCommitment := {| al_val := val; al_randomness := randomness |}.

(** [impl From<AuthenticatedMatchResult> for AuthenticatedLinkableMatchResultCommitment] *)
Definition authenticated_linkable_match (random : nat -> Scalar * Scalar) (m : AuthenticatedMatchResult)
    : AuthenticatedLinkableMatchResultCommitment := {|
  alm_quote_mint := authenticated_linkable_new (random 0%nat) (am_quote_mint m);
  alm_base_mint := authenticated_linkable_new (random 1%nat) (am_base_mint m);
  alm_quote_amount := authenticated_linkable_new (random 2%nat) (am_quote_amount m);
  alm_base_amount := authenticated_linkable_new (random 3%nat) (am_base_amount m);
  alm_direction := authenticated_linkable_new (random 4%nat) (am_direction m);
  alm_execution_price :=
    authenticated_linkable_new (random 5%nat) (AuthenticatedFixedPoint.repr (am_execution_price m));
  alm_max_minus_min_amount := authenticated_linkable_new (random 6%nat) (am_max_minus_min_amount m);
  alm_min_amount_order_index := authenticated_linkable_new (random 7%nat) (am_min_amount_order_index m) |}.

(** The fields in their order *)
Definition linkable_fields (m : AuthenticatedLinkableMatchResultCommitment) : list AuthenticatedLinkableCommitment :=
  [alm_quote_mint m; alm_base_mint m; alm_quote_amount m; alm_base_amount m; alm_direction m; alm_execution_price m;
   alm_max_minus_min_amount m; alm_min_amount_order_index m].

(** [open] and [open_and_authenticate] of [AuthenticatedLinkableMatchResultCommitment], by the opening they use *)
Definition open_linkable_with
    (batch_open : list AuthenticatedScalar -> Fabric -> outcome string (list AuthenticatedScalar) * Fabric)
    (self : AuthenticatedLinkableMatchResultCommitment) : mpc LinkableMatchResultCommitment :=
  let blinders_allocated := batch_allocate_preshared_scalar (al_randomness <$> linkable_fields self) in
  let? blinders_open := map_err SharingError (batch_open blinders_allocated) in
  let? values_open := map_err SharingError (batch_open (al_val <$> linkable_fields self)) in
  match to_scalar <$> blinders_open, to_scalar <$> values_open with
  | [b0; b1; b2; b3; b4; b5; b6; b7], [v0; v1; v2; v3; v4; v5; v6; v7] =>
      m_ret {| lm_quote_mint := {| lk_val := v0; lk_randomness := b0 |};
               lm_base_mint := {| lk_val := v1; lk_randomness := b1 |};
               lm_quote_amount := {| lk_val := v2; lk_randomness := b2 |};
               lm_base_amount := {| lk_val := v3; lk_randomness := b3 |};
               lm_direction := {| lk_val := v4; lk_randomness := b4 |};
               lm_execution_price := {| lf_repr := {| lk_val := v5; lk_randomness := b5 |} |};
               lm_max_minus_min_amount := {| lk_val := v6; lk_randomness := v6 |};
               lm_min_amount_order_index := {| lk_val := v7; lk_randomness := v7 |} |}
  | _, _ => m_panic
  end.

Definition open_linkable_match := open_linkable_with sc_batch_open.
Definition open_and_authenticate_linkable_match := open_linkable_with sc_batch_open_and_authenticate.

(** [open] and [open_and_authenticate] of [AuthenticatedMatchResult], by the opening they use; [scalar_to_u64] is
    the conversion of the MPC library *)
Definition open_match_with
    (batch_open : list AuthenticatedScalar -> Fabric -> outcome string (list AuthenticatedScalar) * Fabric)
    (scalar_to_u64 : Scalar -> Z) (self : AuthenticatedMatchResult) : mpc MatchResult :=
  let? opened_values := map_err OpeningError (batch_open (match_to_vec self)) in
  fun f => (match match_try_from ((fun val => scalar_to_u64 (to_scalar val)) <$> opened_values) with
            | Ret res => Ret res
            | Fail _ => Fail (SerializationError ("Expected 8 values, got " +:+ pretty (length opened_values)))
            | Panic => Panic
            end, f).

Definition open_match_result := open_match_with sc_batch_open.
Definition open_and_authenticate_match_result := open_match_with sc_batch_open_and_authenticate.

(** * The match *)

Definition price_overlap (order1 order2 : AuthenticatedOrder) : mpc AuthenticatedScalar :=
  let order1_sell := ao_side order1 in
  let? price1_lt_price2 := less_than_equal (AuthenticatedFixedPoint.repr (ao_price order1))
    (AuthenticatedFixedPoint.repr (ao_price order2)) in
  mpc_eq 1 order1_sell price1_lt_price2.

(** The [f32] literal 0.5 *)
Definition HALF_F32 : spec_float := S754_finite false 8388608 (-24).

(** The checks of [compute_match] and their product *)
Definition match_checks (order1 order2 : AuthenticatedOrder) : mpc AuthenticatedScalar :=
  let? equal_mint1 := mpc_eq 64 (ao_base_mint order1) (ao_base_mint order2) in
  let? equal_mint2 := mpc_eq 64 (ao_quote_mint order1) (ao_quote_mint order2) in
  let? overlap := price_overlap order1 order2 in
  let? opposite_sides := mpc_ne 64 (ao_side order1) (ao_side order2) in
  product [equal_mint1; equal_mint2; overlap; opposite_sides].

(** The execution price of [compute_match] and the amount of the quote that it gives *)
Definition match_exchange (order1 order2 : AuthenticatedOrder) (min_base_amount : AuthenticatedScalar)
    : mpc (AuthenticatedFixedPoint.AuthenticatedFixedPoint * AuthenticatedScalar) :=
  let? one_half := AuthenticatedFixedPoint.from_public_f32 HALF_F32 in
  let? execution_price :=
    AuthenticatedFixedPoint.mul (AuthenticatedFixedPoint.add (ao_price order1) (ao_price order2)) one_half in
  let? quote_exchanged_fp := AuthenticatedFixedPoint.scalar_mul min_base_amount execution_price in
  let? quote_exchanged := AuthenticatedFixedPoint.as_integer quote_exchanged_fp in
  m_ret (execution_price, quote_exchanged).

Definition compute_match (order1 order2 : AuthenticatedOrder) : mpc AuthenticatedMatchResult :=
  let? aggregate_check := match_checks order1 order2 in
  let? (min_index, min_base_amount) := mpc_min (ao_amount order1) (ao_amount order2) in
  let max_minus_min_amount :=
    sc_sub (sc_add (ao_amount order1) (ao_amount order2)) (sc_scale (scalar 2) min_base_amount) in
  let? (execution_price, quote_exchanged) := match_exchange order1 order2 min_base_amount in
  let? masked_output := remap ArithmeticError (cond_select_vec aggregate_check
    [ao_quote_mint order1; ao_base_mint order1; quote_exchanged; min_base_amount; ao_side order1;
     AuthenticatedFixedPoint.repr execution_price; max_minus_min_amount; min_index]
    (allocate_zeros MATCH_SIZE_SCALARS)) in
  let? v0 := m_index masked_output 0 in
  let? v1 := m_index masked_output 1 in
  let? v2 := m_index masked_output 2 in
  let? v3 := m_index masked_output 3 in
  let? v4 := m_index masked_output 4 in
  let? v5 := m_index masked_output 5 in
  let? v6 := m_index masked_output 6 in
  let? v7 := m_index masked_output 7 in
  m_ret {| am_quote_mint := v0; am_base_mint := v1; am_quote_amount := v2; am_base_amount := v3;
           am_direction := v4; am_execution_price := {| AuthenticatedFixedPoint.repr := v5 |};
           am_max_minus_min_amount := v6; am_min_amount_order_index := v7 |}.

(** The errors of the handshake manager: the text of [HandshakeManagerError::MpcNetwork] *)
Definition mpc_network {A} (m : mpc A) : Fabric -> outcome string A * Fabric := fun f =>
  let (r, f') := m f in
  (match r with Ret a => Ret a | Fail err => Fail (display_mpc_error err) | Panic => Panic end, f').

(** [execute_match_mpc] of core/src/handshake/match.rs, for the orders of both parties *)
Definition execute_match_mpc (orders : nat -> Order) : Fabric -> outcome string AuthenticatedMatchResult * Fabric :=
  mpc_network (
    let? shared_order1 := allocate_order 0 orders in
    let? shared_order2 := allocate_order 1 orders in
    compute_match shared_order1 shared_order2).
End types.

(** * The reference *)

(** Two mints agree if their difference has no low bits. *)
Definition mints_agree (mint1 mint2 : Z) : bool :=
  low_zero 64 (biguint_to_scalar mint1 - biguint_to_scalar mint2).

(** A seller in front asks for at most the other price, a buyer in front for more than it. *)
Definition prices_cross (side : OrderSide) (price1 price2 : Z) : bool :=
  match side with Sell => (price1 <=? price2)%Z | Buy => (price2 <? price1)%Z end.

Definition price_of (o : Order) : Z := Zmod.to_Z (FixedPoint.repr (order_price o)).

Definition orders_cross (o1 o2 : Order) : bool :=
  mints_agree (order_base_mint o1) (order_base_mint o2) && mints_agree (order_quote_mint o1) (order_quote_mint o2) &&
  prices_cross (order_side o1) (price_of o1) (price_of o2) && bool_decide (order_side o1 <> order_side o2).

(** The match of two orders: the smaller amount of the base, at the middle of both prices *)
Definition reference_match (o1 o2 : Order) : list Scalar :=
  let amount := Z.min (order_amount o1) (order_amount o2) in
  let prices := (price_of o1 + price_of o2)%Z in
  if orders_cross o1 o2
  then [biguint_to_scalar (order_quote_mint o1); biguint_to_scalar (order_base_mint o1);
        scalar (amount * prices / 2 / 2 ^ 32); scalar amount; side_to_scalar (order_side o1);
        Zmod.inv (scalar 2) * scalar prices;
        scalar (Z.max (order_amount o1) (order_amount o2) - amount);
        bit_scalar (negb (order_amount o1 <? order_amount o2)%Z)]
  else replicate MATCH_SIZE_SCALARS Zmod.zero.

(** Amounts and prices of 64 bits *)
Record order_sized (o : Order) : Prop := {
  os_amount : (0 <= order_amount o < 2 ^ 64)%Z;
  os_price : (price_of o < 2 ^ 64)%Z;
}.

#[local] Existing Instance party_id_source.

Section equivalence.
  Context {M : MpcFabric} {L : MpcLaws M party_id_source}.

(** Shares of an order *)
Record order_shares (s : AuthenticatedOrder) (o : Order) : Prop := {
  sh_quote_mint : reveal (ao_quote_mint s) = biguint_to_scalar (order_quote_mint o);
  sh_base_mint : reveal (ao_base_mint s) = biguint_to_scalar (order_base_mint o);
  sh_side : reveal (ao_side s) = side_to_scalar (order_side o);
  sh_price : reveal (AuthenticatedFixedPoint.repr (ao_price s)) = scalar (price_of o);
  sh_amount : reveal (ao_amount s) = scalar (order_amount o);
  pr_quote_mint : is_public (ao_quote_mint s) = false;
  pr_base_mint : is_public (ao_base_mint s) = false;
  pr_side : is_public (ao_side s) = false;
  pr_price : is_public (AuthenticatedFixedPoint.repr (ao_price s)) = false;
  pr_amount : is_public (ao_amount s) = false;
}.

Lemma computes_allocate_order p orders :
  computes (allocate_order p orders) (fun s => order_shares s (orders p)).
Proof.
  unfold allocate_order. eapply computes_call.
  { apply computes_map_err. intros f. exact (allocate_private_law p (fun p => order_scalars (orders p)) f). }
  intros l [Hl Hp]. unfold order_scalars in Hl. do 6 (destruct l as [|? l]; [discriminate Hl|]).
  destruct l; [|discriminate Hl]. injection Hl as H0 H1 H2 H3 H4 H5.
  repeat (apply Forall_cons in Hp as [? Hp]).
  repeat (apply computes_seq; eapply computes_index; [reflexivity|]). apply computes_ret.
  split; cbn; try done. unfold price_of. by rewrite Zmod.of_Z_to_Z.
Qed.

Lemma side_bit s : side_to_scalar s = bit_scalar (bool_decide (s = Sell)).
Proof. by destruct s. Qed.

(** The difference of two bits, as the comparisons see it *)
Lemma low_zero_bits D x y : (0 < D < 252)%nat -> low_zero D (bit_scalar x - bit_scalar y) = Bool.eqb x y.
Proof.
  intros HD. assert (2 ^ 1 <= 2 ^ Z.of_nat D)%Z by (apply Z.pow_le_mono_r; lia).
  unfold low_zero. destruct x, y; cbn [bit_scalar Bool.eqb].
  - replace (1 - 1 : Scalar) with (0 : Scalar) by ring. rewrite bool_decide_eq_true_2; [done|].
    intros H0. apply (f_equal Zmod.to_Z) in H0. vm_compute in H0. discriminate H0.
  - replace (1 - 0 : Scalar) with (1 : Scalar) by ring. change (Zmod.to_Z (1 : Scalar)) with 1%Z.
    rewrite Z.mod_small by lia. apply andb_false_r.
  - replace (0 - 1 : Scalar) with (- (1) : Scalar) by ring. by rewrite bool_decide_eq_false_2 by auto.
  - replace (0 - 0 : Scalar) with (0 : Scalar) by ring. rewrite bool_decide_eq_true_2; [done|].
    intros H0. apply (f_equal Zmod.to_Z) in H0. vm_compute in H0. discriminate H0.
Qed.

Section orders.
  Context (s1 s2 : AuthenticatedOrder) (o1 o2 : Order).
  Hypotheses (H1 : order_shares s1 o1) (H2 : order_shares s2 o2).
  Hypotheses (Z1 : order_sized o1) (Z2 : order_sized o2).

Lemma computes_price_overlap :
  computes (price_overlap s1 s2) (fun r =>
    reveal r = bit_scalar (prices_cross (order_side o1) (price_of o1) (price_of o2))).
Proof.
  destruct H1, H2, Z1, Z2. unfold price_overlap.
  pose proof (scalar_range (FixedPoint.repr (order_price o1))). pose proof (scalar_range (FixedPoint.repr (order_price o2))).
  eapply computes_call; [apply (party_less_than_equal _ _ (price_of o1) (price_of o2)); try done; unfold price_of in *; lia|].
  intros r Hr. cbn beta in Hr. eapply computes_mono; [apply party_eq; [lia|by rewrite pr_side0]|]. cbn beta.
  intros x ->. f_equal. rewrite Hr, sh_side0, side_bit, low_zero_bits by lia. unfold prices_cross.
  destruct (order_side o1); cbn; destruct (Z.leb_spec (price_of o1) (price_of o2)), (Z.ltb_spec (price_of o2) (price_of o1)); done || lia.
Qed.

Lemma computes_checks :
  computes (match_checks s1 s2) (fun r => reveal r = bit_scalar (orders_cross o1 o2)).
Proof.
  pose proof H1 as []. pose proof H2 as []. unfold match_checks.
  eapply computes_call; [apply party_eq; [lia|by rewrite pr_base_mint0]|]. intros e1 He1. cbn beta in He1.
  eapply computes_call; [apply party_eq; [lia|by rewrite pr_quote_mint0]|]. intros e2 He2. cbn beta in He2.
  eapply computes_call; [apply computes_price_overlap|]. intros e3 He3. cbn beta in He3.
  eapply computes_call; [apply party_ne; [lia|by rewrite pr_side0]|]. intros e4 He4. cbn beta in He4.
  eapply computes_mono; [by apply computes_product|]. cbn beta. intros r ->. cbn [length Nat.sub]. rewrite party_pairs.
  rewrite sh_side0, sh_side1, !side_bit, low_zero_bits in He4 by lia.
  rewrite sh_base_mint0, sh_base_mint1 in He1. rewrite sh_quote_mint0, sh_quote_mint1 in He2.
  unfold prod. cbn [fmap list_fmap foldr]. rewrite He1, He2, He3, He4. unfold orders_cross.
  fold (mints_agree (order_base_mint o1) (order_base_mint o2)) (mints_agree (order_quote_mint o1) (order_quote_mint o2)).
  replace (bool_decide (order_side o1 <> order_side o2))
    with (negb (Bool.eqb (bool_decide (order_side o1 = Sell)) (bool_decide (order_side o2 = Sell))))
    by (by destruct (order_side o1), (order_side o2)).
  destruct (mints_agree _ _), (mints_agree _ _), (prices_cross _ _ _), (negb _); by apply Zmod.to_Z_inj.
Qed.

Lemma half_of_product : (TWO_TO_NEG_M * scalar (2 ^ 31) = Zmod.inv (scalar 2))%Zmod.
Proof. by apply Zmod.to_Z_inj; vm_compute. Qed.

Lemma half_even z : Z.even z = true -> Zmod.inv (scalar 2) * scalar z = scalar (z / 2).
Proof.
  intros Hz. apply Z.even_spec in Hz as [k ->]. rewrite (Z.mul_comm 2), Z.div_mul by lia.
  rewrite Zmod.of_Z_mul. pose proof (pow2_inv 1 ltac:(lia)) as H. change (2 ^ Z.of_nat 1)%Z with 2%Z in H.
  transitivity (scalar k * (Zmod.inv (scalar 2) * scalar 2)); [ring|]. rewrite H. ring.
Qed.

(** The execution price and the exchanged quote amount *)
Lemma computes_exchange min_amount amount :
  reveal min_amount = scalar amount -> (0 <= amount < 2 ^ 64)%Z ->
  Z.even (amount * (price_of o1 + price_of o2)) = true ->
  computes (match_exchange s1 s2 min_amount) (fun r =>
    reveal (AuthenticatedFixedPoint.repr r.1) = Zmod.inv (scalar 2) * scalar (price_of o1 + price_of o2) /\
    reveal r.2 = scalar (amount * (price_of o1 + price_of o2) / 2 / 2 ^ 32)).
Proof.
  pose proof H1 as []. pose proof H2 as []. pose proof Z1 as []. pose proof Z2 as []. intros Hm Ha He.
  pose proof (scalar_range (FixedPoint.repr (order_price o1))) as P1.
  pose proof (scalar_range (FixedPoint.repr (order_price o2))) as P2.
  fold (price_of o1) in P1. fold (price_of o2) in P2. set (prices := (price_of o1 + price_of o2)%Z) in *.
  unfold match_exchange. apply computes_seq. unfold AuthenticatedFixedPoint.from_public_f32.
  apply computes_seq, computes_assert; [reflexivity|]. apply computes_ret.
  apply computes_seq. unfold AuthenticatedFixedPoint.mul.
  eapply computes_call; [apply computes_mul|]. intros e [Hep _]. apply computes_ret.
  assert (Hprice : reveal (sc_scale TWO_TO_NEG_M e) = Zmod.inv (scalar 2) * scalar prices).
  { rewrite reveal_scale, Hep. cbn [AuthenticatedFixedPoint.repr AuthenticatedFixedPoint.add].
    rewrite reveal_add, reveal_public, sh_price0, sh_price1, <- half_of_product.
    change (FixedPoint.f32_floor_as_u64 _) with (2 ^ 31)%Z. unfold prices. rewrite Zmod.of_Z_add. ring. }
  apply computes_seq. unfold AuthenticatedFixedPoint.scalar_mul.
  eapply computes_call; [apply computes_mul|]. intros q [Hq _]. apply computes_ret.
  cbn [AuthenticatedFixedPoint.repr] in Hq. rewrite Hprice, Hm in Hq.
  assert (Hq' : reveal q = scalar (amount * prices / 2)).
  { rewrite Hq, <- half_even by done. rewrite Zmod.of_Z_mul. ring. }
  unfold AuthenticatedFixedPoint.as_integer. cbn [AuthenticatedFixedPoint.repr].
  eapply computes_call; [apply (party_shift_right _ _ (amount * prices / 2))|].
  - unfold DEFAULT_PRECISION. lia.
  - exact Hq'.
  - assert (0 <= amount * prices < 2 ^ 249)%Z by (unfold prices; nia).
    split; [apply Z.div_pos; lia|]. apply Z.div_lt_upper_bound; lia.
  - intros x Hx. apply computes_ret. split; [exact Hprice|exact Hx].
Qed.

Lemma computes_remap {A} c (m : mpc A) (Q : A -> Prop) : computes m Q -> computes (remap c m) Q.
Proof. intros H f. specialize (H f). unfold remap. by destruct (m f) as [[] ?]. Qed.

Lemma computes_compute_match :
  Z.even (Z.min (order_amount o1) (order_amount o2) * (price_of o1 + price_of o2)) = true ->
  computes (compute_match s1 s2) (fun r => reveal <$> match_to_vec r = reference_match o1 o2).
Proof.
  intros He. pose proof H1 as []. pose proof H2 as []. pose proof Z1 as []. pose proof Z2 as []. unfold compute_match.
  eapply computes_call; [apply computes_checks|]. intros c Hc. cbn beta in Hc.
  eapply computes_call; [apply (party_min _ _ (order_amount o1) (order_amount o2)); done || lia|].
  intros [index amount] [Hi Ha]. cbn [fst snd] in Hi, Ha.
  eapply computes_call; [apply (computes_exchange amount _ Ha); [lia|done]|]. intros [price quote] [Hp Hq]. cbn [fst snd] in Hp, Hq.
  eapply computes_call; [apply computes_remap, (computes_cond_select_vec _ _ _ _ Hc); reflexivity|]. intros l Hl. cbn beta in Hl.
  assert (Hl' : reveal <$> l = reference_match o1 o2).
  { rewrite Hl. unfold reference_match. destruct (orders_cross o1 o2).
    - cbn [fmap list_fmap]. rewrite reveal_sub, reveal_add, reveal_scale, Hp, Hq, Hi, Ha, sh_amount0, sh_amount1,
        sh_quote_mint0, sh_base_mint0, sh_side0.
      do 6 f_equal. f_equal. rewrite <- Zmod.of_Z_add, <- Zmod.of_Z_mul, <- Zmod.of_Z_sub. f_equal. lia.
    - unfold allocate_zeros. rewrite fmap_replicate. by rewrite reveal_zero. }
  rewrite <- Hl'. pose proof (f_equal length Hl') as Hlen. rewrite length_fmap in Hlen.
  assert (length l = 8%nat) as Hl8 by (rewrite Hlen; unfold reference_match; by destruct (orders_cross o1 o2)).
  do 8 (destruct l as [|? l]; [discriminate Hl8|]). destruct l; [|discriminate Hl8].
  repeat (apply computes_seq; eapply computes_index; [reflexivity|]). by apply computes_ret.
Qed.
End orders.

Lemma computes_mpc_network {A} (m : mpc A) (Q : A -> Prop) : computes m Q ->
  forall f, match (mpc_network m f).1 with Ret a => Q a | _ => ~ reliable end.
Proof. intros H f. specialize (H f). unfold mpc_network. by destruct (m f) as [[] ?]. Qed.

Lemma computes_orders_match orders :
  order_sized (orders 0%nat) -> order_sized (orders 1%nat) ->
  Z.even (Z.min (order_amount (orders 0%nat)) (order_amount (orders 1%nat)) *
    (price_of (orders 0%nat) + price_of (orders 1%nat))) = true ->
  forall f, match (execute_match_mpc orders f).1 with
  | Ret r => reveal <$> match_to_vec r = reference_match (orders 0%nat) (orders 1%nat)
  | _ => ~ reliable
  end.
Proof.
  intros S0 S1 He. apply (computes_mpc_network _
    (fun r => reveal <$> match_to_vec r = reference_match (orders 0%nat) (orders 1%nat))).
  eapply computes_call; [apply computes_allocate_order|]. intros s1 Hs1. cbn beta in Hs1.
  eapply computes_call; [apply computes_allocate_order|]. intros s2 Hs2. cbn beta in Hs2.
  by apply computes_compute_match.
Qed.

(** The two-party match is the reference match: for two orders with amounts and prices of 64 bits, the parties
    obtain shares of what [reference_match] gives for the orders of the first and the second, whatever messages
    are lost, and they obtain them if the network is reliable.  The product of the amount and the sum of the
    prices has to be even, since halving is division in the field. *)
Theorem match_equivalent orders :
  order_sized (orders 0%nat) -> order_sized (orders 1%nat) ->
  Z.even (Z.min (order_amount (orders 0%nat)) (order_amount (orders 1%nat)) *
    (price_of (orders 0%nat) + price_of (orders 1%nat))) = true ->
  forall f, match (execute_match_mpc orders f).1 with
  | Ret r => reveal <$> match_to_vec r = reference_match (orders 0%nat) (orders 1%nat)
  | _ => ~ reliable
  end.
Proof. intros S0 S1 He f. by apply computes_orders_match. Qed.
End equivalence.

(** * Where the match departs from its description *)

(** At equal prices a match is found if the seller comes first, and none if the buyer does. *)
Theorem equal_prices_by_position o1 o2 :
  order_base_mint o1 = order_base_mint o2 -> order_quote_mint o1 = order_quote_mint o2 ->
  price_of o1 = price_of o2 -> order_side o1 = Sell -> order_side o2 = Buy ->
  orders_cross o1 o2 = true /\ orders_cross o2 o1 = false.
Proof.
  intros Hb Hq Hp H1 H2. unfold orders_cross, prices_cross, mints_agree. rewrite Hb, Hq, Hp, H1, H2, Z.leb_refl, Z.ltb_irrefl.
  split; [|by rewrite andb_false_r].
  assert (forall x : Scalar, low_zero 64 (x - x) = true) as Hz.
  { intros x. replace (x - x : Scalar) with (bit_scalar false - bit_scalar false : Scalar); [by rewrite low_zero_bits by lia|].
    cbn [bit_scalar]. ring. }
  by rewrite !Hz.
Qed.

(** Mints that differ by a multiple of [2^64] are taken for equal. *)
Lemma distinct_mints_agree : mints_agree (2 ^ 64 + 1) 1 = true.
Proof. vm_compute. reflexivity. Qed.

(** For an odd sum of prices the execution price is no midpoint, but half of the sum and the field's order. *)
Lemma odd_midpoint z :
  (0 <= z < 2 ^ 65)%Z -> Z.odd z = true ->
  Zmod.to_Z (Zmod.inv (scalar 2) * scalar z)%Zmod = ((z + ristretto_order) / 2)%Z.
Proof.
  intros Hz Ho. assert (He : Z.even (z + ristretto_order) = true).
  { rewrite Z.even_add, <- Z.negb_odd, Ho. reflexivity. }
  replace (scalar z) with (scalar (z + ristretto_order)).
  - rewrite half_even, to_Z_small; [done|..|done]. assert (2 ^ 65 < ristretto_order)%Z by done.
    split; [apply Z.div_pos; lia|apply Z.div_lt_upper_bound; lia].
  - rewrite Zmod.of_Z_add. replace (scalar ristretto_order) with (0 : Scalar) by (by apply Zmod.to_Z_inj). ring.
Qed.

(** Reading back what was written exchanges the base mint and the quote amount. *)
Lemma match_vec_swapped {M : MpcFabric} m :
  match_from_vec (match_to_vec m) = Ret {|
    am_quote_mint := am_quote_mint m; am_base_mint := am_quote_amount m; am_quote_amount := am_base_mint m;
    am_base_amount := am_base_amount m; am_direction := am_direction m; am_execution_price := am_execution_price m;
    am_max_minus_min_amount := am_max_minus_min_amount m;
    am_min_amount_order_index := am_min_amount_order_index m |}.
Proof. by destruct m as [? ? ? ? ? [?] ? ?]. Qed.

Section opening.
  Context `{L : MpcLaws}.

Lemma to_scalar_opened l l' :
  reveal <$> l = reveal <$> l' /\ Forall (fun c => is_public c = true) l -> to_scalar <$> l = reveal <$> l'.
Proof.
  intros [Hr Hp]. rewrite <- Hr. clear Hr. induction Hp as [|x l Hx Hp IH]; [done|]. cbn.
  rewrite to_scalar_public by done. f_equal. exact IH.
Qed.

(** Opening a shared linkable match gives the values, and the blinders of the first six fields; the last two
    fields get their values for blinders, so their commitments are not those that the parties have proved about. *)
Theorem linkable_opening self f :
  let blinder (l : AuthenticatedLinkableCommitment) := (al_randomness l).1 + (al_randomness l).2 in
  let opened l := {| lk_val := reveal (al_val l); lk_randomness := blinder l |} in
  let unblinded l := {| lk_val := reveal (al_val l); lk_randomness := reveal (al_val l) |} in
  match (open_and_authenticate_linkable_match self f).1 with
  | Ret m =>
      m = {| lm_quote_mint := opened (alm_quote_mint self); lm_base_mint := opened (alm_base_mint self);
             lm_quote_amount := opened (alm_quote_amount self); lm_base_amount := opened (alm_base_amount self);
             lm_direction := opened (alm_direction self);
             lm_execution_price := {| lf_repr := opened (alm_execution_price self) |};
             lm_max_minus_min_amount := unblinded (alm_max_minus_min_amount self);
             lm_min_amount_order_index := unblinded (alm_min_amount_order_index self) |}
  | _ => ~ reliable
  end.
Proof.
  intros blinder opened unblinded. revert f.
  match goal with |- forall f, match _ with Ret m => @?Q m | _ => _ end =>
    change (computes (open_and_authenticate_linkable_match self) Q) end.
  unfold open_and_authenticate_linkable_match, open_linkable_with.
  eapply computes_call; [apply computes_map_err; intros f; exact (batch_open_and_authenticate_law _ f)|].
  intros b Hb. cbn beta in Hb. apply to_scalar_opened in Hb. rewrite preshared_law in Hb.
  eapply computes_call; [apply computes_map_err; intros f; exact (batch_open_and_authenticate_law _ f)|].
  intros v Hv. cbn beta in Hv. apply to_scalar_opened in Hv. rewrite Hb, Hv. cbn [linkable_fields fmap list_fmap].
  by apply computes_ret.
Qed.
End opening.

(** * Examples *)

#[local] Existing Instance TwoParty.fabric.
#[local] Existing Instance TwoParty.laws.

Definition sample_seller : Order := {|
  order_quote_mint := 1; order_base_mint := 2; order_side := Sell;
  order_price := FixedPoint.from_integer 10; order_amount := 20; order_timestamp := 0 |}.
Definition sample_buyer : Order := {|
  order_quote_mint := 1; order_base_mint := 2; order_side := Buy;
  order_price := FixedPoint.from_integer 14; order_amount := 30; order_timestamp := 0 |}.
Definition sample_orders (p : nat) : Order := match p with O => sample_seller | _ => sample_buyer end.

Lemma match_equivalent_witness :
  exists r, (execute_match_mpc (M := TwoParty.fabric) sample_orders tt).1 = Ret r /\
    reveal <$> match_to_vec r =
      [scalar 1; scalar 2; scalar 240; scalar 20; scalar 1; scalar (12 * 2 ^ 32); scalar 10; scalar 0].
Proof.
  pose proof (match_equivalent (M := TwoParty.fabric) sample_orders ltac:(by split) ltac:(by split) eq_refl tt) as H.
  destruct (execute_match_mpc (M := TwoParty.fabric) sample_orders tt) as [[r|e|] f]; [|destruct H; exact I|destruct H; exact I].
  exists r. split; [reflexivity|]. cbn [fst] in H. rewrite H. vm_compute. reflexivity.
Defined.

Lemma equal_prices_by_position_witness :
  orders_cross sample_seller {| order_quote_mint := 1; order_base_mint := 2; order_side := Buy;
    order_price := FixedPoint.from_integer 10; order_amount := 30; order_timestamp := 0 |} = true.
Proof. apply equal_prices_by_position; reflexivity. Defined.
