(* ===== verification/MpcPoseidon.v ===== *)
(** The hash of the two-party computation: circuits/src/mpc_gadgets/poseidon.rs. *)

From Stdlib Require Import Zmod.
From stdpp Require Import strings.
From S2P Require Import Prelude Primality Field ConstraintSystem PoseidonConstants Poseidon Mpc MpcGadgets MpcProperties.

#[local] Open Scope Zmod_scope.
#[local] Open Scope mpc_scope.

Module AuthenticatedPoseidonHasher.
Section hasher.
  Context {M : MpcFabric} (p : PoseidonSpongeParameters).

Abbreviation Hasher := (hasher AuthenticatedScalar).

(** The recursion of [scalar_exp], on the binary digits of the exponent *)
Fixpoint scalar_exp_positive (x : AuthenticatedScalar) (a : positive) : mpc AuthenticatedScalar :=
  match a with
  | xH => m_ret x
  | xI a =>
      let? recursive_result := scalar_exp_positive x a in
      let? square := mul recursive_result recursive_result in
      mul square x
  | xO a => let? recursive_result := scalar_exp_positive x a in mul recursive_result recursive_result
  end.

Definition scalar_exp (x : AuthenticatedScalar) (a : Z) : mpc AuthenticatedScalar :=
  match a with Zpos a => scalar_exp_positive x a | _ => m_ret (allocate_public_u64 1) end.

(** [m] on every element of a list *)
Fixpoint m_map {A B} (m : A -> mpc B) (l : list A) : mpc (list B) :=
  match l with
  | [] => m_ret []
  | x :: l => let? y := m x in let? rest := m_map m l in m_ret (y :: rest)
  end.

Fixpoint m_fold {A B} (m : B -> A -> mpc B) (b : B) (l : list A) : mpc B :=
  match l with [] => m_ret b | x :: l => let? b := m b x in m_fold m b l end.

Definition new : Hasher :=
  {| state := allocate_zeros (rate p + capacity p); next_index := 0; in_squeeze_state := false |}.

Definition add_round_constants (round_index : nat) (self : Hasher) : mpc Hasher :=
  let? rc := m_index (round_constants p) round_index in
  m_ret (with_state self (zip_assign (fun elem c => sc_add_public c elem) (state self) rc)).

Definition apply_sbox (full_round : bool) (self : Hasher) : mpc Hasher :=
  if full_round then
    let? st := m_map (fun elem => scalar_exp elem (alpha p)) (state self) in
    m_ret (with_state self st)
  else
    let? x := m_index (state self) 0 in
    let? y := scalar_exp x (alpha p) in
    m_ret (with_state self (<[O := y]> (state self))).

Definition apply_mds (self : Hasher) : Hasher :=
  let row_inner_product row := foldl (fun acc '(a, b) => sc_add acc (sc_scale a b)) allocate_zero (zip row (state self)) in
  with_state self (zip_assign (fun _ new_elem => new_elem) (state self) (row_inner_product <$> mds_matrix p)).

Definition round (full_round : bool) (self : Hasher) (r : nat) : mpc Hasher :=
  let? self := add_round_constants r self in
  let? self := apply_sbox full_round self in
  m_ret (apply_mds self).

Definition permute (self : Hasher) : mpc Hasher :=
  let? self := m_fold (round true) self (seq 0 (full_rounds p / 2)) in
  let partial_rounds_start := (full_rounds p / 2)%nat in
  let partial_rounds_end := (partial_rounds_start + parital_rounds p)%nat in
  let? self := m_fold (round false) self (seq partial_rounds_start (partial_rounds_end - partial_rounds_start)) in
  let final_full_rounds_start := partial_rounds_end in
  let final_full_rounds_end := (parital_rounds p + full_rounds p)%nat in
  m_fold (round true) self (seq final_full_rounds_start (final_full_rounds_end - final_full_rounds_start)).

Definition absorb (self : Hasher) (a : AuthenticatedScalar) : mpc Hasher :=
  m_assert (negb (in_squeeze_state self)) ;;?
  let? self :=
    if (next_index self =? rate p)%nat then
      let? self := permute self in
      m_ret {| state := state self; next_index := 0; in_squeeze_state := in_squeeze_state self |}
    else m_ret self in
  let index := (capacity p + next_index self)%nat in
  let? elem := m_index (state self) index in
  m_ret {| state := <[index := sc_add elem a]> (state self); next_index := S (next_index self);
           in_squeeze_state := in_squeeze_state self |}.

Definition absorb_batch (self : Hasher) (a : list AuthenticatedScalar) : mpc Hasher := m_fold absorb self a.

Definition squeeze (self : Hasher) : mpc (AuthenticatedScalar * Hasher) :=
  let? self :=
    if negb (in_squeeze_state self) || (next_index self =? rate p)%nat then
      let? self := permute self in
      m_ret {| state := state self; next_index := 0; in_squeeze_state := true |}
    else m_ret self in
  let self := {| state := state self; next_index := S (next_index self); in_squeeze_state := in_squeeze_state self |} in
  let? elem := m_index (state self) (capacity p + next_index self - 1) in
  m_ret (elem, self).

Fixpoint squeeze_batch (self : Hasher) (num_elements : nat) : mpc (list AuthenticatedScalar * Hasher) :=
  match num_elements with
  | O => m_ret ([], self)
  | S n => let? (x, self) := squeeze self in
           let? (xs, self) := squeeze_batch self n in
           m_ret (x :: xs, self)
  end.
End hasher.
End AuthenticatedPoseidonHasher.

(** * The hash reveals the reference *)

Import AuthenticatedPoseidonHasher.

(** The reference for a sequence of outputs: they are read from the state, which is permuted after every [rate] *)
Fixpoint native_squeeze (p : PoseidonSpongeParameters) (st : list Scalar) (next n : nat) : list Scalar :=
  match n with
  | O => []
  | S n =>
      let '(st, next) := if (next =? rate p)%nat then (Native.permute p st, O) else (st, next) in
      default 0 (st !! (capacity p + next)%nat) :: native_squeeze p st (S next) n
  end.

Section refinement.
  Context `{L : MpcLaws} (p : PoseidonSpongeParameters) (Hok : params_ok p).

Lemma computes_exp_positive x a : computes (scalar_exp_positive x a) (fun r => reveal r = reveal x ^ Zpos a).
Proof.
  induction a as [a IH|a IH|]; cbn [scalar_exp_positive].
  - eapply computes_call; [apply IH|]. intros y Hy. cbn beta in Hy.
    eapply computes_call; [apply computes_mul|]. intros z [Hz _].
    eapply computes_mono; [apply computes_mul|]. intros r [Hr _]. rewrite Hr, Hz, Hy, Pos2Z.inj_xI.
    rewrite Zmod.pow_add_r_nonneg, Zmod.pow_1_r by lia. rewrite Z.mul_comm, Zmod.pow_mul_r_nonneg, Zmod.pow_2_r by lia. done.
  - eapply computes_call; [apply IH|]. intros y Hy. cbn beta in Hy.
    eapply computes_mono; [apply computes_mul|]. intros r [Hr _]. rewrite Hr, Hy, Pos2Z.inj_xO.
    rewrite Z.mul_comm, Zmod.pow_mul_r_nonneg, Zmod.pow_2_r by lia. done.
  - apply computes_ret. by rewrite Zmod.pow_1_r.
Qed.

Lemma computes_exp x : computes (scalar_exp x (alpha p)) (fun r => reveal r = Native.sbox p (reveal x)).
Proof.
  pose proof (ok_alpha p Hok) as Ha. unfold Native.sbox. destruct (alpha p) as [|a|a]; [|apply computes_exp_positive|lia].
  apply computes_ret. unfold allocate_public_u64. by rewrite reveal_public, Zmod.pow_0_r.
Qed.

Lemma computes_map {A B} (m : A -> mpc B) (P : A -> B -> Prop) l :
  (forall x, computes (m x) (P x)) -> computes (m_map m l) (fun r => Forall2 P l r).
Proof.
  intros Hm. induction l as [|x l IH]; cbn [m_map]; [by apply computes_ret; constructor|].
  eapply computes_call; [apply Hm|]. intros y Hy. eapply computes_call; [apply IH|]. intros r Hr.
  apply computes_ret. by constructor.
Qed.

(** A step of the hasher that acts on the revealed state *)
Definition acts (g : hasher AuthenticatedScalar -> mpc (hasher AuthenticatedScalar)) (G : list Scalar -> list Scalar)
    : Prop :=
  forall h, length (state h) = Native.width p ->
    computes (g h) (fun h' => reveal <$> state h' = G (reveal <$> state h) /\ length (state h') = Native.width p /\
      next_index h' = next_index h /\ in_squeeze_state h' = in_squeeze_state h).

Lemma acts_seq g g' G G' : acts g G -> acts g' G' -> acts (fun h => let? h := g h in g' h) (fun st => G' (G st)).
Proof.
  intros Hg Hg' h Hh. eapply computes_call; [by apply Hg|]. intros h1 (H1 & H2 & H3 & H4).
  eapply computes_mono; [by apply Hg'|]. intros h2 (H5 & H6 & H7 & H8). rewrite H5, H1. split_and!; congruence.
Qed.

Lemma acts_fold (g : hasher AuthenticatedScalar -> nat -> mpc (hasher AuthenticatedScalar)) G l :
  Forall (fun r => acts (fun h => g h r) (fun st => G st r)) l -> acts (fun h => m_fold g h l) (fun st => foldl G st l).
Proof.
  induction 1 as [|r l Hr Hl IH]; [intros h Hh; by apply computes_ret|]. cbn [m_fold foldl].
  exact (acts_seq (fun h => g h r) (fun h => m_fold g h l) (fun st => G st r) (fun st => foldl G st l) Hr IH).
Qed.

Lemma acts_constants r : (r < full_rounds p + parital_rounds p)%nat -> acts (add_round_constants p r) (Native.add_constants p r).
Proof.
  intros Hr h Hh. rewrite <- (ok_rounds p Hok) in Hr. destruct (lookup_lt_is_Some_2 _ _ Hr) as [rc Hrc].
  assert (Hl : length rc = Native.width p).
  { pose proof (ok_constants p Hok) as H. rewrite Forall_forall in H. apply H. by eapply list_elem_of_lookup_2. }
  unfold add_round_constants. apply computes_seq, (computes_index _ _ rc); [done|]. apply computes_ret. cbn [state with_state].
  rewrite Refinement.zip_assign_zip_with by congruence. split_and!; try done.
  - unfold Native.add_constants. rewrite Hrc. cbn [default]. clear. revert rc.
    induction (state h) as [|x l IH]; intros [|c rc]; cbn; try done. rewrite reveal_add_public, IH. f_equal. ring.
  - rewrite length_zip_with. lia.
Qed.

Lemma acts_sbox b : acts (apply_sbox p b) (Native.substitute p b).
Proof.
  intros h Hh. unfold apply_sbox. destruct b.
  - eapply computes_call; [apply (computes_map _ (fun x y => reveal y = Native.sbox p (reveal x))); intros; apply computes_exp|].
    intros st Hst. apply computes_ret. cbn [state with_state]. split_and!; try done.
    + cbn [Native.substitute]. clear -Hst. induction Hst as [|x y l k Hxy H IH]; cbn; [done|]. by rewrite Hxy, IH.
    + by rewrite <- Hh, (Forall2_length _ _ _ Hst).
  - pose proof (ok_rate p Hok). unfold Native.width in Hh. destruct (state h) as [|x st] eqn:Hs; [cbn in Hh; lia|].
    apply computes_seq, (computes_index _ _ x); [done|]. eapply computes_call; [apply computes_exp|]. intros y Hy.
    apply computes_ret. cbn [state with_state]. cbn in Hy |- *. rewrite Hy. done.
Qed.

Lemma zip_replace {A B} (l : list A) (k : list B) : length k = length l -> zip_with (fun _ y => y) l k = k.
Proof. revert k. induction l as [|x l IH]; intros [|y k] H; try done. cbn. f_equal. apply IH. by injection H. Qed.

Lemma acts_mds : acts (fun h => m_ret (apply_mds p h)) (Native.mix p).
Proof.
  intros h Hh. apply computes_ret. unfold apply_mds. cbn [state with_state].
  rewrite Refinement.zip_assign_zip_with by (rewrite length_fmap, (ok_mds p Hok), Hh; done).
  split_and!; try done.
  - unfold Native.mix. pose proof (ok_mds p Hok) as Hm. fold (Native.width p) in Hm. rewrite <- Hh in Hm.
    rewrite zip_replace by (by rewrite length_fmap).
    rewrite <- list_fmap_compose. apply list_fmap_ext. intros i row _. unfold compose, Native.dot.
    enough (forall acc, reveal (foldl (fun acc '(a, b) => sc_add acc (sc_scale a b)) acc (zip row (state h))) =
      foldl Zmod.add (reveal acc) (zip_with Zmod.mul row (reveal <$> state h))) as H by (rewrite H, reveal_zero; done).
    generalize (state h) as k. clear. induction row as [|a row IH]; intros [|b k] acc; cbn; try done.
    rewrite IH, reveal_add, reveal_scale. done.
  - rewrite length_zip_with, length_fmap, (ok_mds p Hok), Hh. unfold Native.width. lia.
Qed.

Lemma acts_round b r :
  (r < full_rounds p + parital_rounds p)%nat -> acts (fun h => round p b h r) (fun st => Native.round p b st r).
Proof.
  intros Hr. unfold round, Native.round.
  apply (acts_seq (add_round_constants p r) (fun h => let? h := apply_sbox p b h in m_ret (apply_mds p h))
    _ (fun st => Native.mix p (Native.substitute p b st))); [by apply acts_constants|].
  apply (acts_seq (apply_sbox p b) (fun h => m_ret (apply_mds p h))); [apply acts_sbox|apply acts_mds].
Qed.

Lemma acts_permute : acts (permute p) (Native.permute p).
Proof.
  intros h Hh. rewrite native_permute_split by done. cbn zeta. pose proof (ok_even _ Hok) as He. unfold permute.
  set (k := (full_rounds p / 2)%nat) in *.
  replace (k + parital_rounds p - k)%nat with (parital_rounds p) by lia.
  replace (parital_rounds p + full_rounds p - (k + parital_rounds p))%nat with k by lia.
  revert h Hh. apply (acts_seq (fun h => m_fold (round p true) h (seq 0 k)) (fun h =>
    let? h := m_fold (round p false) h (seq k (parital_rounds p)) in m_fold (round p true) h (seq (k + parital_rounds p) k))
    (fun st => foldl (Native.round p true) st (seq 0 k)) (fun st => foldl (Native.round p true)
      (foldl (Native.round p false) st (seq k (parital_rounds p))) (seq (k + parital_rounds p) k))).
  - apply acts_fold, Forall_seq. intros j ?. apply acts_round. lia.
  - apply (acts_seq (fun h => m_fold (round p false) h (seq k (parital_rounds p)))
      (fun h => m_fold (round p true) h (seq (k + parital_rounds p) k))
      (fun st => foldl (Native.round p false) st (seq k (parital_rounds p)))
      (fun st => foldl (Native.round p true) st (seq (k + parital_rounds p) k))); apply acts_fold, Forall_seq; intros j ?; apply acts_round; lia.
Qed.

Lemma alter_at {A} (g : A -> A) (l : list A) i x : l !! i = Some x -> alter g i l = <[i := g x]> l.
Proof.
  revert i. induction l as [|y l IH]; intros [|i] H; try discriminate H; [by injection H as ->|].
  change (y :: alter g i l = y :: <[i := g x]> l). f_equal. by apply IH.
Qed.

(** A hasher that absorbs, next to the reference *)
Record absorbing (h : hasher AuthenticatedScalar) (st : list Scalar) (next : nat) : Prop := {
  ab_state : reveal <$> state h = st;
  ab_next : next_index h = next;
  ab_bound : (next <= rate p)%nat;
  ab_mode : in_squeeze_state h = false;
  ab_width : length (state h) = Native.width p;
}.

Lemma computes_absorb h st next a :
  absorbing h st next ->
  computes (absorb p h a) (fun h' =>
    let '(st', next') := Native.absorb p (st, next) (reveal a) in absorbing h' st' next').
Proof.
  intros [Hs Hn Hb Hm Hw]. pose proof (ok_rate p Hok) as Hrate. unfold absorb. apply computes_seq, computes_assert; [by rewrite Hm|].
  unfold Native.absorb. rewrite Hn. apply computes_seq.
  assert (Hlast : forall h st next, reveal <$> state h = st -> next_index h = next -> (next < rate p)%nat ->
    in_squeeze_state h = false -> length (state h) = Native.width p ->
    computes (let? elem := m_index (state h) (capacity p + next_index h) in
      m_ret {| state := <[(capacity p + next_index h)%nat := sc_add elem a]> (state h); next_index := S (next_index h);
               in_squeeze_state := in_squeeze_state h |})
      (fun h' => absorbing h' (alter (fun x => x + reveal a) (next + capacity p)%nat st) (S next))).
  { clear -Hok. intros h st next <- <- Hlt Hm Hw.
    destruct (lookup_lt_is_Some_2 (state h) (capacity p + next_index h)%nat) as [x Hx]; [rewrite Hw; unfold Native.width; lia|].
    apply computes_seq, (computes_index _ _ x); [done|]. apply computes_ret. split; cbn; try done; [|by rewrite length_insert].
    rewrite list_fmap_insert, reveal_add, (Nat.add_comm (next_index h)).
    by rewrite (alter_at _ _ _ (reveal x)) by (by rewrite list_lookup_fmap, Hx). }
  destruct (Nat.eqb_spec next (rate p)) as [He|He].
  - eapply computes_call; [by apply acts_permute|]. intros h1 (H1 & H2 & H3 & H4). apply computes_ret.
    apply Hlast; cbn; try done; [by rewrite H1, Hs|by rewrite H4].
  - apply computes_ret. apply Hlast; try done. lia.
Qed.

Lemma computes_absorb_batch l h st next :
  absorbing h st next ->
  computes (absorb_batch p h l) (fun h' =>
    let '(st', next') := foldl (Native.absorb p) (st, next) (reveal <$> l) in absorbing h' st' next').
Proof.
  revert h st next. induction l as [|a l IH]; intros h st next Hh; [by apply computes_ret|].
  unfold absorb_batch. cbn [m_fold fmap list_fmap foldl]. eapply computes_call; [by apply (computes_absorb h st next a)|].
  intros h1. destruct (Native.absorb p (st, next) (reveal a)) as [st1 next1]. apply IH.
Qed.

Lemma mpc_absorbing_new : absorbing (AuthenticatedPoseidonHasher.new p) (Native.zeros p) 0.
Proof.
  split; cbn; try done; [|lia|unfold allocate_zeros; by rewrite length_replicate].
  unfold allocate_zeros, Native.zeros. by rewrite fmap_replicate, reveal_zero.
Qed.

(** A hasher that gives outputs *)
Record squeezing (h : hasher AuthenticatedScalar) (st : list Scalar) (next : nat) : Prop := {
  sq_state : reveal <$> state h = st;
  sq_next : next_index h = next;
  sq_bound : (next <= rate p)%nat;
  sq_mode : in_squeeze_state h = true;
  sq_width : length (state h) = Native.width p;
}.

(** One output, and those that follow *)
Lemma computes_read n h st next :
  (forall h st next, squeezing h st next ->
    computes (squeeze_batch p h n) (fun r => reveal <$> r.1 = native_squeeze p st next n)) ->
  squeezing h st next -> (next < rate p)%nat ->
  computes (let self := {| state := state h; next_index := S (next_index h); in_squeeze_state := in_squeeze_state h |} in
    let? elem := m_index (state self) (capacity p + next_index self - 1) in m_ret (elem, self))
  (fun r => computes (let? (xs, self) := squeeze_batch p r.2 n in m_ret (r.1 :: xs, self)) (fun r =>
    reveal <$> r.1 = default 0 (st !! (capacity p + next)%nat) :: native_squeeze p st (S next) n)).
Proof.
  intros IH [<- <- _ Hm Hw] Hlt. cbn [state next_index].
  replace (capacity p + S (next_index h) - 1)%nat with (capacity p + next_index h)%nat by lia.
  destruct (lookup_lt_is_Some_2 (state h) (capacity p + next_index h)%nat) as [x Hx]; [rewrite Hw; unfold Native.width; lia|].
  apply computes_seq, (computes_index _ _ x); [done|]. apply computes_ret. cbn [fst snd].
  eapply computes_call; [apply (IH _ (reveal <$> state h) (S (next_index h))); split; cbn; done || lia|].
  intros [xs h2] Hxs. apply computes_ret. cbn in Hxs |- *. by rewrite Hxs, list_lookup_fmap, Hx.
Qed.

Lemma computes_squeeze_next n h st next :
  squeezing h st next -> computes (squeeze_batch p h n) (fun r => reveal <$> r.1 = native_squeeze p st next n).
Proof.
  pose proof (ok_rate p Hok) as Hrate. revert h st next. induction n as [|n IH]; intros h st next Hh; [by apply computes_ret|].
  pose proof Hh as [Hs Hn Hb Hm Hw]. cbn [squeeze_batch native_squeeze]. unfold squeeze. rewrite Hm, Hn. cbn [negb orb].
  apply computes_seq, computes_seq. destruct (Nat.eqb_spec next (rate p)) as [He|He].
  - eapply computes_call; [by apply acts_permute|]. intros h1 (H1 & H2 & H3 & H4). apply computes_ret.
    eapply computes_mono; [apply (computes_read n _ (Native.permute p st) 0 IH); [|done]|by intros [x h2] Hr].
    split; cbn; try done; [by rewrite H1, Hs|lia].
  - apply computes_ret. eapply computes_mono; [apply (computes_read n h st next IH Hh); lia|]. by intros [x h2] Hr.
Qed.

(** The first output is read after a permutation. *)
Lemma computes_squeeze_first n h st next :
  absorbing h st next ->
  computes (squeeze_batch p h (S n)) (fun r => reveal <$> r.1 = native_squeeze p (Native.permute p st) 0 (S n)).
Proof.
  intros [Hs Hn Hb Hm Hw]. pose proof (ok_rate p Hok) as Hrate. cbn [squeeze_batch native_squeeze]. unfold squeeze.
  rewrite Hm. cbn [negb orb]. destruct (Nat.eqb_spec 0 (rate p)); [lia|].
  apply computes_seq, computes_seq. eapply computes_call; [by apply acts_permute|]. intros h1 (H1 & H2 & H3 & H4).
  apply computes_ret.
  eapply computes_mono; [apply (computes_read n _ (Native.permute p st) 0 (computes_squeeze_next n)); [|done]|by intros [x h2] Hr].
  split; cbn; try done; [by rewrite H1, Hs|lia].
Qed.

(** The two-party hash.  Whatever is absorbed, the revealed outputs are those of the reference sponge: they are read
    from the permuted state, which is permuted again after every [rate] outputs; the first is the hash of the
    revealed input. *)
Theorem mpc_hash_refines l n f :
  match (m_bind (absorb_batch p (AuthenticatedPoseidonHasher.new p) l) (fun h => squeeze_batch p h (S n)) f).1 with
  | Ret r =>
      reveal <$> r.1 =
        native_squeeze p (Native.permute p (foldl (Native.absorb p) (Native.zeros p, O) (reveal <$> l)).1) 0 (S n) /\
      head (reveal <$> r.1) = Some (Native.sponge p (reveal <$> l))
  | _ => ~ reliable
  end.
Proof.
  revert f. match goal with |- forall f, match (?m f).1 with Ret r => @?Q r | _ => _ end => change (computes m Q) end.
  eapply computes_call; [apply (computes_absorb_batch l _ _ _ mpc_absorbing_new)|]. intros h Hh. cbn beta in Hh.
  destruct (foldl (Native.absorb p) (Native.zeros p, O) (reveal <$> l)) as [st next] eqn:Hf.
  eapply computes_mono; [by apply (computes_squeeze_first n h st next)|]. intros r Hr. cbn beta in Hr. split; [done|].
  rewrite Hr. cbn [native_squeeze head]. pose proof (ok_rate p Hok). destruct (Nat.eqb_spec 0 (rate p)); [lia|].
  cbn [head]. f_equal. rewrite <- native_hash_sponge by done. unfold Native.hash. rewrite Hf, Nat.add_0_r. done.
Qed.
End refinement.

(** ** Witness *)

Definition sample_input : list (@AuthenticatedScalar TwoParty.fabric) :=
  [TwoParty.Shared (scalar 1) (scalar 2); TwoParty.Public (scalar 4)].

Lemma mpc_hash_refines_witness :
  exists r,
    (m_bind (M := TwoParty.fabric) (absorb_batch default_params (AuthenticatedPoseidonHasher.new default_params) sample_input)
      (fun h => squeeze_batch default_params h 2) tt).1 = Ret r /\
    head (TwoParty.value <$> r.1) = Some (Native.sponge default_params (TwoParty.value <$> sample_input)).
Proof.
  pose proof (mpc_hash_refines (L := TwoParty.laws) default_params default_params_ok sample_input 1 tt) as H.
  destruct (m_bind _ _ _) as [[r|e|] f]; [|destruct H; exact I|destruct H; exact I].
  exists r. split; [reflexivity|]. apply H.
Defined.
