(* ===== verification/Readings.v ===== *)
(** Two readings of a circuit, and one logic for both.

    A circuit is read with an arbitrary satisfying assignment, which is what a
    verifier may rely on, or with the assignment of the honest prover, which is what
    makes proofs possible.  [run r g s Q] is the triple of the reading [r].  The
    gadgets of the library are specified once in terms of it, so a statement of
    circuits/src/zk_circuits has one proof that gives its soundness and its
    completeness.

    [carries s a x] says that [a] is over variables of [s] and that the prover's
    assignment gives it the value [x]; [holds r s a x] is its form for a reading. *)

From Stdlib Require Import Zmod.
From S2P Require Import Prelude Primality Field ConstraintSystem Gates Comparators.

#[local] Open Scope Zmod_scope.
#[local] Open Scope circuit_scope.

Section carries.
  Context {C : ConstraintSystem} {L : ConstraintSystemLaws C} {P : ProverLaws C}.

Definition carries (s : cs) (a : LinearCombination) (x : Scalar) : Prop :=
  lc_scoped s a /\ value s a = x.

Lemma carries_value s a : lc_scoped s a -> carries s a (value s a).
Proof. done. Qed.

Lemma carries_extends s s' a x : extends s s' -> carries s a x -> carries s' a x.
Proof.
  intros E [Ha <-]. split; [by eapply extends_scoped|]. by apply extends_value.
Qed.

Lemma carries_list_extends s s' l k :
  extends s s' -> Forall2 (carries s) l k -> Forall2 (carries s') l k.
Proof. intros E H. eapply Forall2_impl; [exact H|]. intros. by eapply carries_extends. Qed.

Lemma carries_scoped_list s l k : Forall2 (carries s) l k -> Forall (lc_scoped s) l.
Proof. induction 1 as [|a x l k [Ha _] _ IH]; by constructor. Qed.

Lemma carries_value_list s l k : Forall2 (carries s) l k -> value s <$> l = k.
Proof.
  induction 1 as [|a x l k [_ Ha] _ IH]; [done|]. cbn [fmap list_fmap]. by rewrite Ha, IH.
Qed.

Lemma carries_list s l : Forall (lc_scoped s) l -> Forall2 (carries s) l (value s <$> l).
Proof. induction 1; cbn [fmap list_fmap]; constructor; done. Qed.

Lemma carries_scalar s c : carries s (lc_scalar c) c.
Proof. split; [scoped|apply value_scalar]. Qed.
Lemma carries_default s : carries s lc_default 0.
Proof. split; [scoped|apply value_default]. Qed.
Lemma carries_one s : carries s VarOne 1.
Proof. split; [scoped|apply value_one]. Qed.
Lemma carries_zero s : carries s VarZero 0.
Proof. split; [scoped|apply value_zero]. Qed.
Lemma carries_add s a b x y : carries s a x -> carries s b y -> carries s (a + b)%lc (x + y).
Proof. intros [? <-] [? <-]. split; [scoped|apply value_add]. Qed.
Lemma carries_sub s a b x y : carries s a x -> carries s b y -> carries s (a - b)%lc (x - y).
Proof. intros [? <-] [? <-]. split; [scoped|apply value_sub]. Qed.
Lemma carries_neg s a x : carries s a x -> carries s (- a)%lc (- x).
Proof. intros [? <-]. split; [scoped|apply value_neg]. Qed.
Lemma carries_scale s c a x : carries s a x -> carries s (c *! a)%lc (c * x).
Proof. intros [? <-]. split; [scoped|apply value_scale]. Qed.
End carries.

Create HintDb carries discriminated.
#[export] Hint Resolve carries_scalar carries_default carries_one carries_zero carries_add
  carries_sub carries_neg carries_scale : carries.
#[export] Hint Constructors Forall2 : carries.

Ltac carried := solve [eauto 12 with carries].

(** Moves what is carried to the state that extends the current one. *)
Ltac carry E :=
  match type of E with
  | extends ?s ?s' =>
      repeat match goal with
      | H : carries s _ _ |- _ => apply (carries_extends s s' _ _ E) in H
      | H : Forall2 (carries s) _ _ |- _ => apply (carries_list_extends s s' _ _ E) in H
      end
  end.

Section gadgets.
  Context {C : ConstraintSystem} {L : ConstraintSystemLaws C} {P : ProverLaws C}.

Lemma carry_multiply a b x y s (Q : _ -> cs -> Prop -> Prop) :
  carries s a x -> carries s b y ->
  (forall l r o s', extends s s' -> carries s' (lc_var l) x -> carries s' (lc_var r) y ->
    carries s' (lc_var o) (x * y) -> Q (l, r, o) s' True) ->
  wp (multiply a b) s Q.
Proof.
  intros [Ha <-] [Hb <-] HQ. apply wp_multiply; [done..|].
  intros l r o s' E Hl Hr Ho Vl Vr Vo. advance E. by apply HQ.
Qed.

Lemma carry_constrain a x s (Q : unit -> cs -> Prop -> Prop) :
  carries s a x -> (forall s' K, extends s s' -> (K <-> x = 0) -> Q tt s' K) ->
  wp (constrain a) s Q.
Proof.
  intros [Ha <-] HQ. apply wp_constrain; [done|]. intros s' E. advance E. by apply HQ.
Qed.

(** The shape of most constraints of the circuits. *)
Lemma carry_constrain_sub a b x y s (Q : unit -> cs -> Prop -> Prop) :
  carries s a x -> carries s b y ->
  (forall s' K, extends s s' -> (K <-> x = y) -> Q tt s' K) ->
  wp (constrain (a - b)%lc) s Q.
Proof.
  intros Ha Hb HQ. eapply carry_constrain; [carried|]. intros s' K E HK. apply HQ; [done|].
  by rewrite HK, scalar_sub_zero.
Qed.

Lemma carry_or_gate a b x y s (Q : LinearCombination -> cs -> Prop -> Prop) :
  carries s a x -> carries s b y ->
  (forall out s' (K : Prop), K -> extends s s' -> carries s' out (x + y - x * y) -> Q out s' K) ->
  wp (or_gate a b) s Q.
Proof.
  intros [Ha <-] [Hb <-] HQ. apply wp_or_gate; [done..|]. intros out s' K HK E Ho V. advance E.
  by apply HQ.
Qed.

Lemma carry_and_gate a b x y s (Q : R1CSVar -> cs -> Prop -> Prop) :
  carries s a x -> carries s b y ->
  (forall out s' (K : Prop), K -> extends s s' -> carries s' (lc_var out) (x * y) -> Q out s' K) ->
  wp (and_gate a b) s Q.
Proof.
  intros [Ha <-] [Hb <-] HQ. apply wp_and_gate; [done..|]. intros out s' K HK E Ho V. advance E.
  by apply HQ.
Qed.

Lemma carry_select a b sel x y z s (Q : LinearCombination -> cs -> Prop -> Prop) :
  carries s a x -> carries s b y -> carries s sel z ->
  (forall out s' (K : Prop), K -> extends s s' -> carries s' out (x * z + y * (1 - z)) ->
    Q out s' K) ->
  wp (select a b sel) s Q.
Proof.
  intros [Ha <-] [Hb <-] [Hs <-] HQ. apply wp_select; [done..|].
  intros out s' K HK E Ho V. advance E. by apply HQ.
Qed.

Lemma carry_eq_zero a x s (Q : R1CSVar -> cs -> Prop -> Prop) :
  carries s a x ->
  (forall out s' (K : Prop), K -> extends s s' ->
    carries s' (lc_var out) (bit_scalar (bool_decide (x = 0))) -> Q out s' K) ->
  wp (eq_zero a) s Q.
Proof.
  intros [Ha <-] HQ. apply wp_eq_zero; [done|]. intros out s' K HK E Ho V. advance E. by apply HQ.
Qed.

Lemma carry_eq_gadget a b x y s (Q : R1CSVar -> cs -> Prop -> Prop) :
  carries s a x -> carries s b y ->
  (forall out s' (K : Prop), K -> extends s s' ->
    carries s' (lc_var out) (bit_scalar (bool_decide (x = y))) -> Q out s' K) ->
  wp (eq_gadget a b) s Q.
Proof.
  intros [Ha <-] [Hb <-] HQ. apply wp_eq_gadget; [done..|]. intros out s' K HK E Ho V.
  advance E. by apply HQ.
Qed.

Lemma carry_not_equal a b x y s (Q : LinearCombination -> cs -> Prop -> Prop) :
  carries s a x -> carries s b y ->
  (forall out s' (K : Prop), K -> extends s s' ->
    carries s' out (bit_scalar (bool_decide (x <> y))) -> Q out s' K) ->
  wp (not_equal a b) s Q.
Proof.
  intros [Ha <-] [Hb <-] HQ. apply wp_not_equal; [done..|]. intros out s' K HK E Ho V.
  advance E. by apply HQ.
Qed.

Lemma carry_constrain_greater_than_zero D a x s (Q : unit -> cs -> Prop -> Prop) :
  (D <= POSITIVE_SCALAR_MAX_BITS)%nat -> carries s a x ->
  (forall s' (K : Prop), extends s s' -> (K <-> Zmod.to_Z x < 2 ^ Z.of_nat D)%Z -> Q tt s' K) ->
  wp (constrain_greater_than_zero D a) s Q.
Proof.
  intros HD [Ha <-] HQ. apply wp_constrain_greater_than_zero; [done..|].
  intros s' K E HK. advance E. by apply HQ.
Qed.
End gadgets.

(** * Circuits only add constraints *)

Section monotone.
  Context {C : ConstraintSystem} {L : ConstraintSystemLaws C}.

Class Monotone {A} (g : circuit A) : Prop :=
  monotone : forall s a s' w, g s = Ret (a, s') -> sat s' w -> sat s w.

Lemma sound_monotone {A} (g : circuit A) R : sound g R -> Monotone g.
Proof. intros Hg s a s' w E Hw. by apply (Hg s a s' E w Hw). Qed.

#[export] Instance ret_monotone {A} (a : A) : Monotone (c_ret a).
Proof. by intros s b s' w [= <- <-]. Qed.

#[export] Instance bind_monotone {A B} (g : circuit A) (k : A -> circuit B) :
  Monotone g -> (forall a, Monotone (k a)) -> Monotone (c_bind g k).
Proof.
  intros Hg Hk s b s' w E Hw. unfold c_bind in E. destruct (g s) as [[a s1]| |] eqn:Eg; try done.
  by eapply Hg, Hk.
Qed.

#[export] Instance foldM_monotone {A B} (f : B -> A -> circuit B) b l :
  (forall b x, Monotone (f b x)) -> Monotone (foldM f b l).
Proof. intros Hf. revert b; induction l as [|x l IH]; intros b; cbn [foldM]; apply _. Qed.

#[export] Instance mapM_monotone {A B} (f : A -> circuit B) l :
  (forall x, Monotone (f x)) -> Monotone (mapM f l).
Proof. intros Hf. induction l as [|x l IH]; cbn [mapM]; apply _. Qed.

#[export] Instance pair_monotone {A B D} (f : A -> B -> circuit D) (p : A * B) :
  (forall a b, Monotone (f a b)) -> Monotone (let '(a, b) := p in f a b).
Proof. intros H. destruct p. apply H. Qed.

#[export] Instance multiply_monotone a b : Monotone (multiply a b).
Proof. eapply sound_monotone, sound_multiply. Qed.
#[export] Instance allocate_monotone x : Monotone (allocate x).
Proof. eapply sound_monotone, sound_allocate. Qed.
#[export] Instance constrain_monotone a : Monotone (constrain a).
Proof. eapply sound_monotone, sound_constrain. Qed.
#[export] Instance commit_monotone x : Monotone (commit x).
Proof. eapply sound_monotone, sound_commit. Qed.
#[export] Instance commit_public_monotone x : Monotone (commit_public x).
Proof. eapply sound_monotone, sound_commit_public. Qed.
#[export] Instance assert_monotone b : Monotone (c_assert b).
Proof. eapply sound_monotone, sound_assert. Qed.
#[export] Instance get_monotone {A} (o : option A) : Monotone (c_get o).
Proof. eapply sound_monotone, sound_get. Qed.
#[export] Instance or_gate_monotone a b : Monotone (or_gate a b).
Proof. eapply sound_monotone, or_gate_sound. Qed.
#[export] Instance and_gate_monotone a b : Monotone (and_gate a b).
Proof. eapply sound_monotone, and_gate_sound. Qed.
#[export] Instance select_monotone a b c : Monotone (select a b c).
Proof. eapply sound_monotone, select_sound. Qed.
#[export] Instance eq_zero_monotone a : Monotone (eq_zero a).
Proof. eapply sound_monotone, eq_zero_sound. Qed.
#[export] Instance eq_gadget_monotone a b : Monotone (eq_gadget a b).
Proof. eapply sound_monotone, eq_gadget_sound. Qed.
#[export] Instance not_equal_monotone a b : Monotone (not_equal a b).
Proof. eapply sound_monotone, not_equal_sound. Qed.
#[export] Instance range_monotone D a : Monotone (constrain_greater_than_zero D a).
Proof.
  unfold constrain_greater_than_zero. apply bind_monotone; [|apply _].
  eapply sound_monotone, bit_decompose_reconstruct_sound.
Qed.
#[export] Instance greater_than_eq_monotone D a b : Monotone (constrain_greater_than_eq D a b).
Proof. apply range_monotone. Qed.
#[export] Instance eval_monotone a : Monotone (eval a).
Proof. eapply sound_monotone, sound_eval. Qed.
#[export] Instance unwrap_monotone {A} (g : circuit A) : Monotone g -> Monotone (c_unwrap g).
Proof.
  intros Hg s a s' w E. unfold c_unwrap in E. destruct (g s) as [[b s1]| |] eqn:Eg; try done.
  injection E as <- <-. by eapply Hg.
Qed.
#[export] Instance to_bits_monotone D a : Monotone (to_bits D a).
Proof. eapply sound_monotone, to_bits_sound. Qed.
#[export] Instance less_than_monotone D a b : Monotone (less_than D a b).
Proof.
  unfold less_than, greater_than_eq, greater_than_zero. apply bind_monotone; [apply bind_monotone|apply _].
  - eapply sound_monotone, bit_decompose_reconstruct_sound.
  - apply _.
Qed.
End monotone.

#[export] Hint Mode Monotone + + + ! : typeclass_instances.
#[export] Hint Opaque constrain_greater_than_zero constrain_greater_than_eq eq_zero eq_gadget not_equal select
  or_gate and_gate multiply allocate constrain foldM mapM c_bind c_ret : typeclass_instances.

(** * Readings *)

Section readings.
  Context {C : ConstraintSystem} {L : ConstraintSystemLaws C} {P : ProverLaws C}.

(** The honest prover's assignment, or any assignment. *)
Variant reading := Honest | Any (w : assignment) (Hw : valid w).

Definition holds (r : reading) (s : cs) (a : LinearCombination) (x : Scalar) : Prop :=
  match r with Honest => carries s a x | Any w _ => lc_eval w a = x end.

Definition grows (r : reading) (s s' : cs) : Prop :=
  match r with Honest => extends s s' | Any _ _ => True end.

(** [K] is the condition under which the constraints that the run adds are
    satisfied.  For an arbitrary assignment that satisfies them it is a fact. *)
Definition run {A} (r : reading) (g : circuit A) (s : cs) (Q : A -> cs -> Prop -> Prop) : Prop :=
  match r with
  | Honest => wp g s Q
  | Any w _ => forall a s', g s = Ret (a, s') -> sat s' w -> exists K : Prop, K /\ Q a s' K
  end.

(** What a range check establishes. *)
Definition range_checked (r : reading) (D : nat) (x : Scalar) : Prop :=
  match r with Honest => (Zmod.to_Z x < 2 ^ Z.of_nat D)%Z | Any _ _ => True end.

Lemma sound_of_run {A} (g : circuit A) {M : Monotone g} (R : assignment -> A -> Prop) :
  (forall w Hw s, run (Any w Hw) g s (fun a _ K => K -> R w a)) -> sound g R.
Proof.
  intros Hg s a s' E w Hw. split; [by eapply M|].
  destruct (Hg w (sat_valid _ _ Hw) s a s' E Hw) as (K & HK & HR). auto.
Qed.

Lemma run_ret {A} r (a : A) s (Q : A -> cs -> Prop -> Prop) : Q a s True -> run r (c_ret a) s Q.
Proof.
  destruct r; cbn; [apply wp_ret|]. intros HQ a' s' [= <- <-] _. by exists True.
Qed.

Lemma run_bind {A B} r (g : circuit A) (k : A -> circuit B) s (Q : B -> cs -> Prop -> Prop) :
  (forall a, Monotone (k a)) ->
  run r g s (fun a s1 K1 => run r (k a) s1 (fun b s2 K2 => Q b s2 (K1 /\ K2))) ->
  run r (c_bind g k) s Q.
Proof.
  intros Hk. destruct r as [|w Hw]; cbn; [apply wp_bind|]. intros Hg b s' E Hs.
  unfold c_bind in E. destruct (g s) as [[a s1]| |] eqn:Eg; try done.
  destruct (Hg a s1 eq_refl) as (K1 & HK1 & Hr); [by eapply Hk|].
  destruct (Hr b s' E Hs) as (K2 & HK2 & HQ). by exists (K1 /\ K2).
Qed.

Lemma run_mono {A} r (g : circuit A) s (Q Q' : A -> cs -> Prop -> Prop) :
  run r g s Q -> (forall a s' K, grows r s s' -> Q a s' K -> Q' a s' K) -> run r g s Q'.
Proof.
  destruct r as [|w Hw]; cbn; [apply wp_mono|]. intros Hg HQ a s' E Hs.
  destruct (Hg a s' E Hs) as (K & HK & H). exists K. auto.
Qed.

Lemma run_ext {A} r (g g' : circuit A) s (Q : A -> cs -> Prop -> Prop) :
  (forall s, g' s = g s) -> run r g s Q -> run r g' s Q.
Proof.
  intros Hg. destruct r; cbn; [by apply wp_ext|]. intros H a s' E. apply H. by rewrite <- Hg.
Qed.

Lemma run_get {A} r (o : option A) a s (Q : A -> cs -> Prop -> Prop) :
  o = Some a -> Q a s True -> run r (c_get o) s Q.
Proof.
  intros Ho HQ. destruct r; cbn; [by eapply wp_get|]. intros a' s' E _. subst o.
  injection E as <- <-. by exists True.
Qed.

Lemma run_assert r b s (Q : unit -> cs -> Prop -> Prop) :
  b = true -> Q tt s True -> run r (c_assert b) s Q.
Proof.
  intros Hb HQ. destruct r; cbn; [by eapply wp_assert|]. intros a' s' E _. subst b.
  injection E as <- <-. by exists True.
Qed.

Lemma grows_refl r s : grows r s s.
Proof. destruct r; cbn; [apply extends_refl|done]. Qed.
Lemma grows_trans r s1 s2 s3 : grows r s1 s2 -> grows r s2 s3 -> grows r s1 s3.
Proof. destruct r; cbn; [apply extends_trans|done]. Qed.
Lemma holds_grows r s s' a x : grows r s s' -> holds r s a x -> holds r s' a x.
Proof. destruct r; cbn; [apply carries_extends|done]. Qed.
Lemma holds_list_grows r s s' l k :
  grows r s s' -> Forall2 (holds r s) l k -> Forall2 (holds r s') l k.
Proof. intros E H. eapply Forall2_impl; [exact H|]. intros. by eapply holds_grows. Qed.

Lemma holds_scalar r s c : holds r s (lc_scalar c) c.
Proof. destruct r as [|w Hw]; cbn; [apply carries_scalar|]. rewrite lc_eval_scalar, (proj1 Hw). ring. Qed.
Lemma holds_default r s : holds r s lc_default 0.
Proof. destruct r; cbn; [apply carries_default|by lc_simpl]. Qed.
Lemma holds_one r s : holds r s VarOne 1.
Proof. destruct r as [|w Hw]; cbn; [apply carries_one|]. rewrite lc_eval_var. apply Hw. Qed.
Lemma holds_zero r s : holds r s VarZero 0.
Proof. destruct r as [|w Hw]; cbn; [apply carries_zero|]. rewrite lc_eval_var. apply Hw. Qed.
Lemma holds_add r s a b x y : holds r s a x -> holds r s b y -> holds r s (a + b)%lc (x + y).
Proof. destruct r; cbn; [apply carries_add|]. intros <- <-. by lc_simpl. Qed.
Lemma holds_sub r s a b x y : holds r s a x -> holds r s b y -> holds r s (a - b)%lc (x - y).
Proof. destruct r; cbn; [apply carries_sub|]. intros <- <-. by lc_simpl. Qed.
Lemma holds_neg r s a x : holds r s a x -> holds r s (- a)%lc (- x).
Proof. destruct r; cbn; [apply carries_neg|]. intros <-. by lc_simpl. Qed.
Lemma holds_scale r s c a x : holds r s a x -> holds r s (c *! a)%lc (c * x).
Proof. destruct r; cbn; [apply carries_scale|]. intros <-. by lc_simpl. Qed.
End readings.

#[export] Hint Resolve holds_scalar holds_default holds_one holds_zero holds_add
  holds_sub holds_neg holds_scale : carries.

(** Chains the steps of a run. *)
Ltac grown :=
  solve [repeat first [assumption | apply grows_refl | eapply grows_trans; [eassumption|]]].

(** Moves what holds to the state that the run has reached. *)
Ltac later E :=
  match type of E with
  | grows ?r ?s ?s' =>
      repeat match goal with
      | H : holds r s _ _ |- _ => apply (holds_grows r s s' _ _ E) in H
      | H : Forall2 (holds r s) _ _ |- _ => apply (holds_list_grows r s s' _ _ E) in H
      end
  end.

Ltac bind := apply run_bind; [intros; apply _|].

(** * The gadgets in both readings *)

Section gadgets.
  Context {C : ConstraintSystem} {L : ConstraintSystemLaws C} {P : ProverLaws C}.

(** From a fact of every satisfying assignment to the second reading. *)
Lemma run_any {A} (g : circuit A) (R : assignment -> A -> Prop) w Hw s
    (Q : A -> cs -> Prop -> Prop) :
  sound g R -> (forall a s', R w a -> exists K : Prop, K /\ Q a s' K) -> run (Any w Hw) g s Q.
Proof. intros Hg HQ a s' E Hs. apply HQ. by apply (Hg s a s' E w Hs). Qed.

Lemma run_multiply r a b x y s (Q : _ -> cs -> Prop -> Prop) :
  holds r s a x -> holds r s b y ->
  (forall l r' o s', grows r s s' -> holds r s' (lc_var l) x -> holds r s' (lc_var r') y ->
    holds r s' (lc_var o) (x * y) -> Q (l, r', o) s' True) ->
  run r (multiply a b) s Q.
Proof.
  destruct r as [|w Hw]; [apply carry_multiply|]. cbn [holds grows]. intros <- <- HQ.
  eapply run_any; [apply sound_multiply|]. intros [[l r] o] s' (Hl & Hr & Ho).
  exists True. split; [done|]. apply HQ; [done|by rewrite lc_eval_var..].
Qed.

Lemma run_constrain r a x s (Q : unit -> cs -> Prop -> Prop) :
  holds r s a x -> (forall s' K, grows r s s' -> (K <-> x = 0) -> Q tt s' K) ->
  run r (constrain a) s Q.
Proof.
  destruct r as [|w Hw]; [apply carry_constrain|]. cbn [holds grows]. intros <- HQ.
  eapply run_any; [apply sound_constrain|]. intros [] s' H. exists (lc_eval w a = 0). auto.
Qed.

Lemma run_constrain_sub r a b x y s (Q : unit -> cs -> Prop -> Prop) :
  holds r s a x -> holds r s b y ->
  (forall s' K, grows r s s' -> (K <-> x = y) -> Q tt s' K) ->
  run r (constrain (a - b)%lc) s Q.
Proof.
  intros Ha Hb HQ. eapply run_constrain; [carried|]. intros s' K E HK. apply HQ; [done|].
  by rewrite HK, scalar_sub_zero.
Qed.

Lemma run_or_gate r a b x y s (Q : LinearCombination -> cs -> Prop -> Prop) :
  holds r s a x -> holds r s b y ->
  (forall out s' (K : Prop), K -> grows r s s' -> holds r s' out (x + y - x * y) -> Q out s' K) ->
  run r (or_gate a b) s Q.
Proof.
  destruct r as [|w Hw]; [apply carry_or_gate|]. cbn [holds grows]. intros <- <- HQ.
  eapply run_any; [apply or_gate_sound|]. intros out s' H. exists True. auto.
Qed.

Lemma run_and_gate r a b x y s (Q : R1CSVar -> cs -> Prop -> Prop) :
  holds r s a x -> holds r s b y ->
  (forall out s' (K : Prop), K -> grows r s s' -> holds r s' (lc_var out) (x * y) -> Q out s' K) ->
  run r (and_gate a b) s Q.
Proof.
  destruct r as [|w Hw]; [apply carry_and_gate|]. cbn [holds grows]. intros <- <- HQ.
  eapply run_any; [apply and_gate_sound|]. intros out s' H. exists True.
  split; [done|]. apply HQ; [done..|]. by rewrite lc_eval_var.
Qed.

Lemma run_select r a b sel x y z s (Q : LinearCombination -> cs -> Prop -> Prop) :
  holds r s a x -> holds r s b y -> holds r s sel z ->
  (forall out s' (K : Prop), K -> grows r s s' -> holds r s' out (x * z + y * (1 - z)) ->
    Q out s' K) ->
  run r (select a b sel) s Q.
Proof.
  destruct r as [|w Hw]; [apply carry_select|]. cbn [holds grows]. intros <- <- <- HQ.
  eapply run_any; [apply select_sound|]. intros out s' H. exists True. auto.
Qed.

Lemma run_eq_zero r a x s (Q : R1CSVar -> cs -> Prop -> Prop) :
  holds r s a x ->
  (forall out s' (K : Prop), K -> grows r s s' ->
    holds r s' (lc_var out) (bit_scalar (bool_decide (x = 0))) -> Q out s' K) ->
  run r (eq_zero a) s Q.
Proof.
  destruct r as [|w Hw]; [apply carry_eq_zero|]. cbn [holds grows]. intros <- HQ.
  eapply run_any; [apply eq_zero_sound|]. intros out s' H. exists True.
  split; [done|]. apply HQ; [done..|]. by rewrite lc_eval_var.
Qed.

Lemma run_eq_gadget r a b x y s (Q : R1CSVar -> cs -> Prop -> Prop) :
  holds r s a x -> holds r s b y ->
  (forall out s' (K : Prop), K -> grows r s s' ->
    holds r s' (lc_var out) (bit_scalar (bool_decide (x = y))) -> Q out s' K) ->
  run r (eq_gadget a b) s Q.
Proof.
  destruct r as [|w Hw]; [apply carry_eq_gadget|]. cbn [holds grows]. intros <- <- HQ.
  eapply run_any; [apply eq_gadget_sound|]. intros out s' H. exists True.
  split; [done|]. apply HQ; [done..|]. by rewrite lc_eval_var.
Qed.

Lemma run_not_equal r a b x y s (Q : LinearCombination -> cs -> Prop -> Prop) :
  holds r s a x -> holds r s b y ->
  (forall out s' (K : Prop), K -> grows r s s' ->
    holds r s' out (bit_scalar (bool_decide (x <> y))) -> Q out s' K) ->
  run r (not_equal a b) s Q.
Proof.
  destruct r as [|w Hw]; [apply carry_not_equal|]. cbn [holds grows]. intros <- <- HQ.
  eapply run_any; [apply not_equal_sound|]. intros out s' H. exists True. auto.
Qed.

Lemma run_constrain_greater_than_zero r D a x s (Q : unit -> cs -> Prop -> Prop) :
  (D <= POSITIVE_SCALAR_MAX_BITS)%nat -> holds r s a x ->
  (forall s' (K : Prop), grows r s s' -> (K <-> range_checked r D x) -> Q tt s' K) ->
  run r (constrain_greater_than_zero D a) s Q.
Proof.
  destruct r as [|w Hw]; [apply carry_constrain_greater_than_zero|]. cbn [holds grows].
  intros _ _ HQ a' s' _ _. destruct a'. exists True. auto.
Qed.
End gadgets.

(** * Loops *)

Section loops.
  Context {C : ConstraintSystem} {L : ConstraintSystemLaws C} {P : ProverLaws C}.

(** A loop whose body computes one linear combination per element, and whose
    constraints hold. *)
Lemma run_mapM {A} r (f : A -> circuit LinearCombination) (v : A -> Scalar) l :
  (forall x, Monotone (f x)) ->
  forall s (Q : list LinearCombination -> cs -> Prop -> Prop),
  (forall x s1 (Q' : LinearCombination -> cs -> Prop -> Prop), x ∈ l -> grows r s s1 ->
    (forall out s' (K : Prop), K -> grows r s1 s' -> holds r s' out (v x) -> Q' out s' K) ->
    run r (f x) s1 Q') ->
  (forall outs s' (K : Prop), K -> grows r s s' -> Forall2 (holds r s') outs (v <$> l) ->
    Q outs s' K) ->
  run r (mapM f l) s Q.
Proof.
  intros M. induction l as [|x l IH]; intros s Q Hf HQ; cbn [mapM].
  - apply run_ret, HQ; [done|apply grows_refl|constructor].
  - bind. apply Hf; [apply list_elem_of_here|apply grows_refl|].
    intros out s1 K1 HK1 E1 Ho. bind. apply IH.
    + intros y s2 Q' Hy E2. apply Hf; [by apply list_elem_of_further|grown].
    + intros outs s2 K2 HK2 E2 Houts. apply run_ret, HQ; [done|grown|].
      constructor; [by eapply holds_grows|done].
Qed.

(** A loop that only adds constraints: they hold when those of every element do. *)
Lemma run_forM {A} r (f : unit -> A -> circuit unit) (phi : A -> Prop) l :
  (forall x, Monotone (f tt x)) ->
  forall s (Q : unit -> cs -> Prop -> Prop),
  (forall x s1, x ∈ l -> grows r s s1 -> run r (f tt x) s1 (fun _ _ K => K <-> phi x)) ->
  (forall s' (K : Prop), grows r s s' -> (K <-> Forall phi l) -> Q tt s' K) ->
  run r (foldM f tt l) s Q.
Proof.
  intros M. assert (forall b x, Monotone (f b x)) by (intros []; apply M).
  induction l as [|x l IH]; intros s Q Hf HQ; cbn [foldM].
  - apply run_ret, HQ; [apply grows_refl|]. by rewrite Forall_nil.
  - bind. eapply run_mono; [apply Hf; [apply list_elem_of_here|apply grows_refl]|].
    intros [] s1 K1 E1 HK1. apply IH.
    + intros y s2 Hy E2. apply Hf; [by apply list_elem_of_further|grown].
    + intros s2 K2 E2 HK2. apply HQ; [grown|]. rewrite Forall_cons. tauto.
Qed.

(** A loop that threads a value described by [I] and adds constraints. *)
Lemma run_loop {A B} r (f : B -> A -> circuit B) (I : cs -> list A -> B -> Prop)
    (phi : A -> Prop) l :
  (forall b x, Monotone (f b x)) ->
  forall pre b s (Q : B -> cs -> Prop -> Prop),
  I s pre b ->
  (forall pre x b s1, x ∈ l -> grows r s s1 -> I s1 pre b ->
    run r (f b x) s1 (fun b' s' K => I s' (pre ++ [x]) b' /\ (K <-> phi x))) ->
  (forall b' s' (K : Prop), grows r s s' -> I s' (pre ++ l) b' -> (K <-> Forall phi l) -> Q b' s' K) ->
  run r (foldM f b l) s Q.
Proof.
  intros M. induction l as [|x l IH]; intros pre b s Q Hb Hf HQ; cbn [foldM].
  - apply run_ret, HQ; [apply grows_refl|by rewrite app_nil_r|]. by rewrite Forall_nil.
  - bind. eapply run_mono; [by apply Hf; [apply list_elem_of_here|apply grows_refl|]|].
    intros b1 s1 K1 E1 [Hb1 HK1]. apply (IH (pre ++ [x])); [done| |].
    + intros pre' y b2 s2 Hy E2. apply Hf; [by apply list_elem_of_further|grown].
    + intros b2 s2 K2 E2 Hb2 HK2. rewrite <- app_assoc in Hb2. apply HQ; [grown|done|].
      rewrite Forall_cons. tauto.
Qed.

(** A loop that accumulates a sum and adds no constraint of its own. *)
Lemma run_sum {A} r (f : LinearCombination -> A -> circuit LinearCombination) (v : A -> Scalar) l :
  (forall b x, Monotone (f b x)) ->
  forall acc a s (Q : LinearCombination -> cs -> Prop -> Prop),
  holds r s acc a ->
  (forall x acc a s1 (Q' : LinearCombination -> cs -> Prop -> Prop), x ∈ l -> grows r s s1 ->
    holds r s1 acc a ->
    (forall out s' (K : Prop), K -> grows r s1 s' -> holds r s' out (a + v x) -> Q' out s' K) ->
    run r (f acc x) s1 Q') ->
  (forall out s' (K : Prop), K -> grows r s s' ->
    holds r s' out (a + foldr Zmod.add 0 (v <$> l)) -> Q out s' K) ->
  run r (foldM f acc l) s Q.
Proof.
  intros M. induction l as [|x l IH]; intros acc a s Q Ha Hf HQ; cbn [foldM].
  - apply run_ret, HQ; [done|apply grows_refl|]. cbn. by rewrite Zmod.add_0_r.
  - bind. eapply Hf; [apply list_elem_of_here|apply grows_refl|done|].
    intros out s1 K1 HK1 E1 Ho. eapply IH; [exact Ho| |].
    + intros y acc' a' s2 Q' Hy E2. apply Hf; [by apply list_elem_of_further|grown].
    + intros out' s2 K2 HK2 E2 Ho'. apply HQ; [done|grown|].
      cbn [fmap list_fmap foldr]. by rewrite Zmod.add_assoc.
Qed.

Lemma holds_foldl r s l k acc a :
  holds r s acc a -> Forall2 (holds r s) l k ->
  holds r s (foldl (fun acc x => acc + x)%lc acc l) (a + foldr Zmod.add 0 k).
Proof.
  intros Ha Hl. revert acc a Ha. induction Hl as [|b y l k Hb _ IH]; intros acc a Ha; cbn [foldl foldr].
  - by rewrite Zmod.add_0_r.
  - rewrite Zmod.add_assoc. apply IH. carried.
Qed.
End loops.

(** * Vectors *)

Lemma sum_differences (x y : list Scalar) :
  foldr Zmod.add 0 ((fun '(a, b) => bit_scalar (bool_decide (a <> b))) <$> zip x y) =
  scalar (Z.of_nat (differences x y)).
Proof.
  unfold differences. revert y; induction x as [|a x IH]; intros [|b y]; [done..|].
  cbn [zip zip_with fmap list_fmap foldr]. fold (zip x y). rewrite filter_cons.
  specialize (IH y). rewrite IH, bit_scalar_Z, <- Zmod.of_Z_add. f_equal.
  destruct (decide (a = b)) as [Hab|Hab].
  - rewrite bool_decide_false, decide_False by auto. cbn [Z.b2z]. lia.
  - rewrite bool_decide_true, decide_True by auto. cbn [length Z.b2z]. lia.
Qed.

Lemma fmap_zip {A} (f : A -> Scalar) (a b : list A) (g : Scalar -> Scalar -> Scalar) :
  (fun '(x, y) => g x y) <$> zip (f <$> a) (f <$> b) =
  (fun '(p, q) => g (f p) (f q)) <$> zip a b.
Proof.
  revert b; induction a as [|p a IH]; intros [|q b]; [done..|].
  cbn [zip zip_with fmap list_fmap]. f_equal. apply IH.
Qed.

Lemma Forall_zip_eq {A} (f : A -> Scalar) (a b : list A) : length a = length b ->
  Forall (fun '(p, q) => f p = f q) (zip a b) <-> f <$> a = f <$> b.
Proof.
  revert b; induction a as [|p a IH]; intros [|q b] Hlen; try done.
  cbn [zip zip_with fmap list_fmap]. fold (zip a b). rewrite Forall_cons, IH by (cbn in Hlen; lia).
  split; [by intros [-> ->]|]. intros H. by apply cons_inj in H.
Qed.

Section vectors.
  Context {C : ConstraintSystem} {L : ConstraintSystemLaws C} {P : ProverLaws C}.

(** The value of a linear combination in a reading. *)
Definition val (r : reading) (s : cs) (a : LinearCombination) : Scalar :=
  match r with Honest => value s a | Any w _ => lc_eval w a end.

Lemma holds_val r s a x : holds r s a x -> val r s a = x.
Proof. destruct r; cbn; [by intros [_ ?]|done]. Qed.

Lemma holds_val_list r s l k : Forall2 (holds r s) l k -> val r s <$> l = k.
Proof.
  induction 1 as [|a x l k Ha _ IH]; [done|]. cbn [fmap list_fmap].
  by rewrite (holds_val r s a x Ha), IH.
Qed.

Lemma holds_elem r s l k a : Forall2 (holds r s) l k -> a ∈ l -> holds r s a (val r s a).
Proof.
  induction 1 as [|b x l k Hb _ IH]; [by intros ?%not_elem_of_nil|].
  intros [->|Ha]%elem_of_cons; [|auto]. by rewrite (holds_val r s b x Hb).
Qed.

Lemma holds_zip r s a b x y p q :
  Forall2 (holds r s) a x -> Forall2 (holds r s) b y -> (p, q) ∈ zip a b ->
  holds r s p (val r s p) /\ holds r s q (val r s q).
Proof.
  intros Ha Hb Hin. split.
  - apply (holds_elem r s a x); [done|by eapply elem_of_zip_l].
  - apply (holds_elem r s b y); [done|by eapply elem_of_zip_r].
Qed.

#[export] Instance eq_vec_monotone a b : Monotone (eq_vec a b).
Proof. unfold eq_vec. apply _. Qed.
#[export] Instance constrain_eq_vec_monotone a b : Monotone (constrain_eq_vec a b).
Proof. unfold constrain_eq_vec. apply _. Qed.

Lemma run_eq_vec r a b x y s (Q : R1CSVar -> cs -> Prop -> Prop) :
  length a = length b -> (Z.of_nat (length a) < ristretto_order)%Z ->
  Forall2 (holds r s) a x -> Forall2 (holds r s) b y ->
  (forall out s' (K : Prop), K -> grows r s s' ->
    holds r s' (lc_var out) (bit_scalar (bool_decide (x = y))) -> Q out s' K) ->
  run r (eq_vec a b) s Q.
Proof.
  intros Hlen Hsmall Ha Hb HQ.
  rewrite <- (holds_val_list _ _ _ _ Ha), <- (holds_val_list _ _ _ _ Hb) in HQ.
  bind. apply run_assert; [by apply Nat.eqb_eq|]. bind.
  apply (run_mapM r _ (fun '(p, q) => bit_scalar (bool_decide (val r s p <> val r s q)))).
  { apply _. }
  { intros [p q] s1 Q' Hin E HQ'. destruct (holds_zip r s a b x y p q Ha Hb Hin) as [Hp Hq].
    later E. eapply run_not_equal; [exact Hp|exact Hq|exact HQ']. }
  intros outs s1 K1 HK1 E1 Houts.
  eapply run_eq_zero; [apply holds_foldl; [apply holds_zero|exact Houts]|].
  intros out s2 K2 HK2 E2 Ho. apply HQ; [done|grown|].
  match type of Ho with context [foldr _ _ ?l] => replace l with
    ((fun '(x, y) => bit_scalar (bool_decide (x <> y))) <$>
     zip (val r s <$> a) (val r s <$> b)) in Ho by apply fmap_zip end.
  rewrite Zmod.add_0_l, sum_differences in Ho.
  erewrite bool_decide_ext; [exact Ho|].
  pose proof (differences_le (val r s <$> a) (val r s <$> b)) as Hd. rewrite length_fmap in Hd.
  rewrite scalar_count_zero, differences_zero by (rewrite ?length_fmap; lia). done.
Qed.

Lemma run_constrain_eq_vec r a b x y s (Q : unit -> cs -> Prop -> Prop) :
  length a = length b -> Forall2 (holds r s) a x -> Forall2 (holds r s) b y ->
  (forall s' (K : Prop), grows r s s' -> (K <-> x = y) -> Q tt s' K) ->
  run r (constrain_eq_vec a b) s Q.
Proof.
  intros Hlen Ha Hb HQ.
  rewrite <- (holds_val_list _ _ _ _ Ha), <- (holds_val_list _ _ _ _ Hb) in HQ.
  bind. apply run_assert; [by apply Nat.eqb_eq|].
  apply (run_forM r _ (fun '(p, q) => val r s p = val r s q)).
  { intros [p q]. apply _. }
  { intros [p q] s1 Hin E. destruct (holds_zip r s a b x y p q Ha Hb Hin) as [Hp Hq].
    later E. eapply run_constrain_sub; [done..|]. intros s' K _ HK. exact HK. }
  intros s' K E HK. apply HQ; [done|]. by rewrite HK, (left_id True and), Forall_zip_eq.
Qed.
End vectors.
