(* ===== verification/Statements.v ===== *)
(** What the statements of circuits/src/zk_circuits share: the hashes, the Merkle
    openings and the wallets of a circuit in both readings.

    The relation of a statement is stated on the values of its variables, as a
    function [ev] from linear combinations to scalars.  For a satisfying assignment
    [w] it is [lc_eval w], for the honest prover it is [value s]. *)

From Stdlib Require Import Zmod.
From S2P Require Import Prelude Primality Field ConstraintSystem ListR1CS Gates Comparators.
From S2P Require Import Arithmetic FixedPoint PoseidonConstants Poseidon Types Merkle.
From S2P Require Import Commitments Readings.

#[local] Open Scope Zmod_scope.
#[local] Open Scope circuit_scope.

Section hashes.
  Context {C : ConstraintSystem} {L : ConstraintSystemLaws C} {P : ProverLaws C}.

#[export] Instance leaf_hash_monotone l : Monotone (leaf_hash l).
Proof. eapply sound_monotone, leaf_hash_sound. Qed.

Lemma run_leaf_hash r l x s (Q : LinearCombination -> cs -> Prop -> Prop) :
  Forall2 (holds r s) l x ->
  (forall out s' (K : Prop), K -> grows r s s' ->
    holds r s' out (Native.sponge default_params x) -> Q out s' K) ->
  run r (leaf_hash l) s Q.
Proof.
  intros Hl HQ. rewrite <- (holds_val_list _ _ _ _ Hl) in HQ. destruct r as [|w Hw].
  - apply wp_leaf_hash; [by eapply carries_scoped_list|]. intros out s' K HK E Ho V.
    apply HQ; [done..|]. split; [done|]. rewrite V, (extends_value_list s s'); [done..|].
    by eapply carries_scoped_list.
  - eapply run_any; [apply leaf_hash_sound|]. intros out s' H. exists True.
    split; [done|]. by apply HQ.
Qed.

#[export] Instance wallet_commit_monotone w : Monotone (wallet_commit w).
Proof. eapply sound_monotone, wallet_commit_sound. Qed.

Lemma run_wallet_commit r w x s (Q : LinearCombination -> cs -> Prop -> Prop) :
  Forall2 (holds r s) (wallet_lcs w) x ->
  (forall out s' (K : Prop), K -> grows r s s' ->
    holds r s' out (Native.sponge default_params x) -> Q out s' K) ->
  run r (wallet_commit w) s Q.
Proof.
  intros Hl HQ. eapply run_ext; [apply wallet_commit_digest|]. by eapply run_leaf_hash.
Qed.

#[export] Instance spend_nullifier_monotone a b : Monotone (spend_nullifier a b).
Proof. apply (leaf_hash_monotone [b; lc_var a]). Qed.
#[export] Instance match_nullifier_monotone a b : Monotone (match_nullifier a b).
Proof. apply (leaf_hash_monotone [b; (lc_var a + lc_scalar 1)%lc]). Qed.
#[export] Instance note_redeem_nullifier_monotone a b : Monotone (note_redeem_nullifier a b).
Proof. apply (leaf_hash_monotone [b; lc_var a]). Qed.

Lemma run_spend_nullifier r a b x y s (Q : LinearCombination -> cs -> Prop -> Prop) :
  holds r s (lc_var a) x -> holds r s b y ->
  (forall out s' (K : Prop), K -> grows r s s' ->
    holds r s' out (Native.sponge default_params [y; x]) -> Q out s' K) ->
  run r (spend_nullifier a b) s Q.
Proof. intros Ha Hb. apply (run_leaf_hash r [b; lc_var a]). carried. Qed.

Lemma run_match_nullifier r a b x y s (Q : LinearCombination -> cs -> Prop -> Prop) :
  holds r s (lc_var a) x -> holds r s b y ->
  (forall out s' (K : Prop), K -> grows r s s' ->
    holds r s' out (Native.sponge default_params [y; x + 1]) -> Q out s' K) ->
  run r (match_nullifier a b) s Q.
Proof. intros Ha Hb. apply (run_leaf_hash r [b; (lc_var a + lc_scalar 1)%lc]). carried. Qed.

Lemma run_note_redeem_nullifier r a b x y s (Q : LinearCombination -> cs -> Prop -> Prop) :
  holds r s (lc_var a) x -> holds r s b y ->
  (forall out s' (K : Prop), K -> grows r s s' ->
    holds r s' out (Native.sponge default_params [y; x]) -> Q out s' K) ->
  run r (note_redeem_nullifier a b) s Q.
Proof. intros Ha Hb. apply (run_leaf_hash r [b; lc_var a]). carried. Qed.

#[export] Instance note_commit_monotone n k : Monotone (note_commit n k).
Proof. apply (leaf_hash_monotone (note_lcs n ++ [lc_var k])). Qed.

Lemma run_note_commit r n k x s (Q : LinearCombination -> cs -> Prop -> Prop) :
  Forall2 (holds r s) (note_lcs n ++ [lc_var k]) x ->
  (forall out s' (K : Prop), K -> grows r s s' ->
    holds r s' out (Native.sponge default_params x) -> Q out s' K) ->
  run r (note_commit n k) s Q.
Proof. apply (run_leaf_hash r (note_lcs n ++ [lc_var k])). Qed.
End hashes.

(** * Known values *)

Abbreviation hash_argument := (PoseidonHashGadget.hash default_params
  (PoseidonHashGadget.new default_params)).

Section known.
  Context {C : ConstraintSystem} {L : ConstraintSystemLaws C} {P : ProverLaws C}.

Definition known (r : reading) (s : cs) (ev : LinearCombination -> Scalar) (a : LinearCombination)
    : Prop := holds r s a (ev a).

Lemma known_grows r s s' ev a : grows r s s' -> known r s ev a -> known r s' ev a.
Proof. apply holds_grows. Qed.

Lemma known_list_grows r s s' ev l :
  grows r s s' -> Forall (known r s ev) l -> Forall (known r s' ev) l.
Proof. intros E H. eapply Forall_impl; [exact H|]. intros. by eapply known_grows. Qed.

Lemma known_holds r s ev l : Forall (known r s ev) l -> Forall2 (holds r s) l (ev <$> l).
Proof. induction 1; cbn [fmap list_fmap]; constructor; done. Qed.

Lemma known_subset r s ev l k : Forall (known r s ev) l -> k ⊆ l -> Forall (known r s ev) k.
Proof. rewrite !Forall_forall. auto. Qed.

Lemma known_elem r s ev l a : Forall (known r s ev) l -> a ∈ l -> holds r s a (ev a).
Proof. rewrite Forall_forall. intros H. apply H. Qed.

Lemma known_honest s l : Forall (lc_scoped s) l -> Forall (known Honest s (value s)) l.
Proof. intros H. eapply Forall_impl; [exact H|]. by intros. Qed.

Lemma known_any w Hw s l : Forall (known (Any w Hw) s (lc_eval w)) l.
Proof. by apply Forall_forall. Qed.

(** ** Merkle openings *)

(** The variables of an opening that a circuit uses. *)
Definition opening_lcs (o : MerkleOpeningVar) : list LinearCombination :=
  concat ((fun '(e, i) => [lc_var e; lc_var i]) <$> zip (mo_elems o) (mo_indices o)).

Definition path_of (ev : LinearCombination -> Scalar) (o : MerkleOpeningVar)
    : list (Scalar * Scalar) := path_values (fun v => ev (lc_var v)) o.

#[export] Instance compute_and_constrain_root_prehashed_monotone leaf o root :
  Monotone (compute_and_constrain_root_prehashed leaf o root).
Proof.
  unfold compute_and_constrain_root_prehashed. apply bind_monotone; [|apply _].
  eapply sound_monotone, compute_root_prehashed_sound.
Qed.

Lemma opening_known_scoped s ev o : Forall (known Honest s ev) (opening_lcs o) ->
  opening_scoped s o /\ path_values (var_value s) o = path_of ev o.
Proof.
  unfold opening_lcs, opening_scoped, path_of, path_values, var_value.
  induction (zip _ _) as [|[e i] l IH]; intros H; cbn [fmap list_fmap concat] in *; [done|].
  apply Forall_cons in H as [[He Ve] [[Hi Vi] H]%Forall_cons]. destruct (IH H) as [Hs Hv].
  split; [by constructor|]. by rewrite Ve, Vi, Hv.
Qed.

Lemma path_values_any w o : path_values w o = path_of (lc_eval w) o.
Proof.
  unfold path_of, path_values. apply list_fmap_ext. intros k [e i] _. by rewrite !lc_eval_var.
Qed.

Lemma run_merkle r leaf o root x y ev s (Q : unit -> cs -> Prop -> Prop) :
  holds r s leaf x -> Forall (known r s ev) (opening_lcs o) -> holds r s root y ->
  (forall s' (K : Prop), grows r s s' -> (K <-> y = root_of x (path_of ev o)) -> Q tt s' K) ->
  run r (compute_and_constrain_root_prehashed leaf o root) s Q.
Proof.
  destruct r as [|w Hw]; cbn [holds grows run].
  - intros [Hl <-] Ho [Hr <-] HQ. destruct (opening_known_scoped s ev o Ho) as [Hs Hp].
    apply wp_compute_and_constrain_root_prehashed; [done..|]. intros s' K E HK.
    apply HQ; [done|]. rewrite (path_values_extends s s') in HK by done. rewrite Hp in HK.
    rewrite !(extends_value s s') in HK by done. done.
  - intros <- Ho <- HQ.
    assert (path_of ev o = path_values w o) as Hp.
    { clear -Ho. unfold opening_lcs in Ho. unfold path_of, path_values.
      induction (zip _ _) as [|[e i] l IH]; cbn [fmap list_fmap concat] in *; [done|].
      apply Forall_cons in Ho as [He [Hi Ho]%Forall_cons]. rewrite IH by done.
      unfold known, holds in He, Hi. rewrite lc_eval_var in He, Hi. by rewrite He, Hi. }
    rewrite Hp in HQ. unfold compute_and_constrain_root_prehashed.
    apply (run_any _ (fun w _ => lc_eval w root = root_of (lc_eval w leaf) (path_values w o)) w Hw).
    + eapply sound_bind; [apply compute_root_prehashed_sound|]. intros out.
      eapply sound_weaken; [apply sound_constrain|]. intros w' [] _ Hc Hout.
      rewrite lc_eval_sub, Hout in Hc. by apply scalar_sub_zero.
    + intros [] s' H. eexists. split; [exact H|]. by apply HQ.
Qed.

(** ** Pre-images *)

(** The squeezed element and the hasher of a new sponge. *)
Definition digest (l : list LinearCombination)
    : circuit (LinearCombination * hasher LinearCombination) :=
  let! h := PoseidonHashGadget.batch_absorb default_params
    (PoseidonHashGadget.new default_params) l in
  PoseidonHashGadget.squeeze default_params h.

Lemma statement_digest_sound l :
  sound (digest l) (fun w '(out, _) => lc_eval w out = Native.sponge default_params (lc_eval w <$> l)).
Proof.
  eapply sound_weaken; [apply Refinement.digest_sound, default_params_ok|].
  intros w [out h] _ ->. apply native_hash_sponge, default_params_ok.
Qed.

#[export] Instance digest_monotone l : Monotone (digest l).
Proof. eapply sound_monotone, statement_digest_sound. Qed.

Lemma run_digest r l x s (Q : _ -> cs -> Prop -> Prop) :
  Forall2 (holds r s) l x ->
  (forall out h s' (K : Prop), K -> grows r s s' ->
    holds r s' out (Native.sponge default_params x) -> Q (out, h) s' K) ->
  run r (digest l) s Q.
Proof.
  intros Hl HQ. rewrite <- (holds_val_list _ _ _ _ Hl) in HQ. destruct r as [|w Hw].
  - apply (Refinement.wp_digest _ default_params_ok); [by eapply carries_scoped_list|].
    intros out h s' K HK E Ho _ _ _ _ V. apply HQ; [done..|]. split; [done|].
    rewrite V, native_hash_sponge, (extends_value_list s s'); [done..| |apply default_params_ok].
    by eapply carries_scoped_list.
  - eapply run_any; [apply statement_digest_sound|]. intros [out h] s' H. exists True.
    split; [done|]. by apply HQ.
Qed.

Lemma hash_argument_digest l expected s :
  hash_argument l expected s =
  (let! (out, h) := digest l in constrain (out - expected)%lc ;; c_ret h) s.
Proof. symmetry. apply c_bind_assoc. Qed.

#[export] Instance hash_argument_monotone l expected : Monotone (hash_argument l expected).
Proof.
  intros s a s' w E. rewrite hash_argument_digest in E. revert E. apply monotone.
Qed.

Lemma run_hash_argument r l expected x y s (Q : _ -> cs -> Prop -> Prop) :
  Forall2 (holds r s) l x -> holds r s expected y ->
  (forall h s' (K : Prop), grows r s s' -> (K <-> y = Native.sponge default_params x) -> Q h s' K) ->
  run r (hash_argument l expected) s Q.
Proof.
  intros Hl He HQ. eapply run_ext; [apply hash_argument_digest|]. bind.
  eapply run_digest; [done|]. intros out h s1 K1 HK1 E1 Ho. later E1. bind.
  eapply run_constrain_sub; [done..|]. intros s2 K2 E2 HK2. apply run_ret, HQ; [grown|].
  rewrite HK2. split; [by intros (_ & -> & _)|]. by intros ->.
Qed.
End known.

(** * Wallets *)

Section wallets.
  Context {C : ConstraintSystem} {L : ConstraintSystemLaws C} {P : ProverLaws C}.

(** All variables of a wallet. *)
Definition wallet_vars (w : WalletVar) : list LinearCombination :=
  concat (balance_lcs <$> wv_balances w) ++ concat (order_lcs <$> wv_orders w) ++
  concat (fee_lcs <$> wv_fees w) ++ keychain_lcs (wv_keys w) ++ [lc_var (wv_randomness w)].

Lemma known_concat {A} r s ev (f : A -> list LinearCombination) l x :
  Forall (known r s ev) (concat (f <$> l)) -> x ∈ l -> Forall (known r s ev) (f x).
Proof.
  intros H Hx. induction l as [|y l IH]; [by apply not_elem_of_nil in Hx|].
  cbn [fmap list_fmap concat] in H. apply Forall_app in H as [Hy H].
  apply elem_of_cons in Hx as [->|Hx]; auto.
Qed.

Record wallet_known (r : reading) (s : cs) (ev : LinearCombination -> Scalar) (w : WalletVar)
    : Prop := {
  wk_balances b : b ∈ wv_balances w -> Forall (known r s ev) (balance_lcs b);
  wk_orders o : o ∈ wv_orders w -> Forall (known r s ev) (order_lcs o);
  wk_fees f : f ∈ wv_fees w -> Forall (known r s ev) (fee_lcs f);
  wk_keys : Forall (known r s ev) (keychain_lcs (wv_keys w));
  wk_randomness : known r s ev (lc_var (wv_randomness w));
}.

Lemma wallet_known_vars r s ev w : Forall (known r s ev) (wallet_vars w) -> wallet_known r s ev w.
Proof.
  unfold wallet_vars. rewrite !Forall_app. intros (Hb & Ho & Hf & Hk & Hr).
  rewrite Forall_singleton in Hr. constructor; eauto using known_concat.
Qed.

Lemma wallet_known_grows r s s' ev w :
  grows r s s' -> wallet_known r s ev w -> wallet_known r s' ev w.
Proof. intros E []. constructor; eauto using known_list_grows, known_grows. Qed.

Lemma concat_known {A} r s ev (f : A -> list LinearCombination) l :
  (forall x, x ∈ l -> Forall (known r s ev) (f x)) -> Forall (known r s ev) (concat (f <$> l)).
Proof.
  intros H. induction l as [|x l IH]; cbn [fmap list_fmap concat]; [constructor|].
  apply Forall_app. split; [apply H, list_elem_of_here|].
  apply IH. intros y Hy. by apply H, list_elem_of_further.
Qed.

Lemma known_wallet_lcs r s ev w : wallet_known r s ev w ->
  Forall2 (holds r s) (wallet_lcs w) (ev <$> wallet_lcs w).
Proof.
  intros [Hb Ho Hf Hk Hr]. apply known_holds. unfold wallet_lcs. rewrite !Forall_app.
  split_and!; [by apply concat_known| |by apply concat_known|done|by repeat constructor].
  apply concat_known. intros o Hin. specialize (Ho o Hin). unfold order_lcs in Ho.
  repeat (apply Forall_cons in Ho as [? Ho]). by repeat constructor.
Qed.

(** The commitment to a wallet on values. *)
Definition wallet_hash (ev : LinearCombination -> Scalar) (w : WalletVar) : Scalar :=
  Native.sponge default_params (ev <$> wallet_lcs w).

Lemma run_wallet_hash r ev w s (Q : LinearCombination -> cs -> Prop -> Prop) :
  wallet_known r s ev w ->
  (forall out s' (K : Prop), K -> grows r s s' -> holds r s' out (wallet_hash ev w) -> Q out s' K) ->
  run r (wallet_commit w) s Q.
Proof. intros Hw. apply run_wallet_commit. by apply known_wallet_lcs. Qed.
End wallets.

(** Names the variables of a list that is known. *)
Ltac known_split H := repeat (let H1 := fresh H in apply Forall_cons in H as [H1 H]); clear H.

(** Moves what is known to the state that the run has reached. *)
Ltac later_known E :=
  match type of E with
  | grows ?r ?s ?s' =>
      repeat match goal with
      | H : known r s ?ev _ |- _ => apply (known_grows r s s' ev _ E) in H
      | H : Forall (known r s ?ev) _ |- _ => apply (known_list_grows r s s' ev _ E) in H
      | H : wallet_known r s ?ev _ |- _ => apply (wallet_known_grows r s s' ev _ E) in H
      end
  end; later E.

#[export] Hint Extern 1 (holds _ _ ?a ?x) =>
  match goal with H : known _ _ ?ev a |- _ => exact H end : carries.

(** * Arithmetic of flags *)

Lemma bit_mul (p : bool) (x : Scalar) : bit_scalar p * x = if p then x else 0.
Proof. destruct p; cbn [bit_scalar]; ring. Qed.

Lemma bit_mul_decide (Q : Prop) {D : Decision Q} (x : Scalar) :
  bit_scalar (bool_decide Q) * x = if decide Q then x else 0.
Proof. rewrite bit_mul. by rewrite decide_bool_decide. Qed.

Lemma or_count (p : bool) (n : nat) : (Z.of_nat n < ristretto_order)%Z ->
  1 - (bit_scalar p + scalar (Z.of_nat n) - bit_scalar p * scalar (Z.of_nat n)) = 0 <->
  p = true \/ n = 1%nat.
Proof.
  intros Hn. destruct p; cbn [bit_scalar].
  - split; [auto|]. intros _. ring.
  - split.
    + intros H%scalar_sub_eq. right.
      assert (scalar (Z.of_nat n) = scalar 1) as H1 by (etransitivity; [|symmetry; exact H]; ring).
      apply (f_equal Zmod.to_Z) in H1. rewrite to_Z_small, (to_Z_small 1) in H1 by (done || lia). lia.
    + intros [?| ->]; [done|]. change (scalar (Z.of_nat 1)) with (1 : Scalar). ring.
Qed.

Lemma bit_and (p q : bool) : bit_scalar p * bit_scalar q = bit_scalar (p && q).
Proof. destruct p, q; cbn [bit_scalar andb]; ring. Qed.

Lemma bit_not (p : bool) : 1 - bit_scalar p = bit_scalar (negb p).
Proof. destruct p; cbn [bit_scalar negb]; ring. Qed.

Lemma bit_or (p q : bool) :
  bit_scalar p + bit_scalar q - bit_scalar p * bit_scalar q = bit_scalar (p || q).
Proof. destruct p, q; cbn [bit_scalar orb]; ring. Qed.

Lemma bit_zero (p : bool) : bit_scalar p = 0 <-> p = false.
Proof. split; [apply (bit_scalar_inj p false)|by intros ->]. Qed.

Lemma or_flags (p q : bool) :
  1 - (bit_scalar p + bit_scalar q - bit_scalar p * bit_scalar q) = 0 <-> p = true \/ q = true.
Proof. rewrite bit_or, bit_not, bit_zero. destruct p, q; naive_solver. Qed.

(** * A wallet of the concrete system, for witnesses *)

Definition wire (n : nat) : @R1CSVar list_cs := Wire n.

Definition wire_price (n : nat) : @FixedPointVar.FixedPointVar list_cs :=
  {| FixedPointVar.repr := lc_var (wire n) |}.

Definition sample_order_var (n : nat) : @OrderVar list_cs := {|
  ov_quote_mint := wire n; ov_base_mint := wire (n + 1); ov_side := wire (n + 2);
  ov_price := wire_price (n + 3); ov_amount := wire (n + 4); ov_timestamp := wire (n + 5) |}.

Definition sample_fee_var (n : nat) : @FeeVar list_cs := {|
  fv_settle_key := wire n; fv_gas_addr := wire (n + 1); fv_gas_token_amount := wire (n + 2);
  fv_percentage_fee := wire_price (n + 3) |}.

Definition sample_balance_var (n : nat) : @BalanceVar list_cs :=
  {| bv_mint := wire n; bv_amount := wire (n + 1) |}.

(** Two balances, an order, a fee, the keys and the randomness: 19 wires. *)
Definition sample_wallet_var (n : nat) : @WalletVar list_cs := {|
  wv_balances := [sample_balance_var n; sample_balance_var (n + 2)];
  wv_orders := [sample_order_var (n + 4)];
  wv_fees := [sample_fee_var (n + 10)];
  wv_keys := {| kv_pk_root := wire (n + 14); kv_pk_match := wire (n + 15);
                kv_pk_settle := wire (n + 16); kv_pk_view := wire (n + 17) |};
  wv_randomness := wire (n + 18) |}.

Definition sample_opening_var (n : nat) : @MerkleOpeningVar list_cs :=
  {| mo_elems := [wire n]; mo_indices := [wire (n + 1)] |}.

Lemma wires_scoped l ns : forallb (fun n => n <? length l)%nat ns = true ->
  Forall (lc_scoped (with_values l)) ((fun n => lc_var (wire n)) <$> ns).
Proof.
  rewrite forallb_forall, Forall_fmap, Forall_forall. intros H n Hn.
  apply with_values_scoped, H. by apply list_elem_of_In.
Qed.
