(* ===== verification/ValidMatchEncryption.v ===== *)
(** The statement VALID MATCH ENCRYPTION: circuits/src/zk_circuits/valid_match_encryption.rs.

    The five notes that settle a match have the volumes that the match and the fees give them, their
    commitments are public, and what their owners do not know yet is encrypted under their keys. *)

From Stdlib Require Import Zmod.
From S2P Require Import Prelude Primality Field ConstraintSystem ListR1CS Gates Comparators.
From S2P Require Import Arithmetic FixedPoint PoseidonConstants Poseidon Types MatchTypes Merkle.
From S2P Require Import Commitments ElGamal Readings Statements.

#[local] Open Scope Zmod_scope.
#[local] Open Scope circuit_scope.

(** * The circuit *)

Section circuit.
  Context {C : ConstraintSystem}.

Record ValidMatchEncryptionWitnessVar := {
  xw_match_res : MatchResultVar;
  xw_party0_fee : FeeVar;
  xw_party1_fee : FeeVar;
  xw_party0_randomness_hash : R1CSVar;
  xw_party1_randomness_hash : R1CSVar;
  xw_party0_note : NoteVar;
  xw_party1_note : NoteVar;
  xw_relayer0_note : NoteVar;
  xw_relayer1_note : NoteVar;
  xw_protocol_note : NoteVar;
  xw_elgamal_randomness : list R1CSVar;
}.

Record ValidMatchEncryptionStatementVar := {
  xs_party0_note_commit : R1CSVar;
  xs_party1_note_commit : R1CSVar;
  xs_relayer0_note_commit : R1CSVar;
  xs_relayer1_note_commit : R1CSVar;
  xs_protocol_note_commit : R1CSVar;
  xs_pk_settle_party0 : R1CSVar;
  xs_pk_settle_party1 : R1CSVar;
  xs_pk_settle_relayer0 : R1CSVar;
  xs_pk_settle_relayer1 : R1CSVar;
  xs_pk_settle_protocol : R1CSVar;
  xs_protocol_fee : FixedPointVar.FixedPointVar;
  xs_volume1_ciphertext1 : ElGamalCiphertextVar;
  xs_volume2_ciphertext1 : ElGamalCiphertextVar;
  xs_volume1_ciphertext2 : ElGamalCiphertextVar;
  xs_volume2_ciphertext2 : ElGamalCiphertextVar;
  xs_mint1_protocol_ciphertext : ElGamalCiphertextVar;
  xs_volume1_protocol_ciphertext : ElGamalCiphertextVar;
  xs_mint2_protocol_ciphertext : ElGamalCiphertextVar;
  xs_volume2_protocol_ciphertext : ElGamalCiphertextVar;
  xs_randomness_protocol_ciphertext : ElGamalCiphertextVar;
}.

(** One block of [check_encryptions] *)
Definition check_encryption (SCALAR_BITS : nat) (witness : ValidMatchEncryptionWitnessVar) (i : nat)
    (plaintext pub_key : R1CSVar) (ciphertext : ElGamalCiphertextVar) : circuit unit :=
  let! randomness := c_get (xw_elgamal_randomness witness !! i) in
  let! expected_ciphertext := encrypt SCALAR_BITS DEFAULT_ELGAMAL_GENERATOR (lc_var randomness)
    (lc_var plaintext) (lc_var pub_key) in
  constrain (expected_ciphertext.1 - lc_var (cv_partial_shared_secret ciphertext))%lc ;;
  constrain (expected_ciphertext.2 - lc_var (cv_encrypted_message ciphertext))%lc.

(** [check_encryptions] *)
Definition check_encryptions (SCALAR_BITS : nat) (witness : ValidMatchEncryptionWitnessVar)
    (statement : ValidMatchEncryptionStatementVar) : circuit unit :=
  let check := check_encryption SCALAR_BITS witness in
  let protocol_note := xw_protocol_note witness in
  let pk_protocol := xs_pk_settle_protocol statement in
  check 0%nat (nv_volume1 (xw_party0_note witness)) (xs_pk_settle_party0 statement)
    (xs_volume1_ciphertext1 statement) ;;
  check 1%nat (nv_volume2 (xw_party0_note witness)) (xs_pk_settle_party0 statement)
    (xs_volume2_ciphertext1 statement) ;;
  check 2%nat (nv_volume1 (xw_party1_note witness)) (xs_pk_settle_party1 statement)
    (xs_volume1_ciphertext2 statement) ;;
  check 3%nat (nv_volume2 (xw_party1_note witness)) (xs_pk_settle_party1 statement)
    (xs_volume2_ciphertext2 statement) ;;
  check 4%nat (nv_mint1 protocol_note) pk_protocol (xs_mint1_protocol_ciphertext statement) ;;
  check 5%nat (nv_volume1 protocol_note) pk_protocol (xs_volume1_protocol_ciphertext statement) ;;
  check 6%nat (nv_mint2 protocol_note) pk_protocol (xs_mint2_protocol_ciphertext statement) ;;
  check 7%nat (nv_volume2 protocol_note) pk_protocol (xs_volume2_protocol_ciphertext statement) ;;
  check 8%nat (nv_randomness protocol_note) pk_protocol (xs_randomness_protocol_ciphertext statement).

(** [fp.mul_integer(amount, cs).floor(cs)] *)
Definition floor_of (fp : FixedPointVar.FixedPointVar) (amount : R1CSVar) : circuit R1CSVar :=
  let! product := FixedPointVar.mul_integer fp (lc_var amount) in
  FixedPointVar.floor product.

(** [Variable::One() - percentage_fee - protocol_fee] *)
Definition net_fraction (fee : FeeVar) (statement : ValidMatchEncryptionStatementVar)
    : FixedPointVar.FixedPointVar :=
  FixedPointVar.sub (FixedPointVar.variable_sub VarOne (fv_percentage_fee fee)) (xs_protocol_fee statement).

(** The sum of the eight booleans, compared with their number *)
Definition all_of_eight (c1 c2 c3 c4 c5 c6 c7 c8 : R1CSVar) : circuit R1CSVar :=
  eq_gadget (lc_var c1 + lc_var c2 + lc_var c3 + lc_var c4 + lc_var c5 + lc_var c6 + lc_var c7 + lc_var c8)%lc
    (scalar 8 *! VarOne)%lc.

(** [party0_buy_base_constraints_satisfied] *)
Definition party0_buy_base_constraints_satisfied (witness : ValidMatchEncryptionWitnessVar)
    (statement : ValidMatchEncryptionStatementVar) : circuit R1CSVar :=
  let base_amount := mv_base_amount (xw_match_res witness) in
  let quote_amount := mv_quote_amount (xw_match_res witness) in
  let! party0_base_expected := floor_of (net_fraction (xw_party0_fee witness) statement) base_amount in
  let! p0_mint1_constraint :=
    eq_gadget (lc_var (nv_volume1 (xw_party0_note witness))) (lc_var party0_base_expected) in
  let! p0_mint2_constraint := eq_gadget (lc_var (nv_volume2 (xw_party0_note witness))) (lc_var quote_amount) in
  let! p1_mint1_constraint := eq_gadget (lc_var (nv_volume1 (xw_party1_note witness))) (lc_var base_amount) in
  let! party1_quote_expected := floor_of (net_fraction (xw_party1_fee witness) statement) quote_amount in
  let! p1_mint2_constraint :=
    eq_gadget (lc_var (nv_volume2 (xw_party1_note witness))) (lc_var party1_quote_expected) in
  let! relayer0_mint1_expected := floor_of (fv_percentage_fee (xw_party0_fee witness)) base_amount in
  let! relayer0_mint1_constraint :=
    eq_gadget (lc_var (nv_volume1 (xw_relayer0_note witness))) (lc_var relayer0_mint1_expected) in
  let! relayer0_mint2_constraint := eq_gadget (lc_var (nv_volume2 (xw_relayer0_note witness))) (lc_var VarZero) in
  let! relayer1_mint1_constraint := eq_gadget (lc_var (nv_volume1 (xw_relayer1_note witness))) (lc_var VarZero) in
  let! relayer1_mint2_expected := floor_of (fv_percentage_fee (xw_party1_fee witness)) quote_amount in
  let! relayer1_mint2_constraint :=
    eq_gadget (lc_var (nv_volume2 (xw_relayer1_note witness))) (lc_var relayer1_mint2_expected) in
  all_of_eight p0_mint1_constraint p0_mint2_constraint p1_mint1_constraint p1_mint2_constraint
    relayer0_mint1_constraint relayer0_mint2_constraint relayer1_mint1_constraint relayer1_mint2_constraint.

(** [party1_buy_base_constraints_satisfied] *)
Definition party1_buy_base_constraints_satisfied (witness : ValidMatchEncryptionWitnessVar)
    (statement : ValidMatchEncryptionStatementVar) : circuit R1CSVar :=
  let base_amount := mv_base_amount (xw_match_res witness) in
  let quote_amount := mv_quote_amount (xw_match_res witness) in
  let! p0_mint1_constraint := eq_gadget (lc_var (nv_volume1 (xw_party0_note witness))) (lc_var base_amount) in
  let! party0_quote_expected := floor_of (net_fraction (xw_party0_fee witness) statement) quote_amount in
  let! p0_mint2_constraint :=
    eq_gadget (lc_var (nv_volume2 (xw_party0_note witness))) (lc_var party0_quote_expected) in
  let! party1_base_expected := floor_of (net_fraction (xw_party1_fee witness) statement) base_amount in
  let! p1_mint1_constraint :=
    eq_gadget (lc_var (nv_volume1 (xw_party1_note witness))) (lc_var party1_base_expected) in
  let! p1_mint2_constraint := eq_gadget (lc_var (nv_volume2 (xw_party1_note witness))) (lc_var quote_amount) in
  let! relayer0_mint1_constraint := eq_gadget (lc_var (nv_volume1 (xw_relayer0_note witness))) (lc_var VarZero) in
  let! relayer0_mint2_expected := floor_of (fv_percentage_fee (xw_party0_fee witness)) quote_amount in
  let! relayer0_mint2_constraint :=
    eq_gadget (lc_var (nv_volume2 (xw_relayer0_note witness))) (lc_var relayer0_mint2_expected) in
  let! relayer1_mint1_expected := floor_of (fv_percentage_fee (xw_party1_fee witness)) base_amount in
  let! relayer1_mint1_constraint :=
    eq_gadget (lc_var (nv_volume1 (xw_relayer1_note witness))) (lc_var relayer1_mint1_expected) in
  let! relayer1_mint2_constraint := eq_gadget (lc_var (nv_volume2 (xw_relayer1_note witness))) (lc_var VarZero) in
  all_of_eight p0_mint1_constraint p0_mint2_constraint p1_mint1_constraint p1_mint2_constraint
    relayer0_mint1_constraint relayer0_mint2_constraint relayer1_mint1_constraint relayer1_mint2_constraint.

(** [cs.constrain] on one linear combination after the other *)
Definition constrain_all (lcs : list LinearCombination) : circuit unit :=
  foldM (fun _ lc => constrain lc) tt lcs.

(** The constraints of [validate_notes] on mints, directions, fees, types and randomness *)
Definition note_constraints (witness : ValidMatchEncryptionWitnessVar) : list LinearCombination :=
  let m := xw_match_res witness in
  let p0 := xw_party0_note witness in
  let p1 := xw_party1_note witness in
  let r0 := xw_relayer0_note witness in
  let r1 := xw_relayer1_note witness in
  let pr := xw_protocol_note witness in
  let f0 := xw_party0_fee witness in
  let f1 := xw_party1_fee witness in
  let h0 := xw_party0_randomness_hash witness in
  let h1 := xw_party1_randomness_hash witness in
  [ (lc_var (mv_base_mint m) - lc_var (nv_mint1 p0))%lc;
    (lc_var (mv_base_mint m) - lc_var (nv_mint1 p1))%lc;
    (lc_var (mv_base_mint m) - lc_var (nv_mint1 r0))%lc;
    (lc_var (mv_base_mint m) - lc_var (nv_mint1 r1))%lc;
    (lc_var (mv_base_mint m) - lc_var (nv_mint1 pr))%lc;
    (lc_var (mv_quote_mint m) - lc_var (nv_mint2 p0))%lc;
    (lc_var (mv_quote_mint m) - lc_var (nv_mint2 p1))%lc;
    (lc_var (mv_quote_mint m) - lc_var (nv_mint2 r0))%lc;
    (lc_var (mv_quote_mint m) - lc_var (nv_mint2 r1))%lc;
    (lc_var (mv_quote_mint m) - lc_var (nv_mint2 pr))%lc;
    (lc_var (nv_direction1 p0) - lc_var (mv_direction m))%lc;
    (lc_var (nv_direction1 p1) - lc_var VarOne + lc_var (mv_direction m))%lc;
    lc_var (nv_direction1 r0); lc_var (nv_direction1 r1); lc_var (nv_direction1 pr);
    (lc_var (nv_direction2 p0) - lc_var VarOne + lc_var (mv_direction m))%lc;
    (lc_var (nv_direction2 p1) - lc_var (mv_direction m))%lc;
    lc_var (nv_direction2 r0); lc_var (nv_direction2 r1); lc_var (nv_direction2 pr);
    (lc_var (nv_fee_mint p0) - lc_var (fv_gas_addr f0))%lc;
    (lc_var (nv_fee_mint p1) - lc_var (fv_gas_addr f1))%lc;
    (lc_var (nv_fee_mint r0) - lc_var (fv_gas_addr f0))%lc;
    (lc_var (nv_fee_mint r1) - lc_var (fv_gas_addr f1))%lc;
    lc_var (nv_fee_mint pr);
    (lc_var (nv_fee_volume p0) - lc_var (fv_gas_token_amount f0))%lc;
    (lc_var (nv_fee_volume p1) - lc_var (fv_gas_token_amount f1))%lc;
    (lc_var (nv_fee_volume r0) - lc_var (fv_gas_token_amount f0))%lc;
    (lc_var (nv_fee_volume r1) - lc_var (fv_gas_token_amount f1))%lc;
    lc_var (nv_fee_volume pr);
    (lc_var (nv_fee_direction p0) - lc_var VarOne)%lc;
    (lc_var (nv_fee_direction p1) - lc_var VarOne)%lc;
    lc_var (nv_fee_direction r0); lc_var (nv_fee_direction r1); lc_var (nv_fee_direction pr);
    (lc_var (nv_type p0) - lc_var VarOne)%lc;
    (lc_var (nv_type p1) - lc_var VarOne)%lc;
    lc_var (nv_type r0); lc_var (nv_type r1); lc_var (nv_type pr);
    (lc_var (nv_randomness p0) - lc_var h0)%lc;
    (lc_var (nv_randomness p1) - lc_var h1)%lc;
    (lc_var (nv_randomness r0) - lc_var h0 - lc_var VarOne)%lc;
    (lc_var (nv_randomness r1) - lc_var h1 - lc_var VarOne)%lc;
    (lc_var (nv_randomness pr) - lc_var h0 - lc_var h1)%lc ].

(** [validate_notes] *)
Definition validate_notes (witness : ValidMatchEncryptionWitnessVar)
    (statement : ValidMatchEncryptionStatementVar) : circuit unit :=
  let! party0_buy_constraints := party0_buy_base_constraints_satisfied witness statement in
  let! party0_sell_constraints := party1_buy_base_constraints_satisfied witness statement in
  let! selected_constraint_set := select (lc_var party0_sell_constraints) (lc_var party0_buy_constraints)
    (lc_var (mv_direction (xw_match_res witness))) in
  constrain (VarOne - selected_constraint_set)%lc ;;
  let! protocol_expected_v1 := floor_of (xs_protocol_fee statement) (mv_base_amount (xw_match_res witness)) in
  let! protocol_expected_v2 := floor_of (xs_protocol_fee statement) (mv_quote_amount (xw_match_res witness)) in
  constrain (lc_var protocol_expected_v1 - lc_var (nv_volume1 (xw_protocol_note witness)))%lc ;;
  constrain (lc_var protocol_expected_v2 - lc_var (nv_volume2 (xw_protocol_note witness)))%lc ;;
  constrain_all (note_constraints witness).

(** One block of [validate_note_commitments] *)
Definition validate_note_commitment (note : NoteVar) (pk_settle expected : R1CSVar) : circuit unit :=
  let! note_commit_res := note_commit note pk_settle in
  constrain (lc_var expected - note_commit_res)%lc.

(** [validate_note_commitments] *)
Definition validate_note_commitments (witness : ValidMatchEncryptionWitnessVar)
    (statement : ValidMatchEncryptionStatementVar) : circuit unit :=
  validate_note_commitment (xw_party0_note witness) (xs_pk_settle_party0 statement)
    (xs_party0_note_commit statement) ;;
  validate_note_commitment (xw_party1_note witness) (xs_pk_settle_party1 statement)
    (xs_party1_note_commit statement) ;;
  validate_note_commitment (xw_relayer0_note witness) (xs_pk_settle_relayer0 statement)
    (xs_relayer0_note_commit statement) ;;
  validate_note_commitment (xw_relayer1_note witness) (xs_pk_settle_relayer1 statement)
    (xs_relayer1_note_commit statement) ;;
  validate_note_commitment (xw_protocol_note witness) (xs_pk_settle_protocol statement)
    (xs_protocol_note_commit statement).

(** [circuit] *)
Definition valid_match_encryption (SCALAR_BITS : nat) (witness : ValidMatchEncryptionWitnessVar)
    (statement : ValidMatchEncryptionStatementVar) : circuit unit :=
  check_encryptions SCALAR_BITS witness statement ;;
  validate_notes witness statement ;;
  validate_note_commitments witness statement.

(** [impl CommitProver for ValidMatchEncryptionWitness] *)
Definition commit_encryption_witness (self : ValidMatchEncryptionWitness)
    : circuit ValidMatchEncryptionWitnessVar :=
  let! match_res_var := commit_linkable_match (ew_match_res self) in
  let! fee1_var := commit_linkable_fee (ew_party0_fee self) in
  let! fee2_var := commit_linkable_fee (ew_party1_fee self) in
  let! party0_randomness_hash_var := commit_linkable (ew_party0_randomness_hash self) in
  let! party1_randomness_hash_var := commit_linkable (ew_party1_randomness_hash self) in
  let! party0_note_var := commit_note (ew_party0_note self) in
  let! party1_note_var := commit_note (ew_party1_note self) in
  let! relayer0_note_var := commit_note (ew_relayer0_note self) in
  let! relayer1_note_var := commit_note (ew_relayer1_note self) in
  let! protocol_note_var := commit_note (ew_protocol_note self) in
  let! randomness_vars := mapM commit (ew_elgamal_randomness self) in
  c_ret {| xw_match_res := match_res_var; xw_party0_fee := fee1_var; xw_party1_fee := fee2_var;
           xw_party0_randomness_hash := party0_randomness_hash_var;
           xw_party1_randomness_hash := party1_randomness_hash_var;
           xw_party0_note := party0_note_var; xw_party1_note := party1_note_var;
           xw_relayer0_note := relayer0_note_var; xw_relayer1_note := relayer1_note_var;
           xw_protocol_note := protocol_note_var; xw_elgamal_randomness := randomness_vars |}.

(** [impl CommitProver for ValidMatchEncryptionStatement] *)
Definition commit_encryption_statement (self : ValidMatchEncryptionStatement)
    : circuit ValidMatchEncryptionStatementVar :=
  let! party0_note_commit_var := commit_public (es_party0_note_commit self) in
  let! party1_note_commit_var := commit_public (es_party1_note_commit self) in
  let! relayer0_note_commit_var := commit_public (es_relayer0_note_commit self) in
  let! relayer1_note_commit_var := commit_public (es_relayer1_note_commit self) in
  let! protocol_note_commit_var := commit_public (es_protocol_note_commit self) in
  let! pk_settle_party0_var := commit_public (es_pk_settle_party0 self) in
  let! pk_settle_party1_var := commit_public (es_pk_settle_party1 self) in
  let! pk_settle_relayer0_var := commit_public (es_pk_settle_relayer0 self) in
  let! pk_settle_relayer1_var := commit_public (es_pk_settle_relayer1 self) in
  let! pk_settle_protocol_var := commit_public (es_pk_settle_protocol self) in
  let! protocol_fee_var := FixedPointVar.commit_public (es_protocol_fee self) in
  let! volume1_ciphertext1_var := commit_public_ciphertext (es_volume1_ciphertext1 self) in
  let! volume2_ciphertext1_var := commit_public_ciphertext (es_volume2_ciphertext1 self) in
  let! volume1_ciphertext2_var := commit_public_ciphertext (es_volume1_ciphertext2 self) in
  let! volume2_ciphertext2_var := commit_public_ciphertext (es_volume2_ciphertext2 self) in
  let! mint1_protocol_ciphertext_var := commit_public_ciphertext (es_mint1_protocol_ciphertext self) in
  let! volume1_protocol_ciphertext_var := commit_public_ciphertext (es_volume1_protocol_ciphertext self) in
  let! mint2_protocol_ciphertext_var := commit_public_ciphertext (es_mint2_protocol_ciphertext self) in
  let! volume2_protocol_ciphertext_var := commit_public_ciphertext (es_volume2_protocol_ciphertext self) in
  let! randomness_protocol_ciphertext_var := commit_public_ciphertext (es_randomness_protocol_ciphertext self) in
  c_ret {| xs_party0_note_commit := party0_note_commit_var; xs_party1_note_commit := party1_note_commit_var;
           xs_relayer0_note_commit := relayer0_note_commit_var; xs_relayer1_note_commit := relayer1_note_commit_var;
           xs_protocol_note_commit := protocol_note_commit_var; xs_pk_settle_party0 := pk_settle_party0_var;
           xs_pk_settle_party1 := pk_settle_party1_var; xs_pk_settle_relayer0 := pk_settle_relayer0_var;
           xs_pk_settle_relayer1 := pk_settle_relayer1_var; xs_pk_settle_protocol := pk_settle_protocol_var;
           xs_protocol_fee := protocol_fee_var; xs_volume1_ciphertext1 := volume1_ciphertext1_var;
           xs_volume2_ciphertext1 := volume2_ciphertext1_var; xs_volume1_ciphertext2 := volume1_ciphertext2_var;
           xs_volume2_ciphertext2 := volume2_ciphertext2_var;
           xs_mint1_protocol_ciphertext := mint1_protocol_ciphertext_var;
           xs_volume1_protocol_ciphertext := volume1_protocol_ciphertext_var;
           xs_mint2_protocol_ciphertext := mint2_protocol_ciphertext_var;
           xs_volume2_protocol_ciphertext := volume2_protocol_ciphertext_var;
           xs_randomness_protocol_ciphertext := randomness_protocol_ciphertext_var |}.

(** [prove], up to the proof of the constraints *)
Definition prove_match_encryption (SCALAR_BITS : nat) (witness : ValidMatchEncryptionWitness)
    (statement : ValidMatchEncryptionStatement) : circuit unit :=
  let! witness_var := commit_encryption_witness witness in
  let! statement_var := commit_encryption_statement statement in
  valid_match_encryption SCALAR_BITS witness_var statement_var.
End circuit.

(** * The relation *)

(** The values of a note, a match, a fee and of the whole statement *)
Record NoteVals := {
  n_mint1 : Scalar; n_volume1 : Scalar; n_direction1 : Scalar;
  n_mint2 : Scalar; n_volume2 : Scalar; n_direction2 : Scalar;
  n_fee_mint : Scalar; n_fee_volume : Scalar; n_fee_direction : Scalar;
  n_type : Scalar; n_randomness : Scalar;
}.

Record MatchVals := {
  m_quote_mint : Scalar; m_base_mint : Scalar; m_quote_amount : Scalar; m_base_amount : Scalar;
  m_direction : Scalar;
}.

Record FeeVals := { f_gas_addr : Scalar; f_gas_token_amount : Scalar; f_percentage : Scalar }.

(** Randomness, plaintext, key and ciphertext of an encryption *)
Definition EncryptionVals : Type := option Scalar * Scalar * Scalar * (Scalar * Scalar).

Record MatchEncryptionVals := {
  x_match : MatchVals;
  x_fee0 : FeeVals; x_fee1 : FeeVals; x_protocol_fee : Scalar;
  x_hash0 : Scalar; x_hash1 : Scalar;
  x_party0 : NoteVals; x_party1 : NoteVals;
  x_relayer0 : NoteVals; x_relayer1 : NoteVals;
  x_protocol : NoteVals;
  x_encryptions : list EncryptionVals;
  x_commitments : list (NoteVals * Scalar * Scalar);
}.

Definition note_list (n : NoteVals) : list Scalar :=
  [n_mint1 n; n_volume1 n; n_direction1 n; n_mint2 n; n_volume2 n; n_direction2 n; n_fee_mint n;
   n_fee_volume n; n_fee_direction n; n_type n; n_randomness n].

(** The integer part of a fixed-point value *)
Definition floored (v : Scalar) : Scalar := scalar (Zmod.to_Z v / 2 ^ 32).

(** What is left of one after both fees *)
Definition net (v : MatchEncryptionVals) (f : FeeVals) : Scalar :=
  scalar (2 ^ 32) - f_percentage f - x_protocol_fee v.

(** [x] is the integer part of [v]; for an arbitrary prover it may be anything. *)
Definition rounded (honest : bool) (v x : Scalar) : Prop := if honest then x = floored v else True.

(** The volumes of the notes when party 0 buys the base, and when it sells it *)
Record buys (honest : bool) (v : MatchEncryptionVals) : Prop := {
  buy_p0_base : rounded honest (net v (x_fee0 v) * m_base_amount (x_match v)) (n_volume1 (x_party0 v));
  buy_p0_quote : n_volume2 (x_party0 v) = m_quote_amount (x_match v);
  buy_p1_base : n_volume1 (x_party1 v) = m_base_amount (x_match v);
  buy_p1_quote : rounded honest (net v (x_fee1 v) * m_quote_amount (x_match v)) (n_volume2 (x_party1 v));
  buy_r0_base : rounded honest (f_percentage (x_fee0 v) * m_base_amount (x_match v)) (n_volume1 (x_relayer0 v));
  buy_r0_quote : n_volume2 (x_relayer0 v) = 0;
  buy_r1_base : n_volume1 (x_relayer1 v) = 0;
  buy_r1_quote : rounded honest (f_percentage (x_fee1 v) * m_quote_amount (x_match v)) (n_volume2 (x_relayer1 v));
}.

Record sells (honest : bool) (v : MatchEncryptionVals) : Prop := {
  sell_p0_base : n_volume1 (x_party0 v) = m_base_amount (x_match v);
  sell_p0_quote : rounded honest (net v (x_fee0 v) * m_quote_amount (x_match v)) (n_volume2 (x_party0 v));
  sell_p1_base : rounded honest (net v (x_fee1 v) * m_base_amount (x_match v)) (n_volume1 (x_party1 v));
  sell_p1_quote : n_volume2 (x_party1 v) = m_quote_amount (x_match v);
  sell_r0_base : n_volume1 (x_relayer0 v) = 0;
  sell_r0_quote : rounded honest (f_percentage (x_fee0 v) * m_quote_amount (x_match v)) (n_volume2 (x_relayer0 v));
  sell_r1_base : rounded honest (f_percentage (x_fee1 v) * m_base_amount (x_match v)) (n_volume1 (x_relayer1 v));
  sell_r1_quote : n_volume2 (x_relayer1 v) = 0;
}.

(** What a note says beside its volumes *)
Record labelled (n : NoteVals) (base quote side1 side2 fee_mint fee_volume fee_side kind randomness : Scalar)
    : Prop := {
  lab_mint1 : n_mint1 n = base;
  lab_mint2 : n_mint2 n = quote;
  lab_direction1 : n_direction1 n = side1;
  lab_direction2 : n_direction2 n = side2;
  lab_fee_mint : n_fee_mint n = fee_mint;
  lab_fee_volume : n_fee_volume n = fee_volume;
  lab_fee_direction : n_fee_direction n = fee_side;
  lab_type : n_type n = kind;
  lab_randomness : n_randomness n = randomness;
}.

Definition labels_valid (v : MatchEncryptionVals) : Prop :=
  let base := m_base_mint (x_match v) in
  let quote := m_quote_mint (x_match v) in
  let d := m_direction (x_match v) in
  let f0 := x_fee0 v in
  let f1 := x_fee1 v in
  labelled (x_party0 v) base quote d (1 - d) (f_gas_addr f0) (f_gas_token_amount f0) 1 1 (x_hash0 v) /\
  labelled (x_party1 v) base quote (1 - d) d (f_gas_addr f1) (f_gas_token_amount f1) 1 1 (x_hash1 v) /\
  labelled (x_relayer0 v) base quote 0 0 (f_gas_addr f0) (f_gas_token_amount f0) 0 0 (x_hash0 v + 1) /\
  labelled (x_relayer1 v) base quote 0 0 (f_gas_addr f1) (f_gas_token_amount f1) 0 0 (x_hash1 v + 1) /\
  labelled (x_protocol v) base quote 0 0 0 0 0 0 (x_hash0 v + x_hash1 v).

(** A ciphertext encrypts its plaintext, if the prover is honest. *)
Definition encrypted (honest : bool) (D : nat) (e : EncryptionVals) : Prop :=
  let '(randomness, plaintext, key, ciphertext) := e in
  match randomness with
  | None => False
  | Some r => if honest then (Zmod.to_Z r < 2 ^ Z.of_nat D)%Z /\
                ciphertext = encryption DEFAULT_ELGAMAL_GENERATOR key r plaintext
              else True
  end.

Definition committed (c : NoteVals * Scalar * Scalar) : Prop :=
  let '(note, key, commitment) := c in
  commitment = Native.sponge default_params (note_list note ++ [key]).

(** The direction chooses between the two; one that is no bit asks for both. *)
Definition direction_valid (honest : bool) (v : MatchEncryptionVals) : Prop :=
  (m_direction (x_match v) = 1 \/ buys honest v) /\ (m_direction (x_match v) = 0 \/ sells honest v).

Record match_encryption_valid (honest : bool) (D : nat) (v : MatchEncryptionVals) : Prop := {
  mev_encryptions : Forall (encrypted honest D) (x_encryptions v);
  mev_direction : direction_valid honest v;
  mev_protocol_base :
    rounded honest (x_protocol_fee v * m_base_amount (x_match v)) (n_volume1 (x_protocol v));
  mev_protocol_quote :
    rounded honest (x_protocol_fee v * m_quote_amount (x_match v)) (n_volume2 (x_protocol v));
  mev_labels : labels_valid v;
  mev_commitments : Forall committed (x_commitments v);
}.

(** ** The values of variables *)

Section values.
  Context {C : ConstraintSystem} (ev : LinearCombination -> Scalar).

#[local] Abbreviation vv x := (ev (lc_var x)).

Definition note_vals (n : NoteVar) : NoteVals := {|
  n_mint1 := vv (nv_mint1 n); n_volume1 := vv (nv_volume1 n); n_direction1 := vv (nv_direction1 n);
  n_mint2 := vv (nv_mint2 n); n_volume2 := vv (nv_volume2 n); n_direction2 := vv (nv_direction2 n);
  n_fee_mint := vv (nv_fee_mint n); n_fee_volume := vv (nv_fee_volume n);
  n_fee_direction := vv (nv_fee_direction n); n_type := vv (nv_type n); n_randomness := vv (nv_randomness n) |}.

Definition match_vals (m : MatchResultVar) : MatchVals := {|
  m_quote_mint := vv (mv_quote_mint m); m_base_mint := vv (mv_base_mint m);
  m_quote_amount := vv (mv_quote_amount m); m_base_amount := vv (mv_base_amount m);
  m_direction := vv (mv_direction m) |}.

Definition fee_vals (f : FeeVar) : FeeVals := {|
  f_gas_addr := vv (fv_gas_addr f); f_gas_token_amount := vv (fv_gas_token_amount f);
  f_percentage := ev (FixedPointVar.repr (fv_percentage_fee f)) |}.

Definition encryption_vals (w : ValidMatchEncryptionWitnessVar) (i : nat) (plaintext key : R1CSVar)
    (ct : ElGamalCiphertextVar) : EncryptionVals :=
  ((fun v => vv v) <$> xw_elgamal_randomness w !! i, vv plaintext, vv key,
   (vv (cv_partial_shared_secret ct), vv (cv_encrypted_message ct))).

Definition encryption_list (w : ValidMatchEncryptionWitnessVar) (st : ValidMatchEncryptionStatementVar)
    : list EncryptionVals :=
  let e := encryption_vals w in
  let pr := xw_protocol_note w in
  let pk := xs_pk_settle_protocol st in
  [e 0%nat (nv_volume1 (xw_party0_note w)) (xs_pk_settle_party0 st) (xs_volume1_ciphertext1 st);
   e 1%nat (nv_volume2 (xw_party0_note w)) (xs_pk_settle_party0 st) (xs_volume2_ciphertext1 st);
   e 2%nat (nv_volume1 (xw_party1_note w)) (xs_pk_settle_party1 st) (xs_volume1_ciphertext2 st);
   e 3%nat (nv_volume2 (xw_party1_note w)) (xs_pk_settle_party1 st) (xs_volume2_ciphertext2 st);
   e 4%nat (nv_mint1 pr) pk (xs_mint1_protocol_ciphertext st);
   e 5%nat (nv_volume1 pr) pk (xs_volume1_protocol_ciphertext st);
   e 6%nat (nv_mint2 pr) pk (xs_mint2_protocol_ciphertext st);
   e 7%nat (nv_volume2 pr) pk (xs_volume2_protocol_ciphertext st);
   e 8%nat (nv_randomness pr) pk (xs_randomness_protocol_ciphertext st)].

Definition commitment_list (w : ValidMatchEncryptionWitnessVar) (st : ValidMatchEncryptionStatementVar)
    : list (NoteVals * Scalar * Scalar) :=
  [(note_vals (xw_party0_note w), vv (xs_pk_settle_party0 st), vv (xs_party0_note_commit st));
   (note_vals (xw_party1_note w), vv (xs_pk_settle_party1 st), vv (xs_party1_note_commit st));
   (note_vals (xw_relayer0_note w), vv (xs_pk_settle_relayer0 st), vv (xs_relayer0_note_commit st));
   (note_vals (xw_relayer1_note w), vv (xs_pk_settle_relayer1 st), vv (xs_relayer1_note_commit st));
   (note_vals (xw_protocol_note w), vv (xs_pk_settle_protocol st), vv (xs_protocol_note_commit st))].

Definition encryption_values (w : ValidMatchEncryptionWitnessVar) (st : ValidMatchEncryptionStatementVar)
    : MatchEncryptionVals := {|
  x_match := match_vals (xw_match_res w);
  x_fee0 := fee_vals (xw_party0_fee w); x_fee1 := fee_vals (xw_party1_fee w);
  x_protocol_fee := ev (FixedPointVar.repr (xs_protocol_fee st));
  x_hash0 := vv (xw_party0_randomness_hash w); x_hash1 := vv (xw_party1_randomness_hash w);
  x_party0 := note_vals (xw_party0_note w); x_party1 := note_vals (xw_party1_note w);
  x_relayer0 := note_vals (xw_relayer0_note w); x_relayer1 := note_vals (xw_relayer1_note w);
  x_protocol := note_vals (xw_protocol_note w);
  x_encryptions := encryption_list w st; x_commitments := commitment_list w st |}.
End values.

(** ** The values of the native witness and statement *)

Definition native_note (n : Note) : NoteVals := {|
  n_mint1 := biguint_to_scalar (note_mint1 n); n_volume1 := scalar (note_volume1 n);
  n_direction1 := side_to_scalar (note_direction1 n);
  n_mint2 := biguint_to_scalar (note_mint2 n); n_volume2 := scalar (note_volume2 n);
  n_direction2 := side_to_scalar (note_direction2 n);
  n_fee_mint := biguint_to_scalar (note_fee_mint n); n_fee_volume := scalar (note_fee_volume n);
  n_fee_direction := side_to_scalar (note_fee_direction n); n_type := note_type_to_scalar (note_type n);
  n_randomness := biguint_to_scalar (note_randomness n) |}.

Definition native_match (m : LinkableMatchResultCommitment) : MatchVals := {|
  m_quote_mint := lk_val (lm_quote_mint m); m_base_mint := lk_val (lm_base_mint m);
  m_quote_amount := lk_val (lm_quote_amount m); m_base_amount := lk_val (lm_base_amount m);
  m_direction := lk_val (lm_direction m) |}.

Definition native_fee (f : LinkableFeeCommitment) : FeeVals := {|
  f_gas_addr := lk_val (lfee_gas_addr f); f_gas_token_amount := lk_val (lfee_gas_token_amount f);
  f_percentage := lk_val (lf_repr (lfee_percentage_fee f)) |}.

Definition native_encryptions (w : ValidMatchEncryptionWitness) (st : ValidMatchEncryptionStatement)
    : list EncryptionVals :=
  let e i plaintext key ct := (ew_elgamal_randomness w !! i, plaintext, key,
    (partial_shared_secret ct, encrypted_message ct)) in
  let p0 := native_note (ew_party0_note w) in
  let p1 := native_note (ew_party1_note w) in
  let pr := native_note (ew_protocol_note w) in
  let pk := es_pk_settle_protocol st in
  [e 0%nat (n_volume1 p0) (es_pk_settle_party0 st) (es_volume1_ciphertext1 st);
   e 1%nat (n_volume2 p0) (es_pk_settle_party0 st) (es_volume2_ciphertext1 st);
   e 2%nat (n_volume1 p1) (es_pk_settle_party1 st) (es_volume1_ciphertext2 st);
   e 3%nat (n_volume2 p1) (es_pk_settle_party1 st) (es_volume2_ciphertext2 st);
   e 4%nat (n_mint1 pr) pk (es_mint1_protocol_ciphertext st);
   e 5%nat (n_volume1 pr) pk (es_volume1_protocol_ciphertext st);
   e 6%nat (n_mint2 pr) pk (es_mint2_protocol_ciphertext st);
   e 7%nat (n_volume2 pr) pk (es_volume2_protocol_ciphertext st);
   e 8%nat (n_randomness pr) pk (es_randomness_protocol_ciphertext st)].

Definition native_commitments (w : ValidMatchEncryptionWitness) (st : ValidMatchEncryptionStatement)
    : list (NoteVals * Scalar * Scalar) :=
  [(native_note (ew_party0_note w), es_pk_settle_party0 st, es_party0_note_commit st);
   (native_note (ew_party1_note w), es_pk_settle_party1 st, es_party1_note_commit st);
   (native_note (ew_relayer0_note w), es_pk_settle_relayer0 st, es_relayer0_note_commit st);
   (native_note (ew_relayer1_note w), es_pk_settle_relayer1 st, es_relayer1_note_commit st);
   (native_note (ew_protocol_note w), es_pk_settle_protocol st, es_protocol_note_commit st)].

Definition native_values (w : ValidMatchEncryptionWitness) (st : ValidMatchEncryptionStatement)
    : MatchEncryptionVals := {|
  x_match := native_match (ew_match_res w);
  x_fee0 := native_fee (ew_party0_fee w); x_fee1 := native_fee (ew_party1_fee w);
  x_protocol_fee := FixedPoint.repr (es_protocol_fee st);
  x_hash0 := lk_val (ew_party0_randomness_hash w); x_hash1 := lk_val (ew_party1_randomness_hash w);
  x_party0 := native_note (ew_party0_note w); x_party1 := native_note (ew_party1_note w);
  x_relayer0 := native_note (ew_relayer0_note w); x_relayer1 := native_note (ew_relayer1_note w);
  x_protocol := native_note (ew_protocol_note w);
  x_encryptions := native_encryptions w st; x_commitments := native_commitments w st |}.

(** * Both readings of the circuit *)

Lemma eight_bits b1 b2 b3 b4 b5 b6 b7 b8 :
  bit_scalar b1 + bit_scalar b2 + bit_scalar b3 + bit_scalar b4 + bit_scalar b5 + bit_scalar b6 + bit_scalar b7 +
    bit_scalar b8 = scalar 8 * 1 <->
  b1 = true /\ b2 = true /\ b3 = true /\ b4 = true /\ b5 = true /\ b6 = true /\ b7 = true /\ b8 = true.
Proof.
  rewrite !bit_scalar_Z, <- !Zmod.of_Z_add. replace (scalar 8 * 1) with (scalar 8) by ring. split.
  - intros H. apply (f_equal Zmod.to_Z) in H.
    assert (forall b, 0 <= Z.b2z b <= 1)%Z as Hb by (intros []; cbn; lia).
    pose proof (Hb b1); pose proof (Hb b2); pose proof (Hb b3); pose proof (Hb b4).
    pose proof (Hb b5); pose proof (Hb b6); pose proof (Hb b7); pose proof (Hb b8).
    assert (8 < ristretto_order)%Z by done. rewrite !to_Z_small in H by lia.
    destruct b1, b2, b3, b4, b5, b6, b7, b8; cbn in *; lia || done.
  - by intros (-> & -> & -> & -> & -> & -> & -> & ->).
Qed.

Lemma floored_unique (x v : Scalar) : (Zmod.to_Z x = Zmod.to_Z v / 2 ^ 32)%Z -> x = floored v.
Proof. intros H. unfold floored. by rewrite <- H, Zmod.of_Z_to_Z. Qed.

Section readings.
  Context {C : ConstraintSystem} {L : ConstraintSystemLaws C} {P : ProverLaws C}.

Definition is_honest (r : reading) : bool := match r with Honest => true | Any _ _ => false end.

(** What holds whatever the circuit does can be skipped in the reading of an arbitrary prover. *)
Lemma run_skip {A} w Hw (g : circuit A) s (Q : A -> cs -> Prop -> Prop) :
  (forall a s', Q a s' True) -> run (Any w Hw) g s Q.
Proof. intros HQ a s' _ _. exists True. auto. Qed.

#[export] Instance mul_integer_monotone a n : Monotone (FixedPointVar.mul_integer a n).
Proof. eapply sound_monotone, FixedPointVar.mul_integer_sound. Qed.

Lemma run_mul_integer r a n x y s (Q : _ -> cs -> Prop -> Prop) :
  holds r s (FixedPointVar.repr a) x -> holds r s n y ->
  (forall out s' (K : Prop), K -> grows r s s' -> holds r s' (FixedPointVar.repr out) (x * y) -> Q out s' K) ->
  run r (FixedPointVar.mul_integer a n) s Q.
Proof.
  intros Ha Hn HQ. unfold FixedPointVar.mul_integer. bind. eapply run_multiply; [done..|].
  intros ? ? o s1 E1 _ _ Ho. apply run_ret, HQ; done.
Qed.

Lemma run_floor r a x s (Q : _ -> cs -> Prop -> Prop) :
  holds r s (FixedPointVar.repr a) x ->
  (forall out s' (K : Prop) y, K -> grows r s s' -> holds r s' (lc_var out) y -> rounded (is_honest r) x y ->
    Q out s' K) ->
  run r (FixedPointVar.floor a) s Q.
Proof.
  intros Ha HQ. destruct r as [|w Hw].
  - destruct Ha as [Ha Va]. apply FixedPointVar.wp_floor; [done|]. intros out s' K HK E Ho V.
    apply (HQ out s' K (value s' out)); [done|done|by split|]. cbn. apply floored_unique.
    rewrite V, (extends_value s s') by done. by rewrite Va.
  - apply run_skip. intros out s'. by apply (HQ out s' True (lc_eval w out)).
Qed.

#[export] Instance div_rem_monotone D a b : Monotone (div_rem D a b).
Proof.
  unfold div_rem, constrain_less_than. cbv zeta. do 2 (apply bind_monotone; [apply _|intros]).
  match goal with |- Monotone (let (_, _) := ?p in _) => destruct p end. apply _.
Qed.

#[export] Instance floor_of_monotone fp n : Monotone (floor_of fp n).
Proof. unfold floor_of, FixedPointVar.floor. apply _. Qed.

#[export] Instance exp_private_fixed_base_monotone D x a : Monotone (exp_private_fixed_base D x a).
Proof.
  unfold exp_private_fixed_base. apply bind_monotone; [apply _|]. intros bits.
  induction bits; cbn [exp_private_fixed_base_impl]; unfold all_bits_zero; apply _.
Qed.

#[export] Instance exp_private_monotone D x a : Monotone (exp_private D x a).
Proof.
  unfold exp_private. apply bind_monotone; [apply _|]. intros bits.
  induction bits; cbn [exp_private_impl]; unfold all_bits_zero; apply _.
Qed.

#[export] Instance encrypt_monotone D g r m k : Monotone (encrypt D g r m k).
Proof. unfold encrypt. apply _. Qed.

#[export] Instance check_encryption_monotone D w i m k c : Monotone (check_encryption D w i m k c).
Proof. unfold check_encryption. apply _. Qed.

#[export] Instance check_encryptions_monotone D w st : Monotone (check_encryptions D w st).
Proof. unfold check_encryptions. apply _. Qed.

#[export] Instance party0_buy_monotone w st : Monotone (party0_buy_base_constraints_satisfied w st).
Proof. unfold party0_buy_base_constraints_satisfied, all_of_eight. apply _. Qed.

#[export] Instance party1_buy_monotone w st : Monotone (party1_buy_base_constraints_satisfied w st).
Proof. unfold party1_buy_base_constraints_satisfied, all_of_eight. apply _. Qed.

#[export] Instance constrain_all_monotone l : Monotone (constrain_all l).
Proof. unfold constrain_all. apply _. Qed.

#[export] Instance validate_notes_monotone w st : Monotone (validate_notes w st).
Proof. unfold validate_notes. apply _. Qed.

#[export] Instance validate_note_commitments_monotone w st : Monotone (validate_note_commitments w st).
Proof. unfold validate_note_commitments, validate_note_commitment. apply _. Qed.

#[export] Instance valid_match_encryption_monotone D w st : Monotone (valid_match_encryption D w st).
Proof. unfold valid_match_encryption. apply _. Qed.
End readings.

(** ** The blocks of the circuit *)

Section blocks.
  Context {C : ConstraintSystem} {L : ConstraintSystemLaws C} {P : ProverLaws C}.
  Context (D : nat) (HD : (D <= 256)%nat).
  Context (r : reading) (ev : LinearCombination -> Scalar).
  Context (w : ValidMatchEncryptionWitnessVar) (st : ValidMatchEncryptionStatementVar).

#[local] Abbreviation honest := (is_honest r).
#[local] Abbreviation v := (encryption_values ev w st).

(** The public variables *)
Definition ciphertext_lcs (c : ElGamalCiphertextVar) : list LinearCombination :=
  [lc_var (cv_partial_shared_secret c); lc_var (cv_encrypted_message c)].

Definition statement_ciphertexts (st : ValidMatchEncryptionStatementVar) : list ElGamalCiphertextVar :=
  [xs_volume1_ciphertext1 st; xs_volume2_ciphertext1 st; xs_volume1_ciphertext2 st; xs_volume2_ciphertext2 st;
   xs_mint1_protocol_ciphertext st; xs_volume1_protocol_ciphertext st; xs_mint2_protocol_ciphertext st;
   xs_volume2_protocol_ciphertext st; xs_randomness_protocol_ciphertext st].

Definition key_lcs (st : ValidMatchEncryptionStatementVar) : list LinearCombination :=
  [lc_var (xs_pk_settle_party0 st); lc_var (xs_pk_settle_party1 st); lc_var (xs_pk_settle_relayer0 st);
   lc_var (xs_pk_settle_relayer1 st); lc_var (xs_pk_settle_protocol st)].

Definition commitment_lcs (st : ValidMatchEncryptionStatementVar) : list LinearCombination :=
  [lc_var (xs_party0_note_commit st); lc_var (xs_party1_note_commit st); lc_var (xs_relayer0_note_commit st);
   lc_var (xs_relayer1_note_commit st); lc_var (xs_protocol_note_commit st)].

Record encryption_known (s : cs) : Prop := {
  ek_match : Forall (known r s ev) (match_lcs (xw_match_res w));
  ek_fee0 : Forall (known r s ev) (fee_lcs (xw_party0_fee w));
  ek_fee1 : Forall (known r s ev) (fee_lcs (xw_party1_fee w));
  ek_hash0 : known r s ev (lc_var (xw_party0_randomness_hash w));
  ek_hash1 : known r s ev (lc_var (xw_party1_randomness_hash w));
  ek_party0 : Forall (known r s ev) (note_lcs (xw_party0_note w));
  ek_party1 : Forall (known r s ev) (note_lcs (xw_party1_note w));
  ek_relayer0 : Forall (known r s ev) (note_lcs (xw_relayer0_note w));
  ek_relayer1 : Forall (known r s ev) (note_lcs (xw_relayer1_note w));
  ek_protocol : Forall (known r s ev) (note_lcs (xw_protocol_note w));
  ek_randomness : Forall (known r s ev) (lc_var <$> xw_elgamal_randomness w);
  ek_length : length (xw_elgamal_randomness w) = NUM_ENCRYPTIONS;
  ek_fee : known r s ev (FixedPointVar.repr (xs_protocol_fee st));
  ek_keys : Forall (known r s ev) (key_lcs st);
  ek_commitments : Forall (known r s ev) (commitment_lcs st);
  ek_ciphertexts : Forall (fun c => Forall (known r s ev) (ciphertext_lcs c)) (statement_ciphertexts st);
}.

Lemma encryption_known_grows s s' : grows r s s' -> encryption_known s -> encryption_known s'.
Proof.
  intros E []. constructor; try done; eauto using known_list_grows, known_grows.
  eapply Forall_impl; [done|]. intros c. by apply known_list_grows.
Qed.

Lemma run_encryption s i m k c x :
  xw_elgamal_randomness w !! i = Some x -> known r s ev (lc_var x) -> known r s ev (lc_var m) ->
  known r s ev (lc_var k) -> Forall (known r s ev) (ciphertext_lcs c) ->
  run r (check_encryption D w i m k c) s (fun _ _ K => K <-> encrypted honest D (encryption_vals ev w i m k c)).
Proof.
  intros Hx Kx Km Kk Kc. unfold encrypted, encryption_vals. rewrite Hx. cbn [fmap option_fmap option_map].
  destruct r as [|a Ha]; [|by apply run_skip]. cbn [is_honest].
  unfold check_encryption. rewrite Hx. apply wp_bind. eapply wp_get; [done|].
  destruct Kx as [Sx Vx], Km as [Sm Vm], Kk as [Sk Vk]. unfold ciphertext_lcs in Kc. known_split Kc.
  destruct Kc0 as [S0 V0], Kc1 as [S1 V1].
  apply wp_bind, wp_encrypt; [done..|]. intros c1 c2 s1 K1 E1 H1 H2 HK1 V. advance E1. cbn [fst snd].
  apply wp_bind, wp_constrain; [scoped|]. intros s2 E2. value_simpl. advance E2.
  apply wp_constrain; [scoped|]. intros s3 E3. value_simpl. advance E3.
  rewrite !scalar_sub_zero, V0, V1. rewrite Vx in HK1. rewrite Vx, Vm, Vk in V. split.
  - intros (HK & HK' & H & H'). split; [tauto|]. rewrite <- V by done. by rewrite <- H, <- H'.
  - intros [Hfit Heq]. assert K1 as HK by tauto. rewrite <- V in Heq by done. injection Heq as -> ->. tauto.
Qed.

Lemma randomness_lookup s i : encryption_known s -> (i < NUM_ENCRYPTIONS)%nat ->
  exists x, xw_elgamal_randomness w !! i = Some x /\ known r s ev (lc_var x).
Proof.
  intros Hk Hi. rewrite <- (ek_length _ Hk) in Hi. apply lookup_lt_is_Some in Hi as [x Hx]. exists x.
  split; [done|]. pose proof (ek_randomness _ Hk) as H. rewrite Forall_fmap in H. by eapply Forall_lookup_1 in H.
Qed.

Lemma run_encryption_step {A} s i m k c (g : circuit A) (Q : A -> cs -> Prop -> Prop) :
  Monotone g -> encryption_known s -> (i < NUM_ENCRYPTIONS)%nat -> known r s ev (lc_var m) ->
  known r s ev (lc_var k) -> c ∈ statement_ciphertexts st ->
  (forall s', grows r s s' -> run r g s' (fun a s2 K2 => forall K : Prop,
    (K <-> encrypted honest D (encryption_vals ev w i m k c)) -> Q a s2 (K /\ K2))) ->
  run r (check_encryption D w i m k c ;; g) s Q.
Proof.
  intros M Hk Hi Hm Hkey Hc HQ. destruct (randomness_lookup s i Hk Hi) as (x & Hx & Kx). bind.
  eapply run_mono; [eapply run_encryption; try done|].
  - pose proof (ek_ciphertexts _ Hk) as H. by eapply Forall_forall in H.
  - intros [] s1 K1 E1 HK1. eapply run_mono; [by apply HQ|]. intros a s2 K2 _ H. by apply H.
Qed.

Ltac encryption_step :=
  eapply run_encryption_step;
    [apply _|eassumption|by apply Nat.ltb_lt|eassumption|eassumption
    |unfold statement_ciphertexts; rewrite !elem_of_cons; tauto|];
  let s := fresh "s" in let E := fresh "E" in intros s E;
  match goal with Hk : encryption_known _ |- _ => apply (encryption_known_grows _ _ E) in Hk end; later_known E.

Lemma run_check_encryptions s : encryption_known s ->
  run r (check_encryptions D w st) s (fun _ _ K => K <-> Forall (encrypted honest D) (encryption_list ev w st)).
Proof.
  intros Hk. unfold check_encryptions. cbv zeta.
  pose proof (ek_party0 _ Hk) as H0. pose proof (ek_party1 _ Hk) as H1. pose proof (ek_protocol _ Hk) as H2.
  pose proof (ek_keys _ Hk) as H3. unfold note_lcs, key_lcs in *.
  known_split H0. known_split H1. known_split H2. known_split H3.
  do 8 encryption_step.
  destruct (randomness_lookup s7 8 Hk) as (x & Hx & Kx); [by apply Nat.ltb_lt|].
  eapply run_mono; [eapply run_encryption; try done|].
  - pose proof (ek_ciphertexts _ Hk) as H. unfold statement_ciphertexts in H. rewrite !Forall_cons in H. tauto.
  - intros [] s9 K9 _ HK9 K8 HK8 K7 HK7 K6 HK6 K5 HK5 K4 HK4 K3 HK3 K2 HK2 K1 HK1.
    unfold encryption_list. rewrite !Forall_cons, Forall_nil. tauto.
Qed.

(** ** Volumes *)

Lemma run_floor_of fp n x y s (Q : _ -> cs -> Prop -> Prop) :
  holds r s (FixedPointVar.repr fp) x -> holds r s (lc_var n) y ->
  (forall out s' (K : Prop) z, K -> grows r s s' -> holds r s' (lc_var out) z -> rounded honest (x * y) z ->
    Q out s' K) ->
  run r (floor_of fp n) s Q.
Proof.
  intros Hx Hy HQ. unfold floor_of, FixedPointVar.floor. bind. eapply run_mul_integer; [done..|].
  intros p s1 K1 HK1 E1 Hp. eapply run_floor; [done|]. intros out s2 K2 z HK2 E2 Hz Rz.
  apply (HQ out s2 _ z); [done|grown|done|done].
Qed.

Lemma net_fraction_holds fee s : Forall (known r s ev) (fee_lcs fee) -> encryption_known s ->
  holds r s (FixedPointVar.repr (net_fraction fee st)) (net v (fee_vals ev fee)).
Proof.
  intros Hf Hk. unfold fee_lcs in Hf. known_split Hf. pose proof (ek_fee _ Hk) as Hp.
  unfold net_fraction, FixedPointVar.sub, FixedPointVar.variable_sub, FixedPointVar.variable_add,
    FixedPointVar.add_variable, FixedPointVar.neg; cbn [FixedPointVar.repr].
  unfold net; cbn [f_percentage fee_vals x_protocol_fee encryption_values].
  replace (scalar (2 ^ 32) - ev (FixedPointVar.repr (fv_percentage_fee fee)))
    with (- (1) * ev (FixedPointVar.repr (fv_percentage_fee fee)) + TWO_TO_M_SCALAR * 1)
    by (rewrite TWO_TO_M_SCALAR_spec; ring).
  apply holds_sub; [apply holds_add; apply holds_scale; [done|apply holds_one]|done].
Qed.

(** The eight comparisons as one flag *)
Lemma run_all_of_eight s c1 c2 c3 c4 c5 c6 c7 c8 b1 b2 b3 b4 b5 b6 b7 b8 (Q : _ -> cs -> Prop -> Prop) :
  holds r s (lc_var c1) (bit_scalar b1) -> holds r s (lc_var c2) (bit_scalar b2) ->
  holds r s (lc_var c3) (bit_scalar b3) -> holds r s (lc_var c4) (bit_scalar b4) ->
  holds r s (lc_var c5) (bit_scalar b5) -> holds r s (lc_var c6) (bit_scalar b6) ->
  holds r s (lc_var c7) (bit_scalar b7) -> holds r s (lc_var c8) (bit_scalar b8) ->
  (forall out s' (K : Prop) b, K -> grows r s s' -> holds r s' (lc_var out) (bit_scalar b) ->
    (b = true <-> b1 = true /\ b2 = true /\ b3 = true /\ b4 = true /\ b5 = true /\ b6 = true /\ b7 = true /\
      b8 = true) -> Q out s' K) ->
  run r (all_of_eight c1 c2 c3 c4 c5 c6 c7 c8) s Q.
Proof.
  intros H1 H2 H3 H4 H5 H6 H7 H8 HQ. unfold all_of_eight. eapply run_eq_gadget; [carried..|].
  intros out s' K HK E Ho. eapply HQ; [done|done|exact Ho|]. by rewrite bool_decide_eq_true, eight_bits.
Qed.

Lemma rounded_eq h a x y : rounded h a x -> y = x -> rounded h a y.
Proof. by intros ? ->. Qed.

Lemma run_party0_buy s (Q : _ -> cs -> Prop -> Prop) :
  encryption_known s ->
  (forall out s' (K : Prop) b, K -> grows r s s' -> holds r s' (lc_var out) (bit_scalar b) ->
    (b = true -> buys honest v) -> (honest = true -> buys true v -> b = true) -> Q out s' K) ->
  run r (party0_buy_base_constraints_satisfied w st) s Q.
Proof.
  intros Hk HQ. pose proof (net_fraction_holds _ s (ek_fee0 _ Hk) Hk) as N0.
  pose proof (net_fraction_holds _ s (ek_fee1 _ Hk) Hk) as N1.
  destruct Hk as [Hm Hf0 Hf1 _ _ Hp0 Hp1 Hr0 Hr1 _ _ _ _ _ _ _].
  unfold match_lcs, fee_lcs, note_lcs in *. known_split Hm. known_split Hf0. known_split Hf1.
  known_split Hp0. known_split Hp1. known_split Hr0. known_split Hr1.
  unfold party0_buy_base_constraints_satisfied. cbv zeta.
  bind. eapply run_floor_of; [exact N0|carried|]. intros o1 s1 K1 z1 HK1 E1 Ho1 R1. later_known E1.
  bind. eapply run_eq_gadget; [carried..|]. intros c1 s2 K2 HK2 E2 Hc1. later_known E2.
  bind. eapply run_eq_gadget; [carried..|]. intros c2 s3 K3 HK3 E3 Hc2. later_known E3.
  bind. eapply run_eq_gadget; [carried..|]. intros c3 s4 K4 HK4 E4 Hc3. later_known E4.
  bind. eapply run_floor_of; [exact N1|carried|]. intros o2 s5 K5 z2 HK5 E5 Ho2 R2. later_known E5.
  bind. eapply run_eq_gadget; [carried..|]. intros c4 s6 K6 HK6 E6 Hc4. later_known E6.
  bind. eapply run_floor_of; [carried..|]. intros o3 s7 K7 z3 HK7 E7 Ho3 R3. later_known E7.
  bind. eapply run_eq_gadget; [carried..|]. intros c5 s8 K8 HK8 E8 Hc5. later_known E8.
  bind. eapply run_eq_gadget; [carried..|]. intros c6 s9 K9 HK9 E9 Hc6. later_known E9.
  bind. eapply run_eq_gadget; [carried..|]. intros c7 s10 K10 HK10 E10 Hc7. later_known E10.
  bind. eapply run_floor_of; [carried..|]. intros o4 s11 K11 z4 HK11 E11 Ho4 R4. later_known E11.
  bind. eapply run_eq_gadget; [carried..|]. intros c8 s12 K12 HK12 E12 Hc8. later_known E12.
  eapply run_all_of_eight; [done..|]. intros out s13 K13 b HK13 E13 Ho Hb.
  rewrite !bool_decide_eq_true in Hb. eapply HQ; [tauto|grown|exact Ho| |].
  - intros Ht. apply Hb in Ht as (? & ? & ? & ? & ? & ? & ? & ?).
    split; solve [assumption|eapply rounded_eq; eassumption].
  - intros Hr [B1 B2 B3 B4 B5 B6 B7 B8]. rewrite Hr in *. apply Hb. cbn [rounded] in *.
    split_and!; solve [assumption|etransitivity; [eassumption|symmetry; eassumption]].
Qed.
Lemma run_party1_buy s (Q : _ -> cs -> Prop -> Prop) :
  encryption_known s ->
  (forall out s' (K : Prop) b, K -> grows r s s' -> holds r s' (lc_var out) (bit_scalar b) ->
    (b = true -> sells honest v) -> (honest = true -> sells true v -> b = true) -> Q out s' K) ->
  run r (party1_buy_base_constraints_satisfied w st) s Q.
Proof.
  intros Hk HQ. pose proof (net_fraction_holds _ s (ek_fee0 _ Hk) Hk) as N0.
  pose proof (net_fraction_holds _ s (ek_fee1 _ Hk) Hk) as N1.
  destruct Hk as [Hm Hf0 Hf1 _ _ Hp0 Hp1 Hr0 Hr1 _ _ _ _ _ _ _].
  unfold match_lcs, fee_lcs, note_lcs in *. known_split Hm. known_split Hf0. known_split Hf1.
  known_split Hp0. known_split Hp1. known_split Hr0. known_split Hr1.
  unfold party1_buy_base_constraints_satisfied. cbv zeta.
  bind. eapply run_eq_gadget; [carried..|]. intros c1 s1 K1 HK1 E1 Hc1. later_known E1.
  bind. eapply run_floor_of; [exact N0|carried|]. intros o1 s2 K2 z1 HK2 E2 Ho1 R1. later_known E2.
  bind. eapply run_eq_gadget; [carried..|]. intros c2 s3 K3 HK3 E3 Hc2. later_known E3.
  bind. eapply run_floor_of; [exact N1|carried|]. intros o2 s4 K4 z2 HK4 E4 Ho2 R2. later_known E4.
  bind. eapply run_eq_gadget; [carried..|]. intros c3 s5 K5 HK5 E5 Hc3. later_known E5.
  bind. eapply run_eq_gadget; [carried..|]. intros c4 s6 K6 HK6 E6 Hc4. later_known E6.
  bind. eapply run_eq_gadget; [carried..|]. intros c5 s7 K7 HK7 E7 Hc5. later_known E7.
  bind. eapply run_floor_of; [carried..|]. intros o3 s8 K8 z3 HK8 E8 Ho3 R3. later_known E8.
  bind. eapply run_eq_gadget; [carried..|]. intros c6 s9 K9 HK9 E9 Hc6. later_known E9.
  bind. eapply run_floor_of; [carried..|]. intros o4 s10 K10 z4 HK10 E10 Ho4 R4. later_known E10.
  bind. eapply run_eq_gadget; [carried..|]. intros c7 s11 K11 HK11 E11 Hc7. later_known E11.
  bind. eapply run_eq_gadget; [carried..|]. intros c8 s12 K12 HK12 E12 Hc8. later_known E12.
  eapply run_all_of_eight; [done..|]. intros out s13 K13 b HK13 E13 Ho Hb.
  rewrite !bool_decide_eq_true in Hb. eapply HQ; [tauto|grown|exact Ho| |].
  - intros Ht. apply Hb in Ht as (? & ? & ? & ? & ? & ? & ? & ?).
    split; solve [assumption|eapply rounded_eq; eassumption].
  - intros Hr [B1 B2 B3 B4 B5 B6 B7 B8]. rewrite Hr in *. apply Hb. cbn [rounded] in *.
    split_and!; solve [assumption|etransitivity; [eassumption|symmetry; eassumption]].
Qed.

(** ** Labels *)

Lemma run_constrain_all l xs : forall s (Q : _ -> cs -> Prop -> Prop),
  Forall2 (holds r s) l xs ->
  (forall s' (K : Prop), grows r s s' -> (K <-> Forall (fun x => x = 0) xs) -> Q tt s' K) ->
  run r (constrain_all l) s Q.
Proof.
  revert xs. unfold constrain_all. induction l as [|a l IH]; intros xs s Q Hl HQ; cbn [foldM].
  - apply Forall2_nil_inv_l in Hl as ->. apply run_ret, HQ; [apply grows_refl|]. by rewrite Forall_nil.
  - apply Forall2_cons_inv_l in Hl as (x & xs' & Hx & Hl & ->). bind. eapply run_constrain; [done|].
    intros s1 K1 E1 HK1. later E1. eapply IH; [done|]. intros s2 K2 E2 HK2. apply HQ; [grown|].
    rewrite Forall_cons. tauto.
Qed.

Lemma flip_label (x d : Scalar) : x - 1 + d = 0 <-> x = 1 - d.
Proof.
  split; [|intros ->; ring]. intros H. transitivity (x - 1 + d + (1 - d)); [ring|]. rewrite H. ring.
Qed.

Lemma sum_label (x a b : Scalar) : x - a - b = 0 <-> x = a + b.
Proof.
  split; [|intros ->; ring]. intros H. transitivity (x - a - b + (a + b)); [ring|]. rewrite H. ring.
Qed.

Lemma labelled_iff n base quote side1 side2 fee_mint fee_volume fee_side kind randomness :
  labelled n base quote side1 side2 fee_mint fee_volume fee_side kind randomness <->
  n_mint1 n = base /\ n_mint2 n = quote /\ n_direction1 n = side1 /\ n_direction2 n = side2 /\
  n_fee_mint n = fee_mint /\ n_fee_volume n = fee_volume /\ n_fee_direction n = fee_side /\
  n_type n = kind /\ n_randomness n = randomness.
Proof. split; [by intros []|]. intros (? & ? & ? & ? & ? & ? & ? & ? & ?). by split. Qed.

(** Values of sums and differences of known variables *)
Ltac linear :=
  repeat first [eassumption | apply holds_one | apply holds_sub | apply holds_add].

Lemma run_labels s (Q : _ -> cs -> Prop -> Prop) :
  encryption_known s ->
  (forall s' (K : Prop), grows r s s' -> (K <-> labels_valid v) -> Q tt s' K) ->
  run r (constrain_all (note_constraints w)) s Q.
Proof.
  intros [Hm Hf0 Hf1 Hh0 Hh1 Hp0 Hp1 Hr0 Hr1 Hpr _ _ _ _ _ _] HQ.
  unfold match_lcs, fee_lcs, note_lcs in *. known_split Hm. known_split Hf0. known_split Hf1.
  known_split Hp0. known_split Hp1. known_split Hr0. known_split Hr1. known_split Hpr.
  eapply run_constrain_all; [unfold note_constraints; cbv zeta; repeat (apply Forall2_cons_2; [linear|]); constructor|].
  intros s' K E HK. apply HQ; [done|]. rewrite HK. clear HK HQ. unfold labels_valid. rewrite !labelled_iff.
  cbn [encryption_values x_match x_fee0 x_fee1 x_hash0 x_hash1 x_party0 x_party1 x_relayer0 x_relayer1 x_protocol
    note_vals n_mint1 n_mint2 n_direction1 n_direction2 n_fee_mint n_fee_volume n_fee_direction n_type n_randomness
    match_vals m_base_mint m_quote_mint m_direction fee_vals f_gas_addr f_gas_token_amount].
  split.
  - intros H. repeat (apply Forall_cons in H as [? H]).
    split_and!; first [assumption|apply flip_label; assumption|apply sum_label; assumption
      |apply scalar_sub_zero; assumption|symmetry; apply scalar_sub_zero; assumption].
  - intros. destruct_and!. repeat (apply Forall_cons_2;
      [first [assumption|apply flip_label; assumption|apply sum_label; assumption
      |apply scalar_sub_zero; assumption|apply scalar_sub_zero; symmetry; assumption]|]). constructor.
Qed.

(** ** Notes and commitments *)

Lemma select_direction (b_sell b_buy : bool) (d : Scalar) :
  1 = bit_scalar b_sell * d + bit_scalar b_buy * (1 - d) <->
  (d = 1 \/ b_buy = true) /\ (d = 0 \/ b_sell = true).
Proof.
  assert (forall x : Scalar, 1 = x <-> x = 1) as Hs by (split; congruence).
  destruct b_sell, b_buy; cbn [bit_scalar].
  - split; [auto|]. intros _. ring.
  - replace (1 * d + 0 * (1 - d)) with d by ring. rewrite Hs. naive_solver.
  - replace (0 * d + 1 * (1 - d)) with (1 - d) by ring. split.
    + intros H. split; [auto|]. left. transitivity (1 - (1 - d)); [ring|]. rewrite <- H. ring.
    + intros [_ [->|?]]; [ring|done].
  - replace (0 * d + 0 * (1 - d)) with (0 : Scalar) by ring. split.
    + intros H. by apply scalar_one_neq_zero in H.
    + intros [[->|?] [?|?]]; done.
Qed.

Lemma direction_flags b_sell b_buy :
  (b_buy = true -> buys honest v) -> (honest = true -> buys true v -> b_buy = true) ->
  (b_sell = true -> sells honest v) -> (honest = true -> sells true v -> b_sell = true) ->
  ((m_direction (x_match v) = 1 \/ b_buy = true) /\ (m_direction (x_match v) = 0 \/ b_sell = true) ->
    direction_valid honest v) /\
  (honest = true -> direction_valid honest v ->
    (m_direction (x_match v) = 1 \/ b_buy = true) /\ (m_direction (x_match v) = 0 \/ b_sell = true)).
Proof.
  intros H1 H2 H3 H4. unfold direction_valid. split; [naive_solver|]. intros Hh. rewrite Hh in *. naive_solver.
Qed.

Definition notes_valid : Prop :=
  direction_valid honest v /\
  rounded honest (x_protocol_fee v * m_base_amount (x_match v)) (n_volume1 (x_protocol v)) /\
  rounded honest (x_protocol_fee v * m_quote_amount (x_match v)) (n_volume2 (x_protocol v)) /\
  labels_valid v.

Lemma run_validate_notes s : encryption_known s ->
  run r (validate_notes w st) s (fun _ _ K => (K -> notes_valid) /\ (honest = true -> notes_valid -> K)).
Proof.
  intros Hk. unfold validate_notes.
  bind. apply run_party0_buy; [done|]. intros c1 s1 K1 b1 HK1 E1 Hc1 B1 B1'. apply (encryption_known_grows _ _ E1) in Hk.
  bind. apply run_party1_buy; [done|]. intros c2 s2 K2 b2 HK2 E2 Hc2 B2 B2'. apply (encryption_known_grows _ _ E2) in Hk.
  later E2. pose proof (ek_match _ Hk) as Hm. pose proof (ek_protocol _ Hk) as Hp. pose proof (ek_fee _ Hk) as Hf.
  unfold match_lcs, note_lcs in *. known_split Hm. known_split Hp.
  bind. eapply run_select; [carried..|]. intros o s3 K3 HK3 E3 Ho. later_known E3.
  bind. eapply run_constrain_sub; [carried..|]. intros s4 K4 E4 HK4. later_known E4.
  bind. eapply run_floor_of; [carried..|]. intros o1 s5 K5 z1 HK5 E5 Ho1 R1. later_known E5.
  bind. eapply run_floor_of; [carried..|]. intros o2 s6 K6 z2 HK6 E6 Ho2 R2. later_known E6.
  bind. eapply run_constrain_sub; [carried..|]. intros s7 K7 E7 HK7. later_known E7.
  bind. eapply run_constrain_sub; [carried..|]. intros s8 K8 E8 HK8. later_known E8.
  assert (grows r s2 s8) as E28 by grown. apply (encryption_known_grows _ _ E28) in Hk.
  apply run_labels; [done|]. intros s9 K9 E9 HK9.
  rewrite select_direction in HK4. destruct (direction_flags b2 b1 B1 B1' B2 B2') as [Hd Hd'].
  unfold notes_valid. split.
  - intros (_ & _ & _ & H4 & _ & _ & H7 & H8 & H9). split_and!; [tauto| | |tauto].
    + eapply rounded_eq; [exact R1|]. symmetry. tauto.
    + eapply rounded_eq; [exact R2|]. symmetry. tauto.
  - intros Hh (H1 & H2 & H3 & H4). specialize (Hd' Hh H1). rewrite Hh in *. cbn [rounded] in *. subst z1 z2.
    split_and!; try tauto; [apply HK7|apply HK8]; symmetry; assumption.
Qed.

Lemma run_note_commitment s n k c :
  Forall (known r s ev) (note_lcs n) -> known r s ev (lc_var k) -> known r s ev (lc_var c) ->
  run r (validate_note_commitment n k c) s (fun _ _ K =>
    K <-> committed (note_vals ev n, ev (lc_var k), ev (lc_var c))).
Proof.
  intros Hn Hk Hc. unfold validate_note_commitment.
  bind. eapply run_note_commit; [apply known_holds, Forall_app; split; [done|by repeat constructor]|].
  intros h s1 K1 HK1 E1 Hh. later_known E1.
  eapply run_constrain_sub; [carried..|]. intros s2 K2 E2 HK2. rewrite HK2. cbn [committed]. tauto.
Qed.

Lemma run_validate_note_commitments s : encryption_known s ->
  run r (validate_note_commitments w st) s (fun _ _ K => K <-> Forall committed (commitment_list ev w st)).
Proof.
  intros Hk. unfold validate_note_commitments, commitment_list.
  destruct Hk as [_ _ _ _ _ H0 H1 H2 H3 H4 _ _ _ Hkeys Hcoms _]. unfold key_lcs, commitment_lcs in *.
  known_split Hkeys. known_split Hcoms.
  bind. eapply run_mono; [by apply run_note_commitment|]. intros [] s1 K1 E1 HK1. later_known E1.
  bind. eapply run_mono; [by apply run_note_commitment|]. intros [] s2 K2 E2 HK2. later_known E2.
  bind. eapply run_mono; [by apply run_note_commitment|]. intros [] s3 K3 E3 HK3. later_known E3.
  bind. eapply run_mono; [by apply run_note_commitment|]. intros [] s4 K4 E4 HK4. later_known E4.
  eapply run_mono; [by apply run_note_commitment|]. intros [] s5 K5 E5 HK5.
  rewrite !Forall_cons, Forall_nil. tauto.
Qed.

Lemma match_encryption_valid_iff :
  match_encryption_valid honest D v <->
  Forall (encrypted honest D) (encryption_list ev w st) /\ notes_valid /\
  Forall committed (commitment_list ev w st).
Proof.
  unfold notes_valid. split; [by intros []|]. intros (? & (? & ? & ? & ?) & ?). by split.
Qed.

Lemma run_valid_match_encryption s : encryption_known s ->
  run r (valid_match_encryption D w st) s (fun _ _ K =>
    (K -> match_encryption_valid honest D v) /\ (honest = true -> match_encryption_valid honest D v -> K)).
Proof.
  intros Hk. unfold valid_match_encryption.
  bind. eapply run_mono; [by apply run_check_encryptions|]. intros [] s1 K1 E1 HK1.
  apply (encryption_known_grows _ _ E1) in Hk.
  bind. eapply run_mono; [by apply run_validate_notes|]. intros [] s2 K2 E2 [HK2 HK2'].
  apply (encryption_known_grows _ _ E2) in Hk.
  eapply run_mono; [by apply run_validate_note_commitments|]. intros [] s3 K3 E3 HK3.
  rewrite match_encryption_valid_iff. tauto.
Qed.
End blocks.
