(* ===== verification/MatchEncryptionProperties.v ===== *)
(** What a proof of VALID MATCH ENCRYPTION shows, and when an honest prover obtains one. *)

From Stdlib Require Import Zmod.
From S2P Require Import Prelude Primality Field ConstraintSystem ListR1CS Gates Comparators.
From S2P Require Import Arithmetic FixedPoint PoseidonConstants Poseidon Types MatchTypes Merkle.
From S2P Require Import Commitments ElGamal Readings Statements ValidMatchEncryption.

#[local] Open Scope Zmod_scope.
#[local] Open Scope circuit_scope.

(** * The variables that a prover commits to *)

Section committed_values.
  Context {C : ConstraintSystem} {L : ConstraintSystemLaws C} {P : ProverLaws C}.

#[export] Instance ciphertext_commit : CommitProver ElGamalCiphertext ElGamalCiphertextVar := {|
  commit_prover := commit_public_ciphertext; var_lcs := ciphertext_lcs;
  encoding c := [partial_shared_secret c; encrypted_message c] |}.

#[export] Instance ciphertext_commit_spec : CommitProverSpec ciphertext_commit.
Proof.
  intros x s Q HQ. cbn [commit_prover ciphertext_commit]. unfold commit_public_ciphertext.
  apply wp_bind, wp_commit_public. intros v1 s1 E1 H1 V1. advance E1.
  apply wp_bind, wp_commit_public. intros v2 s2 E2 H2 V2. advance E2.
  apply wp_ret, HQ; [done|extended|]. split; cbn; [by repeat constructor|by rewrite V1, V2].
Qed.

(** A public scalar and a public fixed-point value *)
Definition public_allocated (s : cs) (x : Scalar) (a : LinearCombination) : Prop := lc_scoped s a /\ value s a = x.

Lemma public_allocated_extends s s' x a : extends s s' -> public_allocated s x a -> public_allocated s' x a.
Proof. intros E [H V]. split; [by eapply extends_scoped|]. by rewrite (extends_value s s'). Qed.

(** The variables of the witness hold its encoding. *)
Record witness_allocated (s : cs) (w : ValidMatchEncryptionWitness) (x : ValidMatchEncryptionWitnessVar) : Prop := {
  al_match : allocated s (ew_match_res w) (xw_match_res x);
  al_fee0 : allocated s (ew_party0_fee w) (xw_party0_fee x);
  al_fee1 : allocated s (ew_party1_fee w) (xw_party1_fee x);
  al_hash0 : allocated s (ew_party0_randomness_hash w) (xw_party0_randomness_hash x);
  al_hash1 : allocated s (ew_party1_randomness_hash w) (xw_party1_randomness_hash x);
  al_party0 : allocated s (ew_party0_note w) (xw_party0_note x);
  al_party1 : allocated s (ew_party1_note w) (xw_party1_note x);
  al_relayer0 : allocated s (ew_relayer0_note w) (xw_relayer0_note x);
  al_relayer1 : allocated s (ew_relayer1_note w) (xw_relayer1_note x);
  al_protocol : allocated s (ew_protocol_note w) (xw_protocol_note x);
  al_randomness : Forall (lc_scoped s) (lc_var <$> xw_elgamal_randomness x);
  al_randomness_values : value s <$> (lc_var <$> xw_elgamal_randomness x) = ew_elgamal_randomness w;
}.

(** Moves what is allocated to the next state. *)
Ltac bring E :=
  match type of E with
  | extends ?s ?s' =>
      repeat match goal with
      | H : allocated s _ _ |- _ => apply (allocated_extends s s' _ _ E) in H
      | H : public_allocated s _ _ |- _ => apply (public_allocated_extends s s' _ _ E) in H
      end
  end.

Lemma wp_commit_encryption_witness w s (Q : _ -> cs -> Prop -> Prop) :
  (forall x s' (K : Prop), K -> extends s s' -> witness_allocated s' w x -> Q x s' K) ->
  wp (commit_encryption_witness w) s Q.
Proof.
  intros HQ. unfold commit_encryption_witness.
  apply wp_bind, (wp_commit_prover (T := linkable_match_commit)). intros y1 s1 K1 HK1 E1 A1.
  apply wp_bind, (wp_commit_prover (T := linkable_fee_commit)). intros y2 s2 K2 HK2 E2 A2. bring E2.
  apply wp_bind, (wp_commit_prover (T := linkable_fee_commit)). intros y3 s3 K3 HK3 E3 A3. bring E3.
  apply wp_bind, (wp_commit_prover (T := linkable_commit)). intros y4 s4 K4 HK4 E4 A4. bring E4.
  apply wp_bind, (wp_commit_prover (T := linkable_commit)). intros y5 s5 K5 HK5 E5 A5. bring E5.
  apply wp_bind, (wp_commit_prover (T := note_commit_prover)). intros y6 s6 K6 HK6 E6 A6. bring E6.
  apply wp_bind, (wp_commit_prover (T := note_commit_prover)). intros y7 s7 K7 HK7 E7 A7. bring E7.
  apply wp_bind, (wp_commit_prover (T := note_commit_prover)). intros y8 s8 K8 HK8 E8 A8. bring E8.
  apply wp_bind, (wp_commit_prover (T := note_commit_prover)). intros y9 s9 K9 HK9 E9 A9. bring E9.
  apply wp_bind, (wp_commit_prover (T := note_commit_prover)). intros y10 s10 K10 HK10 E10 A10. bring E10.
  apply wp_bind, wp_commit_list. intros vs s11 K11 HK11 E11 Hs Hv. bring E11.
  apply wp_ret, HQ; [done|extended|by constructor].
Qed.

Ltac commit_scalar v s E A :=
  apply wp_bind, wp_commit_public;
  let H := fresh in let V := fresh in intros v s E H V; assert (A := conj H V : public_allocated s _ (lc_var v));
  clear H V.

(** The variables of the statement hold its values. *)
Record statement_allocated (s : cs) (st : ValidMatchEncryptionStatement) (x : ValidMatchEncryptionStatementVar)
    : Prop := {
  al_party0_note_commit : public_allocated s (es_party0_note_commit st) (lc_var (xs_party0_note_commit x));
  al_party1_note_commit : public_allocated s (es_party1_note_commit st) (lc_var (xs_party1_note_commit x));
  al_relayer0_note_commit : public_allocated s (es_relayer0_note_commit st) (lc_var (xs_relayer0_note_commit x));
  al_relayer1_note_commit : public_allocated s (es_relayer1_note_commit st) (lc_var (xs_relayer1_note_commit x));
  al_protocol_note_commit : public_allocated s (es_protocol_note_commit st) (lc_var (xs_protocol_note_commit x));
  al_pk_settle_party0 : public_allocated s (es_pk_settle_party0 st) (lc_var (xs_pk_settle_party0 x));
  al_pk_settle_party1 : public_allocated s (es_pk_settle_party1 st) (lc_var (xs_pk_settle_party1 x));
  al_pk_settle_relayer0 : public_allocated s (es_pk_settle_relayer0 st) (lc_var (xs_pk_settle_relayer0 x));
  al_pk_settle_relayer1 : public_allocated s (es_pk_settle_relayer1 st) (lc_var (xs_pk_settle_relayer1 x));
  al_pk_settle_protocol : public_allocated s (es_pk_settle_protocol st) (lc_var (xs_pk_settle_protocol x));
  al_protocol_fee : public_allocated s (FixedPoint.repr (es_protocol_fee st)) (FixedPointVar.repr (xs_protocol_fee x));
  al_volume1_ciphertext1 : allocated s (es_volume1_ciphertext1 st) (xs_volume1_ciphertext1 x);
  al_volume2_ciphertext1 : allocated s (es_volume2_ciphertext1 st) (xs_volume2_ciphertext1 x);
  al_volume1_ciphertext2 : allocated s (es_volume1_ciphertext2 st) (xs_volume1_ciphertext2 x);
  al_volume2_ciphertext2 : allocated s (es_volume2_ciphertext2 st) (xs_volume2_ciphertext2 x);
  al_mint1_protocol_ciphertext : allocated s (es_mint1_protocol_ciphertext st) (xs_mint1_protocol_ciphertext x);
  al_volume1_protocol_ciphertext : allocated s (es_volume1_protocol_ciphertext st) (xs_volume1_protocol_ciphertext x);
  al_mint2_protocol_ciphertext : allocated s (es_mint2_protocol_ciphertext st) (xs_mint2_protocol_ciphertext x);
  al_volume2_protocol_ciphertext : allocated s (es_volume2_protocol_ciphertext st) (xs_volume2_protocol_ciphertext x);
  al_randomness_protocol_ciphertext : allocated s (es_randomness_protocol_ciphertext st) (xs_randomness_protocol_ciphertext x);
}.

Lemma wp_commit_encryption_statement st s (Q : _ -> cs -> Prop -> Prop) :
  (forall x s' (K : Prop), K -> extends s s' -> statement_allocated s' st x -> Q x s' K) ->
  wp (commit_encryption_statement st) s Q.
Proof.
  intros HQ. unfold commit_encryption_statement.
  commit_scalar v1 s1 E1 A1.
  commit_scalar v2 s2 E2 A2. bring E2.
  commit_scalar v3 s3 E3 A3. bring E3.
  commit_scalar v4 s4 E4 A4. bring E4.
  commit_scalar v5 s5 E5 A5. bring E5.
  commit_scalar v6 s6 E6 A6. bring E6.
  commit_scalar v7 s7 E7 A7. bring E7.
  commit_scalar v8 s8 E8 A8. bring E8.
  commit_scalar v9 s9 E9 A9. bring E9.
  commit_scalar v10 s10 E10 A10. bring E10.
  apply wp_bind. unfold FixedPointVar.commit_public. commit_scalar v11 s11 E11 A11. apply wp_ret. bring E11.
  apply wp_bind, (wp_commit_prover (T := ciphertext_commit)). intros v12 s12 K12 HK12 E12 A12. bring E12.
  apply wp_bind, (wp_commit_prover (T := ciphertext_commit)). intros v13 s13 K13 HK13 E13 A13. bring E13.
  apply wp_bind, (wp_commit_prover (T := ciphertext_commit)). intros v14 s14 K14 HK14 E14 A14. bring E14.
  apply wp_bind, (wp_commit_prover (T := ciphertext_commit)). intros v15 s15 K15 HK15 E15 A15. bring E15.
  apply wp_bind, (wp_commit_prover (T := ciphertext_commit)). intros v16 s16 K16 HK16 E16 A16. bring E16.
  apply wp_bind, (wp_commit_prover (T := ciphertext_commit)). intros v17 s17 K17 HK17 E17 A17. bring E17.
  apply wp_bind, (wp_commit_prover (T := ciphertext_commit)). intros v18 s18 K18 HK18 E18 A18. bring E18.
  apply wp_bind, (wp_commit_prover (T := ciphertext_commit)). intros v19 s19 K19 HK19 E19 A19. bring E19.
  apply wp_bind, (wp_commit_prover (T := ciphertext_commit)). intros v20 s20 K20 HK20 E20 A20. bring E20.
  apply wp_ret, HQ; [tauto|extended|by constructor].
Qed.

Lemma witness_allocated_extends s s' w x : extends s s' -> witness_allocated s w x -> witness_allocated s' w x.
Proof.
  intros E []. constructor; eauto using allocated_extends; [by eapply extends_scoped_list|].
  by rewrite (extends_value_list s s').
Qed.

Lemma known_allocated {A B} {T : CommitProver A B} s (a : A) (b : B) :
  allocated s a b -> Forall (known Honest s (value s)) (var_lcs b).
Proof. intros [H _]. by apply known_honest. Qed.

Lemma known_public s x a : public_allocated s x a -> known Honest s (value s) a.
Proof. by intros [H _]. Qed.

Lemma allocated_known s w st x y :
  length (ew_elgamal_randomness w) = NUM_ENCRYPTIONS ->
  witness_allocated s w x -> statement_allocated s st y -> encryption_known Honest (value s) x y s.
Proof.
  intros Hl Hw Hs. constructor;
    try (first [exact (known_allocated _ _ _ (al_match _ _ _ Hw)) | exact (known_allocated _ _ _ (al_fee0 _ _ _ Hw))
      | exact (known_allocated _ _ _ (al_fee1 _ _ _ Hw)) | exact (known_allocated _ _ _ (al_party0 _ _ _ Hw))
      | exact (known_allocated _ _ _ (al_party1 _ _ _ Hw)) | exact (known_allocated _ _ _ (al_relayer0 _ _ _ Hw))
      | exact (known_allocated _ _ _ (al_relayer1 _ _ _ Hw)) | exact (known_allocated _ _ _ (al_protocol _ _ _ Hw)) ]).
  - apply Forall_singleton, (known_allocated _ _ _ (al_hash0 _ _ _ Hw)).
  - apply Forall_singleton, (known_allocated _ _ _ (al_hash1 _ _ _ Hw)).
  - apply known_honest, Hw.
  - rewrite <- (al_randomness_values _ _ _ Hw), !length_fmap in Hl. done.
  - eapply known_public, Hs.
  - destruct Hs. unfold key_lcs. repeat (apply Forall_cons_2; [by eapply known_public|]). constructor.
  - destruct Hs. unfold commitment_lcs. repeat (apply Forall_cons_2; [by eapply known_public|]). constructor.
  - destruct Hs. unfold statement_ciphertexts.
    repeat (apply Forall_cons_2; [by eapply (known_allocated (T := ciphertext_commit))|]). constructor.
Qed.

Lemma note_allocated s n x : allocated s n x -> note_vals (value s) x = native_note n.
Proof.
  intros [_ H]. cbn [var_lcs encoding note_commit_prover] in H. unfold note_lcs in H. cbn [fmap list_fmap] in H.
  injection H as H1 H2 H3 H4 H5 H6 H7 H8 H9 H10 H11. unfold note_vals, native_note. by f_equal.
Qed.

Lemma ciphertext_allocated s c x : allocated s c x ->
  (value s (lc_var (cv_partial_shared_secret x)), value s (lc_var (cv_encrypted_message x))) =
  (partial_shared_secret c, encrypted_message c).
Proof. intros [_ H]. injection H as H1 H2. by rewrite H1, H2. Qed.

Lemma randomness_allocated s w x i : witness_allocated s w x ->
  (fun v => value s (lc_var v)) <$> xw_elgamal_randomness x !! i = ew_elgamal_randomness w !! i.
Proof.
  intros Hw. rewrite <- (al_randomness_values _ _ _ Hw), !list_lookup_fmap. by destruct (_ !! i).
Qed.

Lemma match_allocated s m x : allocated s m x -> match_vals (value s) x = native_match m.
Proof.
  intros [_ H]. cbn [var_lcs encoding linkable_match_commit] in H. unfold match_lcs in H. cbn [fmap list_fmap] in H.
  injection H as H1 H2 H3 H4 H5 H6 H7 H8. unfold match_vals, native_match. by f_equal.
Qed.

Lemma fee_allocated s f x : allocated s f x -> fee_vals (value s) x = native_fee f.
Proof.
  intros [_ H]. cbn [var_lcs encoding linkable_fee_commit] in H. unfold fee_lcs in H. cbn [fmap list_fmap] in H.
  injection H as H1 H2 H3 H4. unfold fee_vals, native_fee. by f_equal.
Qed.

Lemma linkable_allocated s l x : allocated s l x -> value s (lc_var x) = lk_val l.
Proof. intros [_ H]. by injection H. Qed.

Lemma encryption_allocated s w x i (m k : R1CSVar) m' k' c c' :
  witness_allocated s w x -> value s (lc_var m) = m' -> value s (lc_var k) = k' -> allocated s c c' ->
  encryption_vals (value s) x i m k c' =
    (ew_elgamal_randomness w !! i, m', k', (partial_shared_secret c, encrypted_message c)).
Proof.
  intros Hw <- <- Hc. unfold encryption_vals. by rewrite (randomness_allocated _ _ _ _ Hw), (ciphertext_allocated _ _ _ Hc).
Qed.

Lemma note_fields s n x : allocated s n x ->
  value s (lc_var (nv_volume1 x)) = n_volume1 (native_note n) /\
  value s (lc_var (nv_volume2 x)) = n_volume2 (native_note n) /\
  value s (lc_var (nv_mint1 x)) = n_mint1 (native_note n) /\
  value s (lc_var (nv_mint2 x)) = n_mint2 (native_note n) /\
  value s (lc_var (nv_randomness x)) = n_randomness (native_note n).
Proof. intros H. by rewrite <- (note_allocated _ _ _ H). Qed.

Lemma encryptions_allocated s w st x y :
  witness_allocated s w x -> statement_allocated s st y ->
  encryption_list (value s) x y = native_encryptions w st.
Proof.
  intros Hw Hs. unfold encryption_list, native_encryptions. cbv zeta.
  destruct (note_fields _ _ _ (al_party0 _ _ _ Hw)) as (P1 & P2 & _).
  destruct (note_fields _ _ _ (al_party1 _ _ _ Hw)) as (Q1 & Q2 & _).
  destruct (note_fields _ _ _ (al_protocol _ _ _ Hw)) as (R1 & R2 & R3 & R4 & R5).
  destruct Hs as [_ _ _ _ _ [_ K0] [_ K1] _ _ [_ K2] _ A1 A2 A3 A4 A5 A6 A7 A8 A9].
  repeat (apply cons_eq; [by apply encryption_allocated|]). done.
Qed.

Lemma commitments_allocated s w st x y :
  witness_allocated s w x -> statement_allocated s st y ->
  commitment_list (value s) x y = native_commitments w st.
Proof.
  intros Hw Hs. unfold commitment_list, native_commitments.
  rewrite (note_allocated _ _ _ (al_party0 _ _ _ Hw)), (note_allocated _ _ _ (al_party1 _ _ _ Hw)),
    (note_allocated _ _ _ (al_relayer0 _ _ _ Hw)), (note_allocated _ _ _ (al_relayer1 _ _ _ Hw)),
    (note_allocated _ _ _ (al_protocol _ _ _ Hw)).
  destruct Hs as [[_ C0] [_ C1] [_ C2] [_ C3] [_ C4] [_ K0] [_ K1] [_ K2] [_ K3] [_ K4] _ _ _ _ _ _ _ _ _ _].
  by rewrite C0, C1, C2, C3, C4, K0, K1, K2, K3, K4.
Qed.

Lemma allocated_values s w st x y :
  witness_allocated s w x -> statement_allocated s st y ->
  encryption_values (value s) x y = native_values w st.
Proof.
  intros Hw Hs. unfold encryption_values, native_values.
  rewrite (encryptions_allocated s w st), (commitments_allocated s w st) by done.
  f_equal; eauto using match_allocated, fee_allocated, linkable_allocated, note_allocated, al_match, al_fee0, al_fee1,
    al_hash0, al_hash1, al_party0, al_party1, al_relayer0, al_relayer1, al_protocol.
  apply Hs.
Qed.
End committed_values.

(** * Correctness *)

Section correctness.
  Context {C : ConstraintSystem} {L : ConstraintSystemLaws C} {P : ProverLaws C}.

Lemma wp_prove_match_encryption D w st s :
  (D <= 256)%nat -> length (ew_elgamal_randomness w) = NUM_ENCRYPTIONS ->
  wp (prove_match_encryption D w st) s (fun _ _ K => K <-> match_encryption_valid true D (native_values w st)).
Proof.
  intros HD Hl. unfold prove_match_encryption.
  apply wp_bind, wp_commit_encryption_witness. intros x s1 K1 HK1 E1 A1.
  apply wp_bind, wp_commit_encryption_statement. intros y s2 K2 HK2 E2 A2.
  apply (witness_allocated_extends s1 s2) in A1; [|done].
  rewrite <- (allocated_values s2 w st x y) by done.
  eapply wp_mono; [apply (run_valid_match_encryption D HD Honest (value s2)); by eapply allocated_known|].
  cbn beta. intros [] s' K _ HK. cbn [is_honest] in HK. tauto.
Qed.

(** C8: VALID MATCH ENCRYPTION.  In every satisfying assignment the notes are labelled by the match and the fees, carry
    the amounts of the match that are not rounded, and are committed to under the public keys; volumes after fees
    and ciphertexts are not determined.  The honest prover that commits to a witness and a statement passes exactly
    when all of this holds, the rounded volumes are the floors, and the ciphertexts are the encryptions. *)
Theorem valid_match_encryption_correct D w st s :
  (D <= 256)%nat -> length (ew_elgamal_randomness w) = NUM_ENCRYPTIONS ->
  (forall x y, length (xw_elgamal_randomness x) = NUM_ENCRYPTIONS ->
    sound (valid_match_encryption D x y) (fun a _ =>
      match_encryption_valid false D (encryption_values (lc_eval a) x y))) /\
  wp (prove_match_encryption D w st) s (fun _ _ K => K <-> match_encryption_valid true D (native_values w st)).
Proof.
  intros HD Hl. split.
  - intros x y Hx. apply sound_of_run; [apply _|]. intros a Ha s1.
    eapply run_mono; [apply (run_valid_match_encryption D HD (Any a Ha) (lc_eval a) x y)|].
    + constructor; try done; try apply known_any. apply Forall_forall. intros c _. apply known_any.
    + cbn beta. intros [] s' K _ [HK _]. exact HK.
  - by apply wp_prove_match_encryption.
Qed.
End correctness.

(** ** Witness *)

Definition sample_trade_note : Note := {|
  note_mint1 := 6; note_volume1 := 10; note_direction1 := Buy; note_mint2 := 5; note_volume2 := 100;
  note_direction2 := Sell; note_fee_mint := 2; note_fee_volume := 3; note_fee_direction := Sell;
  note_type := NoteMatch; note_randomness := 0 |}.

Definition sample_encryption_witness : ValidMatchEncryptionWitness := {|
  ew_match_res := sample_match_result; ew_party0_fee := sample_fee; ew_party1_fee := sample_fee;
  ew_party0_randomness_hash := sample_link 0; ew_party1_randomness_hash := sample_link 0;
  ew_party0_note := sample_trade_note; ew_party1_note := sample_trade_note;
  ew_relayer0_note := sample_trade_note; ew_relayer1_note := sample_trade_note;
  ew_protocol_note := sample_trade_note;
  ew_elgamal_randomness := replicate 9 1 |}.

Definition sample_encryption_statement : ValidMatchEncryptionStatement :=
  let c := {| partial_shared_secret := 1; encrypted_message := 1 |} in {|
  es_party0_note_commit := 1; es_party1_note_commit := 1; es_relayer0_note_commit := 1; es_relayer1_note_commit := 1;
  es_protocol_note_commit := 1; es_pk_settle_party0 := 1; es_pk_settle_party1 := 1; es_pk_settle_relayer0 := 1;
  es_pk_settle_relayer1 := 1; es_pk_settle_protocol := 1; es_protocol_fee := FixedPoint.from_u64 1;
  es_volume1_ciphertext1 := c; es_volume2_ciphertext1 := c; es_volume1_ciphertext2 := c;
  es_volume2_ciphertext2 := c; es_mint1_protocol_ciphertext := c; es_volume1_protocol_ciphertext := c;
  es_mint2_protocol_ciphertext := c; es_volume2_protocol_ciphertext := c;
  es_randomness_protocol_ciphertext := c |}.

Lemma valid_match_encryption_correct_witness :
  length (ew_elgamal_randomness sample_encryption_witness) = NUM_ENCRYPTIONS /\
  wp (prove_match_encryption (C := list_cs) 252 sample_encryption_witness sample_encryption_statement)
    (with_values []) (fun _ _ K =>
    K <-> match_encryption_valid true 252 (native_values sample_encryption_witness sample_encryption_statement)).
Proof.
  split; [reflexivity|].
  apply (valid_match_encryption_correct (C := list_cs) 252 sample_encryption_witness sample_encryption_statement
    (with_values []));
    [by apply Nat.leb_le|reflexivity].
Defined.
