(* ===== verification/Lru.v ===== *)
(** The least-recently-used caches of the relayer.

    The cache is a library.  Its documentation describes it by its entries, the most
    recently used first: [push] and [put] store an entry at the front and evict the last one
    when the cache is full, [get] moves the entry it finds to the front, [pop] removes one,
    and [peek] does not count as a use. *)

From stdpp Require Import base list.
From S2P Require Import Prelude.

#[global] Set Default Goal Selector "!".

Class LruCache (K V : Type) `{EqDecision K} := {
  lru : Type;
  lru_new : nat -> lru;
  lru_push : K -> V -> lru -> lru;
  lru_get : K -> lru -> option V * lru;
  lru_pop : K -> lru -> lru;
  lru_peek : lru -> K -> option V;
  lru_len : lru -> nat;
  lru_cap : lru -> nat;
  lru_entries : lru -> list (K * V);
}.

Fixpoint assoc {K V} `{EqDecision K} (l : list (K * V)) (k : K) : option V :=
  match l with
  | [] => None
  | (k', v) :: l' => if decide (k' = k) then Some v else assoc l' k
  end.

Definition others {K V} `{EqDecision K} (k : K) (l : list (K * V)) : list (K * V) :=
  filter (fun p => p.1 <> k) l.

Class LruCacheLaws (K V : Type) `{T : LruCache K V} : Prop := {
  entries_new cap : lru_entries (lru_new cap) = [];
  cap_new cap : lru_cap (lru_new cap) = cap;
  entries_push k v c : lru_entries (lru_push k v c) = take (lru_cap c) ((k, v) :: others k (lru_entries c));
  cap_push k v c : lru_cap (lru_push k v c) = lru_cap c;
  get_result k c : (lru_get k c).1 = assoc (lru_entries c) k;
  entries_get k c : lru_entries (lru_get k c).2 =
    match assoc (lru_entries c) k with
    | Some v => (k, v) :: others k (lru_entries c)
    | None => lru_entries c
    end;
  cap_get k c : lru_cap (lru_get k c).2 = lru_cap c;
  entries_pop k c : lru_entries (lru_pop k c) = others k (lru_entries c);
  cap_pop k c : lru_cap (lru_pop k c) = lru_cap c;
  peek_entries c k : lru_peek c k = assoc (lru_entries c) k;
  len_entries c : lru_len c = length (lru_entries c);
}.

(** * Facts *)

Lemma assoc_others_ne {K V} `{EqDecision K} (k k' : K) (l : list (K * V)) :
  k' <> k -> assoc (others k l) k' = assoc l k'.
Proof.
  intros Hne. unfold others. induction l as [|[k1 v] l IH]; [done|]. cbn [assoc].
  rewrite filter_cons. case_decide as Hk; cbn in Hk; [cbn; by rewrite IH|].
  rewrite IH. rewrite decide_False; [done|]. congruence.
Qed.

(** The number of entries that are used more recently than a key. *)
Fixpoint depth {K V} `{EqDecision K} (l : list (K * V)) (k : K) : nat :=
  match l with
  | [] => 0
  | (k', _) :: l' => if decide (k' = k) then 0 else S (depth l' k)
  end.

Lemma assoc_take {K V} `{EqDecision K} (l : list (K * V)) k v n :
  assoc l k = Some v -> depth l k < n -> assoc (take n l) k = Some v /\ depth (take n l) k = depth l k.
Proof.
  revert n; induction l as [|[k' v'] l IH]; intros n; [done|]. cbn [assoc depth].
  destruct n as [|n]; [lia|]. cbn [take assoc depth]. case_decide; [done|].
  intros Ha Hn. destruct (IH n) as [H1 H2]; [done|lia|]. by rewrite H1, H2.
Qed.

Lemma depth_others {K V} `{EqDecision K} (l : list (K * V)) k k' :
  k' <> k -> depth (others k' l) k <= depth l k.
Proof.
  intros Hne. unfold others. induction l as [|[k1 v] l IH]; [done|]. rewrite filter_cons. cbn [depth].
  case_decide as Hk; cbn [fst] in Hk.
  - cbn [depth]. case_decide; lia.
  - rewrite decide_False; [lia|]. congruence.
Qed.

Section laws.
  Context {K V : Type} `{Laws : LruCacheLaws K V}.

(** An entry survives as many uses of other keys as the cache has room for. *)
Lemma push_keeps c k v k' v' :
  k' <> k -> lru_peek c k = Some v -> depth (lru_entries c) k + 1 < lru_cap c ->
  lru_peek (lru_push k' v' c) k = Some v /\
  depth (lru_entries (lru_push k' v' c)) k <= depth (lru_entries c) k + 1.
Proof.
  intros Hne Hp Hd. rewrite peek_entries in *. rewrite entries_push.
  pose proof (depth_others (lru_entries c) k k' Hne) as Ho.
  destruct (assoc_take ((k', v') :: others k' (lru_entries c)) k v (lru_cap c)) as [H1 H2].
  - cbn. rewrite decide_False by done. by rewrite assoc_others_ne by done.
  - cbn. rewrite decide_False by done. lia.
  - rewrite H1, H2. split; [done|]. cbn. rewrite decide_False by done. lia.
Qed.

Lemma push_front c k v : lru_cap c <> 0 ->
  lru_peek (lru_push k v c) k = Some v /\ depth (lru_entries (lru_push k v c)) k = 0.
Proof.
  intros Hc. rewrite peek_entries, entries_push.
  destruct (lru_cap c); [done|]. cbn. by rewrite !decide_True.
Qed.

End laws.

(** * An instance *)

(** The cache as the list of its entries. *)
Definition list_lru (K V : Type) `{EqDecision K} : LruCache K V := {|
  lru := nat * list (K * V);
  lru_new cap := (cap, []);
  lru_push k v c := (c.1, take c.1 ((k, v) :: others k c.2));
  lru_get k c := (assoc c.2 k,
    (c.1, match assoc c.2 k with Some v => (k, v) :: others k c.2 | None => c.2 end));
  lru_pop k c := (c.1, others k c.2);
  lru_peek c k := assoc c.2 k;
  lru_len c := length c.2;
  lru_cap c := c.1;
  lru_entries c := c.2 |}.

Lemma list_lru_laws (K V : Type) `{EqDecision K} : LruCacheLaws K V (T := list_lru K V).
Proof. by split. Qed.
