(* ===== verification/RelayerTypes.v ===== *)
(** The data that the parts of the relayer exchange: identifiers, peers, the state of an
    order in the network, the proof bundle of an order, the messages of the system bus and
    the messages for the network manager
    (core/src/{types,gossip/types,state/orderbook,proof_generation/jobs,gossip_api/*}.rs). *)

From Stdlib Require Import Zmod.
From stdpp Require Import gmap strings.
From S2P Require Import Prelude Primality Field.

#[global] Set Default Goal Selector "!".

(** * What is not the relayer's own

    The types of libp2p and of the proof system, and the types of the circuits and of the
    price reporter that the relayer's state stores without looking into them. *)
Class Foreign := {
  PeerId : Type;
  PeerId_eq_dec :: EqDecision PeerId;
  PeerId_countable :: Countable PeerId;
  Multiaddr : Type;
  R1CSProof : Type;
  ValidCommitmentsWitnessCommitment : Type;
  SizedValidCommitmentsWitness : Type;
  PriceReport : Type;
  QuicTwoPartyNet : Type;
}.

(** A hash map or hash set is visited in an order that depends on its random keys: any
    order of its elements. *)
Class HashOrder := {
  visit : forall {K A} `{Countable K}, gmap K A -> list (K * A);
  visit_perm : forall {K A} `{Countable K} (m : gmap K A), visit m ≡ₚ map_to_list m;
  visit_set : forall {K} `{Countable K}, gset K -> list K;
  visit_set_perm : forall {K} `{Countable K} (X : gset K), visit_set X ≡ₚ elements X;
}.

(** The opposite order is as good. *)
Definition opposite_order (H : HashOrder) : HashOrder.
Proof.
  refine {| visit := fun K A _ _ m => reverse (visit m); visit_set := fun K _ _ X => reverse (visit_set X) |}.
  - intros. by rewrite reverse_Permutation, visit_perm.
  - intros. by rewrite reverse_Permutation, visit_set_perm.
Defined.

Section visit.
  Context `{HashOrder}.

Lemma elem_of_visit_set `{Countable K} (X : gset K) x : x ∈ visit_set X <-> x ∈ X.
Proof. by rewrite visit_set_perm, elem_of_elements. Qed.

Lemma elem_of_visit {A} `{Countable K} (m : gmap K A) k x : (k, x) ∈ visit m <-> m !! k = Some x.
Proof. by rewrite visit_perm, elem_of_map_to_list. Qed.
End visit.

#[export] Instance scalar_countable : Countable Scalar.
Proof.
  apply (inj_countable' (fun x : Scalar => Zmod.to_Z x) (fun z => Zmod.of_Z _ z)).
  intros x. apply Zmod.of_Z_to_Z.
Defined.

(** A universally unique identifier is a 128-bit number that is only compared. *)
Abbreviation Uuid := N (only parsing).
Abbreviation OrderIdentifier := N (only parsing).
Abbreviation WalletIdentifier := N (only parsing).
Abbreviation Nullifier := Scalar (only parsing).

(** [ClusterId(String)] *)
Abbreviation ClusterId := string (only parsing).

(** * Orders in the network *)

Inductive NetworkOrderState :=
  | Received
  | Verified
  | Matched (by_local_node : bool)
  | Cancelled
  | Pruned.

#[export] Instance NetworkOrderState_eq_dec : EqDecision NetworkOrderState.
Proof. solve_decision. Defined.

Section types.
  Context `{Foreign}.

(** [ValidCommitmentsStatement] *)
Record ValidCommitmentsStatement := {
  st_nullifier : Nullifier;
  st_merkle_root : Scalar;
  st_pk_settle : Scalar;
}.

(** [ValidCommitmentsBundle] *)
Record ValidCommitmentsBundle := {
  vc_commitment : ValidCommitmentsWitnessCommitment;
  vc_statement : ValidCommitmentsStatement;
  vc_proof : R1CSProof;
}.

Record NetworkOrder := {
  no_id : OrderIdentifier;
  no_match_nullifier : Nullifier;
  no_local : bool;
  no_cluster : ClusterId;
  no_state : NetworkOrderState;
  no_valid_commit_proof : option ValidCommitmentsBundle;
  no_valid_commit_witness : option SizedValidCommitmentsWitness;
}.

Inductive SystemBusMessage :=
  | HandshakeInProgress (local_order_id peer_order_id : OrderIdentifier)
  | HandshakeCompleted (local_order_id peer_order_id : OrderIdentifier)
  | OrderStateChange (order_id : OrderIdentifier) (prev_state new_state : NetworkOrderState)
  | PriceReportMedian (report : PriceReport)
  | PriceReportExchange (report : PriceReport).

(** * Peers *)

(** [PeerInfo]; the atomic heartbeat time is a 64-bit number of seconds. *)
Record PeerInfo := {
  pi_peer_id : PeerId;
  pi_addr : Multiaddr;
  pi_last_heartbeat : Z;
  pi_cluster_id : ClusterId;
  pi_cluster_auth_signature : list Byte.byte;
}.

(** [PeerInfo::successful_heartbeat] at time [now] *)
Definition successful_heartbeat (now : Z) (info : PeerInfo) : PeerInfo := {|
  pi_peer_id := pi_peer_id info;
  pi_addr := pi_addr info;
  pi_last_heartbeat := now;
  pi_cluster_id := pi_cluster_id info;
  pi_cluster_auth_signature := pi_cluster_auth_signature info;
|}.
End types.

(** [CLUSTER_MANAGEMENT_TOPIC_PREFIX], [ClusterId::get_management_topic] *)
Definition CLUSTER_MANAGEMENT_TOPIC_PREFIX : string := "cluster-management".

Definition get_management_topic (self : ClusterId) : string :=
  CLUSTER_MANAGEMENT_TOPIC_PREFIX +:+ "-" +:+ self.

(** [HANDSHAKE_STATUS_TOPIC], [ORDER_STATE_CHANGE_TOPIC] *)
Definition HANDSHAKE_STATUS_TOPIC : string := "handshakes".
Definition ORDER_STATE_CHANGE_TOPIC : string := "order-state".

(** * A concrete choice, for examples *)

Definition sample_foreign : Foreign := {|
  PeerId := N; Multiaddr := N; R1CSProof := N; ValidCommitmentsWitnessCommitment := N;
  SizedValidCommitmentsWitness := N; PriceReport := N; QuicTwoPartyNet := N |}.

Definition sorted_order : HashOrder := {|
  visit := fun K A _ _ m => map_to_list m;
  visit_perm := fun K A _ _ m => reflexivity _;
  visit_set := fun K _ _ X => elements X;
  visit_set_perm := fun K _ _ X => reflexivity _ |}.
