(* ===== verification/OrderBook.v ===== *)
(** The order book: core/src/state/orderbook.rs.

    The book is shared behind one lock, which a caller of an operation that changes it
    holds for writing; an operation is one function of the book.  The locks inside the
    book then have no other holder. *)

From Stdlib Require Import Zmod.
From stdpp Require Import gmap strings.
From S2P Require Import Prelude Primality Field RelayerTypes.

#[global] Set Default Goal Selector "!".

Section orderbook.
  Context `{F : Foreign}.

(** * Orders *)

(** [NetworkOrder::new] *)
Definition order_new (order_id : OrderIdentifier) (match_nullifier : Nullifier)
    (cluster : ClusterId) (local : bool) : NetworkOrder := {|
  no_id := order_id;
  no_match_nullifier := match_nullifier;
  no_local := local;
  no_cluster := cluster;
  no_state := Received;
  no_valid_commit_proof := None;
  no_valid_commit_witness := None;
|}.

Definition with_state (self : NetworkOrder) (st : NetworkOrderState) : NetworkOrder := {|
  no_id := no_id self;
  no_match_nullifier := no_match_nullifier self;
  no_local := no_local self;
  no_cluster := no_cluster self;
  no_state := st;
  no_valid_commit_proof := no_valid_commit_proof self;
  no_valid_commit_witness := no_valid_commit_witness self;
|}.

(** [NetworkOrder::attach_commitment_proof] *)
Definition attach_commitment_proof (self : NetworkOrder) (proof : ValidCommitmentsBundle)
    : NetworkOrder := {|
  no_id := no_id self;
  no_match_nullifier := st_nullifier (vc_statement proof);
  no_local := no_local self;
  no_cluster := no_cluster self;
  no_state := Verified;
  no_valid_commit_proof := Some proof;
  no_valid_commit_witness := no_valid_commit_witness self;
|}.

(** [NetworkOrder::transition_received] *)
Definition order_transition_received (self : NetworkOrder) : NetworkOrder :=
  with_state self Received.

(** [NetworkOrder::transition_verified] *)
Definition order_transition_verified (self : NetworkOrder) (proof : ValidCommitmentsBundle)
    : outcome unit NetworkOrder :=
  if decide (no_state self = Received) then Ret (attach_commitment_proof self proof) else Panic.

(** [NetworkOrder::transition_matched] *)
Definition order_transition_matched (self : NetworkOrder) (by_local_node : bool)
    : outcome unit NetworkOrder :=
  if decide (no_state self = Verified) then Ret (with_state self (Matched by_local_node)) else Panic.

Definition drop_proof (self : NetworkOrder) (st : NetworkOrderState) : NetworkOrder := {|
  no_id := no_id self;
  no_match_nullifier := no_match_nullifier self;
  no_local := no_local self;
  no_cluster := no_cluster self;
  no_state := st;
  no_valid_commit_proof := None;
  no_valid_commit_witness := None;
|}.

(** [NetworkOrder::transition_cancelled] *)
Definition order_transition_cancelled (self : NetworkOrder) : NetworkOrder := drop_proof self Cancelled.

(** [NetworkOrder::transition_pruned] *)
Definition order_transition_pruned (self : NetworkOrder) : NetworkOrder := drop_proof self Pruned.

(** [impl Display for NetworkOrderState] *)
Definition display_order_state (self : NetworkOrderState) : string :=
  match self with
  | Received => "Received"
  | Verified => "Verified"
  | Matched _ => "Matched"
  | Cancelled => "Cancelled"
  | Pruned => "Pruned"
  end.

(** * The book *)

(** The messages that the book has published on the system bus are kept in order. *)
Record NetworkOrderBook := {
  order_map : gmap OrderIdentifier NetworkOrder;
  orders_by_nullifier : gmap Nullifier (gset OrderIdentifier);
  local_orders : gset OrderIdentifier;
  verified_orders : gset OrderIdentifier;
  ob_published : list (string * SystemBusMessage);
}.

(** [NetworkOrderBook::new] *)
Definition book_new : NetworkOrderBook := {|
  order_map := ∅; orders_by_nullifier := ∅; local_orders := ∅; verified_orders := ∅;
  ob_published := [] |}.

Definition set_order_map (f : gmap OrderIdentifier NetworkOrder -> gmap OrderIdentifier NetworkOrder)
    (b : NetworkOrderBook) : NetworkOrderBook := {|
  order_map := f (order_map b); orders_by_nullifier := orders_by_nullifier b;
  local_orders := local_orders b; verified_orders := verified_orders b;
  ob_published := ob_published b |}.

Definition set_nullifiers
    (f : gmap Nullifier (gset OrderIdentifier) -> gmap Nullifier (gset OrderIdentifier))
    (b : NetworkOrderBook) : NetworkOrderBook := {|
  order_map := order_map b; orders_by_nullifier := f (orders_by_nullifier b);
  local_orders := local_orders b; verified_orders := verified_orders b;
  ob_published := ob_published b |}.

Definition set_local_orders (f : gset OrderIdentifier -> gset OrderIdentifier)
    (b : NetworkOrderBook) : NetworkOrderBook := {|
  order_map := order_map b; orders_by_nullifier := orders_by_nullifier b;
  local_orders := f (local_orders b); verified_orders := verified_orders b;
  ob_published := ob_published b |}.

Definition set_verified_orders (f : gset OrderIdentifier -> gset OrderIdentifier)
    (b : NetworkOrderBook) : NetworkOrderBook := {|
  order_map := order_map b; orders_by_nullifier := orders_by_nullifier b;
  local_orders := local_orders b; verified_orders := f (verified_orders b);
  ob_published := ob_published b |}.

(** [self.system_bus.publish] *)
Definition book_publish (topic : string) (message : SystemBusMessage) (b : NetworkOrderBook)
    : NetworkOrderBook := {|
  order_map := order_map b; orders_by_nullifier := orders_by_nullifier b;
  local_orders := local_orders b; verified_orders := verified_orders b;
  ob_published := ob_published b ++ [(topic, message)] |}.

(** ** Getters *)

(** [contains_order] *)
Definition contains_order (b : NetworkOrderBook) (order_id : OrderIdentifier) : bool :=
  bool_decide (is_Some (order_map b !! order_id)).

(** [get_order_info] *)
Definition get_order_info (b : NetworkOrderBook) (order_id : OrderIdentifier) : option NetworkOrder :=
  order_map b !! order_id.

(** [get_match_nullifier] *)
Definition get_match_nullifier (b : NetworkOrderBook) (order_id : OrderIdentifier)
    : option Nullifier :=
  order ← order_map b !! order_id;
  proof ← no_valid_commit_proof order;
  Some (st_nullifier (vc_statement proof)).

(** [get_orders_by_nullifier] *)
Definition get_orders_by_nullifier `{HashOrder} (b : NetworkOrderBook) (nullifier : Nullifier)
    : list OrderIdentifier :=
  match orders_by_nullifier b !! nullifier with
  | Some set => visit_set set
  | None => []
  end.

(** [get_verified_orders] *)
Definition get_verified_orders `{HashOrder} (b : NetworkOrderBook) : list OrderIdentifier :=
  visit_set (verified_orders b).

(** [has_validity_proof], [get_validity_proof] *)
Definition has_validity_proof (b : NetworkOrderBook) (order_id : OrderIdentifier) : bool :=
  match order_map b !! order_id with
  | Some order_info => bool_decide (is_Some (no_valid_commit_proof order_info))
  | None => false
  end.

Definition get_validity_proof (b : NetworkOrderBook) (order_id : OrderIdentifier)
    : option ValidCommitmentsBundle :=
  order ← order_map b !! order_id; no_valid_commit_proof order.

(** [has_validity_witness], [get_validity_proof_witness] *)
Definition has_validity_witness (b : NetworkOrderBook) (order_id : OrderIdentifier) : bool :=
  match order_map b !! order_id with
  | Some order_info => bool_decide (is_Some (no_valid_commit_witness order_info))
  | None => false
  end.

Definition get_validity_proof_witness (b : NetworkOrderBook) (order_id : OrderIdentifier)
    : option SizedValidCommitmentsWitness :=
  order ← order_map b !! order_id; no_valid_commit_witness order.

(** [order_ready_for_handshake] *)
Definition order_ready_for_handshake (b : NetworkOrderBook) (order_id : OrderIdentifier) : bool :=
  has_validity_proof b order_id && has_validity_witness b order_id.

(** [get_local_scheduleable_orders] *)
Definition get_local_scheduleable_orders `{HashOrder} (b : NetworkOrderBook) : list OrderIdentifier :=
  filter (fun order_id => has_validity_witness b order_id = true)
    (visit_set (verified_orders b ∩ local_orders b)).

(** [get_nonlocal_verified_orders] *)
Definition get_nonlocal_verified_orders `{HashOrder} (b : NetworkOrderBook) : list OrderIdentifier :=
  visit_set (verified_orders b ∖ local_orders b).

(** [get_order_owner_pairs] *)
Definition get_order_owner_pairs `{HashOrder} (b : NetworkOrderBook)
    : list (OrderIdentifier * ClusterId) :=
  (fun p => (p.1, no_cluster p.2)) <$> visit (order_map b).

(** [get_order_book_snapshot] *)
Definition get_order_book_snapshot (b : NetworkOrderBook) : gmap OrderIdentifier NetworkOrder :=
  order_map b.

(** ** Setters *)

(** [add_verified_order], [remove_verified_order] *)
Definition add_verified_order (order_id : OrderIdentifier) (b : NetworkOrderBook)
    : NetworkOrderBook :=
  if bool_decide (order_id ∈ verified_orders b) then b
  else set_verified_orders (fun X => {[order_id]} ∪ X) b.

Definition remove_verified_order (order_id : OrderIdentifier) (b : NetworkOrderBook)
    : NetworkOrderBook :=
  if bool_decide (order_id ∈ verified_orders b)
  then set_verified_orders (fun X => X ∖ {[order_id]}) b
  else b.

(** [write_nullifier_order_set(nullifier).insert(order_id)]: the set of a nullifier is
    created on its first use. *)
Definition index_nullifier (nullifier : Nullifier) (order_id : OrderIdentifier)
    (b : NetworkOrderBook) : NetworkOrderBook :=
  set_nullifiers (fun m => <[nullifier := {[order_id]} ∪ default ∅ (m !! nullifier)]> m) b.

(** [add_order] *)
Definition add_order (order : NetworkOrder) (b : NetworkOrderBook) : NetworkOrderBook :=
  let b := if no_local order then set_local_orders (fun X => {[no_id order]} ∪ X) b else b in
  let b := if decide (no_state order = Verified) then add_verified_order (no_id order) b else b in
  let b := index_nullifier (no_match_nullifier order) (no_id order) b in
  set_order_map (fun m => <[no_id order := order]> m) b.

(** [update_order_validity_proof] *)
Definition update_order_validity_proof (order_id : OrderIdentifier)
    (proof : ValidCommitmentsBundle) (b : NetworkOrderBook) : NetworkOrderBook :=
  let b := index_nullifier (st_nullifier (vc_statement proof)) order_id b in
  let b := match order_map b !! order_id with
           | Some order =>
               set_order_map (fun m => <[order_id := attach_commitment_proof order proof]> m) b
           | None => b
           end in
  add_verified_order order_id b.

(** [attach_validity_proof_witness] *)
Definition attach_validity_proof_witness (order_id : OrderIdentifier)
    (witness : SizedValidCommitmentsWitness) (b : NetworkOrderBook) : NetworkOrderBook :=
  match order_map b !! order_id with
  | Some order =>
      set_order_map (fun m => <[order_id := {|
        no_id := no_id order; no_match_nullifier := no_match_nullifier order;
        no_local := no_local order; no_cluster := no_cluster order; no_state := no_state order;
        no_valid_commit_proof := no_valid_commit_proof order;
        no_valid_commit_witness := Some witness |}]> m) b
  | None => b
  end.

(** ** State transitions

    The future that [remove_verified_order] returns to [transition_order_received] is not
    awaited, and a future does nothing until it is polled. *)

Definition publish_change (order_id : OrderIdentifier) (prev_state new_state : NetworkOrderState)
    : NetworkOrderBook -> NetworkOrderBook :=
  book_publish ORDER_STATE_CHANGE_TOPIC (OrderStateChange order_id prev_state new_state).

(** [transition_order_received] *)
Definition transition_order_received (order_id : OrderIdentifier) (b : NetworkOrderBook)
    : NetworkOrderBook :=
  match order_map b !! order_id with
  | Some order =>
      let prev_state := no_state order in
      let order := order_transition_received order in
      publish_change order_id prev_state (no_state order)
        (set_order_map (fun m => <[order_id := order]> m) b)
  | None => b
  end.

(** [transition_verified]; a failed assertion leaves the book as it was. *)
Definition transition_verified (order_id : OrderIdentifier) (proof : ValidCommitmentsBundle)
    (b : NetworkOrderBook) : outcome unit NetworkOrderBook :=
  match order_map b !! order_id with
  | Some order =>
      let prev_state := no_state order in
      (try! order := order_transition_verified order proof in
       let b := set_order_map (fun m => <[order_id := order]> m) b in
       Ret (publish_change order_id prev_state (no_state order) (add_verified_order order_id b)))%outcome
  | None => Ret b
  end.

(** [transition_matched] *)
Definition transition_matched (order_id : OrderIdentifier) (by_local_node : bool)
    (b : NetworkOrderBook) : outcome unit NetworkOrderBook :=
  match order_map b !! order_id with
  | Some order =>
      let prev_state := no_state order in
      (try! order := order_transition_matched order by_local_node in
       let b := set_order_map (fun m => <[order_id := order]> m) b in
       Ret (publish_change order_id prev_state (no_state order) (remove_verified_order order_id b)))%outcome
  | None => Ret b
  end.

(** [transition_cancelled] *)
Definition transition_cancelled (order_id : OrderIdentifier) (b : NetworkOrderBook)
    : NetworkOrderBook :=
  match order_map b !! order_id with
  | Some order =>
      let prev_state := no_state order in
      let order := order_transition_cancelled order in
      let b := set_order_map (fun m => <[order_id := order]> m) b in
      publish_change order_id prev_state (no_state order) (remove_verified_order order_id b)
  | None => b
  end.

(** [transition_pruned] *)
Definition transition_pruned (order_id : OrderIdentifier) (b : NetworkOrderBook)
    : NetworkOrderBook :=
  match order_map b !! order_id with
  | Some order =>
      let prev_state := no_state order in
      let order := order_transition_pruned order in
      let b := set_order_map (fun m => <[order_id := order]> m) b in
      publish_change order_id prev_state (no_state order) (remove_verified_order order_id b)
  | None => b
  end.

(** * The book as a state machine *)

(** The operations of the book.  An operation whose assertion fails ends its task and
    leaves the book as it was. *)
Inductive book_step : NetworkOrderBook -> NetworkOrderBook -> Prop :=
  | step_add_order order b : book_step b (add_order order b)
  | step_update_proof order_id proof b : book_step b (update_order_validity_proof order_id proof b)
  | step_attach_witness order_id witness b :
      book_step b (attach_validity_proof_witness order_id witness b)
  | step_received order_id b : book_step b (transition_order_received order_id b)
  | step_verified order_id proof b b' :
      transition_verified order_id proof b = Ret b' -> book_step b b'
  | step_matched order_id by_local_node b b' :
      transition_matched order_id by_local_node b = Ret b' -> book_step b b'
  | step_cancelled order_id b : book_step b (transition_cancelled order_id b)
  | step_pruned order_id b : book_step b (transition_pruned order_id b).

(** Every order is stored under its identifier, and the sets contain the verified and the
    local orders. *)
Record book_ok (b : NetworkOrderBook) : Prop := {
  ok_ids i o : order_map b !! i = Some o -> no_id o = i;
  ok_verified i o : order_map b !! i = Some o -> no_state o = Verified -> i ∈ verified_orders b;
  ok_local i o : order_map b !! i = Some o -> no_local o = true -> i ∈ local_orders b;
}.

(** Every order is indexed under the nullifier it has. *)
Definition indexed_under (b : NetworkOrderBook) (n : Nullifier) (i : OrderIdentifier) : Prop :=
  exists X, orders_by_nullifier b !! n = Some X /\ i ∈ X.

Definition book_indexed (b : NetworkOrderBook) : Prop :=
  forall i o, order_map b !! i = Some o -> indexed_under b (no_match_nullifier o) i.

Lemma add_verified_order_eq i b :
  add_verified_order i b = set_verified_orders (fun X => {[i]} ∪ X) b.
Proof.
  unfold add_verified_order. case_bool_decide as Hi; [|done].
  destruct b; unfold set_verified_orders; cbn in *. f_equal. set_solver.
Qed.

Lemma remove_verified_order_eq i b :
  remove_verified_order i b = set_verified_orders (fun X => X ∖ {[i]}) b.
Proof.
  unfold remove_verified_order. case_bool_decide as Hi; [done|].
  destruct b; unfold set_verified_orders; cbn in *. f_equal. set_solver.
Qed.

Lemma indexed_index n i b m j :
  indexed_under (index_nullifier n i b) m j <-> (m = n /\ j = i) \/ indexed_under b m j.
Proof.
  unfold indexed_under, index_nullifier; cbn. destruct (decide (m = n)) as [->|Hne].
  - rewrite lookup_insert_eq. split.
    + intros (X & [= <-] & HX). apply elem_of_union in HX as [->%elem_of_singleton|HX]; [by left|].
      destruct (orders_by_nullifier b !! n); cbn in HX; [eauto|set_solver].
    + intros [[_ ->]|(X & HX & Hj)]; eexists; split; [done|set_solver|done|].
      rewrite HX. cbn. set_solver.
  - rewrite lookup_insert_ne by done. naive_solver.
Qed.

(** Storing one order, with the sets changed at most at its identifier. *)
Lemma store_ok i o b b' :
  book_ok b -> order_map b' = <[i := o]> (order_map b) ->
  no_id o = i -> (no_state o = Verified -> i ∈ verified_orders b') ->
  (no_local o = true -> i ∈ local_orders b') ->
  verified_orders b ∖ {[i]} ⊆ verified_orders b' -> local_orders b ⊆ local_orders b' ->
  book_ok b'.
Proof.
  intros [Hid Hver Hloc] Hmap Hi Hv Hl Hvs Hls.
  assert (Hcase : forall j o', order_map b' !! j = Some o' ->
            (j = i /\ o' = o) \/ (j <> i /\ order_map b !! j = Some o')).
  { intros j o'. rewrite Hmap, lookup_insert_Some. naive_solver. }
  split; intros j o' [[-> ->]|[Hne Hj]]%Hcase; [done|eauto|done| |done|].
  - intros HV. apply Hvs. pose proof (Hver _ _ Hj HV). set_solver.
  - intros HL. apply Hls. eauto.
Qed.

Lemma set_verified_ok f b :
  book_ok b -> (forall i, i ∈ verified_orders b -> i ∈ f (verified_orders b)) ->
  book_ok (set_verified_orders f b).
Proof. intros [Hid Hver Hloc] Hf. split; cbn; eauto. Qed.

Lemma store_indexed i o b b' :
  book_indexed b -> order_map b' = <[i := o]> (order_map b) ->
  (forall n j, indexed_under b n j -> indexed_under b' n j) ->
  indexed_under b' (no_match_nullifier o) i -> book_indexed b'.
Proof.
  intros Hb Hmap Hmono Hi j o'. rewrite Hmap, lookup_insert_Some.
  intros [[<- <-]|[_ Hj]]; [done|]. by apply Hmono, Hb.
Qed.

Ltac book_simpl :=
  unfold update_order_validity_proof, attach_validity_proof_witness,
    transition_order_received, transition_verified, transition_matched, transition_cancelled,
    transition_pruned, order_transition_verified, order_transition_matched in *;
  rewrite ?add_verified_order_eq, ?remove_verified_order_eq in *.

Ltac store_at i :=
  rewrite ?add_verified_order_eq, ?remove_verified_order_eq;
  eapply (store_ok i); [eassumption|reflexivity|..]; cbn; eauto; try done.

Lemma add_order_fields o b :
  order_map (add_order o b) = <[no_id o := o]> (order_map b) /\
  verified_orders (add_order o b) =
    (if decide (no_state o = Verified) then {[no_id o]} ∪ verified_orders b else verified_orders b) /\
  local_orders (add_order o b) =
    (if no_local o then {[no_id o]} ∪ local_orders b else local_orders b) /\
  orders_by_nullifier (add_order o b) =
    orders_by_nullifier (index_nullifier (no_match_nullifier o) (no_id o) b).
Proof.
  unfold add_order. rewrite add_verified_order_eq. by case_decide; destruct (no_local o); cbn.
Qed.

Lemma book_step_ok b b' : book_step b b' -> book_ok b -> book_ok b'.
Proof.
  intros Hstep Hb. pose proof (ok_ids _ Hb) as Hid. pose proof (ok_verified _ Hb) as Hver.
  pose proof (ok_local _ Hb) as Hloc.
  destruct Hstep as [o b|i p b|i w b|i b|i p b b' H|i l b b' H|i b|i b]; book_simpl.
  - destruct (add_order_fields o b) as (H1 & H2 & H3 & _).
    eapply (store_ok (no_id o) o b); [done|done|done|..]; rewrite ?H2, ?H3;
      try case_decide; try destruct (no_local o); set_solver.
  - cbn. destruct (order_map b !! i) as [o|] eqn:Ho.
    + store_at i; set_solver.
    + apply set_verified_ok; [|set_solver]. by split; cbn.
  - destruct (order_map b !! i) as [o|] eqn:Ho; [|done]. store_at i. set_solver.
  - destruct (order_map b !! i) as [o|] eqn:Ho; [|done]. store_at i. set_solver.
  - destruct (order_map b !! i) as [o|] eqn:Ho; [|congruence].
    case_decide; cbn in H; [|done]. injection H as <-. store_at i; set_solver.
  - destruct (order_map b !! i) as [o|] eqn:Ho; [|congruence].
    case_decide; cbn in H; [|done]. injection H as <-. store_at i.
  - destruct (order_map b !! i) as [o|] eqn:Ho; [|done]. store_at i.
  - destruct (order_map b !! i) as [o|] eqn:Ho; [|done]. store_at i.
Qed.

Lemma book_new_ok : book_ok book_new.
Proof. split; cbn; intros i o; by rewrite lookup_empty. Qed.

Lemma book_reachable_ok b : rtc book_step book_new b -> book_ok b.
Proof.
  intros H. remember book_new as b0 eqn:E.
  assert (H0 : book_ok b0) by (subst; apply book_new_ok). clear E.
  induction H; eauto using book_step_ok.
Qed.

(** ** The nullifier index *)

Lemma book_new_indexed : book_indexed book_new.
Proof. intros i o. cbn. by rewrite lookup_empty. Qed.

Lemma indexed_same b b' n i :
  orders_by_nullifier b' = orders_by_nullifier b -> indexed_under b' n i <-> indexed_under b n i.
Proof. unfold indexed_under. by intros ->. Qed.

Lemma add_order_indexed o b : book_indexed b -> book_indexed (add_order o b).
Proof.
  intros Hb. destruct (add_order_fields o b) as (H1 & _ & _ & H4).
  eapply (store_indexed (no_id o) o b); [done..| |].
  - intros n j Hn. apply (indexed_same _ _ _ _ H4), indexed_index. by right.
  - apply (indexed_same _ _ _ _ H4), indexed_index. by left.
Qed.

Lemma update_proof_indexed i p b : book_indexed b -> book_indexed (update_order_validity_proof i p b).
Proof.
  intros Hb. book_simpl. cbn. destruct (order_map b !! i) as [o|] eqn:Ho.
  - eapply (store_indexed i (attach_commitment_proof o p) b); [done|done|..].
    + intros n j Hn. apply (indexed_index (st_nullifier (vc_statement p)) i b). by right.
    + apply (indexed_index (st_nullifier (vc_statement p)) i b). by left.
  - intros j o Hj. apply (indexed_index (st_nullifier (vc_statement p)) i b). right. by apply Hb.
Qed.

Lemma same_nullifier_indexed i o o' b b' :
  book_indexed b -> order_map b !! i = Some o -> order_map b' = <[i := o']> (order_map b) ->
  orders_by_nullifier b' = orders_by_nullifier b ->
  no_match_nullifier o' = no_match_nullifier o -> book_indexed b'.
Proof.
  intros Hb Ho Hmap Hn Hsame. eapply (store_indexed i o' b); [done..| |].
  - intros n j. apply (indexed_same _ _ _ _ Hn).
  - apply (indexed_same _ _ _ _ Hn). rewrite Hsame. by apply Hb.
Qed.

Lemma attach_witness_indexed i w b : book_indexed b -> book_indexed (attach_validity_proof_witness i w b).
Proof.
  intros Hb. book_simpl. destruct (order_map b !! i) as [o|] eqn:Ho; [|done].
  by eapply (same_nullifier_indexed i o _ b).
Qed.

Lemma cancelled_indexed i b : book_indexed b -> book_indexed (transition_cancelled i b).
Proof.
  intros Hb. book_simpl. destruct (order_map b !! i) as [o|] eqn:Ho; [|done].
  rewrite remove_verified_order_eq. by eapply (same_nullifier_indexed i o _ b).
Qed.

(** ** Cancelling a list of orders *)

Definition cancel_all (ids : list OrderIdentifier) (b : NetworkOrderBook) : NetworkOrderBook :=
  foldl (fun b order_id => transition_cancelled order_id b) b ids.

Lemma cancelled_order i b j :
  order_map (transition_cancelled i b) !! j =
  (if decide (j = i) then order_transition_cancelled <$> order_map b !! j else order_map b !! j).
Proof.
  unfold transition_cancelled. destruct (order_map b !! i) as [o|] eqn:Ho.
  - rewrite remove_verified_order_eq. cbn. case_decide as Hj.
    + subst. by rewrite lookup_insert_eq, Ho.
    + by rewrite lookup_insert_ne by done.
  - case_decide; [|done]. subst. by rewrite Ho.
Qed.

Lemma cancelled_verified i b j :
  j ∈ verified_orders (transition_cancelled i b) <->
  j ∈ verified_orders b /\ ~ (j = i /\ is_Some (order_map b !! i)).
Proof.
  unfold transition_cancelled. destruct (order_map b !! i) as [o|] eqn:Ho.
  - rewrite remove_verified_order_eq. cbn. rewrite elem_of_difference, elem_of_singleton.
    assert (is_Some (Some o)) by done. tauto.
  - split; [|tauto]. intros Hj. split; [done|]. intros [_ [? ?]]. congruence.
Qed.

Lemma cancel_all_order ids b j :
  order_map (cancel_all ids b) !! j =
  (if decide (j ∈ ids) then order_transition_cancelled <$> order_map b !! j else order_map b !! j).
Proof.
  revert b; induction ids as [|i ids IH]; intros b; cbn [cancel_all foldl].
  - by rewrite decide_False by apply not_elem_of_nil.
  - fold (cancel_all ids (transition_cancelled i b)). rewrite IH, cancelled_order.
    destruct (decide (j = i)) as [->|Hne].
    + rewrite (decide_True (P := i ∈ i :: ids)) by left. case_decide; [|done].
      by destruct (order_map b !! i).
    + by rewrite (decide_ext (j ∈ i :: ids) (j ∈ ids)) by (rewrite elem_of_cons; tauto).
Qed.

Lemma cancel_all_verified ids b j :
  j ∈ verified_orders (cancel_all ids b) <->
  j ∈ verified_orders b /\ ~ (j ∈ ids /\ is_Some (order_map b !! j)).
Proof.
  revert b; induction ids as [|i ids IH]; intros b; cbn [cancel_all foldl].
  - split; [|tauto]. intros Hj. split; [done|]. intros [Hn _]. by apply not_elem_of_nil in Hn.
  - fold (cancel_all ids (transition_cancelled i b)).
    rewrite IH, cancelled_verified, cancelled_order, elem_of_cons.
    assert (is_Some (if decide (j = i) then order_transition_cancelled <$> order_map b !! j
              else order_map b !! j) <-> is_Some (order_map b !! j)) as ->.
    { case_decide; [|done]. by rewrite fmap_is_Some. }
    split.
    + intros ((HV & Hi) & Hj). split; [done|]. intros [[->|Hin] HS]; [by apply Hi|by apply Hj].
    + intros (HV & Hj). repeat split; [done|..]; intros [Heq HS]; apply Hj; naive_solver.
Qed.

Lemma cancel_all_inv (P : NetworkOrderBook -> Prop) ids b :
  (forall i b, P b -> P (transition_cancelled i b)) -> P b -> P (cancel_all ids b).
Proof. intros HP. revert b; induction ids as [|i ids IH]; intros b Hb; cbn; [done|]. by apply IH, HP. Qed.

(** * Properties *)

Context `{HO : HashOrder}.

(** In every book that the operations can reach, whatever their order, every order
    is stored under its own identifier, and every order in the [Verified] state is
    scheduled: a local one is offered as soon as its witness is attached, any other one
    is offered to the handshake scheduler. *)
Theorem verified_orders_scheduled b i o :
  rtc book_step book_new b -> get_order_info b i = Some o -> no_state o = Verified ->
  no_id o = i /\
  (i ∈ local_orders b -> is_Some (no_valid_commit_witness o) -> i ∈ get_local_scheduleable_orders b) /\
  (i ∉ local_orders b -> no_local o = false /\ i ∈ get_nonlocal_verified_orders b).
Proof.
  intros [Hid Hver Hloc]%book_reachable_ok Ho Hs. specialize (Hver _ _ Ho Hs).
  split; [by eapply Hid|split].
  - intros Hl Hw. unfold get_local_scheduleable_orders. apply list_elem_of_filter. split.
    + unfold has_validity_witness. unfold get_order_info in Ho. rewrite Ho.
      by apply bool_decide_eq_true.
    + apply elem_of_visit_set. set_solver.
  - intros Hl. split.
    + destruct (no_local o) eqn:E; [|done]. destruct Hl. eauto.
    + apply elem_of_visit_set. set_solver.
Qed.

(** Returning a verified order to the [Received] state leaves it scheduled: its state
    is [Received] and the event is published, but it stays in the set of verified orders
    and keeps the proof that the documentation says is dropped, since the future that
    would remove it is never awaited. *)
Theorem received_order_stays_scheduled b i o :
  rtc book_step book_new b -> get_order_info b i = Some o -> no_state o = Verified ->
  let b' := transition_order_received i b in
  get_order_info b' i = Some (with_state o Received) /\
  ob_published b' = ob_published b ++ [(ORDER_STATE_CHANGE_TOPIC, OrderStateChange i Verified Received)] /\
  i ∈ get_verified_orders b' /\
  get_validity_proof b' i = no_valid_commit_proof o.
Proof.
  intros [Hid Hver Hloc]%book_reachable_ok Ho Hs. specialize (Hver _ _ Ho Hs).
  unfold transition_order_received, get_order_info, get_validity_proof in *. rewrite Ho. cbn.
  rewrite lookup_insert_eq, Hs. split_and!; [done|done|by apply elem_of_visit_set|done].
Qed.
End orderbook.

(** * Examples *)

#[local] Existing Instance sample_foreign.
#[local] Existing Instance sorted_order.

Definition sample_bundle (nullifier : Z) : ValidCommitmentsBundle := {|
  vc_commitment := 0%N : ValidCommitmentsWitnessCommitment;
  vc_statement := {| st_nullifier := scalar nullifier; st_merkle_root := scalar 1;
                     st_pk_settle := scalar 2 |};
  vc_proof := 0%N : R1CSProof |}.

Definition sample_book : NetworkOrderBook :=
  attach_validity_proof_witness 7%N (4%N : SizedValidCommitmentsWitness)
    (update_order_validity_proof 7%N (sample_bundle 5)
       (add_order (order_new 7%N (scalar 5) "cluster" false) book_new)).

Lemma sample_book_reachable : rtc book_step book_new sample_book.
Proof.
  eapply rtc_l; [apply step_add_order|]. eapply rtc_l; [apply step_update_proof|].
  eapply rtc_l; [apply step_attach_witness|]. apply rtc_refl.
Qed.

Lemma verified_orders_scheduled_witness :
  exists o, get_order_info sample_book 7%N = Some o /\ no_state o = Verified /\
    7%N ∈ get_nonlocal_verified_orders sample_book.
Proof.
  eexists. split; [reflexivity|]. split; [reflexivity|].
  eapply (verified_orders_scheduled sample_book 7%N); [apply sample_book_reachable|reflexivity..|].
  by apply (bool_decide_eq_false_1 (7%N ∈ local_orders sample_book)).
Defined.

Lemma received_order_stays_scheduled_witness :
  7%N ∈ get_verified_orders (transition_order_received 7%N sample_book).
Proof.
  eapply (received_order_stays_scheduled sample_book 7%N); [apply sample_book_reachable|reflexivity..].
Defined.
