(* ===== verification/PeerIndex.v ===== *)
(** The index of known peers and the handshake priorities:
    core/src/state/{peers,priority}.rs.  Like the order book, each index is shared behind
    one lock that an operation which changes it holds for writing. *)

From stdpp Require Import gmap strings.
From S2P Require Import Prelude RelayerTypes.

#[global] Set Default Goal Selector "!".

Section peers.
  Context `{F : Foreign}.

(** * Peers *)

Record PeerIndex := {
  peer_map : gmap PeerId PeerInfo;
  cluster_peers : gmap ClusterId (gset PeerId);
}.

(** [PeerIndex::new] *)
Definition peers_new : PeerIndex := {| peer_map := ∅; cluster_peers := ∅ |}.

(** [len], [get_peer_info], [contains_peer] *)
Definition peers_len (idx : PeerIndex) : nat := size (peer_map idx).

Definition get_peer_info (idx : PeerIndex) (peer_id : PeerId) : option PeerInfo :=
  peer_map idx !! peer_id.

Definition contains_peer (idx : PeerIndex) (peer_id : PeerId) : bool :=
  bool_decide (is_Some (peer_map idx !! peer_id)).

(** [get_all_cluster_peers] *)
Definition get_all_cluster_peers `{HashOrder} (idx : PeerIndex) (cluster_id : ClusterId)
    : list PeerId :=
  match cluster_peers idx !! cluster_id with
  | Some peers => visit_set peers
  | None => []
  end.

(** [sample_cluster_peer]; the random number generator gives an index below the bound
    it is asked for. *)
Definition sample_cluster_peer `{HashOrder} (gen_range : nat -> nat) (idx : PeerIndex)
    (cluster_id : ClusterId) : option PeerId :=
  peers ← cluster_peers idx !! cluster_id;
  if bool_decide (peers = ∅) then None
  else visit_set peers !! gen_range (size peers).

(** [nth], [get_all_peer_ids], [get_info_map] *)
Definition peers_nth `{HashOrder} (idx : PeerIndex) (index : nat) : option PeerInfo :=
  snd <$> visit (peer_map idx) !! index.

Definition get_all_peer_ids `{HashOrder} (idx : PeerIndex) : list PeerId := fst <$> visit (peer_map idx).

Definition get_info_map (idx : PeerIndex) : gmap PeerId PeerInfo := peer_map idx.

(** [add_peer] *)
Definition add_peer (peer_info : PeerInfo) (idx : PeerIndex) : PeerIndex :=
  let cluster_id := pi_cluster_id peer_info in
  let peer_id := pi_peer_id peer_info in
  {| cluster_peers := <[cluster_id := {[peer_id]} ∪ default ∅ (cluster_peers idx !! cluster_id)]>
                        (cluster_peers idx);
     peer_map := match peer_map idx !! peer_id with
                 | None => <[peer_id := peer_info]> (peer_map idx)
                 | Some _ => peer_map idx
                 end |}.

(** [remove_peer]; a cluster that is not indexed makes [unwrap] panic. *)
Definition remove_peer (peer_id : PeerId) (idx : PeerIndex)
    : outcome unit (option PeerInfo * PeerIndex) :=
  match peer_map idx !! peer_id with
  | None => Ret (None, idx)
  | Some entry =>
      match cluster_peers idx !! pi_cluster_id entry with
      | None => Panic
      | Some peers =>
          Ret (Some entry,
               {| peer_map := delete peer_id (peer_map idx);
                  cluster_peers := <[pi_cluster_id entry := peers ∖ {[pi_peer_id entry]}]>
                                     (cluster_peers idx) |})
      end
  end.

(** [record_heartbeat] *)
Definition record_heartbeat (now : Z) (peer_id : PeerId) (idx : PeerIndex) : PeerIndex :=
  match peer_map idx !! peer_id with
  | Some info => {| peer_map := <[peer_id := successful_heartbeat now info]> (peer_map idx);
                    cluster_peers := cluster_peers idx |}
  | None => idx
  end.

Inductive peers_step : PeerIndex -> PeerIndex -> Prop :=
  | step_add_peer info idx : peers_step idx (add_peer info idx)
  | step_remove_peer p r idx idx' : remove_peer p idx = Ret (r, idx') -> peers_step idx idx'
  | step_heartbeat now p idx : peers_step idx (record_heartbeat now p idx).

(** Every peer is stored under its own identifier and listed in its cluster. *)
Definition listed (idx : PeerIndex) (c : ClusterId) (p : PeerId) : Prop :=
  exists X, cluster_peers idx !! c = Some X /\ p ∈ X.

Record peers_ok (idx : PeerIndex) : Prop := {
  ok_peer_ids p info : peer_map idx !! p = Some info -> pi_peer_id info = p;
  ok_listed p info : peer_map idx !! p = Some info -> listed idx (pi_cluster_id info) p;
}.

Lemma listed_add info idx c p :
  listed (add_peer info idx) c p <->
  (c = pi_cluster_id info /\ p = pi_peer_id info) \/ listed idx c p.
Proof.
  unfold listed, add_peer; cbn. destruct (decide (c = pi_cluster_id info)) as [->|Hne].
  - rewrite lookup_insert_eq. split.
    + intros (X & [= <-] & HX). apply elem_of_union in HX as [->%elem_of_singleton|HX]; [by left|].
      destruct (cluster_peers idx !! pi_cluster_id info); cbn in HX; [eauto|set_solver].
    + intros [[_ ->]|(X & HX & Hp)]; eexists; split; [done|set_solver|done|].
      rewrite HX. cbn. set_solver.
  - rewrite lookup_insert_ne by done. naive_solver.
Qed.

Lemma listed_remove idx (p : PeerId) c (X : gset PeerId) m d q :
  cluster_peers idx !! c = Some X -> q <> p -> listed idx d q ->
  listed {| peer_map := m; cluster_peers := <[c := X ∖ {[p]}]> (cluster_peers idx) |} d q.
Proof.
  intros HX Hne (Y & HY & Hq). unfold listed; cbn. destruct (decide (d = c)) as [->|Hd].
  - rewrite lookup_insert_eq. eexists. split; [done|]. set_solver.
  - rewrite lookup_insert_ne by done. eauto.
Qed.

Lemma peers_step_ok idx idx' : peers_step idx idx' -> peers_ok idx -> peers_ok idx'.
Proof.
  intros Hstep [Hid Hl]. destruct Hstep as [info idx|p r idx idx' H|now p idx].
  - unfold add_peer. split; intros q i; cbn [peer_map].
    + destruct (peer_map idx !! pi_peer_id info); [eauto|].
      rewrite lookup_insert_Some. naive_solver.
    + intros Hq. apply listed_add. destruct (peer_map idx !! pi_peer_id info); [eauto|].
      apply lookup_insert_Some in Hq as [[<- <-]|[_ Hq]]; eauto.
  - unfold remove_peer in H. destruct (peer_map idx !! p) as [e|] eqn:He; [|injection H as <- <-; by split].
    destruct (cluster_peers idx !! pi_cluster_id e) as [X|] eqn:HX; [|done].
    injection H as <- <-. split; intros q i; cbn [peer_map]; rewrite lookup_delete_Some; intros [Hne Hq]; [eauto|].
    apply listed_remove; [done| |eauto]. rewrite (Hid p e He). congruence.
  - unfold record_heartbeat. destruct (peer_map idx !! p) as [e|] eqn:He; [|done].
    split; intros q i; cbn [peer_map]; rewrite lookup_insert_Some;
      intros [[<- <-]|[_ Hq]]; cbn; eauto.
Qed.

Lemma peers_new_ok : peers_ok peers_new.
Proof. split; cbn; intros p i; by rewrite lookup_empty. Qed.

Lemma peers_reachable_ok idx : rtc peers_step peers_new idx -> peers_ok idx.
Proof.
  intros H. remember peers_new as i0 eqn:E.
  assert (H0 : peers_ok i0) by (subst; apply peers_new_ok). clear E.
  induction H; eauto using peers_step_ok.
Qed.

(** * Handshake priorities *)

Definition CLUSTER_DEFAULT_PRIORITY : Z := 1.
Definition ORDER_DEFAULT_PRIORITY : Z := 1.

Record OrderPriority := { cluster_priority : Z; order_priority : Z }.

(** [impl Default for OrderPriority] *)
Definition priority_default : OrderPriority :=
  {| cluster_priority := CLUSTER_DEFAULT_PRIORITY; order_priority := ORDER_DEFAULT_PRIORITY |}.

(** [get_effective_priority]; the product of 32-bit numbers panics when it overflows. *)
Definition get_effective_priority (self : OrderPriority) : outcome unit Z :=
  let p := (cluster_priority self * order_priority self)%Z in
  if (p <? 2 ^ 32)%Z then Ret p else Panic.

Record HandshakePriorityStore := {
  cluster_priorities : gmap ClusterId Z;
  order_priorities : gmap OrderIdentifier OrderPriority;
}.

(** [HandshakePriorityStore::new] *)
Definition priorities_new : HandshakePriorityStore :=
  {| cluster_priorities := ∅; order_priorities := ∅ |}.

(** [get_order_priority], [get_cluster_priority] *)
Definition get_order_priority (st : HandshakePriorityStore) (order_id : OrderIdentifier)
    : OrderPriority := default priority_default (order_priorities st !! order_id).

Definition get_cluster_priority (st : HandshakePriorityStore) (cluster_id : ClusterId) : Z :=
  default CLUSTER_DEFAULT_PRIORITY (cluster_priorities st !! cluster_id).

(** [new_order], [remove_order] *)
Definition new_order (order_id : OrderIdentifier) (cluster_id : ClusterId)
    (st : HandshakePriorityStore) : HandshakePriorityStore :=
  let priority := get_cluster_priority st cluster_id in
  {| cluster_priorities := cluster_priorities st;
     order_priorities := <[order_id := {| cluster_priority := priority;
                                          order_priority := ORDER_DEFAULT_PRIORITY |}]>
                           (order_priorities st) |}.

Definition remove_order (order_id : OrderIdentifier) (st : HandshakePriorityStore)
    : HandshakePriorityStore :=
  {| cluster_priorities := cluster_priorities st;
     order_priorities := delete order_id (order_priorities st) |}.

(** Every order has the default priority. *)
Record priorities_default (st : HandshakePriorityStore) : Prop := {
  def_clusters : cluster_priorities st = ∅;
  def_orders i p : order_priorities st !! i = Some p -> p = priority_default;
}.

Lemma priorities_new_default : priorities_default priorities_new.
Proof. split; [done|]. intros i p. cbn. by rewrite lookup_empty. Qed.

Lemma new_order_default i c st : priorities_default st -> priorities_default (new_order i c st).
Proof.
  intros [Hc Ho]. split; cbn; [done|]. intros j p.
  rewrite lookup_insert_Some. intros [[_ <-]|[_ Hj]]; [|eauto].
  unfold get_cluster_priority. by rewrite Hc, lookup_empty.
Qed.

Lemma remove_order_default i st : priorities_default st -> priorities_default (remove_order i st).
Proof. intros [Hc Ho]. split; cbn; [done|]. intros j p [_ Hj]%lookup_delete_Some. eauto. Qed.

Lemma effective_priority_default st i :
  priorities_default st -> get_effective_priority (get_order_priority st i) = Ret 1%Z.
Proof.
  intros [_ Ho]. unfold get_order_priority.
  destruct (order_priorities st !! i) as [p|] eqn:E; cbn; [by rewrite (Ho i p)|done].
Qed.

(** * Properties *)

(** In every reachable index the removal of a peer returns, without the panic of its
    [unwrap]: the peer is then unknown, it is no longer listed in the cluster it was
    known under, and every other peer is known and listed as before. *)
Theorem remove_peer_total idx p :
  rtc peers_step peers_new idx ->
  exists idx', remove_peer p idx = Ret (get_peer_info idx p, idx') /\
    contains_peer idx' p = false /\
    (forall info, get_peer_info idx p = Some info -> ~ listed idx' (pi_cluster_id info) p) /\
    (forall q, q <> p -> get_peer_info idx' q = get_peer_info idx q) /\
    (forall q c, q <> p -> listed idx c q -> listed idx' c q).
Proof.
  intros [Hid Hl]%peers_reachable_ok. unfold remove_peer, get_peer_info, contains_peer.
  destruct (peer_map idx !! p) as [e|] eqn:He.
  - destruct (Hl p e He) as (X & HX & Hp). rewrite HX. pose proof (Hid p e He) as Hpe.
    eexists. split; [done|]. cbn [peer_map]. split; [|split; [|split]].
    + rewrite lookup_delete_eq. by apply bool_decide_eq_false, is_Some_None.
    + intros info [= <-] (Y & HY & HpY). cbn in HY. rewrite lookup_insert_eq in HY.
      simplify_eq. set_solver.
    + intros q Hq. by rewrite lookup_delete_ne.
    + intros q c Hq. apply listed_remove; [done|]. congruence.
  - eexists. split; [done|]. rewrite He. split; [by apply bool_decide_eq_false, is_Some_None|]. naive_solver.
Qed.

Context `{HashOrder}.

(** A peer that is announced again under another cluster keeps its first information
    but is listed in both clusters, and its removal clears only the first: the removed
    peer is still returned for the second cluster, whatever the random choice when it is
    the only peer there. *)
Theorem reannounced_peer_survives_removal idx p info info' :
  rtc peers_step peers_new idx -> get_peer_info idx p = Some info ->
  pi_peer_id info' = p -> pi_cluster_id info' <> pi_cluster_id info ->
  exists idx', remove_peer p (add_peer info' idx) = Ret (Some info, idx') /\
    contains_peer idx' p = false /\ p ∈ get_all_cluster_peers idx' (pi_cluster_id info') /\
    (cluster_peers idx !! pi_cluster_id info' = None ->
     forall gen_range, gen_range 1 = 0 ->
       sample_cluster_peer gen_range idx' (pi_cluster_id info') = Some p).
Proof.
  intros Hok Hinfo Hp Hc. pose proof (ok_listed _ (peers_reachable_ok _ Hok) p info Hinfo) as (X & HX & HpX).
  pose proof (ok_peer_ids _ (peers_reachable_ok _ Hok) p info Hinfo) as Hid.
  unfold get_peer_info, remove_peer, add_peer in *. cbn [peer_map cluster_peers]. rewrite Hp, Hinfo.
  rewrite Hinfo, lookup_insert_ne, HX by done.
  eexists. split; [done|]. unfold contains_peer, get_all_cluster_peers, sample_cluster_peer. cbn [peer_map cluster_peers].
  rewrite lookup_delete_eq, lookup_insert_ne, lookup_insert_eq by done. split; [|split].
  - by apply bool_decide_eq_false, is_Some_None.
  - apply elem_of_visit_set. set_solver.
  - intros HN g Hg. rewrite HN. cbn [default mbind option_bind].
    replace ({[p]} ∪ ∅) with ({[p]} : gset PeerId) by set_solver.
    rewrite bool_decide_false by set_solver. rewrite size_singleton, Hg.
    pose proof (visit_set_perm ({[p]} : gset PeerId)) as HP. rewrite elements_singleton in HP.
    by apply Permutation_singleton_r in HP as ->.
Qed.
End peers.

(** * Examples *)

#[local] Existing Instance sample_foreign.
#[local] Existing Instance sorted_order.

Definition peer (n : N) : @PeerId sample_foreign := n.

Definition sample_info (p : N) (c : ClusterId) : PeerInfo := {|
  pi_peer_id := peer p; pi_addr := 0%N : Multiaddr; pi_last_heartbeat := 10;
  pi_cluster_id := c; pi_cluster_auth_signature := [] |}.

Definition sample_peers : PeerIndex := add_peer (sample_info 3 "a") (add_peer (sample_info 4 "a") peers_new).

Lemma sample_peers_reachable : rtc peers_step peers_new sample_peers.
Proof. eapply rtc_l; [apply step_add_peer|]. eapply rtc_l; [apply step_add_peer|]. apply rtc_refl. Qed.

Lemma remove_peer_total_witness :
  exists idx', remove_peer (peer 3) sample_peers = Ret (Some (sample_info 3 "a"), idx') /\
    contains_peer idx' (peer 3) = false.
Proof.
  destruct (remove_peer_total sample_peers (peer 3) sample_peers_reachable) as (idx' & H1 & H2 & _).
  exists idx'. split; [exact H1|exact H2].
Defined.

Lemma reannounced_peer_survives_removal_witness :
  exists idx', remove_peer (peer 3) (add_peer (sample_info 3 "b") sample_peers)
                 = Ret (Some (sample_info 3 "a"), idx') /\
    contains_peer idx' (peer 3) = false /\
    sample_cluster_peer (fun _ => 0) idx' "b" = Some (peer 3).
Proof.
  destruct (reannounced_peer_survives_removal sample_peers (peer 3) (sample_info 3 "a")
              (sample_info 3 "b") sample_peers_reachable eq_refl eq_refl) as (idx' & H1 & H2 & _ & H4);
    [done|].
  exists idx'. split; [exact H1|]. split; [exact H2|]. by apply H4.
Defined.
