(* ===== verification/WalletIndex.v ===== *)
(** Managed wallets and their index: core/src/state/wallet.rs.  The authentication path of
    a wallet is the module [MerkleAuthenticationPath] of the file on Merkle trees. *)

From Stdlib Require Import Zmod SpecFloat.
From stdpp Require Import gmap strings.
From S2P Require Import Prelude Primality Field FixedPoint Types Merkle Commitments RelayerTypes.

#[global] Set Default Goal Selector "!".

(** The sizes of core/src/main.rs *)
Definition MAX_BALANCES : nat := 5.
Definition MAX_ORDERS : nat := 5.
Definition MAX_FEES : nat := 2.
Definition MERKLE_ROOT_HISTORY_LENGTH : Z := 30.

(** [STALENESS_THRESHOLD]: three quarters of the root history, rounded down *)
Definition STALENESS_THRESHOLD : Z := MERKLE_ROOT_HISTORY_LENGTH * 3 / 4.

(** The derived defaults *)
Definition balance_default : Balance := {| balance_mint := 0; balance_amount := 0 |}.

Definition order_default : Order := {|
  order_quote_mint := 0; order_base_mint := 0; order_side := Buy;
  order_price := {| FixedPoint.repr := Zmod.zero |}; order_amount := 0; order_timestamp := 0 |}.

Definition fee_default : Fee := {|
  fee_settle_key := 0; fee_gas_addr := 0; fee_gas_token_amount := 0;
  fee_percentage_fee := {| FixedPoint.repr := Zmod.zero |} |}.

(** * Private keys *)

Record PrivateKeyChain := {
  sk_root : option Scalar; sk_match : Scalar; sk_settle : Scalar; sk_view : Scalar }.

(** [impl Serialize for PrivateKeyChain]: a sequence of big integers, of which the first
    may be null *)
Definition private_keychain_serialize (self : PrivateKeyChain) : list (option Z) :=
  [scalar_to_biguint <$> sk_root self; Some (scalar_to_biguint (sk_match self));
   Some (scalar_to_biguint (sk_settle self)); Some (scalar_to_biguint (sk_view self))].

(** [seq.next_element()?.ok_or_else(..)?] at the types [BigUint] and [Option<BigUint>];
    the error names the key that is missing. *)
Definition next_key (name : string) (seq : list (option Z)) : outcome string (Z * list (option Z)) :=
  match seq with Some k :: seq' => Ret (k, seq') | _ => Fail name end.

Definition next_optional_key (name : string) (seq : list (option Z))
    : outcome string (option Z * list (option Z)) :=
  match seq with k :: seq' => Ret (k, seq') | [] => Fail name end.

(** [PrivateKeyChainVisitor::visit_seq] *)
Definition private_keychain_visit_seq (seq : list (option Z)) : outcome string PrivateKeyChain :=
  (try! (root, seq) := next_optional_key "sk_root" seq in
   try! (match_, seq) := next_key "sk_match" seq in
   try! (settle, seq) := next_key "sk_settle" seq in
   try! (view, seq) := next_key "sk_view" seq in
   Ret {| sk_root := biguint_to_scalar <$> root; sk_match := biguint_to_scalar match_;
          sk_settle := biguint_to_scalar settle; sk_view := biguint_to_scalar view |})%outcome.

(** * 64-bit floats *)

Definition f64_prec : Z := 53.
Definition f64_emax : Z := 1024.

(** [x as f64] of a [u64], rounded to the nearest *)
Definition u64_to_f64 (x : Z) : spec_float := binary_normalize f64_prec f64_emax x 0 false.

Definition f64_mul : spec_float -> spec_float -> spec_float := SFmul f64_prec f64_emax.

(** [x as u64] of an [f64]: truncated towards zero, saturating, zero for a NaN *)
Definition f64_to_u64 (x : spec_float) : Z :=
  match x with
  | S754_finite false m e =>
      Z.min (2 ^ 64 - 1) (if (0 <=? e)%Z then Zpos m * 2 ^ e else Zpos m / 2 ^ (- e))
  | S754_infinity false => 2 ^ 64 - 1
  | _ => 0
  end.

Section wallets.
  Context `{F : Foreign}.

(** * Wallets *)

(** [state::wallet::Wallet]; an atomic counter is its value. *)
Record ManagedWallet := {
  w_wallet_id : WalletIdentifier;
  w_orders : gmap OrderIdentifier Order;
  w_balances : gmap Z Balance;
  w_fees : list Fee;
  w_public_keys : KeyChain;
  w_secret_keys : PrivateKeyChain;
  w_randomness : Z;
  w_replicas : gset PeerId;
  w_merkle_proof : option MerkleAuthenticationPath.t;
  w_proof_staleness : Z;
}.

(** [.chain(iter::repeat(d)).take(n)] *)
Definition pad {A} (d : A) (n : nat) (l : list A) : list A := take n (l ++ repeat d n).

(** [impl From<Wallet> for SizedCircuitWallet] *)
Definition circuit_wallet `{HashOrder} (wallet : ManagedWallet) : Wallet := {|
  wallet_balances := pad balance_default MAX_BALANCES (snd <$> visit (w_balances wallet));
  wallet_orders := pad order_default MAX_ORDERS (snd <$> visit (w_orders wallet));
  wallet_fees := pad fee_default MAX_FEES (w_fees wallet);
  wallet_keys := w_public_keys wallet;
  wallet_randomness := biguint_to_scalar (w_randomness wallet);
|}.

(** [get_commitment], [get_match_nullifier]; the hash belongs to arkworks and the
    conversion of a scalar to a [u64] to the proof system. *)
Definition get_commitment `{HashOrder} (ark_hash : list Scalar -> Scalar)
    (scalar_to_u64 : Scalar -> Z) (self : ManagedWallet) : Scalar :=
  compute_wallet_commitment ark_hash scalar_to_u64 (circuit_wallet self).

Definition get_wallet_match_nullifier `{HashOrder} (ark_hash : list Scalar -> Scalar)
    (scalar_to_u64 : Scalar -> Z) (self : ManagedWallet) : Nullifier :=
  compute_wallet_match_nullifier ark_hash (circuit_wallet self)
    (compute_wallet_commitment ark_hash scalar_to_u64 (circuit_wallet self)).

(** [needs_new_commitment_proof] *)
Definition needs_new_commitment_proof (self : ManagedWallet) : bool :=
  (STALENESS_THRESHOLD <? w_proof_staleness self)%Z.

(** * The index *)

Record WalletIndex := {
  wi_peer_id : PeerId;
  wallet_map : gmap WalletIdentifier ManagedWallet;
  order_to_wallet : gmap OrderIdentifier WalletIdentifier;
}.

(** [WalletIndex::new] *)
Definition wallets_new (peer_id : PeerId) : WalletIndex :=
  {| wi_peer_id := peer_id; wallet_map := ∅; order_to_wallet := ∅ |}.

Definition set_wallet_map (f : gmap WalletIdentifier ManagedWallet -> gmap WalletIdentifier ManagedWallet)
    (idx : WalletIndex) : WalletIndex :=
  {| wi_peer_id := wi_peer_id idx; wallet_map := f (wallet_map idx);
     order_to_wallet := order_to_wallet idx |}.

Definition with_replicas (f : gset PeerId -> gset PeerId) (w : ManagedWallet) : ManagedWallet := {|
  w_wallet_id := w_wallet_id w; w_orders := w_orders w; w_balances := w_balances w;
  w_fees := w_fees w; w_public_keys := w_public_keys w; w_secret_keys := w_secret_keys w;
  w_randomness := w_randomness w; w_replicas := f (w_replicas w);
  w_merkle_proof := w_merkle_proof w; w_proof_staleness := w_proof_staleness w |}.

Definition with_merkle_proof (p : option MerkleAuthenticationPath.t) (staleness : Z)
    (w : ManagedWallet) : ManagedWallet := {|
  w_wallet_id := w_wallet_id w; w_orders := w_orders w; w_balances := w_balances w;
  w_fees := w_fees w; w_public_keys := w_public_keys w; w_secret_keys := w_secret_keys w;
  w_randomness := w_randomness w; w_replicas := w_replicas w;
  w_merkle_proof := p; w_proof_staleness := staleness |}.

(** [get_wallet], [get_wallet_for_order], [get_all_wallet_ids], [get_all_wallets],
    [get_metadata_map] *)
Definition get_wallet (idx : WalletIndex) (wallet_id : WalletIdentifier) : option ManagedWallet :=
  wallet_map idx !! wallet_id.

Definition get_wallet_for_order (idx : WalletIndex) (order_id : OrderIdentifier)
    : option WalletIdentifier := order_to_wallet idx !! order_id.

Definition get_all_wallet_ids `{HashOrder} (idx : WalletIndex) : list WalletIdentifier :=
  fst <$> visit (wallet_map idx).

Definition get_all_wallets `{HashOrder} (idx : WalletIndex) : list ManagedWallet :=
  snd <$> visit (wallet_map idx).

Definition get_metadata_map (idx : WalletIndex) : gmap WalletIdentifier (gset PeerId) :=
  w_replicas <$> wallet_map idx.

(** [get_order_balance_and_fee]; the conversion of a price to a float belongs to the
    library of decimal numbers. *)
Definition order_mint (order : Order) : Z :=
  match order_side order with Buy => order_quote_mint order | Sell => order_base_mint order end.

Definition order_spend (to_f64 : FixedPoint.FixedPoint -> spec_float) (order : Order) : Z :=
  match order_side order with
  | Buy => f64_to_u64 (f64_mul (u64_to_f64 (order_amount order)) (to_f64 (order_price order)))
  | Sell => order_amount order
  end.

Definition get_order_balance_and_fee (to_f64 : FixedPoint.FixedPoint -> spec_float)
    (idx : WalletIndex) (wallet_id : WalletIdentifier) (order_id : OrderIdentifier)
    : option (Order * Balance * Fee * Balance) :=
  locked_wallet ← wallet_map idx !! wallet_id;
  order ← w_orders locked_wallet !! order_id;
  balance ← w_balances locked_wallet !! order_mint order;
  if (balance_amount balance <? order_spend to_f64 order)%Z then None else
  fee ← w_fees locked_wallet !! 0;
  fee_balance ← w_balances locked_wallet !! fee_gas_addr fee;
  if (balance_amount fee_balance <? fee_gas_token_amount fee)%Z then None else
  Some (order, balance, fee, fee_balance).

(** [add_wallet] *)
Definition add_wallet (wallet : ManagedWallet) (idx : WalletIndex) : WalletIndex :=
  let orders := map_fold (fun order_id _ m => <[order_id := w_wallet_id wallet]> m)
                  (order_to_wallet idx) (w_orders wallet) in
  let wallet := with_replicas (fun X => {[wi_peer_id idx]} ∪ X) wallet in
  {| wi_peer_id := wi_peer_id idx;
     wallet_map := <[w_wallet_id wallet := wallet]> (wallet_map idx);
     order_to_wallet := orders |}.

(** [add_replica], [add_wallet_merkle_proof] *)
Definition add_replica (wallet_id : WalletIdentifier) (peer_id : PeerId) (idx : WalletIndex)
    : WalletIndex :=
  match wallet_map idx !! wallet_id with
  | Some wallet =>
      set_wallet_map (fun m => <[wallet_id := with_replicas (fun X => {[peer_id]} ∪ X) wallet]> m) idx
  | None => idx
  end.

Definition add_wallet_merkle_proof (wallet_id : WalletIdentifier)
    (merkle_proof : MerkleAuthenticationPath.t) (idx : WalletIndex) : WalletIndex :=
  match wallet_map idx !! wallet_id with
  | Some wallet =>
      set_wallet_map (fun m =>
        <[wallet_id := with_merkle_proof (Some merkle_proof) (w_proof_staleness wallet) wallet]> m) idx
  | None => idx
  end.

(** [merge_metadata] *)
Definition merge_metadata (wallet_id : WalletIdentifier) (replicas : gset PeerId) (idx : WalletIndex)
    : WalletIndex :=
  match wallet_map idx !! wallet_id with
  | Some wallet =>
      if bool_decide (replicas ⊆ w_replicas wallet) then idx
      else set_wallet_map (fun m => <[wallet_id := with_replicas (fun X => X ∪ replicas) wallet]> m) idx
  | None => idx
  end.

(** [remove_peer_replicas] *)
Definition remove_peer_replicas (peer : PeerId) (idx : WalletIndex) : WalletIndex :=
  set_wallet_map (fun m => with_replicas (fun X => X ∖ {[peer]}) <$> m) idx.

(** * The invariant of the index *)

Inductive wallets_step : WalletIndex -> WalletIndex -> Prop :=
  | step_add_wallet w idx : wallets_step idx (add_wallet w idx)
  | step_add_replica i p idx : wallets_step idx (add_replica i p idx)
  | step_merkle_proof i p idx : wallets_step idx (add_wallet_merkle_proof i p idx)
  | step_merge i X idx : wallets_step idx (merge_metadata i X idx)
  | step_remove_replicas p idx : p <> wi_peer_id idx -> wallets_step idx (remove_peer_replicas p idx).

(** Every wallet is stored under its identifier and replicated by the local node; every
    order of a wallet leads to an indexed wallet. *)
Record wallets_ok (idx : WalletIndex) : Prop := {
  ok_wallet_ids i w : wallet_map idx !! i = Some w -> w_wallet_id w = i;
  ok_replicated i w : wallet_map idx !! i = Some w -> wi_peer_id idx ∈ w_replicas w;
  ok_order_wallet i w o : wallet_map idx !! i = Some w -> is_Some (w_orders w !! o) ->
    is_Some (order_to_wallet idx !! o);
  ok_wallet_known o i : order_to_wallet idx !! o = Some i -> is_Some (wallet_map idx !! i);
}.

Lemma index_orders (orders : gmap OrderIdentifier Order) i m o :
  map_fold (fun order_id (_ : Order) m => <[order_id := i]> m) m orders !! o =
  if decide (is_Some (orders !! o)) then Some i else (m : gmap OrderIdentifier WalletIdentifier) !! o.
Proof.
  revert orders. apply (map_fold_weak_ind
    (fun (r : gmap OrderIdentifier WalletIdentifier) (orders : gmap OrderIdentifier Order) =>
       r !! o = if decide (is_Some (orders !! o)) then Some i else m !! o)).
  - rewrite decide_False; [done|]. rewrite lookup_empty. apply is_Some_None.
  - intros k x orders' r Hk IH. destruct (decide (o = k)) as [->|Hne].
    + by rewrite !lookup_insert_eq, decide_True.
    + by rewrite !lookup_insert_ne by done.
Qed.

Lemma update_wallet_ok i w w' idx :
  wallets_ok idx -> wallet_map idx !! i = Some w -> w_wallet_id w' = w_wallet_id w ->
  w_orders w' = w_orders w -> wi_peer_id idx ∈ w_replicas w' ->
  wallets_ok (set_wallet_map (fun m => <[i := w']> m) idx).
Proof.
  intros [H1 H2 H3 H4] Hw Hid Hord Hrep.
  split; cbn -[insert lookup]; intros j v.
  - rewrite lookup_insert_Some. intros [[<- <-]|[_ Hj]]; [rewrite Hid; eauto|eauto].
  - rewrite lookup_insert_Some. intros [[<- <-]|[_ Hj]]; eauto.
  - intros o. rewrite lookup_insert_Some. intros [[<- <-]|[_ Hj]]; [rewrite Hord; eauto|eauto].
  - intros Hj. rewrite lookup_insert_is_Some'. right. eauto.
Qed.

Lemma add_wallet_ok w idx : wallets_ok idx -> wallets_ok (add_wallet w idx).
Proof.
  intros [H1 H2 H3 H4]. unfold add_wallet. split; cbn -[insert lookup]; intros j v.
  - rewrite lookup_insert_Some. intros [[<- <-]|[_ Hj]]; [done|eauto].
  - rewrite lookup_insert_Some. intros [[<- <-]|[_ Hj]]; [cbn; set_solver|eauto].
  - intros o. rewrite lookup_insert_Some, index_orders. case_decide; [done|].
    intros [[<- <-]|[_ Hj]]; [done|eauto].
  - rewrite index_orders, lookup_insert_is_Some'. case_decide; [|eauto].
    intros [= <-]. by left.
Qed.

Lemma wallets_step_ok idx idx' :
  wallets_step idx idx' -> wallets_ok idx -> wallets_ok idx' /\ wi_peer_id idx' = wi_peer_id idx.
Proof.
  intros Hstep Hok. pose proof (ok_replicated _ Hok) as Hrep.
  destruct Hstep as [w idx|i p idx|i p idx|i X idx|p idx Hp].
  - split; [by apply add_wallet_ok|done].
  - unfold add_replica. destruct (wallet_map idx !! i) as [w|] eqn:Hw; [|done]. split; [|done].
    apply (update_wallet_ok i w); [done..|]. specialize (Hrep _ _ Hw). cbn. set_solver.
  - unfold add_wallet_merkle_proof. destruct (wallet_map idx !! i) as [w|] eqn:Hw; [|done].
    split; [|done]. apply (update_wallet_ok i w); [done..|]. exact (Hrep _ _ Hw).
  - unfold merge_metadata. destruct (wallet_map idx !! i) as [w|] eqn:Hw; [|done].
    case_bool_decide; [done|]. split; [|done].
    apply (update_wallet_ok i w); [done..|]. specialize (Hrep _ _ Hw). cbn. set_solver.
  - destruct Hok as [H1 H2 H3 H4]. split; [|done]. split; cbn -[lookup]; intros j v.
    + rewrite lookup_fmap_Some. intros (w & <- & Hw). cbn. eauto.
    + rewrite lookup_fmap_Some. intros (w & <- & Hw). specialize (H2 _ _ Hw). cbn. set_solver.
    + intros o. rewrite lookup_fmap_Some. intros (w & <- & Hw). cbn. eauto.
    + intros Hj. rewrite lookup_fmap, fmap_is_Some. eauto.
Qed.

Lemma wallets_reachable_ok p idx :
  rtc wallets_step (wallets_new p) idx -> wallets_ok idx /\ wi_peer_id idx = p.
Proof.
  intros H. remember (wallets_new p) as i0 eqn:E.
  assert (H0 : wallets_ok i0 /\ wi_peer_id i0 = p).
  { subst. split; [|done]. split; cbn; intros *; rewrite lookup_empty; done. }
  clear E. induction H as [|i1 i2 i3 Hs Hr IH]; [done|]. apply IH.
  destruct (wallets_step_ok _ _ Hs) as [? ->]; [apply H0|]. split; [done|apply H0].
Qed.

(** * Padding *)

Lemma length_pad {A} (d : A) n l : length (pad d n l) = n.
Proof. unfold pad. rewrite length_take, length_app, repeat_length. lia. Qed.

Lemma elem_of_pad {A} (d : A) n (l : list A) x : length l <= n -> x ∈ l -> x ∈ pad d n l.
Proof. intros Hl Hx. unfold pad. rewrite take_app, take_ge by done. apply elem_of_app. by left. Qed.

Lemma length_values `{HashOrder} {K A} `{Countable K} (m : gmap K A) : length (snd <$> visit m) = size m.
Proof. by rewrite length_fmap, visit_perm, length_map_to_list. Qed.

Lemma elem_of_values `{HashOrder} {K A} `{Countable K} (m : gmap K A) k x :
  m !! k = Some x -> x ∈ snd <$> visit m.
Proof. intros Hx. apply list_elem_of_fmap. exists (k, x). split; [done|by apply elem_of_visit]. Qed.

(** * Properties *)

(** What VALID COMMITMENTS asks of the order, balance, fee and fee balance it is proved
    with: they belong to the wallet, the balance has the mint that the order sells, and
    the fee balance has the mint of the fee and covers it. *)
Record committable (wallet : Wallet) (order : Order) (balance : Balance) (fee : Fee)
    (fee_balance : Balance) : Prop := {
  com_order : order ∈ wallet_orders wallet;
  com_balance : balance ∈ wallet_balances wallet;
  com_fee : fee ∈ wallet_fees wallet;
  com_fee_balance : fee_balance ∈ wallet_balances wallet;
  com_mint : balance_mint balance =
    (order_base_mint order * side_to_u64 (order_side order) +
     order_quote_mint order * (1 - side_to_u64 (order_side order)))%Z;
  com_gas_mint : fee_gas_addr fee = balance_mint fee_balance;
  com_gas_covered : (fee_gas_token_amount fee <= balance_amount fee_balance)%Z;
}.

(** The wallet fits into the circuit's sizes and its balances are stored under their mints. *)
Record wallet_fits (w : ManagedWallet) : Prop := {
  fits_balances : size (w_balances w) <= MAX_BALANCES;
  fits_orders : size (w_orders w) <= MAX_ORDERS;
  fits_fees : length (w_fees w) <= MAX_FEES;
  fits_mints m b : w_balances w !! m = Some b -> balance_mint b = m;
}.


(** In every reachable index the local node is a replica of every wallet, and every
    order of a wallet leads to a wallet that is stored under its own identifier. *)
Theorem wallet_index_invariant p idx i w o :
  rtc wallets_step (wallets_new p) idx -> get_wallet idx i = Some w -> is_Some (w_orders w !! o) ->
  w_wallet_id w = i /\ p ∈ w_replicas w /\
  exists j w', get_wallet_for_order idx o = Some j /\ get_wallet idx j = Some w' /\ w_wallet_id w' = j.
Proof.
  intros [[H1 H2 H3 H4] <-]%wallets_reachable_ok Hw Ho. unfold get_wallet, get_wallet_for_order in *.
  split; [eauto|]. split; [eauto|]. destruct (H3 _ _ _ Hw Ho) as [j Hj].
  destruct (H4 _ _ Hj) as [w' Hw']. exists j, w'. eauto.
Qed.

Lemma length_balances_preimage (l : list Balance) :
  length (concat (balance_preimage <$> l)) = 2 * length l.
Proof. induction l as [|b l IH]; [done|]. cbn in *. lia. Qed.

(** The commitment to a wallet is not a function of the wallet.  For a wallet with
    two orders of different amounts, two relayers whose hash maps are visited in opposite
    orders hash two different lists. *)
Theorem wallet_commitment_depends_on_hash_order (H : HashOrder) scalar_to_u64 w i j a b :
  w_orders w = {[i := a; j := b]} -> i <> j ->
  (0 <= order_amount a < 2 ^ 64)%Z -> (0 <= order_amount b < 2 ^ 64)%Z ->
  order_amount a <> order_amount b ->
  exists l l', l <> l' /\ forall ark_hash,
    @get_commitment H ark_hash scalar_to_u64 w = ark_hash l /\
    @get_commitment (opposite_order H) ark_hash scalar_to_u64 w = ark_hash l'.
Proof.
  intros Hw Hij Ha Hb Hab. eexists _, _. split; [|intros ark_hash; split; reflexivity].
  assert (Hv : exists x y, snd <$> @visit H _ _ _ _ (w_orders w) = [x; y] /\
                ((x = a /\ y = b) \/ (x = b /\ y = a))).
  { assert (Hp : @visit H _ _ _ _ (w_orders w) ≡ₚ [(i, a); (j, b)]).
    { rewrite (@visit_perm H), Hw, map_to_list_insert by (by rewrite lookup_singleton_ne).
      by rewrite map_to_list_singleton. }
    symmetry in Hp. apply Permutation_length_2_inv in Hp as [-> | ->]; eexists _, _; split; [reflexivity|by left|reflexivity|by right]. }
  destruct Hv as (x & y & Hv & Hxy). cbn [circuit_wallet wallet_balances wallet_orders].
  intros [_ E]%app_inj_1; [|by rewrite !length_balances_preimage, !length_pad].
  cbn [visit opposite_order] in E. rewrite fmap_reverse, Hv in E. cbn in E.
  do 4 apply cons_inj in E as [_ E]. apply cons_inj in E as [E _].
  apply (f_equal Zmod.to_Z) in E. assert (2 ^ 64 < ristretto_order)%Z by done.
  destruct Hxy as [[-> ->]|[-> ->]]; rewrite !to_Z_small in E by lia; congruence.
Qed.
End wallets.

(** C39: A private key chain, with or without a root key, is read back from its serialized
    form, and a sequence that ends early is an error that names the missing key. *)
Theorem private_keychain_roundtrip keys :
  private_keychain_visit_seq (private_keychain_serialize keys) = Ret keys /\
  forall n, n < 4 -> private_keychain_visit_seq (take n (private_keychain_serialize keys)) =
    Fail (nth n ["sk_root"; "sk_match"; "sk_settle"; "sk_view"]%string EmptyString).
Proof.
  assert (Hs : forall k, biguint_to_scalar (scalar_to_biguint k) = k).
  { intros k. rewrite scalar_to_biguint_spec, <- scalar_to_bigint_spec. apply bigint_to_scalar_to_bigint. }
  destruct keys as [[r|] m s v]; (split; [cbn -[biguint_to_scalar scalar_to_biguint]; by rewrite !Hs|]);
    intros n Hn; do 4 (destruct n as [|n]; [done|]); lia.
Qed.

(** * Examples *)

#[local] Existing Instance sample_foreign.

Definition sample_managed_order (amount : Z) : Order := {|
  order_quote_mint := 11; order_base_mint := 12; order_side := Sell;
  order_price := FixedPoint.from_integer 2; order_amount := amount; order_timestamp := 0 |}.

Definition sample_managed_wallet : ManagedWallet := {|
  w_wallet_id := 1%N; w_orders := {[5%N := sample_managed_order 10; 6%N := sample_managed_order 20]};
  w_balances := {[12%Z := {| balance_mint := 12; balance_amount := 30 |}]};
  w_fees := [{| fee_settle_key := 1; fee_gas_addr := 12; fee_gas_token_amount := 3;
                fee_percentage_fee := FixedPoint.from_integer 0 |}];
  w_public_keys := {| pk_root := Zmod.one; pk_match := Zmod.one; pk_settle := Zmod.one; pk_view := Zmod.one |};
  w_secret_keys := {| sk_root := None; sk_match := Zmod.one; sk_settle := Zmod.one; sk_view := Zmod.one |};
  w_randomness := 9; w_replicas := ∅; w_merkle_proof := None; w_proof_staleness := 0 |}.

Definition sample_wallets : WalletIndex := add_wallet sample_managed_wallet (wallets_new (3%N : @PeerId sample_foreign)).

Definition no_float (_ : FixedPoint.FixedPoint) : spec_float := S754_zero false.


Lemma wallet_index_invariant_witness :
  exists j w', get_wallet_for_order sample_wallets 5%N = Some j /\ get_wallet sample_wallets j = Some w' /\
    w_wallet_id w' = j.
Proof.
  eapply (wallet_index_invariant (3%N : @PeerId sample_foreign) sample_wallets 1%N _ 5%N).
  - eapply rtc_l; [apply step_add_wallet|]. apply rtc_refl.
  - reflexivity.
  - by eexists.
Defined.

Lemma wallet_commitment_depends_on_hash_order_witness :
  exists l l', l <> l' /\ forall ark_hash,
    @get_commitment _ sorted_order ark_hash (fun _ => 0%Z) sample_managed_wallet = ark_hash l /\
    @get_commitment _ (opposite_order sorted_order) ark_hash (fun _ => 0%Z) sample_managed_wallet = ark_hash l'.
Proof.
  apply (wallet_commitment_depends_on_hash_order sorted_order (fun _ => 0%Z) sample_managed_wallet 5%N 6%N
           (sample_managed_order 10) (sample_managed_order 20)); cbn; first [done|lia].
Defined.
