(* ===== verification/Messages.v ===== *)
(** The messages of the gossip network and the directives for the network manager:
    core/src/gossip_api/{gossip,cluster_management,heartbeat,handshake,orderbook_management}.rs,
    with the rules that say which of them carry a cluster signature. *)

From Stdlib Require Import Zmod.
From stdpp Require Import gmap strings.
From S2P Require Import Prelude Primality Field RelayerTypes WalletIndex.

#[global] Set Default Goal Selector "!".

(** [ORDER_BOOK_TOPIC] *)
Definition ORDER_BOOK_TOPIC : string := "orderbook".

Inductive MatchRejectionReason := Cached | LocalOrderNotReady | NoValidityProof.

Inductive ConnectionRole := Dialer | Listener.

(** [ConnectionRole::get_party_id] *)
Definition get_party_id (self : ConnectionRole) : Z := match self with Dialer => 0 | Listener => 1 end.

Section messages.
  Context `{F : Foreign}.

Inductive HandshakeMessage :=
  | Ack
  | ProposeMatchCandidate (peer_id : PeerId) (peer_order sender_order : OrderIdentifier)
  | RejectMatchCandidate (peer_id : PeerId) (peer_order sender_order : OrderIdentifier)
      (reason : MatchRejectionReason)
  | ExecuteMatch (peer_id : PeerId) (port : Z) (previously_matched : bool)
      (order1 order2 : OrderIdentifier).

(** A peer identifier travels as a string. *)
Record HeartbeatMessage := {
  hb_managed_wallets : gmap WalletIdentifier (gset PeerId);
  hb_known_peers : gmap string PeerInfo;
  hb_orders : list (OrderIdentifier * ClusterId);
}.

Record ClusterJoinMessage := {
  join_peer_id : PeerId; join_peer_info : PeerInfo; join_addr : Multiaddr }.

Record ValidityProofRequest := { pr_order_ids : list OrderIdentifier; pr_sender : PeerId }.

Inductive ClusterManagementMessage :=
  | Join (message : ClusterJoinMessage)
  | Replicated (wallets : list WalletIdentifier) (peer_id : PeerId)
  | MatchInProgress (order1 order2 : OrderIdentifier)
  | CacheSync (order1 order2 : OrderIdentifier)
  | RequestOrderValidityProof (request : ValidityProofRequest)
  | RequestOrderValidityWitness (order_id : OrderIdentifier) (sender : PeerId).

Inductive OrderBookManagementMessage :=
  | OrderReceived (order_id : OrderIdentifier) (match_nullifier : Nullifier) (cluster : ClusterId)
  | OrderProofUpdated (order_id : OrderIdentifier) (cluster : ClusterId)
      (proof : ValidCommitmentsBundle).

Inductive GossipRequest :=
  | BootstrapReq (peer_info : PeerInfo)
  | HeartbeatReq (message : HeartbeatMessage)
  | HandshakeReq (request_id : Uuid) (message : HandshakeMessage)
  | OrderInfoReq (order_id : OrderIdentifier)
  | ReplicateReq (wallets : list ManagedWallet)
  | ValidityProof (order_id : OrderIdentifier) (proof : ValidCommitmentsBundle)
  | ValidityWitness (order_id : OrderIdentifier) (witness : SizedValidCommitmentsWitness).

Inductive GossipResponse :=
  | AckResp
  | HeartbeatResp (message : HeartbeatMessage)
  | HandshakeResp (request_id : Uuid) (message : HandshakeMessage)
  | OrderInfoResp (order_id : OrderIdentifier) (info : option NetworkOrder).

Inductive PubsubMessage :=
  | ClusterManagement (cluster_id : ClusterId) (message : ClusterManagementMessage)
  | OrderBookManagement (message : OrderBookManagementMessage).

Inductive ManagerControlDirective :=
  | BrokerMpcNet (request_id : Uuid) (peer_id : PeerId) (peer_port local_port : Z)
      (local_role : ConnectionRole)
  | NewAddr (peer_id : PeerId) (address : Multiaddr)
  | GossipWarmupComplete.

(** A response channel of libp2p is known by a number. *)
Definition ResponseChannel := N.

Inductive GossipOutbound :=
  | Request (peer_id : PeerId) (message : GossipRequest)
  | Response (channel : ResponseChannel) (message : GossipResponse)
  | Pubsub (topic : string) (message : PubsubMessage)
  | ManagementMessage (directive : ManagerControlDirective).

(** * Cluster authentication *)

(** [GossipRequest::requires_cluster_auth] and its namesakes *)
Definition request_requires_cluster_auth (self : GossipRequest) : bool :=
  match self with
  | BootstrapReq _ | HeartbeatReq _ | HandshakeReq _ _ | OrderInfoReq _ | ReplicateReq _ => false
  | ValidityProof _ _ | ValidityWitness _ _ => true
  end.

Definition response_requires_cluster_auth (self : GossipResponse) : bool :=
  match self with
  | AckResp | HeartbeatResp _ | HandshakeResp _ _ | OrderInfoResp _ _ => false
  end.

Definition pubsub_requires_cluster_auth (self : PubsubMessage) : bool :=
  match self with
  | ClusterManagement _ _ => true
  | OrderBookManagement _ => false
  end.

Record Authenticated (Body : Type) := Signed { auth_sig : list Byte.byte; auth_body : Body }.
#[global] Arguments Signed {Body}.
#[global] Arguments auth_sig {Body}.
#[global] Arguments auth_body {Body}.

Section auth.
  Context {Body SigKeypair PublicKey : Type} (requires_cluster_auth : Body -> bool).
  Context (sign : SigKeypair -> Body -> option (list Byte.byte)).
  Context (verify : PublicKey -> Body -> list Byte.byte -> bool).

(** [new_with_body] of the three message types; the signature of the hashed body belongs
    to the signature library and may fail. *)
Definition new_with_body (body : Body) (cluster_key : SigKeypair) : outcome unit (Authenticated Body) :=
  if requires_cluster_auth body then
    match sign cluster_key body with
    | Some sig => Ret (Signed sig body)
    | None => Fail tt
    end
  else Ret (Signed [] body).

(** [verify_cluster_auth] of the three message types *)
Definition verify_cluster_auth (self : Authenticated Body) (cluster_pubkey : PublicKey) : bool :=
  if negb (requires_cluster_auth (auth_body self)) then true
  else verify cluster_pubkey (auth_body self) (auth_sig self).
End auth.
End messages.
