(* ===== verification/HandshakeCache.v ===== *)
(** The cache of order pairs that have been matched: core/src/handshake/handshake_cache.rs. *)

From stdpp Require Import base list.
From S2P Require Import Prelude Lru.

#[global] Set Default Goal Selector "!".

(** * The handshake cache *)

(** An [Instant] and a [Duration] are numbers of one clock. *)
Inductive HandshakeCacheState :=
  | Completed
  | Invisible (until : Z).

Section cache.
  Context {O : Type} `{EqDecision O} (le : O -> O -> bool).
  Context {T : LruCache (O * O) HandshakeCacheState}.

Record HandshakeCache := { hc_size : nat; hc_max_size : nat; hc_lru_cache : lru }.

(** [HandshakeCache::new]; a capacity of zero makes [unwrap] panic. *)
Definition cache_new (max_size : nat) : outcome unit HandshakeCache :=
  if decide (max_size = 0) then Panic
  else Ret {| hc_size := 0; hc_max_size := max_size; hc_lru_cache := lru_new max_size |}.

(** [len] *)
Definition cache_len (c : HandshakeCache) : nat := lru_len (hc_lru_cache c).

(** [std::cmp::min] returns its first argument when the two are equal, [max] its second. *)
Definition cmp_min (o1 o2 : O) : O := if le o1 o2 then o1 else o2.
Definition cmp_max (o1 o2 : O) : O := if le o1 o2 then o2 else o1.

(** [cache_tuple] *)
Definition cache_tuple (o1 o2 : O) : O * O := (cmp_min o1 o2, cmp_max o1 o2).

Definition cache_push (key : O * O) (st : HandshakeCacheState) (c : HandshakeCache) : HandshakeCache :=
  {| hc_size := hc_size c; hc_max_size := hc_max_size c;
     hc_lru_cache := lru_push key st (hc_lru_cache c) |}.

(** [mark_completed] *)
Definition mark_completed (o1 o2 : O) (c : HandshakeCache) : HandshakeCache :=
  cache_push (cache_tuple o1 o2) Completed c.

(** [mark_invisible] at the time [now] *)
Definition mark_invisible (now : Z) (o1 o2 : O) (window : Z) (c : HandshakeCache) : HandshakeCache :=
  cache_push (cache_tuple o1 o2) (Invisible (now + window)) c.

(** [contains] at the time [now]; [now.checked_duration_since(until)] is [None] when
    [until] is later. *)
Definition cache_contains (now : Z) (o1 o2 : O) (c : HandshakeCache) : bool :=
  match lru_peek (hc_lru_cache c) (cache_tuple o1 o2) with
  | Some Completed => true
  | Some (Invisible until) => (now <? until)%Z
  | None => false
  end.

(** * Facts *)

(** The order of the identifiers is total and antisymmetric. *)
Context {Laws : LruCacheLaws (O * O) HandshakeCacheState}.
Context (le_total : forall a b, le a b = true \/ le b a = true)
        (le_antisym : forall a b, le a b = true -> le b a = true -> a = b).

Lemma cache_tuple_comm o1 o2 : cache_tuple o1 o2 = cache_tuple o2 o1.
Proof using le_total le_antisym.
  unfold cache_tuple, cmp_min, cmp_max.
  destruct (le o1 o2) eqn:E1, (le o2 o1) eqn:E2; [|done|done|].
  - by rewrite (le_antisym o1 o2).
  - destruct (le_total o1 o2); congruence.
Qed.

(** Marks of order pairs, in any order. *)
Inductive mark :=
  | MarkCompleted (o1 o2 : O)
  | MarkInvisible (now : Z) (o1 o2 : O) (window : Z).

Definition mark_pair (m : mark) : O * O :=
  match m with MarkCompleted o1 o2 | MarkInvisible _ o1 o2 _ => cache_tuple o1 o2 end.

Definition apply_mark (c : HandshakeCache) (m : mark) : HandshakeCache :=
  match m with
  | MarkCompleted o1 o2 => mark_completed o1 o2 c
  | MarkInvisible now o1 o2 window => mark_invisible now o1 o2 window c
  end.

Lemma apply_mark_push c m : exists st, apply_mark c m = cache_push (mark_pair m) st c.
Proof. destruct m; eexists; reflexivity. Qed.

Lemma marks_keep k v ms : forall c,
  Forall (fun m => mark_pair m <> k) ms ->
  lru_peek (hc_lru_cache c) k = Some v ->
  depth (lru_entries (hc_lru_cache c)) k + length ms < lru_cap (hc_lru_cache c) ->
  lru_peek (hc_lru_cache (foldl apply_mark c ms)) k = Some v.
Proof using Laws.
  induction ms as [|m ms IH]; intros c Hms Hk Hd; cbn in *; [done|].
  apply Forall_cons in Hms as [Hm Hms]. destruct (apply_mark_push c m) as [st ->].
  destruct (push_keeps (hc_lru_cache c) k v (mark_pair m) st) as [H1 H2]; [done|done|lia|].
  apply IH; [done..|]. cbn. rewrite cap_push. lia.
Qed.

(** * Properties *)

(** C33: A completed pair is found, in either order of its identifiers and at any time, as
    long as fewer marks of other pairs follow than the cache has room for. *)
Theorem completed_pair_retained o1 o2 ms c now :
  Forall (fun m => mark_pair m <> cache_tuple o1 o2) ms ->
  length ms < lru_cap (hc_lru_cache c) ->
  cache_contains now o1 o2 (foldl apply_mark (mark_completed o1 o2 c) ms) = true /\
  cache_contains now o2 o1 (foldl apply_mark (mark_completed o1 o2 c) ms) = true.
Proof using Laws le_total le_antisym.
  intros Hms Hlen. unfold cache_contains. rewrite (cache_tuple_comm o2 o1).
  destruct (push_front (hc_lru_cache c) (cache_tuple o1 o2) Completed) as [H1 H2]; [lia|].
  by rewrite (marks_keep (cache_tuple o1 o2) Completed) by (cbn; rewrite ?cap_push; auto; lia).
Qed.

(** A mark of invisibility hides the pair until its window ends and not longer, also
    when the pair was already completed: the earlier completion is forgotten, and from the
    end of the window on the pair may be scheduled again. *)
Theorem invisible_replaces_completed o1 o2 c t window now :
  lru_cap (hc_lru_cache c) <> 0 ->
  cache_contains now o1 o2 (mark_invisible t o1 o2 window (mark_completed o1 o2 c))
    = (now <? t + window)%Z.
Proof using Laws.
  intros Hc. unfold cache_contains. cbn.
  by destruct (push_front (lru_push (cache_tuple o1 o2) Completed (hc_lru_cache c))
       (cache_tuple o1 o2) (Invisible (t + window))) as [-> _]; rewrite ?cap_push.
Qed.
End cache.

Arguments HandshakeCache O {EqDecision0 T}.

(** * Examples *)

#[local] Existing Instance list_lru.
#[local] Existing Instance list_lru_laws.

Definition sample_cache : HandshakeCache N :=
  {| hc_size := 0; hc_max_size := 3; hc_lru_cache := lru_new 3 |}.

Lemma N_leb_total (a b : N) : (a <=? b)%N = true \/ (b <=? a)%N = true.
Proof. rewrite !N.leb_le. lia. Qed.

Lemma N_leb_antisym (a b : N) : (a <=? b)%N = true -> (b <=? a)%N = true -> a = b.
Proof. rewrite !N.leb_le. lia. Qed.

Lemma completed_pair_retained_witness :
  cache_contains N.leb 50 1%N 2%N
    (foldl (apply_mark N.leb) (mark_completed N.leb 2%N 1%N sample_cache)
       [MarkInvisible 7 2%N 5%N 120; MarkCompleted 9%N 1%N]) = true.
Proof.
  apply (completed_pair_retained N.leb N_leb_total N_leb_antisym 2%N 1%N
           [MarkInvisible 7 2%N 5%N 120; MarkCompleted 9%N 1%N] sample_cache 50).
  - repeat constructor; cbn; discriminate.
  - cbn. lia.
Defined.

Lemma invisible_replaces_completed_witness :
  cache_contains N.leb 130 1%N 2%N
    (mark_invisible N.leb 10 1%N 2%N 120 (mark_completed N.leb 1%N 2%N sample_cache)) = false.
Proof. apply (invisible_replaces_completed N.leb 1%N 2%N sample_cache 10 120 130). discriminate. Defined.
