(* ===== verification/World.v ===== *)
(** The state that the workers of one relayer share: the global state
    (core/src/state/state.rs), the handshake manager's cache and state index
    (core/src/handshake/{manager,state,jobs,error}.rs), the gossip server's expiry cache, the
    channels between the workers, the chain listener's counters and the clocks, with the locks
    that protect them. *)

From Stdlib Require Import Zmod.
From stdpp Require Import gmap strings.
From S2P Require Import Prelude Async Primality Field RelayerTypes OrderBook PeerIndex WalletIndex.
From S2P Require Import Messages Lru HandshakeCache MatchTypes.

#[global] Set Default Goal Selector "!".

(** * Locks *)

Inductive lock :=
  | WalletIndexLock
  | HandshakeCacheLock
  | PrioritiesLock
  | MatchedPairsLock
  | PeerIndexLock
  | OrderBookLock
  | StateMapLock
  | NullifierMapLock
  | ExpiryCacheLock.

#[export] Instance lock_eq_dec : EqDecision lock.
Proof. solve_decision. Defined.

(** The order in which nested scopes take the locks. *)
Definition rank (l : lock) : nat :=
  match l with
  | WalletIndexLock => 0
  | HandshakeCacheLock => 1
  | PrioritiesLock => 2
  | MatchedPairsLock => 3
  | PeerIndexLock => 4
  | OrderBookLock => 5
  | StateMapLock => 6
  | NullifierMapLock => 7
  | ExpiryCacheLock => 8
  end.

Lemma rank_bound l : rank l < 9.
Proof. destruct l; cbn; lia. Qed.

(** * Channels *)

(** An unbounded channel accepts messages until its receiver is dropped. *)
Record channel (M : Type) := Channel { ch_open : bool; ch_sent : list M }.
Arguments Channel {M}.
Arguments ch_open {M}.
Arguments ch_sent {M}.

(** The channel that cancels a match has one receiver and room for one signal; the
    handshake that owns it is forgotten before it is signalled. *)
Record cancel_channel := { cc_receiver : bool; cc_signals : nat }.

(** * Handshakes *)

Inductive HandshakeManagerError :=
  | Multiprover (msg : string)
  | InvalidRequest (request_id : Uuid)
  | MpcNetworkError (msg : string)
  | MpcShootdownError
  | VerificationError (msg : string)
  | ReceiveProof (msg : string)
  | HandshakeSendMessage
  | SetupError (msg : string)
  | StateNotFound (msg : string)
  | HandshakeCancelled (msg : string).

Inductive HandshakeStatus :=
  | OrderNegotiation
  | MatchRunning
  | MatchCompleted
  | HandshakeError (err : HandshakeManagerError).

Record HandshakeState := {
  hs_request_id : Uuid;
  hs_peer_order_id : OrderIdentifier;
  hs_local_order_id : OrderIdentifier;
  hs_peer_match_nullifier : Nullifier;
  hs_local_match_nullifier : Nullifier;
  hs_state : HandshakeStatus;
  hs_cancel_channel : option nat;
}.

Section world.
  Context `{F : Foreign}.

Inductive HandshakeExecutionJob :=
  | PerformHandshake (order : OrderIdentifier)
  | ProcessHandshakeMessage (request_id : Uuid) (peer_id : PeerId) (message : HandshakeMessage)
      (response_channel : option ResponseChannel)
  | MpcNetSetup (request_id : Uuid) (party_id : Z) (net : QuicTwoPartyNet)
  | MpcShootdown (match_nullifier : Nullifier)
  | PeerMatchInProgress (order1 order2 : OrderIdentifier)
  | CacheEntry (order1 order2 : OrderIdentifier).

(** The jobs of the proof manager that the modelled workers enqueue. *)
Inductive ProofManagerJob :=
  | ProveValidCommitments (witness : SizedValidCommitmentsWitness)
      (statement : ValidCommitmentsStatement)
  | ProveValidMatchEncrypt (witness : ValidMatchEncryptionWitness) (statement : ValidMatchEncryptionStatement).

(** The jobs of the gossip server: core/src/gossip/jobs.rs *)
Inductive ClusterManagementJob :=
  | AddWalletReplica (wallet_id : WalletIdentifier) (peer_id : PeerId)
  | ClusterJoinRequest (cluster_id : ClusterId) (message : ClusterJoinMessage)
  | ReplicateRequest (wallets : list ManagedWallet)
  | ShareValidityProofs (req : ValidityProofRequest)
  | UpdateValidityProof (order_id : OrderIdentifier) (proof : ValidCommitmentsBundle).

Inductive OrderBookManagementJob :=
  | JobOrderInfo (order_id : OrderIdentifier) (response_channel : ResponseChannel)
  | JobOrderInfoResponse (order_id : OrderIdentifier) (info : option NetworkOrder)
  | JobOrderReceived (order_id : OrderIdentifier) (match_nullifier : Nullifier) (cluster : ClusterId)
  | JobOrderProofUpdated (order_id : OrderIdentifier) (cluster : ClusterId) (proof : ValidCommitmentsBundle)
  | JobOrderWitness (order_id : OrderIdentifier) (requesting_peer : PeerId)
  | JobOrderWitnessResponse (order_id : OrderIdentifier) (witness : SizedValidCommitmentsWitness).

Inductive GossipServerJob :=
  | JobBootstrap (peer_info : PeerInfo) (response_channel : ResponseChannel)
  | JobCluster (job : ClusterManagementJob)
  | JobExecuteHeartbeat (peer_id : PeerId)
  | JobHandleHeartbeatReq (peer_id : PeerId) (message : HeartbeatMessage) (channel : ResponseChannel)
  | JobHandleHeartbeatResp (peer_id : PeerId) (message : HeartbeatMessage)
  | JobOrderBookManagement (message : OrderBookManagementJob).

(** [RelayerState] *)
Record RelayerState := {
  rs_local_peer_id : PeerId;
  rs_local_cluster_id : ClusterId;
  rs_wallet_index : WalletIndex;
  rs_peer_index : PeerIndex;
  rs_order_book : NetworkOrderBook;
  rs_matched_order_pairs : list (OrderIdentifier * OrderIdentifier);
  rs_handshake_priorities : HandshakePriorityStore;
}.

Definition on_wallet_index (f : WalletIndex -> WalletIndex) (w : RelayerState) : RelayerState :=
  {| rs_local_peer_id := rs_local_peer_id w; rs_local_cluster_id := rs_local_cluster_id w;
    rs_wallet_index := f (rs_wallet_index w); rs_peer_index := rs_peer_index w; rs_order_book :=
    rs_order_book w; rs_matched_order_pairs := rs_matched_order_pairs w; rs_handshake_priorities
    := rs_handshake_priorities w |}.

Definition on_peer_index (f : PeerIndex -> PeerIndex) (w : RelayerState) : RelayerState :=
  {| rs_local_peer_id := rs_local_peer_id w; rs_local_cluster_id := rs_local_cluster_id w;
    rs_wallet_index := rs_wallet_index w; rs_peer_index := f (rs_peer_index w); rs_order_book :=
    rs_order_book w; rs_matched_order_pairs := rs_matched_order_pairs w; rs_handshake_priorities
    := rs_handshake_priorities w |}.

Definition on_order_book (f : NetworkOrderBook -> NetworkOrderBook) (w : RelayerState) :
    RelayerState :=
  {| rs_local_peer_id := rs_local_peer_id w; rs_local_cluster_id := rs_local_cluster_id w;
    rs_wallet_index := rs_wallet_index w; rs_peer_index := rs_peer_index w; rs_order_book := f
    (rs_order_book w); rs_matched_order_pairs := rs_matched_order_pairs w; rs_handshake_priorities
    := rs_handshake_priorities w |}.

Definition on_matched_order_pairs (f : list (OrderIdentifier * OrderIdentifier) -> list
    (OrderIdentifier * OrderIdentifier)) (w : RelayerState) : RelayerState :=
  {| rs_local_peer_id := rs_local_peer_id w; rs_local_cluster_id := rs_local_cluster_id w;
    rs_wallet_index := rs_wallet_index w; rs_peer_index := rs_peer_index w; rs_order_book :=
    rs_order_book w; rs_matched_order_pairs := f (rs_matched_order_pairs w);
    rs_handshake_priorities := rs_handshake_priorities w |}.

Definition on_handshake_priorities (f : HandshakePriorityStore -> HandshakePriorityStore) (w :
    RelayerState) : RelayerState :=
  {| rs_local_peer_id := rs_local_peer_id w; rs_local_cluster_id := rs_local_cluster_id w;
    rs_wallet_index := rs_wallet_index w; rs_peer_index := rs_peer_index w; rs_order_book :=
    rs_order_book w; rs_matched_order_pairs := rs_matched_order_pairs w; rs_handshake_priorities
    := f (rs_handshake_priorities w) |}.

Context {LC : LruCache (OrderIdentifier * OrderIdentifier) HandshakeCacheState}.
Context {LE : LruCache PeerId Z}.

Record World := {
  wd_unix_seconds : Z;
  wd_instant : Z;
  wd_state : RelayerState;
  wd_cache : HandshakeCache OrderIdentifier;
  wd_state_map : gmap Uuid HandshakeState;
  wd_nullifier_map : gmap Nullifier (gset Uuid);
  wd_cancels : gmap nat cancel_channel;
  wd_expiry : lru (K := PeerId) (V := Z);
  wd_network : channel GossipOutbound;
  wd_jobs : channel HandshakeExecutionJob;
  wd_proofs : channel ProofManagerJob;
  wd_bus : list (string * SystemBusMessage);
  wd_gossip : channel GossipServerJob;
  wd_merkle_block : Z;
  wd_page_token : Z;
}.

Definition on_state (f : RelayerState -> RelayerState) (w : World) : World :=
  {| wd_unix_seconds := wd_unix_seconds w; wd_instant := wd_instant w; wd_state := f (wd_state w);
    wd_cache := wd_cache w; wd_state_map := wd_state_map w; wd_nullifier_map := wd_nullifier_map
    w; wd_cancels := wd_cancels w; wd_expiry := wd_expiry w; wd_network := wd_network w; wd_jobs
    := wd_jobs w; wd_proofs := wd_proofs w; wd_bus := wd_bus w;
    wd_gossip := wd_gossip w; wd_merkle_block := wd_merkle_block w; wd_page_token := wd_page_token w |}.

Definition on_cache (f : HandshakeCache OrderIdentifier -> HandshakeCache OrderIdentifier) (w :
    World) : World :=
  {| wd_unix_seconds := wd_unix_seconds w; wd_instant := wd_instant w; wd_state := wd_state w;
    wd_cache := f (wd_cache w); wd_state_map := wd_state_map w; wd_nullifier_map :=
    wd_nullifier_map w; wd_cancels := wd_cancels w; wd_expiry := wd_expiry w; wd_network :=
    wd_network w; wd_jobs := wd_jobs w; wd_proofs := wd_proofs w; wd_bus := wd_bus w;
    wd_gossip := wd_gossip w; wd_merkle_block := wd_merkle_block w; wd_page_token := wd_page_token w |}.

Definition on_state_map (f : gmap Uuid HandshakeState -> gmap Uuid HandshakeState) (w : World) :
    World :=
  {| wd_unix_seconds := wd_unix_seconds w; wd_instant := wd_instant w; wd_state := wd_state w;
    wd_cache := wd_cache w; wd_state_map := f (wd_state_map w); wd_nullifier_map :=
    wd_nullifier_map w; wd_cancels := wd_cancels w; wd_expiry := wd_expiry w; wd_network :=
    wd_network w; wd_jobs := wd_jobs w; wd_proofs := wd_proofs w; wd_bus := wd_bus w;
    wd_gossip := wd_gossip w; wd_merkle_block := wd_merkle_block w; wd_page_token := wd_page_token w |}.

Definition on_nullifier_map (f : gmap Nullifier (gset Uuid) -> gmap Nullifier (gset Uuid)) (w :
    World) : World :=
  {| wd_unix_seconds := wd_unix_seconds w; wd_instant := wd_instant w; wd_state := wd_state w;
    wd_cache := wd_cache w; wd_state_map := wd_state_map w; wd_nullifier_map := f
    (wd_nullifier_map w); wd_cancels := wd_cancels w; wd_expiry := wd_expiry w; wd_network :=
    wd_network w; wd_jobs := wd_jobs w; wd_proofs := wd_proofs w; wd_bus := wd_bus w;
    wd_gossip := wd_gossip w; wd_merkle_block := wd_merkle_block w; wd_page_token := wd_page_token w |}.

Definition on_cancels (f : gmap nat cancel_channel -> gmap nat cancel_channel) (w : World) : World
    :=
  {| wd_unix_seconds := wd_unix_seconds w; wd_instant := wd_instant w; wd_state := wd_state w;
    wd_cache := wd_cache w; wd_state_map := wd_state_map w; wd_nullifier_map := wd_nullifier_map
    w; wd_cancels := f (wd_cancels w); wd_expiry := wd_expiry w; wd_network := wd_network w;
    wd_jobs := wd_jobs w; wd_proofs := wd_proofs w; wd_bus := wd_bus w;
    wd_gossip := wd_gossip w; wd_merkle_block := wd_merkle_block w; wd_page_token := wd_page_token w |}.

Definition on_expiry (f : lru (K := PeerId) (V := Z) -> lru (K := PeerId) (V := Z)) (w : World) :
    World :=
  {| wd_unix_seconds := wd_unix_seconds w; wd_instant := wd_instant w; wd_state := wd_state w;
    wd_cache := wd_cache w; wd_state_map := wd_state_map w; wd_nullifier_map := wd_nullifier_map
    w; wd_cancels := wd_cancels w; wd_expiry := f (wd_expiry w); wd_network := wd_network w;
    wd_jobs := wd_jobs w; wd_proofs := wd_proofs w; wd_bus := wd_bus w;
    wd_gossip := wd_gossip w; wd_merkle_block := wd_merkle_block w; wd_page_token := wd_page_token w |}.

Definition on_network (f : channel GossipOutbound -> channel GossipOutbound) (w : World) : World :=
  {| wd_unix_seconds := wd_unix_seconds w; wd_instant := wd_instant w; wd_state := wd_state w;
    wd_cache := wd_cache w; wd_state_map := wd_state_map w; wd_nullifier_map := wd_nullifier_map
    w; wd_cancels := wd_cancels w; wd_expiry := wd_expiry w; wd_network := f (wd_network w);
    wd_jobs := wd_jobs w; wd_proofs := wd_proofs w; wd_bus := wd_bus w;
    wd_gossip := wd_gossip w; wd_merkle_block := wd_merkle_block w; wd_page_token := wd_page_token w |}.

Definition on_jobs (f : channel HandshakeExecutionJob -> channel HandshakeExecutionJob) (w :
    World) : World :=
  {| wd_unix_seconds := wd_unix_seconds w; wd_instant := wd_instant w; wd_state := wd_state w;
    wd_cache := wd_cache w; wd_state_map := wd_state_map w; wd_nullifier_map := wd_nullifier_map
    w; wd_cancels := wd_cancels w; wd_expiry := wd_expiry w; wd_network := wd_network w; wd_jobs
    := f (wd_jobs w); wd_proofs := wd_proofs w; wd_bus := wd_bus w;
    wd_gossip := wd_gossip w; wd_merkle_block := wd_merkle_block w; wd_page_token := wd_page_token w |}.

Definition on_proofs (f : channel ProofManagerJob -> channel ProofManagerJob) (w : World) : World :=
  {| wd_unix_seconds := wd_unix_seconds w; wd_instant := wd_instant w; wd_state := wd_state w;
    wd_cache := wd_cache w; wd_state_map := wd_state_map w; wd_nullifier_map := wd_nullifier_map
    w; wd_cancels := wd_cancels w; wd_expiry := wd_expiry w; wd_network := wd_network w; wd_jobs
    := wd_jobs w; wd_proofs := f (wd_proofs w); wd_bus := wd_bus w;
    wd_gossip := wd_gossip w; wd_merkle_block := wd_merkle_block w; wd_page_token := wd_page_token w |}.

Definition on_bus (f : list (string * SystemBusMessage) -> list (string * SystemBusMessage)) (w :
    World) : World :=
  {| wd_unix_seconds := wd_unix_seconds w; wd_instant := wd_instant w; wd_state := wd_state w;
    wd_cache := wd_cache w; wd_state_map := wd_state_map w; wd_nullifier_map := wd_nullifier_map
    w; wd_cancels := wd_cancels w; wd_expiry := wd_expiry w; wd_network := wd_network w; wd_jobs
    := wd_jobs w; wd_proofs := wd_proofs w; wd_bus := f (wd_bus w);
    wd_gossip := wd_gossip w; wd_merkle_block := wd_merkle_block w; wd_page_token := wd_page_token w |}.

Definition on_gossip (f : channel GossipServerJob -> channel GossipServerJob) (w : World) : World :=
  {| wd_unix_seconds := wd_unix_seconds w; wd_instant := wd_instant w; wd_state := wd_state w;
    wd_cache := wd_cache w; wd_state_map := wd_state_map w; wd_nullifier_map := wd_nullifier_map
    w; wd_cancels := wd_cancels w; wd_expiry := wd_expiry w; wd_network := wd_network w; wd_jobs
    := wd_jobs w; wd_proofs := wd_proofs w; wd_bus := wd_bus w;
    wd_gossip := f (wd_gossip w); wd_merkle_block := wd_merkle_block w; wd_page_token := wd_page_token w |}.

(** The atomic counters of the chain listener *)
Definition on_merkle_block (f : Z -> Z) (w : World) : World :=
  {| wd_unix_seconds := wd_unix_seconds w; wd_instant := wd_instant w; wd_state := wd_state w;
    wd_cache := wd_cache w; wd_state_map := wd_state_map w; wd_nullifier_map := wd_nullifier_map
    w; wd_cancels := wd_cancels w; wd_expiry := wd_expiry w; wd_network := wd_network w; wd_jobs
    := wd_jobs w; wd_proofs := wd_proofs w; wd_bus := wd_bus w; wd_gossip := wd_gossip w;
    wd_merkle_block := f (wd_merkle_block w); wd_page_token := wd_page_token w |}.

Definition on_page_token (f : Z -> Z) (w : World) : World :=
  {| wd_unix_seconds := wd_unix_seconds w; wd_instant := wd_instant w; wd_state := wd_state w;
    wd_cache := wd_cache w; wd_state_map := wd_state_map w; wd_nullifier_map := wd_nullifier_map
    w; wd_cancels := wd_cancels w; wd_expiry := wd_expiry w; wd_network := wd_network w; wd_jobs
    := wd_jobs w; wd_proofs := wd_proofs w; wd_bus := wd_bus w; wd_gossip := wd_gossip w;
    wd_merkle_block := wd_merkle_block w; wd_page_token := f (wd_page_token w) |}.

(** The clock is set by the environment. *)
Definition at_time (now : Z) (w : World) : World :=
  {| wd_unix_seconds := now; wd_instant := wd_instant w; wd_state := wd_state w;
    wd_cache := wd_cache w; wd_state_map := wd_state_map w; wd_nullifier_map := wd_nullifier_map
    w; wd_cancels := wd_cancels w; wd_expiry := wd_expiry w; wd_network := wd_network w; wd_jobs
    := wd_jobs w; wd_proofs := wd_proofs w; wd_bus := wd_bus w; wd_gossip := wd_gossip w; wd_merkle_block := wd_merkle_block w; wd_page_token := wd_page_token w |}.

(** ** Accesses *)

Definition wd_order_book (w : World) : NetworkOrderBook := rs_order_book (wd_state w).
Definition wd_peer_index (w : World) : PeerIndex := rs_peer_index (wd_state w).
Definition wd_wallet_index (w : World) : WalletIndex := rs_wallet_index (wd_state w).
Definition wd_priorities (w : World) : HandshakePriorityStore := rs_handshake_priorities (wd_state w).
Definition wd_local_cluster (w : World) : ClusterId := rs_local_cluster_id (wd_state w).
Definition wd_local_peer (w : World) : PeerId := rs_local_peer_id (wd_state w).

Definition action (E A : Type) : Type := task lock World E A.

(** [channel.send(message)], with the error that the caller maps it to *)
Definition send_network {E} (e : E) (message : GossipOutbound) : action E unit :=
  act_out (fun w =>
    if ch_open (wd_network w)
    then (Ret tt, on_network (fun c => Channel true (ch_sent c ++ [message])) w)
    else (Fail e, w)).

Definition send_job {E} (e : E) (job : HandshakeExecutionJob) : action E unit :=
  act_out (fun w =>
    if ch_open (wd_jobs w)
    then (Ret tt, on_jobs (fun c => Channel true (ch_sent c ++ [job])) w)
    else (Fail e, w)).

Definition send_proof_job {E} (e : E) (job : ProofManagerJob) : action E unit :=
  act_out (fun w =>
    if ch_open (wd_proofs w)
    then (Ret tt, on_proofs (fun c => Channel true (ch_sent c ++ [job])) w)
    else (Fail e, w)).

Definition send_gossip_job {E} (e : E) (job : GossipServerJob) : action E unit :=
  act_out (fun w =>
    if ch_open (wd_gossip w)
    then (Ret tt, on_gossip (fun c => Channel true (ch_sent c ++ [job])) w)
    else (Fail e, w)).

Definition publish {E} (topic : string) (message : SystemBusMessage) : action E unit :=
  modify (on_bus (fun l => l ++ [(topic, message)])).
End world.

(** * A concrete relayer, for examples *)

#[local] Existing Instance sample_foreign.

Definition sample_lc : LruCache (OrderIdentifier * OrderIdentifier) HandshakeCacheState :=
  list_lru (OrderIdentifier * OrderIdentifier) HandshakeCacheState.
Definition sample_le : LruCache PeerId Z := list_lru PeerId Z.

#[local] Existing Instance sample_lc.
#[local] Existing Instance sample_le.

Definition sample_state : RelayerState := {|
  rs_local_peer_id := peer 3; rs_local_cluster_id := "local"; rs_wallet_index := wallets_new (peer 3);
  rs_peer_index := peers_new; rs_order_book := book_new; rs_matched_order_pairs := [];
  rs_handshake_priorities := priorities_new |}.

Definition sample_world : World := {|
  wd_unix_seconds := 100; wd_instant := 50; wd_state := sample_state;
  wd_cache := {| hc_size := 0; hc_max_size := 500; hc_lru_cache := lru_new 500 |};
  wd_state_map := ∅; wd_nullifier_map := ∅; wd_cancels := ∅; wd_expiry := lru_new 100;
  wd_network := Channel true []; wd_jobs := Channel true []; wd_proofs := Channel true []; wd_bus := [];
  wd_gossip := Channel true []; wd_merkle_block := 0; wd_page_token := 0 |}.
