(* ===== verification/RelayerState.v ===== *)
(** The operations of the relayer's global state: core/src/state/state.rs.  Each takes the
    locks it needs, in the scopes it holds them. *)

From Stdlib Require Import Zmod.
From stdpp Require Import gmap strings.
From S2P Require Import Prelude Async LockOrder Primality Field Merkle RelayerTypes OrderBook PeerIndex.
From S2P Require Import WalletIndex Messages Lru HandshakeCache World.

#[global] Set Default Goal Selector "!".
#[local] Open Scope task_scope.

Section relayer.
  Context `{F : Foreign} `{HO : HashOrder}.
  Context {LC : LruCache (OrderIdentifier * OrderIdentifier) HandshakeCacheState}.
  Context {LE : LruCache PeerId Z}.

(** The random choices of the [rand] library, the hash of arkworks with the conversion
    that feeds it, and the check of the signature on a peer's information. *)
Class Oracles := {
  gen_range : nat -> nat;
  sample_weighted : list Z -> option nat;
  ark_hash : list Scalar -> Scalar;
  scalar_to_u64 : Scalar -> Z;
  verify_cluster_auth_sig : PeerInfo -> bool;
}.

(** [gen_range(0..n)] is below [n]; a weighted index exists when the weights are not all
    zero and their sum fits, and it selects a weight that is not zero. *)
Class OracleLaws (O : Oracles) : Prop := {
  gen_range_lt n : 0 < n -> gen_range n < n;
  sample_weighted_Some ws :
    Forall (fun w => 0 <= w)%Z ws -> (0 < foldr Z.add 0 ws < 2 ^ 32)%Z ->
    exists i w, sample_weighted ws = Some i /\ ws !! i = Some w /\ (0 < w)%Z;
}.

Context {O : Oracles}.
Context {E : Type}.

(** [initialize_global_state], with the key pair that is generated for the local peer *)
Definition initialize_global_state (wallets : list ManagedWallet) (cluster_id : ClusterId)
    (local_peer_id : PeerId) : RelayerState :=
  let wallet_index := foldl (fun idx wallet => add_wallet wallet idx) (wallets_new local_peer_id) wallets in
  {| rs_local_peer_id := local_peer_id; rs_local_cluster_id := cluster_id;
     rs_wallet_index := wallet_index; rs_peer_index := peers_new; rs_order_book := book_new;
     rs_matched_order_pairs := []; rs_handshake_priorities := priorities_new |}.

(** ** Accesses under a lock *)

Definition read_order_book {A} (f : NetworkOrderBook -> A) : action E A :=
  holding Read OrderBookLock (gets (fun w => f (wd_order_book w))).
Definition write_order_book (f : NetworkOrderBook -> NetworkOrderBook) : action E unit :=
  holding Write OrderBookLock (modify (on_state (on_order_book f))).
Definition read_peer_index {A} (f : PeerIndex -> A) : action E A :=
  holding Read PeerIndexLock (gets (fun w => f (wd_peer_index w))).
Definition read_wallet_index {A} (f : WalletIndex -> A) : action E A :=
  holding Read WalletIndexLock (gets (fun w => f (wd_wallet_index w))).
Definition update_wallet_index (f : WalletIndex -> WalletIndex) : action E unit :=
  holding Read WalletIndexLock (modify (on_state (on_wallet_index f))).
Definition local_cluster_id : action E ClusterId := gets wd_local_cluster.
Definition local_peer_id : action E PeerId := gets wd_local_peer.

(** ** Getters *)

(** [local_peer_info] *)
Definition local_peer_info : action E PeerInfo :=
  let* peer := local_peer_id in
  let* info := read_peer_index (fun idx => get_peer_info idx peer) in
  match info with Some i => tret i | None => tpanic end.

Fixpoint collect_priorities (store : HandshakePriorityStore) (orders : list OrderIdentifier)
    : outcome unit (list Z) :=
  match orders with
  | [] => Ret []
  | order_id :: orders' =>
      (try! p := get_effective_priority (get_order_priority store order_id) in
       try! ps := collect_priorities store orders' in
       Ret (p :: ps))%outcome
  end.

(** [choose_handshake_order] *)
Definition choose_handshake_order : action E (option OrderIdentifier) :=
  let* verified_orders := read_order_book get_nonlocal_verified_orders in
  match verified_orders with
  | [] => tret None
  | _ =>
      let* priorities :=
        holding Read PrioritiesLock (gets (fun w => collect_priorities (wd_priorities w) verified_orders)) in
      match priorities with
      | Ret ps =>
          match sample_weighted ps with
          | None => tpanic
          | Some i =>
              match verified_orders !! i with
              | Some order => tret (Some order)
              | None => tpanic
              end
          end
      | _ => tpanic
      end
  end.

(** [get_peer_managing_order] *)
Definition get_peer_managing_order (order_id : OrderIdentifier) : action E (option PeerId) :=
  let* info := read_order_book (fun b => get_order_info b order_id) in
  match info with
  | None => tret None
  | Some order => read_peer_index (fun idx => sample_cluster_peer gen_range idx (no_cluster order))
  end.

(** ** Peers *)

(** [add_peers] at the time of the clock; the information is given under the identifier
    of the peer it is said to belong to. *)
Definition add_listed_peers (now : Z) (peer_ids : list PeerId) (infos : gmap PeerId PeerInfo)
    (idx : PeerIndex) : PeerIndex :=
  foldl (fun idx peer =>
    match infos !! peer with
    | Some info => if verify_cluster_auth_sig info then add_peer (successful_heartbeat now info) idx else idx
    | None => idx
    end) idx peer_ids.

Definition add_peers (peer_ids : list PeerId) (infos : gmap PeerId PeerInfo) : action E unit :=
  holding Write PeerIndexLock
    (modify (fun w => on_state (on_peer_index (add_listed_peers (wd_unix_seconds w) peer_ids infos)) w)).

(** [add_single_peer] *)
Definition add_single_peer (peer_id : PeerId) (peer_info : PeerInfo) : action E unit :=
  add_peers [peer_id] {[peer_id := peer_info]}.

(** [remove_peer] *)
Definition remove_peer_from_state (peer : PeerId) : action E unit :=
  holding Write PeerIndexLock (act_out (fun w =>
    match remove_peer peer (wd_peer_index w) with
    | Ret (_, idx) => (Ret tt, on_state (on_peer_index (fun _ => idx)) w)
    | _ => (Panic, on_state (on_peer_index (fun idx =>
              {| peer_map := delete peer (peer_map idx); cluster_peers := cluster_peers idx |})) w)
    end)) ;;*
  update_wallet_index (remove_peer_replicas peer).

(** ** Orders *)

(** [add_order] *)
Definition add_order_to_state (order : NetworkOrder) : action E unit :=
  holding Write PrioritiesLock
    (modify (on_state (on_handshake_priorities (new_order (no_id order) (no_cluster order))))) ;;*
  write_order_book (add_order order).

(** [add_order_validity_proof] *)
Definition add_order_validity_proof (order_id : OrderIdentifier) (proof : ValidCommitmentsBundle)
    : action E unit :=
  write_order_book (update_order_validity_proof order_id proof).

(** [nullify_orders] *)
Definition nullify (nullifier : Nullifier) (b : NetworkOrderBook) : NetworkOrderBook :=
  cancel_all (get_orders_by_nullifier b nullifier) b.

Definition nullify_orders (nullifier : Nullifier) : action E unit :=
  write_order_book (nullify nullifier).

(** ** Wallets *)

(** [add_wallets]: both indices are locked until all wallets are added. *)
Definition wallet_order_entries (cluster : ClusterId) (wallet : ManagedWallet) (b : NetworkOrderBook)
    : NetworkOrderBook :=
  let nullifier := get_wallet_match_nullifier ark_hash scalar_to_u64 wallet in
  foldl (fun b order_id => add_order (order_new order_id nullifier cluster true) b) b
    (fst <$> visit (w_orders wallet)).

Definition add_wallets (wallets : list ManagedWallet) : action E unit :=
  holding Write WalletIndexLock (holding Write OrderBookLock
    (tfor wallets (fun wallet =>
       modify (fun w => on_state (fun st =>
         on_order_book (wallet_order_entries (rs_local_cluster_id st) wallet)
           (on_wallet_index (add_wallet wallet) st)) w)))).

(** [mark_order_pair_matched] *)
Definition mark_order_pair_matched (o1 o2 : OrderIdentifier) : action E unit :=
  holding Write PrioritiesLock
    (modify (on_state (on_handshake_priorities (fun st => remove_order o2 (remove_order o1 st)))) ;;*
     holding Write MatchedPairsLock (modify (on_state (on_matched_order_pairs (fun l => l ++ [(o1, o2)]))))).

(** [construct_heartbeat]; peers are keyed by the text of their identifiers. *)
Definition construct_heartbeat (peer_to_string : PeerId -> string) : action E HeartbeatMessage :=
  let* wallet_info := read_wallet_index get_metadata_map in
  let* peer_info := read_peer_index (fun idx =>
    list_to_map ((fun p => (peer_to_string p.1, p.2)) <$> visit (get_info_map idx))) in
  let* order_info := read_order_book get_order_owner_pairs in
  tret {| hb_managed_wallets := wallet_info; hb_known_peers := peer_info; hb_orders := order_info |}.

(** * The invariant of the global state *)

Record relayer_ok (w : World) : Prop := {
  rok_book : book_ok (wd_order_book w);
  rok_indexed : book_indexed (wd_order_book w);
  rok_peers : peers_ok (wd_peer_index w);
  rok_priorities : priorities_default (wd_priorities w);
}.

Lemma relayer_ok_same w w' : wd_state w' = wd_state w -> relayer_ok w -> relayer_ok w'.
Proof.
  intros Hs [H1 H2 H3 H4]. unfold wd_order_book, wd_peer_index, wd_priorities in *.
  split; unfold wd_order_book, wd_peer_index, wd_priorities; by rewrite Hs.
Qed.

Lemma relayer_ok_book f w :
  (forall b, book_ok b -> book_indexed b -> book_ok (f b) /\ book_indexed (f b)) ->
  relayer_ok w -> relayer_ok (on_state (on_order_book f) w).
Proof. intros Hf [H1 H2 H3 H4]. destruct (Hf _ H1 H2). by split. Qed.

Lemma relayer_ok_peers f w :
  (forall idx, peers_ok idx -> peers_ok (f idx)) ->
  relayer_ok w -> relayer_ok (on_state (on_peer_index f) w).
Proof. intros Hf [H1 H2 H3 H4]. split; cbn; auto. Qed.

Lemma relayer_ok_wallets f w : relayer_ok w -> relayer_ok (on_state (on_wallet_index f) w).
Proof. by intros [H1 H2 H3 H4]. Qed.

Lemma book_add_order o b : book_ok b -> book_indexed b -> book_ok (add_order o b) /\ book_indexed (add_order o b).
Proof. intros. split; [by eapply book_step_ok, H; apply step_add_order|by apply add_order_indexed]. Qed.

Lemma book_update_proof i p b :
  book_ok b -> book_indexed b ->
  book_ok (update_order_validity_proof i p b) /\ book_indexed (update_order_validity_proof i p b).
Proof. intros. split; [by eapply book_step_ok, H; apply step_update_proof|by apply update_proof_indexed]. Qed.

Lemma book_attach_witness i x b :
  book_ok b -> book_indexed b ->
  book_ok (attach_validity_proof_witness i x b) /\ book_indexed (attach_validity_proof_witness i x b).
Proof. intros. split; [by eapply book_step_ok, H; apply step_attach_witness|by apply attach_witness_indexed]. Qed.

Lemma book_nullify n b : book_ok b -> book_indexed b -> book_ok (nullify n b) /\ book_indexed (nullify n b).
Proof.
  intros H1 H2. unfold nullify. split.
  - apply (cancel_all_inv book_ok); [|done]. intros i b' Hb. by eapply book_step_ok, Hb; apply step_cancelled.
  - apply (cancel_all_inv book_indexed); [|done]. intros i b' Hb. by apply cancelled_indexed.
Qed.

Lemma peers_add_listed now ids infos idx : peers_ok idx -> peers_ok (add_listed_peers now ids infos idx).
Proof.
  unfold add_listed_peers. revert idx. induction ids as [|p ids IH]; intros idx H; [done|]. cbn. apply IH.
  destruct (infos !! p); [|done]. destruct (verify_cluster_auth_sig _); [|done].
  by eapply peers_step_ok, H; apply step_add_peer.
Qed.

Lemma book_wallet_entries cluster wallet b :
  book_ok b -> book_indexed b ->
  book_ok (wallet_order_entries cluster wallet b) /\ book_indexed (wallet_order_entries cluster wallet b).
Proof.
  unfold wallet_order_entries. generalize (fst <$> visit (w_orders wallet)) as l. intros l. revert b.
  induction l as [|i l IH]; intros b H1 H2; [done|]. cbn.
  destruct (book_add_order (order_new i (get_wallet_match_nullifier ark_hash scalar_to_u64 wallet) cluster true) b H1 H2).
  by apply IH.
Qed.

(** ** Every operation respects the invariant at each of its accesses *)

Lemma respects_read_order_book {A} I (f : NetworkOrderBook -> A) : respects I (read_order_book f).
Proof. unfold read_order_book. respects_split. Qed.
Lemma respects_read_peer_index {A} I (f : PeerIndex -> A) : respects I (read_peer_index f).
Proof. unfold read_peer_index. respects_split. Qed.
Lemma respects_read_wallet_index {A} I (f : WalletIndex -> A) : respects I (read_wallet_index f).
Proof. unfold read_wallet_index. respects_split. Qed.
#[local] Hint Resolve respects_read_order_book respects_read_peer_index respects_read_wallet_index : respects.

Lemma choose_handshake_order_respects I : respects I (choose_handshake_order).
Proof. unfold choose_handshake_order. respects_split. Qed.

Lemma get_peer_managing_order_respects I i : respects I (get_peer_managing_order i).
Proof. unfold get_peer_managing_order. respects_split. Qed.

Lemma construct_heartbeat_respects I f : respects I (construct_heartbeat f).
Proof. unfold construct_heartbeat. respects_split. Qed.

Lemma add_peers_respects ids infos : respects relayer_ok (add_peers ids infos).
Proof.
  unfold add_peers. respects_split. apply relayer_ok_peers; [|done]. intros. by apply peers_add_listed.
Qed.

Lemma update_wallet_index_respects f : respects relayer_ok (update_wallet_index f).
Proof. unfold update_wallet_index. respects_split. by apply relayer_ok_wallets. Qed.

Lemma write_order_book_respects f :
  (forall b, book_ok b -> book_indexed b -> book_ok (f b) /\ book_indexed (f b)) ->
  respects relayer_ok (write_order_book f).
Proof. intros Hf. unfold write_order_book. respects_split. by apply relayer_ok_book. Qed.

Lemma remove_peer_from_state_respects p : respects relayer_ok (remove_peer_from_state p).
Proof.
  unfold remove_peer_from_state. apply respects_bind; [|intros; apply update_wallet_index_respects].
  apply respects_holding, respects_act_out. intros s H.
  destruct (remove_peer p (wd_peer_index s)) as [[r idx]|e|] eqn:Hr.
  - apply relayer_ok_peers; [|done]. intros _ _. by eapply peers_step_ok, H; eapply step_remove_peer.
  - cbn. apply relayer_ok_peers; [|done]. intros idx [H1 H2].
    split; intros q i; cbn; intros [_ Hq]%lookup_delete_Some; eauto.
  - cbn. apply relayer_ok_peers; [|done]. intros idx [H1 H2].
    split; intros q i; cbn; intros [_ Hq]%lookup_delete_Some; eauto.
Qed.

Lemma add_order_to_state_respects o : respects relayer_ok (add_order_to_state o).
Proof.
  unfold add_order_to_state. respects_split.
  - destruct H as [H1 H2 H3 H4]. split; cbn; try done. by apply new_order_default.
  - apply relayer_ok_book; [|done]. intros. by apply book_add_order.
Qed.

Lemma add_order_validity_proof_respects i p : respects relayer_ok (add_order_validity_proof i p).
Proof. apply write_order_book_respects. intros. by apply book_update_proof. Qed.

Lemma nullify_orders_respects n : respects relayer_ok (nullify_orders n).
Proof. apply write_order_book_respects. intros. by apply book_nullify. Qed.

Lemma add_wallets_respects ws : respects relayer_ok (add_wallets ws).
Proof.
  unfold add_wallets. respects_split. destruct H as [H1 H2 H3 H4].
  destruct (book_wallet_entries (rs_local_cluster_id (wd_state s)) x (wd_order_book s) H1 H2). by split.
Qed.

Lemma mark_order_pair_matched_respects o1 o2 : respects relayer_ok (mark_order_pair_matched o1 o2).
Proof.
  unfold mark_order_pair_matched. respects_split.
  - destruct H as [H1 H2 H3 H4]. split; cbn; try done. by do 2 apply remove_order_default.
  - destruct H as [H1 H2 H3 H4]. by split.
Qed.
End relayer.

#[export] Hint Resolve respects_read_order_book respects_read_peer_index respects_read_wallet_index
  choose_handshake_order_respects get_peer_managing_order_respects construct_heartbeat_respects
  add_peers_respects update_wallet_index_respects remove_peer_from_state_respects
  add_order_to_state_respects add_order_validity_proof_respects nullify_orders_respects
  add_wallets_respects mark_order_pair_matched_respects : respects.

(** * Every operation takes its locks in order *)

Section locks.
  Context `{F : Foreign} `{HO : HashOrder}.
  Context {LC : LruCache (OrderIdentifier * OrderIdentifier) HandshakeCacheState}.
  Context {LE : LruCache PeerId Z}.
  Context {O : Oracles} {E : Type}.

#[local] Notation in_order := (ordered rank [] []).

Lemma read_order_book_ordered {A} (f : NetworkOrderBook -> A) : in_order (read_order_book (E := E) f).
Proof. unfold read_order_book. ordered_split. Qed.
Lemma write_order_book_ordered f : in_order (write_order_book (E := E) f).
Proof. unfold write_order_book. ordered_split. Qed.
Lemma read_peer_index_ordered {A} (f : PeerIndex -> A) : in_order (read_peer_index (E := E) f).
Proof. unfold read_peer_index. ordered_split. Qed.
Lemma read_wallet_index_ordered {A} (f : WalletIndex -> A) : in_order (read_wallet_index (E := E) f).
Proof. unfold read_wallet_index. ordered_split. Qed.
Lemma update_wallet_index_ordered f : in_order (update_wallet_index (E := E) f).
Proof. unfold update_wallet_index. ordered_split. Qed.
#[local] Hint Resolve read_order_book_ordered write_order_book_ordered read_peer_index_ordered
  read_wallet_index_ordered update_wallet_index_ordered : ordered.

Lemma choose_handshake_order_ordered : in_order (choose_handshake_order (E := E)).
Proof. unfold choose_handshake_order. ordered_split. Qed.
Lemma get_peer_managing_order_ordered i : in_order (get_peer_managing_order (E := E) i).
Proof. unfold get_peer_managing_order. ordered_split. Qed.
Lemma construct_heartbeat_ordered f : in_order (construct_heartbeat (E := E) f).
Proof. unfold construct_heartbeat. ordered_split. Qed.
Lemma add_peers_ordered ids infos : in_order (add_peers (E := E) ids infos).
Proof. unfold add_peers. ordered_split. Qed.
Lemma remove_peer_from_state_ordered p : in_order (remove_peer_from_state (E := E) p).
Proof. unfold remove_peer_from_state. ordered_split. Qed.
Lemma add_order_to_state_ordered o : in_order (add_order_to_state (E := E) o).
Proof. unfold add_order_to_state. ordered_split. Qed.
Lemma add_order_validity_proof_ordered i p : in_order (add_order_validity_proof (E := E) i p).
Proof. unfold add_order_validity_proof. ordered_split. Qed.
Lemma nullify_orders_ordered n : in_order (nullify_orders (E := E) n).
Proof. unfold nullify_orders. ordered_split. Qed.
Lemma add_wallets_ordered ws : in_order (add_wallets (E := E) ws).
Proof. unfold add_wallets. ordered_split. Qed.
Lemma mark_order_pair_matched_ordered o1 o2 : in_order (mark_order_pair_matched (E := E) o1 o2).
Proof. unfold mark_order_pair_matched. ordered_split. Qed.
End locks.

#[export] Hint Resolve read_order_book_ordered write_order_book_ordered read_peer_index_ordered
  read_wallet_index_ordered update_wallet_index_ordered choose_handshake_order_ordered
  get_peer_managing_order_ordered construct_heartbeat_ordered add_peers_ordered
  remove_peer_from_state_ordered add_order_to_state_ordered add_order_validity_proof_ordered
  nullify_orders_ordered add_wallets_ordered mark_order_pair_matched_ordered : ordered.

(** * Properties *)

Section properties.
  Context `{F : Foreign} `{HO : HashOrder}.
  Context {LC : LruCache (OrderIdentifier * OrderIdentifier) HandshakeCacheState}.
  Context {LE : LruCache PeerId Z}.
  Context {O : Oracles} {E : Type}.

Lemma elem_of_by_nullifier b n i : i ∈ get_orders_by_nullifier b n <-> indexed_under b n i.
Proof.
  unfold get_orders_by_nullifier, indexed_under. destruct (orders_by_nullifier b !! n) as [X|].
  - rewrite elem_of_visit_set. split; [eauto|]. by intros (Y & [= <-] & ?).
  - split; [intros H; by apply not_elem_of_nil in H|]. by intros (Y & [=] & ?).
Qed.

Lemma nullify_order b n i :
  get_order_info (nullify n b) i =
  (if decide (i ∈ get_orders_by_nullifier b n)
   then order_transition_cancelled <$> get_order_info b i else get_order_info b i).
Proof. apply cancel_all_order. Qed.


Lemma update_proof_order b i o p :
  get_order_info b i = Some o ->
  get_order_info (update_order_validity_proof i p b) i = Some (attach_commitment_proof o p).
Proof.
  unfold update_order_validity_proof, get_order_info. intros Ho. rewrite add_verified_order_eq.
  cbn -[lookup insert]. rewrite Ho. cbn -[lookup insert]. apply lookup_insert_eq.
Qed.

(** An order that has been proved again under the nullifier of the new wallet is still
    indexed under the old one: when the old nullifier is reported as spent, the order is
    cancelled and its new proof dropped, though its own nullifier is not spent. *)
Theorem reproved_order_cancelled w i o p1 p2 :
  get_order_info (wd_order_book w) i = Some o ->
  st_nullifier (vc_statement p1) <> st_nullifier (vc_statement p2) ->
  exists w', exec (add_order_validity_proof (E := E) i p1 ;;* add_order_validity_proof i p2 ;;*
                   nullify_orders (st_nullifier (vc_statement p1))) w = (Ret tt, w') /\
    exists o', get_order_info (wd_order_book w') i = Some o' /\ no_state o' = Cancelled /\
      no_valid_commit_proof o' = None /\ no_match_nullifier o' = st_nullifier (vc_statement p2).
Proof.
  intros Ho Hne. eexists. split; [reflexivity|].
  match goal with |- context [wd_order_book ?w'] =>
    change (wd_order_book w') with (nullify (st_nullifier (vc_statement p1))
      (update_order_validity_proof i p2 (update_order_validity_proof i p1 (wd_order_book w)))) end.
  set (b := wd_order_book w) in *. set (b1 := update_order_validity_proof i p1 b).
  assert (Hb2 : get_order_info (update_order_validity_proof i p2 b1) i =
                Some (attach_commitment_proof (attach_commitment_proof o p1) p2)).
  { by do 2 apply update_proof_order. }
  assert (Hin : indexed_under (update_order_validity_proof i p2 b1) (st_nullifier (vc_statement p1)) i).
  { assert (Hidx : forall p c, orders_by_nullifier (update_order_validity_proof i p c) =
        orders_by_nullifier (index_nullifier (st_nullifier (vc_statement p)) i c)).
    { intros p c. unfold update_order_validity_proof. rewrite add_verified_order_eq.
      cbn -[lookup]. by destruct (order_map c !! i). }
    apply (indexed_same _ _ _ _ (Hidx p2 b1)), indexed_index. right.
    apply (indexed_same _ _ _ _ (Hidx p1 b)), indexed_index. by left. }
  rewrite nullify_order, decide_True, Hb2 by (by apply elem_of_by_nullifier).
  eexists. split; [done|]. done.
Qed.

Lemma collect_default store orders :
  priorities_default store -> collect_priorities store orders = Ret ((fun _ => 1%Z) <$> orders).
Proof.
  intros Hs. induction orders as [|i l IH]; [done|]. cbn.
  by rewrite effective_priority_default, IH.
Qed.

Lemma sum_ones {A} (l : list A) : foldr Z.add 0%Z ((fun _ => 1%Z) <$> l) = Z.of_nat (length l).
Proof. induction l as [|x l IH]; [done|]. cbn. rewrite IH. lia. Qed.

(** The scheduler's choice of an order returns without a panic of the weighted sampling
    and without an overflow of the priorities, and changes nothing: it chooses a verified
    order that is not managed locally whenever there is one. *)
Theorem choose_handshake_order_total {OL : OracleLaws O} w :
  relayer_ok w -> (Z.of_nat (size (verified_orders (wd_order_book w))) < 2 ^ 32)%Z ->
  exists r, exec (choose_handshake_order (E := E)) w = (Ret r, w) /\
    match r with
    | Some i => i ∈ verified_orders (wd_order_book w) /\ i ∉ local_orders (wd_order_book w)
    | None => verified_orders (wd_order_book w) ⊆ local_orders (wd_order_book w)
    end.
Proof.
  intros Hok Hsize. unfold choose_handshake_order. rewrite exec_bind. unfold read_order_book. rewrite exec_holding.
  cbn [exec gets tret]. set (l := get_nonlocal_verified_orders (wd_order_book w)).
  assert (Hl : forall i, i ∈ l <-> i ∈ verified_orders (wd_order_book w) /\ i ∉ local_orders (wd_order_book w)).
  { intros i. unfold l, get_nonlocal_verified_orders. rewrite elem_of_visit_set. apply elem_of_difference. }
  assert (Hlen : (Z.of_nat (length l) < 2 ^ 32)%Z).
  { unfold l, get_nonlocal_verified_orders. rewrite visit_set_perm.
    change (length (elements ?X)) with (size X).
    pose proof (subseteq_size (verified_orders (wd_order_book w) ∖ local_orders (wd_order_book w))
      (verified_orders (wd_order_book w)) ltac:(set_solver)). lia. }
  clearbody l. destruct l as [|i0 l0].
  - exists None. split; [done|]. intros i Hi. destruct (decide (i ∈ local_orders (wd_order_book w))); [done|].
    assert (i ∈ []) as Hn by (by apply Hl). by apply not_elem_of_nil in Hn.
  - set (l := i0 :: l0) in *. rewrite exec_bind, exec_holding. cbn [exec gets tret].
    rewrite (collect_default _ l (rok_priorities _ Hok)).
    destruct (sample_weighted_Some ((fun _ => 1%Z) <$> l)) as (k & x & Hk & Hx & _).
    + apply Forall_fmap, Forall_true. cbn. lia.
    + rewrite sum_ones. unfold l in *. cbn [length] in *. lia.
    + rewrite Hk. apply list_lookup_fmap_Some in Hx as (i & _ & Hi). rewrite Hi.
      exists (Some i). split; [done|]. apply Hl. by eapply list_elem_of_lookup_2.
Qed.
End properties.

(** * Examples *)

#[local] Existing Instance sample_foreign.
#[local] Existing Instance sorted_order.
#[local] Existing Instance sample_lc.
#[local] Existing Instance sample_le.

Definition sample_oracles : Oracles := {|
  gen_range := fun _ => 0;
  sample_weighted := position (Z.ltb 0);
  ark_hash := fun _ => scalar 0;
  scalar_to_u64 := fun _ => 0%Z;
  verify_cluster_auth_sig := fun _ => true |}.

#[local] Existing Instance sample_oracles.

Lemma sample_oracle_laws : OracleLaws sample_oracles.
Proof.
  split; [done|]. intros ws Hws Hsum. cbn. destruct (position (Z.ltb 0) ws) as [i|] eqn:Hp.
  - apply position_Some in Hp as (x & Hx & Hlt & _). exists i, x. split; [done|]. split; [done|]. lia.
  - apply position_None in Hp. exfalso.
    assert (foldr Z.add 0%Z ws <= 0)%Z; [|lia]. clear Hsum Hws.
    induction Hp as [|x ws Hx _ IH]; cbn; lia.
Qed.

Lemma sample_world_ok : relayer_ok sample_world.
Proof. split; [apply book_new_ok|apply book_new_indexed|apply peers_new_ok|apply priorities_new_default]. Qed.

Definition sample_relayer : World :=
  (exec (add_order_to_state (E := unit) (order_new 7%N (scalar 5) "peer" false) ;;*
         add_order_validity_proof 7%N (sample_bundle 5)) sample_world).2.

Lemma sample_relayer_ok : relayer_ok sample_relayer.
Proof. unfold sample_relayer. apply respects_exec; [respects_split|apply sample_world_ok]. Qed.


Lemma reproved_order_cancelled_witness :
  exists w', exec (add_order_validity_proof (E := unit) 7%N (sample_bundle 5) ;;*
                   add_order_validity_proof 7%N (sample_bundle 6) ;;* nullify_orders (scalar 5)) sample_relayer
             = (Ret tt, w') /\
    exists o', get_order_info (wd_order_book w') 7%N = Some o' /\ no_state o' = Cancelled.
Proof.
  destruct (reproved_order_cancelled (E := unit) sample_relayer 7%N _ (sample_bundle 5) (sample_bundle 6) eq_refl)
    as (w' & H1 & o' & H2 & H3 & _); [by vm_compute|].
  exists w'. split; [exact H1|]. exists o'. split; [exact H2|exact H3].
Defined.

Lemma choose_handshake_order_total_witness :
  exists r, exec (choose_handshake_order (E := unit)) sample_relayer = (Ret r, sample_relayer).
Proof.
  destruct (choose_handshake_order_total (E := unit) (OL := sample_oracle_laws) sample_relayer sample_relayer_ok)
    as (r & H1 & _); [by vm_compute|]. exists r. exact H1.
Defined.
