(* ===== verification/HandshakeIndex.v ===== *)
(** The index of handshakes in flight: core/src/handshake/state.rs. *)

From Stdlib Require Import Zmod.
From stdpp Require Import gmap strings.
From S2P Require Import Prelude Async LockOrder Primality Field RelayerTypes OrderBook PeerIndex.
From S2P Require Import WalletIndex Messages Lru HandshakeCache World.

#[global] Set Default Goal Selector "!".
#[local] Open Scope task_scope.

(** * One handshake *)

(** [HandshakeState::new] *)
Definition handshake_new (request_id : Uuid) (peer_order_id local_order_id : OrderIdentifier)
    (peer_match_nullifier local_match_nullifier : Nullifier) : HandshakeState := {|
  hs_request_id := request_id;
  hs_peer_order_id := peer_order_id;
  hs_local_order_id := local_order_id;
  hs_peer_match_nullifier := peer_match_nullifier;
  hs_local_match_nullifier := local_match_nullifier;
  hs_state := OrderNegotiation;
  hs_cancel_channel := None;
|}.

Definition with_status (self : HandshakeState) (st : HandshakeStatus) (c : option nat)
    : HandshakeState := {|
  hs_request_id := hs_request_id self;
  hs_peer_order_id := hs_peer_order_id self;
  hs_local_order_id := hs_local_order_id self;
  hs_peer_match_nullifier := hs_peer_match_nullifier self;
  hs_local_match_nullifier := hs_local_match_nullifier self;
  hs_state := st;
  hs_cancel_channel := c;
|}.

(** [HandshakeState::in_progress], [completed], [error] *)
Definition handshake_in_progress (self : HandshakeState) : outcome unit HandshakeState :=
  match hs_state self with
  | OrderNegotiation => Ret (with_status self MatchRunning (hs_cancel_channel self))
  | _ => Panic
  end.

Definition handshake_completed (self : HandshakeState) : outcome unit HandshakeState :=
  match hs_state self with
  | OrderNegotiation | MatchRunning => Ret (with_status self MatchCompleted (hs_cancel_channel self))
  | _ => Panic
  end.

Definition handshake_error (self : HandshakeState) (err : HandshakeManagerError) : HandshakeState :=
  with_status self (HandshakeError err) (hs_cancel_channel self).

Section index.
  Context `{F : Foreign} `{HO : HashOrder}.
  Context {LC : LruCache (OrderIdentifier * OrderIdentifier) HandshakeCacheState}.
  Context {LE : LruCache PeerId Z}.

(** * The index *)

(** [entry(nullifier).or_default().insert(request_id)] *)
Definition index_request (n : Nullifier) (request_id : Uuid) (m : gmap Nullifier (gset Uuid))
    : gmap Nullifier (gset Uuid) :=
  <[n := {[request_id]} ∪ default ∅ (m !! n)]> m.

(** [get_mut(nullifier)] and [remove(request_id)] *)
Definition unindex_request (n : Nullifier) (request_id : Uuid) (m : gmap Nullifier (gset Uuid))
    : gmap Nullifier (gset Uuid) :=
  match m !! n with
  | Some set => <[n := set ∖ {[request_id]}]> m
  | None => m
  end.

(** [new_handshake]; the order book stays locked for reading to the end. *)
Definition new_handshake (request_id : Uuid) (peer_order_id local_order_id : OrderIdentifier)
    : action HandshakeManagerError unit :=
  holding Read OrderBookLock (
    let* local_nullifier := gets (fun w => get_match_nullifier (wd_order_book w) local_order_id) in
    match local_nullifier with
    | None => tfail (StateNotFound "match nullifier not found for order")
    | Some local_nullifier =>
        let* peer_nullifier := gets (fun w => get_match_nullifier (wd_order_book w) peer_order_id) in
        match peer_nullifier with
        | None => tfail (StateNotFound "match nullifier not found for order")
        | Some peer_nullifier =>
            holding Write StateMapLock (modify (on_state_map (fun m =>
              <[request_id := handshake_new request_id peer_order_id local_order_id
                               peer_nullifier local_nullifier]> m))) ;;*
            holding Write NullifierMapLock (modify (on_nullifier_map (fun m =>
              index_request peer_nullifier request_id (index_request local_nullifier request_id m))))
        end
    end).

Context {E : Type}.

(** [remove_handshake] *)
Definition remove_handshake (request_id : Uuid) : action E (option HandshakeState) :=
  let* state := holding Write StateMapLock
    (act (fun w => (wd_state_map w !! request_id, on_state_map (fun m => delete request_id m) w))) in
  match state with
  | Some st =>
      holding Write NullifierMapLock (modify (on_nullifier_map (fun m =>
        unindex_request (hs_peer_match_nullifier st) request_id
          (unindex_request (hs_local_match_nullifier st) request_id m)))) ;;*
      tret (Some st)
  | None => tret None
  end.

(** [get_state] *)
Definition get_state (request_id : Uuid) : action E (option HandshakeState) :=
  holding Read StateMapLock (gets (fun w => wd_state_map w !! request_id)).

(** A change of the entry of a handshake, if it is there. *)
Definition on_entry (request_id : Uuid) (f : HandshakeState -> outcome unit HandshakeState)
    : action E unit :=
  act_out (fun w =>
    match wd_state_map w !! request_id with
    | Some entry =>
        match f entry with
        | Ret entry' => (Ret tt, on_state_map (fun m => <[request_id := entry']> m) w)
        | _ => (Panic, w)
        end
    | None => (Ret tt, w)
    end).

(** [in_progress] *)
Definition in_progress (request_id : Uuid) (cancel_channel : nat) : action E unit :=
  holding Write StateMapLock (on_entry request_id (fun entry =>
    (try! entry := handshake_in_progress entry in
     Ret (with_status entry (hs_state entry) (Some cancel_channel)))%outcome)).

(** [completed]; the guard of the state map lives until the function returns. *)
Definition completed (request_id : Uuid) : action E unit :=
  holding Write StateMapLock (
    on_entry request_id handshake_completed ;;*
    remove_handshake request_id ;;*
    tret tt).

(** [error] *)
Definition error (request_id : Uuid) (err : HandshakeManagerError) : action E unit :=
  holding Write StateMapLock (
    on_entry request_id (fun entry => Ret (handshake_error entry err)) ;;*
    remove_handshake request_id ;;*
    tret tt).
End index.

Section shootdown.
  Context `{F : Foreign} `{HO : HashOrder}.
  Context {LC : LruCache (OrderIdentifier * OrderIdentifier) HandshakeCacheState}.
  Context {LE : LruCache PeerId Z}.

(** [channel.send(())] on a cancel channel *)
Definition send_cancel (c : nat) : action HandshakeManagerError unit :=
  act_out (fun w =>
    match wd_cancels w !! c with
    | Some ch =>
        if cc_receiver ch
        then (Ret tt, on_cancels (fun m =>
                <[c := {| cc_receiver := true; cc_signals := S (cc_signals ch) |}]> m) w)
        else (Fail HandshakeSendMessage, w)
    | None => (Fail HandshakeSendMessage, w)
    end).

(** The body of the loop of [shootdown_nullifier] *)
Definition shootdown_request (request : Uuid) : action HandshakeManagerError unit :=
  let* state := remove_handshake request in
  match state with
  | Some st =>
      match hs_cancel_channel st with
      | Some channel => send_cancel channel
      | None => tret tt
      end
  | None => tret tt
  end.

(** [shootdown_nullifier] *)
Definition shootdown_nullifier (nullifier : Nullifier) : action HandshakeManagerError unit :=
  let* requests := holding Write NullifierMapLock
    (act (fun w => (default ∅ (wd_nullifier_map w !! nullifier),
                    on_nullifier_map (fun m => delete nullifier m) w))) in
  tfor (visit_set requests) shootdown_request.
End shootdown.

(** * Facts *)

Section facts.
  Context `{F : Foreign} `{HO : HashOrder}.
  Context {LC : LruCache (OrderIdentifier * OrderIdentifier) HandshakeCacheState}.
  Context {LE : LruCache PeerId Z}.

Definition requested (w : World) (n : Nullifier) (r : Uuid) : Prop :=
  exists X, wd_nullifier_map w !! n = Some X /\ r ∈ X.

Definition on_nullifier (n : Nullifier) (st : HandshakeState) : Prop :=
  hs_local_match_nullifier st = n \/ hs_peer_match_nullifier st = n.

(** The two maps agree: the requests of a nullifier are the handshakes that use it. *)
Record index_ok (w : World) : Prop := {
  ok_requested r st n : wd_state_map w !! r = Some st -> on_nullifier n st -> requested w n r;
  ok_known n r : requested w n r -> exists st, wd_state_map w !! r = Some st /\ on_nullifier n st;
}.

Definition signalled (w : World) (c : nat) : Prop :=
  exists ch, wd_cancels w !! c = Some ch /\ 0 < cc_signals ch.

Lemma requested_unindex (m : gmap Nullifier (gset Uuid)) n r n' r' :
  (exists X, unindex_request n r m !! n' = Some X /\ r' ∈ X) <->
  (exists X, m !! n' = Some X /\ r' ∈ X) /\ ~ (n' = n /\ r' = r).
Proof.
  unfold unindex_request. destruct (m !! n) as [X|] eqn:HX.
  - destruct (decide (n' = n)) as [->|Hne].
    + rewrite lookup_insert_eq, HX. split.
      * intros (Y & [= <-] & Hr). split; [exists X|]; set_solver.
      * intros ((Y & [= <-] & Hr) & Hn). eexists. split; [done|]. set_solver.
    + rewrite lookup_insert_ne by done. split; [|tauto]. intros H. split; [done|]. tauto.
  - split; [|tauto]. intros (Y & HY & Hr). split; [eauto|]. intros [-> ->]. congruence.
Qed.

Lemma requested_index (m : gmap Nullifier (gset Uuid)) n r n' r' :
  (exists X, index_request n r m !! n' = Some X /\ r' ∈ X) <->
  (exists X, m !! n' = Some X /\ r' ∈ X) \/ (n' = n /\ r' = r).
Proof.
  unfold index_request. destruct (decide (n' = n)) as [->|Hne].
  - rewrite lookup_insert_eq. split.
    + intros (Y & [= <-] & Hr). apply elem_of_union in Hr as [->%elem_of_singleton|Hr]; [by right|].
      left. destruct (m !! n) as [X|]; cbn in Hr; [eauto|set_solver].
    + intros [(X & HX & Hr)|[_ ->]]; (eexists; split; [done|]); [rewrite HX; cbn|]; set_solver.
  - rewrite lookup_insert_ne by done. naive_solver.
Qed.

(** [remove_handshake] without interruption *)
Definition removed (r : Uuid) (w : World) : World :=
  match wd_state_map w !! r with
  | Some st => on_nullifier_map (fun m => unindex_request (hs_peer_match_nullifier st) r
                 (unindex_request (hs_local_match_nullifier st) r m)) (on_state_map (fun m => delete r m) w)
  | None => on_state_map (fun m => delete r m) w
  end.

Lemma exec_remove_handshake {E} r w :
  exec (remove_handshake (E := E) r) w = (Ret (wd_state_map w !! r), removed r w).
Proof.
  unfold remove_handshake. rewrite exec_bind, exec_holding. cbn. unfold removed.
  by destruct (wd_state_map w !! r).
Qed.

Lemma removed_state_map r w : wd_state_map (removed r w) = delete r (wd_state_map w).
Proof. unfold removed. by destruct (wd_state_map w !! r). Qed.

Lemma removed_cancels r w : wd_cancels (removed r w) = wd_cancels w.
Proof. unfold removed. by destruct (wd_state_map w !! r). Qed.

Lemma requested_removed r w n r' :
  requested (removed r w) n r' <->
  requested w n r' /\ ~ (r' = r /\ exists st, wd_state_map w !! r = Some st /\ on_nullifier n st).
Proof.
  unfold requested, removed. destruct (wd_state_map w !! r) as [st|] eqn:Hst; cbn [wd_nullifier_map on_nullifier_map on_state_map].
  - rewrite !requested_unindex. unfold on_nullifier. split.
    + intros ((HX & H1) & H2). split; [done|]. intros (-> & st' & [= <-] & [Hn|Hn]); subst; tauto.
    + intros (HX & Hn). repeat split; [done|..]; intros [-> ->]; apply Hn; eauto.
  - split; [|tauto]. intros HX. split; [done|]. naive_solver.
Qed.

(** One iteration of the shootdown loop, when its signal can be delivered. *)
Definition shot (r : Uuid) (w : World) : World :=
  match wd_state_map w !! r with
  | Some st =>
      match hs_cancel_channel st with
      | Some c =>
          match wd_cancels w !! c with
          | Some ch => on_cancels (fun m => <[c := {| cc_receiver := true; cc_signals := S (cc_signals ch) |}]> m) (removed r w)
          | None => removed r w
          end
      | None => removed r w
      end
  | None => removed r w
  end.

Definition deliverable (w : World) (r : Uuid) : Prop :=
  forall st c, wd_state_map w !! r = Some st -> hs_cancel_channel st = Some c ->
    exists ch, wd_cancels w !! c = Some ch /\ cc_receiver ch = true.

Lemma exec_shootdown_request r w :
  deliverable w r -> exec (shootdown_request r) w = (Ret tt, shot r w).
Proof.
  intros Hd. unfold shootdown_request. rewrite exec_bind, exec_remove_handshake. unfold shot.
  destruct (wd_state_map w !! r) as [st|] eqn:Hst; [|done].
  destruct (hs_cancel_channel st) as [c|] eqn:Hc; [|done].
  destruct (Hd st c Hst Hc) as (ch & Hch & Hr). rewrite Hch. cbn.
  by rewrite removed_cancels, Hch, Hr.
Qed.

Lemma shot_maps r w :
  wd_state_map (shot r w) = delete r (wd_state_map w) /\
  wd_nullifier_map (shot r w) = wd_nullifier_map (removed r w).
Proof.
  rewrite <- removed_state_map. unfold shot. destruct (wd_state_map w !! r) as [st|]; [|done].
  destruct (hs_cancel_channel st); [|done]. by destruct (wd_cancels w !! _).
Qed.

Lemma shot_deliverable r w r' : deliverable w r' -> deliverable w r -> deliverable (shot r w) r'.
Proof.
  intros Hd Hr st c Hst Hc. rewrite (proj1 (shot_maps r w)) in Hst. apply lookup_delete_Some in Hst as [Hne Hst].
  destruct (Hd st c Hst Hc) as (ch & Hch & Hrec). unfold shot.
  destruct (wd_state_map w !! r) as [st1|] eqn:H1; [|rewrite removed_cancels; eauto].
  destruct (hs_cancel_channel st1) as [c1|] eqn:Hc1; [|rewrite removed_cancels; eauto].
  destruct (Hr st1 c1 H1 Hc1) as (ch1 & Hch1 & _). rewrite Hch1. cbn [wd_cancels on_cancels]. rewrite removed_cancels.
  destruct (decide (c = c1)) as [->|Hcc]; [rewrite lookup_insert_eq|rewrite lookup_insert_ne by done]; eauto.
Qed.

Lemma shot_signals r w :
  (forall c, signalled w c -> signalled (shot r w) c) /\
  (forall st c, deliverable w r -> wd_state_map w !! r = Some st -> hs_cancel_channel st = Some c ->
     signalled (shot r w) c).
Proof.
  unfold signalled, shot. split.
  - intros c (ch & Hch & Hs). destruct (wd_state_map w !! r) as [st|]; [|rewrite removed_cancels; eauto].
    destruct (hs_cancel_channel st) as [c1|]; [|rewrite removed_cancels; eauto].
    destruct (wd_cancels w !! c1) as [ch1|] eqn:H1; [|rewrite removed_cancels; eauto].
    cbn [wd_cancels on_cancels]. rewrite removed_cancels. destruct (decide (c = c1)) as [->|Hne].
    + rewrite lookup_insert_eq. eexists. split; [done|]. cbn. lia.
    + rewrite lookup_insert_ne by done. eauto.
  - intros st c Hd Hst Hc. destruct (Hd st c Hst Hc) as (ch & Hch & _). rewrite Hst, Hc, Hch.
    cbn [wd_cancels on_cancels]. rewrite lookup_insert_eq. eexists. split; [done|]. cbn. lia.
Qed.

Definition shots (l : list Uuid) (w : World) : World := foldl (fun w r => shot r w) w l.

Lemma exec_shots l : forall w,
  Forall (deliverable w) l -> exec (tfor l shootdown_request) w = (Ret tt, shots l w).
Proof.
  induction l as [|r l IH]; intros w Hl; [done|]. apply Forall_cons in Hl as [Hr Hl].
  cbn [tfor shots foldl]. rewrite exec_bind, exec_shootdown_request by done. apply IH.
  eapply Forall_impl; [exact Hl|]. intros r' Hr'. by apply shot_deliverable.
Qed.

Lemma shots_state_map l : forall w r,
  wd_state_map (shots l w) !! r = if decide (r ∈ l) then None else wd_state_map w !! r.
Proof.
  induction l as [|x l IH]; intros w r; cbn [shots foldl].
  - by rewrite decide_False by apply not_elem_of_nil.
  - fold (shots l (shot x w)). rewrite IH, (proj1 (shot_maps x w)).
    destruct (decide (r = x)) as [->|Hne].
    + rewrite lookup_delete_eq, (decide_True (P := x ∈ x :: l)) by left. by case_decide.
    + rewrite lookup_delete_ne by done.
      by rewrite (decide_ext (r ∈ x :: l) (r ∈ l)) by (rewrite elem_of_cons; tauto).
Qed.

Lemma requested_shots l : forall w n r,
  requested (shots l w) n r <->
  requested w n r /\ ~ (r ∈ l /\ exists st, wd_state_map w !! r = Some st /\ on_nullifier n st).
Proof.
  induction l as [|x l IH]; intros w n r; cbn [shots foldl].
  - split; [|tauto]. intros H. split; [done|]. intros [Hn _]. by apply not_elem_of_nil in Hn.
  - fold (shots l (shot x w)). rewrite IH, (proj1 (shot_maps x w)), elem_of_cons.
    assert (Hreq : requested (shot x w) n r <-> requested (removed x w) n r).
    { unfold requested. by rewrite (proj2 (shot_maps x w)). }
    rewrite Hreq, requested_removed. destruct (decide (r = x)) as [->|Hne].
    + rewrite lookup_delete_eq. split.
      * intros ((H1 & H2) & _). split; [done|]. intros [_ H3]. tauto.
      * intros (H1 & H2). split; [split; [done|]|]; [intros [_ H3]; tauto|]. intros (_ & st & [=] & _).
    + rewrite lookup_delete_ne by done. tauto.
Qed.

Lemma shots_signal l : forall w,
  Forall (deliverable w) l ->
  (forall c, signalled w c -> signalled (shots l w) c) /\
  (forall r st c, r ∈ l -> wd_state_map w !! r = Some st -> hs_cancel_channel st = Some c ->
     signalled (shots l w) c).
Proof.
  induction l as [|x l IH]; intros w Hl; cbn [shots foldl].
  { split; [done|]. intros r st c Hn. by apply not_elem_of_nil in Hn. }
  fold (shots l (shot x w)). apply Forall_cons in Hl as [Hx Hl]. destruct (shot_signals x w) as [S1 S2].
  destruct (IH (shot x w)) as [IH1 IH2].
  { eapply Forall_impl; [exact Hl|]. intros r Hr. by apply shot_deliverable. }
  split; [auto|]. intros r st c Hr Hst Hc. destruct (decide (r = x)) as [->|Hne]; [eauto|].
  apply elem_of_cons in Hr as [?|Hr]; [done|]. apply (IH2 r st c Hr); [|done].
  by rewrite (proj1 (shot_maps x w)), lookup_delete_ne.
Qed.

(** The index after a shootdown of all requests of a nullifier. *)
Lemma shots_index_ok w n :
  index_ok w ->
  let l := visit_set (default ∅ (wd_nullifier_map w !! n)) in
  let w1 := on_nullifier_map (fun m => delete n m) w in
  index_ok (shots l w1) /\
  (forall r st, wd_state_map (shots l w1) !! r = Some st <->
                wd_state_map w !! r = Some st /\ ~ on_nullifier n st).
Proof.
  intros [Hreq Hkn] l w1.
  assert (Hl : forall r, r ∈ l <-> requested w n r).
  { intros r. unfold l, requested. rewrite elem_of_visit_set. destruct (wd_nullifier_map w !! n) as [X|]; cbn.
    - split; [eauto|]. by intros (Y & [= <-] & ?).
    - split; [set_solver|]. by intros (Y & [=] & ?). }
  assert (Hst : forall r st, wd_state_map (shots l w1) !! r = Some st <->
                wd_state_map w !! r = Some st /\ ~ on_nullifier n st).
  { intros r st. rewrite shots_state_map. cbn [wd_state_map w1 on_nullifier_map]. case_decide as Hr; rewrite Hl in Hr.
    - split; [done|]. intros [H1 H2]. destruct (Hkn _ _ Hr) as (st' & H3 & H4). congruence.
    - split; [|tauto]. intros H1. split; [done|]. intros H2. eauto. }
  assert (H1 : forall n' r, requested w1 n' r <-> n' <> n /\ requested w n' r).
  { intros n' r. unfold requested, w1; cbn. split.
    - intros (X & [Hn HX]%lookup_delete_Some & Hr). eauto.
    - intros (Hn & X & HX & Hr). exists X. by rewrite lookup_delete_ne. }
  split; [|done]. split.
  - intros r st n' [Hw Hn]%Hst Hon. apply requested_shots. rewrite H1. split; [split|].
    + intros ->. by apply Hn.
    + eauto.
    + intros [Hr _]. rewrite Hl in Hr. destruct (Hkn _ _ Hr) as (st' & H3 & H4). congruence.
  - intros n' r [[Hne Hr]%H1 Hno]%requested_shots. destruct (Hkn _ _ Hr) as (st & Hw & Hon).
    exists st. split; [|done]. apply Hst. split; [done|]. intros Hn. apply Hno. split; [|eauto].
    apply Hl. eauto.
Qed.
End facts.

(** * Properties *)

(** Runs one step of task [t]. *)
Ltac run_step t :=
  eapply rtc_l; [first [eapply (step_atom _ t); reflexivity | eapply (step_acquire _ t); reflexivity
                       | eapply (step_release _ t); reflexivity]|]; cbv beta.

Section properties.
  Context `{F : Foreign} `{HO : HashOrder}.
  Context {LC : LruCache (OrderIdentifier * OrderIdentifier) HandshakeCacheState}.
  Context {LE : LruCache PeerId Z}.

Lemma completed_doomed {E} cur r : doomed cur (completed (E := E) r).
Proof.
  cbn. right. intros w. destruct (wd_state_map w !! r) as [st|]; cbn; [|set_solver].
  destruct (handshake_completed st); cbn; [set_solver|done..].
Qed.

Lemma error_doomed {E} cur r err : doomed cur (error (E := E) r err).
Proof. cbn. right. intros w. destruct (wd_state_map w !! r) as [st|]; cbn; set_solver. Qed.

(** Completing a handshake never returns, and neither does failing one, in whatever
    state the relayer is and whatever the other tasks do: the task asks for the lock of
    the state map while it holds it. *)
Theorem completed_never_returns {E} P c c' t r err :
  tasks c t = Some (completed (E := E) r) \/ tasks c t = Some (error (E := E) r err) ->
  rtc (step P) c c' -> tasks c' t <> Some (Done (Ret tt)).
Proof.
  intros [Ht|Ht] Hrun; eapply doomed_never_returns; [apply completed_doomed|exact Ht|done| |exact Ht|done].
  apply error_doomed.
Qed.

(** A completed handshake stops the handshake manager.  Once the task that completes a
    known handshake has taken its first two steps, no other task ever obtains the state
    map again: those that wait for it wait forever. *)
Theorem completed_wedges_index {E} P (h : lock -> holder) w ts t r st :
  ts t = Some (completed (E := E) r) -> h StateMapLock = Readers [] ->
  wd_state_map w !! r = Some st -> hs_state st = OrderNegotiation \/ hs_state st = MatchRunning ->
  exists c1, rtc (step P) (Config h w ts) c1 /\
    forall c2 t' md k, t' <> t -> ts t' = Some (Acquire md StateMapLock k) -> rtc (step P) c1 c2 ->
      tasks c2 t' = Some (Acquire md StateMapLock k).
Proof.
  intros Ht Hh Hst Hneg.
  assert (exists st', handshake_completed st = Ret st') as [st' Hst'].
  { unfold handshake_completed. destruct Hneg as [-> | ->]; eauto. }
  eexists. split.
  - eapply rtc_l; [eapply step_acquire; [exact Ht|by rewrite Hh]|].
    eapply rtc_l; [eapply step_atom; apply set_task_eq|]. apply rtc_refl.
  - cbn. rewrite Hst, Hst'. cbn.
    intros c2 t' md k Hne Ht'. set (c1 := Config _ _ _). intros Hrun.
    assert (Hb : self_blocked t StateMapLock c1).
    { split; [cbn; by rewrite set_held_eq|]. eexists _, _. cbn. by rewrite set_task_eq. }
    assert (Hc1 : tasks c1 t' = Some (Acquire md StateMapLock k)).
    { cbn. by rewrite !set_task_ne by done. }
    clearbody c1. induction Hrun as [c1|c1 c3 c4 Hs _ IH]; [done|]. apply IH; [by eapply self_blocked_step|].
    destruct Hb as [Hw _]. destruct Hs as [u g s us upd k' Hu|u g g' s us md' l k' Hu Ha|u g s us l k' Hu|u g s us m Hu Hm];
      cbn in *; (destruct (decide (t' = u)) as [<-|Hnu]; [rewrite Hc1 in Hu; simplify_eq|by rewrite set_task_ne]).
    rewrite Hw in Ha. by destruct md'.
Qed.


(** A shootdown that cannot deliver one signal gives up: it returns the error, the
    handshakes that it had not reached stay in the state map with their matches running,
    and since the nullifier is no longer indexed a later shootdown does not find them. *)
Theorem shootdown_error_leaves_handshakes n w X r1 rest st1 c1 r2 st2 :
  wd_nullifier_map w !! n = Some X -> visit_set X = r1 :: rest ->
  wd_state_map w !! r1 = Some st1 -> hs_cancel_channel st1 = Some c1 ->
  wd_cancels w !! c1 = Some {| cc_receiver := false; cc_signals := 0 |} ->
  r2 ∈ rest -> r2 <> r1 -> wd_state_map w !! r2 = Some st2 ->
  exists w', exec (shootdown_nullifier n) w = (Fail HandshakeSendMessage, w') /\
    wd_state_map w' !! r2 = Some st2 /\ wd_cancels w' = wd_cancels w /\
    exists w'', exec (shootdown_nullifier n) w' = (Ret tt, w'') /\ wd_state_map w'' !! r2 = Some st2.
Proof.
  intros HX Hv H1 Hc1 Hch Hr2 Hne H2. set (w1 := on_nullifier_map (fun m => delete n m) w).
  assert (Hexec : exec (shootdown_nullifier n) w = (Fail HandshakeSendMessage, removed r1 w1)).
  { unfold shootdown_nullifier. rewrite exec_bind, exec_holding.
    cbn -[tfor visit_set lookup delete]. rewrite HX. cbn [default from_option]. unfold id. rewrite Hv. cbn [tfor].
    rewrite exec_bind. unfold shootdown_request at 1. rewrite exec_bind, exec_remove_handshake.
    fold w1. cbn [wd_state_map on_nullifier_map w1]. rewrite H1, Hc1. cbn [exec send_cancel act_out].
    rewrite removed_cancels. cbn [wd_cancels on_nullifier_map w1]. by rewrite Hch. }
  exists (removed r1 w1). split; [done|]. rewrite removed_state_map, removed_cancels. cbn [wd_state_map wd_cancels on_nullifier_map w1].
  rewrite lookup_delete_ne by done. split; [done|]. split; [done|].
  assert (HN : wd_nullifier_map (removed r1 w1) !! n = None).
  { unfold removed, w1. cbn [wd_state_map on_nullifier_map]. rewrite H1. cbn. unfold unindex_request.
    assert (forall n' x (m : gmap Nullifier (gset Uuid)), m !! n = None ->
      (match m !! n' with Some set => <[n' := set ∖ {[x]}]> m | None => m end) !! n = None) as Hun.
    { intros n' x m Hm. destruct (m !! n') as [Y|] eqn:HY; [|done]. rewrite lookup_insert_ne; [done|]. congruence. }
    apply Hun, Hun, lookup_delete_eq. }
  unfold shootdown_nullifier. rewrite exec_bind, exec_holding.
  cbn -[tfor visit_set lookup delete]. rewrite HN. cbn [default from_option]. pose proof (visit_set_perm (∅ : gset Uuid)) as Hp.
  rewrite elements_empty in Hp. apply Permutation_nil_r in Hp. rewrite Hp. cbn [tfor tret exec].
  eexists. split; [done|]. cbn [wd_state_map on_nullifier_map].
  rewrite removed_state_map. by rewrite lookup_delete_ne.
Qed.

(** A shootdown that runs between the two updates of a new handshake misses it: both
    tasks return, and the handshake on the spent nullifier stays in the index. *)
Theorem shootdown_misses_new_handshake w r peer_order local_order n np :
  get_match_nullifier (wd_order_book w) local_order = Some n ->
  get_match_nullifier (wd_order_book w) peer_order = Some np ->
  wd_nullifier_map w !! n = None ->
  let pool := [new_handshake r peer_order local_order; shootdown_nullifier n] in
  exists c, rtc runs (Config unlocked w (fun t => pool !! t)) c /\
    tasks c 0 = Some (Done (Ret tt)) /\ tasks c 1 = Some (Done (Ret tt)) /\
    wd_state_map (shared c) !! r = Some (handshake_new r peer_order local_order np n).
Proof.
  intros Hl Hp Hn pool. pose proof (visit_set_perm (∅ : gset Uuid)) as Hv.
  rewrite elements_empty in Hv. apply Permutation_nil_r in Hv.
  eexists. split; [|split_and!].
  - do 2 run_step 0. rewrite Hl. run_step 0. rewrite Hp. do 3 run_step 0. do 2 run_step 1.
    cbn [wd_nullifier_map on_state_map]. rewrite Hn. run_step 1.
    cbn [default from_option fst snd]. rewrite Hv. do 4 run_step 0. apply rtc_refl.
  - reflexivity.
  - reflexivity.
  - cbn. apply lookup_insert_eq.
Qed.
End properties.

(** * Examples *)

#[local] Existing Instance sample_foreign.
#[local] Existing Instance sorted_order.
#[local] Existing Instance sample_lc.
#[local] Existing Instance sample_le.

Definition sample_handshake (r : Uuid) (c : option nat) : HandshakeState :=
  with_status (handshake_new r 7%N 8%N (scalar 6) (scalar 5)) MatchRunning c.

(** Two handshakes on the same nullifiers; the receiver of the second channel may be gone. *)
Definition sample_handshakes (alive : bool) : World :=
  on_cancels (fun _ => {[0 := {| cc_receiver := true; cc_signals := 0 |};
                         1 := {| cc_receiver := alive; cc_signals := 0 |}]})
  (on_nullifier_map (fun _ => {[scalar 5 := {[1%N; 2%N]}; scalar 6 := {[1%N; 2%N]}]})
  (on_state_map (fun _ => {[1%N := sample_handshake 1 (Some 0); 2%N := sample_handshake 2 (Some 1)]})
     sample_world)).

Lemma completed_never_returns_witness :
  forall c', rtc (step (fun _ => False))
    (Config unlocked (sample_handshakes true) (fun t => [completed (E := unit) 1%N] !! t)) c' ->
    tasks c' 0 <> Some (Done (Ret tt)).
Proof.
  intros c' H. eapply (completed_never_returns _ _ c' 0 1%N MpcShootdownError); [|exact H]. left. reflexivity.
Defined.

Lemma completed_wedges_index_witness :
  exists c1, rtc (step (fun _ => False))
    (Config unlocked (sample_handshakes true)
       (fun t => [completed (E := unit) 1%N; get_state 2%N ;;* tret tt] !! t)) c1 /\
    forall c2, rtc (step (fun _ => False)) c1 c2 -> ~ finished 1 c2.
Proof.
  destruct (completed_wedges_index (E := unit) (fun _ => False) unlocked (sample_handshakes true)
    (fun t => [completed (E := unit) 1%N; get_state 2%N ;;* tret tt] !! t) 0 1%N
    (sample_handshake 1 (Some 0)) eq_refl eq_refl) as (c1 & H1 & H2); [reflexivity|by right|].
  exists c1. split; [exact H1|]. intros c2 Hc2 [r Hr].
  rewrite (H2 c2 1 Read _ ltac:(done) eq_refl Hc2) in Hr. discriminate.
Defined.

Lemma sample_state_map alive r st :
  wd_state_map (sample_handshakes alive) !! r = Some st ->
  (r = 1%N /\ st = sample_handshake 1 (Some 0)) \/ (r = 2%N /\ st = sample_handshake 2 (Some 1)).
Proof.
  cbn -[lookup insert]. rewrite lookup_insert_Some.
  intros [[<- <-]|[_ H]]; [by left|]. apply lookup_singleton_Some in H as [<- <-]. by right.
Qed.

Lemma sample_requested alive n r :
  requested (sample_handshakes alive) n r <-> (n = scalar 5 \/ n = scalar 6) /\ (r = 1%N \/ r = 2%N).
Proof.
  unfold requested. cbn -[lookup insert]. split.
  - intros (X & HX & Hr). apply lookup_insert_Some in HX as [[<- <-]|[_ HX]]; [set_solver|].
    apply lookup_singleton_Some in HX as [<- <-]. set_solver.
  - intros [[-> | ->] Hr]; (eexists; split; [by vm_compute|]); set_solver.
Qed.

Lemma sample_index_ok alive : index_ok (sample_handshakes alive).
Proof.
  split.
  - intros r st n [[-> ->]|[-> ->]]%sample_state_map Hn; apply sample_requested;
      (split; [destruct Hn as [<- | <-]; [by left|by right]|tauto]).
  - intros n r [Hn [-> | ->]]%sample_requested; (eexists; split; [reflexivity|]);
      destruct Hn as [-> | ->]; [by left|by right|by left|by right].
Qed.


Lemma shootdown_error_leaves_handshakes_witness :
  exists w', exec (shootdown_nullifier (scalar 5)) (sample_handshakes false) = (Fail HandshakeSendMessage, w') /\
    wd_state_map w' !! 1%N = Some (sample_handshake 1 (Some 0)).
Proof.
  destruct (shootdown_error_leaves_handshakes (scalar 5) (sample_handshakes false) {[1%N; 2%N]} 2%N [1%N]
    (sample_handshake 2 (Some 1)) 1 1%N (sample_handshake 1 (Some 0))) as (w' & H1 & H2 & _);
    [by vm_compute|by vm_compute|reflexivity..|by left|done|reflexivity|]. exists w'. split; [exact H1|exact H2].
Defined.

Definition sample_negotiation : World :=
  on_state (on_order_book (fun _ =>
    update_order_validity_proof 8%N (sample_bundle 5) (update_order_validity_proof 7%N (sample_bundle 6)
      (add_order (order_new 8%N (scalar 5) "local" true) (add_order (order_new 7%N (scalar 6) "peer" false) book_new)))))
    sample_world.

Lemma shootdown_misses_new_handshake_witness :
  exists c, rtc runs (Config unlocked sample_negotiation
              (fun t => [new_handshake 1%N 7%N 8%N; shootdown_nullifier (scalar 5)] !! t)) c /\
    wd_state_map (shared c) !! 1%N = Some (handshake_new 1%N 7%N 8%N (scalar 6) (scalar 5)).
Proof.
  destruct (shootdown_misses_new_handshake sample_negotiation 1%N 7%N 8%N (scalar 5) (scalar 6))
    as (c & H1 & _ & _ & H4); [reflexivity..|]. exists c. split; [exact H1|exact H4].
Defined.
