(* ===== verification/Gossip.v ===== *)
(** The handlers of the gossip server: core/src/gossip/{heartbeat,cluster,orderbook,server}.rs. *)

From Stdlib Require Import Zmod.
From stdpp Require Import gmap strings.
From S2P Require Import Prelude Async LockOrder Primality Field Starknet Merkle RelayerTypes.
From S2P Require Import OrderBook PeerIndex WalletIndex Messages Lru HandshakeCache World RelayerState.

#[global] Set Default Goal Selector "!".
#[local] Open Scope task_scope.

Inductive GossipError :=
  | GossipCancelled (msg : string)
  | MissingState (msg : string)
  | ParseError
  | ServerSetup (msg : string)
  | GossipSendMessage
  | StarknetRequest
  | TimerFailed
  | ValidCommitmentVerification (msg : string).

(** The intervals, in milliseconds *)
Definition HEARTBEAT_FAILURE_MS : Z := 20000.
Definition CLUSTER_HEARTBEAT_FAILURE_MS : Z := 7000.
Definition EXPIRY_INVISIBILITY_WINDOW_MS : Z := 30000.

Section gossip.
  Context `{F : Foreign} `{HO : HashOrder}.
  Context {LC : LruCache (OrderIdentifier * OrderIdentifier) HandshakeCacheState}.
  Context {LE : LruCache PeerId Z}.
  Context {O : Oracles}.

(** What the handlers ask of libp2p, of the contract and of the proof system.  The answer
    of the contract depends on the time of the call; a call that fails has none. *)
Class GossipOracles := {
  peer_to_string : PeerId -> string;
  parse_peer_id : string -> option PeerId;
  call_nullifier_used : Z -> Felt -> option (list Felt);
  call_root_in_history : Z -> Felt -> option (list Felt);
  verify_singleprover_proof : ValidCommitmentsBundle -> outcome string unit;
}.
Context {G : GossipOracles}.

#[local] Notation gossip := (action GossipError).

Definition send_gossip (message : GossipOutbound) : gossip unit := send_network GossipSendMessage message.

(** * Order book management *)

(** [check_nullifier_unused] *)
Definition to_felt (a : Scalar) : outcome unit Felt :=
  biguint_to_starknet_felt (scalar_to_biguint a mod starknet_prime).

Definition check_nullifier_unused (nullifier : Nullifier) : gossip bool :=
  match to_felt nullifier with
  | Ret felt =>
      let* res := gets (fun w => call_nullifier_used (wd_unix_seconds w) felt) in
      match res with
      | Some (res0 :: _) => tret (Zmod.eqb res0 Zmod.zero)
      | Some [] => tpanic
      | None => tfail StarknetRequest
      end
  | _ => tpanic
  end.

(** [check_merkle_root_valid]; the answer of the contract is not used. *)
Definition check_merkle_root_valid (root : Scalar) : gossip bool :=
  match to_felt root with
  | Ret felt =>
      let* res := gets (fun w => call_root_in_history (wd_unix_seconds w) felt) in
      match res with
      | Some _ => tret true
      | None => tfail StarknetRequest
      end
  | _ => tpanic
  end.

(** [verify_valid_commitments_proof] *)
Definition verify_valid_commitments_proof (proof_bundle : ValidCommitmentsBundle) : gossip unit :=
  let* unused := check_nullifier_unused (st_nullifier (vc_statement proof_bundle)) in
  if negb unused then tfail (ValidCommitmentVerification "invalid nullifier, already used") else
  let* valid := check_merkle_root_valid (st_merkle_root (vc_statement proof_bundle)) in
  if negb valid then tfail (ValidCommitmentVerification "invalid merkle root, not in contract history") else
  match verify_singleprover_proof proof_bundle with
  | Ret _ => tret tt
  | Fail e => tfail (ValidCommitmentVerification e)
  | Panic => tpanic
  end.

(** [request_order_witness] *)
Definition request_order_witness (order_id : OrderIdentifier) : gossip unit :=
  let* peer := local_peer_id in
  let* cluster := local_cluster_id in
  send_gossip (Pubsub (get_management_topic cluster)
    (ClusterManagement cluster (RequestOrderValidityWitness order_id peer))).

(** [handle_order_info_request] *)
Definition handle_order_info_request (order_id : OrderIdentifier) (response_channel : ResponseChannel)
    : gossip unit :=
  let* order_info := read_order_book (fun b => get_order_info b order_id) in
  send_gossip (Response response_channel (OrderInfoResp order_id order_info)).

Definition with_local (order : NetworkOrder) (local : bool) : NetworkOrder := {|
  no_id := no_id order; no_match_nullifier := no_match_nullifier order; no_local := local;
  no_cluster := no_cluster order; no_state := no_state order;
  no_valid_commit_proof := no_valid_commit_proof order;
  no_valid_commit_witness := no_valid_commit_witness order |}.

(** [handle_order_info_response] *)
Definition handle_order_info_response (order_info : NetworkOrder) : gossip unit :=
  let* cluster := local_cluster_id in
  let is_local := bool_decide (no_cluster order_info = cluster) in
  match no_valid_commit_proof order_info with
  | Some proof_bundle =>
      if is_local then request_order_witness (no_id order_info)
      else verify_valid_commitments_proof proof_bundle
  | None => tret tt
  end ;;*
  add_order_to_state (with_local order_info is_local).

(** [handle_new_order] *)
Definition handle_new_order (order_id : OrderIdentifier) (match_nullifier : Nullifier) (cluster : ClusterId)
    : gossip unit :=
  let* unused := check_nullifier_unused match_nullifier in
  if negb unused then tret tt else
  let* local := local_cluster_id in
  add_order_to_state (order_new order_id match_nullifier cluster (bool_decide (cluster = local))).

(** [handle_new_validity_proof] *)
Definition handle_new_validity_proof (order_id : OrderIdentifier) (cluster : ClusterId)
    (proof_bundle : ValidCommitmentsBundle) : gossip unit :=
  let* local := local_cluster_id in
  let is_local := bool_decide (cluster = local) in
  (if negb is_local then verify_valid_commitments_proof proof_bundle else tret tt) ;;*
  let* known := read_order_book (fun b => contains_order b order_id) in
  (if negb known then
     add_order_to_state (order_new order_id (st_nullifier (vc_statement proof_bundle)) cluster is_local)
   else tret tt) ;;*
  add_order_validity_proof order_id proof_bundle ;;*
  if is_local then request_order_witness order_id else tret tt.

(** [handle_validity_witness_request] *)
Definition handle_validity_witness_request (order_id : OrderIdentifier) (requesting_peer : PeerId)
    : gossip unit :=
  let* info := read_peer_index (fun idx => get_peer_info idx requesting_peer) in
  match info with
  | None => tfail (MissingState "peer info not found in state")
  | Some info =>
      let* cluster := local_cluster_id in
      if bool_decide (pi_cluster_id info <> cluster) then tret tt else
      holding Read OrderBookLock (
        let* order_info := gets (fun w => get_order_info (wd_order_book w) order_id) in
        match order_info ≫= no_valid_commit_witness with
        | Some witness => send_gossip (Request requesting_peer (ValidityWitness order_id witness))
        | None => tret tt
        end)
  end.

(** [handle_validity_witness_response]; the book is read-locked, the order write-locked. *)
Definition handle_validity_witness_response (order_id : OrderIdentifier)
    (witness : SizedValidCommitmentsWitness) : gossip unit :=
  holding Read OrderBookLock
    (modify (on_state (on_order_book (attach_validity_proof_witness order_id witness)))).

(** [handle_order_book_management_job] *)
Definition handle_order_book_management_job (message : OrderBookManagementJob) : gossip unit :=
  match message with
  | JobOrderInfo order_id response_channel => handle_order_info_request order_id response_channel
  | JobOrderInfoResponse _ info =>
      match info with
      | Some order_info => handle_order_info_response order_info
      | None => tret tt
      end
  | JobOrderReceived order_id match_nullifier cluster => handle_new_order order_id match_nullifier cluster
  | JobOrderProofUpdated order_id cluster proof => handle_new_validity_proof order_id cluster proof
  | JobOrderWitness order_id requesting_peer => handle_validity_witness_request order_id requesting_peer
  | JobOrderWitnessResponse order_id witness => handle_validity_witness_response order_id witness
  end.

(** * Cluster management *)

(** [send_replicate_request] *)
Definition send_replicate_request (peer : PeerId) (wallets : list ManagedWallet) : gossip unit :=
  match wallets with
  | [] => tret tt
  | _ => send_gossip (Request peer (ReplicateReq wallets))
  end.

(** [add_peer_to_cluster] *)
Definition add_peer_to_cluster (peer_id : PeerId) (peer_info : PeerInfo) (cluster_id : ClusterId)
    : gossip unit :=
  let* local := local_cluster_id in
  if bool_decide (cluster_id <> local) then tret tt else
  add_single_peer peer_id peer_info ;;*
  let* wallets := read_wallet_index get_all_wallets in
  send_replicate_request peer_id wallets.

(** [handle_cluster_join_job] *)
Definition handle_cluster_join_job (cluster_id : ClusterId) (message : ClusterJoinMessage) : gossip unit :=
  let* local := local_cluster_id in
  if bool_decide (cluster_id <> local) then tret tt else
  add_peer_to_cluster (join_peer_id message) (join_peer_info message) cluster_id ;;*
  let* wallets := read_wallet_index get_all_wallets in
  send_replicate_request (join_peer_id message) wallets.

(** [handle_replicate_request] *)
Definition orders_without_proof (wallets : list ManagedWallet) (b : NetworkOrderBook) : list OrderIdentifier :=
  filter (fun order_id => has_validity_proof b order_id = false)
    (concat ((fun wallet => fst <$> visit (w_orders wallet)) <$> wallets)).

Definition handle_replicate_request (wallets : list ManagedWallet) : gossip unit :=
  match wallets with
  | [] => tret tt
  | _ =>
      add_wallets wallets ;;*
      let* cluster := local_cluster_id in
      let* peer := local_peer_id in
      let topic := get_management_topic cluster in
      send_gossip (Pubsub topic (ClusterManagement cluster (Replicated (w_wallet_id <$> wallets) peer))) ;;*
      let* orders := read_order_book (orders_without_proof wallets) in
      send_gossip (Pubsub topic (ClusterManagement cluster
        (RequestOrderValidityProof {| pr_order_ids := orders; pr_sender := peer |})))
  end.

(** [handle_add_replica_job] *)
Definition handle_add_replica_job (peer_id : PeerId) (wallet_id : WalletIdentifier) : gossip unit :=
  update_wallet_index (add_replica wallet_id peer_id).

(** [handle_share_validity_proofs_job] *)
Definition shared_proofs (order_ids : list OrderIdentifier) (b : NetworkOrderBook) : list GossipRequest :=
  omap (fun order_id => ValidityProof order_id <$> get_validity_proof b order_id) order_ids.

Definition handle_share_validity_proofs_job (req : ValidityProofRequest) : gossip unit :=
  let* outbound_messages := read_order_book (shared_proofs (pr_order_ids req)) in
  tfor outbound_messages (fun message => send_gossip (Request (pr_sender req) message)).

(** [handle_updated_validity_proof] *)
Definition handle_updated_validity_proof (order_id : OrderIdentifier) (proof : ValidCommitmentsBundle)
    : gossip unit := add_order_validity_proof order_id proof.

(** [handle_cluster_management_job] *)
Definition handle_cluster_management_job (job : ClusterManagementJob) : gossip unit :=
  match job with
  | ClusterJoinRequest cluster_id req => handle_cluster_join_job cluster_id req
  | ReplicateRequest wallets => handle_replicate_request wallets
  | AddWalletReplica wallet_id peer_id => handle_add_replica_job peer_id wallet_id
  | ShareValidityProofs req => handle_share_validity_proofs_job req
  | UpdateValidityProof order_id proof => handle_updated_validity_proof order_id proof
  end.
(** * Heartbeats *)

(** [record_heartbeat] *)
Definition record_peer_heartbeat (peer_id : PeerId) : gossip unit :=
  holding Read PeerIndexLock
    (modify (fun w => on_state (on_peer_index (record_heartbeat (wd_unix_seconds w) peer_id)) w)).

(** [add_new_addrs] *)
Definition add_new_addrs (peer_ids : list PeerId) (peer_info : gmap PeerId PeerInfo) : gossip unit :=
  tfor peer_ids (fun peer =>
    match peer_info !! peer with
    | Some info => send_gossip (ManagementMessage (NewAddr peer (pi_addr info)))
    | None => tpanic
    end).

(** The filter of [add_new_peers], which uses the expiry cache as it goes; the difference of
    the two times panics when the clock was set back. *)
Fixpoint filter_expired (now : Z) (new_peer_info : gmap PeerId PeerInfo) (peers : list PeerId)
    (cache : lru (K := PeerId) (V := Z)) : outcome GossipError (list PeerId) * lru (K := PeerId) (V := Z) :=
  match peers with
  | [] => (Ret [], cache)
  | peer_id :: peers' =>
      let keep cache :=
        match filter_expired now new_peer_info peers' cache with
        | (Ret rest, cache') =>
            (Ret (if bool_decide (is_Some (new_peer_info !! peer_id)) then peer_id :: rest else rest), cache')
        | (r, cache') => (r, cache')
        end in
      match lru_get peer_id cache with
      | (Some expired_at, cache) =>
          if (now <? expired_at)%Z then (Panic, cache)
          else if (now - expired_at <=? EXPIRY_INVISIBILITY_WINDOW_MS / 1000)%Z
          then filter_expired now new_peer_info peers' cache
          else keep (lru_pop peer_id cache)
      | (None, cache) => keep cache
      end
  end.

(** [add_new_peers] *)
Definition add_new_peers (new_peer_ids : list PeerId) (new_peer_info : gmap PeerId PeerInfo)
    : gossip bool :=
  let* now := gets wd_unix_seconds in
  let* filtered_peers := holding Write ExpiryCacheLock (act_out (fun w =>
    let (r, cache) := filter_expired now new_peer_info new_peer_ids (wd_expiry w) in
    (r, on_expiry (fun _ => cache) w))) in
  add_new_addrs filtered_peers new_peer_info ;;*
  add_peers filtered_peers new_peer_info ;;*
  tret true.

(** [merge_peer_index] *)
Definition merge_peer_index (incoming_peer_info : gmap PeerId PeerInfo) : gossip unit :=
  let* peers_to_add := read_peer_index (fun idx =>
    filter (fun p => contains_peer idx p = false) (fst <$> visit incoming_peer_info)) in
  match peers_to_add with
  | [] => tret tt
  | _ => add_new_peers peers_to_add incoming_peer_info ;;* tret tt
  end.

(** [merge_wallets] *)
Definition merge_wallets (peer_wallets : gmap WalletIdentifier (gset PeerId)) : gossip unit :=
  holding Read WalletIndexLock (holding Read PeerIndexLock
    (tfor (visit peer_wallets) (fun p => modify (fun w =>
       on_state (on_wallet_index (merge_metadata p.1
         (filter (fun replica => contains_peer (wd_peer_index w) replica = true) p.2))) w)))).

(** [merge_order_book]; the guard of the peer index is held while the request is sent. *)
Definition merge_order_book (incoming_orders : list (OrderIdentifier * ClusterId)) : gossip unit :=
  let* new_orders := read_order_book (fun b =>
    filter (fun p => contains_order b p.1 = false) incoming_orders) in
  tfor new_orders (fun p =>
    holding Read PeerIndexLock (
      let* sampled := gets (fun w => sample_cluster_peer gen_range (wd_peer_index w) p.2) in
      match sampled with
      | Some peer_id => send_gossip (Request peer_id (OrderInfoReq p.1))
      | None => tret tt
      end)).

(** [merge_state_from_message] *)
Fixpoint parse_known_peers (known_peers : list (string * PeerInfo)) (acc : gmap PeerId PeerInfo)
    : outcome GossipError (gmap PeerId PeerInfo) :=
  match known_peers with
  | [] => Ret acc
  | (str_peer_id, peer_info) :: rest =>
      match parse_peer_id str_peer_id with
      | Some peer_id => parse_known_peers rest (<[peer_id := peer_info]> acc)
      | None => Fail ParseError
      end
  end.

Definition merge_state_from_message (message : HeartbeatMessage) : gossip unit :=
  let* incoming_peer_info := Done (parse_known_peers (visit (hb_known_peers message)) ∅) in
  merge_peer_index incoming_peer_info ;;*
  merge_wallets (hb_managed_wallets message) ;;*
  merge_order_book (hb_orders message).

(** [maybe_expire_peer] *)
Definition maybe_expire_peer (peer_id : PeerId) : gossip unit :=
  let* now := gets wd_unix_seconds in
  let* peer_info := read_peer_index (fun idx => get_peer_info idx peer_id) in
  match peer_info with
  | None => tret tt
  | Some peer_info =>
      let* cluster := local_cluster_id in
      let same_cluster := bool_decide (pi_cluster_id peer_info = cluster) in
      if (now <? pi_last_heartbeat peer_info)%Z then tpanic else
      let last_heartbeat := (now - pi_last_heartbeat peer_info)%Z in
      if same_cluster && (last_heartbeat <? CLUSTER_HEARTBEAT_FAILURE_MS / 1000)%Z then tret tt
      else if negb same_cluster && (last_heartbeat <? HEARTBEAT_FAILURE_MS / 1000)%Z then tret tt
      else
        remove_peer_from_state peer_id ;;*
        holding Write ExpiryCacheLock (modify (on_expiry (lru_push peer_id now)))
  end.

(** [build_heartbeat_message] *)
Definition build_heartbeat_message : gossip HeartbeatMessage := construct_heartbeat peer_to_string.

(** [send_heartbeat] *)
Definition send_heartbeat (recipient_peer_id : PeerId) : gossip unit :=
  let* local := local_peer_id in
  if bool_decide (recipient_peer_id = local) then tret tt else
  let* message := build_heartbeat_message in
  send_gossip (Request recipient_peer_id (HeartbeatReq message)) ;;*
  maybe_expire_peer recipient_peer_id.
(** * Timers *)

(** The wait period of [HeartbeatTimer::new], in nanoseconds; the cast keeps 32 bits. *)
Definition NANOS_PER_MILLI : Z := 1000000.
Definition HEARTBEAT_INTERVAL_MS : Z := 10000.
Definition CLUSTER_HEARTBEAT_INTERVAL_MS : Z := 3000.

Definition wait_period (interval_ms : Z) : Z :=
  (interval_ms / 1000 * 10 ^ 9 + (interval_ms mod 1000 * NANOS_PER_MILLI) mod 2 ^ 32)%Z.

(** The end of an iteration: the next index and the time to sleep.  Division of the period
    by the number of peers, as 32 bits, panics when that is zero. *)
Definition timer_advance (period : Z) (peer_index peer_count : nat) : gossip (nat * Z) :=
  let next := if peer_count <=? S peer_index then 0 else S peer_index in
  let count := (Z.of_nat peer_count mod 2 ^ 32)%Z in
  if (count =? 0)%Z then tpanic else tret (next, (period / count)%Z).

(** One iteration of [inter_cluster_execution_loop] *)
Definition inter_cluster_tick (period : Z) (peer_index : nat) : gossip (nat * Z) :=
  let* next := holding Read PeerIndexLock (gets (fun w =>
    (peers_len (wd_peer_index w),
     match peers_nth (wd_peer_index w) peer_index with
     | Some info => if bool_decide (pi_cluster_id info <> wd_local_cluster w) then Some (pi_peer_id info) else None
     | None => None
     end))) in
  match next.2 with
  | Some peer_id => send_gossip_job TimerFailed (JobExecuteHeartbeat peer_id)
  | None => tret tt
  end ;;*
  timer_advance period peer_index next.1.

(** One iteration of [intra_cluster_execution_loop] *)
Definition intra_cluster_tick (period : Z) (peer_index : nat) : gossip (nat * Z) :=
  let* cluster := local_cluster_id in
  let* known_cluster_peers := read_peer_index (fun idx => get_all_cluster_peers idx cluster) in
  let* local := local_peer_id in
  match known_cluster_peers !! peer_index with
  | Some peer_id =>
      if bool_decide (peer_id <> local) then send_gossip_job TimerFailed (JobExecuteHeartbeat peer_id)
      else tret tt
  | None => tret tt
  end ;;*
  timer_advance period peer_index (length known_cluster_peers).

(** [n] iterations of a loop, with the time slept *)
Fixpoint timer_loop (tick : nat -> gossip (nat * Z)) (n peer_index : nat) : gossip (nat * Z) :=
  match n with
  | 0 => tret (peer_index, 0%Z)
  | S n' =>
      let* r := tick peer_index in
      let* r' := timer_loop tick n' r.1 in
      tret (r'.1, (r.2 + r'.2)%Z)
  end.

(** * The server *)

(** [warmup_then_join_cluster]; the local peer must be in the index. *)
Definition warmup_then_join_cluster (local_addr : Multiaddr) : gossip unit :=
  let* local := local_peer_id in
  let* cluster := local_cluster_id in
  let* info := read_peer_index (fun idx => get_peer_info idx local) in
  match info with
  | None => tpanic
  | Some peer_info =>
      send_gossip (Pubsub (get_management_topic cluster) (ClusterManagement cluster
        (Join {| join_peer_id := local; join_peer_info := peer_info; join_addr := local_addr |})))
  end.

(** The thread that it spawns, after its sleep *)
Definition warmup_timer : gossip unit :=
  let* r := attempt (send_gossip (ManagementMessage GossipWarmupComplete)) in
  match r with Ret _ => tret tt | _ => tpanic end.

(** [bootstrap_into_network] *)
Definition bootstrap_into_network (bootstrap_servers : list (PeerId * Multiaddr)) (local_addr : Multiaddr)
    : gossip unit :=
  tfor bootstrap_servers (fun s => send_gossip (ManagementMessage (NewAddr s.1 s.2))) ;;*
  let* req := local_peer_info in
  tfor bootstrap_servers (fun s => send_gossip (Request s.1 (BootstrapReq req))) ;;*
  let* peer_ids := read_peer_index get_all_peer_ids in
  tfor peer_ids (fun peer => send_gossip_job GossipSendMessage (JobExecuteHeartbeat peer)) ;;*
  warmup_then_join_cluster local_addr.

(** [a.and(b)] on results *)
Definition and_ {A B} (a : outcome GossipError A) (b : outcome GossipError B) : outcome GossipError B :=
  match a with Ret _ => b | Fail e => Fail e | Panic => Panic end.

(** [handle_job]: an error is logged. *)
Definition run_job (job : GossipServerJob) : gossip unit :=
  match job with
  | JobBootstrap peer_info response_channel =>
      let peer_id := pi_peer_id peer_info in
      let* res := attempt (add_new_peers [peer_id] {[peer_id := peer_info]} ;;* tret tt) in
      let* heartbeat_resp := build_heartbeat_message in
      let* sent := attempt (send_gossip (Response response_channel (HeartbeatResp heartbeat_resp))) in
      Done (and_ sent res)
  | JobExecuteHeartbeat peer_id => send_heartbeat peer_id
  | JobHandleHeartbeatReq _ message channel =>
      let* heartbeat_resp := build_heartbeat_message in
      let* res := attempt (send_gossip (Response channel (HeartbeatResp heartbeat_resp))) in
      let* merged := attempt (merge_state_from_message message) in
      Done (and_ merged res)
  | JobHandleHeartbeatResp peer_id message =>
      record_peer_heartbeat peer_id ;;*
      merge_state_from_message message
  | JobCluster job => handle_cluster_management_job job
  | JobOrderBookManagement management_message => handle_order_book_management_job management_message
  end.

Definition handle_job {E} (job : GossipServerJob) : action E unit :=
  let* _ := attempt (run_job job) in tret tt.
(** * Every handler respects the invariant of the global state *)

Lemma send_network_respects {E} (e : E) m : respects relayer_ok (send_network e m).
Proof. unfold send_network. apply respects_act_out. intros s H. case_match; [by apply (relayer_ok_same s)|done]. Qed.
Lemma send_gossip_job_respects {E} (e : E) j : respects relayer_ok (send_gossip_job e j).
Proof. unfold send_gossip_job. apply respects_act_out. intros s H. case_match; [by apply (relayer_ok_same s)|done]. Qed.
Lemma local_peer_info_respects {E} I : respects I (local_peer_info (E := E)).
Proof. unfold local_peer_info. respects_split. Qed.
#[local] Hint Resolve send_network_respects send_gossip_job_respects local_peer_info_respects : respects.

Lemma send_gossip_respects m : respects relayer_ok (send_gossip m).
Proof. apply send_network_respects. Qed.
#[local] Hint Resolve send_gossip_respects : respects.

Lemma check_nullifier_unused_respects I n : respects I (check_nullifier_unused n).
Proof. unfold check_nullifier_unused. respects_split. Qed.
Lemma check_merkle_root_valid_respects I n : respects I (check_merkle_root_valid n).
Proof. unfold check_merkle_root_valid. respects_split. Qed.
#[local] Hint Resolve check_nullifier_unused_respects check_merkle_root_valid_respects : respects.

Lemma verify_valid_commitments_proof_respects I p : respects I (verify_valid_commitments_proof p).
Proof. unfold verify_valid_commitments_proof. respects_split. Qed.
Lemma request_order_witness_respects i : respects relayer_ok (request_order_witness i).
Proof. unfold request_order_witness, local_peer_id, local_cluster_id. respects_split. Qed.
#[local] Hint Resolve verify_valid_commitments_proof_respects request_order_witness_respects : respects.

Lemma order_book_job_respects j : respects relayer_ok (handle_order_book_management_job j).
Proof.
  unfold handle_order_book_management_job, handle_order_info_request, handle_order_info_response,
    handle_new_order, handle_new_validity_proof, handle_validity_witness_request,
    handle_validity_witness_response, local_cluster_id.
  respects_split. apply relayer_ok_book; [|done]. intros. by apply book_attach_witness.
Qed.

Lemma cluster_job_respects j : respects relayer_ok (handle_cluster_management_job j).
Proof.
  unfold handle_cluster_management_job, handle_cluster_join_job, handle_replicate_request,
    handle_add_replica_job, handle_share_validity_proofs_job, handle_updated_validity_proof,
    add_peer_to_cluster, send_replicate_request, add_single_peer, local_cluster_id, local_peer_id.
  respects_split.
Qed.

Lemma add_new_peers_respects ids infos : respects relayer_ok (add_new_peers ids infos).
Proof.
  unfold add_new_peers, add_new_addrs. respects_split.
  destruct (filter_expired _ _ _ _). by apply (relayer_ok_same s).
Qed.
#[local] Hint Resolve order_book_job_respects cluster_job_respects add_new_peers_respects : respects.

Lemma merge_state_respects m : respects relayer_ok (merge_state_from_message m).
Proof.
  unfold merge_state_from_message, merge_peer_index, merge_wallets, merge_order_book.
  respects_split. by apply relayer_ok_wallets.
Qed.
#[local] Hint Resolve merge_state_respects : respects.

Lemma send_heartbeat_respects p : respects relayer_ok (send_heartbeat p).
Proof.
  unfold send_heartbeat, build_heartbeat_message, maybe_expire_peer, local_peer_id, local_cluster_id.
  respects_split. by apply (relayer_ok_same s).
Qed.
#[local] Hint Resolve send_heartbeat_respects : respects.

Lemma record_peer_heartbeat_respects p : respects relayer_ok (record_peer_heartbeat p).
Proof.
  unfold record_peer_heartbeat. respects_split. apply relayer_ok_peers; [|done].
  intros idx Hidx. by eapply peers_step_ok, Hidx; apply step_heartbeat.
Qed.
#[local] Hint Resolve record_peer_heartbeat_respects : respects.

Lemma handle_job_respects {E} j : respects relayer_ok (handle_job (E := E) j).
Proof. unfold handle_job, run_job, build_heartbeat_message. respects_split. Qed.

Lemma inter_cluster_tick_respects p i : respects relayer_ok (inter_cluster_tick p i).
Proof. unfold inter_cluster_tick, timer_advance. respects_split. Qed.
Lemma intra_cluster_tick_respects p i : respects relayer_ok (intra_cluster_tick p i).
Proof. unfold intra_cluster_tick, timer_advance, local_cluster_id, local_peer_id. respects_split. Qed.

Lemma bootstrap_respects servers addr : respects relayer_ok (bootstrap_into_network servers addr).
Proof.
  unfold bootstrap_into_network, warmup_then_join_cluster, local_cluster_id, local_peer_id. respects_split.
Qed.
End gossip.

#[export] Hint Resolve send_network_respects send_gossip_job_respects handle_job_respects
  inter_cluster_tick_respects intra_cluster_tick_respects bootstrap_respects : respects.

(** * Every handler takes its locks in order *)

Section locks.
  Context `{F : Foreign} `{HO : HashOrder}.
  Context {LC : LruCache (OrderIdentifier * OrderIdentifier) HandshakeCacheState}.
  Context {LE : LruCache PeerId Z}.
  Context {O : Oracles} {G : GossipOracles}.

#[local] Notation in_order := (ordered rank [] []).

Lemma send_gossip_ordered cur m : ordered rank cur cur (send_gossip m).
Proof. done. Qed.
#[local] Hint Resolve send_gossip_ordered : ordered.

Lemma local_peer_info_ordered : in_order (local_peer_info (E := GossipError)).
Proof. unfold local_peer_info. ordered_split. Qed.
Lemma check_nullifier_unused_ordered n : in_order (check_nullifier_unused n).
Proof. unfold check_nullifier_unused. ordered_split. Qed.
Lemma check_merkle_root_valid_ordered n : in_order (check_merkle_root_valid n).
Proof. unfold check_merkle_root_valid. ordered_split. Qed.
#[local] Hint Resolve local_peer_info_ordered check_nullifier_unused_ordered
  check_merkle_root_valid_ordered : ordered.
Lemma verify_valid_commitments_proof_ordered p : in_order (verify_valid_commitments_proof p).
Proof. unfold verify_valid_commitments_proof. ordered_split. Qed.
#[local] Hint Resolve verify_valid_commitments_proof_ordered : ordered.

Lemma order_book_job_ordered j : in_order (handle_order_book_management_job j).
Proof.
  unfold handle_order_book_management_job, handle_order_info_request, handle_order_info_response,
    handle_new_order, handle_new_validity_proof, handle_validity_witness_request,
    handle_validity_witness_response, request_order_witness. ordered_split.
Qed.

Lemma cluster_job_ordered j : in_order (handle_cluster_management_job j).
Proof.
  unfold handle_cluster_management_job, handle_cluster_join_job, handle_replicate_request,
    handle_add_replica_job, handle_share_validity_proofs_job, handle_updated_validity_proof,
    add_peer_to_cluster, send_replicate_request, add_single_peer. ordered_split.
Qed.

Lemma add_new_peers_ordered ids infos : in_order (add_new_peers ids infos).
Proof. unfold add_new_peers, add_new_addrs. ordered_split. Qed.
#[local] Hint Resolve order_book_job_ordered cluster_job_ordered add_new_peers_ordered : ordered.

Lemma merge_state_ordered m : in_order (merge_state_from_message m).
Proof.
  unfold merge_state_from_message, merge_peer_index, merge_wallets, merge_order_book. ordered_split.
Qed.
Lemma send_heartbeat_ordered p : in_order (send_heartbeat p).
Proof. unfold send_heartbeat, build_heartbeat_message, maybe_expire_peer. ordered_split. Qed.
#[local] Hint Resolve merge_state_ordered send_heartbeat_ordered : ordered.

Lemma handle_job_ordered {E} j : in_order (handle_job (E := E) j).
Proof. unfold handle_job, run_job, build_heartbeat_message, record_peer_heartbeat. ordered_split. Qed.
Lemma inter_cluster_tick_ordered p i : in_order (inter_cluster_tick p i).
Proof. unfold inter_cluster_tick, timer_advance. ordered_split. Qed.
Lemma intra_cluster_tick_ordered p i : in_order (intra_cluster_tick p i).
Proof. unfold intra_cluster_tick, timer_advance. ordered_split. Qed.
Lemma bootstrap_ordered servers addr : in_order (bootstrap_into_network servers addr).
Proof. unfold bootstrap_into_network, warmup_then_join_cluster. ordered_split. Qed.
End locks.

#[export] Hint Resolve handle_job_ordered inter_cluster_tick_ordered intra_cluster_tick_ordered
  bootstrap_ordered : ordered.
