(* ===== verification/GossipProperties.v ===== *)
(** What the gossip server guarantees: which proofs it accepts, when peers are expired and
    how long they stay out, and how often every peer is sent a heartbeat. *)

From Stdlib Require Import Zmod.
From stdpp Require Import gmap strings.
From S2P Require Import Prelude Async LockOrder Primality Field Starknet Merkle RelayerTypes.
From S2P Require Import OrderBook PeerIndex WalletIndex Messages Lru HandshakeCache World RelayerState Gossip.

#[global] Set Default Goal Selector "!".
#[local] Open Scope task_scope.

Section gossip.
  Context `{F : Foreign} `{HO : HashOrder}.
  Context {LC : LruCache (OrderIdentifier * OrderIdentifier) HandshakeCacheState}.
  Context {LE : LruCache PeerId Z}.
  Context {O : Oracles} {G : GossipOracles}.

(** * Proofs *)

Definition felt_of (a : Scalar) : Felt := Zmod.of_Z _ (Zmod.to_Z a).

Lemma to_felt_spec a : to_felt a = Ret (felt_of a).
Proof.
  unfold to_felt, biguint_to_starknet_felt, felt_of. rewrite scalar_to_biguint_spec.
  pose proof starknet_prime_bound. pose proof (Z.mod_pos_bound (Zmod.to_Z a) starknet_prime ltac:(done)).
  rewrite biguint_to_scalar_small by (change (256 ^ 32)%Z with (2 ^ 256)%Z in *; lia).
  rewrite scalar_to_felt_spec, to_Z_small by lia.
  destruct (Z.ltb_spec (Zmod.to_Z a mod starknet_prime)%Z starknet_prime); [|lia].
  f_equal. by rewrite Zmod.of_Z_mod.
Qed.

(** The answers that a proof needs: the nullifier is not used, the root can be looked up, and
    the proof verifies. *)
Definition acceptable (now : Z) (p : ValidCommitmentsBundle) : Prop :=
  (exists rest, call_nullifier_used now (felt_of (st_nullifier (vc_statement p))) = Some (Zmod.zero :: rest)) /\
  is_Some (call_root_in_history now (felt_of (st_merkle_root (vc_statement p)))) /\
  verify_singleprover_proof p = Ret tt.

Lemma verify_exec p w :
  exists r, exec (verify_valid_commitments_proof p) w = (r, w) /\
    (r = Ret tt <-> acceptable (wd_unix_seconds w) p).
Proof.
  unfold verify_valid_commitments_proof, check_nullifier_unused, check_merkle_root_valid, acceptable.
  rewrite !to_felt_spec, !exec_bind. cbn.
  destruct (call_nullifier_used _ _) as [[|f rest]|]; cbn;
    [eexists; split; [reflexivity|naive_solver]| |eexists; split; [reflexivity|naive_solver]].
  destruct (Zmod.eqb_spec f Zmod.zero) as [->|Hf]; cbn; [|eexists; split; [reflexivity|naive_solver]].
  destruct (call_root_in_history _ _) as [res|]; cbn;
    [|eexists; split; [reflexivity|]; split; [done|]; by intros (_ & [? ?] & _)].
  destruct (verify_singleprover_proof p) as [[]|e|]; cbn; eexists; (split; [reflexivity|]); naive_solver.
Qed.

(** Storing a proof, with the order first when it is not known. *)
Lemma store_proof_order b i n c l p :
  exists o,
    get_order_info (update_order_validity_proof i p
      (if contains_order b i then b else add_order (order_new i n c l) b)) i = Some o /\
    no_state o = Verified /\ no_valid_commit_proof o = Some p /\
    no_match_nullifier o = st_nullifier (vc_statement p).
Proof.
  assert (exists o, get_order_info (if contains_order b i then b else add_order (order_new i n c l) b) i = Some o)
    as [o Ho].
  { unfold contains_order, get_order_info. case_bool_decide as Hc; [destruct Hc; eauto|].
    eexists. unfold add_order. destruct l; apply lookup_insert_eq. }
  eexists. split; [by apply update_proof_order|done].
Qed.

(** C13: A proof that is announced for another cluster is accepted exactly when its nullifier
    is not used on chain, the root can be looked up and the proof verifies; then the order
    is verified, carries the proof and has the nullifier of its statement.  In every other
    case the handler fails and nothing changes. *)
Theorem validity_proof_gate w i c p :
  c <> wd_local_cluster w ->
  let (r, w') := exec (handle_new_validity_proof i c p) w in
  (r = Ret tt <-> acceptable (wd_unix_seconds w) p) /\
  (r = Ret tt -> exists o, get_order_info (wd_order_book w') i = Some o /\ no_state o = Verified /\
     no_valid_commit_proof o = Some p /\ no_match_nullifier o = st_nullifier (vc_statement p)) /\
  (r <> Ret tt -> w' = w).
Proof.
  intros Hc. destruct (verify_exec p w) as (r & Hr & Hiff).
  unfold handle_new_validity_proof, local_cluster_id.
  rewrite exec_bind. cbn [exec gets tret]. rewrite bool_decide_eq_false_2 by done. cbn [negb].
  rewrite exec_bind, Hr. destruct r as [[]|e|]; cbn [exec tret];
    [|split_and!; [naive_solver|done|done]|split_and!; [naive_solver|done|done]].
  destruct (store_proof_order (wd_order_book w) i (st_nullifier (vc_statement p)) c false p) as (o & Ho).
  rewrite exec_bind. unfold read_order_book. rewrite exec_holding. cbn [exec gets tret].
  destruct (contains_order (wd_order_book w) i) eqn:Hk; cbn -[update_order_validity_proof add_order].
  all: split_and!; [naive_solver|intros _; exists o; exact Ho|done].
Qed.

(** C14: The cluster of an announced proof is the sender's own word, in a message that needs
    no signature: under the name of the local cluster any proof is stored as verified,
    whatever the contract and the verifier would say of it. *)
Theorem claimed_local_proof_unchecked w i p :
  ch_open (wd_network w) = true ->
  pubsub_requires_cluster_auth (OrderBookManagement (OrderProofUpdated i (wd_local_cluster w) p)) = false /\
  exists w', exec (handle_new_validity_proof i (wd_local_cluster w) p) w = (Ret tt, w') /\
    exists o, get_order_info (wd_order_book w') i = Some o /\ no_state o = Verified /\
      no_valid_commit_proof o = Some p.
Proof.
  intros Hopen. split; [done|].
  destruct (store_proof_order (wd_order_book w) i (st_nullifier (vc_statement p)) (wd_local_cluster w) true p)
    as (o & H1 & H2 & H3 & _).
  unfold handle_new_validity_proof, local_cluster_id, read_order_book.
  rewrite exec_bind. cbn [exec gets tret]. rewrite bool_decide_eq_true_2 by done. cbn [negb].
  rewrite exec_bind. cbn [exec gets tret]. rewrite exec_bind, exec_holding. cbn [exec gets tret].
  destruct (contains_order (wd_order_book w) i) eqn:Hk;
    cbn -[update_order_validity_proof add_order]; rewrite Hopen; eexists; (split; [reflexivity|]);
    exists o; (split; [exact H1|done]).
Qed.

(** A peer that is asked about an order can answer with an order of another cluster that
    is marked verified and has no proof at all; the order becomes a candidate for
    handshakes. *)
Theorem unproven_order_scheduled w o :
  no_state o = Verified -> no_valid_commit_proof o = None -> no_cluster o <> wd_local_cluster w ->
  no_id o ∉ local_orders (wd_order_book w) ->
  exists w', exec (handle_order_info_response o) w = (Ret tt, w') /\
    no_id o ∈ get_nonlocal_verified_orders (wd_order_book w') /\
    has_validity_proof (wd_order_book w') (no_id o) = false.
Proof.
  intros Hst Hp Hc Hl. unfold handle_order_info_response, local_cluster_id.
  rewrite exec_bind. cbn [exec gets tret]. rewrite Hp, bool_decide_eq_false_2 by done.
  eexists. split; [reflexivity|].
  match goal with |- context [wd_order_book ?w'] =>
    change (wd_order_book w') with (add_order (with_local o false) (wd_order_book w)) end.
  unfold add_order, get_nonlocal_verified_orders, has_validity_proof, with_local; cbn [no_local no_state no_id].
  rewrite decide_True by done. rewrite add_verified_order_eq. split.
  - apply elem_of_visit_set. cbn. set_solver.
  - cbn -[insert lookup]. rewrite lookup_insert_eq. cbn. by rewrite Hp.
Qed.

(** * Expiry *)

Section expiry.
  Context {LL : LruCacheLaws PeerId Z}.

(** The peer was expired at [t], its invisibility window has not elapsed, and it is not in
    the index. *)
Record out_of_sight (p : PeerId) (t : Z) (w : World) : Prop := {
  oos_cached : lru_peek (wd_expiry w) p = Some t;
  oos_window : (t <= wd_unix_seconds w <= t + EXPIRY_INVISIBILITY_WINDOW_MS / 1000)%Z;
  oos_peer : peer_map (wd_peer_index w) !! p = None;
}.

(** Information about [p] is only given under its own identifier. *)
Definition honest_infos (p : PeerId) (infos : gmap PeerId PeerInfo) : Prop :=
  forall q info, infos !! q = Some info -> pi_peer_id info = p -> q = p.

Lemma peek_get (p k : PeerId) c : lru_peek (lru_get k c).2 p = lru_peek c p.
Proof.
  rewrite !peek_entries, entries_get. destruct (assoc (lru_entries c) k) as [v|] eqn:Hk; [|done].
  cbn. case_decide as Hd; [by subst|]. by rewrite assoc_others_ne by done.
Qed.

Lemma peek_pop (p k : PeerId) c : p <> k -> lru_peek (lru_pop k c) p = lru_peek c p.
Proof. intros. rewrite !peek_entries, entries_pop. by rewrite assoc_others_ne. Qed.

Lemma filter_expired_hides now infos p t : 
  (t <= now <= t + EXPIRY_INVISIBILITY_WINDOW_MS / 1000)%Z ->
  forall l c, lru_peek c p = Some t ->
  lru_peek (filter_expired now infos l c).2 p = Some t /\
  forall l', (filter_expired now infos l c).1 = Ret l' -> p ∉ l'.
Proof.
  intros Hw l. induction l as [|q l IH]; intros c Hc; cbn [filter_expired].
  { split; [done|]. cbn. intros l' [= <-]. by apply not_elem_of_nil. }
  pose proof (peek_get p q c) as Hg. pose proof (get_result q c) as Hr.
  destruct (lru_get q c) as [[e|] c1]; cbn in Hg, Hr; rewrite Hc in Hg.
  - destruct (Z.ltb_spec now e); [done|]. case_match eqn:Hin; [by apply IH|].
    assert (Hq : p <> q).
    { intros <-. rewrite peek_entries in Hc. rewrite Hc in Hr. injection Hr as ->.
      apply Z.leb_gt in Hin. lia. }
    destruct (IH (lru_pop q c1)) as [H1 H2]; [by rewrite peek_pop|].
    destruct (filter_expired now infos l (lru_pop q c1)) as [[rest| |] c2]; cbn in *; [|done|done].
    split; [done|]. intros l' [= <-]. specialize (H2 _ eq_refl). case_bool_decide; [|done]. set_solver.
  - assert (Hq : p <> q) by (intros <-; rewrite peek_entries in Hc; congruence).
    destruct (IH c1 Hg) as [H1 H2].
    destruct (filter_expired now infos l c1) as [[rest| |] c2]; cbn in *; [|done|done].
    split; [done|]. intros l' [= <-]. specialize (H2 _ eq_refl). case_bool_decide; [|done]. set_solver.
Qed.

Lemma add_listed_hides now ids infos p idx :
  honest_infos p infos -> p ∉ ids -> peer_map idx !! p = None ->
  peer_map (add_listed_peers now ids infos idx) !! p = None.
Proof.
  intros Hh. unfold add_listed_peers. revert idx. induction ids as [|q ids IH]; intros idx Hp Hn; [done|].
  cbn. apply IH; [set_solver|]. destruct (infos !! q) as [info|] eqn:Hq; [|done].
  destruct (verify_cluster_auth_sig info); [|done]. cbn. case_match; [done|].
  rewrite lookup_insert_ne; [done|]. intros He. apply Hp. rewrite (Hh q info Hq He). by left.
Qed.

Lemma parse_honest p l acc infos :
  (forall str info q, (str, info) ∈ l -> parse_peer_id str = Some q -> pi_peer_id info = p -> q = p) ->
  honest_infos p acc -> parse_known_peers l acc = Ret infos -> honest_infos p infos.
Proof.
  revert acc; induction l as [|[str info] l IH]; intros acc Hl Hacc; cbn; [by intros [= <-]|].
  destruct (parse_peer_id str) as [q|] eqn:Hq; [|done]. apply IH; [intros; eapply Hl; [by right|done|done]|].
  intros q' info' [[<- <-]|[_ H]]%lookup_insert_Some Hi; [|by eapply Hacc].
  eapply Hl; [by left|done|done].
Qed.

Lemma out_same p t w w' :
  wd_expiry w' = wd_expiry w -> wd_unix_seconds w' = wd_unix_seconds w -> wd_peer_index w' = wd_peer_index w ->
  out_of_sight p t w -> out_of_sight p t w'.
Proof. intros H1 H2 H3 [? ? ?]. split; by rewrite ?H1, ?H2, ?H3. Qed.

Lemma add_new_peers_hides p t ids infos :
  honest_infos p infos -> respects (out_of_sight p t) (add_new_peers ids infos).
Proof.
  intros Hh. unfold add_new_peers. cbn -[add_new_addrs add_peers]. intros s Hs. split; [done|].
  intros s1 Hs1.
  destruct (filter_expired_hides (wd_unix_seconds s) infos p t (oos_window _ _ _ Hs) ids (wd_expiry s1)
    (oos_cached _ _ _ Hs1)) as [H1 H2].
  destruct (filter_expired _ infos ids (wd_expiry s1)) as [[l| |] c]; cbn -[add_new_addrs add_peers] in *;
    (split; [split; [done|apply Hs1|apply Hs1]|]); [|done|done].
  apply respects_bind.
  - unfold add_new_addrs. apply respects_for. intros q. case_match; [|done].
    apply respects_act_out. intros s2 Hs2. case_match; [by apply (out_same p t s2)|done].
  - intros _. apply respects_bind; [|done]. unfold add_peers. apply respects_holding, respects_modify.
    intros s2 [Hc Hw Hp]. split; [done|done|]. apply add_listed_hides; auto.
Qed.

(** The jobs that other peers cause, with heartbeats that do not give the information about
    [p] under another name, and without a join message of [p] itself. *)
Definition remote_job (p : PeerId) (job : GossipServerJob) : Prop :=
  match job with
  | JobHandleHeartbeatReq _ message _ | JobHandleHeartbeatResp _ message =>
      forall str info q, hb_known_peers message !! str = Some info -> parse_peer_id str = Some q ->
        pi_peer_id info = p -> q = p
  | JobCluster (ClusterJoinRequest _ message) => pi_peer_id (join_peer_info message) <> p
  | JobExecuteHeartbeat _ => False
  | JobBootstrap _ _ | JobCluster _ | JobOrderBookManagement _ => True
  end.

Section window.
  Context (p : PeerId) (t : Z).

#[local] Notation hides := (respects (out_of_sight p t)).

Lemma send_gossip_hides m : hides (send_gossip m).
Proof. apply respects_act_out. intros s Hs. case_match; [by apply (out_same p t s)|done]. Qed.

Lemma state_hides f w : (forall st, rs_peer_index (f st) = rs_peer_index st) ->
  out_of_sight p t w -> out_of_sight p t (on_state f w).
Proof. intros Hf. apply out_same; [done|done|]. apply Hf. Qed.

Lemma write_order_book_hides {E} f : hides (write_order_book (E := E) f).
Proof. apply respects_holding, respects_modify. intros s. by apply state_hides. Qed.

Lemma add_order_to_state_hides {E} o : hides (add_order_to_state (E := E) o).
Proof.
  apply respects_bind; [|intros _; apply write_order_book_hides].
  apply respects_holding, respects_modify. intros s. by apply state_hides.
Qed.

Lemma add_order_validity_proof_hides {E} i b : hides (add_order_validity_proof (E := E) i b).
Proof. apply write_order_book_hides. Qed.

Lemma update_wallet_index_hides {E} f : hides (update_wallet_index (E := E) f).
Proof. apply respects_holding, respects_modify. intros s. by apply state_hides. Qed.

Lemma add_wallets_hides {E} ws : hides (add_wallets (E := E) ws).
Proof. unfold add_wallets. respects_split. by apply state_hides. Qed.

#[local] Hint Resolve send_gossip_hides add_order_to_state_hides add_order_validity_proof_hides
  update_wallet_index_hides add_wallets_hides check_nullifier_unused_respects
  check_merkle_root_valid_respects verify_valid_commitments_proof_respects : respects.

Lemma order_book_job_hides j : hides (handle_order_book_management_job j).
Proof.
  unfold handle_order_book_management_job, handle_order_info_request, handle_order_info_response,
    handle_new_order, handle_new_validity_proof, handle_validity_witness_request,
    handle_validity_witness_response, request_order_witness, local_cluster_id, local_peer_id.
  respects_split. by apply state_hides.
Qed.

Lemma add_single_peer_hides {E} q info :
  pi_peer_id info <> p -> hides (add_single_peer (E := E) q info).
Proof.
  intros Hi. apply respects_holding, respects_modify. intros s [Hc Hw Hp]. split; [done|done|].
  change (peer_map (add_listed_peers (wd_unix_seconds s) [q] {[q := info]} (wd_peer_index s)) !! p = None).
  cbn. rewrite lookup_singleton_eq. case_match; [|done]. cbn. case_match; [done|].
  by rewrite lookup_insert_ne.
Qed.

Lemma cluster_job_hides j : remote_job p (JobCluster j) -> hides (handle_cluster_management_job j).
Proof.
  intros Hj. destruct j as [| c [q info addr]| | |]; cbn in Hj.
  2: {
    unfold handle_cluster_management_job, handle_cluster_join_job, add_peer_to_cluster, send_replicate_request,
      local_cluster_id. cbn [join_peer_id join_peer_info].
    pose proof (fun E => add_single_peer_hides (E := E) q info Hj). respects_split; auto. }
  all: unfold handle_cluster_management_job, handle_replicate_request, handle_add_replica_job,
    handle_share_validity_proofs_job, handle_updated_validity_proof, local_cluster_id, local_peer_id.
  all: respects_split.
Qed.

Lemma merge_state_hides m :
  (forall str info q, hb_known_peers m !! str = Some info -> parse_peer_id str = Some q ->
     pi_peer_id info = p -> q = p) -> hides (merge_state_from_message m).
Proof.
  intros Hm. unfold merge_state_from_message.
  destruct (parse_known_peers _ ∅) as [infos| |] eqn:Hparse; [|done|done]. cbn [tbind then_].
  assert (Hh : honest_infos p infos).
  { eapply parse_honest; [|intros q info Hq; by rewrite lookup_empty in Hq|exact Hparse].
    intros str info q Hin. apply Hm. by apply elem_of_visit in Hin. }
  pose proof (fun ids => add_new_peers_hides p t ids infos Hh).
  unfold merge_peer_index, merge_wallets, merge_order_book. respects_split; auto. by apply state_hides.
Qed.

Lemma remote_job_hides {E} j : remote_job p j -> hides (handle_job (E := E) j).
Proof.
  intros Hj. pose proof order_book_job_hides. pose proof cluster_job_hides. pose proof merge_state_hides.
  unfold handle_job. apply respects_bind; [|done]. apply respects_attempt.
  destruct j as [info ch| | |q m ch|q m|]; cbn in Hj; unfold run_job, build_heartbeat_message; try done; auto.
  - assert (hides (add_new_peers [pi_peer_id info] {[pi_peer_id info := info]})).
    { apply add_new_peers_hides. by intros q i [<- <-]%lookup_singleton_Some. }
    respects_split.
  - respects_split; auto.
  - unfold record_peer_heartbeat. respects_split; auto.
    destruct H2 as [Hc Hw Hp]. split; [done|done|]. cbn. unfold record_heartbeat.
    change (rs_peer_index (wd_state s)) with (wd_peer_index s).
    case_match; [|done]. cbn. rewrite lookup_insert_ne; [done|]. intros ->. congruence.
Qed.
End window.


Lemma build_heartbeat_exec w : exists m, exec build_heartbeat_message w = (Ret m, w).
Proof. by eexists. Qed.

Lemma remove_peer_known idx p info :
  peers_ok idx -> peer_map idx !! p = Some info ->
  exists idx', remove_peer p idx = Ret (Some info, idx') /\ peer_map idx' !! p = None /\
    ~ listed idx' (pi_cluster_id info) p.
Proof.
  intros [H1 H2] Hp. unfold remove_peer. rewrite Hp. destruct (H2 p info Hp) as (X & HX & _).
  rewrite HX. eexists. split; [done|]. split; [apply lookup_delete_eq|].
  intros (Y & HY & Hin). cbn in HY. rewrite lookup_insert_eq in HY. injection HY as <-.
  rewrite (H1 p info Hp) in Hin. set_solver.
Qed.

Lemma remove_peer_exec {E} w p info :
  peers_ok (wd_peer_index w) -> peer_map (wd_peer_index w) !! p = Some info ->
  exists w', exec (remove_peer_from_state (E := E) p) w = (Ret tt, w') /\
    wd_expiry w' = wd_expiry w /\ wd_unix_seconds w' = wd_unix_seconds w /\ wd_network w' = wd_network w /\
    peer_map (wd_peer_index w') !! p = None /\ ~ listed (wd_peer_index w') (pi_cluster_id info) p /\
    wallet_map (wd_wallet_index w') = with_replicas (fun X => X ∖ {[p]}) <$> wallet_map (wd_wallet_index w).
Proof.
  intros Hok Hp. destruct (remove_peer_known _ p info Hok Hp) as (idx' & Hr & H1 & H2).
  unfold remove_peer_from_state. rewrite exec_bind, exec_holding. unfold act_out. cbn -[remove_peer].
  rewrite Hr. eexists. split; [reflexivity|]. done.
Qed.

(** The time without a heartbeat after which a peer is expired, in seconds *)
Definition expiry_age (w : World) (info : PeerInfo) : Z :=
  if decide (pi_cluster_id info = wd_local_cluster w)
  then CLUSTER_HEARTBEAT_FAILURE_MS / 1000 else HEARTBEAT_FAILURE_MS / 1000.

Lemma maybe_expire_exec w p info :
  peers_ok (wd_peer_index w) -> lru_cap (wd_expiry w) <> 0 -> peer_map (wd_peer_index w) !! p = Some info ->
  let age := (wd_unix_seconds w - pi_last_heartbeat info)%Z in
  let (r, w') := exec (maybe_expire_peer p) w in
  wd_network w' = wd_network w /\
  ((age < 0)%Z -> r = Panic /\ wd_state w' = wd_state w) /\
  ((0 <= age < expiry_age w info)%Z -> r = Ret tt /\ wd_state w' = wd_state w) /\
  ((expiry_age w info <= age)%Z -> r = Ret tt /\ out_of_sight p (wd_unix_seconds w) w' /\
     ~ listed (wd_peer_index w') (pi_cluster_id info) p /\
     wallet_map (wd_wallet_index w') = with_replicas (fun X => X ∖ {[p]}) <$> wallet_map (wd_wallet_index w)).
Proof.
  intros Hok Hcap Hp age. unfold maybe_expire_peer, local_cluster_id, read_peer_index.
  rewrite exec_bind. cbn [exec gets tret]. rewrite exec_bind, exec_holding. cbn [exec gets tret].
  unfold get_peer_info. rewrite Hp. rewrite exec_bind. cbn [exec gets tret]. fold age. unfold expiry_age.
  destruct (Z.ltb_spec (wd_unix_seconds w) (pi_last_heartbeat info)) as [Hlt|Hge]; cbn [exec tpanic].
  { split_and!; [done|done|lia|]. intros Hage. exfalso. revert Hage. unfold CLUSTER_HEARTBEAT_FAILURE_MS, HEARTBEAT_FAILURE_MS, age; change (7000 / 1000)%Z with 7%Z; change (20000 / 1000)%Z with 20%Z; case_decide; lia. }
  assert (Hexp : let (r, w') := exec (remove_peer_from_state (E := GossipError) p ;;*
      holding Write ExpiryCacheLock (modify (on_expiry (lru_push p (wd_unix_seconds w))))) w in
    wd_network w' = wd_network w /\ r = Ret tt /\ out_of_sight p (wd_unix_seconds w) w' /\
     ~ listed (wd_peer_index w') (pi_cluster_id info) p /\
     wallet_map (wd_wallet_index w') = with_replicas (fun X => X ∖ {[p]}) <$> wallet_map (wd_wallet_index w)).
  { destruct (remove_peer_exec (E := GossipError) w p info Hok Hp) as (w1 & Hr & H1 & H2 & H3 & H4 & H5 & H6).
    rewrite exec_bind, Hr. cbn. split_and!; [done|done| |done|done].
    split; cbn; [rewrite H1; by apply push_front|rewrite H2; change (EXPIRY_INVISIBILITY_WINDOW_MS / 1000)%Z with 30%Z; lia|done]. }
  destruct (bool_decide_reflect (pi_cluster_id info = wd_local_cluster w)) as [Hc|Hc];
    [rewrite decide_True by done|rewrite decide_False by done]; cbn [negb andb].
  - destruct (Z.ltb_spec age (CLUSTER_HEARTBEAT_FAILURE_MS / 1000)) as [Ha|Ha]; cbn [exec tret].
    + split_and!; [done|lia|done|lia].
    + destruct (exec _ w) as [r w']. destruct Hexp as (Hn & -> & Hrest). split_and!; [done|lia|lia|done].
  - destruct (Z.ltb_spec age (HEARTBEAT_FAILURE_MS / 1000)) as [Ha|Ha]; cbn [exec tret].
    + split_and!; [done|lia|done|lia].
    + destruct (exec _ w) as [r w']. destruct Hexp as (Hn & -> & Hrest). split_and!; [done|lia|lia|done].
Qed.

(** C16: A heartbeat to a peer that has been silent for the failure period of its cluster
    expires it: it leaves the index, the list of its cluster and the replicas of every
    wallet, and its invisibility window begins.  A peer that answered more recently stays,
    and a clock that runs behind the recorded heartbeat makes the job panic. *)
Theorem stale_peer_expired w p info :
  relayer_ok w -> ch_open (wd_network w) = true -> p <> wd_local_peer w -> lru_cap (wd_expiry w) <> 0 ->
  peer_map (wd_peer_index w) !! p = Some info ->
  let age := (wd_unix_seconds w - pi_last_heartbeat info)%Z in
  let (r, w') := exec (send_heartbeat p) w in
  (exists m, wd_network w' = Channel true (ch_sent (wd_network w) ++ [Request p (HeartbeatReq m)])) /\
  ((age < 0)%Z -> r = Panic /\ wd_state w' = wd_state w) /\
  ((0 <= age < expiry_age w info)%Z -> r = Ret tt /\ wd_state w' = wd_state w) /\
  ((expiry_age w info <= age)%Z -> r = Ret tt /\ out_of_sight p (wd_unix_seconds w) w' /\
     ~ listed (wd_peer_index w') (pi_cluster_id info) p /\
     forall i wallet, wallet_map (wd_wallet_index w') !! i = Some wallet -> p ∉ w_replicas wallet).
Proof.
  intros Hok Hopen Hl Hcap Hp age. destruct (build_heartbeat_exec w) as [m Hm].
  unfold send_heartbeat, local_peer_id.
  rewrite exec_bind. cbn [exec gets tret]. rewrite bool_decide_eq_false_2 by done.
  rewrite exec_bind, Hm, exec_bind. unfold send_gossip, send_network. cbn [exec act_out]. rewrite Hopen. cbn [fst snd].
  set (w1 := on_network _ w).
  pose proof (maybe_expire_exec w1 p info (rok_peers _ Hok) Hcap Hp) as H.
  destruct (exec (maybe_expire_peer p) w1) as [r w']. destruct H as (H1 & H2 & H3 & H4).
  split_and!; [by exists m|done|done|]. intros Hage. destruct (H4 Hage) as (-> & H5 & H6 & H7).
  split_and!; [done|done|done|]. intros i wallet Hw. rewrite H7 in Hw.
  apply lookup_fmap_Some in Hw as (v & <- & _). cbn. set_solver.
Qed.
End expiry.

(** * Heartbeat timers *)

Definition heartbeats (l : list (option PeerId)) : list GossipServerJob :=
  JobExecuteHeartbeat <$> omap id l.

(** The state that an iteration reads is not changed; jobs are enqueued. *)
Record enqueued (w w' : World) (jobs : list GossipServerJob) : Prop := {
  enq_state : wd_state w' = wd_state w;
  enq_open : ch_open (wd_gossip w') = true;
  enq_sent : ch_sent (wd_gossip w') = ch_sent (wd_gossip w) ++ jobs;
}.

(** What an iteration does when the peer at position [i] of the list it cycles through is
    [l !! i], where [None] is a peer that is left to the other timer. *)
Definition iterates (tick : nat -> action GossipError (nat * Z)) (period : Z) (st : RelayerState)
    (l : list (option PeerId)) : Prop :=
  forall w i, wd_state w = st -> ch_open (wd_gossip w) = true ->
  exists w', enqueued w w' (heartbeats (option_list (l !! i))) /\
    exec (tick i) w =
      (if (Z.of_nat (length l) mod 2 ^ 32 =? 0)%Z then Panic
       else Ret (if length l <=? S i then 0 else S i, (period / (Z.of_nat (length l) mod 2 ^ 32))%Z), w').

Lemma iterates_round tick period st l :
  iterates tick period st l -> (Z.of_nat (length l) < 2 ^ 32)%Z ->
  forall m w i, wd_state w = st -> ch_open (wd_gossip w) = true -> 0 < m -> i + m = length l ->
  exists w', enqueued w w' (heartbeats (drop i l)) /\
    exec (timer_loop tick m i) w = (Ret (0, (Z.of_nat m * (period / Z.of_nat (length l)))%Z), w').
Proof.
  intros Htick Hn m. induction m as [|m IH]; intros w i Hst Hopen Hm Hi; [lia|].
  destruct (Htick w i Hst Hopen) as (w1 & [He1 He2 He3] & Hex).
  rewrite Z.mod_small in Hex by lia. destruct (Z.eqb_spec (Z.of_nat (length l)) 0) as [|_]; [lia|].
  cbn [timer_loop]. rewrite exec_bind, Hex. cbn [fst snd].
  destruct (lookup_lt_is_Some_2 l i) as [o Ho]; [lia|]. rewrite (drop_S l o i Ho). rewrite Ho in He3.
  destruct m as [|m].
  - destruct (Nat.leb_spec (length l) (S i)); [|lia]. rewrite drop_ge by lia.
    exists w1. split; [by split|]. cbn [timer_loop exec tbind then_ tret fst snd]. repeat f_equal. lia.
  - destruct (Nat.leb_spec (length l) (S i)); [lia|].
    destruct (IH w1 (S i)) as (w2 & [Hf1 Hf2 Hf3] & Hex2); [congruence|done|lia|lia|].
    rewrite exec_bind, Hex2. exists w2. split; [|cbn [exec tret fst snd]; repeat f_equal; lia].
    split; [congruence|done|]. rewrite Hf3, He3, <- app_assoc. f_equal.
    unfold heartbeats. destruct o; cbn; done.
Qed.

(** Wherever it starts, the loop is at the beginning of the list after as many iterations as
    there are peers. *)
Lemma iterates_restart tick period st l :
  iterates tick period st l -> (0 < Z.of_nat (length l) < 2 ^ 32)%Z ->
  forall w i, wd_state w = st -> ch_open (wd_gossip w) = true ->
  exists m w' slept jobs, 0 < m <= length l /\ enqueued w w' jobs /\
    exec (timer_loop tick m i) w = (Ret (0, slept), w').
Proof.
  intros Htick Hn w i Hst Hopen. destruct (decide (i < length l)) as [Hi|Hi].
  - destruct (iterates_round tick period st l Htick ltac:(lia) (length l - i) w i) as (w' & H1 & H2);
      [done|done|lia|lia|]. exists (length l - i), w'. eexists _, _. split_and!; [lia|lia|done|done].
  - destruct (Htick w i Hst Hopen) as (w1 & He & Hex).
    rewrite Z.mod_small in Hex by lia. destruct (Z.eqb_spec (Z.of_nat (length l)) 0) as [|_]; [lia|].
    destruct (Nat.leb_spec (length l) (S i)); [|lia].
    exists 1, w1. eexists _, _. split_and!; [lia|lia|exact He|].
    cbn [timer_loop]. rewrite exec_bind, Hex. by cbn.
Qed.

Definition inter_targets (st : RelayerState) : list (option PeerId) :=
  (fun kv => if bool_decide (pi_cluster_id kv.2 <> rs_local_cluster_id st) then Some (pi_peer_id kv.2) else None)
    <$> visit (peer_map (rs_peer_index st)).

Definition intra_targets (st : RelayerState) : list (option PeerId) :=
  (fun p => if bool_decide (p <> rs_local_peer_id st) then Some p else None)
    <$> get_all_cluster_peers (rs_peer_index st) (rs_local_cluster_id st).

Lemma timer_advance_exec period i n w :
  exec (timer_advance period i n) w =
  (if (Z.of_nat n mod 2 ^ 32 =? 0)%Z then Panic
   else Ret (if n <=? S i then 0 else S i, (period / (Z.of_nat n mod 2 ^ 32))%Z), w).
Proof. unfold timer_advance. by destruct (Z.of_nat n mod 2 ^ 32 =? 0)%Z. Qed.

(** The job, if the peer is a target *)
Definition enqueue (target : option PeerId) : action GossipError unit :=
  match target with
  | Some peer_id => send_gossip_job TimerFailed (JobExecuteHeartbeat peer_id)
  | None => tret tt
  end.

Lemma enqueue_exec o w : ch_open (wd_gossip w) = true ->
  exists w', exec (enqueue o) w = (Ret tt, w') /\ enqueued w w' (heartbeats [o]).
Proof.
  intros Hopen. destruct o as [p|]; cbn.
  - rewrite Hopen. eexists. split; [reflexivity|]. by split.
  - exists w. split; [done|]. split; [done|done|]. by rewrite app_nil_r.
Qed.

Lemma inter_iterates period st : iterates (inter_cluster_tick period) period st (inter_targets st).
Proof.
  intros w i Hst Hopen. unfold inter_cluster_tick.
  rewrite exec_bind, exec_holding. cbn [exec gets tret]. cbn [fst snd].
  set (o := match peers_nth (wd_peer_index w) i with Some _ => _ | None => _ end).
  destruct (enqueue_exec o w Hopen) as (w' & Hex & He). rewrite exec_bind.
  change (match o with Some _ => _ | None => _ end) with (enqueue o). rewrite Hex, timer_advance_exec.
  exists w'. assert (Hlen : peers_len (wd_peer_index w) = length (inter_targets st)).
  { unfold inter_targets, peers_len. rewrite length_fmap, visit_perm, length_map_to_list. by rewrite <- Hst. }
  rewrite Hlen. split; [|done]. destruct He as [H1 H2 H3]. split; [done|done|]. rewrite H3. f_equal.
  subst o. unfold peers_nth, inter_targets. rewrite list_lookup_fmap, <- Hst.
  change (rs_peer_index (wd_state w)) with (wd_peer_index w).
  by destruct (visit (peer_map (wd_peer_index w)) !! i).
Qed.

Lemma intra_iterates period st : iterates (intra_cluster_tick period) period st (intra_targets st).
Proof.
  intros w i Hst Hopen. unfold intra_cluster_tick, local_cluster_id, local_peer_id, read_peer_index.
  rewrite exec_bind. cbn [exec gets tret]. rewrite exec_bind, exec_holding. cbn [exec gets tret].
  rewrite exec_bind. cbn [exec gets tret]. set (l := get_all_cluster_peers _ _).
  destruct (enqueue_exec (p ← l !! i; if bool_decide (p <> wd_local_peer w) then Some p else None) w Hopen)
    as (w' & Hex & [H1 H2 H3]).
  rewrite exec_bind. match goal with |- context [exec ?m w] => replace (exec m w) with (Ret tt : outcome GossipError unit, w') end.
  - rewrite timer_advance_exec. exists w'.
    assert (Hlen : length l = length (intra_targets st)) by (unfold intra_targets; rewrite length_fmap, <- Hst; done).
    rewrite Hlen. split; [|done]. split; [done|done|]. rewrite H3. f_equal.
    unfold intra_targets. rewrite list_lookup_fmap, <- Hst. change (get_all_cluster_peers _ _) with l. by destruct (l !! i).
  - rewrite <- Hex. destruct (l !! i) as [p|]; [|done]. cbn. by case_bool_decide.
Qed.

Lemma elem_of_heartbeats p l : JobExecuteHeartbeat p ∈ heartbeats l <-> Some p ∈ l.
Proof.
  unfold heartbeats. rewrite list_elem_of_fmap. split.
  - intros (q & [= <-] & Hq). apply list_elem_of_omap in Hq as (o & Ho & Hq). cbn in Hq. by subst.
  - intros Hp. exists p. split; [done|]. apply list_elem_of_omap. by exists (Some p).
Qed.

(** The peers that a round of both timers reaches are all peers but the local one. *)
Lemma targets_complete st p info :
  peers_ok (rs_peer_index st) -> peer_map (rs_peer_index st) !! p = Some info -> p <> rs_local_peer_id st ->
  Some p ∈ inter_targets st ++ intra_targets st.
Proof.
  intros [H1 H2] Hp Hl. rewrite elem_of_app. destruct (decide (pi_cluster_id info = rs_local_cluster_id st)) as [Hc|Hc].
  - right. unfold intra_targets, get_all_cluster_peers. destruct (H2 p info Hp) as (X & HX & Hin).
    rewrite <- Hc, HX. apply list_elem_of_fmap. exists p. rewrite bool_decide_eq_true_2 by done.
    split; [done|]. by apply elem_of_visit_set.
  - left. apply list_elem_of_fmap. exists (p, info). cbn. rewrite bool_decide_eq_true_2 by done.
    split; [by rewrite (H1 p info Hp)|]. by apply elem_of_visit.
Qed.

(** C17: While the peers do not change, each of the two heartbeat timers takes one wait period
    for a round, in which it enqueues one heartbeat for each peer it is responsible for,
    and from any position it is back at the beginning within a round; together they reach
    every peer but the local one.  A timer that has no peer to cycle through panics. *)
Theorem heartbeat_timers w period tick l :
  (0 <= period)%Z -> ch_open (wd_gossip w) = true -> peers_ok (wd_peer_index w) ->
  (tick, l) ∈ [(inter_cluster_tick period, inter_targets (wd_state w));
               (intra_cluster_tick period, intra_targets (wd_state w))] ->
  ((0 < Z.of_nat (length l) < 2 ^ 32)%Z ->
     (exists w' slept, exec (timer_loop tick (length l) 0) w = (Ret (0, slept), w') /\ (slept <= period)%Z /\
        enqueued w w' (heartbeats l)) /\
     (forall i, exists m w' slept jobs, 0 < m <= length l /\ enqueued w w' jobs /\
        exec (timer_loop tick m i) w = (Ret (0, slept), w'))) /\
  (l = [] -> forall i, (exec (tick i) w).1 = Panic) /\
  (forall p info, get_peer_info (wd_peer_index w) p = Some info -> p <> wd_local_peer w ->
     JobExecuteHeartbeat p ∈ heartbeats (inter_targets (wd_state w)) ++ heartbeats (intra_targets (wd_state w))).
Proof.
  intros Hper Hopen Hok Hin.
  assert (Htick : iterates tick period (wd_state w) l).
  { apply elem_of_cons in Hin as [[= -> ->]|[[= -> ->]|Hn%not_elem_of_nil]%elem_of_cons];
      [apply inter_iterates|apply intra_iterates|done]. }
  split_and!.
  - intros Hn. split.
    + destruct (iterates_round tick period _ l Htick ltac:(lia) (length l) w 0) as (w' & H1 & H2);
        [done|done|lia|lia|]. eexists w', _. split; [exact H2|]. split; [|done].
      apply Z.mul_div_le. lia.
    + intros i. by apply (iterates_restart tick period (wd_state w)).
  - intros -> i. by destruct (Htick w i eq_refl Hopen) as (w' & _ & ->).
  - intros p info Hp Hl. unfold get_peer_info in Hp.
    pose proof (targets_complete (wd_state w) p info Hok Hp Hl) as H.
    apply elem_of_app in H. apply elem_of_app. by rewrite !elem_of_heartbeats.
Qed.
End gossip.

(** * Examples *)

#[local] Existing Instance sample_foreign.
#[local] Existing Instance sorted_order.
#[local] Existing Instance sample_lc.
#[local] Existing Instance sample_le.
#[local] Existing Instance sample_oracles.

Definition sample_gossip : GossipOracles := {|
  peer_to_string := fun p => String.concat "" (replicate (N.to_nat p) "x");
  parse_peer_id := fun s => Some (N.of_nat (String.length s));
  call_nullifier_used := fun _ _ => Some [Zmod.zero];
  call_root_in_history := fun _ _ => Some [Zmod.zero];
  verify_singleprover_proof := fun p => if decide (vc_proof p = (0%N : R1CSProof)) then Ret tt else Fail "invalid"
|}.

#[local] Existing Instance sample_gossip.

Definition sample_network : World :=
  on_state (on_peer_index (fun _ =>
    add_peer (sample_info 3 "local") (add_peer (sample_info 4 "a") peers_new))) sample_relayer.

Lemma sample_network_ok : relayer_ok sample_network.
Proof.
  apply relayer_ok_peers; [|apply sample_relayer_ok]. intros _ _.
  do 2 (eapply peers_step_ok; [apply step_add_peer|]). apply peers_new_ok.
Qed.

Lemma validity_proof_gate_witness :
  exists w', exec (handle_new_validity_proof 9%N "a" (sample_bundle 4)) sample_network = (Ret tt, w') /\
    exists o, get_order_info (wd_order_book w') 9%N = Some o /\ no_state o = Verified.
Proof.
  pose proof (validity_proof_gate sample_network 9%N "a" (sample_bundle 4)) as H.
  destruct (exec _ sample_network) as [r w']. destruct H as (H1 & H2 & _); [done|].
  assert (r = Ret tt) as ->. { apply H1. split; [by eexists|]. split; [by eexists|done]. }
  exists w'. split; [reflexivity|]. destruct (H2 eq_refl) as (o & Ho & Hs & _). by exists o.
Defined.

Lemma claimed_local_proof_unchecked_witness :
  exists w', exec (handle_new_validity_proof 9%N "local" (sample_bundle 4)) sample_network = (Ret tt, w') /\
    exists o, get_order_info (wd_order_book w') 9%N = Some o /\ no_state o = Verified.
Proof.
  destruct (claimed_local_proof_unchecked sample_network 9%N (sample_bundle 4) eq_refl)
    as (_ & w' & H1 & o & H2 & H3 & _).
  exists w'. split; [exact H1|]. by exists o.
Defined.

Definition sample_unproven : NetworkOrder := {|
  no_id := 9%N; no_match_nullifier := scalar 8; no_local := false; no_cluster := "a"; no_state := Verified;
  no_valid_commit_proof := None; no_valid_commit_witness := None |}.

Lemma unproven_order_scheduled_witness :
  exists w', exec (handle_order_info_response sample_unproven) sample_network = (Ret tt, w') /\
    9%N ∈ get_nonlocal_verified_orders (wd_order_book w') /\
    has_validity_proof (wd_order_book w') 9%N = false.
Proof. apply (unproven_order_scheduled sample_network sample_unproven); done. Defined.

Lemma stale_peer_expired_witness :
  exists w', exec (send_heartbeat (peer 4)) sample_network = (Ret tt, w') /\ out_of_sight (peer 4) 100 w'.
Proof.
  pose proof (stale_peer_expired (LE := sample_le) (LL := list_lru_laws PeerId Z) sample_network (peer 4) (sample_info 4 "a")
    sample_network_ok eq_refl) as H.
  destruct (exec (send_heartbeat (peer 4)) sample_network) as [r w'].
  destruct H as (_ & _ & _ & H); [done|done|done|]. destruct (H ltac:(by vm_compute)) as (Hr & Ho & _).
  exists w'. split; [by rewrite Hr|exact Ho].
Defined.

Lemma heartbeat_timers_witness :
  exists w' slept, exec (timer_loop (inter_cluster_tick (wait_period HEARTBEAT_INTERVAL_MS)) 2 0) sample_network
    = (Ret (0, slept), w') /\ (slept <= 10 ^ 10)%Z /\
    enqueued sample_network w' [JobExecuteHeartbeat (peer 4)].
Proof.
  destruct (heartbeat_timers sample_network (wait_period HEARTBEAT_INTERVAL_MS)
    (inter_cluster_tick (wait_period HEARTBEAT_INTERVAL_MS)) (inter_targets (wd_state sample_network)))
    as (H & _ & _); [done|done|apply sample_network_ok|by left|].
  destruct H as ((w' & slept & H1 & H2 & H3) & _); [by vm_compute|].
  exists w', slept. split; [exact H1|]. split; [exact H2|]. exact H3.
Defined.

(** A heartbeat that names the expired peer, handled within the window. *)
Definition sample_expired : World := (exec (send_heartbeat (peer 4)) sample_network).2.

Definition sample_gossip_job : GossipServerJob := JobHandleHeartbeatResp (peer 5) {|
  hb_managed_wallets := ∅; hb_known_peers := {["xxxx" := sample_info 4 "a"]}; hb_orders := [] |}.

Definition sample_start : config lock World unit := Config unlocked sample_expired (fun _ => None).
Definition sample_spawned : config lock World unit :=
  Config unlocked sample_expired (set_task 0 (handle_job sample_gossip_job) (fun _ => None)).

Definition has_finished (c : option (config lock World unit)) : bool :=
  match c with
  | Some c => match tasks c 0 with Some (Done _) => true | _ => false end
  | None => false
  end.

Lemma sample_schedule : has_finished (run_schedule (replicate 20 0) sample_spawned) = true.
Proof. vm_compute. reflexivity. Qed.

Lemma sample_expired_out : out_of_sight (peer 4) 100 sample_expired.
Proof. split; [vm_compute; reflexivity|vm_compute; by split|vm_compute; reflexivity]. Qed.

