(* ===== verification/HandshakeManager.v ===== *)
(** The handshake executor and its scheduler: core/src/handshake/manager.rs, with the
    cancellation protocol around a match of core/src/handshake/match.rs. *)

From Stdlib Require Import Zmod.
From stdpp Require Import gmap strings.
From S2P Require Import Prelude Async LockOrder Primality Field Merkle RelayerTypes OrderBook PeerIndex.
From S2P Require Import WalletIndex Messages Lru HandshakeCache World RelayerState Types MatchTypes HandshakeIndex.

#[global] Set Default Goal Selector "!".
#[local] Open Scope task_scope.

Definition HANDSHAKE_INVISIBILITY_WINDOW_MS : Z := 120000.
Definition HANDSHAKE_CACHE_SIZE : nat := 500.

Section manager.
  Context `{F : Foreign} `{HO : HashOrder}.
  Context {LC : LruCache (OrderIdentifier * OrderIdentifier) HandshakeCacheState}.
  Context {LE : LruCache PeerId Z}.
  Context {O : Oracles}.

(** The random identifiers and free ports of the environment, and the steps of the
    two-party computation, each of which may fail when the other party does. *)
Class MatchOracles := {
  new_v4 : World -> Uuid;
  pick_unused_port : World -> option Z;
  MatchShare : Type;
  connect : QuicTwoPartyNet -> outcome HandshakeManagerError unit;
  execute_match_mpc : Z -> SizedValidCommitmentsWitness -> outcome HandshakeManagerError MatchShare;
  prove_valid_match : Z -> SizedValidCommitmentsWitness -> MatchShare -> outcome HandshakeManagerError R1CSProof;
  share_fees : Z -> SizedValidCommitmentsWitness ->
    outcome HandshakeManagerError (LinkableFeeCommitment * LinkableFeeCommitment);
  share_randomness : Z -> SizedValidCommitmentsWitness ->
    outcome HandshakeManagerError (LinkableCommitment * LinkableCommitment);
  share_keys : Z -> Scalar -> outcome HandshakeManagerError (Scalar * Scalar);
  open_match : Z -> MatchShare -> outcome HandshakeManagerError LinkableMatchResultCommitment;
}.
Context {M : MatchOracles}.

#[local] Notation handshake := (action HandshakeManagerError).

Definition send_message (message : GossipOutbound) : handshake unit :=
  send_network HandshakeSendMessage message.

Definition write_cache (f : Z -> HandshakeCache OrderIdentifier -> HandshakeCache OrderIdentifier)
    : handshake unit :=
  holding Write HandshakeCacheLock (modify (fun w => on_cache (f (wd_instant w)) w)).

(** [reject_match_proposal] *)
Definition reject_match_proposal (request_id : Uuid) (peer_order local_order : OrderIdentifier)
    (reason : MatchRejectionReason) (response_channel : ResponseChannel) : handshake unit :=
  let* local := local_peer_id in
  send_message (Response response_channel (HandshakeResp request_id
    (RejectMatchCandidate local peer_order local_order reason))).

(** [send_request_response] *)
Definition send_request_response (request_id : Uuid) (peer_id : PeerId) (response : HandshakeMessage)
    (response_channel : option ResponseChannel) : handshake unit :=
  send_message match response_channel with
  | Some channel => Response channel (HandshakeResp request_id response)
  | None => Request peer_id (HandshakeReq request_id response)
  end.

(** [choose_match_proposal]; the cache stays locked while the order book is read. *)
Definition first_uncached (now : Z) (c : HandshakeCache OrderIdentifier) (peer_order : OrderIdentifier)
    (orders : list OrderIdentifier) : option OrderIdentifier :=
  head (filter (fun order_id => cache_contains N.leb now order_id peer_order c = false) orders).

Definition choose_match_proposal (peer_order : OrderIdentifier) : handshake (option OrderIdentifier) :=
  holding Read HandshakeCacheLock (
    let* local_verified_orders := read_order_book get_local_scheduleable_orders in
    gets (fun w => first_uncached (wd_instant w) (wd_cache w) peer_order local_verified_orders)).

(** [perform_handshake] *)
Definition perform_handshake (peer_order_id : OrderIdentifier) : handshake unit :=
  let* proposal := choose_match_proposal peer_order_id in
  match proposal with
  | None => tret tt
  | Some local_order_id =>
      let* managing_peer := get_peer_managing_order peer_order_id in
      match managing_peer with
      | None => tret tt
      | Some managing_peer =>
          let* request_id := gets new_v4 in
          let* local := local_peer_id in
          send_message (Request managing_peer (HandshakeReq request_id
            (ProposeMatchCandidate local peer_order_id local_order_id))) ;;*
          new_handshake request_id peer_order_id local_order_id
      end
  end.

(** [handle_propose_match_candidate] *)
Definition handle_propose_match_candidate (request_id : Uuid) (peer_id : PeerId)
    (my_order sender_order : OrderIdentifier) (response_channel : ResponseChannel) : handshake unit :=
  let* peer_order_info := read_order_book (fun b => get_order_info b sender_order) in
  if bool_decide (no_state <$> peer_order_info <> Some Verified)
  then reject_match_proposal request_id sender_order my_order NoValidityProof response_channel else
  let* ready := read_order_book (fun b => order_ready_for_handshake b my_order) in
  if negb ready
  then reject_match_proposal request_id sender_order my_order LocalOrderNotReady response_channel else
  new_handshake request_id sender_order my_order ;;*
  let* previously_matched := holding Read HandshakeCacheLock
    (gets (fun w => cache_contains N.leb (wd_instant w) my_order sender_order (wd_cache w))) in
  if previously_matched : bool
  then reject_match_proposal request_id sender_order my_order Cached response_channel else
  let* port := gets pick_unused_port in
  match port with
  | None => tpanic
  | Some local_port =>
      send_message (ManagementMessage (BrokerMpcNet request_id peer_id 0 local_port Listener)) ;;*
      let* cluster_id := local_cluster_id in
      send_message (Pubsub (get_management_topic cluster_id)
        (ClusterManagement cluster_id (MatchInProgress my_order sender_order))) ;;*
      let* local := local_peer_id in
      send_request_response request_id peer_id
        (ExecuteMatch local local_port previously_matched my_order sender_order) (Some response_channel)
  end.

(** [handle_proposal_rejection] *)
Definition handle_proposal_rejection (my_order sender_order : OrderIdentifier) (reason : MatchRejectionReason)
    : handshake unit :=
  match reason with
  | Cached => write_cache (fun _ => mark_completed N.leb my_order sender_order)
  | _ => tret tt
  end.

(** [handle_execute_match] *)
Definition handle_execute_match (request_id : Uuid) (peer_id : PeerId) (port : Z)
    (order1 order2 : OrderIdentifier) (response_channel : option ResponseChannel) : handshake unit :=
  write_cache (fun _ => mark_completed N.leb order1 order2) ;;*
  let* local_port := gets pick_unused_port in
  match local_port with
  | None => tpanic
  | Some local_port =>
      send_message (ManagementMessage (BrokerMpcNet request_id peer_id port local_port Dialer)) ;;*
      send_request_response request_id peer_id Ack response_channel
  end.

(** [handle_handshake_message] *)
Definition handle_handshake_message (request_id : Uuid) (message : HandshakeMessage)
    (response_channel : option ResponseChannel) : handshake unit :=
  match message with
  | Ack => tret tt
  | ProposeMatchCandidate peer_id my_order sender_order =>
      match response_channel with
      | Some channel => handle_propose_match_candidate request_id peer_id my_order sender_order channel
      | None => tpanic
      end
  | RejectMatchCandidate _ peer_order sender_order reason =>
      handle_proposal_rejection peer_order sender_order reason
  | ExecuteMatch peer_id port _ order1 order2 =>
      handle_execute_match request_id peer_id port order1 order2 response_channel
  end.

(** [record_completed_match] *)
Definition record_completed_match (request_id : Uuid) : handshake unit :=
  let* state := get_state request_id in
  match state with
  | None => tfail (InvalidRequest request_id)
  | Some state =>
      write_cache (fun _ => mark_completed N.leb (hs_local_order_id state) (hs_peer_order_id state)) ;;*
      mark_order_pair_matched (hs_local_order_id state) (hs_peer_order_id state) ;;*
      completed request_id ;;*
      let* cluster := local_cluster_id in
      send_message (Pubsub (get_management_topic cluster) (ClusterManagement cluster
        (CacheSync (hs_local_order_id state) (hs_peer_order_id state)))) ;;*
      publish HANDSHAKE_STATUS_TOPIC (HandshakeCompleted (hs_local_order_id state) (hs_peer_order_id state))
  end.

(** * The match *)

(** [HandshakeResult] *)
Record HandshakeResult := {
  hr_match : LinkableMatchResultCommitment;
  hr_proof : R1CSProof;
  hr_party0_fee : LinkableFeeCommitment;
  hr_party1_fee : LinkableFeeCommitment;
  hr_party0_randomness_hash : LinkableCommitment;
  hr_party1_randomness_hash : LinkableCommitment;
  hr_pk_settle0 : Scalar;
  hr_pk_settle1 : Scalar;
  hr_pk_settle_cluster0 : Scalar;
  hr_pk_settle_cluster1 : Scalar;
}.

(** [if !cancel_channel.is_empty() { return Err(MpcShootdown) }] *)
Definition check_cancel (c : nat) : handshake unit :=
  let* signals := gets (fun w => cc_signals <$> wd_cancels w !! c) in
  match signals with
  | Some (S _) => tfail MpcShootdownError
  | _ => tret tt
  end.

(** [build_handshake_result] *)
Definition lookup_wallet_for_order (order_id : OrderIdentifier) (idx : WalletIndex)
    : outcome HandshakeManagerError ManagedWallet :=
  match get_wallet_for_order idx order_id with
  | None => Fail (StateNotFound "couldn't find wallet for order")
  | Some wallet_id =>
      match get_wallet idx wallet_id with
      | None => Fail (StateNotFound "no wallet found for ID")
      | Some wallet => Ret wallet
      end
  end.

Definition build_handshake_result (party_id : Z) (shared_match_res : MatchShare) (proof : R1CSProof)
    (validity_proof_witness : SizedValidCommitmentsWitness) (handshake_state : HandshakeState)
    (cancel_channel : nat) : handshake HandshakeResult :=
  let* fees := Done (share_fees party_id validity_proof_witness) in
  let* wallet := read_wallet_index (lookup_wallet_for_order (hs_local_order_id handshake_state)) in
  let* wallet := Done wallet in
  let* randomness := Done (share_randomness party_id validity_proof_witness) in
  let* keys := Done (share_keys party_id (pk_settle (w_public_keys wallet))) in
  check_cancel cancel_channel ;;*
  let* match_res_open := Done (open_match party_id shared_match_res) in
  tret {| hr_match := match_res_open; hr_proof := proof; hr_party0_fee := fees.1; hr_party1_fee := fees.2;
          hr_party0_randomness_hash := randomness.1; hr_party1_randomness_hash := randomness.2;
          hr_pk_settle0 := keys.1; hr_pk_settle1 := keys.2;
          hr_pk_settle_cluster0 := scalar 0; hr_pk_settle_cluster1 := scalar 0 |}.

(** [execute_match_impl] *)
Definition execute_match_impl (party_id : Z) (handshake_state : HandshakeState) (mpc_net : QuicTwoPartyNet)
    (cancel_channel : nat) : handshake HandshakeResult :=
  let* _ := Done (connect mpc_net) in
  let* commitments_witness :=
    read_order_book (fun b => get_validity_proof_witness b (hs_local_order_id handshake_state)) in
  match commitments_witness with
  | None => tfail (StateNotFound "missing validity proof witness, cannot link proofs")
  | Some commitments_witness =>
      let* match_res := Done (execute_match_mpc party_id commitments_witness) in
      check_cancel cancel_channel ;;*
      let* proof := Done (prove_valid_match party_id commitments_witness match_res) in
      check_cancel cancel_channel ;;*
      build_handshake_result party_id match_res proof commitments_witness handshake_state cancel_channel
  end.

(** [bounded(1)] gives a channel whose receiver is dropped when the match ends. *)
Definition new_cancel_channel : handshake nat :=
  act (fun w => let c := fresh (dom (wd_cancels w)) in
    (c, on_cancels (fun m => <[c := {| cc_receiver := true; cc_signals := 0 |}]> m) w)).

Definition drop_receiver (c : nat) (w : World) : World :=
  on_cancels (fun m => alter (fun ch => {| cc_receiver := false; cc_signals := cc_signals ch |}) c m) w.

Definition receiving {A} (c : nat) (body : handshake A) : handshake A :=
  then_ body (fun r => Atom (drop_receiver c) (fun _ => Done r)).

(** [execute_match] *)
Definition execute_match (request_id : Uuid) (party_id : Z) (mpc_net : QuicTwoPartyNet)
    : handshake HandshakeResult :=
  let* handshake_state := get_state request_id in
  match handshake_state with
  | None => tfail (StateNotFound "missing handshake state for request")
  | Some handshake_state =>
      let* cancel := new_cancel_channel in
      receiving cancel (
        in_progress request_id cancel ;;*
        execute_match_impl party_id handshake_state mpc_net cancel)
  end.

(** * Dispatch *)

(** What is done with a match is the business of another part of the executor. *)
Context (submit_match : HandshakeResult -> handshake unit).

(** [handle_handshake_job] *)
Definition handle_handshake_job (job : HandshakeExecutionJob) : handshake unit :=
  match job with
  | PerformHandshake order => perform_handshake order
  | ProcessHandshakeMessage request_id _ message response_channel =>
      handle_handshake_message request_id message response_channel
  | CacheEntry order1 order2 => write_cache (fun _ => mark_completed N.leb order1 order2)
  | PeerMatchInProgress order1 order2 =>
      write_cache (fun now => mark_invisible N.leb now order1 order2 HANDSHAKE_INVISIBILITY_WINDOW_MS)
  | MpcNetSetup request_id party_id net =>
      let* order_state := get_state request_id in
      match order_state with
      | None => tfail (InvalidRequest request_id)
      | Some order_state =>
          write_cache (fun now => mark_invisible N.leb now (hs_local_order_id order_state)
            (hs_peer_order_id order_state) HANDSHAKE_INVISIBILITY_WINDOW_MS) ;;*
          publish HANDSHAKE_STATUS_TOPIC
            (HandshakeInProgress (hs_local_order_id order_state) (hs_peer_order_id order_state)) ;;*
          let* res := execute_match request_id party_id net in
          record_completed_match request_id ;;*
          submit_match res
      end
  | MpcShootdown match_nullifier => shootdown_nullifier match_nullifier
  end.

(** The executor logs the error of a job. *)
Definition run_handshake_job {E} (job : HandshakeExecutionJob) : action E unit :=
  let* _ := attempt (handle_handshake_job job) in tret tt.

(** One period of the scheduler *)
Definition schedule_handshake : handshake unit :=
  let* order := choose_handshake_order in
  match order with
  | Some order => send_job HandshakeSendMessage (PerformHandshake order)
  | None => tret tt
  end.
End manager.

(** * A match is never recorded *)

Section doomed_match.
  Context `{F : Foreign} `{HO : HashOrder}.
  Context {LC : LruCache (OrderIdentifier * OrderIdentifier) HandshakeCacheState}.
  Context {LE : LruCache PeerId Z}.
  Context {O : Oracles} {M : MatchOracles}.

Lemma record_completed_match_doomed cur r : doomed cur (record_completed_match r).
Proof.
  unfold record_completed_match. apply doomed_bind_r. intros cur1 [st|]; [|done].
  do 2 (apply doomed_bind_r; intros ? _). apply doomed_bind, completed_doomed.
Qed.

Lemma mpc_net_setup_doomed submit cur r party net :
  doomed cur (handle_handshake_job submit (MpcNetSetup r party net)).
Proof.
  cbn [handle_handshake_job]. apply doomed_bind_r. intros cur1 [st|]; [|done].
  do 3 (apply doomed_bind_r; intros ? ?). apply doomed_bind, record_completed_match_doomed.
Qed.

End doomed_match.

(** * Proposals *)

Section proposals.
  Context `{F : Foreign} `{HO : HashOrder}.
  Context {LC : LruCache (OrderIdentifier * OrderIdentifier) HandshakeCacheState}.
  Context {LE : LruCache PeerId Z}.
  Context {O : Oracles} {M : MatchOracles}.

Definition sent (w w' : World) (messages : list GossipOutbound) : Prop :=
  wd_network w' = Channel true (ch_sent (wd_network w) ++ messages).

(** The index after [new_handshake] has stored a handshake. *)
Definition stored (st : HandshakeState) (w : World) : World :=
  on_nullifier_map (fun m => index_request (hs_peer_match_nullifier st) (hs_request_id st)
      (index_request (hs_local_match_nullifier st) (hs_request_id st) m))
    (on_state_map (fun m => <[hs_request_id st := st]> m) w).

Lemma exec_new_handshake r peer_order local_order np nl w :
  get_match_nullifier (wd_order_book w) local_order = Some nl ->
  get_match_nullifier (wd_order_book w) peer_order = Some np ->
  exec (new_handshake r peer_order local_order) w =
  (Ret tt, stored (handshake_new r peer_order local_order np nl) w).
Proof.
  intros Hl Hp. unfold new_handshake. rewrite exec_holding, exec_bind. cbn [exec gets tret]. rewrite Hl.
  rewrite exec_bind. cbn [exec gets tret]. rewrite Hp. reflexivity.
Qed.

Lemma stored_index_ok st w :
  index_ok w -> wd_state_map w !! hs_request_id st = None -> index_ok (stored st w).
Proof.
  intros [H1 H2] Hfresh.
  assert (Hreq : forall n r, requested (stored st w) n r <->
    requested w n r \/ (on_nullifier n st /\ r = hs_request_id st)).
  { intros n r. unfold requested, stored. cbn [wd_nullifier_map on_nullifier_map on_state_map].
    rewrite !requested_index. unfold on_nullifier. naive_solver. }
  split.
  - intros r st' n. cbn. rewrite Hreq. intros [[<- <-]|[_ Hr]]%lookup_insert_Some Hn; [by right|]. left. eauto.
  - intros n r. rewrite Hreq. cbn. intros [Hr|[Hn ->]]; [|rewrite lookup_insert_eq; eauto].
    destruct (H2 n r Hr) as (st' & Hst & Hn). exists st'. split; [|done].
    rewrite lookup_insert_ne; [done|]. congruence.
Qed.

Lemma ready_nullifier b i :
  order_ready_for_handshake b i = true -> exists n, get_match_nullifier b i = Some n.
Proof.
  unfold order_ready_for_handshake, has_validity_proof, get_match_nullifier.
  destruct (order_map b !! i) as [o|]; [|done]. cbn. destruct (no_valid_commit_proof o); cbn; [eauto|done].
Qed.

Lemma exec_new_handshake_unproven r peer_order local_order nl w :
  get_match_nullifier (wd_order_book w) local_order = Some nl ->
  get_match_nullifier (wd_order_book w) peer_order = None ->
  exec (new_handshake r peer_order local_order) w = (Fail (StateNotFound "match nullifier not found for order"), w).
Proof.
  intros Hl Hp. unfold new_handshake. rewrite exec_holding, exec_bind. cbn [exec gets tret]. rewrite Hl.
  rewrite exec_bind. cbn [exec gets tret]. rewrite Hp. reflexivity.
Qed.

Section reject.
  Context (w : World) (open : ch_open (wd_network w) = true).

Definition rejection (request_id : Uuid) (peer_order my_order : OrderIdentifier) (reason : MatchRejectionReason)
    (channel : ResponseChannel) : GossipOutbound :=
  Response channel (HandshakeResp request_id (RejectMatchCandidate (wd_local_peer w) peer_order my_order reason)).

Lemma exec_send_message m :
  exec (send_message m) w = (Ret tt, on_network (fun c => Channel true (ch_sent c ++ [m])) w).
Proof. unfold send_message, send_network. cbn. by rewrite open. Qed.

Lemma exec_reject r theirs mine reason channel :
  exec (reject_match_proposal r theirs mine reason channel) w =
  (Ret tt, on_network (fun c => Channel true (ch_sent c ++ [rejection r theirs mine reason channel])) w).
Proof.
  unfold reject_match_proposal, local_peer_id. rewrite exec_bind. cbn [exec gets tret]. by rewrite exec_send_message.
Qed.
End reject.

Lemma index_ok_same w w' :
  wd_state_map w' = wd_state_map w -> wd_nullifier_map w' = wd_nullifier_map w -> index_ok w -> index_ok w'.
Proof. intros H1 H2 [H3 H4]. unfold requested in *. split; rewrite ?H1, ?H2 in *; unfold requested; by rewrite ?H1, ?H2. Qed.

(** C9: A proposal is answered.  It is accepted, with a broker directive, the message
    that keeps the cluster from scheduling the pair and the offer to execute the match,
    exactly when the other party's order is verified, the local order has its proof and
    witness and the pair is not cached; the handshake is then indexed under both
    nullifiers.  Otherwise it is rejected with the first reason that applies.  A verified
    order without a proof is the exception: the handler fails and no answer is sent.  In
    all cases the two maps of the index agree afterwards and the global state is not
    changed. *)
Theorem proposal_answered w r peer mine theirs channel :
  index_ok w -> wd_state_map w !! r = None -> ch_open (wd_network w) = true ->
  (forall w', is_Some (pick_unused_port w')) ->
  let verified := no_state <$> get_order_info (wd_order_book w) theirs = Some Verified in
  let ready := order_ready_for_handshake (wd_order_book w) mine = true in
  let cached := cache_contains N.leb (wd_instant w) mine theirs (wd_cache w) = true in
  let (res, w') := exec (handle_propose_match_candidate r peer mine theirs channel) w in
  index_ok w' /\ wd_state w' = wd_state w /\ wd_cache w' = wd_cache w /\
  ((res = Ret tt /\ verified /\ ready /\ ~ cached /\
    (exists nt nm, get_match_nullifier (wd_order_book w) theirs = Some nt /\
       get_match_nullifier (wd_order_book w) mine = Some nm /\
       wd_state_map w' = <[r := handshake_new r theirs mine nt nm]> (wd_state_map w)) /\
    exists port, sent w w'
      [ManagementMessage (BrokerMpcNet r peer 0 port Listener);
       Pubsub (get_management_topic (wd_local_cluster w))
         (ClusterManagement (wd_local_cluster w) (MatchInProgress mine theirs));
       Response channel (HandshakeResp r (ExecuteMatch (wd_local_peer w) port false mine theirs))]) \/
   (res = Ret tt /\ ~ verified /\ sent w w' [rejection w r theirs mine NoValidityProof channel] /\
      wd_state_map w' = wd_state_map w) \/
   (res = Ret tt /\ verified /\ ~ ready /\ sent w w' [rejection w r theirs mine LocalOrderNotReady channel] /\
      wd_state_map w' = wd_state_map w) \/
   (res = Ret tt /\ verified /\ ready /\ cached /\ sent w w' [rejection w r theirs mine Cached channel]) \/
   (res = Fail (StateNotFound "match nullifier not found for order") /\ verified /\ ready /\
      get_match_nullifier (wd_order_book w) theirs = None /\ w' = w)).
Proof.
  intros Hok Hfresh Hopen Hport verified ready cached.
  unfold handle_propose_match_candidate, read_order_book.
  rewrite exec_bind, exec_holding. cbn [exec gets tret].
  case_bool_decide as Hv.
  { rewrite exec_reject by done. split_and!; [by apply (index_ok_same w)|done|done|]. right; left. done. }
  rewrite exec_bind, exec_holding. cbn [exec gets tret].
  destruct (order_ready_for_handshake (wd_order_book w) mine) eqn:Hr; cbn [negb].
  2: { rewrite exec_reject by done. split_and!; [by apply (index_ok_same w)|done|done|].
       right; right; left. split_and!; [done|done|done|done|done]. }
  destruct (ready_nullifier _ _ Hr) as [nm Hm].
  destruct (get_match_nullifier (wd_order_book w) theirs) as [nt|] eqn:Ht.
  2: { rewrite exec_bind, (exec_new_handshake_unproven r theirs mine nm w Hm Ht).
       split_and!; [done|done|done|]. by do 4 right. }
  rewrite exec_bind, (exec_new_handshake r theirs mine _ _ w Hm Ht).
  set (st := handshake_new _ _ _ _ _). set (w1 := stored st w).
  assert (Hok1 : index_ok w1) by (by apply stored_index_ok).
  rewrite exec_bind, exec_holding. cbn [exec gets tret].
  change (cache_contains N.leb (wd_instant w1) mine theirs (wd_cache w1))
    with (cache_contains N.leb (wd_instant w) mine theirs (wd_cache w)).
  destruct (cache_contains N.leb (wd_instant w) mine theirs (wd_cache w)) eqn:Hc.
  { rewrite exec_reject by done. split_and!; [by apply (index_ok_same w1)|done|done|].
    do 3 right; left. split_and!; [done|done|done|done|done]. }
  rewrite exec_bind. cbn [exec gets tret]. destruct (Hport w1) as [port ->].
  rewrite exec_bind, exec_send_message by done. unfold local_cluster_id, local_peer_id, send_request_response.
  rewrite exec_bind. cbn [exec gets tret]. rewrite exec_bind, exec_send_message by done.
  rewrite exec_bind. cbn [exec gets tret]. rewrite exec_send_message by done.
  split_and!; [by apply (index_ok_same w1)|done|done|]. left.
  split_and!; [done|done|done|done|by eexists _, _|].
  exists port. unfold sent. cbn. by rewrite <- !app_assoc.
Qed.

Lemma exec_choose w peer_order :
  exec (choose_match_proposal peer_order) w =
  (Ret (first_uncached (wd_instant w) (wd_cache w) peer_order (get_local_scheduleable_orders (wd_order_book w))), w).
Proof.
  unfold choose_match_proposal, read_order_book. rewrite exec_holding, exec_bind, exec_holding. reflexivity.
Qed.

Lemma first_uncached_Some now c peer_order orders i :
  first_uncached now c peer_order orders = Some i ->
  i ∈ orders /\ cache_contains N.leb now i peer_order c = false.
Proof.
  intros H%head_Some_elem_of. by apply list_elem_of_filter in H as [? ?].
Qed.

Lemma first_uncached_None now c peer_order orders :
  first_uncached now c peer_order orders = None ->
  forall i, i ∈ orders -> cache_contains N.leb now i peer_order c = true.
Proof.
  unfold first_uncached. intros H%head_None i Hi.
  destruct (cache_contains N.leb now i peer_order c) eqn:Hc; [done|].
  assert (Hf : i ∈ filter (fun j => cache_contains N.leb now j peer_order c = false) orders)
    by (by apply list_elem_of_filter). rewrite H in Hf. by apply not_elem_of_nil in Hf.
Qed.

Lemma sampled_listed (gen : nat -> nat) idx c p : sample_cluster_peer gen idx c = Some p -> listed idx c p.
Proof.
  unfold sample_cluster_peer, listed. destruct (cluster_peers idx !! c) as [X|]; [|done]. cbn.
  case_bool_decide; [done|]. intros Hp. exists X. split; [done|].
  apply elem_of_visit_set. by eapply list_elem_of_lookup_2.
Qed.

End proposals.

(** * Cancellation *)

Section cancellation.
  Context `{F : Foreign} `{HO : HashOrder}.
  Context {LC : LruCache (OrderIdentifier * OrderIdentifier) HandshakeCacheState}.
  Context {LE : LruCache PeerId Z}.
  Context {O : Oracles} {M : MatchOracles}.

Section signals.
  Context (ch : nat).

#[local] Notation keeps := (respects (fun w => signalled w ch)).

Lemma signal_alter f c w :
  (forall x, cc_signals x <= cc_signals (f x)) -> signalled w ch -> signalled (on_cancels (alter f c) w) ch.
Proof.
  intros Hf (x & Hx & Hs). unfold signalled. cbn. destruct (decide (c = ch)) as [->|Hne].
  - exists (f x). rewrite lookup_alter_eq, Hx. split; [done|]. specialize (Hf x). lia.
  - exists x. by rewrite lookup_alter_ne.
Qed.

Lemma send_cancel_keeps c : keeps (send_cancel c).
Proof.
  apply respects_act_out. intros w (x & Hx & Hs). destruct (wd_cancels w !! c) as [y|] eqn:Hy; [|by exists x].
  destruct (cc_receiver y); [|by exists x]. unfold signalled. cbn. destruct (decide (c = ch)) as [->|Hne].
  - rewrite lookup_insert_eq. eexists. split; [done|]. cbn. lia.
  - exists x. by rewrite lookup_insert_ne.
Qed.

Lemma new_cancel_channel_keeps : keeps new_cancel_channel.
Proof.
  apply respects_act. intros w (x & Hx & Hs). exists x. split; [|done]. cbn. rewrite lookup_insert_ne; [done|].
  intros He. apply (is_fresh (dom (wd_cancels w))). rewrite He. apply elem_of_dom. by rewrite Hx.
Qed.

Lemma receiving_keeps {A} c (m : action HandshakeManagerError A) : keeps m -> keeps (receiving c m).
Proof.
  intros Hm. apply respects_then; [done|]. intros r w Hw. split; [|done]. apply signal_alter; [|done]. done.
Qed.

Lemma on_entry_keeps {E} r f : keeps (on_entry (E := E) r f).
Proof. apply respects_act_out. intros w Hw. by repeat case_match. Qed.

Lemma send_network_keeps {E} (e : E) m : keeps (send_network e m).
Proof. apply respects_act_out. intros w Hw. by case_match. Qed.

#[local] Hint Resolve send_cancel_keeps new_cancel_channel_keeps on_entry_keeps send_network_keeps : respects.

Lemma remove_handshake_keeps {E} r : keeps (remove_handshake (E := E) r).
Proof. unfold remove_handshake. respects_split. Qed.
Lemma new_handshake_keeps r p l : keeps (new_handshake r p l).
Proof. unfold new_handshake. respects_split. Qed.
Lemma write_cache_keeps f : keeps (write_cache f).
Proof. unfold write_cache. respects_split. Qed.
#[local] Hint Resolve remove_handshake_keeps new_handshake_keeps write_cache_keeps : respects.

Lemma shootdown_keeps n : keeps (shootdown_nullifier n).
Proof. unfold shootdown_nullifier, shootdown_request. respects_split. Qed.

Lemma record_completed_match_keeps r : keeps (record_completed_match r).
Proof.
  unfold record_completed_match, completed, get_state, mark_order_pair_matched, local_cluster_id, send_message, publish.
  respects_split.
Qed.

Lemma handle_handshake_message_keeps r m c : keeps (handle_handshake_message r m c).
Proof.
  unfold handle_handshake_message, handle_propose_match_candidate, handle_proposal_rejection, handle_execute_match,
    reject_match_proposal, send_request_response, send_message, local_peer_id, local_cluster_id.
  respects_split.
Qed.

Lemma execute_match_keeps r party net : keeps (execute_match r party net).
Proof.
  unfold execute_match, get_state. apply respects_bind; [respects_split|]. intros [st|]; [|done].
  apply respects_bind; [apply new_cancel_channel_keeps|]. intros c. apply receiving_keeps.
  unfold in_progress, execute_match_impl, check_cancel, build_handshake_result. respects_split.
Qed.
#[local] Hint Resolve shootdown_keeps record_completed_match_keeps handle_handshake_message_keeps
  execute_match_keeps : respects.

Lemma handle_handshake_job_keeps submit job :
  (forall res, keeps (submit res)) -> keeps (handle_handshake_job submit job).
Proof.
  intros Hs. destruct job; cbn [handle_handshake_job]; try solve [auto with respects nocore].
  - unfold perform_handshake, choose_match_proposal, local_peer_id, send_message. respects_split.
  - unfold get_state, publish. respects_split.
Qed.
End signals.

(** Once the match is signalled, the last stage of it has no result. *)
Lemma check_cancel_barred ch : barred (fun w => signalled w ch) (check_cancel ch).
Proof.
  intros w (x & Hx & Hs). rewrite Hx. cbn. destruct (cc_signals x); [lia|done].
Qed.

Lemma build_handshake_result_barred party m proof wit st ch :
  barred (fun w => signalled w ch) (build_handshake_result party m proof wit st ch).
Proof.
  unfold build_handshake_result. do 5 (apply barred_bind_r; intros ?). apply barred_bind_l, check_cancel_barred.
Qed.


(** No handshake of the index can be used to signal [ch]. *)
Definition unreachable (ch : nat) (w : World) : Prop :=
  (forall r st, wd_state_map w !! r = Some st -> hs_cancel_channel st <> Some ch) /\ ~ signalled w ch.

Lemma send_cancel_unreachable ch c : c <> ch -> respects (unreachable ch) (send_cancel c).
Proof.
  intros Hne. apply respects_act_out. intros w [Hw Hn]. destruct (wd_cancels w !! c) as [y|] eqn:Hy; [|done].
  destruct (cc_receiver y); [|done]. split; [done|]. intros (x & Hx & Hs). apply Hn. exists x.
  cbn in Hx. by rewrite lookup_insert_ne in Hx.
Qed.

Lemma shootdown_request_unreachable ch r : respects (unreachable ch) (shootdown_request r).
Proof.
  unfold shootdown_request, remove_handshake. cbn -[send_cancel]. intros w [Hw Hn]. split.
  { split; [|done]. cbn. intros r' st' [_ Hr]%lookup_delete_Some. eauto. }
  destruct (wd_state_map w !! r) as [st|] eqn:Hr; cbn -[send_cancel]; [|done].
  intros s [Hs Hsn]. split; [done|]. destruct (hs_cancel_channel st) as [c|] eqn:Hc; [|done].
  apply send_cancel_unreachable. intros ->. by eapply Hw.
Qed.

Lemma shootdown_unreachable ch n : respects (unreachable ch) (shootdown_nullifier n).
Proof.
  unfold shootdown_nullifier. apply respects_bind.
  - apply respects_holding, respects_act. by intros w [Hw Hn].
  - intros l. apply respects_for. intros r. apply shootdown_request_unreachable.
Qed.

(** The request identifier of a proposal is chosen by the peer.  One that is already in
    use replaces the entry of the running match and its cancel channel with it: from then
    on no shootdown, of any nullifier and in any order, stops that match. *)
Theorem reused_request_uncancellable w r st ch theirs mine nt nm h :
  wd_state_map w !! r = Some st -> hs_cancel_channel st = Some ch -> ~ signalled w ch ->
  (forall r' st', wd_state_map w !! r' = Some st' -> hs_cancel_channel st' = Some ch -> r' = r) ->
  get_match_nullifier (wd_order_book w) theirs = Some nt ->
  get_match_nullifier (wd_order_book w) mine = Some nm ->
  exists w1, exec (new_handshake r theirs mine) w = (Ret tt, w1) /\
    forall c', rtc (step (fun m => exists n, m = shootdown_nullifier n)) (Config h w1 (fun _ => None)) c' ->
      ~ signalled (shared c') ch.
Proof.
  intros Hst Hch Hns Huniq Ht Hm. eexists. split; [by apply exec_new_handshake|]. intros c' Hrun.
  apply (respectful_forever _ (unreachable ch)) in Hrun; [apply Hrun| |].
  - intros m [n ->]. apply shootdown_unreachable.
  - split; [|done]. split; [|done]. cbn. intros r' st' [[<- <-]|[Hne Hr]]%lookup_insert_Some; [done|].
    intros Hc. apply Hne. symmetry. by eapply Huniq.
Qed.
End cancellation.

(** * The invariant of the global state, and locks *)

Section invariant.
  Context `{F : Foreign} `{HO : HashOrder}.
  Context {LC : LruCache (OrderIdentifier * OrderIdentifier) HandshakeCacheState}.
  Context {LE : LruCache PeerId Z}.
  Context {O : Oracles} {M : MatchOracles}.

Ltac same_state := match goal with H : relayer_ok ?s |- _ => by apply (relayer_ok_same s) end.

Lemma send_message_respects m : respects relayer_ok (send_message m).
Proof. apply respects_act_out. intros s H. case_match; [same_state|done]. Qed.
Lemma send_job_respects {E} (e : E) j : respects relayer_ok (send_job e j).
Proof. apply respects_act_out. intros s H. case_match; [same_state|done]. Qed.
Lemma send_cancel_respects c : respects relayer_ok (send_cancel c).
Proof. apply respects_act_out. intros s H. repeat case_match; [same_state|done..]. Qed.
Lemma on_entry_respects {E} r f : respects relayer_ok (on_entry (E := E) r f).
Proof. apply respects_act_out. intros s H. repeat case_match; [same_state|done..]. Qed.
Lemma write_cache_respects f : respects relayer_ok (write_cache f).
Proof. apply respects_holding, respects_modify. intros s H. same_state. Qed.
Lemma remove_handshake_respects {E} r : respects relayer_ok (remove_handshake (E := E) r).
Proof. unfold remove_handshake. respects_split; same_state. Qed.
Lemma new_handshake_respects r p l : respects relayer_ok (new_handshake r p l).
Proof. unfold new_handshake. respects_split; same_state. Qed.
#[local] Hint Resolve send_message_respects send_job_respects send_cancel_respects on_entry_respects
  write_cache_respects remove_handshake_respects new_handshake_respects : respects.

Lemma shootdown_respects n : respects relayer_ok (shootdown_nullifier n).
Proof. unfold shootdown_nullifier, shootdown_request. respects_split; same_state. Qed.

Lemma record_completed_match_respects r : respects relayer_ok (record_completed_match r).
Proof.
  unfold record_completed_match, completed, get_state, local_cluster_id, publish. respects_split. same_state.
Qed.

Lemma handle_handshake_message_respects r m c : respects relayer_ok (handle_handshake_message r m c).
Proof.
  unfold handle_handshake_message, handle_propose_match_candidate, handle_proposal_rejection, handle_execute_match,
    reject_match_proposal, send_request_response, local_peer_id, local_cluster_id. respects_split.
Qed.

Lemma execute_match_respects r party net : respects relayer_ok (execute_match r party net).
Proof.
  unfold execute_match, get_state, new_cancel_channel. apply respects_bind; [respects_split|]. intros [st|]; [|done].
  apply respects_bind; [respects_split; same_state|]. intros c. apply respects_then.
  - unfold in_progress, execute_match_impl, check_cancel, build_handshake_result. respects_split.
  - intros res s H. split; [same_state|done].
Qed.
#[local] Hint Resolve shootdown_respects record_completed_match_respects handle_handshake_message_respects
  execute_match_respects : respects.

Lemma handle_handshake_job_respects submit job :
  (forall res, respects relayer_ok (submit res)) -> respects relayer_ok (handle_handshake_job submit job).
Proof.
  intros Hs. destruct job; cbn [handle_handshake_job]; try solve [auto with respects nocore].
  - unfold perform_handshake, choose_match_proposal, local_peer_id. respects_split.
  - unfold get_state, publish. respects_split. same_state.
Qed.

Lemma run_handshake_job_respects {E} submit job :
  (forall res, respects relayer_ok (submit res)) -> respects relayer_ok (run_handshake_job (E := E) submit job).
Proof.
  intros Hs. unfold run_handshake_job. apply respects_bind; [|done].
  by apply respects_attempt, handle_handshake_job_respects.
Qed.

Lemma schedule_handshake_respects : respects relayer_ok schedule_handshake.
Proof. unfold schedule_handshake. respects_split. Qed.

(** ** Locks *)

#[local] Notation in_order := (ordered rank [] []).

Lemma write_cache_ordered f : in_order (write_cache f).
Proof. unfold write_cache. ordered_split. Qed.
Lemma send_message_ordered cur m : ordered rank cur cur (send_message m).
Proof. done. Qed.
Lemma new_handshake_ordered r p l : in_order (new_handshake r p l).
Proof. unfold new_handshake. ordered_split. Qed.
#[local] Hint Resolve write_cache_ordered send_message_ordered new_handshake_ordered : ordered.

Lemma choose_match_proposal_ordered o : in_order (choose_match_proposal o).
Proof. unfold choose_match_proposal, read_order_book. ordered_split. Qed.
#[local] Hint Resolve choose_match_proposal_ordered : ordered.

Lemma shootdown_ordered n : in_order (shootdown_nullifier n).
Proof. unfold shootdown_nullifier, shootdown_request, remove_handshake. ordered_split. Qed.

Lemma handle_handshake_message_ordered r m c : in_order (handle_handshake_message r m c).
Proof.
  unfold handle_handshake_message, handle_propose_match_candidate, handle_proposal_rejection, handle_execute_match,
    reject_match_proposal, send_request_response. ordered_split.
Qed.
#[local] Hint Resolve shootdown_ordered handle_handshake_message_ordered : ordered.

(** All jobs but the one that runs a match *)
Definition not_a_match (job : HandshakeExecutionJob) : Prop :=
  match job with MpcNetSetup _ _ _ => False | _ => True end.

Lemma run_handshake_job_ordered {E} submit job :
  not_a_match job -> in_order (run_handshake_job (E := E) submit job).
Proof.
  intros Hj. unfold run_handshake_job. apply ordered_bind; [|done]. apply ordered_attempt.
  destruct job; cbn [handle_handshake_job]; try solve [auto with ordered nocore]; [|done].
  unfold perform_handshake. ordered_split.
Qed.

Lemma schedule_handshake_ordered : in_order schedule_handshake.
Proof. unfold schedule_handshake. ordered_split. Qed.
End invariant.

#[export] Hint Resolve schedule_handshake_respects : respects.
#[export] Hint Resolve run_handshake_job_ordered schedule_handshake_ordered : ordered.

(** * Examples *)

#[local] Existing Instance sample_foreign.
#[local] Existing Instance sorted_order.
#[local] Existing Instance sample_lc.
#[local] Existing Instance sample_le.
#[local] Existing Instance sample_oracles.

Definition sample_quic : QuicTwoPartyNet := 0%N.
Definition sample_proof : R1CSProof := 0%N.
Definition sample_wit : SizedValidCommitmentsWitness := 0%N.

Definition sample_match : MatchOracles := {|
  new_v4 := fun _ => 42%N; pick_unused_port := fun _ => Some 8000%Z;
  MatchShare := unit;
  connect := fun _ => Ret tt; execute_match_mpc := fun _ _ => Ret tt; prove_valid_match := fun _ _ _ => Ret sample_proof;
  share_fees := fun _ _ => Ret (sample_fee, sample_fee);
  share_randomness := fun _ _ => Ret (sample_link 0, sample_link 0);
  share_keys := fun _ k => Ret (k, k); open_match := fun _ _ => Ret sample_match_result |}.

#[local] Existing Instance sample_match.

Definition sample_share : MatchShare := tt.

(** A local order that is ready, an order of another cluster, and a peer of that cluster. *)
Definition sample_market : World :=
  on_state (on_order_book (attach_validity_proof_witness 8%N sample_wit))
    (on_state (on_peer_index (fun _ => add_peer (sample_info 4 "peer") peers_new)) sample_negotiation).

Definition sample_matching : config lock World HandshakeManagerError :=
  Config unlocked (sample_handshakes true)
    (fun t => [handle_handshake_job (fun _ => tret tt) (MpcNetSetup 1%N 0 sample_quic)] !! t).

Definition is_run (c : option (config lock World HandshakeManagerError)) : bool :=
  match c with Some _ => true | None => false end.

Lemma sample_matching_runs : is_run (run_schedule (replicate 15 0) sample_matching) = true.
Proof. vm_compute. reflexivity. Qed.


Lemma sample_market_index : index_ok sample_market.
Proof.
  split; [intros r st n H; cbn in H; by rewrite lookup_empty in H|].
  intros n r (X & HX & _). cbn in HX. by rewrite lookup_empty in HX.
Qed.

Lemma proposal_answered_witness :
  exists w', exec (handle_propose_match_candidate 5%N (peer 4) 8%N 7%N 3%N) sample_market = (Ret tt, w') /\
    exists st, wd_state_map w' !! 5%N = Some st.
Proof.
  pose proof (proposal_answered sample_market 5%N (peer 4) 8%N 7%N 3%N sample_market_index) as H.
  destruct (exec _ sample_market) as [res w'].
  destruct H as (_ & _ & _ & [(-> & _ & _ & _ & (nt & nm & _ & _ & Hm) & _)|[(_ & Hv & _)|[(_ & _ & Hr & _)|
    [(_ & _ & _ & Hc & _)|(_ & _ & _ & Hn & _)]]]]).
  - reflexivity.
  - reflexivity.
  - intros w1. by eexists.
  - exists w'. split; [reflexivity|]. rewrite Hm. eexists. apply lookup_insert_eq.
  - destruct Hv. by vm_compute.
  - destruct Hr. by vm_compute.
  - discriminate Hc.
  - discriminate Hn.
Defined.


Definition sample_signalled : World :=
  on_cancels (fun _ => {[0 := {| cc_receiver := true; cc_signals := 1 |}]}) sample_market.

Definition sample_opening : config lock World HandshakeManagerError :=
  Config unlocked sample_signalled (fun t =>
    [let* res := build_handshake_result 0 sample_share sample_proof sample_wit
       (sample_handshake 1 (Some 0)) 0 in tret tt] !! t).

Lemma sample_opening_runs : is_run (run_schedule (replicate 3 0) sample_opening) = true.
Proof. vm_compute. reflexivity. Qed.


Definition sample_running : World :=
  on_cancels (fun _ => {[0 := {| cc_receiver := true; cc_signals := 0 |}]})
    (on_state_map (fun _ => {[1%N := sample_handshake 1 (Some 0)]}) sample_market).

Lemma reused_request_uncancellable_witness :
  exists w1, exec (new_handshake 1%N 7%N 8%N) sample_running = (Ret tt, w1) /\
    forall c', rtc (step (fun m => exists n, m = shootdown_nullifier n)) (Config unlocked w1 (fun _ => None)) c' ->
      ~ signalled (shared c') 0.
Proof.
  apply (reused_request_uncancellable sample_running 1%N (sample_handshake 1 (Some 0)) 0 7%N 8%N
    (scalar 6) (scalar 5) unlocked); [reflexivity|reflexivity| | |reflexivity|reflexivity].
  - intros (x & Hx & Hs). unfold sample_running in Hx; cbn [wd_cancels on_cancels] in Hx.
    apply lookup_singleton_Some in Hx as [_ <-]. cbn in Hs. lia.
  - cbn [sample_running wd_state_map on_cancels on_state_map]. by intros r st [<- <-]%lookup_singleton_Some.
Defined.
