(* ===== verification/Encumber.v ===== *)
(** What follows a match: core/src/handshake/encumber.rs.

    The executor writes the five notes of the match, encrypts what their owners do not know, and asks the proof
    manager for a proof of VALID MATCH ENCRYPTION. *)

From Stdlib Require Import Zmod SpecFloat.
From stdpp Require Import gmap strings.
From S2P Require Import Prelude Async LockOrder Primality Field ConstraintSystem ListR1CS NonNative FixedPoint.
From S2P Require Import PoseidonConstants Poseidon Types Merkle Commitments ElGamal MatchTypes Readings Statements.
From S2P Require Import ValidMatchEncryption MatchEncryptionProperties.
From S2P Require Import RelayerTypes OrderBook PeerIndex WalletIndex Messages Lru HandshakeCache World RelayerState.
From S2P Require Import HandshakeIndex HandshakeManager.

#[global] Set Default Goal Selector "!".
#[local] Open Scope task_scope.

(** The constants of core/src/main.rs; the [f32] nearest to 0.0002 is [13743895 / 2^36]. *)
Definition PROTOCOL_FEE : FixedPoint.FixedPoint :=
  FixedPoint.from_f32_round_down (S754_finite false 13743895 (-36)).
Definition PROTOCOL_SETTLE_KEY : Z := 0.

(** [get_ristretto_group_modulus] of integration-helpers/src/mpc_network/field.rs *)
Definition get_ristretto_group_modulus : Z := Z.shiftl 1 252 + 27742317777372353535851937790883648493.

(** [encrypt_scalar], with the scalar that the random generator gives *)
Definition encrypt_scalar (random val : Scalar) (pubkey : Z) : ElGamalCiphertext * Scalar :=
  let randomness := scalar_to_biguint random in
  let field_mod := get_ristretto_group_modulus in
  let ciphertext1 := modpow (scalar_to_biguint DEFAULT_ELGAMAL_GENERATOR) randomness field_mod in
  let shared_secret := modpow pubkey randomness field_mod in
  let encrypted := ((shared_secret * scalar_to_biguint val) mod field_mod)%Z in
  ({| partial_shared_secret := biguint_to_scalar ciphertext1; encrypted_message := biguint_to_scalar encrypted |},
   biguint_to_scalar randomness).

Section encumber.
  Context (ark_hash : list Scalar -> Scalar) (scalar_to_u64 : Scalar -> Z).

(** [note_commit] *)
Definition note_commit_native (note : Note) (receiver_key : Scalar) : Scalar :=
  compute_note_commitment ark_hash note receiver_key.

(** The integer part of [fp * amount] as a [u64] *)
Definition share_of (fp : FixedPoint.FixedPoint) (amount : Scalar) : Z :=
  scalar_to_u64 (FixedPoint.floor (FixedPoint.mul_scalar fp amount)).

(** The amounts of the notes of both parties and of both relayers, by the direction of the match *)
Definition party_amounts (match_direction : OrderSide) (base quote : Scalar)
    (net0 net1 : FixedPoint.FixedPoint) : Z * Z * Z * Z :=
  match match_direction with
  | Buy => (share_of net0 base, scalar_to_u64 quote, scalar_to_u64 base, share_of net1 quote)
  | Sell => (scalar_to_u64 base, share_of net0 quote, share_of net1 base, scalar_to_u64 quote)
  end.

Definition relayer_amounts (match_direction : OrderSide) (base quote : Scalar)
    (fee0 fee1 : FixedPoint.FixedPoint) : Z * Z * Z * Z :=
  match match_direction with
  | Buy => (share_of fee0 base, 0%Z, 0%Z, share_of fee1 quote)
  | Sell => (0%Z, share_of fee0 quote, share_of fee1 base, 0%Z)
  end.

(** [create_notes] *)
Definition create_notes (match_res : LinkableMatchResultCommitment) (party0_fee party1_fee : LinkableFeeCommitment)
    (party0_randomness_hash party1_randomness_hash : LinkableCommitment)
    : outcome unit (Note * Note * Note * Note * Note) :=
  (try! match_direction := side_from_scalar (lk_val (lm_direction match_res)) in
   let base := lk_val (lm_base_amount match_res) in
   let quote := lk_val (lm_quote_amount match_res) in
   let hash0 := lk_val party0_randomness_hash in
   let hash1 := lk_val party1_randomness_hash in
   let percent_fee0 := linkable_fixed_point (lfee_percentage_fee party0_fee) in
   let percent_fee1 := linkable_fixed_point (lfee_percentage_fee party1_fee) in
   let net0 := FixedPoint.sub (FixedPoint.scalar_sub Zmod.one percent_fee0) PROTOCOL_FEE in
   let net1 := FixedPoint.sub (FixedPoint.scalar_sub Zmod.one percent_fee1) PROTOCOL_FEE in
   let '(party0_base, party0_quote, party1_base, party1_quote) :=
     party_amounts match_direction base quote net0 net1 in
   let '(relayer0_base, relayer0_quote, relayer1_base, relayer1_quote) :=
     relayer_amounts match_direction base quote percent_fee0 percent_fee1 in
   let note volume1 side1 volume2 side2 fee_mint fee_volume fee_side kind randomness := {|
     note_mint1 := scalar_to_biguint (lk_val (lm_base_mint match_res)); note_volume1 := volume1;
     note_direction1 := side1;
     note_mint2 := scalar_to_biguint (lk_val (lm_quote_mint match_res)); note_volume2 := volume2;
     note_direction2 := side2; note_fee_mint := fee_mint; note_fee_volume := fee_volume;
     note_fee_direction := fee_side; note_type := kind; note_randomness := scalar_to_biguint randomness |} in
   let gas_mint fee := scalar_to_biguint (lk_val (lfee_gas_addr fee)) in
   let gas_amount fee := scalar_to_u64 (lk_val (lfee_gas_token_amount fee)) in
   Ret (note party0_base match_direction party0_quote (opposite match_direction)
          (gas_mint party0_fee) (gas_amount party0_fee) Sell NoteMatch hash0,
        note party1_base (opposite match_direction) party1_quote match_direction
          (gas_mint party1_fee) (gas_amount party1_fee) Sell NoteMatch hash1,
        note relayer0_base Buy relayer0_quote Buy
          (gas_mint party0_fee) (gas_amount party0_fee) Buy InternalTransfer (hash0 + Zmod.one)%Zmod,
        note relayer1_base Buy relayer1_quote Buy
          (gas_mint party1_fee) (gas_amount party1_fee) Buy InternalTransfer (hash1 + Zmod.one)%Zmod,
        note (share_of PROTOCOL_FEE base) Buy (share_of PROTOCOL_FEE quote) Buy
          0%Z 0%Z Buy InternalTransfer (hash0 + hash1)%Zmod))%outcome.
End encumber.

Section submit.
  Context `{F : Foreign} `{HO : HashOrder}.
  Context {LC : LruCache (OrderIdentifier * OrderIdentifier) HandshakeCacheState}.
  Context {LE : LruCache PeerId Z}.
  Context {O : Oracles} {M : MatchOracles}.

(** The scalars of the random generator, in the order in which they are drawn, and whether the proof manager
    answers a job before it drops the response channel. *)
Class EncumberOracles := {
  random_scalar : World -> nat -> Scalar;
  encryption_proved : ValidMatchEncryptionWitness -> ValidMatchEncryptionStatement -> bool;
}.
Context {EO : EncumberOracles}.

#[local] Notation handshake := (action HandshakeManagerError).

(** The ciphertexts, the witness and the statement that [submit_match] makes of the notes *)
Definition encrypt_notes (random : nat -> Scalar) (res : HandshakeResult)
    (party0_note party1_note relayer0_note relayer1_note protocol_note : Note)
    : ValidMatchEncryptionWitness * ValidMatchEncryptionStatement :=
  let key0 := scalar_to_biguint (hr_pk_settle0 res) in
  let key1 := scalar_to_biguint (hr_pk_settle1 res) in
  let (volume1_ciphertext1, r0) := encrypt_scalar (random 0) (scalar (note_volume1 party0_note)) key0 in
  let (volume2_ciphertext1, r1) := encrypt_scalar (random 1) (scalar (note_volume2 party0_note)) key0 in
  let (volume1_ciphertext2, r2) := encrypt_scalar (random 2) (scalar (note_volume1 party1_note)) key1 in
  let (volume2_ciphertext2, r3) := encrypt_scalar (random 3) (scalar (note_volume2 party1_note)) key1 in
  let (mint1_protocol_ciphertext, r4) :=
    encrypt_scalar (random 4) (biguint_to_scalar (note_mint1 protocol_note)) PROTOCOL_SETTLE_KEY in
  let (mint2_protocol_ciphertext, r5) :=
    encrypt_scalar (random 5) (biguint_to_scalar (note_mint2 protocol_note)) PROTOCOL_SETTLE_KEY in
  let (volume1_protocol_ciphertext, r6) :=
    encrypt_scalar (random 6) (scalar (note_volume1 protocol_note)) PROTOCOL_SETTLE_KEY in
  let (volume2_protocol_ciphertext, r7) :=
    encrypt_scalar (random 7) (scalar (note_volume2 protocol_note)) PROTOCOL_SETTLE_KEY in
  let (randomness_protocol_ciphertext, r8) :=
    encrypt_scalar (random 8) (biguint_to_scalar (note_randomness protocol_note)) PROTOCOL_SETTLE_KEY in
  ({| ew_match_res := hr_match res; ew_party0_fee := hr_party0_fee res; ew_party1_fee := hr_party1_fee res;
      ew_party0_randomness_hash := hr_party0_randomness_hash res;
      ew_party1_randomness_hash := hr_party1_randomness_hash res;
      ew_party0_note := party0_note; ew_party1_note := party1_note; ew_relayer0_note := relayer0_note;
      ew_relayer1_note := relayer1_note; ew_protocol_note := protocol_note;
      ew_elgamal_randomness := [r0; r1; r2; r3; r4; r5; r6; r7; r8] |},
   {| es_party0_note_commit := note_commit_native ark_hash party0_note (hr_pk_settle0 res);
      es_party1_note_commit := note_commit_native ark_hash party1_note (hr_pk_settle1 res);
      es_relayer0_note_commit := note_commit_native ark_hash relayer0_note (hr_pk_settle_cluster0 res);
      es_relayer1_note_commit := note_commit_native ark_hash relayer1_note (hr_pk_settle_cluster1 res);
      es_protocol_note_commit :=
        note_commit_native ark_hash protocol_note (biguint_to_scalar PROTOCOL_SETTLE_KEY);
      es_pk_settle_party0 := hr_pk_settle0 res; es_pk_settle_party1 := hr_pk_settle1 res;
      es_pk_settle_relayer0 := hr_pk_settle_cluster0 res; es_pk_settle_relayer1 := hr_pk_settle_cluster1 res;
      es_pk_settle_protocol := biguint_to_scalar PROTOCOL_SETTLE_KEY; es_protocol_fee := PROTOCOL_FEE;
      es_volume1_ciphertext1 := volume1_ciphertext1; es_volume2_ciphertext1 := volume2_ciphertext1;
      es_volume1_ciphertext2 := volume1_ciphertext2; es_volume2_ciphertext2 := volume2_ciphertext2;
      es_mint1_protocol_ciphertext := mint1_protocol_ciphertext;
      es_volume1_protocol_ciphertext := volume1_protocol_ciphertext;
      es_mint2_protocol_ciphertext := mint2_protocol_ciphertext;
      es_volume2_protocol_ciphertext := volume2_protocol_ciphertext;
      es_randomness_protocol_ciphertext := randomness_protocol_ciphertext |}).

(** The witness and the statement that [submit_match] builds *)
Definition build_encryption (random : nat -> Scalar) (res : HandshakeResult)
    : outcome unit (ValidMatchEncryptionWitness * ValidMatchEncryptionStatement) :=
  (try! (party0_note, party1_note, relayer0_note, relayer1_note, protocol_note) :=
     create_notes scalar_to_u64 (hr_match res) (hr_party0_fee res) (hr_party1_fee res)
       (hr_party0_randomness_hash res) (hr_party1_randomness_hash res) in
   Ret (encrypt_notes random res party0_note party1_note relayer0_note relayer1_note protocol_note))%outcome.

(** [prove_valid_encryption] *)
Definition prove_valid_encryption (witness : ValidMatchEncryptionWitness) (statement : ValidMatchEncryptionStatement)
    : handshake unit :=
  send_proof_job HandshakeSendMessage (ProveValidMatchEncrypt witness statement) ;;*
  if encryption_proved witness statement then tret tt else tfail (ReceiveProof "channel closed").

(** [submit_match] *)
Definition submit_match (res : HandshakeResult) : handshake unit :=
  let* random := gets random_scalar in
  match build_encryption random res with
  | Ret (witness, statement) => prove_valid_encryption witness statement
  | _ => tpanic
  end.

Lemma submit_match_respects res : respects relayer_ok (submit_match res).
Proof.
  unfold submit_match, prove_valid_encryption, send_proof_job. respects_split.
  match goal with H : relayer_ok ?s |- _ => by apply (relayer_ok_same s) end.
Qed.
End submit.

(** * What the executor builds *)

Lemma from_biguint (a : Scalar) : biguint_to_scalar (scalar_to_biguint a) = a.
Proof.
  rewrite scalar_to_biguint_spec. pose proof (scalar_range a). assert (ristretto_order < 2 ^ 256)%Z by done.
  rewrite biguint_to_scalar_small by lia. apply Zmod.of_Z_to_Z.
Qed.

Lemma scalar_of_biguint (a : Scalar) : scalar (scalar_to_biguint a) = a.
Proof. rewrite scalar_to_biguint_spec. apply Zmod.of_Z_to_Z. Qed.

Lemma scalar_of_side (s : OrderSide) : scalar (side_to_u64 s) = side_to_scalar s.
Proof. by destruct s. Qed.

Lemma modpow_scalar (base : Scalar) (e : Z) :
  modpow (Zmod.to_Z base) e get_ristretto_group_modulus = Zmod.to_Z (base ^ e)%Zmod.
Proof.
  unfold modpow. change get_ristretto_group_modulus with ristretto_order. by rewrite Zmod.of_Z_to_Z.
Qed.

(** The ciphertext is the one that the circuit computes from the randomness that is given with it. *)
Lemma encrypt_scalar_spec random val (key : Scalar) :
  let (c, r) := encrypt_scalar random val (scalar_to_biguint key) in
  r = random /\
  (partial_shared_secret c, encrypted_message c) = encryption DEFAULT_ELGAMAL_GENERATOR key random val.
Proof.
  cbv beta zeta iota delta [encrypt_scalar encryption partial_shared_secret encrypted_message].
  rewrite from_biguint, !scalar_to_biguint_spec, !modpow_scalar. split; [done|].
  change get_ristretto_group_modulus with ristretto_order.
  rewrite <- Zmod.to_Z_mul, <- !scalar_to_biguint_spec, !from_biguint. done.
Qed.

Lemma floor_floored (v : Scalar) : FixedPoint.floor {| FixedPoint.repr := v |} = floored v.
Proof.
  pose proof (scalar_range v). rewrite <- (Zmod.of_Z_to_Z v) at 1. by apply FixedPoint.floor_numerator.
Qed.

Lemma repr_net (p : Scalar) :
  FixedPoint.repr (FixedPoint.sub (FixedPoint.scalar_sub Zmod.one {| FixedPoint.repr := p |}) PROTOCOL_FEE) =
  (scalar (2 ^ 32) - p - FixedPoint.repr PROTOCOL_FEE)%Zmod.
Proof.
  cbv [FixedPoint.sub FixedPoint.scalar_sub FixedPoint.scalar_add FixedPoint.add_scalar FixedPoint.add
    FixedPoint.neg FixedPoint.repr]. rewrite TWO_TO_M_SCALAR_spec.
  change Zmod.one with (1 : Scalar)%Zmod. ring.
Qed.

Lemma protocol_fee_repr : FixedPoint.repr PROTOCOL_FEE = scalar 858993.
Proof. by apply Zmod.to_Z_inj; vm_compute. Qed.

Lemma to_Z_net (p : Scalar) :
  (Zmod.to_Z p + 858993 <= 2 ^ 32)%Z ->
  (Zmod.to_Z (scalar (2 ^ 32) - p - FixedPoint.repr PROTOCOL_FEE)%Zmod <= 2 ^ 32)%Z.
Proof.
  intros Hp. pose proof (scalar_range p). assert (2 ^ 32 < ristretto_order)%Z by done.
  rewrite protocol_fee_repr, <- (Zmod.of_Z_to_Z p), <- !Zmod.of_Z_sub, to_Z_small; lia.
Qed.

Section notes.
  Context (u64 : Scalar -> Z).
  Hypothesis u64_small : forall a, (Zmod.to_Z a < 2 ^ 64)%Z -> u64 a = Zmod.to_Z a.

Lemma scalar_u64 (a : Scalar) : (Zmod.to_Z a < 2 ^ 64)%Z -> scalar (u64 a) = a.
Proof. intros Ha. rewrite u64_small by done. apply Zmod.of_Z_to_Z. Qed.

Lemma share_floored (fp : FixedPoint.FixedPoint) (a : Scalar) :
  (Zmod.to_Z (FixedPoint.repr fp) <= 2 ^ 32)%Z -> (Zmod.to_Z a < 2 ^ 64)%Z ->
  scalar (share_of u64 fp a) = floored (FixedPoint.repr fp * a)%Zmod.
Proof.
  intros Hp Ha. unfold share_of, FixedPoint.mul_scalar. rewrite floor_floored. apply scalar_u64.
  pose proof (scalar_range (FixedPoint.repr fp)). pose proof (scalar_range a).
  set (x := Zmod.to_Z (FixedPoint.repr fp)) in *. set (y := Zmod.to_Z a) in *.
  assert (0 <= x * y < 2 ^ 96)%Z as Hxy by nia. assert (2 ^ 96 < ristretto_order)%Z by done.
  unfold floored. rewrite Zmod.to_Z_mul. fold x y. rewrite (Z.mod_small (x * y)) by lia.
  assert (0 <= x * y / 2 ^ 32 < 2 ^ 64)%Z.
  { split; [apply Z.div_pos|apply Z.div_lt_upper_bound]; lia. }
  rewrite to_Z_small; lia.
Qed.
End notes.

(** * The statement that a match leads to *)

(** Computes projections, and neither scalars nor amounts. *)
Ltac values_simpl :=
  cbn -[Zmod.of_Z Zmod.one Zmod.zero Zmod.mul Zmod.add Zmod.sub biguint_to_scalar scalar_to_biguint side_to_scalar
    side_to_u64 note_type_to_scalar share_of Native.sponge PROTOCOL_FEE encryption DEFAULT_ELGAMAL_GENERATOR Z.pow
    FixedPoint.sub FixedPoint.scalar_sub floored].

Section statement.
  Context `{F : Foreign} `{HO : HashOrder}.
  Context {LC : LruCache (OrderIdentifier * OrderIdentifier) HandshakeCacheState}.
  Context {LE : LruCache PeerId Z}.
  Context {O : Oracles} {M : MatchOracles} {EO : EncumberOracles}.

(** The values of what [encrypt_notes] gives: the sixth and the seventh ciphertext are made with the randomness
    of one another. *)
Definition submitted_values (random : nat -> Scalar) (res : HandshakeResult) (n0 n1 r0 r1 pr : Note)
    : MatchEncryptionVals :=
  let enc i used plaintext key :=
    (Some (random i), plaintext, key, encryption DEFAULT_ELGAMAL_GENERATOR key (random used) plaintext) in
  let committed_to n key := (native_note n, key, note_commit_native ark_hash n key) in
  let p := native_note pr in
  {| x_match := native_match (hr_match res);
     x_fee0 := native_fee (hr_party0_fee res); x_fee1 := native_fee (hr_party1_fee res);
     x_protocol_fee := FixedPoint.repr PROTOCOL_FEE;
     x_hash0 := lk_val (hr_party0_randomness_hash res); x_hash1 := lk_val (hr_party1_randomness_hash res);
     x_party0 := native_note n0; x_party1 := native_note n1;
     x_relayer0 := native_note r0; x_relayer1 := native_note r1; x_protocol := p;
     x_encryptions :=
       [enc 0 0 (n_volume1 (native_note n0)) (hr_pk_settle0 res);
        enc 1 1 (n_volume2 (native_note n0)) (hr_pk_settle0 res);
        enc 2 2 (n_volume1 (native_note n1)) (hr_pk_settle1 res);
        enc 3 3 (n_volume2 (native_note n1)) (hr_pk_settle1 res);
        enc 4 4 (n_mint1 p) Zmod.zero; enc 5 6 (n_volume1 p) Zmod.zero; enc 6 5 (n_mint2 p) Zmod.zero;
        enc 7 7 (n_volume2 p) Zmod.zero; enc 8 8 (n_randomness p) Zmod.zero];
     x_commitments :=
       [committed_to n0 (hr_pk_settle0 res); committed_to n1 (hr_pk_settle1 res);
        committed_to r0 (hr_pk_settle_cluster0 res); committed_to r1 (hr_pk_settle_cluster1 res);
        committed_to pr Zmod.zero] |}.

Lemma protocol_key : PROTOCOL_SETTLE_KEY = scalar_to_biguint Zmod.zero.
Proof. reflexivity. Qed.

Lemma encrypt_notes_values random res n0 n1 r0 r1 pr :
  let '(w, st) := encrypt_notes random res n0 n1 r0 r1 pr in
  length (ew_elgamal_randomness w) = NUM_ENCRYPTIONS /\
  native_values w st = submitted_values random res n0 n1 r0 r1 pr.
Proof.
  unfold encrypt_notes. rewrite protocol_key, from_biguint. cbv zeta.
  repeat match goal with
  | |- context [encrypt_scalar ?r ?v (scalar_to_biguint ?k)] =>
      let c := fresh "c" in let H := fresh "H" in
      pose proof (encrypt_scalar_spec r v k) as H;
      destruct (encrypt_scalar r v (scalar_to_biguint k)) as [c ?]; destruct H as [-> H]
  end.
  split; [reflexivity|]. unfold native_values, native_encryptions, native_commitments, submitted_values. cbn -[encryption].
  rewrite H, H0, H1, H2, H3, H4, H5, H6, H7. reflexivity.
Qed.

(** The randomness fits, and the protocol's ciphertexts are the same with either randomness. *)
Definition swapped (random : nat -> Scalar) (pr : Note) : Prop :=
  let enc i := encryption DEFAULT_ELGAMAL_GENERATOR Zmod.zero (random i) in
  enc 6 (scalar (note_volume1 pr)) = enc 5 (scalar (note_volume1 pr)) /\
  enc 5 (biguint_to_scalar (note_mint2 pr)) = enc 6 (biguint_to_scalar (note_mint2 pr)).

Lemma encryptions_valid D random res n0 n1 r0 r1 pr :
  Forall (encrypted true D) (x_encryptions (submitted_values random res n0 n1 r0 r1 pr)) <->
  (forall i, i < 9 -> (Zmod.to_Z (random i) < 2 ^ Z.of_nat D)%Z) /\ swapped random pr.
Proof.
  unfold submitted_values, swapped, encrypted. cbn -[encryption DEFAULT_ELGAMAL_GENERATOR Z.pow].
  rewrite !Forall_cons, Forall_nil. split.
  - intros ([? _] & [? _] & [? _] & [? _] & [? _] & [? ?] & [? ?] & [? _] & [? _] & _). split; [|done].
    intros i Hi. do 9 (destruct i as [|i]; [done|]). lia.
  - intros [Hr [H1 H2]]. split_and!; try done; apply Hr; lia.
Qed.

(** A mint of a note is the address of a token. *)
Record note_sized (n : Note) : Prop := {
  ns_mint1 : (0 <= note_mint1 n < 2 ^ 256)%Z;
  ns_mint2 : (0 <= note_mint2 n < 2 ^ 256)%Z;
  ns_fee_mint : (0 <= note_fee_mint n < 2 ^ 256)%Z;
  ns_randomness : (0 <= note_randomness n < 2 ^ 256)%Z;
}.

Lemma biguint_range (a : Scalar) : (0 <= scalar_to_biguint a < 2 ^ 256)%Z.
Proof.
  rewrite scalar_to_biguint_spec. pose proof (scalar_range a). assert (ristretto_order < 2 ^ 256)%Z by done. lia.
Qed.

Lemma note_commit_committed n key :
  (forall l, ark_hash l = Native.sponge default_params l) -> note_sized n ->
  committed (native_note n, key, note_commit_native ark_hash n key).
Proof.
  intros Hark [H1 H2 H3 H4]. unfold committed, note_commit_native, compute_note_commitment. rewrite Hark. f_equal.
  unfold note_list, native_note. values_simpl. by rewrite !biguint_to_scalar_small, !scalar_of_side by done.
Qed.

(** A match of a side, with amounts that are words and fees that leave something *)
Record encumberable (res : HandshakeResult) : Prop := {
  enc_direction : lk_val (lm_direction (hr_match res)) = Zmod.zero \/ lk_val (lm_direction (hr_match res)) = Zmod.one;
  enc_base : (Zmod.to_Z (lk_val (lm_base_amount (hr_match res))) < 2 ^ 64)%Z;
  enc_quote : (Zmod.to_Z (lk_val (lm_quote_amount (hr_match res))) < 2 ^ 64)%Z;
  enc_gas0 : (Zmod.to_Z (lk_val (lfee_gas_token_amount (hr_party0_fee res))) < 2 ^ 64)%Z;
  enc_gas1 : (Zmod.to_Z (lk_val (lfee_gas_token_amount (hr_party1_fee res))) < 2 ^ 64)%Z;
  enc_fee0 : (Zmod.to_Z (lk_val (lf_repr (lfee_percentage_fee (hr_party0_fee res)))) + 858993 <= 2 ^ 32)%Z;
  enc_fee1 : (Zmod.to_Z (lk_val (lf_repr (lfee_percentage_fee (hr_party1_fee res)))) + 858993 <= 2 ^ 32)%Z;
}.

Section built.
  Hypothesis ark_hash_sponge : forall l, ark_hash l = Native.sponge default_params l.
  Hypothesis scalar_to_u64_small : forall a, (Zmod.to_Z a < 2 ^ 64)%Z -> scalar_to_u64 a = Zmod.to_Z a.

Definition notes_of (res : HandshakeResult) : outcome unit (Note * Note * Note * Note * Note) :=
  create_notes scalar_to_u64 (hr_match res) (hr_party0_fee res) (hr_party1_fee res)
    (hr_party0_randomness_hash res) (hr_party1_randomness_hash res).

Lemma fee_floored (f : LinkableFixedPointCommitment) (a : Scalar) :
  (Zmod.to_Z (lk_val (lf_repr f)) + 858993 <= 2 ^ 32)%Z -> (Zmod.to_Z a < 2 ^ 64)%Z ->
  scalar (share_of scalar_to_u64 (linkable_fixed_point f) a) = floored (lk_val (lf_repr f) * a)%Zmod.
Proof. intros Hf Ha. apply (share_floored _ scalar_to_u64_small (linkable_fixed_point f)); cbn; lia. Qed.

Lemma net_floored (f : LinkableFixedPointCommitment) (a : Scalar) :
  (Zmod.to_Z (lk_val (lf_repr f)) + 858993 <= 2 ^ 32)%Z -> (Zmod.to_Z a < 2 ^ 64)%Z ->
  scalar (share_of scalar_to_u64
    (FixedPoint.sub (FixedPoint.scalar_sub Zmod.one (linkable_fixed_point f)) PROTOCOL_FEE) a) =
  floored ((scalar (2 ^ 32) - lk_val (lf_repr f) - FixedPoint.repr PROTOCOL_FEE) * a)%Zmod.
Proof.
  intros Hf Ha. rewrite <- (repr_net (lk_val (lf_repr f))). apply share_floored; [done| |done].
  rewrite repr_net. by apply to_Z_net.
Qed.

Lemma protocol_floored (a : Scalar) :
  (Zmod.to_Z a < 2 ^ 64)%Z ->
  scalar (share_of scalar_to_u64 PROTOCOL_FEE a) = floored (FixedPoint.repr PROTOCOL_FEE * a)%Zmod.
Proof. intros Ha. by apply share_floored. Qed.

(** Solves what the circuit asks of one field of a note. *)
Ltac note_field Hd :=
  unfold net; values_simpl; rewrite ?from_biguint;
  lazymatch goal with
  | |- Zmod.of_Z _ (share_of _ (FixedPoint.sub _ _) _) = _ => apply net_floored; assumption
  | |- Zmod.of_Z _ (share_of _ PROTOCOL_FEE _) = _ => apply protocol_floored; assumption
  | |- Zmod.of_Z _ (share_of _ _ _) = _ => apply fee_floored; assumption
  | |- Zmod.of_Z _ (scalar_to_u64 _) = _ => apply (scalar_u64 _ scalar_to_u64_small); assumption
  | |- lk_val _ = lk_val _ => reflexivity
  | |- context [lk_val (lm_direction _)] => rewrite Hd; reflexivity
  | |- _ => reflexivity
  end.

(** The notes say what the circuit asks for. *)
Lemma create_notes_valid random res :
  encumberable res ->
  exists n0 n1 r0 r1 pr, notes_of res = Ret (n0, n1, r0, r1, pr) /\
    Forall note_sized [n0; n1; r0; r1; pr] /\
    let v := submitted_values random res n0 n1 r0 r1 pr in
    direction_valid true v /\ labels_valid v /\
    rounded true (x_protocol_fee v * m_base_amount (x_match v))%Zmod (n_volume1 (x_protocol v)) /\
    rounded true (x_protocol_fee v * m_quote_amount (x_match v))%Zmod (n_volume2 (x_protocol v)).
Proof.
  intros [Hd Hb Hq Hg0 Hg1 Hf0 Hf1]. unfold notes_of, create_notes.
  destruct Hd as [Hd|Hd]; rewrite Hd;
    [change (side_from_scalar Zmod.zero) with (Ret (E := unit) Buy)
    |change (side_from_scalar Zmod.one) with (Ret (E := unit) Sell)];
    cbn [obind party_amounts relayer_amounts]; do 5 eexists; (split; [reflexivity|]);
    (split; [repeat constructor; cbn [note_mint1 note_mint2 note_fee_mint note_randomness]; apply biguint_range || lia|]);
    unfold direction_valid, labels_valid, rounded; split_and!.
  1: right; split; unfold rounded; note_field Hd.
  1: by left.
  8: by left.
  8: right; split; unfold rounded; note_field Hd.
  all: try (split; note_field Hd). all: note_field Hd.
Qed.

Lemma build_encryption_valid D random res :
  encumberable res ->
  exists n0 n1 r0 r1 pr w st, notes_of res = Ret (n0, n1, r0, r1, pr) /\
    build_encryption random res = Ret (w, st) /\ length (ew_elgamal_randomness w) = NUM_ENCRYPTIONS /\
    (match_encryption_valid true D (native_values w st) <->
     (forall i, i < 9 -> (Zmod.to_Z (random i) < 2 ^ Z.of_nat D)%Z) /\ swapped random pr).
Proof.
  intros Hres. destruct (create_notes_valid random res Hres) as (n0 & n1 & r0 & r1 & pr & Hn & Hsize & Hd & Hl & Hb & Hq).
  pose proof (encrypt_notes_values random res n0 n1 r0 r1 pr) as Hv.
  destruct (encrypt_notes random res n0 n1 r0 r1 pr) as [w st] eqn:He. destruct Hv as [Hlen Hv].
  exists n0, n1, r0, r1, pr, w, st. split; [done|]. split.
  { unfold build_encryption. unfold notes_of in Hn. rewrite Hn. cbn [obind]. by rewrite He. }
  split; [done|]. rewrite Hv, <- (encryptions_valid D random res n0 n1 r0 r1 pr).
  split; [by intros []|]. intros Henc. split; try assumption.
  repeat (apply Forall_cons in Hsize as [? Hsize]).
  repeat (apply Forall_cons; split; [by apply note_commit_committed|]). apply Forall_nil, I.
Qed.
End built.
End statement.

Section submitted.
  Context `{F : Foreign} `{HO : HashOrder}.
  Context {LC : LruCache (OrderIdentifier * OrderIdentifier) HandshakeCacheState}.
  Context {LE : LruCache PeerId Z}.
  Context {O : Oracles} {M : MatchOracles} {EO : EncumberOracles}.
  Context {C : ConstraintSystem} {L : ConstraintSystemLaws C} {P : ProverLaws C}.

(** C7: What the executor sends after a match is not what the circuit checks.  For a match with a side, amounts of
    64 bits and fees of at most one, it sends exactly one job to the proof manager; the honest prover of that job
    satisfies the constraints if and only if the randomness has 252 bits and the ciphertexts of the protocol's
    volume and mint are the same under the sixth and the seventh randomness, since [submit_match] and the
    circuit use the two in opposite orders. *)
Theorem submitted_match_provable res w s :
  (forall l, ark_hash l = Native.sponge default_params l) ->
  (forall a, (Zmod.to_Z a < 2 ^ 64)%Z -> scalar_to_u64 a = Zmod.to_Z a) ->
  encumberable res -> ch_open (wd_proofs w) = true ->
  exists witness statement n0 n1 r0 r1 protocol_note,
    exec (submit_match res) w =
      (if encryption_proved witness statement then Ret tt else Fail (ReceiveProof "channel closed"),
       on_proofs (fun c => Channel true (ch_sent c ++ [ProveValidMatchEncrypt witness statement])) w) /\
    notes_of res = Ret (n0, n1, r0, r1, protocol_note) /\
    wp (prove_match_encryption 252 witness statement) s (fun _ _ K =>
      K <-> (forall i, i < 9 -> (Zmod.to_Z (random_scalar w i) < 2 ^ 252)%Z) /\
            swapped (random_scalar w) protocol_note).
Proof.
  intros Hark Hu64 Hres Hopen.
  destruct (build_encryption_valid Hark Hu64 252 (random_scalar w) res Hres)
    as (n0 & n1 & r0 & r1 & pr & wit & st & Hn & Hb & Hlen & Hv).
  exists wit, st, n0, n1, r0, r1, pr. split; [|split; [done|]].
  - unfold submit_match. cbn -[build_encryption]. rewrite Hb. unfold prove_valid_encryption.
    cbn. rewrite Hopen. by destruct (encryption_proved wit st).
  - eapply wp_mono; [by apply wp_prove_match_encryption; [lia|]|]. cbn beta. intros ? ? K ? HK.
    rewrite HK. exact Hv.
Qed.
End submitted.

(** * Examples *)

#[local] Existing Instance sample_foreign.
#[local] Existing Instance sorted_order.
#[local] Existing Instance sample_lc.
#[local] Existing Instance sample_le.
#[local] Existing Instance sample_match.

Definition hashing_oracles : Oracles := {|
  gen_range := fun _ => 0;
  sample_weighted := position (Z.ltb 0);
  ark_hash := Native.sponge default_params;
  scalar_to_u64 := Zmod.to_Z;
  verify_cluster_auth_sig := fun _ => true |}.

#[local] Existing Instance hashing_oracles.

Definition sample_encumber : EncumberOracles := {|
  random_scalar := fun _ i => scalar (Z.of_nat i + 1);
  encryption_proved := fun _ _ => true |}.

#[local] Existing Instance sample_encumber.

Definition sample_result : HandshakeResult := {|
  hr_match := sample_match_result; hr_proof := sample_proof; hr_party0_fee := sample_fee; hr_party1_fee := sample_fee;
  hr_party0_randomness_hash := sample_link 0; hr_party1_randomness_hash := sample_link 0;
  hr_pk_settle0 := scalar 4; hr_pk_settle1 := scalar 8; hr_pk_settle_cluster0 := scalar 16;
  hr_pk_settle_cluster1 := scalar 32 |}.

(** With distinct randomness the prover of the job does not satisfy the constraints. *)
Lemma submitted_match_provable_witness :
  exists witness statement,
    wd_proofs (exec (submit_match sample_result) sample_world).2 =
      Channel true [ProveValidMatchEncrypt witness statement] /\
    wp (prove_match_encryption (C := list_cs) 252 witness statement) (with_values []) (fun _ _ K => ~ K).
Proof.
  destruct (submitted_match_provable (C := list_cs) sample_result sample_world (with_values []))
    as (wit & st & n0 & n1 & r0 & r1 & pr & He & _ & Hk); try done.
  - split; try done. by left.
  - exists wit, st. split; [by rewrite He|]. eapply wp_mono; [exact Hk|]. cbn beta.
    intros ? ? K ? HK HK1. apply HK in HK1 as [_ [H1 _]]. apply (f_equal (fun p => Zmod.to_Z p.1)) in H1.
    vm_compute in H1. discriminate H1.
Defined.
