(* ===== verification/ChainEvents.v ===== *)
(** The listener for events of the contract: core/src/chain_events/listener.rs. *)

From Stdlib Require Import Zmod.
From stdpp Require Import gmap strings pretty.
From S2P Require Import Prelude Async LockOrder Primality Field Starknet Types Merkle RelayerTypes OrderBook.
From S2P Require Import PeerIndex WalletIndex Messages Lru HandshakeCache World RelayerState.

#[global] Set Default Goal Selector "!".
#[local] Open Scope task_scope.

Definition EVENT_CHUNK_SIZE : Z := 100.

Inductive OnChainEventListenerError :=
  | ProofGeneration
  | Rpc
  | ListenerSendMessage
  | Setup (msg : string).

(** ** Continuation tokens *)

(** [u64::from_str] *)
Fixpoint parse_digits (s : string) (acc : Z) : option Z :=
  match s with
  | EmptyString => Some acc
  | String c s' =>
      let d := (Z.of_nat (Ascii.nat_of_ascii c) - 48)%Z in
      if (0 <=? d)%Z && (d <=? 9)%Z then parse_digits s' (acc * 10 + d)%Z else None
  end.

Definition u64_from_str (s : string) : option Z :=
  let digits := match s with
                | String c s' => if Ascii.eqb c (Ascii.ascii_of_nat 43) then s' else s
                | EmptyString => s
                end in
  match digits with
  | EmptyString => None
  | _ => z ← parse_digits digits 0; if (z <? 2 ^ 64)%Z then Some z else None
  end.

(** [to_string] of a [u64] *)
Definition u64_to_string (z : Z) : string := pretty (Z.to_N z).

(** ** Events *)

Record EmittedEvent := { ev_keys : list Felt; ev_data : list Felt; ev_block_number : Z }.

(** The answer to a request for a page of events *)
Inductive events_response :=
  | EventsPage (events : list EmittedEvent) (continuation_token : option string)
  | InvalidContinuationToken
  | RpcFailure.

#[export] Instance MerkleTreeCoords_eq_dec : EqDecision MerkleTreeCoords.
Proof. solve_decision. Defined.

#[export] Program Instance MerkleTreeCoords_countable : Countable MerkleTreeCoords :=
  inj_countable' (fun c => (height c, index c)) (fun p => {| height := p.1; index := p.2 |}) _.
Next Obligation. by intros []. Qed.

Section listener.
  Context `{F : Foreign} `{HO : HashOrder}.
  Context {LC : LruCache (OrderIdentifier * OrderIdentifier) HandshakeCacheState}.
  Context {LE : LruCache PeerId Z}.
  Context {O : Oracles}.

(** The node that is asked for events at a given time, with the first block, the keys, the
    token and the size of a page; the selectors of the contract's events; the opening of a
    witness, whose type belongs to the proof system; and the answer of the proof manager
    to a job. *)
Class ChainOracles := {
  get_events : Z -> Z -> option (list Felt) -> string -> Z -> events_response;
  get_selector_from_name : string -> Felt;
  set_wallet_opening : MerkleOpening -> SizedValidCommitmentsWitness -> SizedValidCommitmentsWitness;
  proof_response : SizedValidCommitmentsWitness -> ValidCommitmentsStatement -> option ValidCommitmentsBundle;
}.
Context {C : ChainOracles}.

Definition MERKLE_ROOT_CHANGED_EVENT_SELECTOR : Felt := get_selector_from_name "Merkle_root_changed".
Definition MERKLE_NODE_CHANGED_EVENT_SELECTOR : Felt := get_selector_from_name "Merkle_internal_node_changed".
Definition NULLIFIER_SPENT_EVENT_SELECTOR : Felt := get_selector_from_name "Nullifier_spent".

#[local] Notation listener := (action OnChainEventListenerError).

Definition rpc (from_block : Z) (keys : option (list Felt)) (token : string) (chunk : Z)
    : listener events_response :=
  gets (fun w => get_events (wd_unix_seconds w) from_block keys token chunk).

(** [fetch_next_events_page] *)
Definition fetch_next_events_page (start_block : Z) : listener (list EmittedEvent * bool) :=
  let* pagination_token := gets wd_page_token in
  let* resp := rpc start_block None (u64_to_string pagination_token) EVENT_CHUNK_SIZE in
  match resp with
  | InvalidContinuationToken => tret ([], false)
  | RpcFailure => tfail Rpc
  | EventsPage events (Some token) =>
      match u64_from_str token with
      | None => tpanic
      | Some parsed_token =>
          modify (on_page_token (fun _ => parsed_token)) ;;*
          tret (events, true)
      end
  | EventsPage events None =>
      modify (on_page_token (fun t => (t + Z.of_nat (length events)) mod 2 ^ 64)%Z) ;;*
      tret (events, false)
  end.

(** [handle_nullifier_spent] *)
Definition handle_nullifier_spent (nullifier : Nullifier) : listener unit :=
  send_job ListenerSendMessage (MpcShootdown nullifier) ;;*
  nullify_orders nullifier.

(** [update_wallet_merkle_path] *)
Definition update_wallet_merkle_path (updated_nodes : gmap MerkleTreeCoords Scalar)
    (merkle_proof : MerkleAuthenticationPath.t) : MerkleAuthenticationPath.t := {|
  MerkleAuthenticationPath.path_siblings :=
    foldl (fun siblings p =>
        match updated_nodes !! p.2 with
        | Some updated_value => <[p.1 := updated_value]> siblings
        | None => siblings
        end)
      (MerkleAuthenticationPath.path_siblings merkle_proof)
      (imap pair (MerkleAuthenticationPath.compute_authentication_path_coords merkle_proof));
  MerkleAuthenticationPath.leaf_index := MerkleAuthenticationPath.leaf_index merkle_proof;
  MerkleAuthenticationPath.value := MerkleAuthenticationPath.value merkle_proof |}.

(** ** A new root *)

(** The entry of an event for a changed node; it has three words. *)
Definition node_change (event : EmittedEvent) : option (MerkleTreeCoords * Scalar) :=
  match ev_data event with
  | height :: index :: value :: _ =>
      Some ({| height := Z.to_nat (starknet_felt_to_u64 height); index := starknet_felt_to_biguint index |},
            starknet_felt_to_scalar value)
  | _ => None
  end.

Fixpoint insert_changes (events : list EmittedEvent) (acc : gmap MerkleTreeCoords Scalar)
    : outcome OnChainEventListenerError (gmap MerkleTreeCoords Scalar) :=
  match events with
  | [] => Ret acc
  | event :: events' =>
      match node_change event with
      | Some (coords, value) => insert_changes events' (<[coords := value]> acc)
      | None => Panic
      end
  end.

(** The loop over the pages; [None] when there are more than [fuel]. *)
Fixpoint fetch_node_changes (fuel : nat) (block_number : Z) (token : string)
    (acc : gmap MerkleTreeCoords Scalar) : listener (option (gmap MerkleTreeCoords Scalar)) :=
  match fuel with
  | 0 => tret None
  | S fuel' =>
      let* resp := rpc block_number (Some [MERKLE_NODE_CHANGED_EVENT_SELECTOR]) token 100 in
      match resp with
      | EventsPage events next =>
          let* acc := Done (insert_changes events acc) in
          match next with
          | Some token => fetch_node_changes fuel' block_number token acc
          | None => tret (Some acc)
          end
      | _ => tfail Rpc
      end
  end.

(** The update of one wallet, with the wallet to prove again if it is stale; the counter
    wraps. *)
Definition refresh_wallet (node_change_events : gmap MerkleTreeCoords Scalar) (wallet : ManagedWallet)
    : option ManagedWallet * ManagedWallet :=
  match w_merkle_proof wallet with
  | None => (None, wallet)
  | Some merkle_proof =>
      let wallet := with_merkle_proof (Some (update_wallet_merkle_path node_change_events merkle_proof))
                      ((w_proof_staleness wallet + 1) mod 2 ^ 32) wallet in
      (if needs_new_commitment_proof wallet then Some wallet else None, wallet)
  end.

Definition refresh_wallet_id (node_change_events : gmap MerkleTreeCoords Scalar) (wallet_id : WalletIdentifier)
    : listener (option ManagedWallet) :=
  act_out (fun w =>
    match wallet_map (wd_wallet_index w) !! wallet_id with
    | Some wallet =>
        let (stale, wallet) := refresh_wallet node_change_events wallet in
        (Ret stale, on_state (on_wallet_index (set_wallet_map (fun m => <[wallet_id := wallet]> m))) w)
    | None => (Panic, w)
    end).

Fixpoint refresh_wallets (node_change_events : gmap MerkleTreeCoords Scalar) (ids : list WalletIdentifier)
    : listener (list ManagedWallet) :=
  match ids with
  | [] => tret []
  | wallet_id :: ids' =>
      let* stale := refresh_wallet_id node_change_events wallet_id in
      let* rest := refresh_wallets node_change_events ids' in
      tret (option_list stale ++ rest)
  end.

(** [handle_root_changed]: the result lists the wallets for which a task that proves their
    orders again is spawned; [None] when there are more than [fuel] pages. *)
Definition handle_root_changed (fuel : nat) (block_number : Z) : listener (option (list ManagedWallet)) :=
  let* node_change_events := fetch_node_changes fuel block_number "0" ∅ in
  match node_change_events with
  | None => tret None
  | Some node_change_events =>
      holding Read WalletIndexLock (
        let* ids := gets (fun w => get_all_wallet_ids (wd_wallet_index w)) in
        let* stale := refresh_wallets node_change_events ids in
        tret (Some stale))
  end.

(** [handle_event] *)
Definition handle_event (fuel : nat) (event : EmittedEvent) : listener (option (list ManagedWallet)) :=
  match ev_keys event with
  | [] => tpanic
  | key :: _ =>
      if Zmod.eqb key MERKLE_ROOT_CHANGED_EVENT_SELECTOR then
        let* last_consistent_block := gets wd_merkle_block in
        if (ev_block_number event <=? last_consistent_block)%Z then tret (Some []) else
        let* stale := handle_root_changed fuel (ev_block_number event) in
        match stale with
        | None => tret None
        | Some stale =>
            modify (on_merkle_block (fun _ => ev_block_number event)) ;;*
            tret (Some stale)
        end
      else if Zmod.eqb key NULLIFIER_SPENT_EVENT_SELECTOR then
        match ev_data event with
        | [] => tpanic
        | felt :: _ =>
            handle_nullifier_spent (starknet_felt_to_scalar felt) ;;*
            tret (Some [])
        end
      else tret (Some [])
  end.

(** The events of a page, with the wallets whose tasks are spawned. *)
Fixpoint handle_events (fuel : nat) (events : list EmittedEvent) : listener (option (list ManagedWallet)) :=
  match events with
  | [] => tret (Some [])
  | event :: events' =>
      let* stale := handle_event fuel event in
      match stale with
      | None => tret None
      | Some stale =>
          let* rest := handle_events fuel events' in
          tret (app stale <$> rest)
      end
  end.

(** [poll_contract_events] for at most [pages] pages *)
Fixpoint poll_contract_events (fuel pages : nat) (start_block : Z) : listener (option (list ManagedWallet)) :=
  match pages with
  | 0 => tret None
  | S pages' =>
      let* page := fetch_next_events_page start_block in
      let* stale := handle_events fuel page.1 in
      match stale with
      | None => tret None
      | Some stale =>
          if page.2 then
            let* rest := poll_contract_events fuel pages' start_block in
            tret (app stale <$> rest)
          else tret (Some stale)
      end
  end.

(** ** New proofs *)

(** [update_order_proof] *)
Definition update_order_proof (order_id : OrderIdentifier) (proof : ValidCommitmentsBundle) : listener unit :=
  add_order_validity_proof order_id proof ;;*
  let* cluster := local_cluster_id in
  send_network ListenerSendMessage (Pubsub ORDER_BOOK_TOPIC
    (OrderBookManagement (OrderProofUpdated order_id cluster proof))).

(** The jobs that are enqueued for the orders, with the answer that each will get; [None]
    when an order has no witness, which ends the function. *)
Fixpoint enqueue_proofs (new_opening : MerkleOpening) (statement : ValidCommitmentsStatement)
    (orders : list OrderIdentifier)
    : listener (option (gmap OrderIdentifier (option ValidCommitmentsBundle))) :=
  match orders with
  | [] => tret (Some ∅)
  | order_id :: orders' =>
      let* stale_witness := gets (fun w => get_validity_proof_witness (wd_order_book w) order_id) in
      match stale_witness with
      | None => tret None
      | Some stale_witness =>
          let witness := set_wallet_opening new_opening stale_witness in
          send_proof_job ListenerSendMessage (ProveValidCommitments witness statement) ;;*
          let* channels := enqueue_proofs new_opening statement orders' in
          tret (<[order_id := proof_response witness statement]> <$> channels)
      end
  end.

(** [update_wallet_commitment_proofs] *)
Definition update_wallet_commitment_proofs (wallet : ManagedWallet) : listener unit :=
  match w_merkle_proof wallet with
  | None => tret tt
  | Some merkle_proof =>
      let statement := {|
        st_nullifier := get_wallet_match_nullifier ark_hash scalar_to_u64 wallet;
        st_merkle_root := MerkleAuthenticationPath.compute_root ark_hash merkle_proof;
        st_pk_settle := pk_settle (w_public_keys wallet) |} in
      let* proof_response_channels := holding Read OrderBookLock
        (enqueue_proofs (MerkleAuthenticationPath.into_opening merkle_proof) statement
           (fst <$> visit (w_orders wallet))) in
      match proof_response_channels with
      | None => tret tt
      | Some channels =>
          tfor (visit channels) (fun p =>
            match p.2 with
            | None => tfail ProofGeneration
            | Some proof => update_order_proof p.1 proof
            end)
      end
  end.
End listener.

(** * What the listener may change *)

Section respects.
  Context `{F : Foreign} `{HO : HashOrder}.
  Context {LC : LruCache (OrderIdentifier * OrderIdentifier) HandshakeCacheState}.
  Context {LE : LruCache PeerId Z}.
  Context {O : Oracles} {C : ChainOracles}.

Section stable.
  Context (I : World -> Prop).
  Context (I_wallets : forall f w, I w -> I (on_state (on_wallet_index f) w)).
  Context (I_jobs : forall f w, I w -> I (on_jobs f w)).
  Context (I_token : forall f w, I w -> I (on_page_token f w)).
  Context (I_block : forall f w, I w -> I (on_merkle_block f w)).
  Context (I_nullify : forall n w, I w -> I (on_state (on_order_book (nullify n)) w)).

Lemma fetch_node_changes_respects fuel b : forall token acc, respects I (fetch_node_changes fuel b token acc).
Proof.
  induction fuel as [|fuel IH]; intros token acc; [done|]. cbn [fetch_node_changes]. unfold rpc. respects_split.
Qed.

Lemma refresh_wallets_respects u ids : respects I (refresh_wallets u ids).
Proof using I_wallets.
  induction ids as [|i ids IH]; [done|]. cbn [refresh_wallets]. apply respects_bind; [|intros; by apply respects_bind].
  apply respects_act_out. intros w Hw. destruct (wallet_map (wd_wallet_index w) !! i) as [wallet|]; [|done].
  destruct (refresh_wallet u wallet). by apply I_wallets.
Qed.

Lemma handle_event_respects fuel e : respects I (handle_event fuel e).
Proof using I_wallets I_jobs I_block I_nullify.
  unfold handle_event. destruct (ev_keys e) as [|key keys]; [done|]. destruct (Zmod.eqb key _).
  - apply respects_bind; [respects_split|]. intros last. destruct (_ <=? _)%Z; [done|]. apply respects_bind.
    + unfold handle_root_changed. apply respects_bind; [apply fetch_node_changes_respects|]. intros [u|]; [|done].
      apply respects_holding. apply respects_bind; [respects_split|]. intros ids.
      by apply respects_bind; [apply refresh_wallets_respects|].
    + intros [stale|]; [|done]. apply respects_bind; [apply respects_modify; auto|done].
  - destruct (Zmod.eqb key _); [|done]. destruct (ev_data e); [done|]. apply respects_bind; [|done].
    unfold handle_nullifier_spent, send_job, nullify_orders, write_order_book. apply respects_bind.
    + apply respects_act_out. intros w Hw. destruct (ch_open (wd_jobs w)); [by apply I_jobs|done].
    + intros _. apply respects_holding, respects_modify. auto.
Qed.

Lemma handle_events_respects fuel l : respects I (handle_events fuel l).
Proof using I_wallets I_jobs I_block I_nullify.
  induction l as [|e l IH]; [done|]. cbn [handle_events]. apply respects_bind; [apply handle_event_respects|].
  intros [stale|]; [|done]. by apply respects_bind.
Qed.

Lemma poll_respects fuel pages b : respects I (poll_contract_events fuel pages b).
Proof using I_wallets I_jobs I_token I_block I_nullify.
  induction pages as [|pages IH]; [done|]. cbn [poll_contract_events]. apply respects_bind.
  - unfold fetch_next_events_page, rpc. respects_split; auto.
  - intros page. apply respects_bind; [apply handle_events_respects|]. intros [stale|]; [|done].
    destruct page.2; [|done]. by apply respects_bind.
Qed.
End stable.

Lemma poll_relayer_ok fuel pages b : respects relayer_ok (poll_contract_events fuel pages b).
Proof.
  apply poll_respects; intros f w Hw; try (by apply (relayer_ok_same w)); [by apply relayer_ok_wallets|].
  apply relayer_ok_book; [|done]. intros. by apply book_nullify.
Qed.

Lemma enqueue_proofs_respects o st l : respects relayer_ok (enqueue_proofs o st l).
Proof.
  induction l as [|i l IH]; [done|]. cbn [enqueue_proofs]. apply respects_bind; [respects_split|].
  intros [wit|]; [|done]. apply respects_bind; [|intros; by apply respects_bind].
  apply respects_act_out. intros w Hw. case_match; [by apply (relayer_ok_same w)|done].
Qed.

Lemma update_proofs_respects wallet : respects relayer_ok (update_wallet_commitment_proofs wallet).
Proof.
  unfold update_wallet_commitment_proofs. destruct (w_merkle_proof wallet); [|done].
  apply respects_bind; [apply respects_holding, enqueue_proofs_respects|]. intros [chs|]; [|done].
  apply respects_for. intros [i [proof|]]; [|done]. unfold update_order_proof, local_cluster_id.
  apply respects_bind; [apply add_order_validity_proof_respects|]. intros _. respects_split.
  - by apply (relayer_ok_same s).
Qed.

(** ** Locks *)

#[local] Notation in_order := (ordered rank [] []).

Lemma fetch_node_changes_ordered cur fuel b : forall token acc, ordered rank cur cur (fetch_node_changes fuel b token acc).
Proof.
  induction fuel as [|fuel IH]; intros token acc; [done|]. cbn [fetch_node_changes]. unfold rpc. ordered_split.
Qed.

Lemma refresh_wallets_ordered cur u ids : ordered rank cur cur (refresh_wallets u ids).
Proof.
  induction ids as [|i ids IH]; [done|]. cbn [refresh_wallets]. apply ordered_bind; [done|].
  intros a. by apply ordered_bind.
Qed.

Lemma handle_event_ordered fuel e : in_order (handle_event fuel e).
Proof.
  unfold handle_event, handle_root_changed, handle_nullifier_spent.
  pose proof fetch_node_changes_ordered. pose proof refresh_wallets_ordered. ordered_split; auto.
Qed.

Lemma poll_ordered fuel pages b : in_order (poll_contract_events fuel pages b).
Proof.
  induction pages as [|pages IH]; [done|]. cbn [poll_contract_events]. apply ordered_bind.
  - unfold fetch_next_events_page, rpc. ordered_split.
  - intros page. apply ordered_bind; [|intros [stale|]; [|done]; destruct page.2; [by apply ordered_bind|done]].
    induction page.1 as [|e l IHl]; [done|]. cbn [handle_events]. apply ordered_bind; [apply handle_event_ordered|].
    intros [stale|]; [|done]. by apply ordered_bind.
Qed.

Lemma enqueue_proofs_ordered cur o st l : ordered rank cur cur (enqueue_proofs o st l).
Proof.
  induction l as [|i l IH]; [done|]. cbn [enqueue_proofs]. apply ordered_bind; [done|].
  intros [wit|]; [|done]. apply ordered_bind; [done|]. intros _. by apply ordered_bind.
Qed.

Lemma update_proofs_ordered wallet : in_order (update_wallet_commitment_proofs wallet).
Proof.
  unfold update_wallet_commitment_proofs, update_order_proof. pose proof enqueue_proofs_ordered. ordered_split; auto.
Qed.
End respects.

#[export] Hint Resolve poll_relayer_ok update_proofs_respects : respects.
#[export] Hint Resolve poll_ordered update_proofs_ordered : ordered.
