(* ===== verification/ChainProperties.v ===== *)
(** What the chain listener guarantees: authentication paths that follow the tree of the
    contract, orders that are cancelled when their nullifier is spent, and how far its
    paging of events goes. *)

From Stdlib Require Import Zmod.
From stdpp Require Import gmap strings pretty.
From S2P Require Import Prelude Async LockOrder Primality Field Starknet Types Merkle RelayerTypes OrderBook.
From S2P Require Import PeerIndex WalletIndex Messages Lru HandshakeCache World RelayerState ChainEvents.

#[global] Set Default Goal Selector "!".
#[local] Open Scope task_scope.

(** * Authentication paths *)

(** The values of the nodes of a tree, by height and index. *)
Definition tree : Type := nat -> Z -> Scalar.

Definition node (T : tree) (c : MerkleTreeCoords) : Scalar := T (height c) (index c).

(** Inner nodes are the hashes of their children. *)
Definition consistent (hash : list Scalar -> Scalar) (T : tree) : Prop :=
  forall h i, h < MERKLE_HEIGHT -> T h i = hash [T (S h) (2 * i)%Z; T (S h) (2 * i + 1)%Z].

(** The siblings of the path are the nodes of the tree. *)
Definition siblings_of (T : tree) (p : MerkleAuthenticationPath.t) : Prop :=
  MerkleAuthenticationPath.path_siblings p =
  node T <$> MerkleAuthenticationPath.compute_authentication_path_coords p.

Lemma path_coords_length heights i : length (MerkleAuthenticationPath.path_coords i heights) = length heights.
Proof. revert i; induction heights; intros i; cbn; auto. Qed.

(** Folding the siblings of a node at height [n] leads to its ancestor at the top. *)
Lemma fold_path_tree hash T : consistent hash T ->
  forall n i, n <= MERKLE_HEIGHT ->
  MerkleAuthenticationPath.fold_path hash i (T n i)
    (node T <$> MerkleAuthenticationPath.path_coords i (rev (seq 1 n))) = T 0 (Z.shiftr i (Z.of_nat n)).
Proof.
  intros HT. induction n as [|n IH]; intros i Hn; [by rewrite Z.shiftr_0_r|].
  rewrite seq_S, rev_app_distr. cbn [rev app MerkleAuthenticationPath.path_coords fmap list_fmap
    MerkleAuthenticationPath.fold_path].
  replace (Z.shiftr i (Z.of_nat (S n))) with (Z.shiftr (Z.shiftr i 1) (Z.of_nat n))
    by (rewrite Z.shiftr_shiftr by lia; f_equal; lia).
  rewrite <- IH by lia. rewrite (HT n (Z.shiftr i 1)) by lia.
  rewrite Z.shiftr_div_pow2, Z.pow_1_r by lia. pose proof (Z.div_mod i 2 ltac:(lia)) as Hi.
  pose proof (Z.mod_pos_bound i 2 ltac:(lia)). unfold node at 1; cbn [height index].
  replace (1 + n) with (S n) by lia.
  destruct (Z.eqb_spec (i mod 2) 0) as [E|E].
  - replace (2 * (i / 2))%Z with i by lia. done.
  - replace (2 * (i / 2))%Z with (i - 1)%Z by lia. replace (i - 1 + 1)%Z with i by lia. done.
Qed.

(** One update of the loop *)
Definition store_node (u : gmap MerkleTreeCoords Scalar) (sib : list Scalar) (p : nat * MerkleTreeCoords)
    : list Scalar :=
  match u !! p.2 with Some v => <[p.1 := v]> sib | None => sib end.

Lemma store_nodes u coords : forall pre sib,
  length sib = length coords ->
  foldl (store_node u) (pre ++ sib) (imap (fun j c => (length pre + j, c)) coords) =
  pre ++ zip_with (fun s c => default s (u !! c)) sib coords.
Proof.
  induction coords as [|c coords IH]; intros pre [|s sib] Hl; try done.
  cbn [imap foldl zip_with]. injection Hl as Hl.
  assert (Hstep : store_node u (pre ++ s :: sib) (length pre + 0, c) = (pre ++ [default s (u !! c)]) ++ sib).
  { rewrite <- app_assoc. cbn. unfold store_node; cbn [fst snd]. destruct (u !! c); [|done]. cbn.
    by rewrite insert_app_r. }
  rewrite Hstep. rewrite (imap_ext _ (fun j c => (length (pre ++ [default s (u !! c)]) + j, c))).
  2: { intros j x _. cbn. rewrite length_app. cbn. f_equal. lia. }
  replace (default s (u !! c) :: zip_with (fun s c => default s (u !! c)) sib coords)
    with ([default s (u !! c)] ++ zip_with (fun s c => default s (u !! c)) sib coords) by done.
  rewrite app_assoc. rewrite <- IH by done. f_equal. apply imap_ext. intros j x _. cbn. by rewrite !length_app.
Qed.

#[local] Opaque MerkleAuthenticationPath.path_coords MERKLE_HEIGHT.

Lemma zip_updates (u : gmap MerkleTreeCoords Scalar) T T' coords :
  (forall c, c ∈ coords -> node T' c = default (node T c) (u !! c)) ->
  zip_with (fun s c => default s (u !! c)) (node T <$> coords) coords = node T' <$> coords.
Proof.
  intros Hu. induction coords as [|c l IH]; [done|]. cbn. f_equal.
  - symmetry. apply Hu. by left.
  - apply IH. intros c' Hc'. apply Hu. by right.
Qed.

Lemma updated_siblings u T T' p :
  siblings_of T p ->
  (forall c, c ∈ MerkleAuthenticationPath.compute_authentication_path_coords p ->
     node T' c = default (node T c) (u !! c)) ->
  siblings_of T' (update_wallet_merkle_path u p).
Proof.
  intros HT Hu. unfold siblings_of. rewrite <- (zip_updates u T T') by exact Hu.
  unfold siblings_of in HT. destruct p as [sib i v].
  remember (MerkleAuthenticationPath.compute_authentication_path_coords _) as coords eqn:Hc in HT.
  cbn [MerkleAuthenticationPath.path_siblings] in HT. unfold update_wallet_merkle_path.
  cbn [MerkleAuthenticationPath.path_siblings MerkleAuthenticationPath.leaf_index MerkleAuthenticationPath.value].
  unfold MerkleAuthenticationPath.compute_authentication_path_coords in *.
  cbn [MerkleAuthenticationPath.leaf_index] in *. rewrite <- Hc, HT.
  apply (store_nodes u coords []). apply length_fmap.
Qed.

(** C4: When the nodes that changed are applied to the authentication path of a wallet, the
    path that belonged to the old tree belongs to the new one, and the root that it gives is
    the root of the new tree. *)
Theorem merkle_path_follows_tree hash T T' u p :
  consistent hash T' -> siblings_of T p ->
  MerkleAuthenticationPath.value p = T' MERKLE_HEIGHT (MerkleAuthenticationPath.leaf_index p) ->
  (0 <= MerkleAuthenticationPath.leaf_index p < 2 ^ Z.of_nat MERKLE_HEIGHT)%Z ->
  (forall c, c ∈ MerkleAuthenticationPath.compute_authentication_path_coords p ->
     node T' c = default (node T c) (u !! c)) ->
  siblings_of T' (update_wallet_merkle_path u p) /\
  MerkleAuthenticationPath.compute_root hash (update_wallet_merkle_path u p) = T' 0 0%Z.
Proof.
  intros HT' HT Hv Hi Hu. pose proof (updated_siblings u T T' p HT Hu) as Hs. split; [done|].
  unfold MerkleAuthenticationPath.compute_root. rewrite Hs.
  change (MerkleAuthenticationPath.value (update_wallet_merkle_path u p))
    with (MerkleAuthenticationPath.value p).
  change (MerkleAuthenticationPath.leaf_index (update_wallet_merkle_path u p))
    with (MerkleAuthenticationPath.leaf_index p).
  rewrite Hv. unfold MerkleAuthenticationPath.compute_authentication_path_coords.
  rewrite (fold_path_tree hash T' HT' MERKLE_HEIGHT) by done.
  rewrite Z.shiftr_div_pow2 by lia. by rewrite Z.div_small by exact Hi.
Qed.

Section listener.
  Context `{F : Foreign} `{HO : HashOrder}.
  Context {LC : LruCache (OrderIdentifier * OrderIdentifier) HandshakeCacheState}.
  Context {LE : LruCache PeerId Z}.
  Context {O : Oracles} {C : ChainOracles}.

(** * Nullifiers *)

(** The event for a nullifier carries its residue modulo the prime of the chain. *)
Definition nullifier_event (block : Z) (n : Nullifier) : EmittedEvent := {|
  ev_keys := [NULLIFIER_SPENT_EVENT_SELECTOR]; ev_data := [Zmod.of_Z _ (Zmod.to_Z n)];
  ev_block_number := block |}.

Definition reported (n : Nullifier) : Nullifier := scalar (Zmod.to_Z n mod starknet_prime).

Lemma reported_felt n : starknet_felt_to_scalar (Zmod.of_Z _ (Zmod.to_Z n)) = reported n.
Proof. rewrite felt_to_scalar_spec, Zmod.to_Z_of_Z. done. Qed.

Lemma reported_small n : (Zmod.to_Z n < starknet_prime)%Z -> reported n = n.
Proof.
  intros Hn. unfold reported. pose proof (scalar_range n). rewrite Z.mod_small by lia. apply Zmod.of_Z_to_Z.
Qed.

Lemma reported_large n : (starknet_prime <= Zmod.to_Z n)%Z -> reported n <> n.
Proof.
  intros Hn He. assert (Hz : Zmod.to_Z (reported n) = Zmod.to_Z n) by congruence.
  pose proof (Z.mod_pos_bound (Zmod.to_Z n) starknet_prime ltac:(done)). pose proof starknet_prime_bound.
  unfold reported in Hz. rewrite to_Z_small in Hz by lia. lia.
Qed.

(** C11: A nullifier that the contract reports as spent makes the listener stop the matches
    and cancel the orders that use it, provided that the nullifier is below the prime of the
    chain.  The event carries its residue: the orders of a larger nullifier are untouched
    unless they are also indexed under the residue. *)
Theorem nullifier_event_handled fuel w block n :
  relayer_ok w -> ch_open (wd_jobs w) = true ->
  NULLIFIER_SPENT_EVENT_SELECTOR <> MERKLE_ROOT_CHANGED_EVENT_SELECTOR ->
  exists w', exec (handle_event fuel (nullifier_event block n)) w = (Ret (Some []), w') /\ relayer_ok w' /\
    ch_sent (wd_jobs w') = ch_sent (wd_jobs w) ++ [MpcShootdown (reported n)] /\
    ((Zmod.to_Z n < starknet_prime)%Z -> reported n = n /\
       forall i o, get_order_info (wd_order_book w) i = Some o -> no_match_nullifier o = n ->
         get_order_info (wd_order_book w') i = Some (order_transition_cancelled o)) /\
    ((starknet_prime <= Zmod.to_Z n)%Z -> reported n <> n /\
       forall i, ~ indexed_under (wd_order_book w) (reported n) i ->
         get_order_info (wd_order_book w') i = get_order_info (wd_order_book w) i).
Proof.
  intros Hok Hopen Hsel. unfold handle_event, nullifier_event. cbn [ev_keys ev_data].
  destruct (Zmod.eqb_spec NULLIFIER_SPENT_EVENT_SELECTOR MERKLE_ROOT_CHANGED_EVENT_SELECTOR) as [|_]; [done|].
  destruct (Zmod.eqb_spec NULLIFIER_SPENT_EVENT_SELECTOR NULLIFIER_SPENT_EVENT_SELECTOR) as [_|]; [|done].
  rewrite reported_felt. unfold handle_nullifier_spent, send_job, nullify_orders, write_order_book.
  rewrite !exec_bind. cbn [exec act_out]. rewrite Hopen. cbn [fst snd]. rewrite exec_holding. cbn [exec modify tret].
  eexists. split; [reflexivity|].
  match goal with |- relayer_ok ?w' /\ _ => set (w1 := w') end.
  assert (Hb : wd_order_book w1 = nullify (reported n) (wd_order_book w)) by reflexivity.
  split; [|split; [reflexivity|]].
  { apply relayer_ok_book; [intros; by apply book_nullify|]. by apply (relayer_ok_same w). }
  split; intros Hn; (split; [by (apply reported_small || apply reported_large)|]).
  - intros i o Ho Hno. rewrite Hb, nullify_order, (reported_small n Hn), decide_True, Ho; [done|].
    apply elem_of_by_nullifier. rewrite <- Hno. by apply (rok_indexed _ Hok).
  - intros i Hi. rewrite Hb, nullify_order, decide_False; [done|]. by rewrite elem_of_by_nullifier.
Qed.

(** * Paging *)

(** A task that neither reads nor writes the token of the next page. *)
Definition blind {E A} (m : action E A) : Prop :=
  forall w f, exec m (on_page_token f w) = let (r, w') := exec m w in (r, on_page_token f w').

Lemma blind_bind {E A B} (m : action E A) (k : A -> action E B) :
  blind m -> (forall a, blind (k a)) -> blind (tbind m k).
Proof.
  intros Hm Hk w f. rewrite !exec_bind, Hm. destruct (exec m w) as [[a|e|] w']; [apply Hk|done|done].
Qed.

Lemma blind_holding {E A} md l (m : action E A) : blind m -> blind (holding md l m).
Proof. intros Hm w f. rewrite !exec_holding. apply Hm. Qed.

Lemma blind_done {E A} (r : outcome E A) : blind (Done r).
Proof. done. Qed.

Lemma fetch_node_changes_blind fuel b : forall token acc, blind (fetch_node_changes fuel b token acc).
Proof.
  induction fuel as [|fuel IH]; intros token acc; [done|]. cbn [fetch_node_changes].
  apply blind_bind; [done|]. intros [events next| |]; [|done|done].
  apply blind_bind; [done|]. intros acc'. destruct next; [apply IH|done].
Qed.

Lemma refresh_wallets_blind u ids : blind (refresh_wallets u ids).
Proof.
  induction ids as [|i ids IH]; [done|]. cbn [refresh_wallets]. apply blind_bind.
  - intros w f. unfold refresh_wallet_id. cbn [exec act_out].
    change (wd_wallet_index (on_page_token f w)) with (wd_wallet_index w).
    destruct (wallet_map (wd_wallet_index w) !! i) as [wallet|]; [|done].
    by destruct (refresh_wallet u wallet).
  - intros stale. by apply blind_bind.
Qed.

Lemma handle_event_blind fuel e : blind (handle_event fuel e).
Proof.
  unfold handle_event. destruct (ev_keys e) as [|key keys]; [done|]. destruct (Zmod.eqb key _).
  - apply blind_bind; [done|]. intros last. destruct (_ <=? _)%Z; [done|]. apply blind_bind.
    + unfold handle_root_changed. apply blind_bind; [apply fetch_node_changes_blind|]. intros [u|]; [|done].
      apply blind_holding. apply blind_bind; [done|]. intros ids. by apply blind_bind; [apply refresh_wallets_blind|].
    + intros [stale|]; [|done]. by apply blind_bind.
  - destruct (Zmod.eqb key _); [|done]. destruct (ev_data e); [done|]. apply blind_bind; [|done].
    unfold handle_nullifier_spent. apply blind_bind.
    + intros w f'. unfold send_job. cbn [exec act_out].
      change (wd_jobs (on_page_token f' w)) with (wd_jobs w). by destruct (ch_open (wd_jobs w)).
    + intros _. by apply blind_holding.
Qed.

Lemma handle_events_blind fuel l : blind (handle_events fuel l).
Proof.
  induction l as [|e l IH]; [done|]. cbn [handle_events]. apply blind_bind; [apply handle_event_blind|].
  intros [stale|]; [|done]. by apply blind_bind.
Qed.

Lemma handle_events_app fuel l1 l2 w stale w' :
  exec (handle_events fuel (l1 ++ l2)) w = (Ret (Some stale), w') ->
  exists s1 s2 w1, stale = s1 ++ s2 /\ exec (handle_events fuel l1) w = (Ret (Some s1), w1) /\
    exec (handle_events fuel l2) w1 = (Ret (Some s2), w').
Proof.
  revert w stale. induction l1 as [|e l1 IH]; intros w stale; cbn [app handle_events].
  - intros H. by exists [], stale, w.
  - rewrite !exec_bind. destruct (exec (handle_event fuel e) w) as [[[s|]|x|] w1]; [|done..].
    rewrite !exec_bind. destruct (exec (handle_events fuel (l1 ++ l2)) w1) as [[[rest|]|x|] w2] eqn:Hrest; [|done..].
    cbn. intros [= <- <-]. destruct (IH w1 rest Hrest) as (s1 & s2 & w3 & -> & H1 & H2).
    exists (s ++ s1), s2, w3. rewrite H1. cbn. by rewrite app_assoc.
Qed.

Lemma handle_events_clock fuel l w : wd_unix_seconds (exec (handle_events fuel l) w).2 = wd_unix_seconds w.
Proof.
  apply (respects_exec (fun w' => wd_unix_seconds w' = wd_unix_seconds w)); [|done].
  by apply handle_events_respects.
Qed.

(** The node serves the list of all events, a page at a time. *)
Definition serves (now block : Z) (events : list EmittedEvent) : Prop :=
  forall t, t <= length events -> exists next,
    get_events now block None (u64_to_string (Z.of_nat t)) EVENT_CHUNK_SIZE =
      EventsPage (take 100 (drop t events)) next /\
    match next with
    | Some token => u64_from_str token = Some (Z.of_nat (t + 100)) /\ t + 100 <= length events
    | None => length events <= t + 100
    end.

Lemma fetch_served w block events t :
  serves (wd_unix_seconds w) block events -> wd_page_token w = Z.of_nat t -> t <= length events ->
  (Z.of_nat (length events) < 2 ^ 64)%Z ->
  exists more, exec (fetch_next_events_page block) w =
    (Ret (take 100 (drop t events), more), on_page_token (fun _ => Z.of_nat (min (t + 100) (length events))) w) /\
    (more = true -> t + 100 <= length events) /\ (more = false -> length events <= t + 100).
Proof.
  intros Hs Ht Hle Hlen. destruct (Hs t Hle) as (next & Hget & Hnext).
  unfold fetch_next_events_page, rpc. rewrite exec_bind. cbn [exec gets tret]. rewrite exec_bind. cbn [exec gets tret].
  rewrite Ht, Hget. destruct next as [token|].
  - destruct Hnext as [Hp Hn]. rewrite Hp. exists true. split; [|done].
    rewrite Nat.min_l by lia. done.
  - exists false. split; [|done]. cbn. unfold on_page_token. rewrite Ht.
    rewrite length_take, length_drop. repeat f_equal. rewrite Z.mod_small by lia. lia.
Qed.

Lemma exec_blind_Ret {E A} (m : action E A) f w r w' :
  blind m -> exec m w = (r, w') -> exec m (on_page_token f w) = (r, on_page_token f w').
Proof. intros Hm Hr. by rewrite Hm, Hr. Qed.


(** C19: An event that cannot be handled, for instance because the node does not answer, makes
    the listener forget the events that follow it in the page: the poll fails, but the token
    already points behind the page, so that no later poll sees them. *)
Theorem failed_event_skips_page fuel pages block events w t e w' :
  serves (wd_unix_seconds w) block events -> (Z.of_nat (length events) < 2 ^ 64)%Z ->
  wd_page_token w = Z.of_nat t -> t <= length events ->
  exec (handle_events fuel (take 100 (drop t events))) w = (Fail e, w') ->
  exists w'', exec (poll_contract_events fuel (S pages) block) w = (Fail e, w'') /\
    wd_page_token w'' = Z.of_nat (min (t + 100) (length events)).
Proof.
  intros Hs Hlen Ht Hle Hev. destruct (fetch_served w block events t Hs Ht Hle Hlen) as (more & Hf & _).
  cbn [poll_contract_events]. rewrite exec_bind, Hf. cbn [fst snd]. rewrite exec_bind.
  erewrite exec_blind_Ret by (apply handle_events_blind || exact Hev). eexists. split; [reflexivity|done].
Qed.

(** Polls are started on a timer, whether or not the last one has returned.  Two that
    overlap fetch the same page and both advance the token by its length: afterwards the
    token is behind events that neither of them has seen. *)
Theorem overlapping_polls_skip_events w block events t k1 k2 :
  get_events (wd_unix_seconds w) block None (u64_to_string (wd_page_token w)) EVENT_CHUNK_SIZE =
    EventsPage events None ->
  wd_page_token w = Z.of_nat t -> (Z.of_nat (t + 2 * length events) < 2 ^ 64)%Z ->
  let poll k := let* page := fetch_next_events_page block in k page in
  exists c, rtc runs (Config unlocked w (fun n => [poll k1; poll k2] !! n)) c /\
    tasks c 0 = Some (k1 (events, false)) /\ tasks c 1 = Some (k2 (events, false)) /\
    wd_page_token (shared c) = Z.of_nat (t + 2 * length events).
Proof.
  intros Hget Ht Hlen poll. eexists. split; [|split_and!].
  - eapply rtc_l; [eapply step_atom with (t := 0); reflexivity|]. cbn.
    eapply rtc_l; [eapply step_atom with (t := 1); reflexivity|]. cbn.
    eapply rtc_l; [eapply step_atom with (t := 0); reflexivity|]. cbn.
    eapply rtc_l; [eapply step_atom with (t := 1); reflexivity|]. cbn. rewrite Hget. cbn.
    eapply rtc_l; [eapply step_atom with (t := 0); reflexivity|]. cbn.
    eapply rtc_l; [eapply step_atom with (t := 1); reflexivity|]. apply rtc_refl.
  - reflexivity.
  - reflexivity.
  - cbn -[Z.pow Z.modulo]. rewrite Ht, (Z.mod_small (Z.of_nat t + Z.of_nat (length events))) by lia.
    rewrite Z.mod_small by lia. lia.
Qed.

(** * Staleness *)

(** The wallets [ids] refreshed, the others as they were. *)
Definition refreshed (u : gmap MerkleTreeCoords Scalar) (ids : list WalletIdentifier)
    (m : gmap WalletIdentifier ManagedWallet) : gmap WalletIdentifier ManagedWallet :=
  foldl (fun m i => alter (fun wallet => (refresh_wallet u wallet).2) i m) m ids.

Lemma refreshed_lookup u ids m i :
  NoDup ids -> refreshed u ids m !! i =
  if decide (i ∈ ids) then (fun wallet => (refresh_wallet u wallet).2) <$> m !! i else m !! i.
Proof.
  intros Hnd. revert m. induction Hnd as [|j ids Hj Hnd IH]; intros m.
  - rewrite decide_False by (by apply not_elem_of_nil). done.
  - cbn. fold (refreshed u ids (alter (fun wallet => (refresh_wallet u wallet).2) j m)). rewrite IH.
    destruct (decide (i = j)) as [->|Hne].
    + rewrite decide_False by done. rewrite decide_True by (by left). apply lookup_alter_eq.
    + rewrite lookup_alter_ne by done. destruct (decide (i ∈ ids)).
      * rewrite decide_True by (by right). done.
      * rewrite decide_False; [done|]. by intros [?|?]%elem_of_cons.
Qed.

Lemma exec_refresh_wallets u ids w :
  NoDup ids -> (forall i, i ∈ ids -> is_Some (wallet_map (wd_wallet_index w) !! i)) ->
  exists stale w', exec (refresh_wallets u ids) w = (Ret stale, w') /\
    wallet_map (wd_wallet_index w') = refreshed u ids (wallet_map (wd_wallet_index w)) /\
    forall x, x ∈ stale <-> exists i wallet, i ∈ ids /\ wallet_map (wd_wallet_index w) !! i = Some wallet /\
      (refresh_wallet u wallet).1 = Some x.
Proof.
  intros Hnd. revert w. induction Hnd as [|j ids Hj Hnd IH]; intros w Hin.
  { eexists [], w. split; [done|]. split; [done|]. intros x. split; [intros H; by apply not_elem_of_nil in H|].
    by intros (i & wallet & Hi%not_elem_of_nil & _). }
  destruct (Hin j) as [wallet Hw]; [by left|]. cbn [refresh_wallets].
  rewrite exec_bind. unfold refresh_wallet_id. cbn [exec act_out]. rewrite Hw.
  destruct (refresh_wallet u wallet) as [st wallet'] eqn:Hr. cbn [fst snd].
  set (w1 := on_state _ w).
  assert (Hm1 : wallet_map (wd_wallet_index w1) = <[j := wallet']> (wallet_map (wd_wallet_index w))) by reflexivity.
  assert (Halter : alter (fun wallet => (refresh_wallet u wallet).2) j (wallet_map (wd_wallet_index w)) =
    <[j := wallet']> (wallet_map (wd_wallet_index w))).
  { apply map_eq. intros i. destruct (decide (i = j)) as [->|Hne].
    - by rewrite lookup_alter_eq, Hw, lookup_insert_eq; cbn; rewrite Hr.
    - by rewrite lookup_alter_ne, lookup_insert_ne. }
  destruct (IH w1) as (stale & w2 & Hex & Hmap & Hst).
  { intros i Hi. rewrite Hm1, lookup_insert_ne by (by intros ->). apply Hin. by right. }
  rewrite exec_bind, Hex. exists (option_list st ++ stale), w2. split; [done|]. split.
  { rewrite Hmap, Hm1. cbn. by rewrite Halter. }
  intros x. rewrite elem_of_app, Hst. split.
  - intros [Hx|(i & v & Hi & Hv & Hx)].
    + exists j, wallet. destruct st as [y|]; cbn in Hx; [|by apply not_elem_of_nil in Hx].
      apply list_elem_of_singleton in Hx as ->. rewrite Hr. split; [by left|done].
    + exists i, v. split; [by right|]. rewrite Hm1, lookup_insert_ne in Hv by (by intros ->). done.
  - intros (i & v & [->|Hi]%elem_of_cons & Hv & Hx).
    + left. rewrite Hw in Hv. injection Hv as <-. rewrite Hr in Hx. cbn in Hx. subst st. by left.
    + right. exists i, v. rewrite Hm1, lookup_insert_ne by (by intros ->). done.
Qed.

Lemma exec_fetch_pure fuel block : forall token acc w,
  (exec (fetch_node_changes fuel block token acc) w).2 = w.
Proof.
  induction fuel as [|fuel IH]; intros token acc w; [done|]. cbn [fetch_node_changes]. unfold rpc.
  rewrite exec_bind. cbn [exec gets tret]. destruct (get_events _ _ _ _ _) as [events next| |]; [|done|done].
  rewrite exec_bind. destruct (insert_changes events acc) as [acc'| |]; [|done|done]. cbn.
  destruct next; [apply IH|done].
Qed.

Lemma wallet_ids_spec (idx : WalletIndex) :
  NoDup (get_all_wallet_ids idx) /\ forall i, i ∈ get_all_wallet_ids idx <-> is_Some (wallet_map idx !! i).
Proof.
  unfold get_all_wallet_ids. split.
  - rewrite visit_perm. apply NoDup_fst_map_to_list.
  - intros i. rewrite list_elem_of_fmap. split.
    + intros ([j x] & -> & Hj). apply elem_of_visit in Hj. by exists x.
    + intros [x Hx]. exists (i, x). split; [done|]. by apply elem_of_visit.
Qed.

Lemma exec_root_changed fuel block w stale w' :
  exec (handle_root_changed fuel block) w = (Ret (Some stale), w') ->
  exists u, exec (fetch_node_changes fuel block "0" ∅) w = (Ret (Some u), w) /\
    wallet_map (wd_wallet_index w') = (fun wallet => (refresh_wallet u wallet).2) <$> wallet_map (wd_wallet_index w) /\
    forall x, x ∈ stale <-> exists i wallet, wallet_map (wd_wallet_index w) !! i = Some wallet /\
      (refresh_wallet u wallet).1 = Some x.
Proof.
  unfold handle_root_changed. rewrite exec_bind. pose proof (exec_fetch_pure fuel block "0" ∅ w) as Hpure.
  destruct (exec (fetch_node_changes fuel block "0" ∅) w) as [[[u|]|e|] w0]; cbn in Hpure; subst w0; [|done..].
  rewrite exec_holding, exec_bind. cbn [exec gets tret].
  destruct (wallet_ids_spec (wd_wallet_index w)) as [Hnd Hids].
  destruct (exec_refresh_wallets u (get_all_wallet_ids (wd_wallet_index w)) w Hnd) as (st & w1 & Hex & Hmap & Hst).
  { intros i. by rewrite Hids. }
  rewrite exec_bind, Hex. cbn. intros [= <- <-]. exists u. split; [done|]. split.
  - rewrite Hmap. apply map_eq. intros i. rewrite refreshed_lookup, lookup_fmap by done.
    destruct (wallet_map (wd_wallet_index w) !! i) as [x|] eqn:Hi.
    + rewrite decide_True; [done|]. rewrite Hids, Hi. done.
    + by case_decide.
  - intros x. rewrite Hst. split.
    + intros (i & wallet & _ & H). eauto.
    + intros (i & wallet & Hi & Hx). exists i, wallet. split; [|done]. rewrite Hids, Hi. done.
Qed.


Lemma update_proofs_keep_wallets wallet w :
  wd_wallet_index (exec (update_wallet_commitment_proofs wallet) w).2 = wd_wallet_index w.
Proof.
  apply (respects_exec (fun w' => wd_wallet_index w' = wd_wallet_index w)); [|done].
  unfold update_wallet_commitment_proofs. destruct (w_merkle_proof wallet) as [p|]; [|done].
  apply respects_bind.
  - apply respects_holding. generalize (fst <$> visit (w_orders wallet)). intros l.
    induction l as [|i l IH]; [done|]. cbn [enqueue_proofs]. apply respects_bind; [respects_split|].
    intros [wit|]; [|done]. apply respects_bind; [|intros; by apply respects_bind].
    apply respects_act_out. intros s Hs. by case_match.
  - intros [chs|]; [|done]. apply respects_for. intros [i [proof|]]; [|done].
    unfold update_order_proof, local_cluster_id, add_order_validity_proof, write_order_book. respects_split.
Qed.

(** New proofs do not reset the count of the roots since the last ones.  A wallet that has
    become stale is proved again at each of the following roots, although its orders are
    always proved against the root before. *)
Theorem proofs_leave_staleness fuel block w stale w' i wallet p :
  exec (handle_root_changed fuel block) w = (Ret (Some stale), w') ->
  wallet_map (wd_wallet_index w) !! i = Some wallet -> w_merkle_proof wallet = Some p ->
  (STALENESS_THRESHOLD <= w_proof_staleness wallet < 2 ^ 32 - 1)%Z ->
  exists wallet', wallet' ∈ stale /\
    let proved := foldl (fun w x => (exec (update_wallet_commitment_proofs x) w).2) w' stale in
    wallet_map (wd_wallet_index proved) !! i = Some wallet' /\
    w_proof_staleness wallet' = (w_proof_staleness wallet + 1)%Z.
Proof.
  intros Hex Hi Hp Hs. destruct (exec_root_changed fuel block w stale w' Hex) as (u & Hu & Hmap & Hst).
  exists (refresh_wallet u wallet).2.
  assert (Hstale : w_proof_staleness (refresh_wallet u wallet).2 = (w_proof_staleness wallet + 1)%Z).
  { unfold refresh_wallet. rewrite Hp. cbn -[Z.pow Z.modulo]. apply Z.mod_small. unfold STALENESS_THRESHOLD in Hs.
    assert (0 <= MERKLE_ROOT_HISTORY_LENGTH * 3 / 4)%Z by (by vm_compute). lia. }
  split; [|split; [|done]].
  - apply Hst. exists i, wallet. split; [done|]. revert Hstale. unfold refresh_wallet. rewrite Hp.
    cbn -[needs_new_commitment_proof Z.pow Z.modulo]. unfold needs_new_commitment_proof. intros Hstale. cbn -[Z.pow Z.modulo].
    rewrite Hstale. by rewrite (proj2 (Z.ltb_lt _ _)) by lia.
  - assert (Hkeep : forall l w1, wd_wallet_index (foldl (fun w x => (exec (update_wallet_commitment_proofs x) w).2) w1 l)
      = wd_wallet_index w1).
    { induction l as [|x l IH]; intros w1; [done|]. cbn. rewrite IH. apply update_proofs_keep_wallets. }
    cbv zeta. rewrite Hkeep, Hmap, lookup_fmap, Hi. done.
Qed.
End listener.

(** * Examples *)

#[local] Existing Instance sample_foreign.
#[local] Existing Instance sorted_order.
#[local] Existing Instance sample_lc.
#[local] Existing Instance sample_le.
#[local] Existing Instance sample_oracles.

#[local] Transparent MerkleAuthenticationPath.path_coords MERKLE_HEIGHT.

Definition zero_path : MerkleAuthenticationPath.t := {|
  MerkleAuthenticationPath.path_siblings := replicate MERKLE_HEIGHT (scalar 0);
  MerkleAuthenticationPath.leaf_index := 5; MerkleAuthenticationPath.value := scalar 0 |}.

(** The left sibling of the leaf gets a new value, in a tree whose hash is constant. *)
Definition zero_tree : tree := fun h i => scalar (if decide (h = MERKLE_HEIGHT /\ i = 4%Z) then 7 else 0).

Definition sample_change : gmap MerkleTreeCoords Scalar := {[{| height := MERKLE_HEIGHT; index := 4 |} := scalar 7]}.

Lemma merkle_path_follows_tree_witness :
  MerkleAuthenticationPath.path_siblings (update_wallet_merkle_path sample_change zero_path) !! 0 = Some (scalar 7) /\
  MerkleAuthenticationPath.compute_root (fun _ => scalar 0) (update_wallet_merkle_path sample_change zero_path) = scalar 0.
Proof.
  split; [by vm_compute|].
  refine (proj2 (merkle_path_follows_tree (fun _ => scalar 0) (fun _ _ => scalar 0) zero_tree
    sample_change zero_path _ _ _ _ _)).
  - intros h i Hh. unfold zero_tree. rewrite decide_False; [done|]. lia.
  - reflexivity.
  - reflexivity.
  - by vm_compute.
  - intros c Hc. apply list_elem_of_lookup in Hc as [k Hk].
    assert (H : forallb (fun c => Zmod.eqb (node zero_tree c) (default (scalar 0) (sample_change !! c)))
      (MerkleAuthenticationPath.compute_authentication_path_coords zero_path) = true) by (vm_compute; reflexivity).
    rewrite forallb_forall in H. apply Zmod.eqb_eq, H, list_elem_of_In. by eapply list_elem_of_lookup_2.
Defined.

Definition sample_event : EmittedEvent := {|
  ev_keys := [Zmod.of_Z _ 15]; ev_data := [Zmod.of_Z _ 5]; ev_block_number := 1 |}.

(** One event, and no changed nodes; an event is selected by the length of its name. *)
Definition sample_chain : ChainOracles := {|
  get_events := fun _ _ keys token _ =>
    match keys with
    | None => if decide (token = "0") then EventsPage [sample_event] None else EventsPage [] None
    | Some _ => EventsPage [] None
    end;
  get_selector_from_name := fun s => Zmod.of_Z _ (Z.of_nat (String.length s));
  set_wallet_opening := fun _ w => w;
  proof_response := fun _ _ => None |}.

#[local] Existing Instance sample_chain.

Lemma sample_serves now : serves now 0 [sample_event].
Proof.
  intros t Ht. exists None. destruct t as [|[|t]]; [split; [reflexivity|cbn; lia]..|cbn in Ht; lia].
Qed.

Lemma nullifier_event_handled_witness :
  exists w', exec (handle_event 1 (nullifier_event 1 (scalar 5))) sample_relayer = (Ret (Some []), w') /\
    exists o, get_order_info (wd_order_book w') 7%N = Some (order_transition_cancelled o).
Proof.
  destruct (nullifier_event_handled 1 sample_relayer 1 (scalar 5) sample_relayer_ok eq_refl)
    as (w' & H1 & _ & _ & H2 & _); [by vm_compute|].
  exists w'. split; [exact H1|]. destruct H2 as [_ H2]; [by vm_compute|].
  eexists. eapply (H2 7%N); [reflexivity|]. by vm_compute.
Defined.


Definition sample_closed : World := on_jobs (fun _ => Channel false []) sample_relayer.

Lemma failed_event_skips_page_witness :
  exists w'', exec (poll_contract_events 1 1 0) sample_closed = (Fail ListenerSendMessage, w'') /\
    wd_page_token w'' = 1%Z.
Proof.
  destruct (exec (handle_events 1 [sample_event]) sample_closed) as [r w'] eqn:He.
  assert (r = Fail ListenerSendMessage) as ->. { change r with (r, w').1. rewrite <- He. by vm_compute. }
  apply (failed_event_skips_page 1 0 0 [sample_event] sample_closed 0 ListenerSendMessage w' (sample_serves _));
    [by vm_compute|reflexivity|lia|exact He].
Defined.

Lemma overlapping_polls_skip_events_witness :
  exists c, rtc runs (Config unlocked sample_relayer (fun n =>
      [let* _ := fetch_next_events_page 0 in tret tt; let* _ := fetch_next_events_page 0 in tret tt] !! n)) c /\
    wd_page_token (shared c) = 2%Z.
Proof.
  destruct (overlapping_polls_skip_events sample_relayer 0 [sample_event] 0 (fun _ => tret tt) (fun _ => tret tt))
    as (c & H1 & _ & _ & H4); [reflexivity|reflexivity|by vm_compute|]. exists c. split; [exact H1|exact H4].
Defined.

(** A wallet whose proofs are as old as they may be *)
Definition sample_stale : World :=
  on_state (on_wallet_index (fun _ =>
    add_wallet (with_merkle_proof (Some zero_path) STALENESS_THRESHOLD sample_managed_wallet)
      (wallets_new (3%N : @PeerId sample_foreign)))) sample_world.

Lemma sample_root_changed :
  exists stale w', exec (handle_root_changed 1 0) sample_stale = (Ret (Some stale), w').
Proof. eexists _, _. reflexivity. Qed.


Lemma proofs_leave_staleness_witness :
  exists stale w' wallet', exec (handle_root_changed 1 0) sample_stale = (Ret (Some stale), w') /\
    wallet' ∈ stale /\ w_proof_staleness wallet' = (STALENESS_THRESHOLD + 1)%Z.
Proof.
  destruct sample_root_changed as (stale & w' & Hex).
  destruct (proofs_leave_staleness 1 0 sample_stale stale w' (w_wallet_id sample_managed_wallet) _ zero_path
    Hex eq_refl eq_refl) as (wallet' & H1 & _ & H3); [by vm_compute|].
  exists stale, w', wallet'. split; [exact Hex|]. split; [exact H1|exact H3].
Defined.
