(* ===== verification/Relayer.v ===== *)
(** All workers of a relayer together.

    The gossip server, the handshake manager, the chain listener and their timers run as
    tasks that share one state.  Whatever jobs arrive and however they are interleaved, the
    invariant of the global state holds, and no set of jobs deadlocks as long as no match
    reaches its end. *)

From Stdlib Require Import Zmod.
From stdpp Require Import gmap strings.
From S2P Require Import Prelude Async LockOrder Primality Field Starknet Merkle RelayerTypes OrderBook PeerIndex.
From S2P Require Import WalletIndex Messages Lru HandshakeCache World RelayerState HandshakeIndex.
From S2P Require Import Gossip GossipProperties HandshakeManager Encumber ChainEvents ChainProperties.

#[global] Set Default Goal Selector "!".
#[local] Open Scope task_scope.

(** A task whose error is logged. *)
Definition background {L S E E' A} (m : task L S E A) : task L S E' unit :=
  let* _ := attempt m in tret tt.

Section relayer.
  Context `{F : Foreign} `{HO : HashOrder}.
  Context {LC : LruCache (OrderIdentifier * OrderIdentifier) HandshakeCacheState}.
  Context {LE : LruCache PeerId Z}.
  Context {O : Oracles} {G : GossipOracles} {M : MatchOracles} {EO : EncumberOracles} {C : ChainOracles}.

#[local] Notation process := (action unit unit).

(** What the workers run, with the handshake jobs that are [allowed]. *)
Inductive worker (allowed : HandshakeExecutionJob -> Prop) : process -> Prop :=
  | gossip_worker job : worker allowed (handle_job job)
  | handshake_worker job : allowed job -> worker allowed (run_handshake_job submit_match job)
  | scheduler_worker : worker allowed (background schedule_handshake)
  | cluster_timer period i : worker allowed (background (intra_cluster_tick period i))
  | network_timer period i : worker allowed (background (inter_cluster_tick period i))
  | listener_worker fuel pages block : worker allowed (background (poll_contract_events fuel pages block))
  | proof_worker wallet : worker allowed (background (update_wallet_commitment_proofs wallet))
  | bootstrap_worker servers addr : worker allowed (background (bootstrap_into_network servers addr)).

Lemma background_respects {E E' A} I (m : action E A) : respects I m -> respects I (background (E' := E') m).
Proof. intros Hm. apply respects_bind; [by apply respects_attempt|done]. Qed.

Lemma background_ordered {E E' A} (m : action E A) :
  ordered rank [] [] m -> ordered rank [] [] (background (E' := E') m).
Proof. intros Hm. apply ordered_bind; [by apply ordered_attempt|done]. Qed.

Lemma worker_respects allowed m : worker allowed m -> respects relayer_ok m.
Proof.
  intros [job|job Hj| |p i|p i|f p b|wl|sv ad]; [|by apply run_handshake_job_respects, submit_match_respects|..];
    auto using background_respects with respects nocore.
Qed.

Lemma worker_ordered m : worker not_a_match m -> ordered rank [] [] m.
Proof.
  intros [job|job Hj| |p i|p i|f p b|wl|sv ad]; auto using background_ordered with ordered nocore.
Qed.

Lemma initialize_ok w wallets cluster peer :
  wd_state w = initialize_global_state wallets cluster peer -> relayer_ok w.
Proof.
  intros Hw. split; unfold wd_order_book, wd_peer_index, wd_priorities; rewrite Hw; cbn;
    [apply book_new_ok|apply book_new_indexed|apply peers_new_ok|apply priorities_new_default].
Qed.

(** C2: From the initial state, under any interleaving of any jobs of all workers: every order
    is stored under its own identifier and indexed under its nullifier, the verified ones are
    among those offered for handshakes and the local ones among the local ones, every peer is
    stored under its own identifier and listed in its cluster, and every priority is the
    default one. *)
Theorem relayer_invariant w wallets cluster peer c :
  wd_state w = initialize_global_state wallets cluster peer ->
  rtc (step (worker (fun _ => True))) (Config unlocked w (fun _ => None)) c ->
  book_ok (wd_order_book (shared c)) /\ book_indexed (wd_order_book (shared c)) /\
  peers_ok (wd_peer_index (shared c)) /\ priorities_default (wd_priorities (shared c)).
Proof.
  intros Hw Hrun. apply (respectful_forever _ relayer_ok) in Hrun as [[H1 H2 H3 H4] _]; [done| |].
  - intros m Hm. by apply (worker_respects (fun _ => True)).
  - split; [by eapply initialize_ok|done].
Qed.

(** C3: No set of jobs in which no match runs can deadlock: every run of it ends, and it ends
    with all jobs finished, in whatever state of the relayer it starts. *)
Theorem relayer_deadlock_free w pool :
  Forall (worker not_a_match) pool ->
  Acc (flip runs) (Config unlocked w (fun t => pool !! t)) /\
  forall c, rtc runs (Config unlocked w (fun t => pool !! t)) c -> (forall c', ~ runs c c') ->
    forall t, t < length pool -> finished t c.
Proof.
  intros Hp.
  assert (Ho : Forall (ordered rank [] []) pool) by (eapply Forall_impl; [exact Hp|apply worker_ordered]).
  exact (ordered_pool_finishes rank 9 rank_bound pool w Ho).
Qed.
End relayer.

(** * Examples *)

#[local] Existing Instance sample_foreign.
#[local] Existing Instance sorted_order.
#[local] Existing Instance sample_lc.
#[local] Existing Instance sample_le.
#[local] Existing Instance sample_oracles.
#[local] Existing Instance GossipProperties.sample_gossip.
#[local] Existing Instance sample_match.
#[local] Existing Instance sample_encumber.
#[local] Existing Instance ChainProperties.sample_chain.

Definition sample_job : action unit unit :=
  handle_job (JobHandleHeartbeatResp (peer 4) {| hb_managed_wallets := ∅; hb_known_peers := ∅; hb_orders := [] |}).

Definition sample_jobs : list (action unit unit) :=
  [sample_job;
   run_handshake_job submit_match (PerformHandshake 7%N)].

Definition sample_spawned : config lock World unit :=
  Config unlocked sample_world (set_task 0 sample_job (fun _ => None)).

Definition is_run (c : option (config lock World unit)) : bool :=
  match c with Some _ => true | None => false end.

Lemma sample_spawned_runs : is_run (run_schedule (replicate 13 0) sample_spawned) = true.
Proof. vm_compute. reflexivity. Qed.

Lemma relayer_invariant_witness :
  exists c, run_schedule (replicate 13 0) sample_spawned = Some c /\ peers_ok (wd_peer_index (shared c)).
Proof.
  pose proof sample_spawned_runs as H. destruct (run_schedule _ sample_spawned) as [c|] eqn:Hrun; [|done].
  exists c. split; [reflexivity|].
  apply (relayer_invariant sample_world [] "local" (peer 3) c).
  - reflexivity.
  - eapply rtc_l; [|exact (run_schedule_steps _ _ _ _ Hrun)].
    apply step_spawn; [done|]. apply gossip_worker.
Defined.

Lemma relayer_deadlock_free_witness :
  Acc (flip runs) (Config unlocked sample_world (fun t => sample_jobs !! t)) /\
  forall c, rtc runs (Config unlocked sample_world (fun t => sample_jobs !! t)) c -> (forall c', ~ runs c c') ->
    finished 0 c /\ finished 1 c.
Proof.
  destruct (relayer_deadlock_free sample_world sample_jobs) as [Hacc H].
  - constructor; [apply gossip_worker|]. constructor; [by apply handshake_worker|constructor].
  - split; [exact Hacc|]. intros c H1 H2. split; apply (H c H1 H2); cbn; lia.
Defined.
