(* ===== verification/ValidWalletUpdate.v ===== *)
(** The statement VALID WALLET UPDATE: circuits/src/zk_circuits/valid_wallet_update.rs.

    A wallet of the state tree is replaced by a new one after a deposit or a
    withdrawal (the external transfer), a transfer into a note (the internal
    transfer) and changes of orders. *)

From Stdlib Require Import Zmod.
From S2P Require Import Prelude Primality Field ConstraintSystem ListR1CS Gates Comparators.
From S2P Require Import Arithmetic FixedPoint PoseidonConstants Poseidon Types Merkle.
From S2P Require Import Commitments Readings Statements.

#[local] Open Scope Zmod_scope.
#[local] Open Scope circuit_scope.

(** * The circuit *)

Section circuit.
  Context {C : ConstraintSystem}.

Record ValidWalletUpdateWitnessVar := {
  wallet1 : WalletVar;
  wallet2 : WalletVar;
  wallet1_opening : MerkleOpeningVar;
  internal_transfer : R1CSVar * R1CSVar;
}.

(** [constrain_keys_equal] *)
Definition constrain_keys_equal (wallet1 wallet2 : WalletVar) : circuit unit :=
  constrain (lc_var (kv_pk_root (wv_keys wallet1)) - lc_var (kv_pk_root (wv_keys wallet2)))%lc ;;
  constrain (lc_var (kv_pk_match (wv_keys wallet1)) - lc_var (kv_pk_match (wv_keys wallet2)))%lc ;;
  constrain (lc_var (kv_pk_settle (wv_keys wallet1)) - lc_var (kv_pk_settle (wv_keys wallet2)))%lc ;;
  constrain (lc_var (kv_pk_view (wv_keys wallet1)) - lc_var (kv_pk_view (wv_keys wallet2)))%lc.

(** [constrain_unique_balance_mints] *)
Definition constrain_unique_balance_mints (wallet : WalletVar) : circuit unit :=
  let n := length (wv_balances wallet) in
  foldM (fun _ i =>
    foldM (fun _ j =>
      let! bi := c_get (wv_balances wallet !! i) in
      let! bj := c_get (wv_balances wallet !! j) in
      let! ij_unique := not_equal (lc_var (bv_mint bi)) (lc_var (bv_mint bj)) in
      let! (_, _, constraint_poly) := multiply (lc_var (bv_mint bi)) (VarOne - ij_unique)%lc in
      constrain (lc_var constraint_poly)) tt (seq (S i) (n - S i))) tt (seq 0 n).

(** [validate_transfers]: the loop over the old balances, the body of the loop over
    the new ones, and the function. *)
Definition old_amounts (new_balance : BalanceVar) (old_balances : list BalanceVar)
    : circuit LinearCombination :=
  foldM (fun expected_amount old_balance =>
    let! mints_eq := eq_zero (lc_var (bv_mint new_balance) - lc_var (bv_mint old_balance))%lc in
    let! (_, _, masked_amount) := multiply (lc_var mints_eq) (lc_var (bv_amount old_balance)) in
    c_ret (expected_amount + lc_var masked_amount)%lc) (lc_var VarZero) old_balances.

Definition validate_balance (old_balances : list BalanceVar) (internal_transfer : R1CSVar * R1CSVar)
    (external_mint : R1CSVar) (external_transfer_term : LinearCombination)
    (present : LinearCombination * LinearCombination) (new_balance : BalanceVar)
    : circuit (LinearCombination * LinearCombination) :=
  let '(external_transfer_mint_present, internal_transfer_mint_present) := present in
  let! expected_amount := old_amounts new_balance old_balances in
  let! equals_external_transfer_mint :=
    eq_zero (lc_var (bv_mint new_balance) - lc_var external_mint)%lc in
  let! (_, _, external_transfer_term) :=
    multiply (lc_var equals_external_transfer_mint) external_transfer_term in
  let external_transfer_mint_present :=
    (external_transfer_mint_present + lc_var equals_external_transfer_mint)%lc in
  let expected_amount := (expected_amount + lc_var external_transfer_term)%lc in
  let! equals_internal_transfer_mint :=
    eq_zero (lc_var (bv_mint new_balance) - lc_var (internal_transfer.1))%lc in
  let! (_, _, internal_transfer_term) :=
    multiply (lc_var equals_internal_transfer_mint) (lc_var (internal_transfer.2)) in
  let internal_transfer_mint_present :=
    (internal_transfer_mint_present + lc_var equals_internal_transfer_mint)%lc in
  let expected_amount := (expected_amount - lc_var internal_transfer_term)%lc in
  constrain (lc_var (bv_amount new_balance) - expected_amount)%lc ;;
  constrain_greater_than_zero 64 (lc_var (bv_amount new_balance)) ;;
  c_ret (external_transfer_mint_present, internal_transfer_mint_present).

Definition validate_transfers (new_wallet old_wallet : WalletVar)
    (internal_transfer : R1CSVar * R1CSVar) (external_transfer : R1CSVar * R1CSVar * R1CSVar)
    : circuit unit :=
  let '(external_mint, external_amount, external_direction) := external_transfer in
  constrain_unique_balance_mints new_wallet ;;
  let! external_transfer_term := select (- lc_var external_amount)%lc (lc_var external_amount)
    (lc_var external_direction) in
  let! (external_transfer_mint_present, internal_transfer_mint_present) :=
    foldM (validate_balance (wv_balances old_wallet) internal_transfer external_mint
      external_transfer_term) (lc_var VarZero, lc_var VarZero) (wv_balances new_wallet) in
  let! internal_transfer_equals_zero := eq_zero (lc_var (internal_transfer.1)) in
  let! internal_zero_or_valid_balance :=
    or_gate (lc_var internal_transfer_equals_zero) internal_transfer_mint_present in
  constrain (VarOne - internal_zero_or_valid_balance)%lc ;;
  let! external_transfer_is_deposit := eq_gadget (lc_var external_direction) (lc_var VarZero) in
  let! external_deposit_or_valid_balance :=
    or_gate (lc_var external_transfer_is_deposit) external_transfer_mint_present in
  constrain (VarOne - external_deposit_or_valid_balance)%lc.

(** [orders_equal_except_timestamp], [order_is_zero] *)
Definition order_terms (o : OrderVar) : list LinearCombination :=
  [lc_var (ov_quote_mint o); lc_var (ov_base_mint o); lc_var (ov_side o); lc_var (ov_amount o);
   FixedPointVar.repr (ov_price o)].

Definition orders_equal_except_timestamp (order1 order2 : OrderVar) : circuit R1CSVar :=
  eq_vec (order_terms order1) (order_terms order2).

Definition order_is_zero (order : OrderVar) : circuit R1CSVar :=
  orders_equal_except_timestamp order
    {| ov_quote_mint := VarZero; ov_base_mint := VarZero; ov_side := VarZero;
       ov_amount := VarZero; ov_price := {| FixedPointVar.repr := lc_var VarZero |};
       ov_timestamp := VarZero |}.

(** [constrain_unique_order_pairs] *)
Definition constrain_unique_order_pairs (wallet : WalletVar) : circuit unit :=
  let n := length (wv_orders wallet) in
  foldM (fun _ i =>
    let! oi := c_get (wv_orders wallet !! i) in
    let! order_zero := order_is_zero oi in
    foldM (fun _ j =>
      let! oj := c_get (wv_orders wallet !! j) in
      let! mints_equal := eq_vec [lc_var (ov_quote_mint oi); lc_var (ov_base_mint oi)]
        [lc_var (ov_quote_mint oj); lc_var (ov_base_mint oj)] in
      let! (_, _, constraint_poly) :=
        multiply (lc_var mints_equal) (VarOne - lc_var order_zero)%lc in
      constrain (lc_var constraint_poly)) tt (seq (S i) (n - S i))) tt (seq 0 n).

(** [constrain_updated_order_timestamps] *)
Definition constrain_updated_order_timestamps (new_wallet old_wallet : WalletVar)
    (new_timestamp : R1CSVar) : circuit unit :=
  foldM (fun _ '(i, order) =>
    let! old_order := c_get (wv_orders old_wallet !! i) in
    let! equals_old_order := orders_equal_except_timestamp order old_order in
    let! timestamp_not_updated :=
      eq_gadget (lc_var (ov_timestamp order)) (lc_var (ov_timestamp old_order)) in
    let! timestamp_updated := eq_gadget (lc_var (ov_timestamp order)) (lc_var new_timestamp) in
    let! equal_and_not_updated :=
      and_gate (lc_var equals_old_order) (lc_var timestamp_not_updated) in
    let! not_equal_and_updated :=
      and_gate (VarOne - lc_var equals_old_order)%lc (lc_var timestamp_updated) in
    let! constraint := or_gate (lc_var not_equal_and_updated) (lc_var equal_and_not_updated) in
    constrain (VarOne - constraint)%lc) tt (imap pair (wv_orders new_wallet)).

(** [validate_wallet_orders] *)
Definition validate_wallet_orders (new_wallet old_wallet : WalletVar) (new_timestamp : R1CSVar)
    : circuit unit :=
  constrain_unique_order_pairs new_wallet ;;
  constrain_updated_order_timestamps new_wallet old_wallet new_timestamp.

(** The statement, [circuit] *)
Definition valid_wallet_update (witness : ValidWalletUpdateWitnessVar)
    (timestamp pk_root merkle_root match_nullifier_ spend_nullifier_ new_wallet_commit : R1CSVar)
    (external_transfer : R1CSVar * R1CSVar * R1CSVar) : circuit unit :=
  let '(_, _, external_direction) := external_transfer in
  let! new_wallet_commit_res := wallet_commit (wallet2 witness) in
  constrain (lc_var new_wallet_commit - new_wallet_commit_res)%lc ;;
  let! old_wallet_commit := wallet_commit (wallet1 witness) in
  compute_and_constrain_root_prehashed old_wallet_commit (wallet1_opening witness)
    (lc_var merkle_root) ;;
  let! spend_nullifier_res :=
    spend_nullifier (wv_randomness (wallet1 witness)) old_wallet_commit in
  let! match_nullifier_res :=
    match_nullifier (wv_randomness (wallet1 witness)) old_wallet_commit in
  constrain (lc_var spend_nullifier_ - spend_nullifier_res)%lc ;;
  constrain (lc_var match_nullifier_ - match_nullifier_res)%lc ;;
  constrain (lc_var pk_root - lc_var (kv_pk_root (wv_keys (wallet1 witness))))%lc ;;
  constrain_keys_equal (wallet1 witness) (wallet2 witness) ;;
  constrain (lc_var (wv_randomness (wallet1 witness)) + lc_scalar (scalar 2)
    - lc_var (wv_randomness (wallet2 witness)))%lc ;;
  let! (_, _, external_transfer_binary) :=
    multiply (lc_var external_direction) (VarOne - lc_var external_direction)%lc in
  constrain (lc_var external_transfer_binary) ;;
  validate_transfers (wallet2 witness) (wallet1 witness) (internal_transfer witness)
    external_transfer ;;
  validate_wallet_orders (wallet2 witness) (wallet1 witness) timestamp.
End circuit.

(** * The relation that the statement proves *)

Section relation.
  Context {C : ConstraintSystem} (ev : LinearCombination -> Scalar).

#[local] Notation "$ v" := (ev (lc_var v)) (at level 5, format "$ v").

Definition mints_unique (bs : list BalanceVar) : Prop :=
  forall i j bi bj, (i < j)%nat -> bs !! i = Some bi -> bs !! j = Some bj ->
    $(bv_mint bi) = 0 \/ $(bv_mint bi) <> $(bv_mint bj).

(** The amount of a mint in a list of balances, and the number of balances of it. *)
Definition amount_of (mint : Scalar) (bs : list BalanceVar) : Scalar :=
  foldr Zmod.add 0 ((fun b => if decide ($(bv_mint b) = mint) then $(bv_amount b) else 0) <$> bs).

Definition holders (mint : Scalar) (bs : list BalanceVar) : nat :=
  length (filter (fun b => $(bv_mint b) = mint) bs).

(** A deposit adds the amount of the transfer, a withdrawal subtracts it. *)
Definition signed (amount direction : Scalar) : Scalar :=
  if decide (direction = 1) then - amount else amount.

Definition updated_amount (old : list BalanceVar) (internal : R1CSVar * R1CSVar)
    (external : R1CSVar * R1CSVar * R1CSVar) (mint : Scalar) : Scalar :=
  let '(emint, eamount, edirection) := external in
  amount_of mint old + (if decide (mint = $emint) then signed $eamount $edirection else 0) -
  (if decide (mint = $(internal.1)) then $(internal.2) else 0).

Definition order_pairs_unique (os : list OrderVar) : Prop :=
  forall i j oi oj, (i < j)%nat -> os !! i = Some oi -> os !! j = Some oj ->
    $(ov_quote_mint oi) = $(ov_quote_mint oj) -> $(ov_base_mint oi) = $(ov_base_mint oj) ->
    Forall (fun a => ev a = 0) (order_terms oi).

Definition timestamp_updated (now : Scalar) (o o' : OrderVar) : Prop :=
  if decide (ev <$> order_terms o' = ev <$> order_terms o)
  then $(ov_timestamp o') = $(ov_timestamp o) else $(ov_timestamp o') = now.

(** What the transfers do to the balances.  [in_range] is what the range check of the
    new amounts establishes. *)
Record transfers_valid (in_range : Scalar -> Prop) (new old : list BalanceVar)
    (internal : R1CSVar * R1CSVar) (external : R1CSVar * R1CSVar * R1CSVar) : Prop := {
  tv_unique : mints_unique new;
  tv_amounts : Forall (fun b => $(bv_amount b) = updated_amount old internal external $(bv_mint b) /\
    in_range $(bv_amount b)) new;
  tv_internal : $(internal.1) = 0 \/ holders $(internal.1) new = 1%nat;
  tv_external : $(external.2) = 0 \/ holders $(external.1.1) new = 1%nat;
}.

Record orders_valid (now : Scalar) (new old : list OrderVar) : Prop := {
  ov_unique : order_pairs_unique new;
  ov_timestamps : Forall2 (timestamp_updated now) old new;
}.

Record update_relation (in_range : Scalar -> Prop) (witness : ValidWalletUpdateWitnessVar)
    (timestamp pk_root merkle_root match_nullifier spend_nullifier new_wallet_commit : R1CSVar)
    (external_transfer : R1CSVar * R1CSVar * R1CSVar) : Prop := {
  ur_commitment : $new_wallet_commit = wallet_hash ev (wallet2 witness);
  ur_member : $merkle_root =
    root_of (wallet_hash ev (wallet1 witness)) (path_of ev (wallet1_opening witness));
  ur_spend : $spend_nullifier = Native.sponge default_params
    [wallet_hash ev (wallet1 witness); $(wv_randomness (wallet1 witness))];
  ur_match : $match_nullifier = Native.sponge default_params
    [wallet_hash ev (wallet1 witness); $(wv_randomness (wallet1 witness)) + 1];
  ur_pk_root : $pk_root = $(kv_pk_root (wv_keys (wallet1 witness)));
  ur_keys : ev <$> keychain_lcs (wv_keys (wallet1 witness)) =
    ev <$> keychain_lcs (wv_keys (wallet2 witness));
  ur_randomness : $(wv_randomness (wallet1 witness)) + scalar 2 =
    $(wv_randomness (wallet2 witness));
  ur_direction : binary $(external_transfer.2);
  ur_transfers : transfers_valid in_range (wv_balances (wallet2 witness))
    (wv_balances (wallet1 witness)) (internal_transfer witness) external_transfer;
  ur_orders : orders_valid $timestamp (wv_orders (wallet2 witness)) (wv_orders (wallet1 witness));
}.
End relation.

(** * The circuit in both readings *)

Lemma unique_poly (x y : Scalar) :
  x * (1 - bit_scalar (bool_decide (x <> y))) = 0 <-> x = 0 \/ x <> y.
Proof.
  case_bool_decide as Hxy; cbn [bit_scalar].
  - split; [auto|]. intros _. ring.
  - split.
    + intros H. left. rewrite <- H. ring.
    + intros [->|?]; [ring|done].
Qed.

Lemma pair_poly (p q : bool) : bit_scalar p * (1 - bit_scalar q) = 0 <-> (p = true -> q = true).
Proof. rewrite bit_not, bit_and, bit_zero. destruct p, q; naive_solver. Qed.

Section runs.
  Context {C : ConstraintSystem} {L : ConstraintSystemLaws C} {P : ProverLaws C}.
  Context (r : reading) (ev : LinearCombination -> Scalar).

#[export] Instance constrain_keys_equal_monotone w1 w2 : Monotone (constrain_keys_equal w1 w2).
Proof. unfold constrain_keys_equal. apply _. Qed.

Lemma run_constrain_keys_equal w1 w2 s (Q : unit -> cs -> Prop -> Prop) :
  wallet_known r s ev w1 -> wallet_known r s ev w2 ->
  (forall s' (K : Prop), grows r s s' ->
    (K <-> ev <$> keychain_lcs (wv_keys w1) = ev <$> keychain_lcs (wv_keys w2)) -> Q tt s' K) ->
  run r (constrain_keys_equal w1 w2) s Q.
Proof.
  intros H1 H2 HQ. pose proof (wk_keys _ _ _ _ H1) as A. pose proof (wk_keys _ _ _ _ H2) as B.
  clear H1 H2. unfold keychain_lcs in A, B. known_split A. known_split B.
  do 3 (bind; eapply run_constrain_sub; [carried..|]; intros ? ? ? ?;
    match goal with E : grows r _ _ |- _ => later_known E end).
  eapply run_constrain_sub; [carried..|]. intros ? ? ? ?. apply HQ; [grown|].
  cbn [keychain_lcs fmap list_fmap]. split.
  - intros ?. repeat (apply cons_eq; [tauto|]). done.
  - intros Heq. repeat (apply cons_inj in Heq as [? Heq]). tauto.
Qed.

#[export] Instance constrain_unique_balance_mints_monotone w :
  Monotone (constrain_unique_balance_mints w).
Proof. unfold constrain_unique_balance_mints. apply _. Qed.

(** A property of all pairs of positions, as two nested loops test it. *)
Lemma forall_pairs {A} (l : list A) (phi : A -> A -> Prop) :
  (forall i j a b, (i < j)%nat -> l !! i = Some a -> l !! j = Some b -> phi a b) <->
  Forall (fun i => Forall (fun j => forall a b, l !! i = Some a -> l !! j = Some b -> phi a b)
    (seq (S i) (length l - S i))) (seq 0 (length l)).
Proof.
  rewrite Forall_forall. setoid_rewrite Forall_forall. setoid_rewrite elem_of_seq. split.
  - intros H i Hi j Hj a b. apply H. lia.
  - intros H i j a b Hij Ha Hb. pose proof (lookup_lt_Some _ _ _ Ha).
    pose proof (lookup_lt_Some _ _ _ Hb). apply (H i ltac:(lia) j ltac:(lia)); done.
Qed.

Lemma seq_lookup {A} (l : list A) i : i ∈ seq 0 (length l) -> exists a, l !! i = Some a.
Proof. intros Hi%elem_of_seq. apply lookup_lt_is_Some. lia. Qed.

Lemma run_unique_balance_mints w s (Q : unit -> cs -> Prop -> Prop) :
  wallet_known r s ev w ->
  (forall s' (K : Prop), grows r s s' -> (K <-> mints_unique ev (wv_balances w)) -> Q tt s' K) ->
  run r (constrain_unique_balance_mints w) s Q.
Proof.
  intros Hw HQ. unfold constrain_unique_balance_mints. cbn zeta.
  set (bs := wv_balances w) in *.
  eapply run_forM; [apply _| |intros s' K E HK; apply HQ; [done|];
    unfold mints_unique; rewrite HK; symmetry; apply forall_pairs].
  intros i s1 Hi E1. cbn beta. later_known E1. destruct (seq_lookup _ _ Hi) as [bi Hbi].
  eapply run_forM; [apply _| |intros s' K E HK; exact HK].
  intros j s2 Hj E2. cbn beta. later_known E2.
  assert (exists bj, bs !! j = Some bj) as [bj Hbj].
  { apply lookup_lt_is_Some. apply elem_of_seq in Hi, Hj. lia. }
  bind. eapply run_get; [done|]. bind. eapply run_get; [done|].
  pose proof (wk_balances _ _ _ _ Hw bi (list_elem_of_lookup_2 _ _ _ Hbi)) as Ki.
  pose proof (wk_balances _ _ _ _ Hw bj (list_elem_of_lookup_2 _ _ _ Hbj)) as Kj.
  unfold balance_lcs in Ki, Kj. known_split Ki. known_split Kj.
  bind. eapply run_not_equal; [carried..|]. intros u s3 K3 HK3 E3 Hu. later_known E3.
  bind. eapply run_multiply; [carried..|]. intros ? ? o s4 E4 _ _ Ho. later_known E4.
  eapply run_constrain; [done|]. intros s5 K5 E5 HK5. rewrite HK5, unique_poly, Hbi, Hbj.
  split; [by intros (_ & _ & _ & _ & H) a b [= <-] [= <-]|]. intros H. by split_and!; auto.
Qed.
End runs.

Section transfers.
  Context {C : ConstraintSystem} {L : ConstraintSystemLaws C} {P : ProverLaws C}.
  Context (r : reading) (ev : LinearCombination -> Scalar).

#[export] Instance old_amounts_monotone b old : Monotone (old_amounts b old).
Proof. unfold old_amounts. apply _. Qed.

Lemma run_old_amounts b old mint s (Q : LinearCombination -> cs -> Prop -> Prop) :
  holds r s (lc_var (bv_mint b)) mint ->
  (forall b, b ∈ old -> Forall (known r s ev) (balance_lcs b)) ->
  (forall out s' (K : Prop), K -> grows r s s' -> holds r s' out (amount_of ev mint old) -> Q out s' K) ->
  run r (old_amounts b old) s Q.
Proof.
  intros Hm Hold HQ. unfold old_amounts.
  eapply (run_sum r _ (fun o => if decide (ev (lc_var (bv_mint o)) = mint)
    then ev (lc_var (bv_amount o)) else 0)); [apply _|apply holds_zero| |].
  - intros o acc a s1 Q' Ho E1 Ha HQ'. specialize (Hold o Ho). unfold balance_lcs in Hold.
    known_split Hold. later_known E1. bind. eapply run_eq_zero; [carried|].
    intros z s2 K2 HK2 E2 Hz. later_known E2. bind. eapply run_multiply; [carried..|].
    intros ? ? o3 s3 E3 _ _ Ho3. later_known E3. apply run_ret, HQ'; [done|grown|].
    rewrite bit_mul_decide in Ho3. apply holds_add; [done|].
    erewrite decide_ext; [exact Ho3|]. rewrite scalar_sub_zero. naive_solver.
  - intros out s' K HK E Ho. apply HQ; [done..|]. by rewrite Zmod.add_0_l in Ho.
Qed.

Lemma holders_app mint pre b :
  scalar (Z.of_nat (holders ev mint (pre ++ [b]))) =
  scalar (Z.of_nat (holders ev mint pre)) +
  bit_scalar (bool_decide (ev (lc_var (bv_mint b)) = mint)).
Proof.
  unfold holders. rewrite filter_app, length_app, Nat2Z.inj_add, Zmod.of_Z_add. f_equal.
  rewrite filter_cons, filter_nil. case_decide; case_bool_decide; done.
Qed.

Lemma holders_le mint bs : (holders ev mint bs <= length bs)%nat.
Proof. apply length_filter. Qed.

Lemma signed_select amount direction : binary direction ->
  - amount * direction + amount * (1 - direction) = signed amount direction.
Proof.
  unfold signed. intros [->| ->]; case_decide as H; try ring; try done.
Qed.

#[export] Instance validate_balance_monotone old i e t p b :
  Monotone (validate_balance old i e t p b).
Proof. unfold validate_balance. destruct p. apply _. Qed.

(** The two counters of the loop over the new balances. *)
Definition counted (emint imint : Scalar) (s : cs) (pre : list BalanceVar)
    (present : LinearCombination * LinearCombination) : Prop :=
  holds r s present.1 (scalar (Z.of_nat (holders ev emint pre))) /\
  holds r s present.2 (scalar (Z.of_nat (holders ev imint pre))).

Lemma run_validate_balance old internal emint term pre b present t s :
  (forall b, b ∈ old -> Forall (known r s ev) (balance_lcs b)) ->
  Forall (known r s ev) (balance_lcs b) ->
  known r s ev (lc_var internal.1) -> known r s ev (lc_var internal.2) ->
  known r s ev (lc_var emint) -> holds r s term t ->
  counted (ev (lc_var emint)) (ev (lc_var internal.1)) s pre present ->
  run r (validate_balance old internal emint term present b) s (fun present' s' K =>
    counted (ev (lc_var emint)) (ev (lc_var internal.1)) s' (pre ++ [b]) present' /\
    (K <-> (ev (lc_var (bv_amount b)) = amount_of ev (ev (lc_var (bv_mint b))) old +
        (if decide (ev (lc_var (bv_mint b)) = ev (lc_var emint)) then t else 0) -
        (if decide (ev (lc_var (bv_mint b)) = ev (lc_var internal.1))
         then ev (lc_var internal.2) else 0)) /\
      range_checked r 64 (ev (lc_var (bv_amount b))))).
Proof.
  intros Hold Hb Hi1 Hi2 He Ht Hc. destruct present as [ep ip]. destruct Hc as [Hep Hip].
  cbn [fst snd] in Hep, Hip. unfold balance_lcs in Hb. known_split Hb. unfold validate_balance.
  bind. eapply run_old_amounts; [carried|done|]. intros acc s1 K1 HK1 E1 Hacc. later_known E1.
  bind. eapply run_eq_zero; [carried|]. intros z2 s2 K2 HK2 E2 Hz2. later_known E2.
  bind. eapply run_multiply; [carried..|]. intros ? ? o3 s3 E3 _ _ Ho3. later_known E3. cbn zeta.
  bind. eapply run_eq_zero; [carried|]. intros z4 s4 K4 HK4 E4 Hz4. later_known E4.
  bind. eapply run_multiply; [carried..|]. intros ? ? o5 s5 E5 _ _ Ho5. later_known E5. cbn zeta.
  bind. eapply run_constrain_sub; [carried..|]. intros s6 K6 E6 HK6. later_known E6.
  bind. eapply run_constrain_greater_than_zero; [by apply Nat.leb_le|carried|].
  intros s7 K7 E7 HK7. later_known E7. apply run_ret. split.
  - unfold counted. cbn [fst snd]. rewrite !holders_app.
    rewrite (bool_decide_ext _ _ (scalar_sub_zero _ _)) in Hz2.
    rewrite (bool_decide_ext _ _ (scalar_sub_zero _ _)) in Hz4. split; carried.
  - rewrite !bit_mul_decide in HK6.
    rewrite !(decide_ext _ _ _ _ (scalar_sub_zero _ _)) in HK6. rewrite HK6, HK7. tauto.
Qed.
End transfers.

Section orders.
  Context {C : ConstraintSystem} {L : ConstraintSystemLaws C} {P : ProverLaws C}.
  Context (r : reading) (ev : LinearCombination -> Scalar).

#[export] Instance validate_transfers_monotone new old i e :
  Monotone (validate_transfers new old i e).
Proof. unfold validate_transfers. destruct e as [[? ?] ?]. apply _. Qed.

Lemma run_validate_transfers new old internal emint eamount edirection s
    (Q : unit -> cs -> Prop -> Prop) :
  (Z.of_nat (length (wv_balances new)) < ristretto_order)%Z ->
  wallet_known r s ev new -> wallet_known r s ev old ->
  known r s ev (lc_var internal.1) -> known r s ev (lc_var internal.2) ->
  known r s ev (lc_var emint) -> known r s ev (lc_var eamount) ->
  known r s ev (lc_var edirection) ->
  (forall s' (K : Prop), grows r s s' -> (binary (ev (lc_var edirection)) ->
    (K <-> transfers_valid ev (range_checked r 64) (wv_balances new) (wv_balances old) internal
      (emint, eamount, edirection))) -> Q tt s' K) ->
  run r (validate_transfers new old internal (emint, eamount, edirection)) s Q.
Proof.
  intros Hlen Hn Ho Hi1 Hi2 He1 He2 He3 HQ. unfold validate_transfers.
  bind. eapply run_unique_balance_mints; [done|]. intros s1 K1 E1 HK1. later_known E1.
  bind. eapply run_select; [carried..|]. intros t s2 K2 HK2 E2 Ht. later_known E2.
  bind. eapply (run_loop r _ (counted r ev (ev (lc_var emint)) (ev (lc_var internal.1))) _
    _ _ []).
  { split; apply holds_zero. }
  { intros pre b present s3 Hb E3 Hc. later_known E3.
    apply run_validate_balance; try done; [apply Ho|by apply Hn]. }
  cbn [app]. intros [ep ip] s3 K3 E3 [Hep Hip] HK3. cbn [fst snd] in Hep, Hip. later_known E3.
  bind. eapply run_eq_zero; [carried|]. intros z s4 K4 HK4 E4 Hz. later_known E4.
  bind. eapply run_or_gate; [carried..|]. intros o s5 K5 HK5 E5 Ho5. later_known E5.
  bind. eapply run_constrain; [carried|]. intros s6 K6 E6 HK6. later_known E6.
  bind. eapply run_eq_gadget; [carried..|]. intros d s7 K7 HK7 E7 Hd. later_known E7.
  bind. eapply run_or_gate; [carried..|]. intros o8 s8 K8 HK8 E8 Ho8. later_known E8.
  eapply run_constrain; [carried|]. intros s9 K9 E9 HK9. apply HQ; [grown|]. intros Hbin.
  rewrite or_count, bool_decide_eq_true in HK6, HK9
    by (pose proof (holders_le ev (ev (lc_var internal.1)) (wv_balances new));
        pose proof (holders_le ev (ev (lc_var emint)) (wv_balances new)); lia).
  rewrite (signed_select _ _ Hbin) in HK3. split.
  - intros HK. constructor; tauto.
  - intros []. cbn [fst snd] in *. tauto.
Qed.

Lemma known_order_terms s o : Forall (known r s ev) (order_lcs o) ->
  Forall2 (holds r s) (order_terms o) (ev <$> order_terms o).
Proof.
  intros H. apply known_holds. unfold order_lcs in H. known_split H. by repeat constructor.
Qed.

#[export] Instance orders_equal_monotone o1 o2 : Monotone (orders_equal_except_timestamp o1 o2).
Proof. unfold orders_equal_except_timestamp. apply _. Qed.
#[export] Instance order_is_zero_monotone o : Monotone (order_is_zero o).
Proof. unfold order_is_zero. apply _. Qed.

Lemma order_terms_length (o : OrderVar) : (Z.of_nat (length (order_terms o)) < ristretto_order)%Z.
Proof. done. Qed.

Lemma run_order_is_zero o s (Q : R1CSVar -> cs -> Prop -> Prop) :
  Forall (known r s ev) (order_lcs o) ->
  (forall out s' (K : Prop), K -> grows r s s' -> holds r s' (lc_var out)
    (bit_scalar (bool_decide (ev <$> order_terms o = [0; 0; 0; 0; 0]))) -> Q out s' K) ->
  run r (order_is_zero o) s Q.
Proof.
  intros Ho HQ. unfold order_is_zero, orders_equal_except_timestamp.
  eapply run_eq_vec; [done|apply order_terms_length|by apply known_order_terms| |exact HQ].
  repeat constructor; apply holds_zero.
Qed.

Lemma terms_zero (l : list LinearCombination) :
  ev <$> l = replicate (length l) 0 <-> Forall (fun a => ev a = 0) l.
Proof.
  induction l as [|a l IH]; cbn [fmap list_fmap length replicate]; [done|].
  rewrite Forall_cons, <- IH. split.
  - intros H. by apply cons_inj in H.
  - intros [-> ->]. done.
Qed.

#[export] Instance constrain_unique_order_pairs_monotone w : Monotone (constrain_unique_order_pairs w).
Proof. unfold constrain_unique_order_pairs. apply _. Qed.

Lemma run_unique_order_pairs w s (Q : unit -> cs -> Prop -> Prop) :
  wallet_known r s ev w ->
  (forall s' (K : Prop), grows r s s' -> (K <-> order_pairs_unique ev (wv_orders w)) -> Q tt s' K) ->
  run r (constrain_unique_order_pairs w) s Q.
Proof.
  intros Hw HQ. unfold constrain_unique_order_pairs. cbn zeta. set (os := wv_orders w) in *.
  eapply run_forM; [apply _| |intros s' K E HK; apply HQ; [done|];
    unfold order_pairs_unique; rewrite HK; symmetry;
    apply (forall_pairs os (fun oi oj => ev (lc_var (ov_quote_mint oi)) = ev (lc_var (ov_quote_mint oj)) ->
      ev (lc_var (ov_base_mint oi)) = ev (lc_var (ov_base_mint oj)) ->
      Forall (fun a => ev a = 0) (order_terms oi)))].
  intros i s1 Hi E1. cbn beta. later_known E1. destruct (seq_lookup _ _ Hi) as [oi Hoi].
  bind. eapply run_get; [done|].
  pose proof (wk_orders _ _ _ _ Hw oi (list_elem_of_lookup_2 _ _ _ Hoi)) as Ki.
  bind. eapply run_order_is_zero; [done|]. intros z s2 K2 HK2 E2 Hz. later_known E2.
  eapply run_forM; [apply _| |intros s' K E HK;
    split; [intros (_ & _ & H); apply HK, H|intros H; split_and!; [done|done|by apply HK]]].
  intros j s3 Hj E3. cbn beta. later_known E3.
  assert (exists oj, os !! j = Some oj) as [oj Hoj].
  { apply lookup_lt_is_Some. apply elem_of_seq in Hi, Hj. lia. }
  bind. eapply run_get; [done|].
  pose proof (wk_orders _ _ _ _ Hw oj (list_elem_of_lookup_2 _ _ _ Hoj)) as Kj.
  unfold order_lcs in Ki, Kj. known_split Ki. known_split Kj.
  bind. eapply run_eq_vec; [done|done|carried..|]. intros e s4 K4 HK4 E4 He. later_known E4.
  bind. eapply run_multiply; [carried..|]. intros ? ? o5 s5 E5 _ _ Ho5. later_known E5.
  eapply run_constrain; [done|]. intros s6 K6 E6 HK6.
  rewrite HK6, pair_poly, !bool_decide_eq_true, Hoi, Hoj, (terms_zero (order_terms oi)). split.
  - intros (_ & _ & _ & H) a b [= <-] [= <-] Hq Hb. apply H. by rewrite Hq, Hb.
  - intros H. split_and!; [done..|]. intros Heq. apply cons_inj in Heq as [Hq [Hb _]%cons_inj]. eauto.
Qed.

#[export] Instance constrain_updated_order_timestamps_monotone new old t :
  Monotone (constrain_updated_order_timestamps new old t).
Proof. unfold constrain_updated_order_timestamps. apply _. Qed.

Lemma Forall_imap_Forall2 {A B} (phi : A -> B -> Prop) (l : list A) (k : list B) :
  length l = length k ->
  Forall (fun '(i, b) => forall a, l !! i = Some a -> phi a b) (imap pair k) <-> Forall2 phi l k.
Proof.
  intros Hlen. rewrite Forall2_lookup, Forall_lookup. setoid_rewrite list_lookup_imap. split.
  - intros H i. destruct (l !! i) as [a|] eqn:Ha.
    + destruct (k !! i) as [b|] eqn:Hb.
      * constructor. apply (H i (i, b)); [by rewrite Hb|done].
      * apply lookup_lt_Some in Ha. apply lookup_ge_None in Hb. lia.
    + apply lookup_ge_None in Ha. rewrite (proj2 (lookup_ge_None k i)) by lia. constructor.
  - intros H i [i' b] Hb a Ha. specialize (H i). destruct (k !! i); [|done].
    cbn in Hb. simplify_eq. rewrite Ha in H. by inversion H.
Qed.

Lemma run_updated_order_timestamps new old now s (Q : unit -> cs -> Prop -> Prop) :
  length (wv_orders old) = length (wv_orders new) ->
  wallet_known r s ev new -> wallet_known r s ev old -> known r s ev (lc_var now) ->
  (forall s' (K : Prop), grows r s s' ->
    (K <-> Forall2 (timestamp_updated ev (ev (lc_var now))) (wv_orders old) (wv_orders new)) ->
    Q tt s' K) ->
  run r (constrain_updated_order_timestamps new old now) s Q.
Proof.
  intros Hlen Hn Ho Hnow HQ. unfold constrain_updated_order_timestamps.
  eapply (run_forM r _ (fun '(i, o) => forall o', wv_orders old !! i = Some o' ->
    timestamp_updated ev (ev (lc_var now)) o' o));
    [apply _| |intros s' K E HK; apply HQ; [done|]; rewrite HK; by apply Forall_imap_Forall2].
  intros [i o] s1 Hi E1. cbn beta iota. later_known E1.
  apply list_elem_of_lookup in Hi as [k Hk]. rewrite list_lookup_imap in Hk.
  destruct (wv_orders new !! k) as [o1|] eqn:Hk1; [|done]. cbn in Hk. simplify_eq.
  assert (exists o', wv_orders old !! i = Some o') as [o' Ho'].
  { apply lookup_lt_is_Some. rewrite Hlen. by eapply lookup_lt_Some. }
  bind. eapply run_get; [done|].
  pose proof (wk_orders _ _ _ _ Hn o (list_elem_of_lookup_2 _ _ _ Hk1)) as Kn.
  pose proof (wk_orders _ _ _ _ Ho o' (list_elem_of_lookup_2 _ _ _ Ho')) as Ko.
  bind. eapply run_eq_vec; [done|apply order_terms_length|by apply known_order_terms..|].
  intros e s2 K2 HK2 E2 He. later_known E2.
  unfold order_lcs in Kn, Ko. known_split Kn. known_split Ko.
  bind. eapply run_eq_gadget; [carried..|]. intros t s3 K3 HK3 E3 Ht. later_known E3.
  bind. eapply run_eq_gadget; [carried..|]. intros u s4 K4 HK4 E4 Hu. later_known E4.
  bind. eapply run_and_gate; [carried..|]. intros a5 s5 K5 HK5 E5 Ha5. later_known E5.
  bind. eapply run_and_gate; [carried..|]. intros a6 s6 K6 HK6 E6 Ha6. later_known E6.
  rewrite bit_and in Ha5. rewrite bit_not, bit_and in Ha6.
  bind. eapply run_or_gate; [carried..|]. intros o7 s7 K7 HK7 E7 Ho7. later_known E7.
  eapply run_constrain; [carried|]. intros s8 K8 E8 HK8. rewrite HK8, or_flags, Ho'.
  rewrite !andb_true_iff, negb_true_iff, !bool_decide_eq_true, bool_decide_eq_false.
  unfold timestamp_updated. split.
  - intros HK a [= <-]. destruct (decide (ev <$> _ = ev <$> _)); tauto.
  - intros HK. specialize (HK _ eq_refl). revert HK. destruct (decide (ev <$> _ = ev <$> _)); tauto.
Qed.

#[export] Instance validate_wallet_orders_monotone new old t : Monotone (validate_wallet_orders new old t).
Proof. unfold validate_wallet_orders. apply _. Qed.

Lemma run_validate_wallet_orders new old now s (Q : unit -> cs -> Prop -> Prop) :
  length (wv_orders old) = length (wv_orders new) ->
  wallet_known r s ev new -> wallet_known r s ev old -> known r s ev (lc_var now) ->
  (forall s' (K : Prop), grows r s s' ->
    (K <-> orders_valid ev (ev (lc_var now)) (wv_orders new) (wv_orders old)) -> Q tt s' K) ->
  run r (validate_wallet_orders new old now) s Q.
Proof.
  intros Hlen Hn Ho Hnow HQ. bind. eapply run_unique_order_pairs; [done|].
  intros s1 K1 E1 HK1. later_known E1. eapply run_updated_order_timestamps; [done..|].
  intros s2 K2 E2 HK2. apply HQ; [grown|]. rewrite HK1, HK2.
  split; [by intros [? ?]|by intros []].
Qed.
End orders.

Section statement.
  Context {C : ConstraintSystem} {L : ConstraintSystemLaws C} {P : ProverLaws C}.

#[export] Instance valid_wallet_update_monotone witness t k m n1 n2 c e :
  Monotone (valid_wallet_update witness t k m n1 n2 c e).
Proof. unfold valid_wallet_update. destruct e as [[? ?] ?]. apply _. Qed.

(** The variables that a caller allocates before it applies the constraints. *)
Definition update_vars (witness : ValidWalletUpdateWitnessVar)
    (timestamp pk_root merkle_root match_nullifier spend_nullifier new_wallet_commit : R1CSVar)
    (external_transfer : R1CSVar * R1CSVar * R1CSVar) : list LinearCombination :=
  wallet_vars (wallet1 witness) ++ wallet_vars (wallet2 witness) ++
  opening_lcs (wallet1_opening witness) ++
  (lc_var <$> [(internal_transfer witness).1; (internal_transfer witness).2; timestamp; pk_root;
    merkle_root; match_nullifier; spend_nullifier; new_wallet_commit; external_transfer.1.1;
    external_transfer.1.2; external_transfer.2]).

Lemma run_valid_wallet_update r ev witness t k m n1 n2 c e s :
  length (wv_orders (wallet1 witness)) = length (wv_orders (wallet2 witness)) ->
  (Z.of_nat (length (wv_balances (wallet2 witness))) < ristretto_order)%Z ->
  Forall (known r s ev) (update_vars witness t k m n1 n2 c e) ->
  run r (valid_wallet_update witness t k m n1 n2 c e) s (fun _ _ K =>
    K <-> update_relation ev (range_checked r 64) witness t k m n1 n2 c e).
Proof.
  intros Ho Hb Hv. unfold update_vars in Hv. rewrite !Forall_app in Hv.
  destruct Hv as (H1 & H2 & Hop & Hv). apply wallet_known_vars in H1, H2.
  cbn [fmap list_fmap] in Hv. known_split Hv. destruct e as [[e1 e2] e3]. cbn [fst snd] in *.
  unfold valid_wallet_update.
  bind. eapply run_wallet_hash; [done|]. intros h1 s1 K1 HK1 E1 Hh1. later_known E1.
  bind. eapply run_constrain_sub; [carried..|]. intros s2 K2 E2 HK2. later_known E2.
  bind. eapply run_wallet_hash; [exact H1|]. intros h3 s3 K3 HK3 E3 Hh3. later_known E3.
  bind. eapply run_merkle; [carried|done|carried|]. intros s4 K4 E4 HK4. later_known E4.
  bind. eapply run_spend_nullifier; [apply H1|carried|]. intros h5 s5 K5 HK5 E5 Hh5. later_known E5.
  bind. eapply run_match_nullifier; [apply H1|carried|]. intros h6 s6 K6 HK6 E6 Hh6. later_known E6.
  bind. eapply run_constrain_sub; [carried..|]. intros s7 K7 E7 HK7. later_known E7.
  bind. eapply run_constrain_sub; [carried..|]. intros s8 K8 E8 HK8. later_known E8.
  pose proof (wk_keys _ _ _ _ H1) as Hk. unfold keychain_lcs in Hk. known_split Hk.
  bind. eapply run_constrain_sub; [carried..|]. intros s9 K9 E9 HK9. later_known E9.
  bind. eapply run_constrain_keys_equal; [done..|]. intros s10 K10 E10 HK10. later_known E10.
  pose proof (wk_randomness _ _ _ _ H1) as Hr1. pose proof (wk_randomness _ _ _ _ H2) as Hr2.
  bind. eapply run_constrain_sub; [carried..|]. intros s11 K11 E11 HK11. later_known E11.
  bind. eapply run_multiply; [carried..|]. intros ? ? o s12 E12 _ _ Hbin. later_known E12.
  bind. eapply run_constrain; [carried|]. intros s13 K13 E13 HK13. later_known E13.
  rewrite binary_iff in HK13.
  bind. eapply run_validate_transfers; [done..|]. intros s14 K14 E14 HK14. later_known E14.
  eapply run_validate_wallet_orders; [done..|]. intros s15 K15 E15 HK15.
  split; [intros HK; constructor; cbn [fst snd]; tauto|].
  intros []. cbn [fst snd] in *. tauto.
Qed.


(** ** What the relation means for the assets *)

Lemma mints_unique_cons (ev : LinearCombination -> Scalar) b bs : mints_unique ev (b :: bs) ->
  mints_unique ev bs /\ (ev (lc_var (bv_mint b)) <> 0 ->
    Forall (fun b' => ev (lc_var (bv_mint b')) <> ev (lc_var (bv_mint b))) bs).
Proof.
  intros H. split.
  - intros i j bi bj Hij Hi Hj. apply (H (S i) (S j)); [lia|done..].
  - intros Hne. apply Forall_lookup. intros j bj Hj Heq.
    destruct (H 0%nat (S j) b bj) as [?|Hd]; [lia|done..|]. by apply Hd.
Qed.

Lemma amount_of_absent ev mint bs :
  Forall (fun b => ev (lc_var (bv_mint b)) <> mint) bs ->
  amount_of ev mint bs = 0 /\ holders ev mint bs = 0%nat.
Proof.
  unfold amount_of, holders. induction 1 as [|b bs Hb _ [IH1 IH2]]; [done|].
  rewrite fmap_cons, filter_cons. cbn [foldr]. rewrite !decide_False by done.
  rewrite IH1. split; [ring|done].
Qed.

Lemma amount_of_unique ev mint bs : mints_unique ev bs -> mint <> 0 ->
  Forall (fun b => ev (lc_var (bv_mint b)) <> mint) bs \/
  exists b, b ∈ bs /\ ev (lc_var (bv_mint b)) = mint /\
    amount_of ev mint bs = ev (lc_var (bv_amount b)) /\ holders ev mint bs = 1%nat.
Proof.
  intros Hu Hm. induction bs as [|b bs IH]; [left; constructor|].
  apply mints_unique_cons in Hu as [Hu Hb]. unfold amount_of, holders in *.
  rewrite fmap_cons, filter_cons. cbn [foldr].
  destruct (decide (ev (lc_var (bv_mint b)) = mint)) as [Heq|Hne].
  - right. exists b. split; [apply list_elem_of_here|]. split; [done|].
    destruct (amount_of_absent ev mint bs) as [H1 H2]; [rewrite <- Heq; apply Hb; congruence|].
    unfold amount_of, holders in H1, H2. rewrite H1. cbn [length]. rewrite H2. split; [ring|done].
  - destruct (IH Hu) as [Hall|(b' & Hin & Hb' & Ha & Hh)]; [left; by constructor|].
    right. exists b'. split; [by apply list_elem_of_further|]. rewrite Ha.
    split_and!; [done|ring|done].
Qed.

End statement.

(** ** Witnesses: an update between two wallets of the concrete system *)

Definition sample_update_witness : @ValidWalletUpdateWitnessVar list_cs := {|
  wallet1 := sample_wallet_var 0; wallet2 := sample_wallet_var 19;
  wallet1_opening := sample_opening_var 38; internal_transfer := (wire 40, wire 41) |}.


