(* ===== verification/ValidCommitments.v ===== *)
(** The statement VALID COMMITMENTS: circuits/src/zk_circuits/valid_commitments.rs.

    The prover shows that an order, the balance that covers it, a fee and the balance
    that pays the fee belong to one wallet of the state tree, before the order is
    matched. *)

From Stdlib Require Import Zmod.
From S2P Require Import Prelude Primality Field ConstraintSystem ListR1CS Gates Comparators.
From S2P Require Import Arithmetic FixedPoint PoseidonConstants Poseidon Types Merkle.
From S2P Require Import Commitments Readings Statements.

#[local] Open Scope Zmod_scope.
#[local] Open Scope circuit_scope.

(** * The circuit *)

Section circuit.
  Context {C : ConstraintSystem}.

Record ValidCommitmentsWitnessVar := {
  vc_wallet : WalletVar;
  vc_order : OrderVar;
  vc_balance : BalanceVar;
  vc_fee_balance : BalanceVar;
  vc_fee : FeeVar;
  vc_wallet_opening : MerkleOpeningVar;
  vc_randomness_hash : R1CSVar;
  vc_sk_match : R1CSVar;
}.

Record ValidCommitmentsStatementVar := {
  vc_nullifier : R1CSVar;
  vc_merkle_root : R1CSVar;
  vc_pk_settle : R1CSVar;
}.

(** The common body of the three membership checks: the elements that are equal to
    the given one are counted, and the count is constrained to one. *)
Definition verify_contains (x : list LinearCombination) (l : list (list LinearCombination))
    : circuit unit :=
  let! equal_sum := foldM (fun equal_sum y =>
    let! is_equal := eq_vec x y in
    c_ret (equal_sum + lc_var is_equal)%lc) (lc_var VarZero) l in
  constrain (equal_sum - VarOne)%lc.

(** [verify_wallet_contains_balance], [verify_wallet_contains_order],
    [verify_wallet_contains_fee] *)
Definition verify_wallet_contains_balance (balance : BalanceVar) (wallet : WalletVar) : circuit unit :=
  verify_contains (balance_lcs balance) (balance_lcs <$> wv_balances wallet).

Definition verify_wallet_contains_order (order : OrderVar) (wallet : WalletVar) : circuit unit :=
  verify_contains (order_lcs order) (order_lcs <$> wv_orders wallet).

Definition verify_wallet_contains_fee (fee : FeeVar) (wallet : WalletVar) : circuit unit :=
  verify_contains (fee_lcs fee) (fee_lcs <$> wv_fees wallet).

(** The statement, [circuit] *)
Definition valid_commitments (witness : ValidCommitmentsWitnessVar)
    (statement : ValidCommitmentsStatementVar) : circuit unit :=
  let wallet := vc_wallet witness in
  let! wallet_commitment := wallet_commit wallet in
  compute_and_constrain_root_prehashed wallet_commitment (vc_wallet_opening witness)
    (lc_var (vc_merkle_root statement)) ;;
  constrain (lc_var (vc_pk_settle statement) - lc_var (kv_pk_settle (wv_keys wallet)))%lc ;;
  let! match_nullifier_res := match_nullifier (wv_randomness wallet) wallet_commitment in
  constrain (match_nullifier_res - lc_var (vc_nullifier statement))%lc ;;
  verify_wallet_contains_balance (vc_balance witness) wallet ;;
  verify_wallet_contains_balance (vc_fee_balance witness) wallet ;;
  verify_wallet_contains_order (vc_order witness) wallet ;;
  verify_wallet_contains_fee (vc_fee witness) wallet ;;
  let! mint_sold := select (lc_var (ov_base_mint (vc_order witness)))
    (lc_var (ov_quote_mint (vc_order witness))) (lc_var (ov_side (vc_order witness))) in
  constrain (lc_var (bv_mint (vc_balance witness)) - mint_sold)%lc ;;
  constrain (lc_var (fv_gas_addr (vc_fee witness)) - lc_var (bv_mint (vc_fee_balance witness)))%lc ;;
  constrain_greater_than_eq 64 (lc_var (bv_amount (vc_fee_balance witness)))
    (lc_var (fv_gas_token_amount (vc_fee witness))) ;;
  hash_argument [lc_var (wv_randomness wallet)] (lc_var (vc_randomness_hash witness)) ;;
  hash_argument [lc_var (vc_sk_match witness)] (lc_var (kv_pk_match (wv_keys wallet))) ;;
  c_ret tt.
End circuit.

(** * The relation that the statement proves *)

Section relation.
  Context {C : ConstraintSystem} (ev : LinearCombination -> Scalar).

#[local] Notation "$ v" := (ev (lc_var v)) (at level 5, format "$ v").

(** The number of elements of a list with the values of [x]. *)
Definition occurrences (x : list LinearCombination) (l : list (list LinearCombination)) : nat :=
  length (filter (fun y => ev <$> x = ev <$> y) l).

Record commitments_relation (in_range : Scalar -> Prop) (witness : ValidCommitmentsWitnessVar)
    (statement : ValidCommitmentsStatementVar) : Prop := {
  cr_member : $(vc_merkle_root statement) =
    root_of (wallet_hash ev (vc_wallet witness)) (path_of ev (vc_wallet_opening witness));
  cr_pk_settle : $(vc_pk_settle statement) = $(kv_pk_settle (wv_keys (vc_wallet witness)));
  cr_nullifier : Native.sponge default_params
    [wallet_hash ev (vc_wallet witness); $(wv_randomness (vc_wallet witness)) + 1] =
    $(vc_nullifier statement);
  cr_balance : occurrences (balance_lcs (vc_balance witness))
    (balance_lcs <$> wv_balances (vc_wallet witness)) = 1%nat;
  cr_fee_balance : occurrences (balance_lcs (vc_fee_balance witness))
    (balance_lcs <$> wv_balances (vc_wallet witness)) = 1%nat;
  cr_order : occurrences (order_lcs (vc_order witness))
    (order_lcs <$> wv_orders (vc_wallet witness)) = 1%nat;
  cr_fee : occurrences (fee_lcs (vc_fee witness)) (fee_lcs <$> wv_fees (vc_wallet witness)) = 1%nat;
  cr_mint : $(bv_mint (vc_balance witness)) =
    $(ov_base_mint (vc_order witness)) * $(ov_side (vc_order witness)) +
    $(ov_quote_mint (vc_order witness)) * (1 - $(ov_side (vc_order witness)));
  cr_gas_mint : $(fv_gas_addr (vc_fee witness)) = $(bv_mint (vc_fee_balance witness));
  cr_gas_covered : in_range
    ($(bv_amount (vc_fee_balance witness)) - $(fv_gas_token_amount (vc_fee witness)));
  cr_randomness : $(vc_randomness_hash witness) =
    Native.sponge default_params [$(wv_randomness (vc_wallet witness))];
  cr_sk_match : $(kv_pk_match (wv_keys (vc_wallet witness))) =
    Native.sponge default_params [$(vc_sk_match witness)];
}.
End relation.

(** * The circuit in both readings *)

Section runs.
  Context {C : ConstraintSystem} {L : ConstraintSystemLaws C} {P : ProverLaws C}.
  Context (r : reading) (ev : LinearCombination -> Scalar).

#[export] Instance verify_contains_monotone x l : Monotone (verify_contains x l).
Proof. unfold verify_contains. apply _. Qed.

Lemma occurrences_sum (x : list LinearCombination) l :
  foldr Zmod.add 0 ((fun y => bit_scalar (bool_decide (ev <$> x = ev <$> y))) <$> l) =
  scalar (Z.of_nat (occurrences ev x l)).
Proof.
  unfold occurrences. induction l as [|y l IH]; [done|].
  rewrite fmap_cons, filter_cons. cbn [foldr]. rewrite IH, bit_scalar_Z, <- Zmod.of_Z_add. f_equal.
  rewrite decide_bool_decide. case_bool_decide; cbn [length Z.b2z]; lia.
Qed.

Lemma run_verify_contains x l s (Q : unit -> cs -> Prop -> Prop) :
  (Z.of_nat (length x) < ristretto_order)%Z -> (Z.of_nat (length l) < ristretto_order)%Z ->
  Forall (known r s ev) x ->
  (forall y, y ∈ l -> length y = length x /\ Forall (known r s ev) y) ->
  (forall s' (K : Prop), grows r s s' -> (K <-> occurrences ev x l = 1%nat) -> Q tt s' K) ->
  run r (verify_contains x l) s Q.
Proof.
  intros Hx Hl Kx Ky HQ. unfold verify_contains. bind.
  eapply (run_sum r _ (fun y => bit_scalar (bool_decide (ev <$> x = ev <$> y))));
    [apply _|apply holds_zero| |].
  - intros y acc a s1 Q' Hy E1 Ha HQ'. destruct (Ky y Hy) as [Hlen Hk]. later_known E1. bind.
    eapply run_eq_vec; [done|done|by apply known_holds..|].
    intros e s2 K2 HK2 E2 He. later_known E2. apply run_ret, HQ'; [done|grown|carried].
  - intros out s1 K1 HK1 E1 Ho. rewrite Zmod.add_0_l, occurrences_sum in Ho.
    eapply run_constrain_sub; [carried..|]. intros s2 K2 E2 HK2. apply HQ; [grown|].
    rewrite HK2. pose proof (length_filter (fun y => ev <$> x = ev <$> y) l) as Hf.
    fold (occurrences ev x l) in Hf. split.
    + intros [_ H%(f_equal Zmod.to_Z)]. rewrite to_Z_small in H by lia.
      change (Zmod.to_Z 1) with 1%Z in H. lia.
    + intros ->. done.
Qed.
End runs.

Section statement.
  Context {C : ConstraintSystem} {L : ConstraintSystemLaws C} {P : ProverLaws C}.

#[export] Instance valid_commitments_monotone witness st : Monotone (valid_commitments witness st).
Proof.
  unfold valid_commitments, verify_wallet_contains_balance, verify_wallet_contains_order,
    verify_wallet_contains_fee. apply _.
Qed.

(** The variables that a caller allocates before it applies the constraints. *)
Definition commitments_vars (witness : ValidCommitmentsWitnessVar)
    (st : ValidCommitmentsStatementVar) : list LinearCombination :=
  wallet_vars (vc_wallet witness) ++ opening_lcs (vc_wallet_opening witness) ++
  order_lcs (vc_order witness) ++ balance_lcs (vc_balance witness) ++
  balance_lcs (vc_fee_balance witness) ++ fee_lcs (vc_fee witness) ++
  (lc_var <$> [vc_randomness_hash witness; vc_sk_match witness; vc_nullifier st;
    vc_merkle_root st; vc_pk_settle st]).

(** The lists of a wallet are shorter than the order of the field. *)
Record wallet_sized (w : WalletVar) : Prop := {
  sized_balances : (Z.of_nat (length (wv_balances w)) < ristretto_order)%Z;
  sized_orders : (Z.of_nat (length (wv_orders w)) < ristretto_order)%Z;
  sized_fees : (Z.of_nat (length (wv_fees w)) < ristretto_order)%Z;
}.

Lemma elements_known {A} r s ev (f : A -> list LinearCombination) (n : nat) (l : list A) :
  (forall x, length (f x) = n) -> (forall x, x ∈ l -> Forall (known r s ev) (f x)) ->
  forall y, y ∈ f <$> l -> length y = n /\ Forall (known r s ev) y.
Proof. intros Hn Hf y (x & -> & Hx)%list_elem_of_fmap. auto. Qed.

Lemma run_valid_commitments r ev witness st s :
  wallet_sized (vc_wallet witness) ->
  Forall (known r s ev) (commitments_vars witness st) ->
  run r (valid_commitments witness st) s (fun _ _ K =>
    K <-> commitments_relation ev (range_checked r 64) witness st).
Proof.
  intros [Sb So Sf] Hv. unfold commitments_vars in Hv. rewrite !Forall_app in Hv.
  destruct Hv as (Hw & Hop & Ho & Hb & Hfb & Hf & Hv). apply wallet_known_vars in Hw.
  cbn [fmap list_fmap] in Hv. known_split Hv. unfold valid_commitments.
  pose proof (wk_keys _ _ _ _ Hw) as Hk. unfold keychain_lcs in Hk. known_split Hk.
  bind. eapply run_wallet_hash; [done|]. intros h1 s1 K1 HK1 E1 Hh1. later_known E1.
  bind. eapply run_merkle; [carried|done|carried|]. intros s2 K2 E2 HK2. later_known E2.
  bind. eapply run_constrain_sub; [carried..|]. intros s3 K3 E3 HK3. later_known E3.
  bind. eapply run_match_nullifier; [apply Hw|carried|]. intros h4 s4 K4 HK4 E4 Hh4. later_known E4.
  bind. eapply run_constrain_sub; [carried..|]. intros s5 K5 E5 HK5. later_known E5.
  bind. eapply (run_verify_contains r ev);
    [done|by rewrite length_fmap|done|by apply elements_known; [|apply Hw]|].
  intros s6 K6 E6 HK6. later_known E6.
  bind. eapply (run_verify_contains r ev);
    [done|by rewrite length_fmap|done|by apply elements_known; [|apply Hw]|].
  intros s7 K7 E7 HK7. later_known E7.
  bind. eapply (run_verify_contains r ev);
    [done|by rewrite length_fmap|done|by apply elements_known; [|apply Hw]|].
  intros s8 K8 E8 HK8. later_known E8.
  bind. eapply (run_verify_contains r ev);
    [done|by rewrite length_fmap|done|by apply elements_known; [|apply Hw]|].
  intros s9 K9 E9 HK9. later_known E9.
  pose proof (wk_randomness _ _ _ _ Hw) as Hr.
  unfold order_lcs in Ho. unfold balance_lcs in Hb, Hfb. unfold fee_lcs in Hf.
  known_split Ho. known_split Hb. known_split Hfb. known_split Hf.
  bind. eapply run_select; [carried..|]. intros m s10 K10 HK10 E10 Hm. later_known E10.
  bind. eapply run_constrain_sub; [carried..|]. intros s11 K11 E11 HK11. later_known E11.
  bind. eapply run_constrain_sub; [carried..|]. intros s12 K12 E12 HK12. later_known E12.
  bind. eapply run_constrain_greater_than_zero; [by apply Nat.leb_le|carried|].
  intros s13 K13 E13 HK13. later_known E13.
  bind. eapply run_hash_argument; [carried..|]. intros ? s14 K14 E14 HK14. later_known E14.
  bind. eapply run_hash_argument; [carried..|]. intros ? s15 K15 E15 HK15. later_known E15.
  apply run_ret. split; [intros HK; constructor; tauto|]. intros []. tauto.
Qed.

(** C6: VALID COMMITMENTS proves its relation.  In every satisfying assignment the
    wallet opens to the root, its match nullifier and settle key are the public ones,
    the balance, the fee balance, the order and the fee each occur exactly once in
    the wallet, the balance has the mint that the order sells, the fee balance has
    the mint of the fee, the blinder is the hash of the randomness and the prover
    knows the pre-image of the match key.  An honest run verifies exactly when this
    holds and the fee balance exceeds the fee by a 64-bit amount. *)
Theorem valid_commitments_correct witness st :
  wallet_sized (vc_wallet witness) ->
  sound (valid_commitments witness st) (fun w _ =>
    commitments_relation (lc_eval w) (fun _ => True) witness st) /\
  forall s, Forall (lc_scoped s) (commitments_vars witness st) ->
    wp (valid_commitments witness st) s (fun _ _ K => K <->
      commitments_relation (value s) (fun x => Zmod.to_Z x < 2 ^ 64)%Z witness st).
Proof.
  intros Hsz. split.
  - apply sound_of_run; [apply _|]. intros w Hw s.
    eapply run_mono; [apply (run_valid_commitments _ (lc_eval w)); [done|apply known_any]|].
    intros [] s' K _ HK. apply HK.
  - intros s Hs. apply (run_valid_commitments Honest); [done|]. by apply known_honest.
Qed.
End statement.

(** ** Witness *)

Definition sample_commitments_witness : @ValidCommitmentsWitnessVar list_cs := {|
  vc_wallet := sample_wallet_var 0; vc_wallet_opening := sample_opening_var 19;
  vc_order := sample_order_var 21; vc_balance := sample_balance_var 27;
  vc_fee_balance := sample_balance_var 29; vc_fee := sample_fee_var 31;
  vc_randomness_hash := wire 35; vc_sk_match := wire 36 |}.

Definition sample_commitments_statement : @ValidCommitmentsStatementVar list_cs :=
  {| vc_nullifier := wire 37; vc_merkle_root := wire 38; vc_pk_settle := wire 39 |}.

Lemma valid_commitments_correct_witness :
  let s := with_values (replicate 40 (scalar 3)) in
  cs_wf s /\
  wp (valid_commitments sample_commitments_witness sample_commitments_statement) s
    (fun _ _ K => K <-> commitments_relation (value s) (fun x => Zmod.to_Z x < 2 ^ 64)%Z
      sample_commitments_witness sample_commitments_statement).
Proof.
  cbn zeta. split; [scoped|]. apply valid_commitments_correct; [done|].
  by apply (wires_scoped _ (seq 0 40)).
Defined.
