(* ===== verification/ValidSettle.v ===== *)
(** The statement VALID SETTLE: circuits/src/zk_circuits/valid_settle.rs.

    A note that was generated by a match or by an internal transfer is applied to a
    wallet: the balances of its mints change, and the matched order shrinks. *)

From Stdlib Require Import Zmod.
From S2P Require Import Prelude Primality Field ConstraintSystem ListR1CS Gates Comparators.
From S2P Require Import Arithmetic FixedPoint PoseidonConstants Poseidon Types Merkle.
From S2P Require Import Commitments ElGamal Readings Statements ValidWalletUpdate.

#[local] Open Scope Zmod_scope.
#[local] Open Scope circuit_scope.

(** * The circuit *)

Section circuit.
  Context {C : ConstraintSystem}.

Record ValidSettleWitnessVar := {
  pre_wallet : WalletVar;
  pre_wallet_opening : MerkleOpeningVar;
  post_wallet : WalletVar;
  vs_note : NoteVar;
  note_commitment : R1CSVar;
  note_opening : MerkleOpeningVar;
  sk_settle : R1CSVar;
}.

Record ValidSettleStatementVar := {
  post_wallet_commit : R1CSVar;
  post_wallet_ciphertext : list ElGamalCiphertextVar;
  wallet_spend_nullifier : R1CSVar;
  wallet_match_nullifier : R1CSVar;
  vs_note_redeem_nullifier : R1CSVar;
  vs_merkle_root : R1CSVar;
  vs_type : R1CSVar;
}.

(** [validate_state_primitives] *)
Definition validate_state_primitives (witness : ValidSettleWitnessVar)
    (statement : ValidSettleStatementVar) : circuit unit :=
  let! pre_wallet_commit_res := wallet_commit (pre_wallet witness) in
  compute_and_constrain_root_prehashed pre_wallet_commit_res (pre_wallet_opening witness)
    (lc_var (vs_merkle_root statement)) ;;
  let! note_commitment_res :=
    note_commit (vs_note witness) (kv_pk_settle (wv_keys (pre_wallet witness))) in
  compute_and_constrain_root_prehashed note_commitment_res (note_opening witness)
    (lc_var (vs_merkle_root statement)) ;;
  let! post_wallet_commit_res := wallet_commit (post_wallet witness) in
  constrain (lc_var (post_wallet_commit statement) - post_wallet_commit_res)%lc ;;
  let! pre_wallet_spend_nullifier :=
    spend_nullifier (wv_randomness (pre_wallet witness)) pre_wallet_commit_res in
  constrain (lc_var (wallet_spend_nullifier statement) - pre_wallet_spend_nullifier)%lc ;;
  let! pre_wallet_match_nullifier :=
    match_nullifier (wv_randomness (pre_wallet witness)) pre_wallet_commit_res in
  constrain (lc_var (wallet_match_nullifier statement) - pre_wallet_match_nullifier)%lc ;;
  let! note_redeem_nullifier_res :=
    note_redeem_nullifier (kv_pk_settle (wv_keys (pre_wallet witness))) note_commitment_res in
  constrain (lc_var (vs_note_redeem_nullifier statement) - note_redeem_nullifier_res)%lc.

(** [validate_balance_mints_unique] *)
Definition validate_balance_mints_unique (witness : ValidSettleWitnessVar) : circuit unit :=
  let n_balances := length (wv_balances (post_wallet witness)) in
  foldM (fun _ i =>
    let! bi := c_get (wv_balances (post_wallet witness) !! i) in
    let! balance_mint_i_eq_zero := eq_zero (lc_var (bv_mint bi)) in
    foldM (fun _ j =>
      let! bj := c_get (wv_balances (post_wallet witness) !! j) in
      let! ne := not_equal (lc_var (bv_mint bi)) (lc_var (bv_mint bj)) in
      let! ne_or_mint_zero := or_gate ne (lc_var balance_mint_i_eq_zero) in
      constrain (VarOne - ne_or_mint_zero)%lc) tt (seq (S i) (n_balances - S i)))
    tt (seq 0 n_balances).

(** [validate_balance_updates]: the amount that the old wallet and the note give for a
    mint, and the function. *)
Definition old_balances_term (new_balance : BalanceVar) (old_balances : list BalanceVar)
    : circuit LinearCombination :=
  foldM (fun expected_bal old_balance =>
    let! mints_equal := eq_gadget (lc_var (bv_mint old_balance)) (lc_var (bv_mint new_balance)) in
    let! (_, _, equal_mints_term) :=
      multiply (lc_var mints_equal) (lc_var (bv_amount old_balance)) in
    c_ret (expected_bal + lc_var equal_mints_term)%lc) (lc_var VarZero) old_balances.

Definition add_note_term (expected_bal : LinearCombination) (new_balance : BalanceVar)
    (mint : R1CSVar) (note_term : LinearCombination) : circuit LinearCombination :=
  let! mints_equal_note_term := eq_gadget (lc_var (bv_mint new_balance)) (lc_var mint) in
  let! (_, _, note_term_masked) := multiply (lc_var mints_equal_note_term) note_term in
  c_ret (expected_bal + lc_var note_term_masked)%lc.

Definition validate_balance_updates (witness : ValidSettleWitnessVar) : circuit unit :=
  let note := vs_note witness in
  let scalar_neg_one := Zmod.opp 1 in
  let! note_term1 := select (scalar_neg_one *! lc_var (nv_volume1 note))%lc
    (lc_var (nv_volume1 note)) (lc_var (nv_direction1 note)) in
  let! note_term2 := select (scalar_neg_one *! lc_var (nv_volume2 note))%lc
    (lc_var (nv_volume2 note)) (lc_var (nv_direction2 note)) in
  let! note_term3 := select (scalar_neg_one *! lc_var (nv_fee_volume note))%lc
    (lc_var (nv_fee_volume note)) (lc_var (nv_fee_direction note)) in
  foldM (fun _ new_balance =>
    let! expected_bal := old_balances_term new_balance (wv_balances (pre_wallet witness)) in
    let! expected_bal := add_note_term expected_bal new_balance (nv_mint1 note) note_term1 in
    let! expected_bal := add_note_term expected_bal new_balance (nv_mint2 note) note_term2 in
    let! expected_bal := add_note_term expected_bal new_balance (nv_fee_mint note) note_term3 in
    constrain (lc_var (bv_amount new_balance) - expected_bal)%lc)
    tt (wv_balances (post_wallet witness)).

(** [validate_new_balances] *)
Definition validate_new_balances (witness : ValidSettleWitnessVar) : circuit unit :=
  validate_balance_mints_unique witness ;;
  validate_balance_updates witness.

(** [validate_orders_equal_except_amount] *)
Definition kept_terms (o : OrderVar) : list LinearCombination :=
  [lc_var (ov_base_mint o); lc_var (ov_quote_mint o); lc_var (ov_side o);
   FixedPointVar.repr (ov_price o); lc_var (ov_timestamp o)].

Definition validate_orders_equal_except_amount (o1 o2 : OrderVar) : circuit unit :=
  constrain_eq_vec (kept_terms o1) (kept_terms o2).

(** [validate_order_updates] *)
Definition validate_order_updates (witness : ValidSettleWitnessVar) : circuit unit :=
  let note := vs_note witness in
  let! note_term := select (lc_var (nv_volume1 note)) (lc_var VarZero) (lc_var (nv_type note)) in
  foldM (fun _ '(old_order, new_order) =>
    validate_orders_equal_except_amount old_order new_order ;;
    let expected_result := lc_var (ov_amount old_order) in
    let! mint_pair_equal := eq_vec [lc_var (nv_mint1 note); lc_var (nv_mint2 note)]
      [lc_var (ov_base_mint old_order); lc_var (ov_quote_mint old_order)] in
    let! (_, _, masked_note_term) := multiply (lc_var mint_pair_equal) note_term in
    let expected_result := (expected_result - lc_var masked_note_term)%lc in
    constrain (expected_result - lc_var (ov_amount new_order))%lc)
    tt (zip (wv_orders (pre_wallet witness)) (wv_orders (post_wallet witness))).

(** The statement, [circuit] *)
Definition valid_settle (witness : ValidSettleWitnessVar) (statement : ValidSettleStatementVar)
    : circuit unit :=
  validate_state_primitives witness statement ;;
  let pre_keys := wv_keys (pre_wallet witness) in
  let post_keys := wv_keys (post_wallet witness) in
  constrain (lc_var (kv_pk_root pre_keys) - lc_var (kv_pk_root post_keys))%lc ;;
  constrain (lc_var (kv_pk_match pre_keys) - lc_var (kv_pk_match post_keys))%lc ;;
  constrain (lc_var (kv_pk_settle pre_keys) - lc_var (kv_pk_settle post_keys))%lc ;;
  constrain (lc_var (kv_pk_view pre_keys) - lc_var (kv_pk_view post_keys))%lc ;;
  hash_argument [lc_var (sk_settle witness)] (lc_var (kv_pk_settle pre_keys)) ;;
  constrain (lc_var (wv_randomness (pre_wallet witness)) + scalar 2 *! lc_var VarOne
    - lc_var (wv_randomness (post_wallet witness)))%lc ;;
  constrain (lc_var (vs_type statement) - lc_var (nv_type (vs_note witness)))%lc ;;
  validate_new_balances witness ;;
  validate_order_updates witness.
End circuit.

(** * The relation that the statement proves *)

Section relation.
  Context {C : ConstraintSystem} (ev : LinearCombination -> Scalar).

#[local] Notation "$ v" := (ev (lc_var v)) (at level 5, format "$ v").

(** The signed volume of a side of the note; the side of a committed note is a bit. *)
Definition note_term (volume direction : Scalar) : Scalar :=
  volume * (1 - direction) - volume * direction.

(** What the note adds to the balance of a mint. *)
Definition note_amount (n : NoteVar) (mint : Scalar) : Scalar :=
  (if decide (mint = $(nv_mint1 n)) then note_term $(nv_volume1 n) $(nv_direction1 n) else 0) +
  (if decide (mint = $(nv_mint2 n)) then note_term $(nv_volume2 n) $(nv_direction2 n) else 0) +
  (if decide (mint = $(nv_fee_mint n))
   then note_term $(nv_fee_volume n) $(nv_fee_direction n) else 0).

Definition settled_order (n : NoteVar) (o o' : OrderVar) : Prop :=
  ev <$> kept_terms o = ev <$> kept_terms o' /\
  $(ov_amount o') = $(ov_amount o) -
    (if decide ([$(nv_mint1 n); $(nv_mint2 n)] = [$(ov_base_mint o); $(ov_quote_mint o)])
     then $(nv_volume1 n) * $(nv_type n) else 0).

Definition note_hash (n : NoteVar) (k : R1CSVar) : Scalar :=
  Native.sponge default_params (ev <$> (note_lcs n ++ [lc_var k])).

Record settle_relation (witness : ValidSettleWitnessVar) (st : ValidSettleStatementVar) : Prop := {
  sr_pre_member : $(vs_merkle_root st) =
    root_of (wallet_hash ev (pre_wallet witness)) (path_of ev (pre_wallet_opening witness));
  sr_note_member : $(vs_merkle_root st) =
    root_of (note_hash (vs_note witness) (kv_pk_settle (wv_keys (pre_wallet witness))))
      (path_of ev (note_opening witness));
  sr_post_commit : $(post_wallet_commit st) = wallet_hash ev (post_wallet witness);
  sr_spend : $(wallet_spend_nullifier st) = Native.sponge default_params
    [wallet_hash ev (pre_wallet witness); $(wv_randomness (pre_wallet witness))];
  sr_match : $(wallet_match_nullifier st) = Native.sponge default_params
    [wallet_hash ev (pre_wallet witness); $(wv_randomness (pre_wallet witness)) + 1];
  sr_redeem : $(vs_note_redeem_nullifier st) = Native.sponge default_params
    [note_hash (vs_note witness) (kv_pk_settle (wv_keys (pre_wallet witness)));
     $(kv_pk_settle (wv_keys (pre_wallet witness)))];
  sr_keys : ev <$> keychain_lcs (wv_keys (pre_wallet witness)) =
    ev <$> keychain_lcs (wv_keys (post_wallet witness));
  sr_sk_settle : $(kv_pk_settle (wv_keys (pre_wallet witness))) =
    Native.sponge default_params [$(sk_settle witness)];
  sr_randomness : $(wv_randomness (pre_wallet witness)) + scalar 2 =
    $(wv_randomness (post_wallet witness));
  sr_type : $(vs_type st) = $(nv_type (vs_note witness));
  sr_unique : mints_unique ev (wv_balances (post_wallet witness));
  sr_balances : Forall (fun b => $(bv_amount b) =
    amount_of ev $(bv_mint b) (wv_balances (pre_wallet witness)) +
    note_amount (vs_note witness) $(bv_mint b)) (wv_balances (post_wallet witness));
  sr_orders : Forall2 (settled_order (vs_note witness))
    (wv_orders (pre_wallet witness)) (wv_orders (post_wallet witness));
}.
End relation.

(** * The circuit in both readings *)

Section runs.
  Context {C : ConstraintSystem} {L : ConstraintSystemLaws C} {P : ProverLaws C}.
  Context (r : reading) (ev : LinearCombination -> Scalar).

#[export] Instance validate_state_primitives_monotone w st : Monotone (validate_state_primitives w st).
Proof. unfold validate_state_primitives. apply _. Qed.

Lemma run_validate_state_primitives w st s (Q : unit -> cs -> Prop -> Prop) :
  wallet_known r s ev (pre_wallet w) -> wallet_known r s ev (post_wallet w) ->
  Forall (known r s ev) (opening_lcs (pre_wallet_opening w)) ->
  Forall (known r s ev) (opening_lcs (note_opening w)) ->
  Forall (known r s ev) (note_lcs (vs_note w)) ->
  Forall (known r s ev) (lc_var <$> [post_wallet_commit st; wallet_spend_nullifier st;
    wallet_match_nullifier st; vs_note_redeem_nullifier st; vs_merkle_root st]) ->
  (forall s' (K : Prop), grows r s s' ->
    let pk := kv_pk_settle (wv_keys (pre_wallet w)) in
    let wc := wallet_hash ev (pre_wallet w) in let nc := note_hash ev (vs_note w) pk in
    let rnd := ev (lc_var (wv_randomness (pre_wallet w))) in
    (K <-> ev (lc_var (vs_merkle_root st)) = root_of wc (path_of ev (pre_wallet_opening w)) /\
      ev (lc_var (vs_merkle_root st)) = root_of nc (path_of ev (note_opening w)) /\
      ev (lc_var (post_wallet_commit st)) = wallet_hash ev (post_wallet w) /\
      ev (lc_var (wallet_spend_nullifier st)) = Native.sponge default_params [wc; rnd] /\
      ev (lc_var (wallet_match_nullifier st)) = Native.sponge default_params [wc; rnd + 1] /\
      ev (lc_var (vs_note_redeem_nullifier st)) =
        Native.sponge default_params [nc; ev (lc_var pk)]) -> Q tt s' K) ->
  run r (validate_state_primitives w st) s Q.
Proof.
  intros H1 H2 Ho1 Ho2 Hn Hv HQ. cbn [fmap list_fmap] in Hv. known_split Hv.
  pose proof (wk_keys _ _ _ _ H1) as Hk. unfold keychain_lcs in Hk. known_split Hk.
  unfold validate_state_primitives.
  bind. eapply run_wallet_hash; [done|]. intros h1 s1 K1 HK1 E1 Hh1. later_known E1.
  bind. eapply run_merkle; [carried|exact Ho1|carried|]. intros s2 K2 E2 HK2. later_known E2.
  bind. eapply run_note_commit; [apply known_holds, Forall_app; split; [done|by repeat constructor]|].
  intros h3 s3 K3 HK3 E3 Hh3. later_known E3.
  bind. eapply run_merkle; [carried|exact Ho2|carried|]. intros s4 K4 E4 HK4. later_known E4.
  bind. eapply run_wallet_hash; [exact H2|]. intros h5 s5 K5 HK5 E5 Hh5. later_known E5.
  bind. eapply run_constrain_sub; [carried..|]. intros s6 K6 E6 HK6. later_known E6.
  bind. eapply run_spend_nullifier; [apply H1|carried|]. intros h7 s7 K7 HK7 E7 Hh7. later_known E7.
  bind. eapply run_constrain_sub; [carried..|]. intros s8 K8 E8 HK8. later_known E8.
  bind. eapply run_match_nullifier; [apply H1|carried|]. intros h9 s9 K9 HK9 E9 Hh9. later_known E9.
  bind. eapply run_constrain_sub; [carried..|]. intros s10 K10 E10 HK10. later_known E10.
  bind. eapply run_note_redeem_nullifier; [carried..|]. intros h11 s11 K11 HK11 E11 Hh11.
  later_known E11.
  eapply run_constrain_sub; [carried..|]. intros s12 K12 E12 HK12. apply HQ; [grown|]. cbn zeta.
  unfold note_hash. tauto.
Qed.

#[export] Instance validate_balance_mints_unique_monotone w :
  Monotone (validate_balance_mints_unique w).
Proof. unfold validate_balance_mints_unique. apply _. Qed.

Lemma run_validate_balance_mints_unique w s (Q : unit -> cs -> Prop -> Prop) :
  wallet_known r s ev (post_wallet w) ->
  (forall s' (K : Prop), grows r s s' ->
    (K <-> mints_unique ev (wv_balances (post_wallet w))) -> Q tt s' K) ->
  run r (validate_balance_mints_unique w) s Q.
Proof.
  intros Hw HQ. unfold validate_balance_mints_unique. cbn zeta.
  set (bs := wv_balances (post_wallet w)) in *.
  eapply run_forM; [apply _| |intros s' K E HK; apply HQ; [done|];
    unfold mints_unique; rewrite HK; symmetry; apply (forall_pairs bs (fun bi bj =>
      ev (lc_var (bv_mint bi)) = 0 \/ ev (lc_var (bv_mint bi)) <> ev (lc_var (bv_mint bj))))].
  intros i s1 Hi E1. cbn beta. later_known E1. destruct (seq_lookup _ _ Hi) as [bi Hbi].
  bind. eapply run_get; [done|].
  pose proof (wk_balances _ _ _ _ Hw bi (list_elem_of_lookup_2 _ _ _ Hbi)) as Ki.
  unfold balance_lcs in Ki. known_split Ki.
  bind. eapply run_eq_zero; [carried|]. intros z s2 K2 HK2 E2 Hz. later_known E2.
  eapply run_forM; [apply _| |intros s' K E HK;
    split; [intros (_ & _ & H); apply HK, H|intros H; split_and!; [done|done|by apply HK]]].
  intros j s3 Hj E3. cbn beta. later_known E3.
  assert (exists bj, bs !! j = Some bj) as [bj Hbj].
  { apply lookup_lt_is_Some. apply elem_of_seq in Hi, Hj. lia. }
  bind. eapply run_get; [done|].
  pose proof (wk_balances _ _ _ _ Hw bj (list_elem_of_lookup_2 _ _ _ Hbj)) as Kj.
  unfold balance_lcs in Kj. known_split Kj.
  bind. eapply run_not_equal; [carried..|]. intros u s4 K4 HK4 E4 Hu. later_known E4.
  bind. eapply run_or_gate; [carried..|]. intros o s5 K5 HK5 E5 Ho. later_known E5.
  eapply run_constrain; [carried|]. intros s6 K6 E6 HK6.
  rewrite HK6, or_flags, !bool_decide_eq_true, Hbi, Hbj. split.
  - intros (_ & _ & _ & H) a b [= <-] [= <-]. tauto.
  - intros H. specialize (H _ _ eq_refl eq_refl). tauto.
Qed.

#[export] Instance old_balances_term_monotone b l : Monotone (old_balances_term b l).
Proof. unfold old_balances_term. apply _. Qed.
#[export] Instance add_note_term_monotone a b m t : Monotone (add_note_term a b m t).
Proof. unfold add_note_term. apply _. Qed.

Lemma run_old_balances_term b old mint s (Q : LinearCombination -> cs -> Prop -> Prop) :
  holds r s (lc_var (bv_mint b)) mint ->
  (forall b, b ∈ old -> Forall (known r s ev) (balance_lcs b)) ->
  (forall out s' (K : Prop), K -> grows r s s' -> holds r s' out (amount_of ev mint old) -> Q out s' K) ->
  run r (old_balances_term b old) s Q.
Proof.
  intros Hm Hold HQ. unfold old_balances_term.
  eapply (run_sum r _ (fun o => if decide (ev (lc_var (bv_mint o)) = mint)
    then ev (lc_var (bv_amount o)) else 0)); [apply _|apply holds_zero| |].
  - intros o acc a s1 Q' Ho E1 Ha HQ'. specialize (Hold o Ho). unfold balance_lcs in Hold.
    known_split Hold. later_known E1. bind. eapply run_eq_gadget; [carried..|].
    intros z s2 K2 HK2 E2 Hz. later_known E2. bind. eapply run_multiply; [carried..|].
    intros ? ? o3 s3 E3 _ _ Ho3. later_known E3. apply run_ret, HQ'; [done|grown|].
    rewrite bit_mul_decide in Ho3. by apply holds_add.
  - intros out s' K HK E Ho. apply HQ; [done..|]. by rewrite Zmod.add_0_l in Ho.
Qed.

Lemma run_add_note_term acc b mint term x y m t s (Q : LinearCombination -> cs -> Prop -> Prop) :
  holds r s acc x -> holds r s (lc_var (bv_mint b)) y -> holds r s (lc_var mint) m ->
  holds r s term t ->
  (forall out s' (K : Prop), K -> grows r s s' ->
    holds r s' out (x + if decide (y = m) then t else 0) -> Q out s' K) ->
  run r (add_note_term acc b mint term) s Q.
Proof.
  intros Ha Hb Hm Ht HQ. unfold add_note_term.
  bind. eapply run_eq_gadget; [carried..|]. intros z s1 K1 HK1 E1 Hz. later E1.
  bind. eapply run_multiply; [carried..|]. intros ? ? o s2 E2 _ _ Ho. later E2.
  apply run_ret, HQ; [done|grown|]. rewrite bit_mul_decide in Ho. by apply holds_add.
Qed.

#[export] Instance validate_balance_updates_monotone w : Monotone (validate_balance_updates w).
Proof. unfold validate_balance_updates. apply _. Qed.

Lemma select_note_term (v d : Scalar) : Zmod.opp 1 * v * d + v * (1 - d) = note_term v d.
Proof. unfold note_term. ring. Qed.

Lemma run_validate_balance_updates w s (Q : unit -> cs -> Prop -> Prop) :
  wallet_known r s ev (pre_wallet w) -> wallet_known r s ev (post_wallet w) ->
  Forall (known r s ev) (note_lcs (vs_note w)) ->
  (forall s' (K : Prop), grows r s s' ->
    (K <-> Forall (fun b => ev (lc_var (bv_amount b)) =
      amount_of ev (ev (lc_var (bv_mint b))) (wv_balances (pre_wallet w)) +
      note_amount ev (vs_note w) (ev (lc_var (bv_mint b)))) (wv_balances (post_wallet w))) ->
    Q tt s' K) ->
  run r (validate_balance_updates w) s Q.
Proof.
  intros H1 H2 Hn HQ. unfold note_lcs in Hn. known_split Hn. unfold validate_balance_updates.
  cbn zeta.
  bind. eapply run_select; [carried..|]. intros t1 s1 K1 HK1 E1 Ht1. later_known E1.
  bind. eapply run_select; [carried..|]. intros t2 s2 K2 HK2 E2 Ht2. later_known E2.
  bind. eapply run_select; [carried..|]. intros t3 s3 K3 HK3 E3 Ht3. later_known E3.
  rewrite select_note_term in Ht1, Ht2, Ht3.
  eapply run_forM; [apply _| |intros s' K E HK; apply HQ; [grown|]; rewrite HK;
    split; [by intros (_ & _ & _ & H)|by intros H; split_and!]].
  intros b s4 Hb E4. cbn beta. later_known E4.
  pose proof (wk_balances _ _ _ _ H2 b Hb) as Kb. unfold balance_lcs in Kb. known_split Kb.
  bind. eapply run_old_balances_term; [carried|apply H1|]. intros a s5 K5 HK5 E5 Ha. later_known E5.
  bind. eapply run_add_note_term; [carried..|]. intros a6 s6 K6 HK6 E6 Ha6. later_known E6.
  bind. eapply run_add_note_term; [carried..|]. intros a7 s7 K7 HK7 E7 Ha7. later_known E7.
  bind. eapply run_add_note_term; [carried..|]. intros a8 s8 K8 HK8 E8 Ha8. later_known E8.
  eapply run_constrain_sub; [carried..|]. intros s9 K9 E9 HK9. rewrite HK9.
  unfold note_amount. rewrite !Zmod.add_assoc. tauto.
Qed.

#[export] Instance validate_order_updates_monotone w : Monotone (validate_order_updates w).
Proof. unfold validate_order_updates, validate_orders_equal_except_amount. apply _. Qed.

Lemma known_kept_terms s o : Forall (known r s ev) (order_lcs o) ->
  Forall2 (holds r s) (kept_terms o) (ev <$> kept_terms o).
Proof.
  intros H. apply known_holds. unfold order_lcs in H. known_split H. by repeat constructor.
Qed.

Lemma Forall_zip_Forall2 {A B} (phi : A -> B -> Prop) (l : list A) (k : list B) :
  length l = length k -> Forall (fun '(a, b) => phi a b) (zip l k) <-> Forall2 phi l k.
Proof.
  revert k; induction l as [|a l IH]; intros [|b k] Hlen; try done.
  cbn [zip zip_with]. fold (zip l k). rewrite Forall_cons, IH by (cbn in Hlen; lia).
  split; [by intros [? ?]; constructor|]. inversion 1; done.
Qed.

Lemma run_validate_order_updates w s (Q : unit -> cs -> Prop -> Prop) :
  length (wv_orders (pre_wallet w)) = length (wv_orders (post_wallet w)) ->
  wallet_known r s ev (pre_wallet w) -> wallet_known r s ev (post_wallet w) ->
  Forall (known r s ev) (note_lcs (vs_note w)) ->
  (forall s' (K : Prop), grows r s s' -> (K <-> Forall2 (settled_order ev (vs_note w))
    (wv_orders (pre_wallet w)) (wv_orders (post_wallet w))) -> Q tt s' K) ->
  run r (validate_order_updates w) s Q.
Proof.
  intros Hlen H1 H2 Hn HQ. unfold note_lcs in Hn. known_split Hn. unfold validate_order_updates.
  cbn zeta. bind. eapply run_select; [carried..|]. intros t s1 K1 HK1 E1 Ht. later_known E1.
  rewrite (Zmod.mul_0_l (1 - _)), Zmod.add_0_r in Ht.
  eapply (run_forM r _ (fun '(o, o') => settled_order ev (vs_note w) o o')); [apply _| |
    intros s' K E HK; apply HQ; [grown|]; rewrite HK, Forall_zip_Forall2 by done; tauto].
  intros [o o'] s2 Hin E2. cbn beta iota. later_known E2.
  pose proof (wk_orders _ _ _ _ H1 o (elem_of_zip_l _ _ _ _ Hin)) as Ko.
  pose proof (wk_orders _ _ _ _ H2 o' (elem_of_zip_r _ _ _ _ Hin)) as Ko'.
  bind. eapply run_constrain_eq_vec; [done|by apply known_kept_terms..|].
  intros s3 K3 E3 HK3. later_known E3. unfold order_lcs in Ko, Ko'. known_split Ko. known_split Ko'.
  bind. eapply run_eq_vec; [done|done|carried..|]. intros e s4 K4 HK4 E4 He. later_known E4.
  bind. eapply run_multiply; [carried..|]. intros ? ? m s5 E5 _ _ Hm. later_known E5.
  rewrite bit_mul_decide in Hm.
  eapply run_constrain_sub; [carried..|]. intros s6 K6 E6 HK6. rewrite HK3, HK6.
  unfold settled_order. split; [intros (Heq & _ & _ & <-); done|].
  intros [Heq ->]. done.
Qed.
End runs.

Section statement.
  Context {C : ConstraintSystem} {L : ConstraintSystemLaws C} {P : ProverLaws C}.

#[export] Instance validate_new_balances_monotone w : Monotone (validate_new_balances w).
Proof. unfold validate_new_balances. apply _. Qed.
#[export] Instance valid_settle_monotone w st : Monotone (valid_settle w st).
Proof. unfold valid_settle. apply _. Qed.

(** The variables that a caller allocates before it applies the constraints. *)
Definition settle_vars (w : ValidSettleWitnessVar) (st : ValidSettleStatementVar)
    : list LinearCombination :=
  wallet_vars (pre_wallet w) ++ wallet_vars (post_wallet w) ++
  opening_lcs (pre_wallet_opening w) ++ opening_lcs (note_opening w) ++ note_lcs (vs_note w) ++
  (lc_var <$> [post_wallet_commit st; wallet_spend_nullifier st; wallet_match_nullifier st;
    vs_note_redeem_nullifier st; vs_merkle_root st]) ++
  (lc_var <$> [sk_settle w; vs_type st]).

Lemma run_valid_settle r ev w st s :
  length (wv_orders (pre_wallet w)) = length (wv_orders (post_wallet w)) ->
  Forall (known r s ev) (settle_vars w st) ->
  run r (valid_settle w st) s (fun _ _ K => K <-> settle_relation ev w st).
Proof.
  intros Hlen Hv. unfold settle_vars in Hv. rewrite !Forall_app in Hv.
  destruct Hv as (H1 & H2 & Ho1 & Ho2 & Hn & Hst & Hv). apply wallet_known_vars in H1, H2.
  cbn [fmap list_fmap] in Hv. known_split Hv. unfold valid_settle. cbn zeta.
  bind. eapply run_validate_state_primitives; [done..|]. cbn zeta. intros s1 K1 E1 HK1.
  later_known E1.
  pose proof (wk_keys _ _ _ _ H1) as Hk1. pose proof (wk_keys _ _ _ _ H2) as Hk2.
  unfold keychain_lcs in Hk1, Hk2. known_split Hk1. known_split Hk2.
  bind. eapply run_constrain_sub; [carried..|]. intros s2 K2 E2 HK2. later_known E2.
  bind. eapply run_constrain_sub; [carried..|]. intros s3 K3 E3 HK3. later_known E3.
  bind. eapply run_constrain_sub; [carried..|]. intros s4 K4 E4 HK4. later_known E4.
  bind. eapply run_constrain_sub; [carried..|]. intros s5 K5 E5 HK5. later_known E5.
  bind. eapply run_hash_argument; [carried..|]. intros ? s6 K6 E6 HK6. later_known E6.
  pose proof (wk_randomness _ _ _ _ H1) as Hr1. pose proof (wk_randomness _ _ _ _ H2) as Hr2.
  bind. eapply run_constrain_sub; [carried..|]. intros s7 K7 E7 HK7. later_known E7.
  rewrite Zmod.mul_1_r in HK7. pose proof Hn as Hn'. unfold note_lcs in Hn'. known_split Hn'.
  bind. eapply run_constrain_sub; [carried..|]. intros s8 K8 E8 HK8. later_known E8.
  bind. unfold validate_new_balances. bind.
  eapply run_validate_balance_mints_unique; [done|]. intros s9 K9 E9 HK9. later_known E9.
  eapply run_validate_balance_updates; [done..|]. intros s10 K10 E10 HK10. later_known E10.
  eapply run_validate_order_updates; [done..|]. intros s11 K11 E11 HK11. split.
  - intros HK. constructor; try tauto. cbn [keychain_lcs fmap list_fmap].
    repeat (apply cons_eq; [tauto|]). done.
  - intros [? ? ? ? ? ? Hkeys]. cbn [keychain_lcs fmap list_fmap] in Hkeys.
    repeat (apply cons_inj in Hkeys as [? Hkeys]). tauto.
Qed.

(** C5: VALID SETTLE proves its relation, in every satisfying assignment and, with
    the converse, in honest runs: the old wallet and the note open to the root, the
    new commitment and the three nullifiers are correct, keys are kept, the prover
    knows the settle key, the randomness advances by two, the type of the note is the
    public one, mints stay unique, each new amount is the old amount of its mint plus
    the signed volumes of the note, and each order keeps everything but its amount,
    which a matched note reduces by the matched volume. *)
Theorem valid_settle_correct w st :
  length (wv_orders (pre_wallet w)) = length (wv_orders (post_wallet w)) ->
  sound (valid_settle w st) (fun a _ => settle_relation (lc_eval a) w st) /\
  forall s, Forall (lc_scoped s) (settle_vars w st) ->
    wp (valid_settle w st) s (fun _ _ K => K <-> settle_relation (value s) w st).
Proof.
  intros Hlen. split.
  - apply sound_of_run; [apply _|]. intros a Ha s.
    eapply run_mono; [apply (run_valid_settle _ (lc_eval a)); [done|apply known_any]|].
    intros [] s' K _ HK. apply HK.
  - intros s Hs. apply (run_valid_settle Honest); [done|]. by apply known_honest.
Qed.
End statement.

(** ** Witness *)

Definition sample_note_var (n : nat) : @NoteVar list_cs := {|
  nv_mint1 := wire n; nv_volume1 := wire (n + 1); nv_direction1 := wire (n + 2);
  nv_mint2 := wire (n + 3); nv_volume2 := wire (n + 4); nv_direction2 := wire (n + 5);
  nv_fee_mint := wire (n + 6); nv_fee_volume := wire (n + 7); nv_fee_direction := wire (n + 8);
  nv_type := wire (n + 9); nv_randomness := wire (n + 10) |}.

Definition sample_settle_witness : @ValidSettleWitnessVar list_cs := {|
  pre_wallet := sample_wallet_var 0; post_wallet := sample_wallet_var 19;
  pre_wallet_opening := sample_opening_var 38; note_opening := sample_opening_var 40;
  vs_note := sample_note_var 42; sk_settle := wire 58; note_commitment := wire 60 |}.

Definition sample_settle_statement : @ValidSettleStatementVar list_cs := {|
  post_wallet_commit := wire 53; post_wallet_ciphertext := [];
  wallet_spend_nullifier := wire 54; wallet_match_nullifier := wire 55;
  vs_note_redeem_nullifier := wire 56; vs_merkle_root := wire 57; vs_type := wire 59 |}.

Lemma valid_settle_correct_witness :
  let s := with_values (replicate 61 (scalar 3)) in
  cs_wf s /\ wp (valid_settle sample_settle_witness sample_settle_statement) s
    (fun _ _ K => K <-> settle_relation (value s) sample_settle_witness sample_settle_statement).
Proof.
  cbn zeta. split; [scoped|]. apply valid_settle_correct; [done|].
  by apply (wires_scoped _ (seq 0 60)).
Defined.
