(* ===== verification/ValidWalletCreate.v ===== *)
(** The statement VALID WALLET CREATE: circuits/src/zk_circuits/valid_wallet_create.rs.

    A new wallet has no balances and no orders; its commitment hashes zeros in their
    place. *)

From Stdlib Require Import Zmod.
From S2P Require Import Prelude Primality Field ConstraintSystem ListR1CS Gates Comparators.
From S2P Require Import Arithmetic FixedPoint PoseidonConstants Poseidon Types Merkle.
From S2P Require Import Commitments Readings Statements.

#[local] Open Scope Zmod_scope.
#[local] Open Scope circuit_scope.

Definition BALANCE_ZEROS : nat := 2.
Definition ORDER_ZEROS : nat := 5.

Record ValidWalletCreateWitness := {
  cw_fees : list Fee;
  cw_keys : KeyChain;
  cw_wallet_randomness : Scalar;
}.

(** * The circuit *)

Section circuit.
  Context {C : ConstraintSystem}.

Record ValidWalletCreateVar := {
  cr_fees : list FeeVar;
  cr_keys : KeyChainVar;
  cr_wallet_randomness : R1CSVar;
}.

Abbreviation absorb_all := (PoseidonHashGadget.batch_absorb default_params).

(** [check_commitment], which is all of [circuit] *)
Definition check_commitment (MAX_BALANCES MAX_ORDERS : nat) (expected_commit : R1CSVar)
    (witness : ValidWalletCreateVar) : circuit unit :=
  let hasher := PoseidonHashGadget.new default_params in
  let zeros := replicate (MAX_BALANCES * BALANCE_ZEROS + MAX_ORDERS * ORDER_ZEROS)
    (lc_scalar 0) in
  let! hasher := absorb_all hasher zeros in
  let! hasher := foldM (fun hasher fee =>
    absorb_all hasher [lc_var (fv_settle_key fee); lc_var (fv_gas_addr fee);
      lc_var (fv_gas_token_amount fee); FixedPointVar.repr (fv_percentage_fee fee)])
    hasher (cr_fees witness) in
  let! hasher := absorb_all hasher
    [lc_var (kv_pk_root (cr_keys witness)); lc_var (kv_pk_match (cr_keys witness));
     lc_var (kv_pk_settle (cr_keys witness)); lc_var (kv_pk_view (cr_keys witness))] in
  let! hasher :=
    PoseidonHashGadget.absorb default_params hasher (lc_var (cr_wallet_randomness witness)) in
  PoseidonHashGadget.constrained_squeeze default_params hasher (lc_var expected_commit) ;;
  c_ret tt.

(** [impl CommitProver for ValidWalletCreateWitness] *)
Definition commit_create_witness (self : ValidWalletCreateWitness) : circuit ValidWalletCreateVar :=
  let! fee_vars := mapM commit_fee (cw_fees self) in
  let! keychain_var := commit_keychain (cw_keys self) in
  let! randomness_var := commit (cw_wallet_randomness self) in
  c_ret {| cr_fees := fee_vars; cr_keys := keychain_var; cr_wallet_randomness := randomness_var |}.

(** [prove], up to the proof of the constraints *)
Definition prove_wallet_create (MAX_BALANCES MAX_ORDERS : nat) (witness : ValidWalletCreateWitness)
    (wallet_commitment : Scalar) : circuit unit :=
  let! witness_var := commit_create_witness witness in
  let! wallet_commitment_var := commit_public wallet_commitment in
  check_commitment MAX_BALANCES MAX_ORDERS wallet_commitment_var witness_var.
End circuit.

(** * The wallet that is created *)

Definition zero_balance : Balance := {| balance_mint := 0; balance_amount := 0 |}.

Definition zero_order : Order := {|
  order_quote_mint := 0; order_base_mint := 0; order_side := Buy;
  order_price := FixedPoint.from_u64 0; order_amount := 0; order_timestamp := 0 |}.

Definition created_wallet (MAX_BALANCES MAX_ORDERS : nat) (w : ValidWalletCreateWitness) : Wallet := {|
  wallet_balances := replicate MAX_BALANCES zero_balance;
  wallet_orders := replicate MAX_ORDERS zero_order;
  wallet_fees := cw_fees w; wallet_keys := cw_keys w;
  wallet_randomness := cw_wallet_randomness w |}.

Lemma concat_replicate_zeros {A} (f : A -> list Scalar) (x : A) n k :
  f x = replicate k 0 -> concat (f <$> replicate n x) = replicate (n * k) 0.
Proof.
  intros Hx. induction n as [|n IH]; [done|].
  cbn [replicate fmap list_fmap concat]. by rewrite IH, Hx, <- replicate_add.
Qed.

Section properties.
  Context {C : ConstraintSystem} {L : ConstraintSystemLaws C} {P : ProverLaws C}.
  Context (MAX_BALANCES MAX_ORDERS : nat).

(** The linear combinations that the circuit hashes. *)
Definition create_lcs (v : ValidWalletCreateVar) : list LinearCombination :=
  replicate (MAX_BALANCES * BALANCE_ZEROS + MAX_ORDERS * ORDER_ZEROS) (lc_scalar 0) ++
  concat (fee_lcs <$> cr_fees v) ++ keychain_lcs (cr_keys v) ++
  [lc_var (cr_wallet_randomness v)].

Lemma check_commitment_digest expected v s :
  check_commitment MAX_BALANCES MAX_ORDERS expected v s =
  (hash_argument (create_lcs v) (lc_var expected) ;; c_ret tt) s.
Proof.
  unfold check_commitment, PoseidonHashGadget.hash, create_lcs, PoseidonHashGadget.batch_absorb.
  cbn zeta. set (f := PoseidonHashGadget.absorb default_params). rewrite c_bind_assoc.
  rewrite foldM_app_bind. apply c_bind_ext; [done|]. intros h1 s1.
  rewrite foldM_app_bind. apply c_bind_ext; [apply foldM_concat|]. intros h2 s2.
  rewrite foldM_app_bind. apply c_bind_ext; [done|]. intros h3 s3.
  apply c_bind_ext; [|done]. cbn [foldM]. unfold c_bind, c_ret.
  by destruct (f h3 _ s3) as [[? ?]| |].
Qed.

#[export] Instance check_commitment_monotone e v :
  Monotone (check_commitment MAX_BALANCES MAX_ORDERS e v).
Proof. intros s a s' w E. rewrite check_commitment_digest in E. revert E. apply monotone. Qed.

Lemma run_check_commitment r ev e v s :
  Forall (known r s ev) (create_lcs v) -> known r s ev (lc_var e) ->
  run r (check_commitment MAX_BALANCES MAX_ORDERS e v) s (fun _ _ K =>
    K <-> ev (lc_var e) = Native.sponge default_params (ev <$> create_lcs v)).
Proof.
  intros Hv He. eapply run_ext; [apply check_commitment_digest|]. bind.
  eapply run_hash_argument; [by apply known_holds|done|]. intros h s1 K1 E1 HK1.
  apply run_ret. tauto.
Qed.

Lemma created_preimage scalar_to_u64 w v s :
  (forall a, (Zmod.to_Z a < 2 ^ 64)%Z -> scalar_to_u64 a = Zmod.to_Z a) ->
  Forall (fun f => big (fee_settle_key f) /\ big (fee_gas_addr f) /\
    small_price (fee_percentage_fee f)) (cw_fees w) ->
  Forall2 (allocated s) (cw_fees w) (cr_fees v) -> allocated s (cw_keys w) (cr_keys v) ->
  lc_scoped s (lc_var (cr_wallet_randomness v)) ->
  value s (cr_wallet_randomness v) = cw_wallet_randomness w ->
  Forall (lc_scoped s) (create_lcs v) /\
  Native.sponge default_params (value s <$> create_lcs v) =
    compute_wallet_commitment (Native.sponge default_params) scalar_to_u64
      (created_wallet MAX_BALANCES MAX_ORDERS w).
Proof.
  intros Hu64 Hf Af [Ak Vk] Hr Vr. unfold create_lcs, compute_wallet_commitment.
  destruct (concat_values fee_commit fee_lcs (fee_preimage scalar_to_u64) _ s _ _ Hf Af) as [Hs Hv].
  { intros x y (Hk & Hg & Hp) [Hs Hv]. split; [done|].
    cbn [var_lcs encoding fee_commit] in Hv. rewrite Hv. unfold fee_preimage.
    by rewrite (price_absorbed scalar_to_u64 Hu64), !biguint_to_scalar_small. }
  cbn [var_lcs encoding keychain_commit] in Ak, Vk. split.
  - rewrite !Forall_app. split_and!; [|done|done|by repeat constructor].
    apply Forall_replicate. scoped.
  - f_equal. rewrite !fmap_app, Hv, Vk. cbn [created_wallet wallet_balances wallet_orders
      wallet_fees wallet_keys wallet_randomness fmap list_fmap]. rewrite Vr.
    rewrite (concat_replicate_zeros _ _ _ BALANCE_ZEROS) by done.
    rewrite (concat_replicate_zeros _ _ _ ORDER_ZEROS).
    + rewrite (app_assoc (replicate _ _) (replicate _ _)), <- replicate_add. f_equal.
      rewrite fmap_replicate, value_scalar. done.
    + unfold order_preimage. cbn [zero_order order_price FixedPoint.from_u64 FixedPoint.repr].
      by rewrite Hu64.
Qed.

End properties.

